(* ===== verification/_CoqProject ===== *)
-Q . S2P
Prelude.v
GoStrings.v
GoHeap.v
MemStorage.v
Yenc.v
Extents.v
Assembly.v
ByteBudget.v
SlotSem.v
SegCache.v
FtpPool.v
NetIP.v
Netguard.v
FtpOpen.v
FileAt.v
TsScan.v
SegIndex.v
EngineMgr.v
Janitor.v
Boundary.v
Nntp.v
NzbSession.v
HttpRange.v
Encoding.v
NetURL.v
ProxyAuth.v
ProxyURL.v
ProxyServe.v
HlsRewrite.v
Mp4.v
Mp4Print.v
Cenc.v
Drm.v
Packager.v
