(* ===== verification/Prelude.v ===== *)
(** * Verification of a BitTorrent, Usenet and FTP streaming server

    The program serves media over HTTP while it is still being fetched.  This
    library models the parts of it that keep state and must not corrupt, lose or
    block a stream, and proves what each promises.

    ** How the parts interact

    A player's read of a torrent goes through a reader of the engine, whose
    manager decides which torrents live and what is deleted; the pieces lie in a
    directory or in the RAM store.  A read of a Usenet file waits on an assembly,
    which connections fill with decoded articles.  A read of an archive member on
    disk goes through a file that holds no handle, one of a remote file through
    the FTP or HTTP opener and the session pool; the address guard judges every
    dial, and the range parser decides which bytes are sent.  Proxied segments pass the memory
    budget into the segment cache; transcoded ones pass the slot semaphore and the
    segment check into the index of the session's directory.

    ** The files, and the code they model

    - [Prelude]: automation, results, machine integers, sums over lists and maps.
    - [GoStrings]: the functions of strings, strconv, bufio and hash/crc32 the
      code calls.  [GoHeap]: byte slices as regions of shared backing arrays.
    - [MemStorage] (internal/engine/memstorage.go): the bounded piece store with
      its LRU list, reservations and refetch waits; every method, on a heap of
      buffers.  Theorems: the budget and list invariant in every reachable state,
      eviction order, what ReadAt, WriteAt, WriteTo and MarkComplete return.
    - [EngineMgr], [Janitor], [Boundary] (internal/engine/engine.go).  [EngineMgr]
      is a step relation over the engine map, the purges in flight and the open
      readers, cut at the locks: a directory is never deleted under a live engine,
      waiters are woken, EnsureEngine's outcomes.  [Janitor] has the passes that
      enforce the cache budget and the memo that skips them.  [Boundary] has the
      marks of files being read and the priorities of their pieces.
    - [Yenc] (internal/nzb/yenc.go): the article decoder, its soundness against a
      specification of yEnc and its round trip with an encoder.
    - [Extents], [Assembly] (internal/nzb/assembly.go): the file assembled from
      articles that arrive in any order; what is covered was written, readers are
      woken, a complete file is whole, the scheduler makes progress.
    - [Nntp], [NzbSession] (internal/nzb/nntp.go, session.go, nzb.go): the NNTP
      client over net/textproto and the sequential download of a file, sound
      whatever the servers send, complete when they answer.
    - [FileAt] (internal/archive/fileat.go): ReadAt against os.File's.
    - [FtpPool], [FtpOpen] (internal/ftpstream/pool.go, ftpstream.go): the life of
      a control connection under concurrent leases and cancellation; the metadata
      caches, the pre-flight check and the offset a body starts at.
    - [ByteBudget], [SegCache] (internal/streamproxy/membudget.go, cache.go): the
      fair byte semaphore and the segment cache as a refinement of a table.
    - [SlotSem], [TsScan], [SegIndex] (internal/media/slotsem.go, segcheck.go,
      segindex.go): the transcoder's semaphore, the MPEG-TS scan and retry
      decision, the eviction of cached segments.
    - [NetIP], [Netguard] (internal/netguard/netguard.go, allow.go): Go's address
      type, parser and printer, with their round trip; which addresses the guard
      refuses, as spans of numbers, and what an operator's allowlist lets through.
    - [HttpRange] (internal/api/api.go, ftp.go): the range parser and the answers
      built on it, for a torrent's file and for a proxied resource.

    A definition bears the name of the Go function it models; a part of one that
    is a critical section or a loop has a name of its own ([ensureLocked],
    [evict_loop]).  Where goroutines interleave, a record holds the shared state
    and an inductive [step] has a constructor per critical section; invariants are
    proved by rule induction through [rtc_invariant].  Maps are gmap, an order Go
    leaves open is an argument, a fallible call returns [result] or [option].
    Integers are Z; [int64], [uint32] and the like reduce where the code can
    overflow or means to wrap, and elsewhere the hypotheses bound the inputs.

    ** Fuel and bounds

    Loops that are not structural take fuel that suffices for every input, which
    the theorems show by giving the result outright: formatting a number takes 64
    digits, the eviction loops one turn per entry they can drop, fileAt's read
    four turns (at most one open), the continuation lines of a response one turn
    per byte received, the MPEG-TS scan one per byte, the PAT and PMT
    loops one per byte of the section, the buffered writer one per byte to write,
    the fields of an IPv6 address eight.

    ** The environment

    Code outside the repository is a parameter or a choice of the step relation:
    the torrent client (what it accepts, when a torrent has its info, its
    counters), the file system (sizes, listings, outcomes of removal), servers and
    sockets, SHA-256, the clock, and the order of map iteration.  A cache
    directory is CacheRoot and one more component.  [Boundary] assumes nothing of
    the torrent but its list of files, and that a file's piece range is the one
    the library reports.

    ** Not modelled

    Of modelled files: tracker merging, statistics, rate limits, the seed ratio
    and the refetch deduplication of engine.go; the single-flight table, upstream
    fetch and prefetch of cache.go; judgeSegment and segExpectation, which compute
    on floating point seconds; dialling and TLS of the FTP
    and NNTP clients, XML decoding and the closing of an NZB session.  Mutual
    exclusion itself is taken from sync.Mutex, and memory ordering from Go.

    Of the rest: tracker lists and proxy authentication are the next to model.  The HTTP routes, ffmpeg
    supervision, playlist rewriting, DRM, casting, indexers, certificates,
    settings and logging are glue over libraries or processes that the kernel
    cannot see. *)

From stdpp Require Export base gmap strings list sorting numbers relations.
From Stdlib Require Export ZArith Lia.

#[global] Open Scope Z_scope.

(** * Scopes, hint databases and tactics *)

Declare Scope go_scope.
Delimit Scope go_scope with go.

Create HintDb go discriminated.
Create Rewrite HintDb go.
Create Rewrite HintDb go_len.

(** Splits every boolean comparison in sight into its proposition. *)
Ltac bool_to_prop :=
  repeat match goal with
  | H : _ && _ = true |- _ => apply andb_true_iff in H as [? ?]
  | H : _ || _ = false |- _ => apply orb_false_iff in H as [? ?]
  | H : negb _ = true |- _ => apply negb_true_iff in H
  | H : negb _ = false |- _ => apply negb_false_iff in H
  | H : (_ <=? _) = true |- _ => apply Z.leb_le in H
  | H : (_ <=? _) = false |- _ => apply Z.leb_gt in H
  | H : (_ <? _) = true |- _ => apply Z.ltb_lt in H
  | H : (_ <? _) = false |- _ => apply Z.ltb_ge in H
  | H : (_ =? _) = true |- _ => apply Z.eqb_eq in H
  | H : (_ =? _) = false |- _ => apply Z.eqb_neq in H
  | H : (_ >? _) = _ |- _ => rewrite Z.gtb_ltb in H
  | H : (_ >=? _) = _ |- _ => rewrite Z.geb_leb in H
  end.

(** Case analysis on the first [if]/[match] scrutinee that is not itself a case. *)
Ltac go_case :=
  match goal with
  | |- context [if ?b then _ else _] => destruct b eqn:?
  | |- context [match ?x with _ => _ end] => destruct x eqn:?
  end.

Ltac go_case_in H :=
  match type of H with
  | context [if ?b then _ else _] => destruct b eqn:?
  | context [match ?x with _ => _ end] => destruct x eqn:?
  end.

(** Runs a chain of early returns in [H] down to its surviving branches. *)
Ltac go_branches H := repeat (go_case_in H; try discriminate H); simplify_eq/=.

(** Closes a decidable goal by evaluating its decision procedure. *)
Ltac by_decide := apply (bool_decide_unpack _); vm_compute; exact I.

(** * Results: Go's [(value, error)] pair, one constructor for each outcome *)

Inductive result (E A : Type) : Type :=
| Ok (a : A)
| Err (e : E).
Arguments Ok {E A} a.
Arguments Err {E A} e.

Definition result_bind {E A B} (r : result E A) (f : A -> result E B) : result E B :=
  match r with
  | Ok a => f a
  | Err e => Err e
  end.

Notation "'try!' x := r 'in' k" := (result_bind r (fun x => k))
  (at level 10, x pattern, r at level 100, k at level 200) : go_scope.

(** * Machine integers *)

(** Two's-complement reduction of an unbounded integer to [w] bits, signed. *)
Definition wrapS (w z : Z) : Z :=
  (z + 2 ^ (w - 1)) mod 2 ^ w - 2 ^ (w - 1).

(** Unsigned reduction to [w] bits. *)
Definition wrapU (w z : Z) : Z := z mod 2 ^ w.

Definition int64 (z : Z) : Z := wrapS 64 z.
Definition uint8 (z : Z) : Z := wrapU 8 z.
Definition uint16 (z : Z) : Z := wrapU 16 z.
Definition uint32 (z : Z) : Z := wrapU 32 z.

Definition maxInt64 : Z := 2 ^ 63 - 1.
Definition in_int64 (z : Z) : Prop := - 2 ^ 63 <= z < 2 ^ 63.

(** * Reflexive-transitive runs of a step relation carry invariants *)

Section Runs.
Context {St : Type} (step : St -> St -> Prop).

(** An invariant of the step relation holds along every run. *)
Lemma rtc_invariant (P : St -> Prop) :
  (forall s s', P s -> step s s' -> P s') ->
  forall s s', rtc step s s' -> P s -> P s'.
Proof. intros Hstep s s' Hr. induction Hr; eauto. Qed.

End Runs.

(** * Integers *)

Lemma wrapS_id w z : 0 < w -> - 2 ^ (w - 1) <= z < 2 ^ (w - 1) -> wrapS w z = z.
Proof.
  intros Hw Hz. unfold wrapS.
  assert (2 ^ w = 2 * 2 ^ (w - 1)) as E.
  { rewrite <- Z.pow_succ_r by lia. f_equal. lia. }
  rewrite Z.mod_small by lia. lia.
Qed.

Lemma wrapS_range w z : 0 < w -> - 2 ^ (w - 1) <= wrapS w z < 2 ^ (w - 1).
Proof.
  intros Hw. unfold wrapS. pose proof (Z.mod_pos_bound (z + 2 ^ (w - 1)) (2 ^ w) ltac:(apply Z.pow_pos_nonneg; lia)).
  assert (2 ^ w = 2 * 2 ^ (w - 1)) as E by (rewrite <- Z.pow_succ_r by lia; f_equal; lia). lia.
Qed.

Lemma int64_id z : in_int64 z -> int64 z = z.
Proof. intros H. apply wrapS_id; [lia|]. exact H. Qed.

Lemma int64_range z : in_int64 (int64 z).
Proof.
  unfold in_int64, int64, wrapS. change (64 - 1) with 63.
  pose proof (Z.mod_pos_bound (z + 2 ^ 63) (2 ^ 64) ltac:(lia)). lia.
Qed.

Lemma uint8_range z : 0 <= uint8 z < 256.
Proof. unfold uint8, wrapU. change (2 ^ 8) with 256. apply Z.mod_pos_bound. lia. Qed.

Lemma uint8_id z : 0 <= z < 256 -> uint8 z = z.
Proof. intros H. unfold uint8, wrapU. change (2 ^ 8) with 256. by apply Z.mod_small. Qed.

#[export] Hint Resolve uint8_range int64_range : go.

(** * Sums over lists *)

Definition sumZ {A} (f : A -> Z) (l : list A) : Z :=
  foldr (fun a acc => f a + acc) 0 l.

Lemma sumZ_cons {A} (f : A -> Z) a l : sumZ f (a :: l) = f a + sumZ f l.
Proof. done. Qed.

Lemma sumZ_app {A} (f : A -> Z) l k : sumZ f (l ++ k) = sumZ f l + sumZ f k.
Proof. induction l; simpl; lia. Qed.

#[export] Instance sumZ_Permutation {A} (f : A -> Z) :
  Proper (Permutation ==> eq) (sumZ f).
Proof. intros l k H. induction H; simpl; lia. Qed.

Lemma sumZ_nonneg {A} (f : A -> Z) l : (forall a, a ∈ l -> 0 <= f a) -> 0 <= sumZ f l.
Proof.
  induction l as [|a l IH]; intros H; simpl; [lia|].
  pose proof (H a ltac:(set_solver)). specialize (IH ltac:(set_solver)). lia.
Qed.

Lemma sumZ_ext {A} (f g : A -> Z) l : (forall a, a ∈ l -> f a = g a) -> sumZ f l = sumZ g l.
Proof.
  induction l as [|a l IH]; intros H; simpl; [done|].
  rewrite H by set_solver. rewrite IH by set_solver. done.
Qed.

Lemma sumZ_elem_le {A} (f : A -> Z) l a :
  (forall b, b ∈ l -> 0 <= f b) -> a ∈ l -> f a <= sumZ f l.
Proof.
  intros Hn (l1 & l2 & ->)%list_elem_of_split.
  rewrite sumZ_app. simpl.
  pose proof (sumZ_nonneg f l1 ltac:(set_solver)).
  pose proof (sumZ_nonneg f l2 ltac:(set_solver)). lia.
Qed.

Lemma sumZ_insert {A} (f : A -> Z) l i x y :
  l !! i = Some x -> sumZ f (<[i := y]> l) = sumZ f l - f x + f y.
Proof.
  revert i. induction l as [|a l IH]; intros i Hi; [done|].
  destruct i as [|i]; simplify_eq/=; [lia|]. rewrite (IH i) by done. lia.
Qed.

Lemma sumZ_pos_elem {A} (f : A -> Z) l :
  (forall a, a ∈ l -> 0 <= f a) -> 0 < sumZ f l -> exists a, a ∈ l /\ 0 < f a.
Proof.
  induction l as [|a l IH]; simpl; [lia|]. intros Hn Hs.
  destruct (decide (0 < f a)) as [|Ha]; [exists a; split; [left|done]|].
  destruct IH as (b & Hb & ?).
  - intros b Hb. apply Hn. by right.
  - pose proof (Hn a ltac:(left)). lia.
  - exists b. split; [by right|done].
Qed.

Lemma sumZ_zero_elem {A} (f : A -> Z) l a :
  (forall a, a ∈ l -> 0 <= f a) -> sumZ f l = 0 -> a ∈ l -> f a = 0.
Proof. intros Hn Hs Ha. pose proof (sumZ_elem_le f l a Hn Ha). pose proof (Hn a Ha). lia. Qed.

Lemma sumZ_replicate {A} (f : A -> Z) n a : sumZ f (replicate n a) = Z.of_nat n * f a.
Proof. induction n; simpl; lia. Qed.

(** Sum of a weight over a finite map's values. *)
Definition msum {K A} `{Countable K} (f : A -> Z) (m : gmap K A) : Z :=
  map_fold (fun _ a acc => f a + acc) 0 m.

Section Msum.
Context {K A : Type} `{Countable K} (f : A -> Z).
Implicit Types m : gmap K A.

Lemma msum_empty : msum f (∅ : gmap K A) = 0.
Proof. apply map_fold_empty. Qed.

Lemma msum_insert_new m k a : m !! k = None -> msum f (<[k:=a]> m) = f a + msum f m.
Proof.
  intros Hk. unfold msum. rewrite map_fold_insert_L; [done| |done].
  intros. lia.
Qed.

Lemma msum_delete m k a : m !! k = Some a -> msum f m = f a + msum f (delete k m).
Proof.
  intros Hk. rewrite <- (insert_delete_id m k a Hk) at 1.
  apply msum_insert_new. apply lookup_delete_eq.
Qed.

Lemma msum_insert_old m k a b :
  m !! k = Some b -> msum f (<[k:=a]> m) = msum f m - f b + f a.
Proof.
  intros Hk. rewrite (msum_delete m k b Hk).
  rewrite <- insert_delete_eq, msum_insert_new by apply lookup_delete_eq. lia.
Qed.

Lemma msum_alter m k a g :
  m !! k = Some a -> msum f (alter g k m) = msum f m - f a + f (g a).
Proof. intros Hk. rewrite (alter_alt_Some _ _ _ _ Hk). by apply msum_insert_old. Qed.

Lemma msum_nonneg m : (forall k a, m !! k = Some a -> 0 <= f a) -> 0 <= msum f m.
Proof.
  induction m as [|k a m Hk IH] using map_ind; intros Hn.
  { by rewrite msum_empty. }
  rewrite msum_insert_new by done.
  pose proof (Hn k a (lookup_insert_eq _ _ _)).
  assert (0 <= msum f m); [|lia].
  apply IH. intros k' a' Hk'. apply (Hn k' a').
  rewrite lookup_insert_ne; [done|congruence].
Qed.

Lemma msum_zero m : (forall k a, m !! k = Some a -> f a = 0) -> msum f m = 0.
Proof.
  induction m as [|k a m Hk IH] using map_ind; intros Hz; [by apply msum_empty|].
  rewrite msum_insert_new, (Hz k a), IH; [done| |by rewrite lookup_insert_eq|done].
  intros k' a' Hk'. apply (Hz k'). rewrite lookup_insert_ne; [done|congruence].
Qed.

Lemma msum_elem_le m k a :
  (forall k' a', m !! k' = Some a' -> 0 <= f a') -> m !! k = Some a -> f a <= msum f m.
Proof.
  intros Hn Hk. rewrite (msum_delete m k a Hk).
  assert (0 <= msum f (delete k m)); [|lia].
  apply msum_nonneg. intros k' a' [? ?]%lookup_delete_Some. eauto.
Qed.

End Msum.

Lemma msum_fmap {K A B} `{Countable K} (f : B -> Z) (g : A -> B) (m : gmap K A) :
  msum f (g <$> m) = msum (fun a => f (g a)) m.
Proof.
  induction m as [|k a m Hk IH] using map_ind.
  { by rewrite fmap_empty, !msum_empty. }
  rewrite fmap_insert, !msum_insert_new, IH; [done|done|]. by rewrite lookup_fmap, Hk.
Qed.

(** The sum over a map is the sum over any duplicate-free list of its keys. *)
Lemma msum_keys {K A} `{Countable K} (f : A -> Z) (l : list K) (m : gmap K A) :
  NoDup l -> (forall k, k ∈ l <-> is_Some (m !! k)) ->
  msum f m = sumZ (fun k => from_option f 0 (m !! k)) l.
Proof.
  revert m. induction l as [|k l IH]; intros m Hnd Hd.
  - assert (m = ∅) as ->; [|apply msum_empty]. apply map_empty. intros k.
    apply eq_None_not_Some. rewrite <- Hd. set_solver.
  - apply NoDup_cons in Hnd as [Hk Hnd].
    destruct (proj1 (Hd k) (list_elem_of_here _ _)) as [a Ha].
    rewrite (msum_delete f m k a Ha), (IH (delete k m)).
    + rewrite sumZ_cons, Ha. cbn. f_equal. apply sumZ_ext. intros k' Hk'.
      rewrite lookup_delete_ne; [done|]. by intros ->.
    + done.
    + intros k'. rewrite lookup_delete_is_Some, <- Hd, elem_of_cons. split; [|naive_solver].
      intros Hk'. split; [by intros ->|]. by right.
Qed.

(** Deleting several keys. *)
Definition deleteKeys {K A} `{Countable K} (l : list K) (m : gmap K A) : gmap K A := foldr delete m l.

Lemma deleteKeys_lookup {K A} `{Countable K} (l : list K) (m : gmap K A) k :
  deleteKeys l m !! k = if decide (k ∈ l) then None else m !! k.
Proof.
  induction l as [|x l IH]; [cbn; by rewrite decide_False by apply not_elem_of_nil|].
  change (deleteKeys (x :: l) m) with (delete x (deleteKeys l m)). destruct (decide (k = x)) as [->|Hne].
  - rewrite lookup_delete_eq, decide_True by left. done.
  - rewrite lookup_delete_ne, IH by done. apply decide_ext. rewrite elem_of_cons. naive_solver.
Qed.

Lemma deleteKeys_delete {K A} `{Countable K} (x : K) l (m : gmap K A) : deleteKeys l (delete x m) = deleteKeys (x :: l) m.
Proof.
  apply map_eq. intros k. rewrite !deleteKeys_lookup. destruct (decide (k = x)) as [->|Hne].
  - rewrite (decide_True (P := x ∈ x :: l)) by left. rewrite lookup_delete_eq. by case_decide.
  - rewrite lookup_delete_ne by done. apply decide_ext. rewrite elem_of_cons. naive_solver.
Qed.

Lemma msum_deleteKeys {K A} `{Countable K} (f : A -> Z) (l : list K) (m : gmap K A) :
  NoDup l -> (forall k, k ∈ l -> is_Some (m !! k)) ->
  msum f m = msum f (deleteKeys l m) + sumZ (fun k => from_option f 0 (m !! k)) l.
Proof.
  induction l as [|x l IH]; intros Hnd Hin; [cbn; lia|]. apply NoDup_cons in Hnd as [Hx Hnd].
  rewrite IH by (try done; intros; apply Hin; by right). rewrite sumZ_cons.
  change (deleteKeys (x :: l) m) with (delete x (deleteKeys l m)).
  destruct (Hin x ltac:(left)) as [a Ha]. rewrite Ha. cbn [from_option].
  rewrite (msum_delete f (deleteKeys l m) x a) by (by rewrite deleteKeys_lookup, decide_False). lia.
Qed.

Lemma msum_ext {K A} `{Countable K} (f g : A -> Z) (m : gmap K A) :
  (forall k a, m !! k = Some a -> f a = g a) -> msum f m = msum g m.
Proof.
  induction m as [|k a m Hk IH] using map_ind; intros Hfg; [by rewrite !msum_empty|].
  rewrite !msum_insert_new by done. rewrite (Hfg k a) by apply lookup_insert_eq.
  rewrite IH; [done|]. intros k' a' Hk'. apply (Hfg k'). rewrite lookup_insert_ne; congruence.
Qed.

#[export] Hint Rewrite @length_insert @length_app @length_fmap @length_replicate
  @length_take @length_drop : go_len.

Ltac len := autorewrite with go_len in *; try lia.
