(* ===== verification/GoStrings.v ===== *)
(** The parts of Go's strings, bytes, strconv, bufio and hash/crc32 packages
    the development's components use, on byte strings.

    A Go string or byte slice is a [list Z] of bytes.  Character classes
    (spaces, letter case) are those of ASCII. *)

From S2P Require Import Prelude.

Abbreviation bytes := (list Z).

(** The bytes of a string literal. *)
Fixpoint bs (s : string) : bytes :=
  match s with
  | EmptyString => []
  | String c s => Z.of_nat (Ascii.nat_of_ascii c) :: bs s
  end.

Definition is_byte (b : Z) : Prop := 0 <= b < 256.

(** * strings *)

Fixpoint HasPrefix (s pre : bytes) {struct pre} : bool :=
  match pre, s with
  | [], _ => true
  | c :: pre, d :: s => (c =? d) && HasPrefix s pre
  | _ :: _, [] => false
  end.

Definition HasSuffix (s suf : bytes) : bool := HasPrefix (rev s) (rev suf).

Definition TrimPrefix (s pre : bytes) : bytes := if HasPrefix s pre then drop (length pre) s else s.

Definition TrimSuffix (s suf : bytes) : bytes :=
  if HasSuffix s suf then take (length s - length suf) s else s.

(** unicode.IsSpace on ASCII. *)
Definition isSpace (c : Z) : bool := ((9 <=? c) && (c <=? 13)) || (c =? 32).

Fixpoint trimLeft (s : bytes) : bytes :=
  match s with
  | c :: s' => if isSpace c then trimLeft s' else s
  | [] => []
  end.

Definition TrimSpace (s : bytes) : bytes := rev (trimLeft (rev (trimLeft s))).

(** strings.Fields: the maximal runs of non-space bytes; [cur] is the field
    being read, in reverse. *)
Fixpoint fields_from (cur : bytes) (s : bytes) : list bytes :=
  match s with
  | [] => match cur with [] => [] | _ => [rev cur] end
  | c :: s =>
      if isSpace c
      then match cur with [] => fields_from [] s | _ => rev cur :: fields_from [] s end
      else fields_from (c :: cur) s
  end.

Definition Fields (s : bytes) : list bytes := fields_from [] s.

(** strings.IndexByte. *)
Fixpoint IndexByte (s : bytes) (c : Z) : option nat :=
  match s with
  | [] => None
  | d :: s => if d =? c then Some 0%nat else S <$> IndexByte s c
  end.

(** strings.Cut for a one-byte separator. *)
Definition Cut (s : bytes) (sep : Z) : option (bytes * bytes) :=
  match IndexByte s sep with
  | Some i => Some (take i s, drop (S i) s)
  | None => None
  end.

(** strings.Split for a one-byte separator: never the empty list. *)
Fixpoint split_from (cur : bytes) (s : bytes) (sep : Z) : list bytes :=
  match s with
  | [] => [rev cur]
  | c :: s => if c =? sep then rev cur :: split_from [] s sep else split_from (c :: cur) s sep
  end.

Definition Split (s : bytes) (sep : Z) : list bytes := split_from [] s sep.

Definition toLower1 (c : Z) : Z := if (65 <=? c) && (c <=? 90) then c + 32 else c.

Definition ToLower (s : bytes) : bytes := toLower1 <$> s.

Definition toUpper1 (c : Z) : Z := if (97 <=? c) && (c <=? 122) then c - 32 else c.

Definition ToUpper (s : bytes) : bytes := toUpper1 <$> s.

Definition EqualFold (s t : bytes) : bool := bool_decide (ToLower s = ToLower t).

Definition ContainsByte (s : bytes) (c : Z) : bool := existsb (Z.eqb c) s.

(** strings.TrimLeft and Trim, for a set of bytes. *)
Fixpoint TrimLeft (s set : bytes) : bytes :=
  match s with
  | [] => []
  | c :: t => if ContainsByte set c then TrimLeft t set else s
  end.

Definition TrimRight (s set : bytes) : bytes := rev (TrimLeft (rev s) set).

Definition Trim (s set : bytes) : bytes := TrimRight (TrimLeft s set) set.

(** strings.ReplaceAll of a text that is not empty; [skip] bytes of the last
    match are left to pass over. *)
Fixpoint replace_from (old new : bytes) (skip : nat) (s : bytes) : bytes :=
  match s with
  | [] => []
  | c :: t =>
      match skip with
      | S skip => replace_from old new skip t
      | O => if HasPrefix s old then new ++ replace_from old new (length old - 1) t
             else c :: replace_from old new 0 t
      end
  end.

Definition ReplaceAll (s old new : bytes) : bytes := replace_from old new 0 s.

(** strings.Contains and bytes.Contains. *)
Fixpoint Contains (s m : bytes) : bool :=
  HasPrefix s m || match s with [] => false | _ :: s => Contains s m end.

(** * strconv *)

Inductive numErr := ErrSyntax | ErrRange.

(** The value of one digit in bases up to 16. *)
Definition digit (c : Z) : option Z :=
  if (48 <=? c) && (c <=? 57) then Some (c - 48)
  else if (97 <=? c) && (c <=? 102) then Some (c - 97 + 10)
  else if (65 <=? c) && (c <=? 70) then Some (c - 65 + 10)
  else None.

(** The digits of a number, unbounded; [None] on a byte that is no digit of
    the base. *)
Fixpoint digits (base acc : Z) (s : bytes) : option Z :=
  match s with
  | [] => Some acc
  | c :: s =>
      match digit c with
      | Some d => if d <? base then digits base (acc * base + d) s else None
      | None => None
      end
  end.

(** strconv.ParseUint(s, base, bits), for an explicit base. *)
Definition ParseUint (s : bytes) (base bits : Z) : result numErr Z :=
  match s with
  | [] => Err ErrSyntax
  | _ => match digits base 0 s with
         | None => Err ErrSyntax
         | Some n => if n <? 2 ^ bits then Ok n else Err ErrRange
         end
  end.

(** strconv.ParseInt(s, 10, bits). *)
Definition ParseInt (s : bytes) (bits : Z) : result numErr Z :=
  let '(neg, ds) :=
    match s with
    | 43 :: ds => (false, ds)
    | 45 :: ds => (true, ds)
    | _ => (false, s)
    end in
  match ds with
  | [] => Err ErrSyntax
  | _ => match digits 10 0 ds with
         | None => Err ErrSyntax
         | Some n =>
             if neg then if n <=? 2 ^ (bits - 1) then Ok (- n) else Err ErrRange
             else if n <? 2 ^ (bits - 1) then Ok n else Err ErrRange
         end
  end.

(** strconv.Atoi on a 64-bit platform. *)
Definition Atoi (s : bytes) : result numErr Z := ParseInt s 64.

(** The digit of a value below 16. *)
Definition digitChar (d : Z) : Z := if d <? 10 then 48 + d else 97 + (d - 10).

(** strconv.FormatUint in reverse; [fuel] bounds the digits: 64 bits have at
    most 64 of them in any base. *)
Fixpoint format_loop (fuel : nat) (base n : Z) (acc : bytes) : bytes :=
  match fuel with
  | O => acc
  | S fuel =>
      let acc := digitChar (n mod base) :: acc in
      if n <? base then acc else format_loop fuel base (n / base) acc
  end.

Definition FormatUint (n base : Z) : bytes := format_loop 64 base n [].

Definition Itoa (n : Z) : bytes :=
  if n <? 0 then 45 :: FormatUint (- n) 10 else FormatUint n 10.

Arguments FormatUint : simpl never.
Arguments Itoa : simpl never.

(** * hash/crc32 *)

Definition crc_poly : Z := 3988292384.   (* 0xEDB88320 *)

Definition crc_bit (c : Z) : Z :=
  if Z.odd c then Z.lxor (Z.shiftr c 1) crc_poly else Z.shiftr c 1.

Definition crc_byte (c b : Z) : Z := Nat.iter 8 crc_bit (Z.lxor c b).

Definition mask32 : Z := 4294967295.

(** crc32.Update(crc, IEEETable, p). *)
Definition crc32_update (crc : Z) (p : bytes) : Z :=
  Z.lxor (foldl crc_byte (Z.lxor crc mask32) p) mask32.

(** * bufio.Scanner with ScanLines *)

Definition dropCR (l : bytes) : bytes :=
  match last l with
  | Some 13 => take (length l - 1) l
  | _ => l
  end.

(** The raw lines of a stream, without their newlines; a last line without a
    newline counts when it is not empty. *)
Fixpoint rawLines (cur : bytes) (s : bytes) : list bytes :=
  match s with
  | [] => match cur with [] => [] | _ => [rev cur] end
  | c :: s => if c =? 10 then rev cur :: rawLines [] s else rawLines (c :: cur) s
  end.

(** The tokens up to the first line that overflows the token limit, and whether
    one did (bufio.ErrTooLong). *)
Fixpoint scanTokens (maxToken : nat) (ls : list bytes) : list bytes * bool :=
  match ls with
  | [] => ([], false)
  | l :: ls =>
      if (maxToken <=? length l)%nat then ([], true)
      else let '(ts, e) := scanTokens maxToken ls in (dropCR l :: ts, e)
  end.

Definition scanLines (maxToken : nat) (s : bytes) : list bytes * bool :=
  scanTokens maxToken (rawLines [] s).

(** * bufio.Writer *)

Section BufWriter.
Context {W E : Type} (write : bytes -> W -> (nat * option E) * W) (shortWrite : E) (size : nat).

Record bufWriter := MkBuf { bw_buf : bytes; bw_err : option E; bw_dst : W }.

Definition bwFlush (b : bufWriter) : option E * bufWriter :=
  match bw_err b with
  | Some e => (Some e, b)
  | None =>
      match bw_buf b with
      | [] => (None, b)
      | buf =>
          let '((n, err), w) := write buf (bw_dst b) in
          let err := match err with
                     | None => if (n <? length buf)%nat then Some shortWrite else None
                     | Some e => Some e
                     end in
          match err with
          | Some e => (Some e, MkBuf (drop n buf) (Some e) w)
          | None => (None, MkBuf [] None w)
          end
      end
  end.

(** Writer.Write; [fuel] bounds its loop: an empty buffer is written through
    directly, so two turns beyond the bytes left are enough. *)
Fixpoint bwWrite_loop (fuel : nat) (p : bytes) (b : bufWriter) : option E * bufWriter :=
  match fuel with
  | O => (bw_err b, b)
  | S fuel =>
      match bw_err b with
      | Some e => (Some e, b)
      | None =>
          if (size - length (bw_buf b) <? length p)%nat then
            match bw_buf b with
            | [] =>
                let '((n, err), w) := write p (bw_dst b) in
                bwWrite_loop fuel (drop n p) (MkBuf [] err w)
            | buf =>
                let n := (size - length buf)%nat in
                let b := (bwFlush (MkBuf (buf ++ take n p) None (bw_dst b))).2 in
                bwWrite_loop fuel (drop n p) b
            end
          else (None, MkBuf (bw_buf b ++ p) None (bw_dst b))
      end
  end.

Definition bwWrite (p : bytes) (b : bufWriter) : option E * bufWriter :=
  bwWrite_loop (S (S (length p))) p b.

End BufWriter.
Arguments MkBuf {W E}.
Arguments bw_buf {W E}.
Arguments bw_err {W E}.
Arguments bw_dst {W E}.
Arguments bufWriter : clear implicits.

(** * net/http headers *)

(** http.Header: canonical names to values. *)
Abbreviation header := (gmap bytes (list bytes)).

(** http.CanonicalHeaderKey, for names made of token bytes. *)
Fixpoint canonical_from (upper : bool) (s : bytes) : bytes :=
  match s with
  | [] => []
  | c :: s =>
      let c' := if upper then (if (97 <=? c) && (c <=? 122) then c - 32 else c) else toLower1 c in
      c' :: canonical_from (c' =? 45) s
  end.

Definition tokenByte (c : Z) : bool :=
  ((48 <=? c) && (c <=? 57)) || ((65 <=? c) && (c <=? 90)) || ((97 <=? c) && (c <=? 122)) ||
  existsb (Z.eqb c) (bs "!#$%&'*+-.^_`|~").

Definition CanonicalHeaderKey (s : bytes) : bytes :=
  if forallb tokenByte s then canonical_from true s else s.

(** Header.Values, Get, Add and Set. *)
Definition hvalues (m : header) (k : bytes) : list bytes := match m !! k with Some l => l | None => [] end.
Definition hget (m : header) (k : bytes) : bytes := match hvalues m (CanonicalHeaderKey k) with v :: _ => v | [] => [] end.
Definition hadd (m : header) (key v : bytes) : header :=
  let k := CanonicalHeaderKey key in <[k := hvalues m k ++ [v]]> m.
Definition hset (m : header) (key v : bytes) : header := <[CanonicalHeaderKey key := [v]]> m.

(** * Lemmas *)

Lemma HasPrefix_spec s pre : HasPrefix s pre = true <-> exists t, s = pre ++ t.
Proof.
  revert s. induction pre as [|c pre IH]; intros s; simpl.
  { split; [eauto|done]. }
  destruct s as [|d s].
  { split; [done|]. by intros [t ?]. }
  rewrite andb_true_iff, Z.eqb_eq, IH. split.
  - intros [-> [t ->]]. eauto.
  - intros [t [= -> ->]]. eauto.
Qed.

Lemma HasPrefix_app pre t : HasPrefix (pre ++ t) pre = true.
Proof. apply HasPrefix_spec. eauto. Qed.

Lemma Contains_spec s m : Contains s m = true <-> exists a b, s = a ++ m ++ b.
Proof.
  induction s as [|x s IH]; cbn [Contains]; rewrite orb_true_iff, HasPrefix_spec.
  - split; [intros [[t ->]|?]; [by exists [], t|done]|]. intros (a & b & E). left. exists b. by destruct a.
  - split.
    + intros [[t ->]|(a & b & ->)%IH]; [by exists [], t|by exists (x :: a), b].
    + intros ([|y a] & b & E); [left; by exists b|right]. injection E as <- ->. apply IH. by exists a, b.
Qed.

Lemma IndexByte_spec s c i :
  IndexByte s c = Some i <-> s !! i = Some c /\ c ∉ take i s.
Proof.
  revert i. induction s as [|d s IH]; intros i; simpl.
  { split; [done|]. intros [H _]. by destruct i. }
  destruct (Z.eqb_spec d c) as [->|Hdc].
  - split.
    + intros [= <-]. split; [done|apply not_elem_of_nil].
    + intros [Hi Hn]. destruct i as [|i]; [done|]. destruct Hn. left.
  - destruct i as [|i].
    + split; [|intros [[= ?] _]; done]. by destruct (IndexByte s c).
    + cbn [take]. rewrite elem_of_cons. change ((d :: s) !! S i) with (s !! i). split.
      * destruct (IndexByte s c) as [j|]; [|done]. intros [= ->].
        destruct (proj1 (IH i) eq_refl). split; [done|]. intros [->|?]; done.
      * intros [Hi Hn]. rewrite (proj2 (IH i)); [done|]. tauto.
Qed.

Lemma IndexByte_None s c : IndexByte s c = None <-> c ∉ s.
Proof.
  induction s as [|d s IH]; simpl.
  { split; [intros _; apply not_elem_of_nil|done]. }
  rewrite elem_of_cons. destruct (Z.eqb_spec d c) as [->|Hdc].
  - split; [done|]. intros H. destruct H. by left.
  - destruct (IndexByte s c) as [n|].
    + split; [done|]. intros H. assert (Some n = None) by (apply IH; tauto). done.
    + split; [|done]. intros _ [->|?]; [done|]. by apply IH.
Qed.

(** Cut splits at the first separator. *)
Lemma Cut_spec s sep a b : Cut s sep = Some (a, b) <-> s = a ++ sep :: b /\ sep ∉ a.
Proof.
  unfold Cut. destruct (IndexByte s sep) as [i|] eqn:E.
  - apply IndexByte_spec in E as [Hi Hn]. split.
    + intros [= <- <-]. split; [|done]. by rewrite take_drop_middle.
    + intros [-> Hna]. assert (i = length a) as ->.
      { apply lookup_lt_Some in Hi as Hlt. rewrite length_app in Hlt. simpl in Hlt.
        destruct (Nat.lt_trichotomy i (length a)) as [H|[H|H]]; [|done|].
        - rewrite lookup_app_l in Hi by done. destruct Hna. by eapply list_elem_of_lookup_2.
        - destruct Hn. rewrite take_app_ge by lia. apply elem_of_app. right.
          destruct (i - length a)%nat eqn:?; [lia|]. simpl. left. }
      rewrite take_app_length. replace (S (length a)) with (length a + 1)%nat by lia.
      by rewrite <- drop_drop, drop_app_length.
  - split; [done|]. intros [-> _]. apply IndexByte_None in E. destruct E.
    apply elem_of_app. right. left.
Qed.

(** ** Numbers print and parse back *)

Lemma digit_digitChar d : 0 <= d < 16 -> digit (digitChar d) = Some d.
Proof.
  intros H. unfold digitChar, digit.
  destruct (d <? 10) eqn:?; bool_to_prop.
  - destruct (48 <=? 48 + d) eqn:?; bool_to_prop; [|lia]. destruct (48 + d <=? 57) eqn:?; bool_to_prop; [|lia].
    cbn [andb]. f_equal. lia.
  - destruct (97 + (d - 10) <=? 57) eqn:?; bool_to_prop; [lia|]. rewrite andb_false_r.
    destruct (97 <=? 97 + (d - 10)) eqn:?; bool_to_prop; [|lia].
    destruct (97 + (d - 10) <=? 102) eqn:?; bool_to_prop; [|lia]. cbn [andb]. f_equal. lia.
Qed.

Lemma digits_format fuel base n acc :
  2 <= base <= 16 -> 0 <= n < base ^ Z.of_nat fuel ->
  digits base 0 (format_loop fuel base n acc) = digits base n acc.
Proof.
  intros Hb. revert n acc. induction fuel as [|fuel IH]; intros n acc Hn.
  { rewrite Z.pow_0_r in Hn. cbn. f_equal. lia. }
  cbn [format_loop]. pose proof (Z.mod_pos_bound n base ltac:(lia)) as Hm.
  destruct (n <? base) eqn:?; bool_to_prop.
  - cbn [digits]. rewrite digit_digitChar by lia. destruct (_ <? base) eqn:?; bool_to_prop; [|lia].
    rewrite Z.mod_small by lia. done.
  - rewrite IH.
    + cbn [digits]. rewrite digit_digitChar by lia. destruct (_ <? base) eqn:?; bool_to_prop; [|lia].
      f_equal. rewrite (Z.div_mod n base) at 3 by lia. lia.
    + split; [apply Z.div_pos; lia|]. apply Z.div_lt_upper_bound; [lia|].
      replace (Z.of_nat (S fuel)) with (Z.succ (Z.of_nat fuel)) in Hn by lia.
      rewrite Z.pow_succ_r in Hn by lia. lia.
Qed.

Lemma format_cons fuel base n acc :
  (0 < fuel)%nat -> exists c l, format_loop fuel base n acc = c :: l.
Proof.
  revert n acc. induction fuel as [|fuel IH]; intros n acc Hf; [lia|]. cbn [format_loop].
  destruct (n <? base); [eauto|]. destruct fuel; [cbn; eauto|]. apply IH. lia.
Qed.

Lemma FormatUint_digits base n :
  2 <= base <= 16 -> 0 <= n < 2 ^ 64 -> digits base 0 (FormatUint n base) = Some n.
Proof.
  intros Hb Hn. unfold FormatUint. rewrite digits_format; [done|done|]. split; [lia|].
  eapply Z.lt_le_trans; [apply Hn|]. apply Z.pow_le_mono_l. lia.
Qed.

Lemma digit_range c x : digit c = Some x -> 0 <= x < 16.
Proof. unfold digit. repeat case_match; intros; simplify_eq; bool_to_prop; lia. Qed.

Lemma digits_mono base acc s v : digits base acc s = Some v -> 1 <= base -> 0 <= acc -> acc <= v.
Proof.
  revert acc. induction s as [|c s IH]; intros acc; cbn [digits]; [by intros [= ->]|].
  destruct (digit c) as [d|] eqn:Ed; [|done]. apply digit_range in Ed. destruct (d <? base); [|done].
  intros H Hb Ha. apply IH in H; nia.
Qed.

(** A number below [base ^ k] has at most [k] digits. *)
Lemma format_length_pow k fuel base n acc : 2 <= base -> (0 < k)%nat -> 0 <= n < base ^ Z.of_nat k ->
  (length (format_loop fuel base n acc) <= k + length acc)%nat.
Proof.
  intros Hb. revert k n acc. induction fuel as [|fuel IH]; intros k n acc Hk Hn; cbn [format_loop]; [lia|].
  destruct (Z.ltb_spec n base) as [|Hge]; [cbn [length]; lia|]. destruct k as [|[|k]]; [lia|rewrite Z.pow_1_r in Hn; lia|].
  etrans; [apply (IH (S k)); [lia|]|cbn [length]; lia].
  split; [apply Z.div_pos; lia|]. apply Z.div_lt_upper_bound; [lia|].
  rewrite (Nat2Z.inj_succ (S k)), Z.pow_succ_r in Hn by lia. lia.
Qed.

Lemma format_all (P : Z -> Prop) fuel base n acc : 2 <= base -> 0 <= n -> (forall d, 0 <= d < base -> P (digitChar d)) ->
  Forall P acc -> Forall P (format_loop fuel base n acc).
Proof.
  intros Hb Hn HP. revert n Hn acc. induction fuel as [|fuel IH]; intros n Hn acc Ha; [done|]. cbn [format_loop].
  assert (Forall P (digitChar (n mod base) :: acc)) by (constructor; [apply HP, Z.mod_pos_bound; lia|done]).
  destruct (n <? base); [done|]. apply IH; [apply Z.div_pos; lia|done].
Qed.

Lemma ParseUint_FormatUint n base bits :
  2 <= base <= 16 -> 0 <= n < 2 ^ bits -> bits <= 64 -> ParseUint (FormatUint n base) base bits = Ok n.
Proof.
  intros Hb Hn Hbits. unfold ParseUint.
  assert (2 ^ bits <= 2 ^ 64) by (apply Z.pow_le_mono_r; lia).
  pose proof (FormatUint_digits base n Hb ltac:(lia)) as Hd.
  destruct (format_cons 64 base n [] ltac:(lia)) as (c & l & E). unfold FormatUint in *. rewrite E in *.
  rewrite Hd. destruct (n <? 2 ^ bits) eqn:?; bool_to_prop; [done|lia].
Qed.

(** Printed digits are digits: no sign, no separator. *)
Definition is_digit10 (c : Z) : Prop := 48 <= c <= 57.

Lemma format_digits fuel n acc :
  0 <= n -> Forall is_digit10 acc -> Forall is_digit10 (format_loop fuel 10 n acc).
Proof.
  revert n acc. induction fuel as [|fuel IH]; intros n acc Hn Ha; [done|]. cbn [format_loop].
  pose proof (Z.mod_pos_bound n 10 ltac:(lia)).
  assert (Forall is_digit10 (digitChar (n mod 10) :: acc)).
  { constructor; [|done]. unfold is_digit10, digitChar. destruct (_ <? 10) eqn:?; bool_to_prop; lia. }
  destruct (n <? 10); [done|]. apply IH; [apply Z.div_pos; lia|done].
Qed.

Lemma Itoa_digits n : 0 <= n -> Forall is_digit10 (Itoa n).
Proof.
  intros Hn. unfold Itoa. destruct (n <? 0) eqn:?; bool_to_prop; [lia|]. by apply format_digits.
Qed.

Lemma ParseInt_Itoa n : 0 <= n < 2 ^ 63 -> ParseInt (Itoa n) 64 = Ok n.
Proof.
  intros Hn. pose proof (Itoa_digits n ltac:(lia)) as Hd. unfold Itoa in *.
  destruct (n <? 0) eqn:?; bool_to_prop; [lia|].
  pose proof (FormatUint_digits 10 n ltac:(lia) ltac:(lia)) as E.
  unfold FormatUint in *. destruct (format_cons 64 10 n [] ltac:(lia)) as (c & l & El).
  rewrite El in *. apply Forall_cons in Hd as [Hc _]. unfold is_digit10 in Hc. unfold ParseInt.
  assert ((match c :: l with 43 :: ds => (false, ds) | 45 :: ds => (true, ds) | _ => (false, c :: l) end)
    = (false, c :: l)) as ->.
  { assert (c = 48 \/ c = 49 \/ c = 50 \/ c = 51 \/ c = 52 \/ c = 53 \/ c = 54 \/ c = 55 \/ c = 56 \/ c = 57)
      as Hcs by lia. by repeat destruct Hcs as [->|Hcs]; [..|subst]. }
  rewrite E. change (64 - 1) with 63. destruct (n <? 2 ^ 63) eqn:?; bool_to_prop; [done|lia].
Qed.

(** ** Fields of a line built from tokens *)

Definition token (t : bytes) : Prop := t <> [] /\ Forall (fun c => isSpace c = false) t.

Lemma fields_run t cur rest :
  Forall (fun c => isSpace c = false) t ->
  fields_from cur (t ++ rest) = fields_from (rev t ++ cur) rest.
Proof.
  revert cur. induction t as [|c t IH]; intros cur Ht; [done|].
  apply Forall_cons in Ht as [Hc Ht]. cbn. rewrite Hc, IH by done. by rewrite <- app_assoc.
Qed.

(** A token followed by a space is the first field. *)
Lemma Fields_token t rest : token t -> Fields (t ++ 32 :: rest) = t :: Fields rest.
Proof.
  intros [Hne Ht]. unfold Fields. rewrite fields_run by done. cbn. rewrite app_nil_r.
  destruct (rev t) as [|c r] eqn:E.
  { destruct t; [done|]. apply (f_equal length) in E. rewrite length_rev in E. done. }
  rewrite <- E, rev_involutive. done.
Qed.

Lemma Fields_last t : token t -> Fields t = [t].
Proof.
  intros [Hne Ht]. unfold Fields. rewrite <- (app_nil_r t) at 1. rewrite fields_run by done.
  cbn. rewrite app_nil_r. destruct (rev t) as [|c r] eqn:E.
  { destruct t; [done|]. apply (f_equal length) in E. rewrite length_rev in E. done. }
  by rewrite <- E, rev_involutive.
Qed.

Lemma Fields_space s : Fields (32 :: s) = Fields s.
Proof. done. Qed.

Lemma IndexByte_app a b c : c ∉ a -> IndexByte (a ++ c :: b) c = Some (length a).
Proof. intros Ha. apply IndexByte_spec. by rewrite take_app_length, lookup_app_r, Nat.sub_diag by lia. Qed.

Lemma Cut_app a b sep : sep ∉ a -> Cut (a ++ sep :: b) sep = Some (a, b).
Proof. intros. by apply Cut_spec. Qed.

Lemma crc32_update_app crc p q : crc32_update (crc32_update crc p) q = crc32_update crc (p ++ q).
Proof.
  unfold crc32_update. rewrite foldl_app. do 2 f_equal.
  rewrite Z.lxor_assoc, Z.lxor_nilpotent, Z.lxor_0_r. done.
Qed.

(** The buffered writer loses, invents and reorders nothing: what reached the
    destination followed by what is buffered is everything accepted so far. *)
Section BufWriterSpec.
Context {W E : Type} (write : bytes -> W -> (nat * option E) * W) (shortWrite : E)
  (out : W -> bytes).
Hypothesis write_ok : forall p w,
  ((write p w).1.1 <= length p)%nat /\ out (write p w).2 = out w ++ take (write p w).1.1 p /\
  ((write p w).1.2 = None -> (write p w).1.1 = length p).
Definition bw_all (b : bufWriter W E) : bytes := out (bw_dst b) ++ bw_buf b.

Lemma bwFlush_spec b :
  let r := bwFlush write shortWrite b in
  bw_all r.2 = bw_all b /\ bw_err r.2 = r.1 /\ (r.1 = None -> bw_buf r.2 = []) /\
  (length (bw_buf r.2) <= length (bw_buf b))%nat.
Proof.
  unfold bwFlush, bw_all. destruct (bw_err b) as [e|] eqn:He; [done|].
  destruct (bw_buf b) as [|c buf] eqn:Hb; [cbn; by rewrite Hb|]. rewrite <- Hb.
  destruct (write_ok (bw_buf b) (bw_dst b)) as (Hn & Ho & Hfull).
  destruct (write (bw_buf b) (bw_dst b)) as [[n err] w]. cbn [fst snd] in *.
  destruct err as [e|].
  - cbn. rewrite Ho, <- app_assoc, take_drop. split_and!; [done..|]. rewrite length_drop. lia.
  - rewrite Hfull by done. rewrite Nat.ltb_irrefl. cbn. rewrite Ho, Hfull by done.
    rewrite firstn_all, app_nil_r. split_and!; [done..|]. lia.
Qed.

Context (size : nat).
Hypothesis size_pos : (0 < size)%nat.

Lemma bwWrite_loop_spec fuel p b :
  (length (bw_buf b) <= size)%nat ->
  (length p + (if decide (bw_buf b = []) then 1 else 2) <= fuel)%nat \/ bw_err b <> None ->
  let r := bwWrite_loop write shortWrite size fuel p b in
  bw_err r.2 = r.1 /\ (length (bw_buf r.2) <= size)%nat /\
  (bw_err b = None -> bw_all r.2 `prefix_of` bw_all b ++ p) /\
  (r.1 = None -> bw_all r.2 = bw_all b ++ p).
Proof.
  revert p b. induction fuel as [|fuel IH]; intros p b Hb Hf.
  { destruct Hf as [Hf|He]; [case_decide; lia|]. cbn. destruct (bw_err b) eqn:Eb; [|done].
    done. }
  cbn [bwWrite_loop]. destruct (bw_err b) as [e|] eqn:He.
  { cbn. rewrite He. done. }
  destruct Hf as [Hf|]; [|done].
  destruct (Nat.ltb_spec (size - length (bw_buf b)) (length p)).
  2: { cbn. unfold bw_all. cbn. rewrite length_app, app_assoc. split_and!; [done|lia|done|done]. }
  destruct (bw_buf b) as [|c buf] eqn:Hbuf.
  - destruct (write_ok p (bw_dst b)) as (Hn & Ho & Hfull).
    destruct (write p (bw_dst b)) as [[n err] w]. cbn [fst snd] in *.
    destruct (IH (drop n p) (MkBuf [] err w)) as (H1 & H2 & H3 & H4); [cbn; lia| |].
    { cbn. destruct err; [by right|left]. rewrite Hfull by done. rewrite drop_all.
      repeat case_decide; simpl; try done; lia. }
    split; [exact H1|]. split; [exact H2|]. unfold bw_all in *. cbn in *. rewrite Hbuf, app_nil_r.
    split.
    + intros _. destruct err as [e|].
      * destruct fuel; cbn; rewrite Ho, app_nil_r; apply prefix_app, prefix_take.
      * specialize (H3 eq_refl). rewrite Ho, <- app_assoc, <- app_assoc, app_nil_l, take_drop in H3. done.
    + intros Hr. rewrite (H4 Hr), Ho, <- app_assoc. rewrite app_nil_l, <- app_assoc, take_drop. done.
  - set (n := (size - length (c :: buf))%nat) in *. rewrite <- Hbuf in *.
    set (b1 := MkBuf (bw_buf b ++ take n p) None (bw_dst b)).
    destruct (bwFlush_spec b1) as (F1 & F2 & F3 & F4). set (b2 := (bwFlush write shortWrite b1).2) in *.
    assert (Hb1 : (length (bw_buf b1) <= size)%nat).
    { cbn. rewrite length_app, length_take. unfold n. rewrite <- Hbuf. lia. }
    destruct (IH (drop n p) b2) as (H1 & H2 & H3 & H4); [lia| |].
    { destruct (bw_err b2) eqn:E2; [by right|left]. rewrite F3 by (by rewrite <- F2).
      rewrite length_drop. repeat case_decide; try congruence; lia. }
    assert (Eall : bw_all b1 = bw_all b ++ take n p) by (unfold bw_all; cbn; by rewrite app_assoc).
    split; [exact H1|]. split; [exact H2|]. split.
    + intros _. destruct (bw_err b2) as [e|] eqn:E2.
      * assert (bwWrite_loop write shortWrite size fuel (drop n p) b2 = (Some e, b2)) as ->
          by (destruct fuel; cbn; by rewrite E2).
        cbn. rewrite F1, Eall. apply prefix_app, prefix_take.
      * specialize (H3 eq_refl). rewrite F1, Eall, <- app_assoc, take_drop in H3. done.
    + intros Hr. rewrite (H4 Hr), F1, Eall, <- app_assoc, take_drop. done.
Qed.

Lemma bwWrite_spec p b :
  (length (bw_buf b) <= size)%nat ->
  let r := bwWrite write shortWrite size p b in
  bw_err r.2 = r.1 /\ (length (bw_buf r.2) <= size)%nat /\
  (bw_err b = None -> bw_all r.2 `prefix_of` bw_all b ++ p) /\
  (r.1 = None -> bw_all r.2 = bw_all b ++ p).
Proof. intros Hb. apply bwWrite_loop_spec; [done|]. left. case_decide; lia. Qed.

End BufWriterSpec.

(** * Streams of lines *)

(** The stream of lines ended by LF, or by CR LF. *)
Definition joinLines (crlf : bool) (ls : list bytes) : bytes :=
  concat ((fun l => l ++ (if crlf then [13; 10] else [10])) <$> ls).

Lemma rawLines_line cur l rest :
  10 ∉ l -> rawLines cur (l ++ 10 :: rest) = (rev cur ++ l) :: rawLines [] rest.
Proof.
  revert cur. induction l as [|c l IH]; intros cur Hl; cbn.
  { by rewrite app_nil_r. }
  destruct (Z.eqb_spec c 10) as [->|Hc]; [destruct Hl; left|].
  rewrite IH by (intros ?; apply Hl; by right). cbn. by rewrite <- app_assoc.
Qed.

(** A line that survives the scanner: no newline, no carriage return at its
    end, below the token limit. *)
Definition scannable (maxToken : nat) (l : bytes) : Prop :=
  10 ∉ l /\ last l <> Some 13 /\ (S (length l) < maxToken)%nat.

Lemma dropCR_snoc l : dropCR (l ++ [13]) = l.
Proof. unfold dropCR. rewrite last_snoc, length_app. simpl. rewrite Nat.add_sub. by rewrite take_app_length. Qed.

Lemma dropCR_id l : last l <> Some 13 -> dropCR l = l.
Proof.
  unfold dropCR. intros H. destruct (last l) as [c|]; [|done].
  destruct (decide (c = 13)) as [->|Hc]; [done|].
  by repeat (destruct c as [|c|c]; try done; try destruct c as [c|c|]; try done).
Qed.

Lemma scanLines_joinLines maxToken crlf ls :
  Forall (scannable maxToken) ls -> scanLines maxToken (joinLines crlf ls) = (ls, false).
Proof.
  unfold scanLines, joinLines. induction 1 as [|l ls (Hn & Hcr & Hlen) _ IH]; [done|].
  cbn [fmap list_fmap concat]. destruct crlf.
  - rewrite <- app_assoc. change ([13; 10] ++ ?r) with ([13] ++ 10 :: r). rewrite app_assoc.
    rewrite rawLines_line.
    2: { rewrite elem_of_app, list_elem_of_singleton. intros [?|?]; done. }
    cbn [rev app scanTokens]. rewrite length_app. cbn [length].
    destruct (Nat.leb_spec maxToken (length l + 1)); [lia|]. rewrite dropCR_snoc. by rewrite IH.
  - rewrite <- app_assoc. change ([10] ++ ?r) with (10 :: r). rewrite rawLines_line by done.
    cbn [rev app scanTokens]. destruct (Nat.leb_spec maxToken (length l)); [lia|].
    rewrite dropCR_id by done. by rewrite IH.
Qed.

(** The field a line starts with, whatever follows it. *)
Lemma Fields_head t rest :
  token t -> exists x more, Fields (t ++ rest) = (t ++ x) :: more.
Proof.
  intros [Hne Ht]. unfold Fields. rewrite fields_run by done. rewrite app_nil_r.
  assert (H : forall cur, cur <> [] -> exists x more, fields_from cur rest = (rev cur ++ x) :: more).
  { induction rest as [|c rest IH]; intros cur Hc; cbn.
    - destruct cur; [done|]. exists [], []. by rewrite app_nil_r.
    - destruct (isSpace c).
      + destruct cur; [done|]. eexists [], _. by rewrite app_nil_r.
      + destruct (IH (c :: cur) ltac:(done)) as (x & more & ->). exists (c :: x), more.
        cbn. by rewrite <- app_assoc. }
  destruct (H (rev t)) as (x & more & ->).
  - intros E. apply (f_equal (@rev Z)) in E. rewrite rev_involutive in E. done.
  - exists x, more. by rewrite rev_involutive.
Qed.

(** Bytes that break no line. *)
Definition clean (l : bytes) : Prop := Forall (fun c => c <> 10 /\ c <> 13) l.

Lemma clean_scannable maxToken l : clean l -> (S (length l) < maxToken)%nat -> scannable maxToken l.
Proof.
  intros Hc Hlen. unfold clean in Hc. rewrite Forall_forall in Hc. split; [|split; [|done]].
  - intros Hin. by destruct (Hc 10 Hin).
  - intros Hl. apply last_Some_elem_of in Hl. by destruct (Hc 13 Hl).
Qed.

Lemma clean_app a b : clean (a ++ b) <-> clean a /\ clean b.
Proof. apply Forall_app. Qed.

Lemma nospace_clean l : Forall (fun c => isSpace c = false) l -> clean l.
Proof. intros H. eapply Forall_impl; [exact H|]. intros c Hc. split; intros ->; done. Qed.

Lemma format_length fuel base n acc :
  (length (format_loop fuel base n acc) <= fuel + length acc)%nat.
Proof.
  revert n acc. induction fuel as [|fuel IH]; intros n acc; cbn [format_loop]; [lia|].
  destruct (n <? base); [simpl; lia|]. etrans; [apply IH|]. simpl. lia.
Qed.

Lemma Itoa_length n : 0 <= n -> (length (Itoa n) <= 64)%nat.
Proof.
  intros Hn. unfold Itoa, FormatUint. destruct (n <? 0) eqn:?; bool_to_prop; [lia|].
  etrans; [apply format_length|]. simpl. lia.
Qed.

Lemma FormatUint_length n base : (length (FormatUint n base) <= 64)%nat.
Proof. unfold FormatUint. etrans; [apply format_length|]. simpl. lia. Qed.

(** * CRC range *)

Lemma lxor_bound n a b : 0 <= n -> 0 <= a < 2 ^ n -> 0 <= b < 2 ^ n -> 0 <= Z.lxor a b < 2 ^ n.
Proof.
  intros Hn Ha Hb. assert (0 <= Z.lxor a b) by (apply Z.lxor_nonneg; lia). split; [done|].
  destruct (decide (Z.lxor a b = 0)) as [->|Hne]; [lia|].
  apply Z.log2_lt_pow2; [lia|]. eapply Z.le_lt_trans; [apply Z.log2_lxor; lia|].
  assert (forall x, 0 <= x < 2 ^ n -> x <> 0 -> Z.log2 x < n) as Hlog
    by (intros x Hx Hx0; apply Z.log2_lt_pow2; lia).
  apply Z.max_lub_lt.
  - destruct (decide (a = 0)) as [->|]; [|by apply Hlog].
    destruct (decide (b = 0)) as [->|]; [done|]. specialize (Hlog b Hb ltac:(done)).
    pose proof (Z.log2_nonneg b). change (Z.log2 0) with 0. lia.
  - destruct (decide (b = 0)) as [->|]; [|by apply Hlog].
    destruct (decide (a = 0)) as [->|]; [done|]. specialize (Hlog a Ha ltac:(done)).
    pose proof (Z.log2_nonneg a). change (Z.log2 0) with 0. lia.
Qed.

Lemma crc_bit_range c : 0 <= c < 2 ^ 32 -> 0 <= crc_bit c < 2 ^ 32.
Proof.
  intros Hc. unfold crc_bit.
  assert (0 <= Z.shiftr c 1 < 2 ^ 32).
  { rewrite Z.shiftr_div_pow2 by lia. change (2 ^ 1) with 2. split; [apply Z.div_pos; lia|].
    apply Z.div_lt_upper_bound; lia. }
  destruct (Z.odd c); [|done]. apply lxor_bound; [lia|done|]. unfold crc_poly. lia.
Qed.

Lemma crc32_update_range crc p :
  0 <= crc < 2 ^ 32 -> Forall is_byte p -> 0 <= crc32_update crc p < 2 ^ 32.
Proof.
  intros Hc Hp. unfold crc32_update. assert (0 <= mask32 < 2 ^ 32) by (unfold mask32; lia).
  apply lxor_bound; [lia| |done].
  assert (0 <= Z.lxor crc mask32 < 2 ^ 32) as Hx by (by apply lxor_bound).
  revert Hx. generalize (Z.lxor crc mask32) as x. induction Hp as [|b p Hb _ IH]; intros x Hx; [done|].
  cbn [foldl]. apply IH. unfold crc_byte.
  assert (0 <= Z.lxor x b < 2 ^ 32) as Hy.
  { apply lxor_bound; [lia|done|]. unfold is_byte in Hb. lia. }
  revert Hy. generalize (Z.lxor x b) as y. intros y Hy.
  do 8 (apply crc_bit_range in Hy). exact Hy.
Qed.

(** * Header names *)

Lemma canonical_from_idem up s : canonical_from up (canonical_from up s) = canonical_from up s.
Proof.
  revert up. induction s as [|c s IH]; intros up; [done|]. cbn [canonical_from].
  assert (let d := if up then if (97 <=? c) && (c <=? 122) then c - 32 else c else toLower1 c in
    (if up then if (97 <=? d) && (d <=? 122) then d - 32 else d else toLower1 d) = d) as E; [|cbv zeta in E; by rewrite E, IH].
  unfold toLower1. cbv zeta. destruct up.
  - destruct ((97 <=? c) && (c <=? 122)) eqn:E; [|by rewrite E]. bool_to_prop. by rewrite (proj2 (Z.leb_gt 97 (c - 32))) by lia.
  - destruct ((65 <=? c) && (c <=? 90)) eqn:E; [|by rewrite E]. bool_to_prop.
    rewrite (proj2 (Z.leb_gt (c + 32) 90)) by lia. by rewrite andb_false_r.
Qed.

Lemma tokenByte_letter c : 65 <= c <= 90 \/ 97 <= c <= 122 -> tokenByte c = true.
Proof. intros H. unfold tokenByte. rewrite !orb_true_iff, !andb_true_iff, !Z.leb_le. tauto. Qed.

Lemma canonical_from_token up s : forallb tokenByte s = true -> forallb tokenByte (canonical_from up s) = true.
Proof.
  revert up. induction s as [|c s IH]; intros up H; [done|]. cbn [forallb] in H. apply andb_true_iff in H as [Hc Hs].
  cbn [canonical_from forallb]. rewrite IH, andb_true_r by done. unfold toLower1.
  destruct up; destruct (_ && _) eqn:E; try done; apply tokenByte_letter; bool_to_prop; lia.
Qed.

Lemma canonical_idem s : CanonicalHeaderKey (CanonicalHeaderKey s) = CanonicalHeaderKey s.
Proof.
  unfold CanonicalHeaderKey at 2 3. destruct (forallb tokenByte s) eqn:E; unfold CanonicalHeaderKey.
  - rewrite canonical_from_token by done. apply canonical_from_idem.
  - by rewrite E.
Qed.

Lemma canonical_bytes s : Forall is_byte s -> Forall is_byte (CanonicalHeaderKey s).
Proof.
  intros H. unfold CanonicalHeaderKey. destruct (forallb tokenByte s); [|done]. generalize true.
  induction H as [|c s Hc _ IH]; intros up; [constructor|]. cbn [canonical_from]. apply Forall_cons. split; [|apply IH].
  unfold is_byte, toLower1 in *. destruct up; destruct (_ && _) eqn:E; bool_to_prop; lia.
Qed.

(** * Trimming and reversing *)

Lemma elem_of_rev (c : Z) s : c ∈ rev s <-> c ∈ s.
Proof. by rewrite !list_elem_of_In, <- in_rev. Qed.

Lemma TrimSpace_Forall (P : Z -> Prop) s : Forall P s -> Forall P (TrimSpace s).
Proof.
  assert (forall t, Forall P t -> Forall P (trimLeft t)) as Ht.
  { induction 1 as [|c t Hc Hl IH]; cbn [trimLeft]; [constructor|]. destruct (isSpace c); [done|by constructor]. }
  intros H. unfold TrimSpace. by apply Forall_rev, Ht, Forall_rev, Ht.
Qed.

Lemma Forall_ne (c : Z) s : Forall (fun d => d <> c) s <-> c ∉ s.
Proof. rewrite Forall_forall. split; [by intros H Hc; destruct (H c Hc)|by intros H d Hd ->]. Qed.
