(* ===== verification/GoHeap.v ===== *)
(** Go's container/heap, the priority queue the RAM piece store keeps its
    eviction order in (internal/engine/memstorage.go, lruHeap).

    [HeapInterface] is Go's [heap.Interface]: a client supplies the five methods
    and the package's functions [up], [down], [Push], [Pop], [Remove], [Fix] are
    written once over them.  [HeapLaws] states what the package relies on: the
    methods act on an array view of the state.  Every function is then proved to
    keep the array a permutation of what it was and to restore the heap order. *)

From S2P Require Import Prelude.

(** * The interface *)

(** heap.Interface over a state [S] holding elements [X]. *)
Class HeapInterface (S X : Type) := {
  hLen : S -> nat;
  hLess : S -> nat -> nat -> bool;
  hSwap : nat -> nat -> S -> S;
  hPush : X -> S -> S;
  hPop : S -> option X * S
}.

Section Ops.
Context {S X : Type} `{!HeapInterface S X}.

(** heap.up: the loop runs at most [j + 1] times because [j] halves. *)
Fixpoint up_loop (fuel : nat) (h : S) (j : nat) : S :=
  match fuel with
  | O => h
  | Datatypes.S fuel =>
      let i := ((j - 1) / 2)%nat in
      if (i =? j)%nat || negb (hLess h j i) then h
      else up_loop fuel (hSwap i j h) i
  end.

Definition up (h : S) (j : nat) : S := up_loop (Datatypes.S j) h j.

(** heap.down: returns the new state and the final index; the loop runs at most
    [n - i0 + 1] times because [i] grows below [n]. *)
Fixpoint down_loop (fuel : nat) (h : S) (i n : nat) : S * nat :=
  match fuel with
  | O => (h, i)
  | Datatypes.S fuel =>
      let j1 := (2 * i + 1)%nat in
      if (n <=? j1)%nat then (h, i)
      else
        let j2 := (j1 + 1)%nat in
        let j := if (j2 <? n)%nat && hLess h j2 j1 then j2 else j1 in
        if negb (hLess h j i) then (h, i)
        else down_loop fuel (hSwap i j h) j n
  end.

Definition down (h : S) (i0 n : nat) : S * bool :=
  let '(h', i) := down_loop (Datatypes.S n) h i0 n in (h', (i0 <? i)%nat).

Definition heapPush (x : X) (h : S) : S :=
  let h := hPush x h in up h (hLen h - 1).

Definition heapPop (h : S) : option X * S :=
  let n := (hLen h - 1)%nat in
  let h := hSwap 0 n h in
  let '(h, _) := down h 0 n in
  hPop h.

Definition heapFix (h : S) (i : nat) : S :=
  let '(h', moved) := down h i (hLen h) in
  if moved then h' else up h' i.

Definition heapRemove (h : S) (i : nat) : option X * S :=
  let n := (hLen h - 1)%nat in
  if (n =? i)%nat then hPop h
  else
    let '(h', moved) := down (hSwap i n h) i n in
    hPop (if moved then h' else up h' i).

End Ops.

(** * Arrays with keys *)

(** Exchange of two cells of a list. *)
Definition lswap {A} (i j : nat) (l : list A) : list A :=
  match l !! i, l !! j with
  | Some a, Some b => <[i:=b]> (<[j:=a]> l)
  | _, _ => l
  end.

(** The key stored at index [i] of a keyed array. *)
Definition kat {X} (l : list (X * Z)) (i : nat) : Z :=
  match l !! i with
  | Some (_, k) => k
  | None => 0
  end.

Definition parent (j : nat) : nat := ((j - 1) / 2)%nat.

(** Heap order of the first [n] cells. *)
Definition heap_upto {X} (n : nat) (l : list (X * Z)) : Prop :=
  forall j, (0 < j < n)%nat -> kat l (parent j) <= kat l j.

Definition is_heap {X} (l : list (X * Z)) : Prop := heap_upto (length l) l.

(** Heap order except around [i]: the edges at [i] may be broken, but [i]'s
    parent is not above [i]'s children. *)
Definition almost {X} (n : nat) (l : list (X * Z)) (i : nat) : Prop :=
  (forall j, (0 < j < n)%nat -> j <> i -> parent j <> i -> kat l (parent j) <= kat l j) /\
  (forall j, (0 < j < n)%nat -> parent j = i -> (0 < i)%nat -> kat l (parent i) <= kat l j).

Definition kids_ok {X} (n : nat) (l : list (X * Z)) (i : nat) : Prop :=
  forall j, (0 < j < n)%nat -> parent j = i -> kat l i <= kat l j.

Definition par_ok {X} (l : list (X * Z)) (i : nat) : Prop :=
  (0 < i)%nat -> kat l (parent i) <= kat l i.

(** * What a client promises *)

(** The five methods act on an array [view] of elements with integer keys, and
    keep a representation invariant [rep] the client chooses. *)
Class HeapLaws (S X : Type) `{HeapInterface S X} := {
  rep : S -> Prop;
  view : S -> list (X * Z);
  pushable : X -> S -> Prop;
  pkey : X -> S -> Z;
  law_len h : hLen h = length (view h);
  law_less h i j : rep h -> (i < length (view h))%nat -> (j < length (view h))%nat ->
    hLess h i j = (kat (view h) i <? kat (view h) j);
  law_swap h i j : rep h -> (i < length (view h))%nat -> (j < length (view h))%nat ->
    rep (hSwap i j h) /\ view (hSwap i j h) = lswap i j (view h);
  law_push h x : rep h -> pushable x h ->
    rep (hPush x h) /\ view (hPush x h) = view h ++ [(x, pkey x h)];
  law_pop h l x k : rep h -> view h = l ++ [(x, k)] ->
    (hPop h).1 = Some x /\ rep (hPop h).2 /\ view (hPop h).2 = l
}.

(** * Lemmas on arrays *)

Lemma lswap_length {A} i j (l : list A) : length (lswap i j l) = length l.
Proof. unfold lswap. repeat case_match; len. Qed.

Lemma lswap_lookup {A} i j (l : list A) k :
  (i < length l)%nat -> (j < length l)%nat ->
  lswap i j l !! k = if decide (k = i) then l !! j else if decide (k = j) then l !! i else l !! k.
Proof.
  intros [a Ha]%lookup_lt_is_Some_2 [b Hb]%lookup_lt_is_Some_2.
  unfold lswap. rewrite Ha, Hb.
  pose proof (lookup_lt_Some _ _ _ Ha). pose proof (lookup_lt_Some _ _ _ Hb).
  destruct (decide (k = i)) as [->|].
  { rewrite list_lookup_insert_eq by len. done. }
  rewrite list_lookup_insert_ne by done.
  destruct (decide (k = j)) as [->|].
  { rewrite list_lookup_insert_eq by len. done. }
  by rewrite list_lookup_insert_ne.
Qed.

Lemma lswap_Permutation {A} i j (l : list A) : lswap i j l ≡ₚ l.
Proof.
  unfold lswap. destruct (l !! i) as [a|] eqn:Ha, (l !! j) as [b|] eqn:Hb; try done.
  destruct (decide (i = j)) as [->|Hij].
  { rewrite list_insert_insert_eq, (list_insert_id l j b) by done. done. }
  apply Permutation_inj. split; [len|].
  exists (fun k => if decide (k = i) then j else if decide (k = j) then i else k).
  pose proof (lookup_lt_Some _ _ _ Ha). pose proof (lookup_lt_Some _ _ _ Hb).
  split.
  { intros x y ?. repeat case_decide; congruence. }
  intros k. destruct (decide (k = i)) as [->|].
  { rewrite list_lookup_insert_eq by len. done. }
  rewrite list_lookup_insert_ne by done.
  destruct (decide (k = j)) as [->|].
  { rewrite list_lookup_insert_eq by len. done. }
  by rewrite list_lookup_insert_ne.
Qed.

Section Arrays.
Context {X : Type}.
Implicit Types l : list (X * Z).

Lemma kat_lswap l i j k :
  (i < length l)%nat -> (j < length l)%nat ->
  kat (lswap i j l) k = if decide (k = i) then kat l j else if decide (k = j) then kat l i else kat l k.
Proof. intros. unfold kat. rewrite lswap_lookup by done. repeat case_decide; done. Qed.

Lemma kat_app_l l l' k : (k < length l)%nat -> kat (l ++ l') k = kat l k.
Proof. intros. unfold kat. by rewrite lookup_app_l. Qed.

Lemma parent_lt j : (0 < j)%nat -> (parent j < j)%nat.
Proof. intros. unfold parent. apply Nat.Div0.div_lt_upper_bound. lia. Qed.

Lemma parent_eq j i : (0 < j)%nat -> parent j = i -> j = (2 * i + 1)%nat \/ j = (2 * i + 2)%nat.
Proof.
  intros Hj <-. unfold parent. pose proof (Nat.div_mod_eq (j - 1) 2).
  pose proof (Nat.mod_upper_bound (j - 1) 2 ltac:(lia)). lia.
Qed.

Lemma parent_left i : parent (2 * i + 1) = i.
Proof. unfold parent. replace (2 * i + 1 - 1)%nat with (i * 2)%nat by lia. apply Nat.div_mul. lia. Qed.

Lemma parent_right i : parent (2 * i + 2) = i.
Proof.
  unfold parent. replace (2 * i + 2 - 1)%nat with (1 + i * 2)%nat by lia.
  rewrite Nat.div_add by lia. done.
Qed.

(** The root of a heap has the smallest key. *)
Lemma heap_root_min n l j : heap_upto n l -> (j < n)%nat -> kat l 0 <= kat l j.
Proof.
  intros Hh. induction j as [j IH] using lt_wf_ind. intros Hj.
  destruct (decide (j = 0%nat)) as [->|]; [lia|].
  pose proof (parent_lt j ltac:(lia)).
  specialize (IH (parent j) ltac:(lia) ltac:(lia)). specialize (Hh j ltac:(lia)). lia.
Qed.

Lemma heap_almost n l i : heap_upto n l -> almost n l i.
Proof.
  intros Hh. split; [intros; by apply Hh|].
  intros j Hj Hp Hi. pose proof (parent_lt j ltac:(lia)).
  pose proof (Hh j Hj). rewrite Hp in *. pose proof (Hh i ltac:(lia)). lia.
Qed.

Lemma almost_heap n l i : almost n l i -> kids_ok n l i -> par_ok l i -> heap_upto n l.
Proof.
  intros [H1 H2] Hk Hp j Hj.
  destruct (decide (j = i)) as [->|]; [apply Hp; lia|].
  destruct (decide (parent j = i)) as [E|]; [rewrite E; by apply Hk|by apply H1].
Qed.

Lemma heap_upto_le n m l : heap_upto n l -> (m <= n)%nat -> heap_upto m l.
Proof. intros H ? j ?. apply H. lia. Qed.

(** Changing the key of one cell leaves the order broken only around it. *)
Lemma almost_change n l l' i :
  heap_upto n l -> (forall k, (k < n)%nat -> k <> i -> kat l' k = kat l k) -> almost n l' i.
Proof.
  intros Hh Hk. destruct (heap_almost n l i Hh) as [H1 H2]. split.
  - intros j Hj Hji Hp. pose proof (parent_lt j ltac:(lia)).
    rewrite !Hk by (lia || done). by apply H1.
  - intros j Hj Hp Hi. pose proof (parent_lt i Hi). pose proof (parent_lt j ltac:(lia)).
    rewrite !Hk by lia. by apply H2.
Qed.

Lemma almost_upto_le n m l i : almost n l i -> (m <= n)%nat -> almost m l i.
Proof. intros [H1 H2] ?. split; intros; [apply H1|apply H2]; lia || done. Qed.

(** One step of [down] moves the hole from [i] to its smaller child [j]. *)
Lemma down_swap n l i j :
  almost n l i -> (n <= length l)%nat -> (0 < j < n)%nat -> parent j = i ->
  (forall k, (0 < k < n)%nat -> parent k = i -> kat l j <= kat l k) ->
  kat l j < kat l i ->
  almost n (lswap i j l) j /\ par_ok (lswap i j l) j.
Proof.
  intros [H1 H2] Hn Hj Hp Hmin Hlt. pose proof (parent_lt j ltac:(lia)).
  assert (Hkat : forall k, kat (lswap i j l) k =
    if decide (k = i) then kat l j else if decide (k = j) then kat l i else kat l k)
    by (intros; apply kat_lswap; lia).
  split; [split|].
  - intros k Hk Hkj Hpk. pose proof (parent_lt k ltac:(lia)).
    rewrite !Hkat. repeat case_decide; subst; try lia; try congruence.
    + by apply Hmin.
    + apply H2; [lia|done|lia].
    + by apply H1.
  - intros k Hk Hpk Hj0. pose proof (parent_lt k ltac:(lia)).
    rewrite !Hkat, Hp. repeat case_decide; subst; try lia; try congruence.
    apply H1; lia || congruence.
  - intros _. rewrite !Hkat, Hp. repeat case_decide; try lia; congruence.
Qed.

(** One step of [up] moves the hole from [j] to its parent. *)
Lemma up_swap n l j :
  almost n l j -> kids_ok n l j -> (n <= length l)%nat -> (0 < j < n)%nat ->
  kat l j < kat l (parent j) ->
  almost n (lswap (parent j) j l) (parent j) /\ kids_ok n (lswap (parent j) j l) (parent j).
Proof.
  intros [H1 H2] Hk Hn Hj Hlt. pose proof (parent_lt j ltac:(lia)).
  assert (Hedge : forall k, (0 < k < n)%nat -> k <> j -> kat l (parent k) <= kat l k).
  { intros k ? ?. destruct (decide (parent k = j)) as [E|]; [rewrite E; by apply Hk|by apply H1]. }
  assert (Hkat : forall k, kat (lswap (parent j) j l) k =
    if decide (k = parent j) then kat l j else if decide (k = j) then kat l (parent j) else kat l k)
    by (intros; apply kat_lswap; lia).
  split; [split|].
  - intros k Hk' Hkj Hpk. pose proof (parent_lt k ltac:(lia)).
    rewrite !Hkat. repeat case_decide; subst; try lia; try congruence.
    + apply H2; [lia|done|lia].
    + apply Hedge; lia || congruence.
  - intros k Hk' Hpk Hp0. pose proof (parent_lt (parent j) Hp0).
    pose proof (parent_lt k ltac:(lia)).
    pose proof (Hedge (parent j) ltac:(lia) ltac:(lia)).
    rewrite !Hkat. repeat case_decide; subst; try lia; try congruence.
    pose proof (Hedge k ltac:(lia) ltac:(congruence)) as E. rewrite Hpk in E. lia.
  - intros k Hk' Hpk. pose proof (parent_lt k ltac:(lia)).
    rewrite !Hkat. repeat case_decide; subst; try lia; try congruence.
    pose proof (Hedge k ltac:(lia) ltac:(congruence)) as E. rewrite Hpk in E. lia.
Qed.

(** Appending one element breaks the order at the new last cell only. *)
Lemma almost_snoc l e :
  is_heap l ->
  almost (length l + 1) (l ++ [e]) (length l) /\ kids_ok (length l + 1) (l ++ [e]) (length l).
Proof.
  intros Hh. split; [split|]; intros j Hj.
  - intros Hne _. pose proof (parent_lt j ltac:(lia)).
    rewrite !kat_app_l by lia. apply Hh. lia.
  - intros Hp. pose proof (parent_lt j ltac:(lia)). lia.
  - intros Hp. pose proof (parent_lt j ltac:(lia)). lia.
Qed.

Lemma heap_upto_app l l' : heap_upto (length l) (l ++ l') <-> is_heap l.
Proof.
  unfold is_heap, heap_upto. split; intros H j Hj; specialize (H j Hj);
    pose proof (parent_lt j ltac:(lia)); by rewrite !kat_app_l in * by lia.
Qed.

End Arrays.

(** * The package's functions keep the array and restore the order *)

Section Correct.
Context {S X : Type} `{HeapLaws S X}.
Implicit Types h : S.

(** What every heap operation keeps: the representation, the elements, and the
    cells from [n] on. *)
Definition heap_keeps (n : nat) (h h' : S) : Prop :=
  rep h' /\ view h' ≡ₚ view h /\ (forall k, (n <= k)%nat -> view h' !! k = view h !! k).

Lemma heap_keeps_refl n h : rep h -> heap_keeps n h h.
Proof. done. Qed.

Lemma heap_keeps_trans n h1 h2 h3 : heap_keeps n h1 h2 -> heap_keeps n h2 h3 -> heap_keeps n h1 h3.
Proof.
  intros (? & P1 & E1) (? & P2 & E2). split; [done|]. split; [by rewrite P2|].
  intros k Hk. by rewrite E2, E1.
Qed.

Lemma heap_keeps_length n h h' : heap_keeps n h h' -> length (view h') = length (view h).
Proof. intros (_ & P & _). by apply Permutation_length. Qed.

Lemma swap_keeps n h i j :
  rep h -> (i < n)%nat -> (j < n)%nat -> (n <= length (view h))%nat ->
  heap_keeps n h (hSwap i j h).
Proof.
  intros Hr Hi Hj Hn. destruct (law_swap h i j Hr ltac:(lia) ltac:(lia)) as [Hr' Hv].
  split; [done|]. rewrite Hv. split; [apply lswap_Permutation|].
  intros k Hk. rewrite lswap_lookup by lia. repeat case_decide; try lia; done.
Qed.

(** The child [down] compares with is the smaller of the two. *)
Lemma smaller_child h i n :
  rep h -> (n <= length (view h))%nat -> (2 * i + 1 < n)%nat ->
  let j := if ((2 * i + 1 + 1 <? n)%nat && hLess h (2 * i + 1 + 1) (2 * i + 1))
           then (2 * i + 1 + 1)%nat else (2 * i + 1)%nat in
  (0 < j < n)%nat /\ parent j = i /\
  (forall k, (0 < k < n)%nat -> parent k = i -> kat (view h) j <= kat (view h) k).
Proof.
  intros Hr Hn Hi j. subst j.
  assert (Hright : parent (2 * i + 1 + 1) = i).
  { replace (2 * i + 1 + 1)%nat with (2 * i + 2)%nat by lia. apply parent_right. }
  destruct ((2 * i + 1 + 1 <? n)%nat) eqn:Hj2; cbn [andb].
  - apply Nat.ltb_lt in Hj2. rewrite law_less by (lia || done).
    case_match eqn:Hl; bool_to_prop.
    + split; [lia|]. split; [apply Hright|].
      intros k Hk [-> | ->]%parent_eq; [lia| |lia].
      replace (2 * i + 2)%nat with (2 * i + 1 + 1)%nat by lia; lia.
    + split; [lia|]. split; [apply parent_left|].
      intros k Hk [-> | ->]%parent_eq; [lia| |lia].
      replace (2 * i + 2)%nat with (2 * i + 1 + 1)%nat by lia; lia.
  - apply Nat.ltb_ge in Hj2. split; [lia|]. split; [apply parent_left|].
    intros k Hk [-> | ->]%parent_eq; lia.
Qed.

Lemma down_loop_spec fuel h i n h' i' :
  rep h -> (n <= length (view h))%nat -> almost n (view h) i -> (n < fuel + i)%nat ->
  down_loop fuel h i n = (h', i') ->
  heap_keeps n h h' /\ (i <= i')%nat /\ almost n (view h') i' /\ kids_ok n (view h') i' /\
  (i' = i -> h' = h) /\ ((i < i')%nat -> par_ok (view h') i').
Proof.
  revert h i. induction fuel as [|fuel IH]; intros h i Hr Hn Ha Hf Hd.
  { simpl in Hd. simplify_eq. split; [by apply heap_keeps_refl|].
    repeat split; try lia; try apply Ha.
    intros j Hj Hp. pose proof (parent_lt j ltac:(lia)). lia. }
  cbn [down_loop] in Hd. destruct (n <=? 2 * i + 1)%nat eqn:Hend.
  { apply Nat.leb_le in Hend. simplify_eq. split; [by apply heap_keeps_refl|].
    repeat split; try lia; try apply Ha.
    intros j Hj [-> | ->]%parent_eq; lia. }
  apply Nat.leb_gt in Hend.
  pose proof (smaller_child h i n Hr Hn Hend) as Hc. cbv zeta in Hc.
  match type of Hc with (0 < ?b < n)%nat /\ _ => set (j := b) in * end.
  destruct Hc as (Hj & Hp & Hmin). pose proof (parent_lt j ltac:(lia)).
  rewrite law_less in Hd by (lia || done).
  destruct (kat (view h) j <? kat (view h) i) eqn:Hl; simpl in Hd; bool_to_prop.
  - destruct (law_swap h i j Hr ltac:(lia) ltac:(lia)) as [Hr' Hv].
    destruct (down_swap n (view h) i j Ha Hn Hj Hp Hmin Hl) as [Ha' Hp'].
    rewrite <- Hv in Ha', Hp'.
    pose proof (swap_keeps n h i j Hr ltac:(lia) ltac:(lia) Hn) as Hk.
    apply IH in Hd; [|done|by rewrite (heap_keeps_length _ _ _ Hk)|done|lia].
    destruct Hd as (Hk2 & Hle & Ha2 & Hkids & Heq & Hpar).
    split; [by eapply heap_keeps_trans|]. split; [lia|]. split; [done|]. split; [done|].
    split; [lia|]. intros _. destruct (decide (i' = j)) as [->|]; [|apply Hpar; lia].
    by rewrite (Heq eq_refl).
  - simplify_eq. split; [by apply heap_keeps_refl|]. repeat split; try lia; try apply Ha.
    intros k Hk Hpk. specialize (Hmin k Hk Hpk). lia.
Qed.

Lemma up_loop_spec fuel h j n :
  rep h -> (n <= length (view h))%nat -> (j < n)%nat -> (j < fuel)%nat ->
  almost n (view h) j -> kids_ok n (view h) j ->
  heap_keeps n h (up_loop fuel h j) /\ heap_upto n (view (up_loop fuel h j)).
Proof.
  revert h j. induction fuel as [|fuel IH]; intros h j Hr Hn Hj Hf Ha Hk; [lia|].
  cbn [up_loop]. fold (parent j).
  destruct (parent j =? j)%nat eqn:Heq; simpl.
  { apply Nat.eqb_eq in Heq. split; [done|]. apply (almost_heap _ _ j); [done..|].
    intros ?. pose proof (parent_lt j ltac:(lia)). lia. }
  apply Nat.eqb_neq in Heq.
  assert (0 < j)%nat by (destruct j; [by destruct Heq|lia]).
  pose proof (parent_lt j ltac:(lia)).
  rewrite law_less by (lia || done).
  destruct (kat (view h) j <? kat (view h) (parent j)) eqn:Hl; simpl; bool_to_prop.
  - destruct (law_swap h (parent j) j Hr ltac:(lia) ltac:(lia)) as [Hr' Hv].
    destruct (up_swap n (view h) j Ha Hk Hn ltac:(lia) Hl) as [Ha' Hk'].
    rewrite <- Hv in Ha', Hk'.
    pose proof (swap_keeps n h (parent j) j Hr ltac:(lia) ltac:(lia) Hn) as Hks.
    destruct (IH (hSwap (parent j) j h) (parent j)) as [Hks2 Hh];
      [done|by rewrite (heap_keeps_length _ _ _ Hks)|lia|lia|done|done|].
    split; [by eapply heap_keeps_trans|done].
  - split; [done|]. apply (almost_heap _ _ j); [done..|]. intros _. lia.
Qed.

(** [down] followed, when nothing moved, by [up] repairs any single broken cell. *)
Lemma fix_at h i n h' moved :
  rep h -> (n <= length (view h))%nat -> (i < n)%nat -> almost n (view h) i ->
  down h i n = (h', moved) ->
  let h'' := if moved then h' else up h' i in
  heap_keeps n h h'' /\ heap_upto n (view h'').
Proof.
  intros Hr Hn Hi Ha Hd. unfold down in Hd.
  destruct (down_loop _ h i n) as [h1 i1] eqn:Hl. simplify_eq.
  apply down_loop_spec in Hl; [|done|done|done|lia].
  destruct Hl as (Hk & Hle & Ha1 & Hk1 & Heq & Hpar).
  destruct (i <? i1)%nat eqn:Hm.
  - apply Nat.ltb_lt in Hm. split; [done|]. apply (almost_heap _ _ i1); auto.
  - apply Nat.ltb_ge in Hm. assert (i1 = i) as -> by lia. rewrite (Heq eq_refl) in *.
    by apply up_loop_spec; [| | |lia| |].
Qed.

(** heap.Push adds exactly the pushed element and keeps the order. *)
Lemma heapPush_spec h x :
  rep h -> is_heap (view h) -> pushable x h ->
  rep (heapPush x h) /\ view (heapPush x h) ≡ₚ (x, pkey x h) :: view h /\ is_heap (view (heapPush x h)).
Proof.
  intros Hr Hh Hx. destruct (law_push h x Hr Hx) as [Hr' Hv].
  unfold heapPush. rewrite law_len, Hv, length_app. simpl.
  replace (length (view h) + 1 - 1)%nat with (length (view h)) by lia.
  destruct (almost_snoc (view h) (x, pkey x h) Hh) as [Ha Hk]. rewrite <- Hv in Ha, Hk.
  destruct (up_loop_spec (Datatypes.S (length (view h))) (hPush x h) (length (view h)) (length (view h) + 1))
    as [Hks Hh']; [done|rewrite Hv; len; simpl; lia|lia|lia|done|done|].
  pose proof (heap_keeps_length _ _ _ Hks) as Hlen. destruct Hks as (Hr2 & P & _).
  split; [done|]. unfold up. split; [rewrite P, Hv; apply Permutation_app_comm|].
  unfold is_heap. rewrite Hlen, Hv, length_app. done.
Qed.

(** Removing the last cell of a heap leaves a heap. *)
Lemma pop_last h n :
  rep h -> length (view h) = Datatypes.S n -> heap_upto n (view h) ->
  exists x k, view h !! n = Some (x, k) /\ (hPop h).1 = Some x /\ rep (hPop h).2 /\
    view h ≡ₚ (x, k) :: view (hPop h).2 /\ is_heap (view (hPop h).2).
Proof.
  intros Hr Hlen Hh. destruct (view h) as [|e l _] eqn:Hv using rev_ind; [done|].
  rewrite length_app in Hlen. simpl in Hlen. assert (n = length l) as -> by lia.
  destruct e as [x k]. destruct (law_pop h l x k Hr Hv) as (Hx & Hr' & Hv').
  exists x, k. rewrite Hv'. split; [by rewrite list_lookup_middle|].
  split; [done|]. split; [done|]. split; [apply Permutation_app_comm|].
  by apply heap_upto_app in Hh.
Qed.

(** Swapping cell [i] with the last one and repairing there leaves the first
    [n] cells in heap order and the old cell [i] last. *)
Lemma swap_last h i n :
  rep h -> length (view h) = Datatypes.S n -> is_heap (view h) -> (i < n)%nat ->
  rep (hSwap i n h) /\ view (hSwap i n h) ≡ₚ view h /\
  length (view (hSwap i n h)) = Datatypes.S n /\
  almost n (view (hSwap i n h)) i /\ view (hSwap i n h) !! n = view h !! i.
Proof.
  intros Hr Hlen Hh Hi.
  destruct (law_swap h i n Hr ltac:(lia) ltac:(lia)) as [Hr1 Hv1].
  split; [done|]. rewrite Hv1. split; [apply lswap_Permutation|].
  split; [by rewrite lswap_length|]. split.
  - apply (almost_change n (view h)).
    + apply (heap_upto_le (length (view h))); [done|lia].
    + intros k Hk Hne. rewrite kat_lswap by lia. repeat case_decide; try lia; done.
  - rewrite lswap_lookup by lia. repeat case_decide; try lia; congruence.
Qed.

(** heap.Pop returns an element of minimal key and keeps the others in order. *)
Lemma heapPop_spec h :
  rep h -> is_heap (view h) -> view h <> [] ->
  exists x k, view h !! 0%nat = Some (x, k) /\ (heapPop h).1 = Some x /\ rep (heapPop h).2 /\
    view h ≡ₚ (x, k) :: view (heapPop h).2 /\ is_heap (view (heapPop h).2) /\
    (forall y ky, (y, ky) ∈ view h -> k <= ky).
Proof.
  intros Hr Hh Hne. unfold heapPop. rewrite law_len.
  set (n := (length (view h) - 1)%nat).
  assert (Hlen : length (view h) = Datatypes.S n) by (subst n; destruct (view h); simpl; [done|lia]).
  assert (H1 : rep (hSwap 0 n h) /\ view (hSwap 0 n h) ≡ₚ view h /\
    length (view (hSwap 0 n h)) = Datatypes.S n /\
    almost n (view (hSwap 0 n h)) 0 /\ view (hSwap 0 n h) !! n = view h !! 0%nat).
  { destruct (decide (n = 0%nat)) as [E|]; [|apply swap_last; done || lia].
    destruct (law_swap h 0 n Hr ltac:(lia) ltac:(lia)) as [Hr1 Hv1].
    rewrite Hv1, lswap_length. repeat split; try done; try (apply lswap_Permutation); try lia.
    rewrite lswap_lookup, E by lia. done. }
  destruct H1 as (Hr1 & P1 & Hl1 & Ha & Hlast).
  unfold down. destruct (down_loop _ (hSwap 0 n h) 0 n) as [h2 i2] eqn:Hd.
  apply down_loop_spec in Hd; [|done|lia|done|lia].
  destruct Hd as (Hks & _ & Ha2 & Hk2 & Heq & Hpar).
  assert (Hh2 : heap_upto n (view h2)).
  { apply (almost_heap _ _ i2); [done|done|]. intros Hi. by apply Hpar. }
  pose proof (heap_keeps_length _ _ _ Hks) as Hl2. destruct Hks as (Hr2 & P2 & Hrest).
  destruct (pop_last h2 n Hr2 ltac:(lia) Hh2) as (x & k & Hx & Hpop & Hr3 & P3 & Hh3).
  rewrite (Hrest n ltac:(lia)), Hlast in Hx.
  exists x, k. split; [done|]. split; [done|]. split; [done|]. split; [by rewrite <- P3, P2, P1|].
  split; [done|]. intros y ky [j Hj]%list_elem_of_lookup.
  pose proof (heap_root_min _ _ j Hh (lookup_lt_Some _ _ _ Hj)) as Hmin.
  unfold kat in Hmin. by rewrite Hx, Hj in Hmin.
Qed.

(** heap.Remove takes out exactly the element at index [i]. *)
Lemma heapRemove_spec h i x k :
  rep h -> is_heap (view h) -> view h !! i = Some (x, k) ->
  (heapRemove h i).1 = Some x /\ rep (heapRemove h i).2 /\
  view h ≡ₚ (x, k) :: view (heapRemove h i).2 /\ is_heap (view (heapRemove h i).2).
Proof.
  intros Hr Hh Hi. pose proof (lookup_lt_Some _ _ _ Hi).
  unfold heapRemove. rewrite law_len.
  set (n := (length (view h) - 1)%nat). assert (Hlen : length (view h) = Datatypes.S n) by lia.
  destruct (n =? i)%nat eqn:Hn.
  - apply Nat.eqb_eq in Hn.
    destruct (pop_last h n Hr Hlen) as (x' & k' & Hx & Hpop & Hr3 & P3 & Hh3).
    { apply (heap_upto_le (length (view h))); [done|lia]. }
    rewrite Hn, Hi in Hx. by simplify_eq.
  - apply Nat.eqb_neq in Hn.
    destruct (swap_last h i n Hr Hlen Hh ltac:(lia)) as (Hr1 & P1 & Hl1 & Ha & Hlast).
    destruct (down (hSwap i n h) i n) as [h' moved] eqn:Hd.
    destruct (fix_at _ i n h' moved Hr1 ltac:(lia) ltac:(lia) Ha Hd) as [Hks Hh2].
    set (h2 := if moved then h' else up h' i) in *.
    pose proof (heap_keeps_length _ _ _ Hks) as Hl2. destruct Hks as (Hr2 & P2 & Hrest).
    destruct (pop_last h2 n Hr2 ltac:(lia) Hh2) as (x' & k' & Hx & Hpop & Hr3 & P3 & Hh3).
    rewrite (Hrest n ltac:(lia)), Hlast, Hi in Hx. simplify_eq.
    split; [done|]. split; [done|]. split; [by rewrite <- P3, P2, P1|done].
Qed.

(** heap.Fix repairs the order after the key of the element at [i] changed. *)
Lemma heapFix_spec h i (l : list (X * Z)) :
  rep h -> is_heap l -> length l = length (view h) -> (i < length l)%nat ->
  (forall k, k <> i -> kat (view h) k = kat l k) ->
  rep (heapFix h i) /\ view (heapFix h i) ≡ₚ view h /\ is_heap (view (heapFix h i)).
Proof.
  intros Hr Hh Hl Hi Hk. unfold heapFix. rewrite law_len.
  destruct (down h i (length (view h))) as [h' moved] eqn:Hd.
  assert (Ha : almost (length (view h)) (view h) i).
  { apply (almost_change _ l); [by rewrite <- Hl|]. intros. by apply Hk. }
  destruct (fix_at h i (length (view h)) h' moved Hr ltac:(lia) ltac:(lia) Ha Hd) as [Hks Hh2].
  pose proof (heap_keeps_length _ _ _ Hks) as Hl2. destruct Hks as (Hr2 & P2 & _).
  split; [done|]. split; [done|]. unfold is_heap. by rewrite Hl2.
Qed.

End Correct.
