(* ===== verification/MemStorage.v ===== *)
(** The RAM-bounded torrent piece store (internal/engine/memstorage.go).

    Pieces live in a store shared by all torrents ([memStorage]); a piece is
    addressed by its torrent handle and index.  The eviction order is a
    [container/heap] over the complete pieces ([GoHeap]).  The operations are
    functions on the store, one per critical section of the Go code; [step]
    interleaves the critical sections of any number of goroutines.

    The theorems: the byte accounting and the eviction order are exact in every
    reachable state; eviction restores the budget or leaves nothing evictable,
    never touches an in-flight piece, and takes the least recently read piece;
    what a write stores a read returns. *)

From S2P Require Import Prelude GoHeap.

(** * Data *)

(** A piece: the torrent handle it was opened under and its index there. *)
Abbreviation pid := (nat * nat)%type.

Inductive memErr := errNegativeOffset | errEOF | errPieceEvicted | errShortWrite | errWriter.

(** memPiece.  [mp_data] is [None] while the piece is not resident. *)
Record memPiece := MkPiece {
  mp_length : Z;
  mp_data : option (list Z);
  mp_complete : bool;
  mp_lastUsed : Z;
  mp_key : Z;
  mp_lruIdx : Z;
  mp_evictedReads : Z;
  mp_evictedAt : Z
}.

Definition set_data d (m : memPiece) : memPiece :=
  MkPiece (mp_length m) d (mp_complete m) (mp_lastUsed m) (mp_key m) (mp_lruIdx m)
    (mp_evictedReads m) (mp_evictedAt m).
Definition set_complete c (m : memPiece) : memPiece :=
  MkPiece (mp_length m) (mp_data m) c (mp_lastUsed m) (mp_key m) (mp_lruIdx m)
    (mp_evictedReads m) (mp_evictedAt m).
Definition set_lastUsed t (m : memPiece) : memPiece :=
  MkPiece (mp_length m) (mp_data m) (mp_complete m) t (mp_key m) (mp_lruIdx m)
    (mp_evictedReads m) (mp_evictedAt m).
Definition set_key k (m : memPiece) : memPiece :=
  MkPiece (mp_length m) (mp_data m) (mp_complete m) (mp_lastUsed m) k (mp_lruIdx m)
    (mp_evictedReads m) (mp_evictedAt m).
Definition set_lruIdx i (m : memPiece) : memPiece :=
  MkPiece (mp_length m) (mp_data m) (mp_complete m) (mp_lastUsed m) (mp_key m) i
    (mp_evictedReads m) (mp_evictedAt m).
Definition set_evicted r t (m : memPiece) : memPiece :=
  MkPiece (mp_length m) (mp_data m) (mp_complete m) (mp_lastUsed m) (mp_key m) (mp_lruIdx m) r t.

(** memStorage; [st_torrents] gives each opened torrent its number of piece
    slots, [st_pieces] the slots filled so far. *)
Record memStorage := MkStore {
  st_capacity : Z;
  st_used : Z;
  st_lru : list pid;
  st_tick : Z;
  st_torrents : gmap nat nat;
  st_pieces : gmap pid memPiece
}.

Definition set_used u (s : memStorage) : memStorage :=
  MkStore (st_capacity s) u (st_lru s) (st_tick s) (st_torrents s) (st_pieces s).
Definition set_lru l (s : memStorage) : memStorage :=
  MkStore (st_capacity s) (st_used s) l (st_tick s) (st_torrents s) (st_pieces s).
Definition set_tick t (s : memStorage) : memStorage :=
  MkStore (st_capacity s) (st_used s) (st_lru s) t (st_torrents s) (st_pieces s).
Definition set_pieces m (s : memStorage) : memStorage :=
  MkStore (st_capacity s) (st_used s) (st_lru s) (st_tick s) (st_torrents s) m.

(** Writes to one piece object through its pointer. *)
Definition upd (p : pid) (f : memPiece -> memPiece) (s : memStorage) : memStorage :=
  set_pieces (alter f p (st_pieces s)) s.

(** * Construction *)

Definition newMemStorage (capacity : Z) : memStorage :=
  MkStore capacity 0 [] 0 ∅ ∅.

(** OpenTorrent under a fresh handle [t] with [n] pieces: every slot is nil. *)
Definition openTorrent (t n : nat) (s : memStorage) : memStorage :=
  MkStore (st_capacity s) (st_used s) (st_lru s) (st_tick s) (<[t:=n]> (st_torrents s)) (st_pieces s).

(** memTorrent.piece: the compare-and-swap fills an empty slot once. *)
Definition piece (p : pid) (length : Z) (s : memStorage) : memStorage :=
  match st_pieces s !! p with
  | Some _ => s
  | None => set_pieces (<[p := MkPiece length None false 0 0 (-1) 0 0]> (st_pieces s)) s
  end.

(** * lruHeap: heap.Interface over the store *)

Definition lru_key (s : memStorage) (i : nat) : Z :=
  match st_lru s !! i with
  | Some p => match st_pieces s !! p with Some m => mp_key m | None => 0 end
  | None => 0
  end.

(** Swap exchanges the two slots and refreshes both back-pointers. *)
Definition lru_swap (i j : nat) (s : memStorage) : memStorage :=
  let h := lswap i j (st_lru s) in
  let s := set_lru h s in
  let s := match h !! i with Some p => upd p (set_lruIdx (Z.of_nat i)) s | None => s end in
  match h !! j with Some p => upd p (set_lruIdx (Z.of_nat j)) s | None => s end.

Definition lru_push (p : pid) (s : memStorage) : memStorage :=
  set_lru (st_lru s ++ [p]) (upd p (set_lruIdx (Z.of_nat (length (st_lru s)))) s).

Definition lru_pop (s : memStorage) : option pid * memStorage :=
  match last (st_lru s) with
  | Some p => (Some p, upd p (set_lruIdx (-1)) (set_lru (take (length (st_lru s) - 1) (st_lru s)) s))
  | None => (None, s)
  end.

#[export] Instance lruHeap : HeapInterface memStorage pid := {
  hLen s := length (st_lru s);
  hLess s i j := lru_key s i <? lru_key s j;
  hSwap := lru_swap;
  hPush := lru_push;
  hPop := lru_pop
}.

(** * Eviction *)

(** popOldestLocked.  [fuel] bounds the re-keying loop; each turn makes one
    stale piece current, so one more than the number of pieces is enough. *)
Fixpoint popOldest_loop (fuel : nat) (s : memStorage) : option pid * memStorage :=
  match fuel with
  | O => (None, s)
  | S fuel =>
      match st_lru s with
      | [] => (None, s)
      | top :: _ =>
          match st_pieces s !! top with
          | None => (None, s)
          | Some m =>
              if mp_key m <? mp_lastUsed m
              then popOldest_loop fuel (heapFix (upd top (set_key (mp_lastUsed m)) s) 0)
              else heapPop s
          end
      end
  end.

Definition popOldestLocked (s : memStorage) : option pid * memStorage :=
  popOldest_loop (S (length (st_lru s))) s.

Definition freeLocked (p : pid) (s : memStorage) : memStorage :=
  match st_pieces s !! p with
  | None => s
  | Some m =>
      let s := match mp_data m with
               | Some _ => set_used (st_used s - mp_length m) s
               | None => s
               end in
      upd p (fun m => set_complete false (set_data None m)) s
  end.

Fixpoint evict_loop (fuel : nat) (need : Z) (s : memStorage) : memStorage :=
  match fuel with
  | O => s
  | S fuel =>
      if st_capacity s <? st_used s + need then
        match popOldestLocked s with
        | (None, s) => s
        | (Some victim, s) => evict_loop fuel need (freeLocked victim s)
        end
      else s
  end.

Definition piece_lruIdx (p : pid) (s : memStorage) : Z :=
  match st_pieces s !! p with Some m => mp_lruIdx m | None => -1 end.

(** evictLocked: [keep], when it is in the heap, is parked outside it. *)
Definition evictLocked (need : Z) (keep : option pid) (s : memStorage) : memStorage :=
  if st_used s + need <=? st_capacity s then s
  else
    let parked := match keep with Some p => 0 <=? piece_lruIdx p s | None => false end in
    let run s := evict_loop (S (length (st_lru s))) need s in
    match keep with
    | Some p =>
        if parked
        then heapPush p (run (heapRemove s (Z.to_nat (piece_lruIdx p s))).2)
        else run s
    | None => run s
    end.

Definition dropLocked (p : pid) (s : memStorage) : memStorage :=
  let s := if 0 <=? piece_lruIdx p s
           then (heapRemove s (Z.to_nat (piece_lruIdx p s))).2 else s in
  freeLocked p s.

Definition reserve (need : Z) (s : memStorage) : memStorage :=
  let s := evictLocked need None s in
  set_used (st_used s + need) s.

(** memTorrent.close: drop every filled slot of torrent [t]. *)
Definition torrentClose (t : nat) (s : memStorage) : memStorage :=
  foldl (fun s i => match st_pieces s !! (t, i) with
                    | Some _ => dropLocked (t, i) s
                    | None => s
                    end)
    s (seq 0 (default 0%nat (st_torrents s !! t))).

(** memStorage.Close: frees every piece of the LRU and forgets the accounting. *)
Definition storeClose (s : memStorage) : memStorage :=
  let s := foldl (fun s p => upd p (fun m => set_complete false (set_data None (set_lruIdx (-1) m))) s)
             s (st_lru s) in
  set_used 0 (set_lru [] s).

(** * Piece operations *)

(** Installs a pooled buffer: its previous contents are whatever [buf] holds. *)
Definition installBuf (p : pid) (buf : list Z) (s : memStorage) : memStorage :=
  upd p (fun m => set_evicted 0 (mp_evictedAt m) (set_data (Some buf) m)) s.

(** lockResident run without interference. *)
Definition lockResident (p : pid) (buf : list Z) (s : memStorage) : memStorage :=
  match st_pieces s !! p with
  | Some m =>
      match mp_data m with
      | Some _ => s
      | None => installBuf p buf (reserve (mp_length m) s)
      end
  | None => s
  end.

(** [copy(dst[off:], src)]: the bytes written and the new destination. *)
Definition copyAt (dst : list Z) (off : nat) (src : list Z) : list Z * nat :=
  let n := Nat.min (length src) (length dst - off) in
  (take off dst ++ take n src ++ drop (off + n) dst, n).

(** The copy under the piece lock of WriteAt. *)
Definition copyIn (p : pid) (b : list Z) (off : Z) (s : memStorage) : Z * memStorage :=
  match st_pieces s !! p with
  | Some m =>
      match mp_data m with
      | Some d =>
          let '(d', n) := copyAt d (Z.to_nat off) b in
          (Z.of_nat n, upd p (set_data (Some d')) s)
      | None => (0, s)
      end
  | None => (0, s)
  end.

Definition piece_len (p : pid) (s : memStorage) : Z :=
  match st_pieces s !! p with Some m => mp_length m | None => 0 end.

(** WriteAt; [buf] is what the buffer pool hands out if one is needed. *)
Definition WriteAt (p : pid) (b : list Z) (off : Z) (buf : list Z) (s : memStorage) :
    (Z * option memErr) * memStorage :=
  if off <? 0 then ((0, Some errNegativeOffset), s)
  else if piece_len p s <=? off then ((0, Some errEOF), s)
  else
    let '(n, s) := copyIn p b off (lockResident p buf s) in ((n, None), s).

(** stamp: a no-op when the piece already holds the newest tick. *)
Definition stamp (p : pid) (s : memStorage) : memStorage :=
  match st_pieces s !! p with
  | Some m =>
      if mp_lastUsed m =? st_tick s then s
      else let t := st_tick s + 1 in upd p (set_lastUsed t) (set_tick t s)
  | None => s
  end.

(** What ReadAt returns: the bytes copied into the caller's buffer, the error,
    and whether the evicted-piece path (refetch hook and wait) was taken. *)
Record readResult := MkRead { rd_bytes : list Z; rd_err : option memErr; rd_refetch : bool }.

Definition ReadAt (p : pid) (blen : nat) (off : Z) (s : memStorage) : readResult * memStorage :=
  match st_pieces s !! p with
  | None => (MkRead [] (Some errPieceEvicted) true, s)
  | Some m =>
      match mp_data m with
      | Some d =>
          if (0 <=? off) && (off <? mp_length m) then
            let bs := take blen (drop (Z.to_nat off) d) in
            let s := stamp p s in
            if (length bs <? blen)%nat then (MkRead bs (Some errEOF) false, s)
            else (MkRead bs None false, s)
          else if off <? 0 then (MkRead [] (Some errNegativeOffset) false, s)
          else (MkRead [] (Some errEOF) false, s)
      | None =>
          if off <? 0 then (MkRead [] (Some errNegativeOffset) false, s)
          else (MkRead [] (Some errPieceEvicted) true, s)
      end
  end.

Definition MarkComplete (p : pid) (s : memStorage) : option memErr * memStorage :=
  match st_pieces s !! p with
  | None => (Some errPieceEvicted, s)
  | Some m =>
      match mp_data m with
      | None => (Some errPieceEvicted, s)
      | Some _ =>
          let t := st_tick s + 1 in
          let s := set_tick t (upd p (set_complete true) s) in
          let s := upd p (fun m => set_key t (set_lastUsed t m)) s in
          let s := if 0 <=? piece_lruIdx p s
                   then heapFix s (Z.to_nat (piece_lruIdx p s))
                   else heapPush p s in
          let s := upd p (fun m => set_evicted 0 (mp_evictedAt m) m) s in
          (None, evictLocked 0 (Some p) s)
      end
  end.

Definition MarkNotComplete (p : pid) (s : memStorage) : memStorage :=
  let s := upd p (set_complete false) s in
  if 0 <=? piece_lruIdx p s
  then (heapRemove s (Z.to_nat (piece_lruIdx p s))).2 else s.

(** Completion: the [Complete] field ([Ok] is always true). *)
Definition Completion (p : pid) (s : memStorage) : bool :=
  match st_pieces s !! p with
  | Some m => mp_complete m && match mp_data m with Some _ => true | None => false end
  | None => false
  end.

(** ** Reading an evicted piece *)

Definition refetchSettle : Z := 1000000.
Definition int32 (z : Z) : Z := wrapS 32 z.

(** The escalating sleep of a retry spin. *)
Definition retryFloor (backoff reads : Z) : Z :=
  let shift := int32 (reads - 2) in
  if shift <? 31 then Z.min backoff (int64 (Z.shiftl refetchSettle shift)) else backoff.

(** waitRefetch: [done] is [None] for a nil channel, otherwise the delay after
    which it is closed ([None]: never); [now1] and [now2] are the clock readings
    on entry and exit.  Returns the time waited and the piece. *)
Definition waitRefetch (done : option (option Z)) (backoff now1 now2 : Z) (m : memPiece) :
    Z * memPiece :=
  if backoff <=? 0 then (0, m)
  else
    let last := mp_evictedAt m in
    let reads0 := if negb (last =? 0) && (backoff <? int64 (now1 - last)) then 0
                  else mp_evictedReads m in
    let reads := int32 (reads0 + 1) in
    let waited :=
      match done with
      | None => backoff
      | Some d =>
          let w := match d with Some t => Z.min t backoff | None => backoff end in
          if 1 <? reads then w + retryFloor backoff reads else w
      end in
    (waited, set_evicted reads now2 m).

(** ** WriteTo *)

Definition writeToChunk : nat := N.to_nat 65536.

Section WriteTo.
Context {W : Type} (write : list Z -> W -> (nat * option memErr) * W).

(** WriteTo; [data k] is the piece's buffer at the [k]-th time the loop takes
    the read lock, which other goroutines may have changed in between. *)
Fixpoint WriteTo_loop (fuel : nat) (k : nat) (data : nat -> option (list Z)) (length' total : nat)
    (w : W) : (nat * option memErr) * W :=
  match fuel with
  | O => ((total, None), w)
  | S fuel =>
      if (total <? length')%nat then
        match data k with
        | None => ((total, Some errPieceEvicted), w)
        | Some d =>
            let chunk := take writeToChunk (drop total (take length' d)) in
            let '((wn, err), w) := write chunk w in
            match err with
            | Some e => (((total + wn)%nat, Some e), w)
            | None =>
                if (wn <? length chunk)%nat then (((total + wn)%nat, Some errShortWrite), w)
                else WriteTo_loop fuel (S k) data length' (total + wn) w
            end
        end
      else ((total, None), w)
  end.

Definition WriteTo (data : nat -> option (list Z)) (length' : nat) (w : W) :
    (nat * option memErr) * W :=
  WriteTo_loop (S length') 0 data length' 0 w.

End WriteTo.

(** * Interleavings *)

(** The store together with what goroutines hold between critical sections:
    pieces whose first writer has reserved the budget but not yet installed the
    buffer (it holds the piece's allocMu), and ticks taken by readers that have
    not been stored yet. *)
Record config := MkConfig {
  c_store : memStorage;
  c_reserving : gset pid;
  c_stamps : list (pid * Z)
}.

Definition resident (s : memStorage) (p : pid) : Prop :=
  exists m d, st_pieces s !! p = Some m /\ mp_data m = Some d.

Inductive step : config -> config -> Prop :=
| step_open s rs ts t n :
    st_torrents s !! t = None -> (forall i, st_pieces s !! (t, i) = None) ->
    step (MkConfig s rs ts) (MkConfig (openTorrent t n s) rs ts)
| step_piece s rs ts t i n len :
    st_torrents s !! t = Some n -> (i < n)%nat -> 0 < len ->
    step (MkConfig s rs ts) (MkConfig (piece (t, i) len s) rs ts)
| step_reserve s rs ts p m :
    p ∉ rs -> st_pieces s !! p = Some m -> mp_data m = None ->
    step (MkConfig s rs ts) (MkConfig (reserve (mp_length m) s) ({[p]} ∪ rs) ts)
| step_install s rs ts p m buf b off :
    p ∈ rs -> st_pieces s !! p = Some m -> Z.of_nat (length buf) = mp_length m ->
    0 <= off < mp_length m ->
    step (MkConfig s rs ts) (MkConfig (copyIn p b off (installBuf p buf s)).2 (rs ∖ {[p]}) ts)
| step_write s rs ts p b off :
    resident s p -> 0 <= off < piece_len p s ->
    step (MkConfig s rs ts) (MkConfig (copyIn p b off s).2 rs ts)
| step_tick s rs ts p :
    resident s p ->
    step (MkConfig s rs ts)
      (MkConfig (set_tick (st_tick s + 1) s) rs ((p, st_tick s + 1) :: ts))
| step_store s rs ts p t ts' :
    ts ≡ₚ (p, t) :: ts' ->
    step (MkConfig s rs ts) (MkConfig (upd p (set_lastUsed t) s) rs ts')
| step_complete s rs ts p :
    step (MkConfig s rs ts) (MkConfig (MarkComplete p s).2 rs ts)
| step_notComplete s rs ts p :
    step (MkConfig s rs ts) (MkConfig (MarkNotComplete p s) rs ts)
| step_close s rs ts t :
    step (MkConfig s rs ts) (MkConfig (torrentClose t s) rs ts).

Definition init (capacity : Z) : config := MkConfig (newMemStorage capacity) ∅ [].

(** * Invariants *)

Definition key_of (s : memStorage) (p : pid) : Z :=
  match st_pieces s !! p with Some m => mp_key m | None => 0 end.

Definition lru_view (s : memStorage) : list (pid * Z) :=
  (fun p => (p, key_of s p)) <$> st_lru s.

(** Every back-pointer [lruIdx] agrees with the heap array. *)
Definition lru_wf (s : memStorage) : Prop :=
  NoDup (st_lru s) /\
  (forall i p, st_lru s !! i = Some p ->
     exists m, st_pieces s !! p = Some m /\ mp_lruIdx m = Z.of_nat i) /\
  (forall p m, st_pieces s !! p = Some m -> p ∉ st_lru s -> mp_lruIdx m = -1).

(** Bytes a piece holds. *)
Definition held (m : memPiece) : Z := match mp_data m with Some _ => mp_length m | None => 0 end.

(** The pieces whose first writer is between reserve and install. *)
Definition reserving_bytes (s : memStorage) (rs : gset pid) : Z :=
  sumZ (fun p => piece_len p s) (elements rs).

(** The shape of the pieces and of the eviction order. *)
Definition shape (s : memStorage) : Prop :=
  lru_wf s /\ is_heap (lru_view s) /\
  (forall p m, st_pieces s !! p = Some m ->
     0 < mp_length m /\
     (forall d, mp_data m = Some d -> Z.of_nat (length d) = mp_length m) /\
     (mp_complete m = true -> mp_data m <> None) /\
     (mp_complete m = true <-> p ∈ st_lru s)).

(** The accounting: [used] is what resident pieces hold plus [extra]. *)
Definition accounts (s : memStorage) (extra : Z) : Prop :=
  st_used s = msum held (st_pieces s) + extra.

Definition inv (c : config) : Prop :=
  shape (c_store c) /\
  accounts (c_store c) (reserving_bytes (c_store c) (c_reserving c)) /\
  (forall p, p ∈ c_reserving c -> exists m, st_pieces (c_store c) !! p = Some m /\ mp_data m = None).

(** * The heap instance *)

(** What heap operations never touch: everything but positions. *)
Definition core (s : memStorage) :=
  (st_capacity s, st_used s, st_tick s, st_torrents s, set_lruIdx 0 <$> st_pieces s).

Lemma upd_lookup p f s q :
  st_pieces (upd p f s) !! q = if decide (p = q) then f <$> st_pieces s !! q else st_pieces s !! q.
Proof. unfold upd. simpl. rewrite lookup_alter. by destruct (decide (p = q)); subst. Qed.

Lemma upd_lru p f s : st_lru (upd p f s) = st_lru s.
Proof. done. Qed.

Lemma upd_used p f s : st_used (upd p f s) = st_used s.
Proof. done. Qed.

Lemma upd_capacity p f s : st_capacity (upd p f s) = st_capacity s.
Proof. done. Qed.

Lemma set_lru_lru l s : st_lru (set_lru l s) = l.
Proof. done. Qed.

Lemma set_lru_pieces l s : st_pieces (set_lru l s) = st_pieces s.
Proof. done. Qed.

#[local] Hint Rewrite upd_lru upd_used upd_capacity set_lru_lru set_lru_pieces upd_lookup : go.

(** Reads of a piece after pointer writes, with the aliasing cases split. *)
Ltac mem_lookup :=
  autorewrite with go in *;
  repeat match goal with
  | |- context [decide (?p = ?q)] => destruct (decide (p = q)); subst
  | _ : context [decide (?p = ?q)] |- _ => destruct (decide (p = q)); subst
  end; try done.

Lemma upd_lookup_eq p f s : st_pieces (upd p f s) !! p = f <$> st_pieces s !! p.
Proof. rewrite upd_lookup. by destruct (decide (p = p)). Qed.

Lemma upd_lookup_ne p f s q : p <> q -> st_pieces (upd p f s) !! q = st_pieces s !! q.
Proof. rewrite upd_lookup. intros. by destruct (decide (p = q)). Qed.

Lemma core_upd_lruIdx p i s : core (upd p (set_lruIdx i) s) = core s.
Proof.
  unfold core. f_equal. apply map_eq. intros q. rewrite !lookup_fmap, upd_lookup.
  destruct (decide (p = q)); [|done]. by destruct (st_pieces s !! q).
Qed.

Lemma core_set_lru l s : core (set_lru l s) = core s.
Proof. done. Qed.

(** Equal cores give the same piece up to its position. *)
Lemma core_piece s s' p m :
  core s = core s' -> st_pieces s !! p = Some m ->
  exists m', st_pieces s' !! p = Some m' /\ set_lruIdx 0 m' = set_lruIdx 0 m.
Proof.
  intros Hc Hp. unfold core in Hc.
  assert (E : (set_lruIdx 0 <$> st_pieces s) !! p = (set_lruIdx 0 <$> st_pieces s') !! p)
    by (f_equal; congruence).
  rewrite !lookup_fmap, Hp in E. simpl in E.
  destruct (st_pieces s' !! p) as [m'|]; [|done]. simpl in E. exists m'. split; congruence.
Qed.

Lemma core_key s s' p : core s = core s' -> key_of s p = key_of s' p.
Proof.
  intros Hc. unfold key_of. destruct (st_pieces s !! p) as [m|] eqn:E.
  - destruct (core_piece _ _ _ _ Hc E) as (m' & -> & H).
    by apply (f_equal mp_key) in H.
  - destruct (st_pieces s' !! p) as [m'|] eqn:E'; [|done].
    destruct (core_piece _ _ _ _ (eq_sym Hc) E') as (m & ? & _). congruence.
Qed.

Lemma lru_view_core s s' l : core s = core s' -> st_lru s' = l ->
  lru_view s' = (fun p => (p, key_of s p)) <$> l.
Proof.
  intros Hc <-. unfold lru_view. apply list_fmap_ext. intros i p _. f_equal.
  symmetry. by apply core_key.
Qed.

Lemma kat_lru_view s i : kat (lru_view s) i = lru_key s i.
Proof.
  unfold kat, lru_view, lru_key. rewrite list_lookup_fmap. by destruct (st_lru s !! i).
Qed.

Lemma lswap_fmap {A B} (f : A -> B) i j l : lswap i j (f <$> l) = f <$> lswap i j l.
Proof.
  unfold lswap. rewrite !list_lookup_fmap.
  destruct (l !! i), (l !! j); simpl; [|done..]. by rewrite !list_fmap_insert.
Qed.

Lemma lru_swap_eq i j s a b :
  st_lru s !! i = Some a -> st_lru s !! j = Some b ->
  lru_swap i j s =
    upd a (set_lruIdx (Z.of_nat j)) (upd b (set_lruIdx (Z.of_nat i)) (set_lru (lswap i j (st_lru s)) s)).
Proof.
  intros Ha Hb. pose proof (lookup_lt_Some _ _ _ Ha). pose proof (lookup_lt_Some _ _ _ Hb).
  unfold lru_swap. rewrite !lswap_lookup by done.
  repeat case_decide; simplify_eq; try lia; rewrite ?Ha, ?Hb; simplify_eq; done.
Qed.

Lemma core_lru_swap i j s : core (lru_swap i j s) = core s.
Proof. unfold lru_swap. repeat case_match; by rewrite ?core_upd_lruIdx, ?core_set_lru. Qed.

Lemma lru_swap_wf i j s :
  lru_wf s -> (i < length (st_lru s))%nat -> (j < length (st_lru s))%nat -> lru_wf (lru_swap i j s).
Proof.
  intros (Hnd & Hin & Hout) [a Ha]%lookup_lt_is_Some_2 [b Hb]%lookup_lt_is_Some_2.
  rewrite (lru_swap_eq i j s a b) by done.
  pose proof (lookup_lt_Some _ _ _ Ha). pose proof (lookup_lt_Some _ _ _ Hb).
  assert (Hab : i <> j -> a <> b).
  { intros Hij ->. by pose proof (NoDup_lookup _ _ _ _ Hnd Ha Hb). }
  split; [|split].
  - autorewrite with go. by rewrite lswap_Permutation.
  - intros k p. autorewrite with go. rewrite lswap_lookup by done. intros Hk.
    destruct (decide (k = i)) as [->|].
    { assert (p = b) as -> by congruence. destruct (Hin j b Hb) as (m & -> & Hm).
      mem_lookup; simpl; eexists; (split; [done|]); simpl; [|done].
      destruct (decide (i = j)); [lia|by destruct Hab]. }
    destruct (decide (k = j)) as [->|].
    { assert (p = a) as -> by congruence. destruct (Hin i a Ha) as (m & -> & Hm).
      mem_lookup; simpl; eauto. }
    destruct (Hin k p Hk) as (m & -> & Hm).
    mem_lookup; simpl; [..|eauto]; exfalso.
    1, 2: by pose proof (NoDup_lookup _ _ _ _ Hnd Ha Hk).
    by pose proof (NoDup_lookup _ _ _ _ Hnd Hb Hk).
  - intros p m. autorewrite with go. rewrite lswap_Permutation. intros Hp Hnp.
    apply list_elem_of_lookup_2 in Ha, Hb. mem_lookup. eauto.
Qed.

Lemma lru_push_wf p s :
  lru_wf s -> is_Some (st_pieces s !! p) -> p ∉ st_lru s -> lru_wf (lru_push p s).
Proof.
  intros (Hnd & Hin & Hout) [m Hm] Hp. unfold lru_push. split; [|split].
  - autorewrite with go. apply NoDup_app. split; [done|]. split; [set_solver|apply NoDup_singleton].
  - intros i q. autorewrite with go. intros [Hq|[Hi Hq]]%lookup_app_Some.
    + pose proof (list_elem_of_lookup_2 _ _ _ Hq). mem_lookup. eauto.
    + apply list_lookup_singleton_Some in Hq as [Hi' <-].
      mem_lookup. rewrite Hm. simpl. eexists. split; [done|]. simpl. lia.
  - intros q m'. autorewrite with go. intros Hq Hnq.
    mem_lookup; [set_solver|]. eapply Hout; [done|set_solver].
Qed.

Lemma core_lru_push p s : core (lru_push p s) = core s.
Proof. unfold lru_push. by rewrite core_set_lru, core_upd_lruIdx. Qed.

Lemma lru_pop_snoc s l p :
  st_lru s = l ++ [p] -> lru_pop s = (Some p, upd p (set_lruIdx (-1)) (set_lru l s)).
Proof.
  intros Hl. unfold lru_pop. rewrite Hl, last_snoc. do 2 f_equal.
  rewrite length_app. simpl. rewrite Nat.add_sub. by rewrite take_app_length.
Qed.

Lemma lru_pop_wf s l p :
  lru_wf s -> st_lru s = l ++ [p] -> lru_wf (upd p (set_lruIdx (-1)) (set_lru l s)).
Proof.
  intros (Hnd & Hin & Hout) Hl. rewrite Hl in *.
  apply NoDup_app in Hnd as (Hnd & Hdisj & _). split; [|split]; autorewrite with go; [done| |].
  - intros i q Hq. mem_lookup.
    + apply list_elem_of_lookup_2 in Hq. destruct (Hdisj q Hq). set_solver.
    + apply Hin. rewrite lookup_app_l; [done|]. by eapply lookup_lt_Some.
  - intros q m. mem_lookup.
    + intros Hq _. destruct (st_pieces s !! q); simplify_eq/=. done.
    + intros Hq Hnq. eapply Hout; [done|set_solver].
Qed.

(** The heap functions run on stores of a fixed core. *)
#[export] Instance lruHeap_laws (s0 : memStorage) : HeapLaws memStorage pid.
Proof.
  refine {|
    rep s := lru_wf s /\ core s = core s0;
    view := lru_view;
    pushable p s := is_Some (st_pieces s !! p) /\ p ∉ st_lru s;
    pkey p s := key_of s p
  |}.
  - intros s. unfold lru_view. by rewrite length_fmap.
  - intros s i j _ _ _. simpl. by rewrite !kat_lru_view.
  - intros s i j [Hw Hc] Hi Hj. unfold lru_view in Hi, Hj. rewrite length_fmap in Hi, Hj. simpl.
    split; [split|].
    + by apply lru_swap_wf.
    + by rewrite core_lru_swap.
    + rewrite (lru_view_core s _ (lswap i j (st_lru s))); [by rewrite <- lswap_fmap|by rewrite core_lru_swap|].
      apply lookup_lt_is_Some_2 in Hi as [a Ha], Hj as [b Hb]. by rewrite (lru_swap_eq i j s a b).
  - intros s p [Hw Hc] [Hp Hnp]. simpl. split; [split|].
    + by apply lru_push_wf.
    + by rewrite core_lru_push.
    + rewrite (lru_view_core s _ (st_lru s ++ [p])); [by rewrite fmap_app|by rewrite core_lru_push|done].
  - intros s l p k [Hw Hc] Hv. cbn [hPop lruHeap]. unfold lru_view in Hv.
    apply fmap_app_inv in Hv as (l1 & l2 & -> & Hl2 & Hl).
    revert Hc. destruct l2 as [|p' [|]]; simplify_eq/=. intros Hc.
    rewrite (lru_pop_snoc s l1 p' Hl). cbn [fst snd]. split; [done|]. split; [split|].
    + by apply lru_pop_wf.
    + by rewrite core_upd_lruIdx, core_set_lru.
    + rewrite (lru_view_core s _ l1); [done|by rewrite core_upd_lruIdx, core_set_lru|done].
Defined.

(** The store's heap: back-pointers agree and the keys are in heap order. *)
Definition heap_ok (s : memStorage) : Prop := lru_wf s /\ is_heap (lru_view s).

Lemma lru_view_perm s l : lru_view s ≡ₚ l -> st_lru s ≡ₚ fst <$> l.
Proof.
  intros <-. unfold lru_view. rewrite <- list_fmap_compose. by rewrite list_fmap_id.
Qed.

Lemma lru_view_fst s : fst <$> lru_view s = st_lru s.
Proof. unfold lru_view. rewrite <- list_fmap_compose. by rewrite list_fmap_id. Qed.

Lemma lru_view_elem s p : p ∈ st_lru s -> (p, key_of s p) ∈ lru_view s.
Proof. intros Hp. unfold lru_view. by apply list_elem_of_fmap_2' with p. Qed.

Lemma mem_push p s :
  heap_ok s -> is_Some (st_pieces s !! p) -> p ∉ st_lru s ->
  heap_ok (heapPush p s) /\ core (heapPush p s) = core s /\ st_lru (heapPush p s) ≡ₚ p :: st_lru s.
Proof.
  intros [Hw Hh] Hp Hnp.
  destruct (heapPush_spec (H0 := lruHeap_laws s) s p (conj Hw eq_refl) Hh (conj Hp Hnp))
    as ([Hw' Hc] & Hv & Hh').
  split; [done|]. split; [done|]. apply lru_view_perm in Hv. rewrite Hv. simpl.
  by rewrite lru_view_fst.
Qed.

Lemma mem_pop s :
  heap_ok s -> st_lru s <> [] ->
  exists p, st_lru s !! 0%nat = Some p /\ (heapPop s).1 = Some p /\ heap_ok (heapPop s).2 /\ core (heapPop s).2 = core s /\
    st_lru s ≡ₚ p :: st_lru (heapPop s).2 /\ (forall q, q ∈ st_lru s -> key_of s p <= key_of s q).
Proof.
  intros [Hw Hh] Hne.
  destruct (heapPop_spec (H0 := lruHeap_laws s) s (conj Hw eq_refl) Hh)
    as (p & k & H0 & Hp & [Hw' Hc] & Hv & Hh' & Hmin).
  { intros E. apply fmap_nil_inv in E. done. }
  assert (Hk : (p, k) ∈ lru_view s) by (simpl in Hv; rewrite Hv; left).
  apply list_elem_of_fmap in Hk as (p' & [= <- ->] & Hin).
  assert (H0' : st_lru s !! 0%nat = Some p).
  { simpl in H0. unfold lru_view in H0. rewrite list_lookup_fmap in H0.
    destruct (st_lru s !! 0%nat); simplify_eq/=. done. }
  exists p. split; [done|]. split; [done|]. split; [done|]. split; [done|]. split.
  - apply lru_view_perm in Hv. rewrite Hv. simpl. by rewrite lru_view_fst.
  - intros q Hq. by apply (Hmin q), lru_view_elem.
Qed.

Lemma mem_remove s i p :
  heap_ok s -> st_lru s !! i = Some p ->
  heap_ok (heapRemove s i).2 /\ core (heapRemove s i).2 = core s /\
  st_lru s ≡ₚ p :: st_lru (heapRemove s i).2.
Proof.
  intros [Hw Hh] Hi.
  destruct (heapRemove_spec (H0 := lruHeap_laws s) s i p (key_of s p) (conj Hw eq_refl) Hh)
    as (_ & [Hw' Hc] & Hv & Hh').
  { simpl. unfold lru_view. by rewrite list_lookup_fmap, Hi. }
  split; [done|]. split; [done|]. apply lru_view_perm in Hv. rewrite Hv. simpl.
  by rewrite lru_view_fst.
Qed.

(** Re-keying the piece at index [i] and fixing there. *)
Lemma mem_fix s i p f :
  heap_ok s -> st_lru s !! i = Some p -> (forall m, mp_lruIdx (f m) = mp_lruIdx m) ->
  heap_ok (heapFix (upd p f s) i) /\ core (heapFix (upd p f s) i) = core (upd p f s) /\
  st_lru (heapFix (upd p f s) i) ≡ₚ st_lru s.
Proof.
  intros [(Hnd & Hin & Hout) Hh] Hi Hf.
  assert (Hw : lru_wf (upd p f s)).
  { split; [done|]. split.
    - intros j q Hj. destruct (Hin j q Hj) as (m & Hm & Hl). rewrite upd_lookup, Hm.
      case_decide; simpl; [rewrite <- Hl, <- (Hf m)|]; eauto.
    - intros q m Hq Hnq. rewrite upd_lookup in Hq. case_decide; [|eauto]. subst.
      destruct (st_pieces s !! q) eqn:E; simplify_eq/=. rewrite Hf. eauto. }
  destruct (heapFix_spec (H0 := lruHeap_laws (upd p f s)) (upd p f s) i (lru_view s)
    (conj Hw eq_refl) Hh) as ([Hw' Hc] & Hv & Hh').
  - simpl. unfold lru_view. by rewrite !length_fmap.
  - unfold lru_view. rewrite length_fmap. by eapply lookup_lt_Some.
  - intros k Hk. simpl. rewrite !kat_lru_view. unfold lru_key. rewrite upd_lru.
    destruct (st_lru s !! k) as [q|] eqn:Eq; [|done]. rewrite upd_lookup_ne; [done|].
    intros ->. by pose proof (NoDup_lookup _ _ _ _ Hnd Eq Hi).
  - split; [done|]. split; [done|]. apply lru_view_perm in Hv. rewrite Hv. simpl.
    by rewrite lru_view_fst.
Qed.

(** [lruIdx >= 0] says exactly that the piece is in the heap, and where. *)
Lemma lruIdx_spec s p :
  lru_wf s -> is_Some (st_pieces s !! p) ->
  if 0 <=? piece_lruIdx p s
  then st_lru s !! Z.to_nat (piece_lruIdx p s) = Some p
  else p ∉ st_lru s.
Proof.
  intros (Hnd & Hin & Hout) [m Hm]. unfold piece_lruIdx. rewrite Hm.
  destruct (decide (p ∈ st_lru s)) as [[i Hi]%list_elem_of_lookup|Hnp].
  - destruct (Hin i p Hi) as (m' & ? & E). simplify_eq. rewrite E.
    destruct (0 <=? Z.of_nat i) eqn:?; bool_to_prop; [|lia]. by rewrite Nat2Z.id.
  - by rewrite (Hout p m Hm Hnp).
Qed.

(** * popOldestLocked *)

Definition lastUsed_of (s : memStorage) (p : pid) : Z :=
  match st_pieces s !! p with Some m => mp_lastUsed m | None => 0 end.

Definition stale (s : memStorage) (p : pid) : bool := key_of s p <? lastUsed_of s p.

(** What re-keying leaves alone: everything but keys and positions. *)
Definition strip (m : memPiece) : memPiece := set_key 0 (set_lruIdx 0 m).
Definition core2 (s : memStorage) :=
  (st_capacity s, st_used s, st_tick s, st_torrents s, strip <$> st_pieces s).

Lemma core_core2 s s' : core s = core s' -> core2 s = core2 s'.
Proof.
  unfold core, core2. intros H.
  assert (strip <$> st_pieces s = strip <$> st_pieces s'); [|congruence].
  assert (E : forall m : gmap pid memPiece, strip <$> m = set_key 0 <$> (set_lruIdx 0 <$> m))
    by (intros; by rewrite <- map_fmap_compose).
  rewrite !E. f_equal. congruence.
Qed.

Lemma core2_upd_key p k s : core2 (upd p (set_key k) s) = core2 s.
Proof.
  unfold core2. f_equal. apply map_eq. intros q. rewrite !lookup_fmap, upd_lookup.
  destruct (decide (p = q)); [|done]. by destruct (st_pieces s !! q).
Qed.

Lemma core2_piece s s' p :
  core2 s = core2 s' -> strip <$> st_pieces s !! p = strip <$> st_pieces s' !! p.
Proof.
  unfold core2. intros H. rewrite <- !lookup_fmap. f_equal. congruence.
Qed.

(** The parts of the store fixed by [core2]. *)
Lemma core2_parts s s' :
  core2 s = core2 s' ->
  st_capacity s = st_capacity s' /\ st_used s = st_used s' /\ st_tick s = st_tick s' /\
  st_torrents s = st_torrents s' /\ strip <$> st_pieces s = strip <$> st_pieces s'.
Proof. unfold core2. intros H. by apply pair_equal_spec in H as [[[[? ?]%pair_equal_spec ?]%pair_equal_spec ?]%pair_equal_spec ?]. Qed.

Lemma core2_lastUsed s s' p : core2 s = core2 s' -> lastUsed_of s p = lastUsed_of s' p.
Proof.
  intros H%(core2_piece _ _ p). unfold lastUsed_of.
  destruct (st_pieces s !! p), (st_pieces s' !! p); simplify_eq/=; done.
Qed.

Lemma wf_piece s p : lru_wf s -> p ∈ st_lru s -> is_Some (st_pieces s !! p).
Proof.
  intros (_ & Hin & _) [i Hi]%list_elem_of_lookup. destruct (Hin i p Hi) as (m & -> & _). eauto.
Qed.

Definition keys_below (s : memStorage) : Prop :=
  forall p, p ∈ st_lru s -> key_of s p <= lastUsed_of s p.

Lemma filter_perm_length {A} (P Q : A -> bool) l k :
  l ≡ₚ k -> (forall x, x ∈ l -> P x = Q x) ->
  length (filter (fun x => P x = true) l) = length (filter (fun x => Q x = true) k).
Proof.
  intros Hp HPQ. rewrite <- Hp. f_equal. clear Hp.
  induction l as [|x l IH]; [done|]. rewrite !filter_cons, (HPQ x) by set_solver.
  rewrite IH by set_solver. done.
Qed.

(** The re-keying loop ends within one turn per stale piece, and pops a piece
    that is least recently read when every key is a lower bound. *)
Lemma popOldest_loop_spec fuel s :
  heap_ok s -> (length (filter (fun p => stale s p = true) (st_lru s)) < fuel)%nat ->
  let '(o, s') := popOldest_loop fuel s in
  heap_ok s' /\ core2 s' = core2 s /\
  match o with
  | None => st_lru s = [] /\ s' = s
  | Some p => st_lru s ≡ₚ p :: st_lru s' /\
      (keys_below s -> keys_below s' /\ forall q, q ∈ st_lru s -> lastUsed_of s p <= lastUsed_of s q)
  end.
Proof.
  revert s. induction fuel as [|fuel IH]; intros s Hok Hf; [lia|]. cbn [popOldest_loop].
  destruct (st_lru s) as [|top rest] eqn:Hl; [done|].
  destruct (wf_piece s top (proj1 Hok)) as [m Hm]; [rewrite Hl; left|]. rewrite Hm.
  destruct (mp_key m <? mp_lastUsed m) eqn:Hst; bool_to_prop.
  - assert (Htop : stale s top = true).
    { unfold stale, key_of, lastUsed_of. rewrite Hm. by apply Z.ltb_lt. }
    destruct (mem_fix s 0 top (set_key (mp_lastUsed m)) Hok) as (Hok1 & Hc1 & Hp1); [by rewrite Hl|done|].
    set (s1 := heapFix _ 0) in *.
    assert (Hkey : forall q, key_of s1 q = if decide (top = q) then mp_lastUsed m else key_of s q).
    { intros q. rewrite (core_key _ _ q Hc1). unfold key_of. rewrite upd_lookup.
      case_decide; [subst; by rewrite Hm|done]. }
    assert (Hlu : forall q, lastUsed_of s1 q = lastUsed_of s q).
    { intros q. apply core2_lastUsed. by rewrite (core_core2 _ _ Hc1), core2_upd_key. }
    assert (Hc2 : core2 s1 = core2 s) by (by rewrite (core_core2 _ _ Hc1), core2_upd_key).
    specialize (IH s1 Hok1). destruct (popOldest_loop fuel s1) as [o s'].
    destruct IH as (Hok' & Hc' & Ho).
    { rewrite (filter_perm_length _ (fun q => stale s q && negb (bool_decide (top = q))) _ _ Hp1).
      - rewrite Hl in *. rewrite filter_cons in Hf |- *. rewrite Htop in Hf |- *.
        rewrite bool_decide_true by done. simpl in Hf |- *.
        enough (length (filter (fun q => stale s q && negb (bool_decide (top = q)) = true) rest)
          <= length (filter (fun q => stale s q = true) rest))%nat by lia.
        clear. induction rest as [|q rest IH]; [done|]. rewrite !filter_cons.
        destruct (stale s q); simpl; [|done]. case_decide; simpl; lia.
      - intros q _. unfold stale. rewrite Hkey, Hlu. case_decide; subst.
        + rewrite bool_decide_true by done. unfold lastUsed_of. rewrite Hm, andb_false_r.
          apply Z.ltb_irrefl.
        + by rewrite bool_decide_false, andb_true_r. }
    split; [done|]. split; [by rewrite Hc', Hc2|]. destruct o as [p|].
    + destruct Ho as [Hp Hmin]. split; [by rewrite <- Hl, <- Hp1|]. intros Hb.
      assert (keys_below s1) as Hb1.
      { intros q Hq. rewrite Hkey, Hlu. case_decide; subst; [unfold lastUsed_of; rewrite Hm; lia|].
        apply Hb. by rewrite <- Hp1. }
      destruct (Hmin Hb1) as [Hb' Hle]. split; [done|]. intros q Hq. rewrite <- !Hlu.
      apply Hle. by rewrite Hp1, Hl.
    + destruct Ho as [Hnil _]. rewrite Hl in Hp1. rewrite Hnil in Hp1.
      by apply Permutation_nil_cons in Hp1.
  - destruct (mem_pop s Hok) as (p & H0 & Hp & Hok' & Hc & Hperm & Hmin); [by rewrite Hl|].
    rewrite Hl in H0. injection H0 as <-.
    destruct (heapPop s) as [o s'] eqn:Hpop. simpl in Hp, Hok', Hc, Hperm. subst o.
    split; [done|]. split; [by apply core_core2|]. split; [by rewrite <- Hl|].
    intros Hb. split.
    { intros q Hq. rewrite (core_key _ _ q Hc), (core2_lastUsed _ _ q (core_core2 _ _ Hc)).
      apply Hb. rewrite Hperm. by right. }
    intros q Hq. rewrite <- Hl in Hq. specialize (Hmin q Hq). specialize (Hb q Hq).
    assert (lastUsed_of s top <= key_of s top); [|lia].
    unfold lastUsed_of, key_of. by rewrite Hm.
Qed.

Lemma popOldest_spec s :
  heap_ok s ->
  let '(o, s') := popOldestLocked s in
  heap_ok s' /\ core2 s' = core2 s /\
  match o with
  | None => st_lru s = [] /\ s' = s
  | Some p => st_lru s ≡ₚ p :: st_lru s' /\
      (keys_below s -> keys_below s' /\ forall q, q ∈ st_lru s -> lastUsed_of s p <= lastUsed_of s q)
  end.
Proof.
  intros Hok. apply popOldest_loop_spec; [done|].
  pose proof (length_filter (fun p => stale s p = true) (st_lru s)). lia.
Qed.

(** * Eviction *)

(** The shape with one complete piece possibly parked outside the heap. *)
Definition shape_but (K : option pid) (s : memStorage) : Prop :=
  heap_ok s /\ (forall p, K = Some p -> p ∉ st_lru s) /\
  (forall p m, st_pieces s !! p = Some m ->
     0 < mp_length m /\
     (forall d, mp_data m = Some d -> Z.of_nat (length d) = mp_length m) /\
     (mp_complete m = true -> mp_data m <> None) /\
     (mp_complete m = true <-> p ∈ st_lru s \/ K = Some p)).

Lemma shape_but_None s : shape_but None s <-> shape s.
Proof.
  unfold shape_but, shape, heap_ok. split.
  - intros ([Hw Hh] & _ & H). split; [done|]. split; [done|]. intros p m Hm.
    destruct (H p m Hm) as (? & ? & ? & ->). naive_solver.
  - intros (Hw & Hh & H). split; [done|]. split; [done|]. intros p m Hm.
    destruct (H p m Hm) as (? & ? & ? & ->). naive_solver.
Qed.

(** What a pass of evictions does to the store: the survivors are untouched,
    the victims come from the heap and lose their bytes, the budget follows. *)
Record evicts (s s' : memStorage) : Prop := {
  ev_capacity : st_capacity s' = st_capacity s;
  ev_tick : st_tick s' = st_tick s;
  ev_torrents : st_torrents s' = st_torrents s;
  ev_lru : forall p, p ∈ st_lru s' -> p ∈ st_lru s;
  ev_kept : forall p, p ∉ st_lru s \/ p ∈ st_lru s' ->
    strip <$> st_pieces s' !! p = strip <$> st_pieces s !! p;
  ev_gone : forall p, p ∈ st_lru s -> p ∉ st_lru s' ->
    strip <$> st_pieces s' !! p =
    (fun m => strip (set_complete false (set_data None m))) <$> st_pieces s !! p;
  ev_used : st_used s' - msum held (st_pieces s') = st_used s - msum held (st_pieces s)
}.

Lemma msum_strip (m m' : gmap pid memPiece) :
  strip <$> m = strip <$> m' -> msum held m = msum held m'.
Proof.
  assert (E : forall n : gmap pid memPiece, msum held n = msum held (strip <$> n)).
  { intros n. by rewrite msum_fmap. }
  intros H. by rewrite (E m), (E m'), H.
Qed.

(** Freeing commutes with stripping. *)
Lemma freed_strip (o o' : option memPiece) :
  strip <$> o = strip <$> o' ->
  (fun m => strip (set_complete false (set_data None m))) <$> o =
  (fun m => strip (set_complete false (set_data None m))) <$> o'.
Proof.
  destruct o, o'; intros H; simplify_eq/=; [|done].
  unfold strip, set_complete, set_data, set_key, set_lruIdx in *. simpl in *. congruence.
Qed.

Lemma evicts_core2 s s' :
  core2 s' = core2 s -> (forall p, p ∈ st_lru s' <-> p ∈ st_lru s) -> evicts s s'.
Proof.
  intros Hc Hl. destruct (core2_parts _ _ Hc) as (? & Hu & ? & ? & Hs).
  split; [done..| | | |].
  - intros p. by rewrite Hl.
  - intros p _. by apply core2_piece.
  - intros p ? []. by apply Hl.
  - by rewrite (msum_strip _ _ Hs), Hu.
Qed.

Lemma evicts_refl s : evicts s s.
Proof. by apply evicts_core2. Qed.

Lemma evicts_trans s1 s2 s3 : evicts s1 s2 -> evicts s2 s3 -> evicts s1 s3.
Proof.
  intros E1 E2. split.
  - by rewrite (ev_capacity _ _ E2), (ev_capacity _ _ E1).
  - by rewrite (ev_tick _ _ E2), (ev_tick _ _ E1).
  - by rewrite (ev_torrents _ _ E2), (ev_torrents _ _ E1).
  - intros p Hp. by apply E1, E2.
  - intros p Hp. rewrite (ev_kept _ _ E2), (ev_kept _ _ E1); [done| |].
    + destruct Hp as [|Hp]; [by left|right; by apply E2].
    + destruct Hp as [Hp|]; [|by right]. left. intros ?. by apply Hp, E1.
  - intros p H1 H3. destruct (decide (p ∈ st_lru s2)) as [H2|H2].
    + rewrite (ev_gone _ _ E2 p H2 H3). apply freed_strip, (ev_kept _ _ E1 p (or_intror H2)).
    + rewrite (ev_kept _ _ E2) by (by left). by apply (ev_gone _ _ E1).
  - rewrite (ev_used _ _ E2). apply (ev_used _ _ E1).
Qed.

(** freeLocked keeps the difference between [used] and the bytes held. *)
Lemma freeLocked_used p s :
  st_used (freeLocked p s) - msum held (st_pieces (freeLocked p s)) =
  st_used s - msum held (st_pieces s).
Proof.
  unfold freeLocked. destruct (st_pieces s !! p) as [m|] eqn:Hm; [|done].
  destruct (mp_data m) eqn:Hd; unfold upd; simpl;
    rewrite (msum_alter held _ _ _ _ Hm); unfold held; rewrite Hd; simpl; lia.
Qed.

Lemma freeLocked_lru p s : st_lru (freeLocked p s) = st_lru s.
Proof. unfold freeLocked. by repeat case_match. Qed.

Lemma freeLocked_lookup p s q :
  st_pieces (freeLocked p s) !! q =
  if decide (p = q) then (fun m => set_complete false (set_data None m)) <$> st_pieces s !! q
  else st_pieces s !! q.
Proof.
  unfold freeLocked. destruct (st_pieces s !! p) as [m|] eqn:Hm.
  - rewrite upd_lookup. by destruct (mp_data m).
  - case_decide; [subst; by rewrite Hm|done].
Qed.

(** Writes that leave positions and keys alone keep the heap. *)
Lemma heap_ok_ext s s' :
  st_lru s' = st_lru s ->
  (forall p, (fun m => (mp_lruIdx m, mp_key m)) <$> st_pieces s' !! p =
             (fun m => (mp_lruIdx m, mp_key m)) <$> st_pieces s !! p) ->
  heap_ok s -> heap_ok s'.
Proof.
  intros Hl Hp [(Hnd & Hin & Hout) Hh].
  assert (Hv : lru_view s' = lru_view s).
  { unfold lru_view. rewrite Hl. apply list_fmap_ext. intros i p _. f_equal. unfold key_of.
    specialize (Hp p). destruct (st_pieces s !! p), (st_pieces s' !! p); simplify_eq/=; done. }
  split; [|by rewrite Hv]. unfold lru_wf. rewrite Hl. split; [done|]. split.
  - intros i p Hi. destruct (Hin i p Hi) as (m & Hm & Hx). specialize (Hp p). rewrite Hm in Hp.
    destruct (st_pieces s' !! p) as [m'|]; simplify_eq/=. exists m'. split; congruence.
  - intros p m' Hm' Hnp. specialize (Hp p). rewrite Hm' in Hp.
    destruct (st_pieces s !! p) as [m|] eqn:Hm; simplify_eq/=. rewrite (Hout p m Hm Hnp) in *. congruence.
Qed.

Lemma freeLocked_heap_ok p s : heap_ok s -> heap_ok (freeLocked p s).
Proof.
  apply heap_ok_ext; [apply freeLocked_lru|]. intros q. rewrite freeLocked_lookup.
  case_decide; [|done]. by destruct (st_pieces s !! q).
Qed.

(** Popping a victim and freeing it is one eviction. *)
Lemma pop_free_evicts s s1 p :
  heap_ok s1 -> core2 s1 = core2 s -> NoDup (st_lru s) -> st_lru s ≡ₚ p :: st_lru s1 ->
  evicts s (freeLocked p s1).
Proof.
  intros Hok Hc Hnd Hp. pose proof (core2_piece s1 s) as Hpc.
  assert (Hp1 : p ∉ st_lru s1) by (rewrite Hp in Hnd; by apply NoDup_cons in Hnd as [? _]).
  assert (Hcap : st_capacity (freeLocked p s1) = st_capacity s1 /\ st_tick (freeLocked p s1) = st_tick s1
    /\ st_torrents (freeLocked p s1) = st_torrents s1) by (unfold freeLocked; by repeat case_match).
  destruct Hcap as (E1 & E2 & E3). destruct (core2_parts _ _ Hc) as (? & Hu & ? & ? & Hs).
  split; [congruence..| | | |].
  - intros q. rewrite freeLocked_lru, Hp. by right.
  - intros q Hq. rewrite freeLocked_lookup. case_decide as Hpq; [|by apply Hpc]. subst.
    rewrite freeLocked_lru, Hp in Hq. destruct Hq as [Hq|]; [|done]. destruct Hq. left.
  - intros q Hq Hnq. rewrite freeLocked_lookup, freeLocked_lru in *. case_decide as Hpq.
    + subst. rewrite <- (freed_strip _ _ (Hpc q Hc)). by destruct (st_pieces s1 !! q).
    + rewrite Hp in Hq. apply elem_of_cons in Hq as [|]; congruence.
  - by rewrite freeLocked_used, (msum_strip _ _ Hs), Hu.
Qed.

(** What equal strips share. *)
Lemma strip_inv (o : option memPiece) (m' : memPiece) (g : memPiece -> memPiece) :
  strip <$> Some m' = (fun m => strip (g m)) <$> o ->
  exists m, o = Some m /\ mp_length m' = mp_length (g m) /\ mp_data m' = mp_data (g m) /\
    mp_complete m' = mp_complete (g m) /\ mp_lastUsed m' = mp_lastUsed (g m).
Proof.
  destruct o as [m|]; [|done]. intros H. exists m. split; [done|].
  assert (strip m' = strip (g m)) as H' by (change (Some (strip m') = Some (strip (g m))) in H; congruence).
  split_and!.
  - exact (f_equal mp_length H').
  - exact (f_equal mp_data H').
  - exact (f_equal mp_complete H').
  - exact (f_equal mp_lastUsed H').
Qed.

Lemma evicts_shape K s s' : shape_but K s -> heap_ok s' -> evicts s s' -> shape_but K s'.
Proof.
  intros (_ & HK & H) Hok E. split; [done|]. split.
  { intros p Hp Hin. apply (HK p Hp). by apply E. }
  intros p m' Hm'. destruct (decide (p ∈ st_lru s /\ p ∉ st_lru s')) as [[Hin Hnin]|Hkept].
  - pose proof (ev_gone _ _ E p Hin Hnin) as Eq. rewrite Hm' in Eq.
    apply strip_inv in Eq as (m & Hm & E1 & E2 & E3 & _). rewrite E1, E2, E3.
    destruct (H p m Hm) as (Hlen & _). split; [done|]. split; [done|]. split; [done|].
    split; [done|]. intros [?|HKp]; [done|]. by destruct (HK p HKp).
  - pose proof (ev_kept _ _ E p ltac:(destruct (decide (p ∈ st_lru s)), (decide (p ∈ st_lru s')); tauto)) as Eq. rewrite Hm' in Eq.
    apply (strip_inv _ _ id) in Eq as (m & Hm & E1 & E2 & E3 & _). unfold id in *. rewrite E1, E2, E3.
    destruct (H p m Hm) as (Hlen & Hd & Hc & Hiff). split; [done|]. split; [done|]. split; [done|].
    rewrite Hiff. pose proof (ev_lru _ _ E p). destruct (decide (p ∈ st_lru s')); tauto.
Qed.

(** The eviction loop ends with the budget satisfied or the heap empty. *)
Lemma evict_loop_spec fuel need s :
  heap_ok s -> (length (st_lru s) < fuel)%nat ->
  let s' := evict_loop fuel need s in
  heap_ok s' /\ evicts s s' /\ (st_used s' + need <= st_capacity s' \/ st_lru s' = []).
Proof.
  revert s. induction fuel as [|fuel IH]; intros s Hok Hf; [lia|]. cbn [evict_loop].
  destruct (st_capacity s <? st_used s + need) eqn:Hb; bool_to_prop.
  2: { split; [done|]. split; [apply evicts_refl|]. left. lia. }
  pose proof (popOldest_spec s Hok) as Hpop. destruct (popOldestLocked s) as [[p|] s1].
  - destruct Hpop as (Hok1 & Hc & Hp & _).
    pose proof (pop_free_evicts s s1 p Hok1 Hc (proj1 (proj1 Hok)) Hp) as E1.
    apply Permutation_length in Hp. simpl in Hp.
    destruct (IH (freeLocked p s1)) as (Hok2 & E2 & Hfin).
    { by apply freeLocked_heap_ok. }
    { rewrite freeLocked_lru. lia. }
    split; [done|]. split; [by eapply evicts_trans|done].
  - destruct Hpop as (Hok1 & Hc & Hnil & ->). split; [done|]. split; [apply evicts_refl|]. by right.
Qed.

(** evictLocked: the same, with [keep] back in the heap at the end. *)
Lemma evictLocked_spec need keep s :
  heap_ok s -> (forall p, keep = Some p -> is_Some (st_pieces s !! p)) ->
  let s' := evictLocked need keep s in
  heap_ok s' /\ evicts s s' /\
  (forall p, keep = Some p -> p ∈ st_lru s -> p ∈ st_lru s') /\
  (st_used s' + need <= st_capacity s' \/ forall p, p ∈ st_lru s' -> keep = Some p).
Proof.
  intros Hok Hkeep. unfold evictLocked.
  destruct (st_used s + need <=? st_capacity s) eqn:Hb; bool_to_prop.
  { split; [done|]. split; [apply evicts_refl|]. split; [done|]. left. lia. }
  assert (Hrun : let s' := evict_loop (S (length (st_lru s))) need s in
    heap_ok s' /\ evicts s s' /\ (st_used s' + need <= st_capacity s' \/ st_lru s' = []))
    by (apply evict_loop_spec; [done|lia]).
  destruct keep as [p|]; [|].
  2: { destruct Hrun as (? & ? & Hf). split; [done|]. split; [done|]. split; [done|].
       destruct Hf as [?|Hnil]; [by left|right]. rewrite Hnil. intros p Hp. by apply not_elem_of_nil in Hp. }
  pose proof (lruIdx_spec s p (proj1 Hok) (Hkeep p eq_refl)) as Hidx.
  destruct (0 <=? piece_lruIdx p s) eqn:Hpk.
  2: { destruct Hrun as (? & E & Hf). split; [done|]. split; [done|]. split; [by intros ? [= <-] ?|].
       destruct Hf as [?|Hnil]; [by left|right]. rewrite Hnil. intros q Hp. by apply not_elem_of_nil in Hp. }
  destruct (mem_remove s _ p Hok Hidx) as (Hok1 & Hc1 & Hp1).
  set (s1 := (heapRemove s _).2) in *.
  assert (Hnp : p ∉ st_lru s1).
  { destruct Hok as [(Hnd & _) _]. rewrite Hp1 in Hnd. by apply NoDup_cons in Hnd as [? _]. }
  destruct (evict_loop_spec (S (length (st_lru s1))) need s1 Hok1 ltac:(lia)) as (Hok2 & E2 & Hfin).
  set (s2 := evict_loop _ need s1) in *.
  assert (Hnp2 : p ∉ st_lru s2) by (intros ?; by apply Hnp, E2).
  assert (Hs2 : is_Some (st_pieces s2 !! p)).
  { pose proof (ev_kept _ _ E2 p (or_introl Hnp)) as Eq. destruct (Hkeep p eq_refl) as [m Hm].
    destruct (core_piece _ _ _ _ (eq_sym Hc1) Hm) as (m1 & Hm1 & _). rewrite Hm1 in Eq.
    destruct (st_pieces s2 !! p); [eauto|done]. }
  destruct (mem_push p s2 Hok2 Hs2 Hnp2) as (Hok3 & Hc3 & Hp3).
  set (s3 := heapPush p s2) in *. split; [done|].
  pose proof (core_core2 _ _ Hc1) as Hc1'. pose proof (core_core2 _ _ Hc3) as Hc3'.
  destruct (core2_parts _ _ Hc1') as (Ka1 & Ku1 & Kt1 & Ko1 & Ks1).
  destruct (core2_parts _ _ Hc3') as (Ka3 & Ku3 & Kt3 & Ko3 & Ks3).
  split; [|split].
  - split.
    + by rewrite Ka3, (ev_capacity _ _ E2).
    + by rewrite Kt3, (ev_tick _ _ E2).
    + by rewrite Ko3, (ev_torrents _ _ E2).
    + intros q. rewrite Hp3, Hp1, !elem_of_cons. intros [->|?]; [by left|right]. by apply E2.
    + intros q Hq. rewrite (core2_piece _ _ q Hc3'), <- (core2_piece _ _ q Hc1').
      apply E2. rewrite Hp1, Hp3, !elem_of_cons in Hq.
      destruct (decide (q = p)) as [->|]; [by left|]. clear -Hq n. tauto.
    + intros q. rewrite Hp1, Hp3, !elem_of_cons. intros Hq Hnq.
      destruct Hq as [->|Hq]; [destruct Hnq; by left|].
      rewrite (core2_piece _ _ q Hc3'), (ev_gone _ _ E2 q Hq) by (intros ?; apply Hnq; by right).
      by apply freed_strip, core2_piece.
    + rewrite Ku3, (msum_strip _ _ Ks3), <- Ku1, <- (msum_strip _ _ Ks1). apply E2.
  - intros q [= <-] _. rewrite Hp3. left.
  - destruct Hfin as [Hfin|Hnil].
    + left. by rewrite Ku3, Ka3.
    + right. intros q. rewrite Hp3, Hnil. intros ->%list_elem_of_singleton. done.
Qed.

(** * Preservation *)

(** Bytes counted in the budget but not held by a resident piece. *)
Definition unheld (s : memStorage) : Z := st_used s - msum held (st_pieces s).

(** A change that no reserving writer notices: the uncounted bytes and the
    lengths stay, and a piece without a buffer stays without one. *)
Record keeps (s s' : memStorage) : Prop := {
  kp_unheld : unheld s' = unheld s;
  kp_piece : forall p m, st_pieces s !! p = Some m ->
    exists m', st_pieces s' !! p = Some m' /\ mp_length m' = mp_length m /\
      (mp_data m = None -> mp_data m' = None)
}.

Lemma keeps_trans s1 s2 s3 : keeps s1 s2 -> keeps s2 s3 -> keeps s1 s3.
Proof.
  intros [A1 B1] [A2 B2]. split; [congruence|].
  intros p m Hm. destruct (B1 p m Hm) as (m1 & Hm1 & H1 & D1).
  destruct (B2 p m1 Hm1) as (m2 & Hm2 & H2 & D2). exists m2. split; [done|]. split; [congruence|auto].
Qed.

Lemma keeps_refl s : keeps s s.
Proof. split; [done|]. intros p m Hm. eauto. Qed.

Lemma keeps_evicts s s' : evicts s s' -> keeps s s'.
Proof.
  intros E. split; [apply (ev_used _ _ E)|]. intros p m Hm.
  destruct (decide (p ∈ st_lru s /\ p ∉ st_lru s')) as [[Hin Hout]|Hk].
  - pose proof (ev_gone _ _ E p Hin Hout) as Eq. rewrite Hm in Eq.
    destruct (st_pieces s' !! p) as [m'|]; [|done].
    apply strip_inv in Eq as (m1 & [= <-] & Hl & Hd & _). exists m'. by rewrite Hl, Hd.
  - pose proof (ev_kept _ _ E p ltac:(destruct (decide (p ∈ st_lru s)), (decide (p ∈ st_lru s')); tauto)) as Eq.
    rewrite Hm in Eq. destruct (st_pieces s' !! p) as [m'|]; [|done].
    apply (strip_inv _ _ id) in Eq as (m1 & [= <-] & Hl & Hd & _). exists m'. by rewrite Hl, Hd.
Qed.

Lemma keeps_core2 s s' : core2 s' = core2 s -> keeps s s'.
Proof.
  intros Hc. destruct (core2_parts _ _ Hc) as (_ & Hu & _ & _ & Hs).
  split; [unfold unheld; by rewrite Hu, (msum_strip _ _ Hs)|]. intros p m Hm.
  pose proof (core2_piece _ _ p Hc) as Eq. rewrite Hm in Eq.
  destruct (st_pieces s' !! p) as [m'|]; [|done].
  apply (strip_inv _ _ id) in Eq as (m1 & [= <-] & Hl & Hd & _). exists m'. by rewrite Hl, Hd.
Qed.

Lemma keeps_upd p f s :
  (forall m, mp_length (f m) = mp_length m /\ mp_data (f m) = mp_data m) -> keeps s (upd p f s).
Proof.
  intros Hf. split.
  - unfold unheld. rewrite upd_used. f_equal. unfold upd. simpl.
    destruct (st_pieces s !! p) as [m|] eqn:Hm.
    + rewrite (msum_alter held _ _ _ _ Hm). unfold held. destruct (Hf m) as [-> ->]. lia.
    + rewrite alter_id; [done|]. intros; congruence.
  - intros q m Hq. rewrite upd_lookup, Hq. case_decide; [|eauto].
    simpl. eexists. split; [done|]. by destruct (Hf m) as [-> ->].
Qed.

Lemma keeps_free p s : keeps s (freeLocked p s).
Proof.
  split; [apply freeLocked_used|]. intros q m Hq. rewrite freeLocked_lookup, Hq.
  case_decide; simpl; eauto.
Qed.

Lemma piece_len_eq p s s' : keeps s s' -> is_Some (st_pieces s !! p) -> piece_len p s' = piece_len p s.
Proof.
  intros K [m Hm]. destruct (kp_piece _ _ K p m Hm) as (m' & Hm' & H & _).
  unfold piece_len. by rewrite Hm, Hm'.
Qed.

Lemma keeps_inv s s' rs ts ts' :
  inv (MkConfig s rs ts) -> shape s' -> keeps s s' -> inv (MkConfig s' rs ts').
Proof.
  intros (_ & Ha & Hr) Hs' K. unfold inv, accounts in *. cbn [c_store c_reserving] in *.
  split; [done|]. split.
  - pose proof (kp_unheld _ _ K) as Hu. unfold unheld in Hu.
    assert (reserving_bytes s' rs = reserving_bytes s rs); [|lia].
    apply sumZ_ext. intros p Hp%elem_of_elements. destruct (Hr p Hp) as (m & Hm & _).
    apply piece_len_eq; eauto.
  - intros p Hp. destruct (Hr p Hp) as (m & Hm & Hd).
    destruct (kp_piece _ _ K p m Hm) as (m' & ? & _ & ?). eauto.
Qed.

(** Pointer writes that leave positions, keys and completion alone. *)
Lemma shape_upd p f s :
  shape s ->
  (forall m, st_pieces s !! p = Some m ->
     mp_lruIdx (f m) = mp_lruIdx m /\ mp_key (f m) = mp_key m /\ mp_length (f m) = mp_length m /\
     mp_complete (f m) = mp_complete m /\
     (forall d, mp_data (f m) = Some d -> Z.of_nat (length d) = mp_length m) /\
     (mp_complete m = true -> mp_data (f m) <> None)) ->
  shape (upd p f s).
Proof.
  intros (Hw & Hh & H) Hf.
  assert (heap_ok (upd p f s)) as [Hw' Hh'].
  { apply (heap_ok_ext s); [done| |done]. intros q. rewrite upd_lookup. case_decide; [|done]. subst.
    destruct (st_pieces s !! q) as [m|] eqn:Hm; [|done]. simpl. by destruct (Hf m) as (-> & -> & _). }
  split; [done|]. split; [done|]. intros q m. rewrite upd_lookup, upd_lru. case_decide; [|apply H]. subst.
  destruct (st_pieces s !! q) as [m0|] eqn:Hm; [|done]. cbn [fmap option_fmap option_map]. intros [= <-].
  destruct (Hf m0) as (_ & _ & -> & -> & ? & ?); [done|]. destruct (H q m0 Hm) as (? & _ & _ & ?). done.
Qed.

(** A piece outside the heap may change in any way that keeps its position. *)
Lemma heap_ok_upd_out p f s :
  heap_ok s -> p ∉ st_lru s -> (forall m, mp_lruIdx (f m) = mp_lruIdx m) -> heap_ok (upd p f s).
Proof.
  intros [(Hnd & Hin & Hout) Hh] Hp Hf. split.
  - split; [done|]. split.
    + intros i q Hi. pose proof (list_elem_of_lookup_2 _ _ _ Hi).
      rewrite upd_lookup_ne by (intros ->; done). eauto.
    + intros q m Hq Hnq. rewrite upd_lookup in Hq. case_decide; [|eauto]. subst.
      destruct (st_pieces s !! q) as [m0|] eqn:E; [|done]. injection Hq as <-. rewrite Hf. eauto.
  - replace (lru_view (upd p f s)) with (lru_view s); [done|].
    unfold lru_view. apply list_fmap_ext. intros i q Hi. f_equal. unfold key_of.
    rewrite upd_lookup_ne; [done|]. intros ->. apply Hp. by eapply list_elem_of_lookup_2.
Qed.

Lemma shape_heap s : shape s -> heap_ok s.
Proof. by intros (? & ? & _). Qed.

Lemma shape_in s p : shape s -> p ∈ st_lru s -> is_Some (st_pieces s !! p).
Proof. intros (? & _). by apply wf_piece. Qed.

Lemma piece_shape p len s : shape s -> 0 < len -> shape (piece p len s) /\ keeps s (piece p len s).
Proof.
  intros Hs Hlen. unfold piece. destruct (st_pieces s !! p) as [m|] eqn:Hp; [split; [done|apply keeps_refl]|].
  assert (Hnp : p ∉ st_lru s) by (intros [? ?]%(shape_in s p Hs); congruence).
  destruct Hs as ((Hnd & Hin & Hout) & Hh & H). split; [split; [|split]|].
  - split; [done|]. cbn [set_pieces st_lru st_pieces]. split.
    + intros i q Hi. rewrite lookup_insert_ne; [by apply Hin|].
      intros ->. by apply Hnp, (list_elem_of_lookup_2 _ i).
    + intros q m [[<- <-]|[? ?]]%lookup_insert_Some; [done|eauto].
  - replace (lru_view (set_pieces _ s)) with (lru_view s); [done|].
    unfold lru_view. apply list_fmap_ext. intros i q Hi. f_equal. unfold key_of.
    cbn [set_pieces st_pieces]. rewrite lookup_insert_ne; [done|].
    intros ->. by apply Hnp, (list_elem_of_lookup_2 _ i).
  - cbn [set_pieces st_lru st_pieces].
    intros q m [[<- <-]|[? ?]]%lookup_insert_Some; [|by apply H]. simpl. split_and!; [done..|].
    split; [done|]. by intros ?%Hnp.
  - split.
    + unfold unheld. cbn [set_pieces st_used st_pieces]. rewrite msum_insert_new by done.
      unfold held at 1. simpl. lia.
    + intros q m Hq. exists m. cbn [set_pieces st_pieces]. rewrite lookup_insert_ne by congruence. done.
Qed.

Lemma evict_shape need keep s :
  shape s -> (forall p, keep = Some p -> is_Some (st_pieces s !! p)) ->
  shape (evictLocked need keep s) /\ keeps s (evictLocked need keep s).
Proof.
  intros Hs Hk. destruct (evictLocked_spec need keep s (shape_heap s Hs) Hk) as (Hok & E & _).
  split; [|by apply keeps_evicts]. apply shape_but_None. apply shape_but_None in Hs.
  by eapply evicts_shape.
Qed.

Lemma freeLocked_shape K p s :
  shape_but K s -> K = None \/ K = Some p -> p ∉ st_lru s -> shape (freeLocked p s).
Proof.
  intros (Hok & _ & H) HK Hp. destruct (freeLocked_heap_ok p s Hok) as [? ?].
  split; [done|]. split; [done|]. intros q m. rewrite freeLocked_lookup, freeLocked_lru.
  case_decide as Hpq.
  - subst. destruct (st_pieces s !! q) as [m0|] eqn:Hq; [|done]. cbn [fmap option_fmap option_map].
    intros [= <-]. destruct (H q m0 Hq) as (? & _). simpl. split_and!; try done.
  - intros Hq. destruct (H q m Hq) as (? & ? & ? & Hc). split_and!; try done.
    rewrite Hc. split; [intros [?|?]; [done|]|auto]. destruct HK; congruence.
Qed.

(** Taking one piece out of the heap. *)
Lemma remove_shape p s i s' :
  shape s -> st_lru s !! i = Some p -> s' = (heapRemove s i).2 ->
  shape_but (Some p) s' /\ keeps s s' /\ p ∉ st_lru s' /\ core s' = core s /\ st_lru s ≡ₚ p :: st_lru s'.
Proof.
  intros Hs Hi ->. destruct (mem_remove s i p (shape_heap s Hs) Hi) as (Hok & Hc & Hp).
  pose proof Hs as ((Hnd & _) & _ & H). rewrite Hp in Hnd. apply NoDup_cons in Hnd as [Hnp _].
  assert (E2 := core_core2 _ _ Hc). split_and!; [|by apply keeps_core2|done..]. split_and!.
  - done.
  - by intros q [= <-].
  - intros q m' Hq. destruct (core_piece _ _ _ _ Hc Hq) as (m & Hm & E).
    destruct (H q m Hm) as (H1 & H2 & H3 & H4).
    pose proof (f_equal mp_length E) as E3. pose proof (f_equal mp_data E) as E4.
    pose proof (f_equal mp_complete E) as E5. simpl in E3, E4, E5. rewrite <- E3, <- E4, <- E5.
    split_and!; try done. rewrite H4, Hp, elem_of_cons. naive_solver.
Qed.

Lemma dropLocked_shape p s :
  shape s -> is_Some (st_pieces s !! p) -> shape (dropLocked p s) /\ keeps s (dropLocked p s).
Proof.
  intros Hs Hp. unfold dropLocked. pose proof (lruIdx_spec s p (proj1 Hs) Hp) as Hi.
  destruct (0 <=? piece_lruIdx p s).
  - destruct (remove_shape p s _ _ Hs Hi eq_refl) as (Hb & K & Hnp & _).
    split; [eapply freeLocked_shape; eauto|]. eapply keeps_trans; [done|]. apply keeps_free.
  - split; [|apply keeps_free]. apply (freeLocked_shape None); [by apply shape_but_None|auto|done].
Qed.

Lemma torrentClose_shape t s : shape s -> shape (torrentClose t s) /\ keeps s (torrentClose t s).
Proof.
  unfold torrentClose. generalize (seq 0 (default 0%nat (st_torrents s !! t))) as l.
  intros l. revert s. induction l as [|i l IH]; intros s Hs; [split; [done|apply keeps_refl]|].
  cbn [foldl]. destruct (st_pieces s !! (t, i)) as [m|] eqn:Hm; [|by apply IH].
  destruct (dropLocked_shape (t, i) s Hs) as [Hs1 K1]; [eauto|].
  destruct (IH _ Hs1) as [Hs2 K2]. split; [done|]. by eapply keeps_trans.
Qed.

Lemma MarkNotComplete_shape p s :
  shape s -> shape (MarkNotComplete p s) /\ keeps s (MarkNotComplete p s).
Proof.
  intros Hs. unfold MarkNotComplete. set (s1 := upd p (set_complete false) s).
  assert (K1 : keeps s s1) by (by apply keeps_upd).
  assert (Hok1 : heap_ok s1).
  { apply (heap_ok_ext s); [done| |by apply shape_heap]. intros q. unfold s1. rewrite upd_lookup.
    case_decide; [|done]. by destruct (st_pieces s !! q). }
  pose proof Hs as (Hw & _ & H).
  assert (H1 : forall q m, st_pieces s1 !! q = Some m ->
    0 < mp_length m /\ (forall d, mp_data m = Some d -> Z.of_nat (length d) = mp_length m) /\
    (mp_complete m = true -> mp_data m <> None) /\ (mp_complete m = true <-> q ∈ st_lru s /\ q <> p)).
  { intros q m. unfold s1. rewrite upd_lookup. case_decide; [subst|]; intros Hq.
    - destruct (st_pieces s !! q) as [m0|] eqn:E; [|done]. injection Hq as <-.
      destruct (H q m0 E) as (? & ? & _). simpl. naive_solver.
    - destruct (H q m Hq) as (? & ? & ? & ->). naive_solver. }
  destruct (st_pieces s !! p) as [m|] eqn:Hm.
  2: { assert (piece_lruIdx p s1 = -1) as -> by (unfold piece_lruIdx, s1; by rewrite upd_lookup_eq, Hm).
       split; [|done]. split; [apply Hok1|]. split; [apply Hok1|]. intros q m Hq.
       destruct (H1 q m Hq) as (? & ? & ? & H4). do 3 (split; [done|]). rewrite H4. split; [tauto|].
       intros Hin. split; [done|]. intros ->. destruct (shape_in s p Hs Hin). congruence. }
  pose proof (lruIdx_spec s1 p (proj1 Hok1)) as Hi. unfold s1 in Hi at 1. rewrite upd_lookup_eq, Hm in Hi.
  specialize (Hi ltac:(eauto)). destruct (0 <=? piece_lruIdx p s1).
  - destruct (mem_remove s1 _ p Hok1 Hi) as (Hok2 & Hc & Hp). set (s2 := (heapRemove s1 _).2) in *.
    split; [|eapply keeps_trans; [done|by apply keeps_core2, core_core2]].
    split; [apply Hok2|]. split; [apply Hok2|]. intros q m' Hq.
    destruct (core_piece _ _ _ _ Hc Hq) as (m1 & Hm1 & E). destruct (H1 q m1 Hm1) as (? & ? & ? & H4).
    pose proof (f_equal mp_length E) as E3. pose proof (f_equal mp_data E) as E4.
    pose proof (f_equal mp_complete E) as E5. simpl in E3, E4, E5. rewrite <- E3, <- E4, <- E5.
    do 3 (split; [done|]). rewrite H4. change (st_lru s) with (st_lru s1). rewrite Hp, elem_of_cons.
    pose proof (proj1 (proj1 Hok1)) as Hnd. rewrite Hp in Hnd. apply NoDup_cons in Hnd as [? _]. naive_solver.
  - split; [|done]. split; [apply Hok1|]. split; [apply Hok1|]. intros q m' Hq.
    destruct (H1 q m' Hq) as (? & ? & ? & H4). do 3 (split; [done|]). rewrite H4. unfold s1 in *.
    rewrite upd_lru in *. naive_solver.
Qed.

(** Re-keying a piece in place, or inserting it. *)
Lemma rekey_heap p m f s0 :
  heap_ok s0 -> st_pieces s0 !! p = Some m -> (forall m, mp_lruIdx (f m) = mp_lruIdx m) ->
  let s2 := upd p f s0 in
  let s1 := if 0 <=? piece_lruIdx p s2 then heapFix s2 (Z.to_nat (piece_lruIdx p s2))
            else heapPush p s2 in
  heap_ok s1 /\ core s1 = core s2 /\ (forall q, q ∈ st_lru s1 <-> q = p \/ q ∈ st_lru s0).
Proof.
  intros Hok Hm Hf s2 s1. pose proof (lruIdx_spec s0 p (proj1 Hok) ltac:(eauto)) as Hi.
  assert (Hm2 : st_pieces s2 !! p = Some (f m)) by (unfold s2; by rewrite upd_lookup_eq, Hm).
  assert (E : piece_lruIdx p s2 = piece_lruIdx p s0).
  { unfold piece_lruIdx. by rewrite Hm2, Hm, Hf. }
  unfold s1. rewrite E. destruct (0 <=? piece_lruIdx p s0).
  - destruct (mem_fix s0 _ p f Hok Hi Hf) as (? & ? & Hp). do 2 (split; [done|]).
    intros q. unfold s2. rewrite Hp. apply list_elem_of_lookup_2 in Hi. split; [auto|].
    intros [->|?]; [exact Hi|done].
  - destruct (mem_push p s2) as (? & ? & Hp).
    + by apply heap_ok_upd_out.
    + rewrite Hm2. eauto.
    + done.
    + do 2 (split; [done|]). intros q. rewrite Hp, elem_of_cons. done.
Qed.

(** A store whose piece [p] has just been completed and is in the heap. *)
Lemma completed_shape p m d t k s s1 :
  shape s -> st_pieces s !! p = Some m -> mp_data m = Some d -> heap_ok s1 ->
  core s1 = core (upd p (fun m => set_key k (set_lastUsed k m))
                    (set_tick t (upd p (set_complete true) s))) ->
  (forall q, q ∈ st_lru s1 <-> q = p \/ q ∈ st_lru s) ->
  shape (upd p (fun m => set_evicted 0 (mp_evictedAt m) m) s1).
Proof.
  intros Hs Hm Hd Hok1 Hc Hl. set (s2 := upd p _ s1).
  assert (Hok2 : heap_ok s2).
  { apply (heap_ok_ext s1); [done| |done]. intros q. unfold s2. rewrite upd_lookup. case_decide; [|done].
    by destruct (st_pieces s1 !! q). }
  split; [apply Hok2|]. split; [apply Hok2|]. intros q m2. unfold s2. rewrite upd_lookup, upd_lru.
  intros Hq.
  assert (exists m1, st_pieces s1 !! q = Some m1 /\ mp_length m2 = mp_length m1 /\
    mp_data m2 = mp_data m1 /\ mp_complete m2 = mp_complete m1) as (m1 & Hm1 & E1 & E2 & E3).
  { case_decide; [|eauto]. destruct (st_pieces s1 !! q) as [m1|]; [|done]. injection Hq as <-. eauto. }
  rewrite E1, E2, E3, Hl. clear Hq E1 E2 E3 m2.
  destruct (core_piece _ _ _ _ Hc Hm1) as (m0 & Hm0 & E).
  pose proof (f_equal mp_length E) as E1. pose proof (f_equal mp_data E) as E2.
  pose proof (f_equal mp_complete E) as E3. simpl in E1, E2, E3. rewrite <- E1, <- E2, <- E3.
  clear E E1 E2 E3 Hm1 m1. destruct Hs as (_ & _ & H).
  rewrite upd_lookup in Hm0. cbn [set_tick st_pieces] in Hm0. rewrite upd_lookup in Hm0.
  case_decide as Hpq.
  - subst q. rewrite Hm in Hm0. injection Hm0 as <-. destruct (H p m Hm) as (? & ? & _). simpl.
    rewrite Hd in *. do 3 (split; [done|]). split; auto.
  - destruct (H q m0 Hm0) as (? & ? & ? & H4).
    do 3 (split; [done|]). rewrite H4. split; [auto|]. intros [->|?]; done.
Qed.

Lemma MarkComplete_shape p s :
  shape s -> shape (MarkComplete p s).2 /\ keeps s (MarkComplete p s).2.
Proof.
  intros Hs. unfold MarkComplete. destruct (st_pieces s !! p) as [m|] eqn:Hm; [|split; [done|apply keeps_refl]].
  destruct (mp_data m) as [d|] eqn:Hd; [|split; [done|apply keeps_refl]]. cbn [snd].
  set (t := st_tick s + 1). set (f := fun m => set_key t (set_lastUsed t m)).
  set (s0 := set_tick t (upd p (set_complete true) s)).
  assert (Hok0 : heap_ok s0).
  { apply (heap_ok_ext s); [done| |by apply shape_heap]. intros q. unfold s0. cbn [set_tick st_pieces].
    rewrite upd_lookup. case_decide; [|done]. by destruct (st_pieces s !! q). }
  assert (K0 : keeps s (upd p f s0)).
  { eapply keeps_trans; [|by apply keeps_upd].
    apply (keeps_trans _ (upd p (set_complete true) s)); [by apply keeps_upd|].
    split; [done|]. intros q m1 Hq. exists m1. done. }
  destruct (rekey_heap p (set_complete true m) f s0 Hok0) as (Hok1 & Hc1 & Hl1); [|done|].
  { unfold s0. cbn [set_tick st_pieces]. by rewrite upd_lookup_eq, Hm. }
  set (s1 := if 0 <=? _ then heapFix _ _ else _) in *.
  pose proof (completed_shape p m d t t s s1 Hs Hm Hd Hok1 Hc1 Hl1) as Hs2.
  set (s2 := upd p _ s1) in *.
  assert (K2 : keeps s s2).
  { eapply keeps_trans; [done|]. eapply keeps_trans; [by apply keeps_core2, core_core2|]. by apply keeps_upd. }
  destruct (evict_shape 0 (Some p) s2 Hs2) as [? K3].
  { intros ? [= <-]. destruct (kp_piece _ _ K2 p m Hm) as (m' & ? & _). eauto. }
  split; [done|]. by eapply keeps_trans.
Qed.

(** * Writing *)

Lemma copyAt_length d off b : length (copyAt d off b).1 = length d.
Proof. unfold copyAt. simpl. rewrite !length_app, !length_take, length_drop. lia. Qed.

Lemma copyIn_inv p b off s rs ts ts' :
  inv (MkConfig s rs ts) -> inv (MkConfig (copyIn p b off s).2 rs ts').
Proof.
  intros Hi. unfold copyIn. destruct (st_pieces s !! p) as [m|] eqn:Hm; [|done].
  destruct (mp_data m) as [d|] eqn:Hd; [|done].
  pose proof (copyAt_length d (Z.to_nat off) b) as Hlen.
  destruct (copyAt d (Z.to_nat off) b) as [d' n]. cbn [snd fst] in *.
  pose proof Hi as (Hs & _). apply (keeps_inv s _ _ ts); [done| |].
  - apply shape_upd; [done|]. intros m' Hm'. rewrite Hm in Hm'. injection Hm' as <-.
    split_and!; try done. intros d0 [= <-]. rewrite Hlen.
    destruct Hs as (_ & _ & H). by apply (H p m Hm).
  - split.
    + unfold unheld, upd. cbn [set_pieces st_used st_pieces]. rewrite (msum_alter held _ _ _ _ Hm).
      unfold held at 2 3. rewrite Hd. simpl. lia.
    + intros q m' Hq. rewrite upd_lookup, Hq. case_decide; [|eauto].
      subst. rewrite Hm in Hq. injection Hq as <-. exists (set_data (Some d') m).
      split; [done|]. split; [done|]. by rewrite Hd.
Qed.

(** Reserving the budget of a piece, and installing its buffer, hand the bytes
    from one side of the accounting to the other. *)
Lemma reserve_inv p m s rs ts :
  inv (MkConfig s rs ts) -> p ∉ rs -> st_pieces s !! p = Some m -> mp_data m = None ->
  inv (MkConfig (reserve (mp_length m) s) ({[p]} ∪ rs) ts).
Proof.
  intros Hi Hp Hm Hd. unfold reserve. pose proof Hi as (Hs & _).
  destruct (evict_shape (mp_length m) None s Hs ltac:(done)) as [Hs1 K1].
  set (s1 := evictLocked _ None s) in *.
  destruct (keeps_inv s s1 rs ts ts Hi Hs1 K1) as (_ & Ha & Hr). unfold accounts in Ha.
  cbn [c_store c_reserving] in *. destruct (kp_piece _ _ K1 p m Hm) as (m1 & Hm1 & Hl1 & Hd1).
  split; [done|]. cbn [c_store c_reserving]. split.
  - unfold accounts, reserving_bytes in *. cbn [set_used st_used st_pieces].
    rewrite elements_union_singleton, sumZ_cons by done.
    assert (piece_len p (set_used (st_used s1 + mp_length m) s1) = mp_length m) as ->.
    { unfold piece_len. cbn [set_used st_pieces]. by rewrite Hm1. }
    change (sumZ (fun q => piece_len q (set_used _ s1)) (elements rs))
      with (sumZ (fun q => piece_len q s1) (elements rs)). lia.
  - intros q [->%elem_of_singleton|Hq]%elem_of_union; [eauto|]. by apply Hr.
Qed.

Lemma install_inv p m buf s rs ts :
  inv (MkConfig s rs ts) -> p ∈ rs -> st_pieces s !! p = Some m ->
  Z.of_nat (length buf) = mp_length m ->
  inv (MkConfig (installBuf p buf s) (rs ∖ {[p]}) ts).
Proof.
  intros (Hs & Ha & Hr) Hp Hm Hlen. cbn [c_store c_reserving] in *.
  destruct (Hr p Hp) as (m0 & Hm0 & Hd). rewrite Hm in Hm0. injection Hm0 as <-.
  assert (Hc : mp_complete m = false).
  { destruct Hs as (_ & _ & H). destruct (H p m Hm) as (_ & _ & Hcd & _).
    destruct (mp_complete m); [by destruct Hcd|done]. }
  assert (Hlook : forall q, q <> p -> piece_len q (installBuf p buf s) = piece_len q s).
  { intros q Hq. unfold piece_len, installBuf. by rewrite upd_lookup_ne. }
  split; [|cbn [c_store c_reserving]; split].
  - apply shape_upd; [done|]. intros m' Hm'. rewrite Hm in Hm'. injection Hm' as <-.
    split_and!; try done. by intros d [= <-].
  - unfold accounts, reserving_bytes in *. rewrite (union_difference_singleton_L p rs Hp) in Ha.
    rewrite elements_union_singleton in Ha by set_solver. rewrite sumZ_cons in Ha.
    rewrite (sumZ_ext _ (fun q => piece_len q s)) by (intros q Hq%elem_of_elements; apply Hlook; set_solver).
    unfold installBuf. rewrite upd_used. unfold upd. cbn [set_pieces st_pieces].
    rewrite (msum_alter held _ _ _ _ Hm). unfold held at 2 3. rewrite Hd. cbn [set_evicted set_data mp_data mp_length].
    unfold piece_len at 1 in Ha. rewrite Hm in Ha. lia.
  - intros q Hq. unfold installBuf. rewrite upd_lookup_ne by set_solver. apply Hr. set_solver.
Qed.

Lemma mem_step_inv c c' : inv c -> step c c' -> inv c'.
Proof.
  intros Hi Hstep. destruct Hstep.
  - pose proof Hi as (Hs & _). apply (keeps_inv s _ rs ts); [done|done|].
    split; [done|]. intros q m Hq. exists m. done.
  - pose proof Hi as (Hs & _). destruct (piece_shape (t, i) len s Hs) as [? ?]; [done|].
    by apply (keeps_inv s _ rs ts).
  - by apply reserve_inv.
  - eapply (copyIn_inv _ _ _ _ _ ts). by eapply install_inv.
  - by apply (copyIn_inv _ _ _ _ _ ts).
  - pose proof Hi as (Hs & _). apply (keeps_inv s _ rs ts); [done|done|].
    split; [done|]. intros q m Hq. exists m. done.
  - pose proof Hi as (Hs & _). apply (keeps_inv s _ rs ts); [done| |by apply keeps_upd].
    apply shape_upd; [done|]. intros m Hm. destruct Hs as (_ & _ & Hsh). destruct (Hsh p m Hm) as (? & ? & ? & _).
    split_and!; done.
  - pose proof Hi as (Hs & _). destruct (MarkComplete_shape p s Hs) as [? ?]. by apply (keeps_inv s _ rs ts).
  - pose proof Hi as (Hs & _). destruct (MarkNotComplete_shape p s Hs) as [? ?]. by apply (keeps_inv s _ rs ts).
  - pose proof Hi as (Hs & _). destruct (torrentClose_shape t s Hs) as [? ?]. by apply (keeps_inv s _ rs ts).
Qed.

Lemma init_inv capacity : inv (init capacity).
Proof.
  split; [|split].
  - split; [|split].
    + split; [constructor|]. split; [by intros [|i] p|]. intros p m. simpl. by rewrite lookup_empty.
    + intros j Hj. simpl in Hj. lia.
    + intros p m. simpl. by rewrite lookup_empty.
  - unfold accounts, reserving_bytes. simpl. by rewrite msum_empty.
  - intros p. simpl. set_solver.
Qed.

(** * Reading what was written *)

(** The buffer a write goes to: the resident one, or the pooled one. *)
Definition buffer_of (p : pid) (pool : list Z) (s : memStorage) : list Z :=
  match st_pieces s !! p with
  | Some m => default pool (mp_data m)
  | None => []
  end.

Lemma not_complete_out s p m :
  shape s -> st_pieces s !! p = Some m -> mp_complete m = false -> p ∉ st_lru s.
Proof. intros (_ & _ & H) Hm Hc Hp. destruct (H p m Hm) as (_ & _ & _ & Hi). apply Hi in Hp. congruence. Qed.

Lemma nodata_not_complete s p m :
  shape s -> st_pieces s !! p = Some m -> mp_data m = None -> mp_complete m = false.
Proof.
  intros (_ & _ & H) Hm Hd. destruct (H p m Hm) as (_ & _ & Hc & _).
  destruct (mp_complete m); [by destruct Hc|done].
Qed.

(** Eviction leaves a piece that is not complete exactly as it was. *)
Lemma evict_inflight need keep s p m :
  shape s -> (forall q, keep = Some q -> is_Some (st_pieces s !! q)) ->
  st_pieces s !! p = Some m -> mp_complete m = false ->
  exists m', st_pieces (evictLocked need keep s) !! p = Some m' /\ mp_length m' = mp_length m /\
    mp_data m' = mp_data m /\ mp_complete m' = false /\ mp_lastUsed m' = mp_lastUsed m.
Proof.
  intros Hs Hk Hm Hc. destruct (evictLocked_spec need keep s (shape_heap s Hs) Hk) as (_ & E & _).
  pose proof (ev_kept _ _ E p (or_introl (not_complete_out s p m Hs Hm Hc))) as Eq. rewrite Hm in Eq.
  destruct (st_pieces (evictLocked need keep s) !! p) as [m'|]; [|done].
  apply (strip_inv _ _ id) in Eq as (m1 & [= <-] & ? & ? & ? & ?). exists m'. unfold id in *.
  split_and!; congruence.
Qed.

(** A write makes the piece resident with exactly the spliced buffer. *)
Lemma WriteAt_buffer p b off pool s m :
  shape s -> st_pieces s !! p = Some m -> 0 <= off < mp_length m ->
  exists m', st_pieces (WriteAt p b off pool s).2 !! p = Some m' /\ mp_length m' = mp_length m /\
    mp_data m' = Some (copyAt (buffer_of p pool s) (Z.to_nat off) b).1 /\
    (WriteAt p b off pool s).1 = (Z.of_nat (copyAt (buffer_of p pool s) (Z.to_nat off) b).2, None).
Proof.
  intros Hs Hm Ho. unfold WriteAt, piece_len, buffer_of. rewrite Hm.
  destruct (off <? 0) eqn:?; bool_to_prop; [lia|].
  destruct (mp_length m <=? off) eqn:?; bool_to_prop; [lia|].
  unfold lockResident. rewrite Hm. destruct (mp_data m) as [d|] eqn:Hd.
  - unfold copyIn. rewrite Hm, Hd. destruct (copyAt d (Z.to_nat off) b) as [d' n] eqn:E.
    cbn [default from_option id]. rewrite E. cbn [fst snd]. rewrite upd_lookup_eq, Hm.
    eexists. split_and!; reflexivity.
  - destruct (evict_inflight (mp_length m) None s p m Hs ltac:(done) Hm) as (m1 & Hm1 & Hl & Hd1 & _).
    { by eapply nodata_not_complete. }
    unfold copyIn, installBuf, reserve. rewrite upd_lookup_eq. cbn [set_used st_pieces]. rewrite Hm1.
    cbn [fmap option_fmap option_map set_evicted set_data mp_data default from_option id].
    destruct (copyAt pool (Z.to_nat off) b) as [d' n]. cbn [fst snd]. rewrite !upd_lookup_eq.
    cbn [set_used st_pieces]. rewrite Hm1. eexists. split; [reflexivity|]. split; [exact Hl|done].
Qed.

(** Reading inside the spliced range gives back the bytes written. *)
Lemma copyAt_read d off b :
  (off + length b <= length d)%nat -> take (length b) (drop off (copyAt d off b).1) = b.
Proof.
  intros H. unfold copyAt. cbn [fst]. replace (Nat.min (length b) (length d - off)) with (length b) by lia.
  rewrite drop_app_length' by (rewrite length_take; lia). rewrite firstn_all. by rewrite take_app_length.
Qed.

Lemma ReadAt_resident p blen off s m d :
  st_pieces s !! p = Some m -> mp_data m = Some d -> Z.of_nat (length d) = mp_length m ->
  0 <= off < mp_length m ->
  (ReadAt p blen off s).1 =
    MkRead (take blen (drop (Z.to_nat off) d))
      (if mp_length m <? off + Z.of_nat blen then Some errEOF else None) false.
Proof.
  intros Hm Hd Hlen Ho. unfold ReadAt. rewrite Hm, Hd.
  destruct (0 <=? off) eqn:?, (off <? mp_length m) eqn:?; bool_to_prop; try lia. cbn [andb].
  rewrite length_take, length_drop.
  destruct (Nat.ltb_spec (Nat.min blen (length d - Z.to_nat off)) blen);
    destruct (Z.ltb_spec (mp_length m) (off + Z.of_nat blen)); try done; lia.
Qed.

(** * Waiting for a refetch *)

Lemma retryFloor_exact backoff reads :
  0 < backoff -> 2 <= reads < 2 ^ 31 ->
  retryFloor backoff reads =
    if reads - 2 <? 31 then Z.min backoff (refetchSettle * 2 ^ (reads - 2)) else backoff.
Proof.
  intros Hb Hr. unfold retryFloor. unfold int32. rewrite wrapS_id by (split; lia).
  destruct (reads - 2 <? 31) eqn:E; [|done]. bool_to_prop. rewrite Z.shiftl_mul_pow2 by lia.
  rewrite int64_id; [done|]. unfold in_int64, refetchSettle.
  assert (0 < 2 ^ (reads - 2) <= 2 ^ 30) by (split; [lia|apply Z.pow_le_mono_r; lia]). lia.
Qed.

(** What MarkComplete leaves behind. *)
Lemma MarkComplete_final p m d s :
  shape s -> st_pieces s !! p = Some m -> mp_data m = Some d ->
  let r := MarkComplete p s in
  r.1 = None /\ shape r.2 /\
  (exists m', st_pieces r.2 !! p = Some m' /\ mp_data m' = Some d /\ mp_complete m' = true) /\
  (st_used r.2 + 0 <= st_capacity r.2 \/ forall q, q ∈ st_lru r.2 -> Some p = Some q).
Proof.
  intros Hs Hm Hd r. pose proof (MarkComplete_shape p s Hs) as [Hs' _].
  split; [unfold r, MarkComplete; by rewrite Hm, Hd|]. split; [done|].
  unfold r, MarkComplete. rewrite Hm, Hd. cbn [snd].
  set (t := st_tick s + 1). set (f := fun m => set_key t (set_lastUsed t m)).
  set (s0 := set_tick t (upd p (set_complete true) s)).
  assert (Hm0 : st_pieces s0 !! p = Some (set_complete true m)).
  { unfold s0. cbn [set_tick st_pieces]. by rewrite upd_lookup_eq, Hm. }
  destruct (rekey_heap p (set_complete true m) f s0) as (Hok1 & Hc1 & Hl1); [|done|done|].
  { apply (heap_ok_ext s); [done| |by apply shape_heap]. intros q. unfold s0. cbn [set_tick st_pieces].
    rewrite upd_lookup. case_decide; [|done]. by destruct (st_pieces s !! q). }
  set (s1 := if 0 <=? _ then heapFix _ _ else _) in *.
  pose proof (completed_shape p m d t t s s1 Hs Hm Hd Hok1 Hc1 Hl1) as Hs2.
  set (s2 := upd p _ s1) in *.
  assert (Hm1 : st_pieces (upd p f s0) !! p = Some (f (set_complete true m))) by (by rewrite upd_lookup_eq, Hm0).
  destruct (core_piece _ _ _ _ (eq_sym Hc1) Hm1) as (m1 & Hm1' & E).
  assert (Hm2 : st_pieces s2 !! p = Some (set_evicted 0 (mp_evictedAt m1) m1))
    by (unfold s2; by rewrite upd_lookup_eq, Hm1').
  destruct (evictLocked_spec 0 (Some p) s2 (shape_heap _ Hs2)) as (_ & Ev & Hin & Hfin).
  { intros ? [= <-]. eauto. }
  split; [|exact Hfin].
  assert (Hp : p ∈ st_lru s2) by (apply Hl1; by left).
  pose proof (ev_kept _ _ Ev p (or_intror (Hin p eq_refl Hp))) as Eq. rewrite Hm2 in Eq.
  destruct (st_pieces (evictLocked 0 (Some p) s2) !! p) as [m'|]; [|done].
  apply (strip_inv _ _ id) in Eq as (m3 & [= <-] & _ & Hd3 & Hc3 & _). exists m'.
  pose proof (f_equal mp_data E) as E1. pose proof (f_equal mp_complete E) as E2.
  unfold id in *. cbn in E1, E2, Hd3, Hc3. split_and!; congruence.
Qed.

(** The streaming loop, against the io.Writer contract. *)
Section WriteToSpec.
Context {W : Type} (write : list Z -> W -> (nat * option memErr) * W) (out : W -> list Z).
Hypothesis write_ok : forall b w,
  ((write b w).1.1 <= length b)%nat /\ out (write b w).2 = out w ++ take (write b w).1.1 b.

Lemma WriteTo_loop_spec data len d fuel :
  (forall k x, data k = Some x -> length x = len) ->
  forall k total w, (total <= len)%nat -> (len - total < fuel)%nat ->
  let r := WriteTo_loop write fuel k data len total w in
  (total <= r.1.1 <= len)%nat /\ (r.1.2 = None -> r.1.1 = len) /\
  ((forall k, data k = Some d) -> out r.2 = out w ++ take (r.1.1 - total) (drop total d)).
Proof.
  intros Hlen. induction fuel as [|fuel IH]; intros k total w Ht Hf; [lia|]. cbn [WriteTo_loop].
  destruct (Nat.ltb_spec total len).
  2: { cbn. split; [lia|]. split; [lia|]. intros _. replace (total - total)%nat with 0%nat by lia. by rewrite app_nil_r. }
  destruct (data k) as [x|] eqn:Hk.
  2: { cbn. split; [lia|]. split; [done|]. intros Hd. by rewrite Hd in Hk. }
  pose proof (Hlen k x Hk) as Hx.
  set (chunk := take writeToChunk (drop total (take len x))).
  assert (Hc : (0 < length chunk <= len - total)%nat).
  { unfold chunk. rewrite length_take, length_drop, length_take, Hx. unfold writeToChunk. lia. }
  assert (Hout : (forall k, data k = Some d) -> forall n, (n <= length chunk)%nat ->
    take n chunk = take n (drop total d)).
  { intros Hd n Hn. rewrite Hd in Hk. injection Hk as <-. unfold chunk.
    rewrite (firstn_all2 d) by lia. rewrite take_take. f_equal.
    unfold chunk in Hn. rewrite length_take in Hn. lia. }
  destruct (write_ok chunk w) as [Hw1 Hw2]. destruct (write chunk w) as [[wn err] w']. cbn [fst snd] in Hw1, Hw2.
  destruct err as [e|]; [|destruct (Nat.ltb_spec wn (length chunk))]; cbn [fst snd].
  - split; [lia|]. split; [done|]. intros Hd. rewrite Hw2, (Hout Hd) by lia. do 2 f_equal. lia.
  - split; [lia|]. split; [done|]. intros Hd. rewrite Hw2, (Hout Hd) by lia. do 2 f_equal. lia.
  - destruct (IH (S k) (total + wn)%nat w') as (H1 & H2 & H3); [lia..|]. split; [lia|]. split; [done|].
    intros Hd. rewrite (H3 Hd), Hw2, (Hout Hd) by lia. rewrite <- app_assoc. f_equal.
    set (n := (WriteTo_loop _ _ _ _ _ _ _).1.1) in *.
    replace (n - total)%nat with (wn + (n - (total + wn)))%nat by lia.
    by rewrite <- take_take_drop, drop_drop.
Qed.

End WriteToSpec.

(** * Properties *)

(** C3: in every state the store can reach, whatever the interleaving of the
    critical sections, the byte count is what the resident pieces hold plus what
    writers between reserve and install have claimed; the eviction order holds
    exactly the complete pieces, each back-pointer points at its own slot and
    the keys are in heap order; resident buffers have the piece's length. *)
Theorem mem_reachable_inv capacity c : rtc step (init capacity) c -> inv c.
Proof. intros H. eapply rtc_invariant; [apply mem_step_inv|exact H|apply init_inv]. Qed.

(** making room for a piece leaves the budget respected unless no complete
    piece is left to evict, and never takes a piece that is still being
    downloaded. *)
Lemma reserve_budget need s :
  shape s ->
  let s' := reserve need s in
  (st_used s' <= st_capacity s' \/ (forall p m, st_pieces s' !! p = Some m -> mp_complete m = false)) /\
  st_capacity s' = st_capacity s /\
  (forall p m, st_pieces s !! p = Some m -> mp_complete m = false ->
     exists m', st_pieces s' !! p = Some m' /\ mp_data m' = mp_data m /\ mp_complete m' = false).
Proof.
  intros Hs s'. destruct (evictLocked_spec need None s (shape_heap s Hs) ltac:(done)) as (_ & E & _ & Hfin).
  destruct (evict_shape need None s Hs ltac:(done)) as [(_ & _ & H) _].
  split; [|split; [apply (ev_capacity _ _ E)|]].
  - destruct Hfin as [Hu|Hnil]; [left; exact Hu|right]. intros p m Hm. destruct (H p m Hm) as (_ & _ & _ & Hi).
    destruct (mp_complete m); [|done]. by specialize (Hnil p (proj1 Hi eq_refl)).
  - intros p m Hm Hc. destruct (evict_inflight need None s p m Hs ltac:(done) Hm Hc) as (m' & ? & _ & ? & ? & _).
    eauto.
Qed.

(** the victim of an eviction is a least recently read piece among the
    complete ones, whenever every heap key is a lower bound of the recency it
    stands for; re-keying on the way keeps that bound and changes nothing else
    of any piece. *)
Lemma popOldest_lru s :
  heap_ok s -> keys_below s -> st_lru s <> [] ->
  exists p s', popOldestLocked s = (Some p, s') /\ st_lru s ≡ₚ p :: st_lru s' /\ keys_below s' /\
    core2 s' = core2 s /\ (forall q, q ∈ st_lru s -> lastUsed_of s p <= lastUsed_of s q).
Proof.
  intros Hok Hb Hne. pose proof (popOldest_spec s Hok) as H.
  destruct (popOldestLocked s) as [[p|] s'].
  - destruct H as (_ & Hc & Hp & Hl). destruct (Hl Hb) as [Hb' Hmin]. exists p, s'. done.
  - by destruct H as (_ & _ & Hnil & _).
Qed.

(** marking a resident piece complete keeps its bytes and never evicts it,
    however tight the budget: afterwards Completion reports it complete, and
    either the budget holds or it is the only evictable piece. *)
Lemma MarkComplete_keeps p m d s :
  shape s -> st_pieces s !! p = Some m -> mp_data m = Some d ->
  let '(err, s') := MarkComplete p s in
  err = None /\ Completion p s' = true /\
  (exists m', st_pieces s' !! p = Some m' /\ mp_data m' = Some d) /\
  (st_used s' <= st_capacity s' \/ (forall q, q <> p -> Completion q s' = false)).
Proof.
  intros Hs Hm Hd. destruct (MarkComplete_final p m d s Hs Hm Hd) as (He & Hs' & (m' & Hm' & Hd' & Hc') & Hfin).
  destruct (MarkComplete p s) as [err s']. cbn [fst snd] in *.
  split; [done|]. split; [unfold Completion; by rewrite Hm', Hd', Hc'|]. split; [eauto|].
  destruct Hfin as [?|Honly]; [left; lia|right]. intros q Hq. unfold Completion.
  destruct (st_pieces s' !! q) as [mq|] eqn:Hmq; [|done]. destruct Hs' as (_ & _ & H).
  destruct (H q mq Hmq) as (_ & _ & _ & Hi). destruct (mp_complete mq); [|done].
  specialize (Honly q (proj1 Hi eq_refl)). congruence.
Qed.

(** The heap pops a least recently read complete piece and nothing else
    changes but the list; MarkComplete keeps the piece that was just completed
    resident, with its data, and trims the others until the store is within its
    budget or no other complete piece is left. *)
Lemma eviction_spares :
  (forall s,
   heap_ok s -> keys_below s -> st_lru s <> [] ->
  exists p s', popOldestLocked s = (Some p, s') /\ st_lru s ≡ₚ p :: st_lru s' /\ keys_below s' /\
    core2 s' = core2 s /\ (forall q, q ∈ st_lru s -> lastUsed_of s p <= lastUsed_of s q)) /\
  (forall p m d s,
   shape s -> st_pieces s !! p = Some m -> mp_data m = Some d ->
  let '(err, s') := MarkComplete p s in
  err = None /\ Completion p s' = true /\
  (exists m', st_pieces s' !! p = Some m' /\ mp_data m' = Some d) /\
  (st_used s' <= st_capacity s' \/ (forall q, q <> p -> Completion q s' = false))).
Proof. split; [exact popOldest_lru|]. exact MarkComplete_keeps. Qed.


(** C14: a chunk written inside a piece reads back unchanged, whether or not the
    write had to evict other pieces to make the piece resident. *)
Theorem write_read p b off pool s m :
  shape s -> st_pieces s !! p = Some m -> length (buffer_of p pool s) = Z.to_nat (mp_length m) ->
  0 <= off -> off + Z.of_nat (length b) <= mp_length m -> b <> [] ->
  (ReadAt p (length b) off (WriteAt p b off pool s).2).1 = MkRead b None false.
Proof.
  intros Hs Hm Hlen Ho Hb Hne.
  assert (0 < length b)%nat by (destruct b; simpl in *; [done|lia]).
  destruct (WriteAt_buffer p b off pool s m Hs Hm ltac:(lia)) as (m' & Hm' & Hl & Hd & _).
  rewrite (ReadAt_resident p _ off _ m' _ Hm' Hd); [| |lia].
  2: { rewrite copyAt_length, Hlen, Hl. lia. }
  rewrite copyAt_read by lia. destruct (mp_length m' <? _) eqn:?; bool_to_prop; [lia|done].
Qed.

(** ReadAt never reports success with fewer bytes than asked for; a read of
    an evicted piece returns no bytes and [errPieceEvicted], and every byte it
    does return is the resident buffer's at the requested offset. *)
Lemma ReadAt_outcomes p blen off s :
  shape s ->
  let r := (ReadAt p blen off s).1 in
  (rd_err r = None -> length (rd_bytes r) = blen) /\
  (rd_bytes r <> [] -> exists m d, st_pieces s !! p = Some m /\ mp_data m = Some d /\
     0 <= off < mp_length m /\ rd_bytes r = take blen (drop (Z.to_nat off) d)) /\
  (~ resident s p -> 0 <= off -> r = MkRead [] (Some errPieceEvicted) true).
Proof.
  intros (_ & _ & H). cbn zeta.
  destruct (st_pieces s !! p) as [m|] eqn:Hm; [destruct (mp_data m) as [d|] eqn:Hd|].
  - destruct (H p m Hm) as (_ & Hl & _). specialize (Hl d Hd).
    assert (Hres : resident s p) by (by exists m, d).
    destruct (decide (0 <= off < mp_length m)) as [Ho|Ho].
    + rewrite (ReadAt_resident p blen off s m d Hm Hd Hl Ho). cbn [rd_err rd_bytes].
      split_and!; [|by exists m, d|done]. rewrite length_take, length_drop.
      destruct (mp_length m <? _) eqn:?; bool_to_prop; [done|lia].
    + unfold ReadAt. rewrite Hm, Hd.
      destruct (0 <=? off) eqn:?, (off <? mp_length m) eqn:?, (off <? 0) eqn:?; bool_to_prop; try lia; done.
  - unfold ReadAt. rewrite Hm, Hd. destruct (off <? 0) eqn:?; bool_to_prop; split_and!; try done; lia.
  - unfold ReadAt. rewrite Hm. done.
Qed.

(** a read that hit an evicted piece waits at most twice the backoff; from
    the second consecutive one on it waits at least the escalating floor
    min(backoff, 1ms * 2^(k-2)) after the first [k] reads, so the retry recursion
    cannot spin. *)
Lemma waitRefetch_bounds ch backoff now1 now2 m :
  0 < backoff -> 0 <= mp_evictedReads m < 2 ^ 31 - 1 ->
  (forall d, ch = Some (Some d) -> 0 <= d) ->
  let '(w, m') := waitRefetch ch backoff now1 now2 m in
  0 <= w <= 2 * backoff /\ 1 <= mp_evictedReads m' <= mp_evictedReads m + 1 /\
  mp_evictedAt m' = now2 /\
  (1 < mp_evictedReads m' -> Z.min backoff (refetchSettle * 2 ^ (Z.min 30 (mp_evictedReads m' - 2))) <= w).
Proof.
  intros Hb Hr Hd. unfold waitRefetch. destruct (backoff <=? 0) eqn:?; bool_to_prop; [lia|].
  set (reads0 := if _ && _ then 0 else mp_evictedReads m).
  assert (Hr0 : 0 <= reads0 <= mp_evictedReads m) by (unfold reads0; destruct (_ && _); lia).
  unfold int32. rewrite wrapS_id by (split; lia).
  set (w0 := match ch with Some (Some t) => Z.min t backoff | _ => backoff end).
  assert (Hw0 : 0 <= w0 <= backoff).
  { unfold w0. destruct ch as [[t|]|]; [|lia..]. specialize (Hd t eq_refl). lia. }
  set (waited := match ch with None => _ | Some _ => _ end).
  assert (Hfl : 1 < reads0 + 1 -> 0 <= retryFloor backoff (reads0 + 1) <= backoff /\
    Z.min backoff (refetchSettle * 2 ^ (Z.min 30 (reads0 + 1 - 2))) <= retryFloor backoff (reads0 + 1)).
  { intros H. rewrite retryFloor_exact by lia.
    destruct (reads0 + 1 - 2 <? 31) eqn:?; bool_to_prop; [|lia].
    assert (0 < 2 ^ (reads0 + 1 - 2)) by lia. unfold refetchSettle.
    replace (Z.min 30 (reads0 + 1 - 2)) with (reads0 + 1 - 2) by lia. lia. }
  assert (Hw : waited = match ch with None => backoff
    | Some _ => if 1 <? reads0 + 1 then w0 + retryFloor backoff (reads0 + 1) else w0 end).
  { unfold waited, w0. by destruct ch as [[t|]|]. }
  cbn [mp_evictedReads mp_evictedAt set_evicted]. rewrite Hw.
  set (fl := Z.min backoff (refetchSettle * _)) in *. set (rf := retryFloor backoff _) in *.
  clearbody fl rf. destruct ch as [o|]; destruct (1 <? reads0 + 1) eqn:?; bool_to_prop; split_and!;
    try done; try intros; try lia.
Qed.

(** streaming a piece to a writer that obeys the io.Writer contract ends;
    it reports no error only after the whole piece, and as long as the buffer
    stays in place what reached the writer is exactly the counted prefix. *)
Lemma WriteTo_streams {W} (write : list Z -> W -> (nat * option memErr) * W) (out : W -> list Z)
    data len d w :
  (forall b w, ((write b w).1.1 <= length b)%nat /\ out (write b w).2 = out w ++ take (write b w).1.1 b) ->
  (forall k x, data k = Some x -> length x = len) ->
  let r := WriteTo write data len w in
  (r.1.1 <= len)%nat /\ (r.1.2 = None -> r.1.1 = len) /\
  ((forall k, data k = Some d) -> out r.2 = out w ++ take r.1.1 d).
Proof.
  intros Hw Hd r. destruct (WriteTo_loop_spec write out Hw data len d (S len) Hd 0 0%nat w)
    as (H1 & H2 & H3); [lia..|]. split; [apply H1|]. split; [exact H2|].
  intros H. unfold r, WriteTo. rewrite (H3 H). by rewrite Nat.sub_0_r, drop_0.
Qed.

(** C30: The ways out of the store. ReadAt never reports success with fewer
    bytes than asked for; a read of an evicted piece returns no bytes and
    [errPieceEvicted], and every byte it returns is the resident buffer's. A read
    that hit an evicted piece waits at most twice the backoff, and from the second
    consecutive one on at least the escalating floor, so the retries cannot spin.
    Streaming a piece to a writer that obeys the io.Writer contract ends, reports
    no error only after the whole piece, and the writer got the counted prefix. *)
Theorem reads_correct :
  (forall p blen off s,
   shape s ->
  let r := (ReadAt p blen off s).1 in
  (rd_err r = None -> length (rd_bytes r) = blen) /\
  (rd_bytes r <> [] -> exists m d, st_pieces s !! p = Some m /\ mp_data m = Some d /\
     0 <= off < mp_length m /\ rd_bytes r = take blen (drop (Z.to_nat off) d)) /\
  (~ resident s p -> 0 <= off -> r = MkRead [] (Some errPieceEvicted) true)) /\
  (forall ch backoff now1 now2 m,
   0 < backoff -> 0 <= mp_evictedReads m < 2 ^ 31 - 1 ->
  (forall d, ch = Some (Some d) -> 0 <= d) ->
  let '(w, m') := waitRefetch ch backoff now1 now2 m in
  0 <= w <= 2 * backoff /\ 1 <= mp_evictedReads m' <= mp_evictedReads m + 1 /\
  mp_evictedAt m' = now2 /\
  (1 < mp_evictedReads m' -> Z.min backoff (refetchSettle * 2 ^ (Z.min 30 (mp_evictedReads m' - 2))) <= w)) /\
  (forall (W : Type) (write : list Z -> W -> (nat * option memErr) * W) (out : W -> list Z)
    data len d w,
   (forall b w, ((write b w).1.1 <= length b)%nat /\ out (write b w).2 = out w ++ take (write b w).1.1 b) ->
  (forall k x, data k = Some x -> length x = len) ->
  let r := WriteTo write data len w in
  (r.1.1 <= len)%nat /\ (r.1.2 = None -> r.1.1 = len) /\
  ((forall k, data k = Some d) -> out r.2 = out w ++ take r.1.1 d)).
Proof. split; [exact ReadAt_outcomes|]. split; [exact waitRefetch_bounds|]. exact @WriteTo_streams. Qed.

(** ** Witnesses *)

(** A store of capacity 8 with one piece of 4 bytes written and complete, and a
    second piece of 4 bytes open. *)
Definition wit_store : memStorage :=
  let s := piece (1%nat, 1%nat) 4 (piece (1%nat, 0%nat) 4 (openTorrent 1 2 (newMemStorage 8))) in
  let s := (WriteAt (1%nat, 0%nat) [7; 8; 9; 10] 0 [0; 0; 0; 0] s).2 in
  (MarkComplete (1%nat, 0%nat) s).2.

Lemma wit_store_reachable : rtc step (init 8) (MkConfig wit_store ∅ []).
Proof.
  eapply rtc_l. { apply (step_open _ ∅ [] 1 2); done. }
  eapply rtc_l. { apply (step_piece _ ∅ [] 1 0 2 4); [done|lia|lia]. }
  eapply rtc_l. { apply (step_piece _ ∅ [] 1 1 2 4); [done|lia|lia]. }
  eapply rtc_l. { eapply (step_reserve _ ∅ [] (1%nat, 0%nat)); [set_solver|vm_compute; reflexivity|done]. }
  eapply rtc_l.
  { eapply (step_install _ _ [] (1%nat, 0%nat) _ [0; 0; 0; 0] [7; 8; 9; 10] 0);
      [set_solver|vm_compute; reflexivity|done|vm_compute; done]. }
  eapply rtc_l. { apply (step_complete _ _ [] (1%nat, 0%nat)). }
  replace (({[(1%nat, 0%nat)]} ∪ ∅) ∖ {[(1%nat, 0%nat)]} : gset pid) with (∅ : gset pid) by set_solver.
  match goal with |- rtc _ ?c ?c' => replace c with c' by (vm_compute; reflexivity) end.
  apply rtc_refl.
Qed.

Lemma wit_store_inv : inv (MkConfig wit_store ∅ []).
Proof. eapply rtc_invariant; [apply mem_step_inv|apply wit_store_reachable|apply init_inv]. Qed.

Lemma wit_store_shape : shape wit_store.
Proof. apply wit_store_inv. Qed.

(** The pieces of the example store. *)
Definition wit_p0 : pid := (1%nat, 0%nat).
Definition wit_p1 : pid := (1%nat, 1%nat).
Definition wit_m0 : memPiece := MkPiece 4 (Some [7; 8; 9; 10]) true 1 1 0 0 0.
Definition wit_m1 : memPiece := MkPiece 4 None false 0 0 (-1) 0 0.

Lemma wit_store_p0 : st_pieces wit_store !! wit_p0 = Some wit_m0.
Proof. vm_compute. reflexivity. Qed.

Lemma wit_store_p1 : st_pieces wit_store !! wit_p1 = Some wit_m1.
Proof. vm_compute. reflexivity. Qed.

Lemma mem_reachable_inv_witness :
  rtc step (init 8) (MkConfig wit_store ∅ []) /\ st_used wit_store = 4 /\ inv (MkConfig wit_store ∅ []).
Proof.
  split; [apply wit_store_reachable|]. split; [vm_compute; reflexivity|].
  apply (mem_reachable_inv 8), wit_store_reachable.
Defined.

(** Reserving 8 more bytes of the 8 evicts the complete piece. *)

(** Writing two bytes at offset 1 of the piece that is not resident. *)
Lemma write_read_witness :
  (ReadAt wit_p1 2 1 (WriteAt wit_p1 [5; 6] 1 [0; 0; 0; 0] wit_store).2).1 = MkRead [5; 6] None false.
Proof.
  apply (write_read wit_p1 [5; 6] 1 [0; 0; 0; 0] wit_store wit_m1 wit_store_shape wit_store_p1);
    [vm_compute; reflexivity|vm_compute; done|vm_compute; done|done].
Defined.

(** A writer that collects everything. *)
Definition wit_sink (b : list Z) (w : list Z) : (nat * option memErr) * list Z :=
  ((length b, None), w ++ b).

Lemma reads_correct_witness :
  (ReadAt wit_p1 2 1 wit_store).1 = MkRead [] (Some errPieceEvicted) true /\
  fst (waitRefetch (Some (Some 5)) 2000000 10 20 (set_evicted 1 9 wit_m1)) <= 4000000 /\
  (WriteTo wit_sink (fun _ => Some [1; 2; 3]) 3 []).2 = [1; 2; 3].
Proof.
  destruct reads_correct as (H1 & H2 & H3). split; [|split].
  - apply (H1 wit_p1 2%nat 1 wit_store wit_store_shape); [|done].
    intros (m & d & Hm & Hd). rewrite wit_store_p1 in Hm. injection Hm as <-. done.
  - assert (forall d, Some (Some 5) = Some (Some d) -> 0 <= d) as Hd by (intros d [= <-]; lia).
    pose proof (H2 (Some (Some 5)) 2000000 10 20 (set_evicted 1 9 wit_m1)
      ltac:(lia) ltac:(vm_compute; split; [done|reflexivity]) Hd) as H.
    destruct (waitRefetch (Some (Some 5)) 2000000 10 20 (set_evicted 1 9 wit_m1)) as [w m'].
    exact (proj2 (proj1 H)).
  - destruct (H3 _ wit_sink id (fun _ => Some [1; 2; 3]) 3%nat [1; 2; 3] []) as (_ & _ & H).
    + intros b w. simpl. split; [lia|]. by rewrite firstn_all.
    + by intros k x [= <-].
    + apply H. done.
Defined.

