(* ===== verification/Yenc.v ===== *)
(** The yEnc article decoder (internal/nzb/yenc.go).

    [decodeYenc] is the decoder's line loop over the tokens of the scanner,
    with its buffered writer and running CRC; the destination is chosen by an
    [open] callback once the article's headers are known.  The theorems: what
    is accepted is exactly what the trailer describes and reached the
    destination unchanged; a correctly encoded article decodes to its data,
    however the encoder splits lines and whatever it chooses to escape. *)

From S2P Require Import Prelude GoStrings.

(** * Headers *)

Definition yencMaxLine : nat := N.to_nat 262144.
Definition yencWriteBuf : nat := N.to_nat 131072.

Definition ybeginTag : bytes := bs "=ybegin".
Definition ypartTag : bytes := bs "=ypart".
Definition yendTag : bytes := bs "=yend".

Record yencHeader := MkHdr {
  h_Size : Z;
  h_Part : Z;
  h_Begin : Z;
  h_End : Z;
  h_HasPart : bool
}.

Definition noHeader : yencHeader := MkHdr 0 0 0 0 false.

Definition set_Size n h := MkHdr n (h_Part h) (h_Begin h) (h_End h) (h_HasPart h).
Definition set_Part n h := MkHdr (h_Size h) n (h_Begin h) (h_End h) (h_HasPart h).
Definition set_Begin n h := MkHdr (h_Size h) (h_Part h) n (h_End h) (h_HasPart h).
Definition set_End n h := MkHdr (h_Size h) (h_Part h) (h_Begin h) n (h_HasPart h).
Definition set_HasPart h := MkHdr (h_Size h) (h_Part h) (h_Begin h) (h_End h) true.

(** Stores a parsed number, or leaves the header alone. *)
Definition ifOk {E} (r : result E Z) (set : Z -> yencHeader -> yencHeader) (h : yencHeader) :=
  match r with Ok n => set n h | Err _ => h end.

Fixpoint parseYbegin_fields (fs : list bytes) (h : yencHeader) : yencHeader :=
  match fs with
  | [] => h
  | f :: fs =>
      match Cut f 61 with
      | None => parseYbegin_fields fs h
      | Some (k, v) =>
          let k := ToLower k in
          if bool_decide (k = bs "size") then parseYbegin_fields fs (ifOk (ParseInt v 64) set_Size h)
          else if bool_decide (k = bs "part") then parseYbegin_fields fs (ifOk (Atoi v) set_Part h)
          else if bool_decide (k = bs "name") then h
          else parseYbegin_fields fs h
      end
  end.

Definition parseYbegin (line : bytes) (h : yencHeader) : yencHeader :=
  parseYbegin_fields (Fields (drop (length ybeginTag) line)) h.

Fixpoint parseYpart_fields (fs : list bytes) (h : yencHeader) : yencHeader :=
  match fs with
  | [] => h
  | f :: fs =>
      match Cut f 61 with
      | None => parseYpart_fields fs h
      | Some (k, v) =>
          let k := ToLower k in
          if bool_decide (k = bs "begin") then parseYpart_fields fs (ifOk (ParseInt v 64) set_Begin h)
          else if bool_decide (k = bs "end") then parseYpart_fields fs (ifOk (ParseInt v 64) set_End h)
          else parseYpart_fields fs h
      end
  end.

Definition parseYpart (line : bytes) (h : yencHeader) : yencHeader :=
  parseYpart_fields (Fields (drop (length ypartTag) line)) h.

(** * The trailer *)

Inductive yencErr :=
| errEndWithoutBegin
| errEscapeAtEol
| errNoYbegin
| errNoYend
| errEndSize (written declared : Z)
| errCrc (sum want : Z)
| errTooLong
| errShort.

(** The loop of verifyYencTrailer: the CRC field to trust, or the size error. *)
Fixpoint trailer_fields (fs : list bytes) (written : Z) (multipart : bool) (crcStr : bytes) :
    result yencErr bytes :=
  match fs with
  | [] => Ok crcStr
  | f :: fs =>
      match Cut f 61 with
      | None => trailer_fields fs written multipart crcStr
      | Some (k, v) =>
          let k := ToLower k in
          if bool_decide (k = bs "size") then
            match ParseInt v 64 with
            | Ok n => if n =? written then trailer_fields fs written multipart crcStr
                      else Err (errEndSize written n)
            | Err _ => trailer_fields fs written multipart crcStr
            end
          else if bool_decide (k = bs "pcrc32") then trailer_fields fs written multipart v
          else if bool_decide (k = bs "crc32") then
            trailer_fields fs written multipart
              (if negb multipart && bool_decide (crcStr = []) then v else crcStr)
          else trailer_fields fs written multipart crcStr
      end
  end.

Definition verifyYencTrailer (line : bytes) (written sum : Z) (multipart : bool) : option yencErr :=
  match trailer_fields (drop 1 (Fields line)) written multipart [] with
  | Err e => Some e
  | Ok [] => None
  | Ok crcStr =>
      match ParseUint crcStr 16 32 with
      | Err _ => None
      | Ok want => if uint32 want =? sum then None else Some (errCrc sum want)
      end
  end.

(** * Data lines *)

(** One encoded line: an escaped byte is shifted by 64 more. *)
Fixpoint decodeLine (raw : bytes) : option bytes :=
  match raw with
  | [] => Some []
  | b :: raw =>
      if b =? 61 then
        match raw with
        | [] => None
        | e :: raw => cons (uint8 (e - 64 - 42)) <$> decodeLine raw
        end
      else cons (uint8 (b - 42)) <$> decodeLine raw
  end.

(** * The decoder *)

Section Decode.
Context {W E : Type} (write : bytes -> W -> (nat * option E) * W).

(** Errors of a decode: the decoder's own, the destination's, or the article
    reader's. *)
Inductive decErr := DYenc (e : yencErr) | DDst (e : E) | DRead (e : E).

(** What a decode returns: the header, the decoded count, the error; and the
    buffered destination, when one was opened. *)
Record decoded := MkDecoded {
  d_hdr : yencHeader;
  d_written : Z;
  d_err : option decErr;
  d_dst : option (bufWriter W decErr)
}.

Definition dwrite (p : bytes) (w : W) : (nat * option decErr) * W :=
  let '((n, e), w) := write p w in ((n, DDst <$> e), w).

Definition flush := bwFlush dwrite (DYenc errShort).
Definition bwrite := bwWrite dwrite (DYenc errShort) yencWriteBuf.

(** The destination callback: an error, or a writer. *)
Context (open : yencHeader -> result E W).

Definition bind (hdr : yencHeader) (dst : option (bufWriter W decErr)) :
    result decErr (bufWriter W decErr) :=
  match dst with
  | Some b => Ok b
  | None => match open hdr with Err e => Err (DDst e) | Ok w => Ok (MkBuf [] None w) end
  end.

(** The end of the stream: the scanner's error, or a truncated article. *)
Definition decode_eof (scanErr : option decErr) (hdr : yencHeader) (inBody : bool) (written : Z)
    (dst : option (bufWriter W decErr)) : decoded :=
  match scanErr with
  | Some e => MkDecoded hdr written (Some e) dst
  | None =>
      let dst := (fun b => (flush b).2) <$> dst in
      MkDecoded hdr written (Some (DYenc (if inBody then errNoYend else errNoYbegin))) dst
  end.

(** The =yend branch. *)
Definition decode_end (raw : bytes) (hdr : yencHeader) (inBody : bool) (written sum : Z)
    (dst : option (bufWriter W decErr)) : decoded :=
  if negb inBody then MkDecoded hdr written (Some (DYenc errEndWithoutBegin)) dst
  else
    match bind hdr dst with
    | Err e => MkDecoded hdr written (Some e) dst
    | Ok b =>
        match flush b with
        | (Some e, b) => MkDecoded hdr written (Some e) (Some b)
        | (None, b) =>
            MkDecoded hdr written (DYenc <$> verifyYencTrailer raw written sum (h_HasPart hdr)) (Some b)
        end
    end.

Fixpoint decode_loop (lines : list bytes) (scanErr : option decErr) (hdr : yencHeader) (inBody : bool)
    (written sum : Z) (dst : option (bufWriter W decErr)) : decoded :=
  match lines with
  | [] => decode_eof scanErr hdr inBody written dst
  | raw :: lines =>
      if HasPrefix raw ybeginTag then
        decode_loop lines scanErr (parseYbegin raw hdr) true written sum dst
      else if HasPrefix raw ypartTag then
        decode_loop lines scanErr (parseYpart raw (set_HasPart hdr)) inBody written sum dst
      else if HasPrefix raw yendTag then decode_end raw hdr inBody written sum dst
      else if negb inBody then decode_loop lines scanErr hdr inBody written sum dst
      else
        match bind hdr dst with
        | Err e => MkDecoded hdr written (Some e) dst
        | Ok b =>
            match decodeLine raw with
            | None => MkDecoded hdr written (Some (DYenc errEscapeAtEol)) (Some b)
            | Some out =>
                match bwrite out b with
                | (Some e, b) => MkDecoded hdr written (Some e) (Some b)
                | (None, b) =>
                    decode_loop lines scanErr hdr inBody (written + Z.of_nat (length out))
                      (crc32_update sum out) (Some b)
                end
            end
        end
  end.

(** decodeYenc on a stream whose reader ends with [rerr] (nil: end of file). *)
Definition decodeYenc (stream : bytes) (rerr : option E) : decoded :=
  let '(lines, tooLong) := scanLines yencMaxLine stream in
  let scanErr := if tooLong then Some (DYenc errTooLong) else DRead <$> rerr in
  decode_loop lines scanErr noHeader false 0 0 None.

End Decode.
Arguments decErr : clear implicits.
Arguments DYenc {E} e.
Arguments DDst {E} e.
Arguments DRead {E} e.
Arguments decoded : clear implicits.
Arguments MkDecoded {W E}.
Arguments d_hdr {W E}.
Arguments d_written {W E}.
Arguments d_err {W E}.
Arguments d_dst {W E}.

(** * A reference encoder *)

(** The bytes an encoder must escape. *)
Definition critical (e : Z) : bool := (e =? 0) || (e =? 10) || (e =? 13) || (e =? 61).

(** The bytes an encoder may escape: TAB, space and dot. *)
Definition optional (e : Z) : bool := (e =? 9) || (e =? 32) || (e =? 46).

(** One byte, with the encoder's choice where it has one. *)
Definition encodeByte (x : Z * bool) : bytes :=
  let e := uint8 (x.1 + 42) in
  if critical e || (optional e && x.2) then [61; uint8 (e + 64)] else [e].

Definition encodeLine (l : list (Z * bool)) : bytes := l ≫= encodeByte.

(** The part of the file an article carries, when it is one of several. *)
Record partRange := MkRange { pr_begin : Z; pr_end : Z }.

Definition ybeginLine (total : Z) (name : bytes) : bytes :=
  ybeginTag ++ bs " line=128 size=" ++ Itoa total ++ bs " name=" ++ name.

Definition ypartLine (r : partRange) : bytes :=
  ypartTag ++ bs " begin=" ++ Itoa (pr_begin r) ++ bs " end=" ++ Itoa (pr_end r).

Definition yendLine (n sum : Z) : bytes :=
  yendTag ++ bs " size=" ++ Itoa n ++ bs " pcrc32=" ++ FormatUint sum 16.

(** An article: headers, data lines, trailer. *)
Definition encodeArticle (total : Z) (name : bytes) (part : option partRange)
    (ls : list (list (Z * bool))) : list bytes :=
  let data := concat (map (map fst) ls) in
  ybeginLine total name :: (match part with Some r => [ypartLine r] | None => [] end) ++
  (encodeLine <$> ls) ++ [yendLine (Z.of_nat (length data)) (crc32_update 0 data)].

Definition articleHeader (total : Z) (part : option partRange) : yencHeader :=
  match part with
  | Some r => MkHdr total 0 (pr_begin r) (pr_end r) true
  | None => MkHdr total 0 0 0 false
  end.

(** * The headers and trailer the encoder writes *)

Lemma digits_token t : t <> [] -> Forall is_digit10 t -> token t.
Proof.
  intros Hne H. split; [done|]. eapply Forall_impl; [exact H|]. intros c Hc. unfold is_digit10 in Hc.
  unfold isSpace. destruct (9 <=? c) eqn:?, (c <=? 13) eqn:?, (c =? 32) eqn:?; bool_to_prop; try done; lia.
Qed.

Lemma Itoa_token n : 0 <= n -> token (Itoa n).
Proof.
  intros Hn. apply digits_token; [|by apply Itoa_digits]. unfold Itoa.
  destruct (n <? 0) eqn:?; bool_to_prop; [lia|]. unfold FormatUint.
  destruct (format_cons 64 10 n [] ltac:(lia)) as (c & l & ->). done.
Qed.

Lemma token_app a b : Forall (fun c => isSpace c = false) a -> token b -> token (a ++ b).
Proof.
  intros Ha [Hne Hb]. split; [|by apply Forall_app]. intros E. apply app_eq_nil in E as [_ ?]. done.
Qed.

(** One [key=value] field, once its key is known not to hold the separator. *)
Lemma Cut_field k v : 61 ∉ k -> Cut (k ++ 61 :: v) 61 = Some (k, v).
Proof. apply Cut_app. Qed.

Lemma parse_ybeginLine total name h :
  0 <= total < 2 ^ 63 -> parseYbegin (ybeginLine total name) h = set_Size total h.
Proof.
  intros Ht. unfold parseYbegin, ybeginLine. rewrite drop_app_length.
  change (bs " line=128 size=") with (32 :: bs "line=128" ++ 32 :: bs "size=").
  change (bs " name=") with (32 :: bs "name=").
  rewrite <- app_comm_cons, Fields_space, <- app_assoc, <- app_comm_cons.
  rewrite Fields_token by (split; [done|by repeat constructor]).
  rewrite <- app_comm_cons, app_assoc.
  rewrite Fields_token by (apply token_app; [by repeat constructor|apply Itoa_token; lia]).
  destruct (Fields_head (bs "name=") name) as (x & more & ->); [split; [done|by repeat constructor]|].
  change (bs "size=" ++ Itoa total) with (bs "size" ++ 61 :: Itoa total).
  change (bs "name=" ++ x) with (bs "name" ++ 61 :: x).
  change (bs "line=128") with (bs "line" ++ 61 :: bs "128").
  cbn [parseYbegin_fields]. rewrite !Cut_field by by_decide. cbn iota beta.
  rewrite ParseInt_Itoa by done. reflexivity.
Qed.

Lemma parse_ypartLine r h :
  0 <= pr_begin r < 2 ^ 63 -> 0 <= pr_end r < 2 ^ 63 ->
  parseYpart (ypartLine r) h = set_End (pr_end r) (set_Begin (pr_begin r) h).
Proof.
  intros Hb He. unfold parseYpart, ypartLine. rewrite drop_app_length.
  change (bs " begin=") with (32 :: bs "begin="). change (bs " end=") with (32 :: bs "end=").
  rewrite <- !app_comm_cons, Fields_space, app_assoc.
  rewrite Fields_token by (apply token_app; [by repeat constructor|apply Itoa_token; lia]).
  rewrite Fields_last by (apply token_app; [by repeat constructor|apply Itoa_token; lia]).
  change (bs "begin=" ++ ?v) with (bs "begin" ++ 61 :: v). change (bs "end=" ++ ?v) with (bs "end" ++ 61 :: v).
  cbn [parseYpart_fields]. rewrite !Cut_field by by_decide. cbn iota beta.
  rewrite !ParseInt_Itoa by done. reflexivity.
Qed.

Lemma FormatUint_nospace fuel n acc :
  0 <= n -> Forall (fun c => isSpace c = false) acc ->
  Forall (fun c => isSpace c = false) (format_loop fuel 16 n acc).
Proof.
  revert n acc. induction fuel as [|fuel IH]; intros n acc Hn Ha; [done|]. cbn [format_loop].
  pose proof (Z.mod_pos_bound n 16 ltac:(lia)).
  assert (Forall (fun c => isSpace c = false) (digitChar (n mod 16) :: acc)).
  { constructor; [|done]. unfold isSpace, digitChar.
    destruct (_ <? 10) eqn:?; bool_to_prop;
    match goal with |- context [9 <=? ?c] => destruct (9 <=? c) eqn:?, (c <=? 13) eqn:?, (c =? 32) eqn:? end;
      bool_to_prop; try done; lia. }
  destruct (n <? 16); [done|]. apply IH; [apply Z.div_pos; lia|done].
Qed.

Lemma verify_yendLine n sum mp :
  0 <= n < 2 ^ 63 -> 0 <= sum < 2 ^ 32 -> verifyYencTrailer (yendLine n sum) n sum mp = None.
Proof.
  intros Hn Hs. unfold verifyYencTrailer, yendLine.
  change (bs " size=") with (32 :: bs "size="). change (bs " pcrc32=") with (32 :: bs "pcrc32=").
  rewrite <- !app_comm_cons, Fields_token by (split; [done|by repeat constructor]).
  rewrite app_assoc. rewrite Fields_token by (apply token_app; [by repeat constructor|apply Itoa_token; lia]).
  destruct (format_cons 64 16 sum [] ltac:(lia)) as (c & l & E).
  rewrite Fields_last.
  2: { apply token_app; [by repeat constructor|]. split.
       - unfold FormatUint. by rewrite E.
       - apply FormatUint_nospace; [lia|constructor]. }
  change (bs "size=" ++ ?v) with (bs "size" ++ 61 :: v).
  change (bs "pcrc32=" ++ ?v) with (bs "pcrc32" ++ 61 :: v).
  cbn [drop trailer_fields]. rewrite !Cut_field by by_decide. cbn iota beta.
  rewrite ParseInt_Itoa by done. rewrite bool_decide_true by done. rewrite Z.eqb_refl.
  rewrite bool_decide_false by done. rewrite bool_decide_true by done.
  assert (Hp := ParseUint_FormatUint sum 16 32 ltac:(lia) Hs ltac:(lia)).
  unfold FormatUint in *. rewrite E in *. rewrite Hp.
  unfold uint32, wrapU. rewrite Z.mod_small by lia. by rewrite Z.eqb_refl.
Qed.

(** * What is accepted *)

(** The data an article's lines carry: every data line between the first
    =ybegin and the =yend, decoded. *)
Fixpoint payload (lines : list bytes) (inBody : bool) : option bytes :=
  match lines with
  | [] => None
  | raw :: lines =>
      if HasPrefix raw ybeginTag then payload lines true
      else if HasPrefix raw ypartTag then payload lines inBody
      else if HasPrefix raw yendTag then (if inBody then Some [] else None)
      else if negb inBody then payload lines false
      else
        match decodeLine raw, payload lines true with
        | Some a, Some b => Some (a ++ b)
        | _, _ => None
        end
  end.

Section DecodeSpec.
Context {W E : Type} (write : bytes -> W -> (nat * option E) * W) (out : W -> bytes)
  (open : yencHeader -> result E W).
Hypothesis write_ok : forall p w,
  ((write p w).1.1 <= length p)%nat /\ out (write p w).2 = out w ++ take (write p w).1.1 p /\
  ((write p w).1.2 = None -> (write p w).1.1 = length p).

Lemma dwrite_ok p w :
  ((dwrite write p w).1.1 <= length p)%nat /\
  out (dwrite write p w).2 = out w ++ take (dwrite write p w).1.1 p /\
  ((dwrite write p w).1.2 = None -> (dwrite write p w).1.1 = length p).
Proof.
  unfold dwrite. pose proof (write_ok p w) as H. destruct (write p w) as [[n [e|]] w']; cbn in *; naive_solver.
Qed.

(** The destination holds what was decoded so far, some of it still buffered. *)
Definition dst_ok (dst : option (bufWriter W (decErr E))) (data : bytes) : Prop :=
  match dst with
  | None => data = []
  | Some b =>
      bw_err b = None /\ (length (bw_buf b) <= yencWriteBuf)%nat /\
      exists h w, open h = Ok w /\ bw_all out b = out w ++ data
  end.

Lemma bind_ok hdr dst data b :
  dst_ok dst data -> bind open hdr dst = Ok b -> dst_ok (Some b) data.
Proof.
  unfold bind. destruct dst as [b0|]; [by intros ? [= <-]|]. intros ->.
  destruct (open hdr) as [w|] eqn:Hw; [|done]. intros [= <-].
  split; [done|]. split; [cbn; lia|]. exists hdr, w. split; [done|]. reflexivity.
Qed.

Lemma bwrite_ok b data p b' :
  dst_ok (Some b) data -> bwrite write p b = (None, b') -> dst_ok (Some b') (data ++ p).
Proof.
  intros (He & Hb & h & w & Hw & Hall) H.
  destruct (bwWrite_spec (dwrite write) (DYenc errShort) out dwrite_ok yencWriteBuf ltac:(unfold yencWriteBuf; lia) p b Hb) as (H1 & H2 & _ & H4).
  unfold bwrite in H. rewrite H in *. cbn [fst snd] in *.
  split; [done|]. split; [done|]. exists h, w. split; [done|]. by rewrite H4, Hall, app_assoc.
Qed.

Lemma flush_ok b data b' :
  dst_ok (Some b) data -> flush write b = (None, b') ->
  dst_ok (Some b') data /\ out (bw_dst b') = bw_all out b'.
Proof.
  intros (He & Hb & h & w & Hw & Hall) H.
  destruct (bwFlush_spec (dwrite write) (DYenc errShort) out dwrite_ok b) as (H1 & H2 & H3 & H4).
  unfold flush in H. rewrite H in *. cbn [fst snd] in *. split.
  - split; [done|]. split; [lia|]. exists h, w. split; [done|]. by rewrite H1.
  - unfold bw_all. by rewrite H3, app_nil_r.
Qed.

(** An accepted article: everything its lines carry is in the destination, and
    its trailer vouches for the length and the checksum of exactly that. *)
Definition accepted (lines : list bytes) (inBody : bool) (before : bytes) (r : decoded W E) : Prop :=
  exists b h w data trailer,
    payload lines inBody = Some data /\ d_dst r = Some b /\ open h = Ok w /\
    out (bw_dst b) = out w ++ before ++ data /\
    d_written r = Z.of_nat (length (before ++ data)) /\
    trailer ∈ lines /\ HasPrefix trailer yendTag = true /\
    verifyYencTrailer trailer (Z.of_nat (length (before ++ data))) (crc32_update 0 (before ++ data))
      (h_HasPart (d_hdr r)) = None.

Lemma accepted_cons raw lines inBody before r :
  payload (raw :: lines) inBody = payload lines inBody ->
  accepted lines inBody before r -> accepted (raw :: lines) inBody before r.
Proof.
  intros Hp (b & h & w & data & t & H1 & H2 & H3 & H4 & H5 & H6 & H7 & H8).
  exists b, h, w, data, t. rewrite Hp. split_and!; try done. by right.
Qed.

Lemma decode_loop_sound lines scanErr hdr inBody dst before :
  dst_ok dst before ->
  let r := decode_loop write open lines scanErr hdr inBody (Z.of_nat (length before))
             (crc32_update 0 before) dst in
  d_err r = None -> accepted lines inBody before r.
Proof.
  revert hdr inBody dst before. induction lines as [|raw lines IH]; intros hdr inBody dst before Hd r Hr.
  { unfold r in Hr. cbn in Hr. unfold decode_eof in Hr. by destruct scanErr. }
  unfold r in *. cbn [decode_loop] in *.
  destruct (HasPrefix raw ybeginTag) eqn:Hyb.
  { destruct (IH _ true dst before Hd Hr) as (b & h & w & data & t & H1 & H2 & H3 & H4 & H5 & H6 & H7 & H8).
    exists b, h, w, data, t. cbn [payload]. rewrite Hyb. split_and!; try done. by right. }
  destruct (HasPrefix raw ypartTag) eqn:Hyp.
  { apply accepted_cons; [cbn [payload]; by rewrite Hyb, Hyp|]. by apply IH. }
  destruct (HasPrefix raw yendTag) eqn:Hye.
  { unfold decode_end in *. destruct inBody; [|done]. cbn [negb] in *.
    destruct (bind open hdr dst) as [b|e] eqn:Hbind; [|done].
    pose proof (bind_ok _ _ _ _ Hd Hbind) as Hb.
    destruct (flush write b) as [[e|] b'] eqn:Hf; [done|].
    destruct (flush_ok _ _ _ Hb Hf) as ((_ & _ & h & w & Hw & Hall) & Hout). cbn [d_err] in Hr.
    exists b', h, w, [], raw. cbn [payload d_dst d_written d_hdr]. rewrite Hyb, Hyp, Hye, app_nil_r.
    split_and!; try done; [by rewrite Hout|left|].
    by destruct (verifyYencTrailer raw _ _ _). }
  destruct inBody; cbn [negb] in *.
  2: { apply accepted_cons; [cbn [payload]; by rewrite Hyb, Hyp, Hye|]. by apply IH. }
  destruct (bind open hdr dst) as [b|e] eqn:Hbind; [|done].
  destruct (decodeLine raw) as [o|] eqn:Hdl; [|done].
  destruct (bwrite write o b) as [[e|] b'] eqn:Hw; [done|].
  pose proof (bwrite_ok _ _ _ _ (bind_ok _ _ _ _ Hd Hbind) Hw) as Hb'.
  rewrite crc32_update_app in *. replace (Z.of_nat (length before) + Z.of_nat (length o))
    with (Z.of_nat (length (before ++ o))) in * by (rewrite length_app; lia).
  destruct (IH hdr true (Some b') (before ++ o) Hb' Hr) as (b2 & h & w & data & t & H1 & H2 & H3 & H4 & H5 & H6 & H7 & H8).
  exists b2, h, w, (o ++ data), t. cbn [payload]. rewrite Hyb, Hyp, Hye, Hdl, H1.
  rewrite (app_assoc before o data). split_and!; try done. by right.
Qed.

End DecodeSpec.

(** * Encoded lines *)

(** What one encoded byte looks like: decodes back, breaks no line, and cannot
    be mistaken for a header. *)
Definition encoded_ok (x : Z * bool) : bool :=
  match encodeByte x with
  | [e] => negb (e =? 61) && negb (e =? 10) && negb (e =? 13) && (uint8 (e - 42) =? x.1)
  | [c; e] => (c =? 61) && negb (e =? 10) && negb (e =? 13) && negb (e =? 121) &&
              (uint8 (e - 64 - 42) =? x.1)
  | _ => false
  end.

Lemma encoded_all :
  forallb (fun b => encoded_ok (b, true) && encoded_ok (b, false)) (seqZ 0 256) = true.
Proof. vm_compute. reflexivity. Qed.

Lemma encoded_byte x : is_byte x.1 -> encoded_ok x = true.
Proof.
  destruct x as [b f]. intros Hb. pose proof (proj1 (forallb_forall _ _) encoded_all b) as H.
  rewrite <- list_elem_of_In, elem_of_seqZ in H. unfold is_byte in Hb. cbn in Hb.
  apply andb_true_iff in H as [? ?]; [|lia]. by destruct f.
Qed.

(** An encoded byte is one plain byte or an escape pair. *)
Lemma encodeByte_cases x :
  is_byte x.1 ->
  (exists e, encodeByte x = [e] /\ e <> 61 /\ e <> 10 /\ e <> 13 /\ uint8 (e - 42) = x.1) \/
  (exists e, encodeByte x = [61; e] /\ e <> 10 /\ e <> 13 /\ e <> 121 /\ uint8 (e - 64 - 42) = x.1).
Proof.
  intros Hx%encoded_byte. unfold encoded_ok in Hx.
  destruct (encodeByte x) as [|e [|e' [|]]]; try done; bool_to_prop; [left|right]; subst; eauto 7.
Qed.

Lemma encodeLine_cons x l : encodeLine (x :: l) = encodeByte x ++ encodeLine l.
Proof. done. Qed.

Lemma decodeLine_encodeLine l :
  Forall (fun x => is_byte x.1) l -> decodeLine (encodeLine l) = Some (map fst l).
Proof.
  induction 1 as [|x l Hx _ IH]; [done|]. rewrite encodeLine_cons.
  destruct (encodeByte_cases x Hx) as [(e & -> & Hne & _ & _ & Hd)|(e & -> & _ & _ & _ & Hd)]; cbn [app decodeLine].
  - destruct (e =? 61) eqn:?; bool_to_prop; [done|]. by rewrite IH, Hd.
  - cbn [Z.eqb Pos.eqb]. by rewrite IH, Hd.
Qed.

Lemma encodeLine_nobreak l c :
  Forall (fun x => is_byte x.1) l -> c = 10 \/ c = 13 -> c ∉ encodeLine l.
Proof.
  intros Hl Hc. induction Hl as [|x l Hx _ IH]; [apply not_elem_of_nil|].
  rewrite encodeLine_cons, elem_of_app. intros [Hin|]; [|done].
  destruct (encodeByte_cases x Hx) as [(e & Hb & ? & ? & ? & _)|(e & Hb & ? & ? & ? & _)]; rewrite Hb in Hin;
    rewrite !elem_of_cons, elem_of_nil in Hin; destruct Hc; subst; naive_solver lia.
Qed.

(** No data line starts like a header: their second byte would be a 'y'. *)
Lemma encodeLine_notag l tag :
  Forall (fun x => is_byte x.1) l -> HasPrefix (encodeLine l) (61 :: 121 :: tag) = false.
Proof.
  intros Hl. destruct Hl as [|x l Hx _]; [done|]. rewrite encodeLine_cons.
  destruct (encodeByte_cases x Hx) as [(e & -> & Hne & _)|(e & -> & _ & _ & Hne & _)]; cbn [app HasPrefix].
  - destruct (61 =? e) eqn:?; bool_to_prop; [congruence|done].
  - destruct (121 =? e) eqn:?; bool_to_prop; [congruence|]. by rewrite andb_false_r.
Qed.

Lemma encodeLine_tags l :
  Forall (fun x => is_byte x.1) l ->
  HasPrefix (encodeLine l) ybeginTag = false /\ HasPrefix (encodeLine l) ypartTag = false /\
  HasPrefix (encodeLine l) yendTag = false.
Proof.
  intros Hl. split_and!.
  - exact (encodeLine_notag l (bs "begin") Hl).
  - exact (encodeLine_notag l (bs "part") Hl).
  - exact (encodeLine_notag l (bs "end") Hl).
Qed.

(** * Decoding what the encoder wrote *)

Section RoundTrip.
Context {W E : Type} (write : bytes -> W -> (nat * option E) * W) (out : W -> bytes)
  (open : yencHeader -> result E W).
Hypothesis write_ok : forall p w,
  ((write p w).1.1 <= length p)%nat /\ out (write p w).2 = out w ++ take (write p w).1.1 p /\
  ((write p w).1.2 = None -> (write p w).1.1 = length p).
(** A destination that does not fail while what it holds is within [room]; [okw]
    is what it keeps true of itself. *)
Context (okw : W -> Prop) (room : bytes -> Prop).
Hypothesis okw_write : forall p w, okw w -> okw (write p w).2.
Hypothesis room_prefix : forall a b, room (a ++ b) -> room a.
Hypothesis write_room : forall p w, p <> [] -> okw w -> room (out w ++ p) -> (write p w).1.2 = None.

Lemma dwrite_room p w : p <> [] -> okw w ->
  okw (dwrite write p w).2 /\ (room (out w ++ p) -> (dwrite write p w).1.2 = None).
Proof.
  intros Hp Hk. unfold dwrite. pose proof (write_room p w Hp Hk) as Hn. pose proof (okw_write p w Hk) as Hk'.
  destruct (write p w) as [[n e] w']. cbn in *. split; [done|]. intros Hr. by rewrite Hn.
Qed.

Lemma flush_room b : okw (bw_dst b) ->
  okw (bw_dst (flush write b).2) /\ (bw_err b = None -> room (bw_all out b) -> (flush write b).1 = None).
Proof.
  intros Hk. unfold flush, bwFlush, bw_all. destruct (bw_err b); [done|]. destruct (bw_buf b) as [|c buf]; [done|].
  destruct (dwrite_room (c :: buf) (bw_dst b) ltac:(done) Hk) as [Hk' Hn].
  destruct (dwrite_ok write out write_ok (c :: buf) (bw_dst b)) as (_ & _ & Hfull).
  destruct (dwrite write (c :: buf) (bw_dst b)) as [[n e] w]. cbn [fst snd] in *. destruct e as [e|].
  - cbn. split; [done|]. intros _ Hr. by specialize (Hn Hr).
  - rewrite Hfull by done. rewrite Nat.ltb_irrefl. done.
Qed.

Lemma bwrite_room p b : okw (bw_dst b) ->
  okw (bw_dst (bwrite write p b).2) /\ (bw_err b = None -> room (bw_all out b ++ p) -> (bwrite write p b).1 = None).
Proof.
  unfold bwrite, bwWrite. generalize (S (S (length p))) as fuel. intros fuel. revert p b.
  induction fuel as [|fuel IH]; intros p b Hk; [done|]. cbn [bwWrite_loop]. destruct (bw_err b) as [e|]; [done|].
  destruct (Nat.ltb_spec (yencWriteBuf - length (bw_buf b)) (length p)) as [Hp|]; [|done].
  assert (p <> []) as Hne by (intros ->; cbn in Hp; lia). destruct (bw_buf b) as [|c buf] eqn:Hbuf.
  - destruct (dwrite_room p (bw_dst b) Hne Hk) as [Hk' Hn]. destruct (dwrite_ok write out write_ok p (bw_dst b)) as (_ & Ho & _).
    destruct (dwrite write p (bw_dst b)) as [[n e] w] eqn:Ew. cbn [fst snd] in *.
    destruct (IH (drop n p) (MkBuf [] e w) Hk') as [Hk2 Hn2]. split; [exact Hk2|]. intros _ Hr. apply Hn2.
    + apply Hn. unfold bw_all in Hr. by rewrite Hbuf, app_nil_r in Hr.
    + unfold bw_all in *. cbn. by rewrite Hbuf, app_nil_r in Hr; rewrite app_nil_r, Ho, <- app_assoc, take_drop.
  - set (n := (yencWriteBuf - length (c :: buf))%nat).
    set (b1 := MkBuf ((c :: buf) ++ take n p) None (bw_dst b)).
    destruct (flush_room b1 Hk) as [Hk1 Hn1].
    destruct (bwFlush_spec (dwrite write) (DYenc errShort) out (dwrite_ok write out write_ok) b1) as (Hall & Herr & _).
    destruct (IH (drop n p) (bwFlush (dwrite write) (DYenc errShort) b1).2 Hk1) as [Hk2 Hn2]. split; [exact Hk2|].
    assert (bw_all out b1 ++ drop n p = bw_all out b ++ p) as Ha.
    { unfold bw_all, b1. cbn [bw_dst bw_buf]. by rewrite Hbuf, <- !app_assoc, take_drop. }
    intros _ Hr. rewrite <- Ha in Hr. apply Hn2.
    + rewrite Herr. apply Hn1; [done|]. by apply room_prefix in Hr.
    + by rewrite Hall.
Qed.

(** The first data line, or the trailer, finds the destination bound. *)
Lemma bind_first hdr dst w before :
  open hdr = Ok w -> okw w -> dst_ok out open dst before ->
  (forall b, dst = Some b -> okw (bw_dst b) /\ bw_all out b = out w ++ before) ->
  exists b, bind open hdr dst = Ok b /\ dst_ok out open (Some b) before /\ okw (bw_dst b) /\
    bw_all out b = out w ++ before.
Proof.
  intros Hw Hk Hd Hdst. destruct dst as [b|].
  - exists b. cbn. destruct (Hdst b eq_refl). eauto.
  - cbn in Hd. subst. cbn. rewrite Hw. eexists. split; [done|]. split; [|done].
    split; [done|]. split; [cbn; lia|]. exists hdr, w. done.
Qed.

(** The data lines, then the trailer. *)
Lemma decode_data ls trailer hdr w dst before :
  Forall (Forall (fun x => is_byte x.1)) ls -> open hdr = Ok w -> okw w ->
  dst_ok out open dst before -> (forall b, dst = Some b -> okw (bw_dst b) /\ bw_all out b = out w ++ before) ->
  HasPrefix trailer yendTag = true -> HasPrefix trailer ybeginTag = false ->
  HasPrefix trailer ypartTag = false ->
  let data := before ++ concat (map (map fst) ls) in
  room (out w ++ data) ->
  let r := decode_loop write open ((encodeLine <$> ls) ++ [trailer]) None hdr true
             (Z.of_nat (length before)) (crc32_update 0 before) dst in
  d_hdr r = hdr /\ d_written r = Z.of_nat (length data) /\
  d_err r = DYenc <$> verifyYencTrailer trailer (Z.of_nat (length data)) (crc32_update 0 data) (h_HasPart hdr) /\
  exists b, d_dst r = Some b /\ out (bw_dst b) = out w ++ data.
Proof.
  intros Hls Hw Hk. revert dst before. induction Hls as [|l ls Hl _ IH]; intros dst before Hd Hdst Ht1 Ht2 Ht3.
  - cbn [fmap list_fmap app map concat decode_loop]. rewrite Ht1, Ht2, Ht3. cbn zeta. rewrite app_nil_r. intros Hroom.
    unfold decode_end. cbn [negb].
    destruct (bind_first hdr dst w before Hw Hk Hd Hdst) as (b & -> & Hb & Hkb & Hall).
    assert ((flush write b).1 = None) as Hf by (apply flush_room; [done|apply Hb|by rewrite Hall]).
    destruct (flush write b) as [o b'] eqn:Efl. cbn in Hf. subst o.
    destruct (flush_ok write out open write_ok _ _ _ Hb Efl) as [Hb' Hout].
    cbn. split_and!; try done. exists b'. split; [done|]. rewrite Hout.
    destruct (bwFlush_spec (dwrite write) (DYenc errShort) out (dwrite_ok write out write_ok) b) as (Hsame & _).
    unfold flush in Efl. rewrite Efl in Hsame. cbn in Hsame. by rewrite Hsame.
  - cbn [fmap list_fmap app map concat decode_loop]. cbn zeta. intros Hroom.
    destruct (encodeLine_tags l Hl) as (-> & -> & ->). cbn [negb].
    destruct (bind_first hdr dst w before Hw Hk Hd Hdst) as (b & -> & Hb & Hkb & Hall).
    rewrite decodeLine_encodeLine by done. destruct (bwrite_room (map fst l) b Hkb) as [Hkb' Hf].
    specialize (Hf (proj1 Hb)). rewrite Hall in Hf.
    specialize (Hf ltac:(apply (room_prefix _ (concat (map (map fst) ls))); by rewrite <- !app_assoc in *)).
    destruct (bwrite write (map fst l) b) as [o b'] eqn:Ebw. cbn in Hf, Hkb'. subst o.
    pose proof (bwrite_ok write out open write_ok _ _ _ _ Hb Ebw) as Hb'.
    rewrite crc32_update_app. replace (Z.of_nat (length before) + Z.of_nat (length (map fst l)))
      with (Z.of_nat (length (before ++ map fst l))) by (rewrite length_app; lia).
    rewrite (app_assoc before (map fst l)). apply IH; try done; [|by rewrite <- (app_assoc before)]. intros b0 [= <-].
    split; [done|]. destruct (bwWrite_spec (dwrite write) (DYenc errShort) out (dwrite_ok write out write_ok) yencWriteBuf
      ltac:(unfold yencWriteBuf; lia) (map fst l) b) as (_ & _ & _ & H4); [apply Hb|].
    unfold bwrite in Ebw. rewrite Ebw in H4. cbn [fst snd] in H4. by rewrite H4, Hall, app_assoc.
Qed.

End RoundTrip.

(** * The lines of an article survive the scanner *)

Lemma token_clean t : token t -> clean t.
Proof. intros [_ H]. by apply nospace_clean. Qed.

Lemma Itoa_clean n : 0 <= n -> clean (Itoa n).
Proof. intros. by apply token_clean, Itoa_token. Qed.

#[local] Ltac clean_line :=
  repeat (apply clean_app; split);
  match goal with
  | |- clean (Itoa _) => apply Itoa_clean; lia
  | |- clean (FormatUint _ _) => apply nospace_clean, FormatUint_nospace; [lia|constructor]
  | |- clean (bs _) => by repeat constructor
  | |- clean ybeginTag => by repeat constructor
  | |- clean ypartTag => by repeat constructor
  | |- clean yendTag => by repeat constructor
  | _ => try done
  end.

(** An article the codec can carry: bytes, 63-bit sizes, a name on one line, and
    lines below the scanner's limit. *)
Record encodable (total : Z) (name : bytes) (part : option partRange) (ls : list (list (Z * bool))) : Prop := {
  en_bytes : Forall (Forall (fun x => is_byte x.1)) ls;
  en_total : 0 <= total < 2 ^ 63;
  en_part : forall r, part = Some r -> 0 <= pr_begin r < 2 ^ 63 /\ 0 <= pr_end r < 2 ^ 63;
  en_len : Z.of_nat (length (concat (map (map fst) ls))) < 2 ^ 63;
  en_name : clean name /\ Z.of_nat (length name) < 100000;
  en_lines : Forall (fun l => 2 * Z.of_nat (length l) < 260000) ls
}.

Lemma encodeLine_length l : (length (encodeLine l) <= 2 * length l)%nat.
Proof.
  induction l as [|x l IH]; [done|]. rewrite encodeLine_cons, length_app. cbn [length].
  assert (length (encodeByte x) <= 2)%nat; [|lia]. unfold encodeByte. destruct (_ || _); simpl; lia.
Qed.

Lemma encodeArticle_scannable total name part ls :
  encodable total name part ls -> Forall (scannable yencMaxLine) (encodeArticle total name part ls).
Proof.
  intros H. destruct (en_name _ _ _ _ H) as [Hname Hnl]. pose proof (en_total _ _ _ _ H) as Ht.
  assert (Hmax : Z.of_nat yencMaxLine = 262144) by (unfold yencMaxLine; by rewrite N_nat_Z).
  unfold encodeArticle. constructor; [|apply Forall_app; split; [|apply Forall_app; split]].
  - apply clean_scannable; [unfold ybeginLine; clean_line|]. unfold ybeginLine.
    rewrite !length_app. pose proof (Itoa_length total ltac:(lia)). simpl length. lia.
  - destruct part as [r|]; [|constructor]. destruct (en_part _ _ _ _ H r eq_refl). constructor; [|constructor].
    apply clean_scannable; [unfold ypartLine; clean_line|]. unfold ypartLine.
    pose proof (Itoa_length (pr_begin r) ltac:(lia)). pose proof (Itoa_length (pr_end r) ltac:(lia)).
    rewrite !length_app. simpl length. lia.
  - apply Forall_fmap, Forall_forall. intros l Hl.
    pose proof (proj1 (Forall_forall _ _) (en_bytes _ _ _ _ H) l Hl) as Hb.
    pose proof (proj1 (Forall_forall _ _) (en_lines _ _ _ _ H) l Hl) as Hlen.
    pose proof (encodeLine_length l). cbn in *. split; [by apply encodeLine_nobreak; [|left]|].
    split; [|lia]. intros Hc%last_Some_elem_of.
    revert Hc. by apply encodeLine_nobreak; [|right].
  - constructor; [|constructor]. set (sum := crc32_update 0 _).
    assert (0 <= sum < 2 ^ 32) as Hsum.
    { apply crc32_update_range; [lia|]. apply Forall_concat, Forall_map.
      eapply Forall_impl; [apply (en_bytes _ _ _ _ H)|]. intros l Hl. by apply Forall_map. }
    apply clean_scannable.
    + unfold yendLine. clean_line.
    + unfold yendLine. rewrite !length_app. pose proof (Itoa_length (Z.of_nat (length (concat (map (map fst) ls)))) ltac:(lia)).
      pose proof (FormatUint_length sum 16). simpl length. lia.
Qed.

Lemma parse_article_headers total name part :
  0 <= total < 2 ^ 63 ->
  (forall r, part = Some r -> 0 <= pr_begin r < 2 ^ 63 /\ 0 <= pr_end r < 2 ^ 63) ->
  parseYbegin (ybeginLine total name) noHeader = articleHeader total None /\
  forall r, part = Some r ->
    parseYpart (ypartLine r) (set_HasPart (articleHeader total None)) = articleHeader total part.
Proof.
  intros Ht Hp. rewrite parse_ybeginLine by done. split; [done|]. intros r ->.
  destruct (Hp r eq_refl). by rewrite parse_ypartLine.
Qed.

(** The loop over a whole encoded article. *)
Lemma decode_article {W E} write out open (okw : W -> Prop) (room : bytes -> Prop) (w : W) total name part ls :
  (forall p w, ((write p w).1.1 <= length p)%nat /\ out (write p w).2 = out w ++ take (write p w).1.1 p /\
     ((write p w).1.2 = None -> (write p w).1.1 = length p)) ->
  (forall p w, okw w -> okw (write p w).2) -> (forall a b, room (a ++ b) -> room a) ->
  (forall p w, p <> [] -> okw w -> room (out w ++ p) -> (write p w).1.2 = @None E) ->
  encodable total name part ls -> open (articleHeader total part) = Ok w -> okw w ->
  let data := concat (map (map fst) ls) in
  room (out w ++ data) ->
  let r := decode_loop write open (encodeArticle total name part ls) None noHeader false 0 0 None in
  d_err r = None /\ d_hdr r = articleHeader total part /\ d_written r = Z.of_nat (length data) /\
  exists b, d_dst r = Some b /\ out (bw_dst b) = out w ++ data.
Proof.
  intros Hw1 Hw2 Hw3 Hw4 Hen Ho Hk data Hroom.
  destruct (parse_article_headers total name part) as [Hb Hpart]; [apply Hen|apply Hen|].
  assert (Hsum : 0 <= crc32_update 0 data < 2 ^ 32).
  { apply crc32_update_range; [lia|]. apply Forall_concat, Forall_map.
    eapply Forall_impl; [apply (en_bytes _ _ _ _ Hen)|]. intros l Hl. by apply Forall_map. }
  assert (Hdata : forall hdr, hdr = articleHeader total part ->
    let r := decode_loop write open ((encodeLine <$> ls) ++
      [yendLine (Z.of_nat (length data)) (crc32_update 0 data)]) None hdr true 0 0 None in
    d_err r = None /\ d_hdr r = articleHeader total part /\ d_written r = Z.of_nat (length data) /\
    exists b, d_dst r = Some b /\ out (bw_dst b) = out w ++ data).
  { intros hdr ->.
    pose proof (decode_data write out open Hw1 okw room Hw2 Hw3 Hw4 ls (yendLine (Z.of_nat (length data)) (crc32_update 0 data))
      (articleHeader total part) w None [] (en_bytes _ _ _ _ Hen) Ho Hk eq_refl ltac:(done)
      ltac:(apply HasPrefix_app) eq_refl eq_refl Hroom) as (E1 & E2 & E3 & E4).
    cbn zeta in *. rewrite app_nil_l in *. fold data in E1, E2, E3, E4.
    rewrite verify_yendLine in E3 by (split; [lia|apply Hen] || done). done. }
  unfold encodeArticle. fold data. cbn [decode_loop].
  assert (HasPrefix (ybeginLine total name) ybeginTag = true) as -> by apply HasPrefix_app.
  rewrite Hb. destruct part as [r|]; cbn [app].
  - cbn [decode_loop].
    assert (HasPrefix (ypartLine r) ybeginTag = false) as -> by reflexivity.
    assert (HasPrefix (ypartLine r) ypartTag = true) as -> by apply HasPrefix_app.
    rewrite (Hpart r eq_refl). by apply Hdata.
  - by apply Hdata.
Qed.

(** * Properties *)


(** C18: decoding an encoded article gives back its header and exactly its data,
    wherever the encoder breaks the lines, whichever optional bytes it escapes,
    and whether lines end in LF or CR LF. *)
Theorem decodeYenc_roundtrip {W E} (write : bytes -> W -> (nat * option E) * W) (out : W -> bytes) open
    (w : W) crlf total name part ls :
  (forall p w, ((write p w).1.1 <= length p)%nat /\ out (write p w).2 = out w ++ take (write p w).1.1 p /\
     ((write p w).1.2 = None -> (write p w).1.1 = length p)) ->
  (forall p w, (write p w).1.2 = None) ->
  encodable total name part ls -> open (articleHeader total part) = Ok w ->
  let data := concat (map (map fst) ls) in
  let r := decodeYenc write open (joinLines crlf (encodeArticle total name part ls)) None in
  d_err r = None /\ d_hdr r = articleHeader total part /\ d_written r = Z.of_nat (length data) /\
  exists b, d_dst r = Some b /\ out (bw_dst b) = out w ++ data.
Proof.
  intros Hw1 Hw2 Hen Ho data r. unfold r, decodeYenc.
  rewrite scanLines_joinLines by (by apply encodeArticle_scannable).
  by apply (decode_article write out open (fun _ => True) (fun _ => True)).
Qed.

(** ** Witnesses *)

Definition wit_sink (p : bytes) (w : bytes) : (nat * option unit) * bytes := ((length p, None), w ++ p).

Lemma wit_sink_ok p w :
  ((wit_sink p w).1.1 <= length p)%nat /\ id (wit_sink p w).2 = id w ++ take (wit_sink p w).1.1 p /\
  ((wit_sink p w).1.2 = None -> (wit_sink p w).1.1 = length p).
Proof. cbn. rewrite firstn_all. done. Qed.

(** Two lines with an escaped '=' (byte 19), a NUL (214) and a TAB (223) in them. *)
Definition wit_lines : list (list (Z * bool)) := [[(1, false); (19, false); (214, false)]; [(223, true); (104, false)]].

Definition wit_stream : bytes :=
  joinLines true (encodeArticle 20 (bs "my file.bin") (Some (MkRange 1 5)) wit_lines).

Lemma wit_encodable : encodable 20 (bs "my file.bin") (Some (MkRange 1 5)) wit_lines.
Proof.
  split.
  - repeat constructor; done.
  - lia.
  - intros r [= <-]. cbn. lia.
  - cbn. lia.
  - split; [by repeat constructor|cbn; lia].
  - repeat constructor; cbn; lia.
Qed.

Lemma decodeYenc_roundtrip_witness :
  d_err (decodeYenc wit_sink (fun _ => Ok []) wit_stream None) = None /\
  d_written (decodeYenc wit_sink (fun _ => Ok []) wit_stream None) = 5.
Proof.
  destruct (decodeYenc_roundtrip wit_sink id (fun _ => Ok []) [] true 20 (bs "my file.bin")
    (Some (MkRange 1 5)) wit_lines wit_sink_ok ltac:(done) wit_encodable eq_refl) as (H1 & _ & H3 & _).
  split; [exact H1|exact H3].
Defined.

Lemma wit_decodes : d_err (decodeYenc wit_sink (fun _ => Ok []) wit_stream None) = None.
Proof. vm_compute. reflexivity. Qed.

