(* ===== verification/Extents.v ===== *)
(** The covered-range bookkeeping of a progressive download: sorted, disjoint,
    merged half-open byte ranges (internal/nzb/assembly.go, extent,
    addCoveredLocked, runIndexLocked).

    The set is specified by membership: adding a range adds exactly its bytes
    and keeps the representation canonical; a run lookup is a membership test
    whose answer ends where the contiguous run ends. *)

From S2P Require Import Prelude.

(** * sort.Search *)

(** Go's binary search; [fuel] is the length of the interval. *)
Fixpoint search_loop (fuel : nat) (f : nat -> bool) (i j : nat) : nat :=
  match fuel with
  | O => i
  | S fuel =>
      if (i <? j)%nat then
        let h := Nat.div2 (i + j) in
        if f h then search_loop fuel f i h else search_loop fuel f (S h) j
      else i
  end.

Definition Search (n : nat) (f : nat -> bool) : nat := search_loop (S n) f 0 n.

(** * Extents *)

(** A half-open byte range. *)
Record extent := MkExt { e_start : Z; e_end : Z }.

(** The extent at an index the caller knows to be in range. *)
Definition ext_at (s : list extent) (i : nat) : extent := default (MkExt 0 0) (s !! i).

(** runIndexLocked: [None] is the code's -1. *)
Definition runIndex (s : list extent) (off : Z) : option nat :=
  let i := Search (length s) (fun i => off <? e_end (ext_at s i)) in
  match s !! i with
  | Some e => if e_start e <=? off then Some i else None
  | None => None
  end.

(** The merging loop of addCoveredLocked: the widened extent and how many runs
    it swallowed. *)
Fixpoint absorb (s : list extent) (e : extent) : extent * nat :=
  match s with
  | x :: s =>
      if e_start x <=? e_end e then
        let '(e', k) := absorb s (MkExt (Z.min (e_start e) (e_start x)) (Z.max (e_end e) (e_end x))) in
        (e', S k)
      else (e, 0%nat)
  | [] => (e, 0%nat)
  end.

Definition addCovered (s : list extent) (e : extent) : list extent :=
  let i := Search (length s) (fun i => e_start e <=? e_end (ext_at s i)) in
  let '(e', k) := absorb (drop i s) e in
  take i s ++ e' :: drop (i + k) s.

(** * Specification *)

Definition in_ext (e : extent) (x : Z) : Prop := e_start e <= x < e_end e.

(** The bytes of a set of ranges. *)
Definition covers (s : list extent) (x : Z) : Prop := exists e, e ∈ s /\ in_ext e x.

(** Canonical form: non-empty ranges, in order, with a gap between neighbours. *)
Fixpoint canonical (s : list extent) : Prop :=
  match s with
  | [] => True
  | e :: s =>
      e_start e < e_end e /\ canonical s /\
      match s with [] => True | x :: _ => e_end e < e_start x end
  end.

(** * Binary search *)

Lemma search_loop_spec fuel f i j :
  (i <= j)%nat -> (j - i < fuel)%nat ->
  (forall a b, (a <= b)%nat -> f a = true -> f b = true) ->
  (i <= search_loop fuel f i j <= j)%nat /\
  (forall k, (i <= k < search_loop fuel f i j)%nat -> f k = false) /\
  ((search_loop fuel f i j < j)%nat -> f (search_loop fuel f i j) = true).
Proof.
  revert i j. induction fuel as [|fuel IH]; intros i j Hij Hf Hmono; [lia|]. cbn [search_loop].
  destruct (Nat.ltb_spec i j) as [Hlt|]; [|split; [lia|]; split; [intros; lia|lia]].
  pose proof (Nat.div2_odd (i + j)) as Hd. set (h := Nat.div2 (i + j)) in *.
  assert (i <= h < j)%nat as Hh by (destruct (Nat.odd (i + j)); simpl in Hd; lia).
  destruct (f h) eqn:Efh.
  - destruct (IH i h ltac:(lia) ltac:(lia) Hmono) as (H1 & H2 & H3). split; [lia|]. split; [done|].
    intros _. destruct (decide (search_loop fuel f i h < h)%nat) as [Hl|Hl]; [auto|].
    replace (search_loop fuel f i h) with h by lia. done.
  - destruct (IH (S h) j ltac:(lia) ltac:(lia) Hmono) as (H1 & H2 & H3). split; [lia|]. split; [|done].
    intros k Hk. destruct (decide (k <= h)%nat) as [Hkh|]; [|apply H2; lia].
    destruct (f k) eqn:Efk; [|done]. rewrite (Hmono k h Hkh Efk) in Efh. done.
Qed.

(** The least index satisfying a monotone predicate, or [n]. *)
Lemma Search_spec n f :
  (forall a b, (a <= b < n)%nat -> f a = true -> f b = true) ->
  (Search n f <= n)%nat /\ (forall k, (k < Search n f)%nat -> f k = false) /\
  ((Search n f < n)%nat -> f (Search n f) = true).
Proof.
  intros Hmono. set (g := fun i => (n <=? i)%nat || f i).
  assert (Eq : forall fuel i j, (j <= n)%nat -> search_loop fuel f i j = search_loop fuel g i j).
  { induction fuel as [|fuel IH]; intros i j Hj; [done|]. cbn [search_loop].
    destruct (Nat.ltb_spec i j) as [Hlt|]; [|done].
    pose proof (Nat.div2_odd (i + j)) as Hd. set (h := Nat.div2 (i + j)) in *.
    assert (i <= h < j)%nat as Hh by (destruct (Nat.odd (i + j)); simpl in Hd; lia).
    unfold g at 1. destruct (Nat.leb_spec n h); [lia|]. cbn [orb]. destruct (f h); apply IH; lia. }
  unfold Search. rewrite Eq by lia.
  destruct (search_loop_spec (S n) g 0 n ltac:(lia) ltac:(lia)) as (H1 & H2 & H3).
  { intros a b Hab. unfold g. destruct (Nat.leb_spec n b); [done|]. destruct (Nat.leb_spec n a); [lia|].
    cbn [orb]. apply Hmono. lia. }
  set (r := search_loop (S n) g 0 n) in *. split; [lia|]. split.
  - intros k Hk. specialize (H2 k ltac:(lia)). unfold g in H2. by apply orb_false_iff in H2 as [_ ?].
  - intros Hr. specialize (H3 Hr). unfold g in H3. destruct (Nat.leb_spec n r); [lia|done].
Qed.

(** * Canonical sets *)

Lemma canonical_tail e s : canonical (e :: s) -> canonical s.
Proof. by intros (_ & ? & _). Qed.

Lemma canonical_drop i s : canonical s -> canonical (drop i s).
Proof.
  revert s. induction i as [|i IH]; intros s Hs; [done|]. destruct s as [|e s]; [done|].
  apply IH. by eapply canonical_tail.
Qed.

(** Later ranges start after earlier ones end. *)
Lemma canonical_after e s x : canonical (e :: s) -> x ∈ s -> e_end e < e_start x /\ e_start x < e_end x.
Proof.
  revert e. induction s as [|y s IH]; intros e Hs Hx; [by apply not_elem_of_nil in Hx|].
  destruct Hs as (He & Hs & Hey). apply elem_of_cons in Hx as [->|Hx].
  - split; [done|]. by destruct Hs.
  - destruct (IH y Hs Hx). destruct Hs as (? & _). lia.
Qed.

Lemma canonical_nonempty s e : canonical s -> e ∈ s -> e_start e < e_end e.
Proof.
  induction s as [|x s IH]; intros Hs He; [by apply not_elem_of_nil in He|].
  apply elem_of_cons in He as [->|He]; [by destruct Hs|]. apply IH; [|done]. by eapply canonical_tail.
Qed.

Lemma canonical_ends s a b ea eb :
  canonical s -> (a <= b)%nat -> s !! a = Some ea -> s !! b = Some eb -> e_end ea <= e_end eb.
Proof.
  revert a b. induction s as [|x s IH]; intros a b Hs Hab Ha Hb; [done|].
  destruct a as [|a], b as [|b]; simplify_eq/=; [lia| |lia|].
  - apply list_elem_of_lookup_2 in Hb. destruct (canonical_after _ _ _ Hs Hb). lia.
  - eapply (IH a b); eauto using canonical_tail. lia.
Qed.

Lemma canonical_app s1 s2 :
  canonical (s1 ++ s2) <->
  canonical s1 /\ canonical s2 /\
  (forall x y, last s1 = Some x -> head s2 = Some y -> e_end x < e_start y).
Proof.
  induction s1 as [|e s1 IH].
  { cbn. split; [intros H; split; [done|]; split; done|tauto]. }
  cbn [app canonical]. destruct s1 as [|e1 s1].
  - cbn. destruct s2 as [|y s2]; cbn; naive_solver.
  - cbn [app]. cbn [app] in IH. rewrite IH. cbn [canonical last]. tauto.
Qed.

(** The prefix before the first run reaching [x] ends strictly below [x]. *)
Lemma canonical_split s i x :
  canonical s -> (i <= length s)%nat ->
  (forall k, (k < i)%nat -> e_end (ext_at s k) < x) ->
  canonical (take i s) /\ canonical (drop i s) /\ (forall e, e ∈ take i s -> e_end e < x).
Proof.
  intros Hs Hi Hk. rewrite <- (take_drop i s) in Hs. apply canonical_app in Hs as (H1 & H2 & _).
  split; [done|]. split; [done|]. intros e [k Hek]%list_elem_of_lookup.
  apply lookup_take_Some in Hek as [Hek Hki].
  specialize (Hk k Hki). unfold ext_at in Hk. by rewrite Hek in Hk.
Qed.

(** * Absorbing *)

Lemma covers_cons e s z : covers (e :: s) z <-> in_ext e z \/ covers s z.
Proof.
  unfold covers. split.
  - intros (x & [->|Hx]%elem_of_cons & Hz); eauto.
  - intros [Hz|(x & Hx & Hz)]; [exists e|exists x]; (split; [|done]); [left|by right].
Qed.

Lemma covers_app s1 s2 z : covers (s1 ++ s2) z <-> covers s1 z \/ covers s2 z.
Proof.
  unfold covers. split.
  - intros (x & [Hx|Hx]%elem_of_app & Hz); eauto.
  - intros [(x & Hx & Hz)|(x & Hx & Hz)]; exists x; rewrite elem_of_app; auto.
Qed.

Lemma covers_nil z : ~ covers [] z.
Proof. by intros (x & ?%not_elem_of_nil & _). Qed.

(** Swallowing every run that touches [e]: the bytes are the union, and the
    first run left starts beyond a gap. *)
Lemma absorb_spec s e :
  canonical s -> e_start e < e_end e -> (forall x, x ∈ s -> e_start e <= e_end x) ->
  let '(e', k) := absorb s e in
  e_start e' < e_end e' /\ (k <= length s)%nat /\
  (forall x, head (drop k s) = Some x -> e_end e' < e_start x) /\
  (forall z, in_ext e' z <-> in_ext e z \/ covers (take k s) z).
Proof.
  revert e. induction s as [|x s IH]; intros e Hs He Hx; cbn [absorb].
  { cbn. split; [done|]. split; [lia|]. split; [done|]. intros z. pose proof (covers_nil z). tauto. }
  destruct (e_start x <=? e_end e) eqn:Hxe; bool_to_prop.
  - assert (Hx0 : e_start e <= e_end x) by (apply Hx; left). pose proof (proj1 Hs) as Hxn.
    set (e1 := MkExt _ _). assert (He1 : e_start e1 < e_end e1) by (cbn; lia).
    assert (Hx1 : forall y, y ∈ s -> e_start e1 <= e_end y).
    { intros y Hy. destruct (canonical_after _ _ _ Hs Hy). cbn. lia. }
    specialize (IH e1 (canonical_tail _ _ Hs) He1 Hx1). destruct (absorb s e1) as [e' k].
    destruct IH as (H1 & H2 & H3 & H4). split; [done|]. split; [simpl; lia|]. split; [exact H3|].
    intros z. cbn [take]. rewrite H4, covers_cons.
    assert (in_ext e1 z <-> in_ext e z \/ in_ext x z); [|tauto]. unfold in_ext. cbn. lia.
  - split; [done|]. split; [lia|]. split.
    + cbn. intros y [= <-]. done.
    + intros z. cbn. pose proof (covers_nil z). tauto.
Qed.

(** * addCovered *)

Lemma ends_monotone s x :
  canonical s -> forall a b, (a <= b < length s)%nat ->
  (x <=? e_end (ext_at s a)) = true -> (x <=? e_end (ext_at s b)) = true.
Proof.
  intros Hs a b Hab Ha. bool_to_prop. apply Z.leb_le.
  destruct (lookup_lt_is_Some_2 s a) as [ea Ea]; [lia|].
  destruct (lookup_lt_is_Some_2 s b) as [eb Eb]; [lia|].
  unfold ext_at in *. rewrite Ea in Ha. rewrite Eb.
  pose proof (canonical_ends s a b ea eb Hs ltac:(lia) Ea Eb). cbn in *. lia.
Qed.

(** Adding a range adds exactly its bytes and keeps the set canonical. *)
Lemma addCovered_spec s e :
  canonical s -> e_start e < e_end e ->
  canonical (addCovered s e) /\ (forall z, covers (addCovered s e) z <-> in_ext e z \/ covers s z).
Proof.
  intros Hs He. unfold addCovered.
  destruct (Search_spec (length s) (fun i => e_start e <=? e_end (ext_at s i)) (ends_monotone s _ Hs))
    as (Hi & Hbelow & Hat). set (i := Search _ _) in *.
  destruct (canonical_split s i (e_start e) Hs Hi) as (Hc1 & Hc2 & Hlt).
  { intros k Hk. specialize (Hbelow k Hk). bool_to_prop. done. }
  assert (Hge : forall x, x ∈ drop i s -> e_start e <= e_end x).
  { intros x [k Hk]%list_elem_of_lookup. rewrite lookup_drop in Hk.
    pose proof (lookup_lt_Some _ _ _ Hk). specialize (Hat ltac:(lia)). bool_to_prop.
    destruct (lookup_lt_is_Some_2 s i) as [ei Ei]; [lia|]. unfold ext_at in Hat. rewrite Ei in Hat.
    pose proof (canonical_ends s i (i + k) ei x Hs ltac:(lia) Ei Hk). cbn in *. lia. }
  pose proof (absorb_spec (drop i s) e Hc2 He Hge) as Ha. destruct (absorb (drop i s) e) as [e' k].
  destruct Ha as (He' & Hk & Hgap & Hin).
  assert (Es : s = take i s ++ take k (drop i s) ++ drop (i + k) s).
  { rewrite <- drop_drop. by rewrite take_drop, take_drop. }
  split.
  - apply canonical_app. split; [done|]. rewrite <- drop_drop. split.
    + cbn [canonical]. split; [done|]. split; [by apply canonical_drop|].
      specialize (Hgap (default (MkExt 0 0) (head (drop k (drop i s))))).
      destruct (drop k (drop i s)); [done|by apply Hgap].
    + intros x y Hx [= <-]. apply last_Some_elem_of in Hx as Hx'.
      assert (in_ext e' (e_start e')) as Hst by (unfold in_ext; lia).
      apply Hin in Hst as [Hst|(w & Hw & Hwst)].
      * specialize (Hlt x Hx'). unfold in_ext in Hst. lia.
      * assert (e_end x < e_start w); [|unfold in_ext in Hwst; lia].
        assert (Hw' : w ∈ drop i s) by (eapply subseteq_take; exact Hw || done).
        apply last_Some in Hx as [l Hl]. pose proof Hs as Hs'.
        rewrite <- (take_drop i s), Hl, <- app_assoc in Hs'. apply canonical_app in Hs' as (_ & Hs' & _).
        by apply (canonical_after _ _ w Hs').
  - intros z. rewrite !covers_app, covers_cons, Hin. rewrite Es at 4. rewrite !covers_app.
    assert (covers (take i s) z <-> covers (take i s) z) by done. tauto.
Qed.

(** * runIndex *)

(** A run is found exactly when the byte is covered, and the answer's end is
    where the contiguous run stops. *)
Lemma runIndex_spec s off :
  canonical s ->
  match runIndex s off with
  | Some i => exists e, s !! i = Some e /\ in_ext e off /\ ~ covers s (e_end e)
  | None => ~ covers s off
  end.
Proof.
  intros Hs. unfold runIndex.
  assert (Hmono : forall a b, (a <= b < length s)%nat ->
    (off <? e_end (ext_at s a)) = true -> (off <? e_end (ext_at s b)) = true).
  { intros a b Hab Ha. bool_to_prop. pose proof (ends_monotone s (off + 1) Hs a b Hab) as H.
    apply Z.ltb_lt. assert (off + 1 <= e_end (ext_at s b)); [|lia].
    apply Z.leb_le, H, Z.leb_le. lia. }
  destruct (Search_spec (length s) (fun i => off <? e_end (ext_at s i)) Hmono) as (Hi & Hbelow & Hat).
  set (i := Search _ _) in *.
  assert (Hnot : forall j e, (j < i)%nat -> s !! j = Some e -> ~ in_ext e off).
  { intros j e Hj He. specialize (Hbelow j Hj). unfold ext_at in Hbelow. rewrite He in Hbelow.
    bool_to_prop. unfold in_ext. cbn in *. lia. }
  destruct (s !! i) as [e|] eqn:Ei.
  - pose proof (lookup_lt_Some _ _ _ Ei). specialize (Hat ltac:(lia)). unfold ext_at in Hat. rewrite Ei in Hat.
    bool_to_prop. cbn in Hat. destruct (e_start e <=? off) eqn:Hst; bool_to_prop.
    + exists e. split; [done|]. split; [unfold in_ext; lia|]. intros (x & Hx & Hin).
      apply list_elem_of_lookup in Hx as [j Hj]. destruct (Nat.lt_trichotomy j i) as [Hlt|[->|Hlt]].
      * pose proof (canonical_ends s j i x e Hs ltac:(lia) Hj Ei). unfold in_ext in Hin. lia.
      * simplify_eq. unfold in_ext in Hin. lia.
      * rewrite <- (take_drop_middle s i e Ei) in Hs. apply canonical_app in Hs as (_ & Hs & _).
        assert (x ∈ drop (S i) s) as Hx.
        { apply list_elem_of_lookup. exists (j - S i)%nat. rewrite lookup_drop. rewrite <- Hj. f_equal. lia. }
        destruct (canonical_after _ _ _ Hs Hx). unfold in_ext in Hin. lia.
    + intros (x & Hx & Hin). apply list_elem_of_lookup in Hx as [j Hj].
      destruct (Nat.lt_trichotomy j i) as [Hlt|[->|Hlt]].
      * by eapply Hnot.
      * simplify_eq. unfold in_ext in Hin. lia.
      * rewrite <- (take_drop_middle s i e Ei) in Hs. apply canonical_app in Hs as (_ & Hs & _).
        assert (x ∈ drop (S i) s) as Hx.
        { apply list_elem_of_lookup. exists (j - S i)%nat. rewrite lookup_drop. rewrite <- Hj. f_equal. lia. }
        destruct (canonical_after _ _ _ Hs Hx). unfold in_ext in Hin. destruct Hs as (? & _). lia.
  - apply lookup_ge_None in Ei. intros (x & Hx & Hin). apply list_elem_of_lookup in Hx as [j Hj].
    pose proof (lookup_lt_Some _ _ _ Hj). eapply Hnot; [|done|done]. lia.
Qed.
