(* ===== verification/Assembly.v ===== *)
(** The progressive NNTP download (internal/nzb/assembly.go).

    An assembly downloads the articles of one file over several connections and
    writes each at the offset its header declares.  [assembly] is the state under
    the mutex, with the bytes written to the destination; the operations are the
    code's critical sections; [step] interleaves the workers, readers steering the
    download, and cancellation.

    The theorems: in every reachable state the covered ranges are exactly what
    completed articles wrote, everything written stays inside the file's declared
    bounds, completion means every byte of the file is present, no interleaving
    deadlocks, and no waiter misses a wake-up. *)

From S2P Require Import Prelude GoStrings Yenc Extents.

(** * Configuration *)

Definition defaultConnections : Z := 4.
Definition maxConnections : Z := 16.

Definition workerCount (configured segments : Z) : Z :=
  let n := if configured <=? 0 then defaultConnections else configured in
  let n := Z.min (Z.min n maxConnections) segments in
  Z.max n 1.

(** * Data *)

Inductive asmErr :=
| errNoPartInfo
| errExceedsDeclared            (* segWriter: past the declared extent *)
| errTooBig (size cap : Z)      (* the declared size exceeds the cap *)
| errSizeMismatch (got want : Z)
| errOutside (begin end_ total : Z)
| errDecoded (got want : Z)     (* completeSegment: decoded length *)
| errTiling (got total : Z)     (* finalizeLocked: ranges do not tile *)
| errSegment                    (* a segment's fetch failed *)
| errConn                       (* a dial or redial failed *)
| errStopped
| errCanceled.

Inductive segStatus := segPending | segInflight | segDone.
Inductive layoutMode := layoutUnknown | layoutParallel | layoutSequential.

#[export] Instance segStatus_eq_dec : EqDecision segStatus.
Proof. solve_decision. Defined.

#[export] Instance layoutMode_eq_dec : EqDecision layoutMode.
Proof. solve_decision. Defined.

(** segWriter: the next offset and the bytes the article may still write. *)
Record segWriter := MkWriter { w_off : Z; w_remain : Z }.

(** Assembly.  [a_dst] is what the destination holds where it was written;
    [a_ctx] is [ctx.Err()]; [a_changed] counts the channels closed so far. *)
Record assembly := MkAsm {
  a_cap : Z;
  a_dst : gmap Z Z;
  a_ctx : option asmErr;
  a_state : list segStatus;
  a_pending : Z;
  a_remaining : Z;
  a_next : nat;
  a_alive : Z;
  a_layout : layoutMode;
  a_seqOwner : nat;
  a_seqOff : Z;
  a_total : Z;
  a_sizeKnown : bool;
  a_partSize : Z;
  a_covered : list extent;
  a_complete : bool;
  a_err : option asmErr;
  a_changed : nat
}.

Definition set_dst v a := MkAsm (a_cap a) v (a_ctx a) (a_state a) (a_pending a) (a_remaining a) (a_next a) (a_alive a) (a_layout a) (a_seqOwner a) (a_seqOff a) (a_total a) (a_sizeKnown a) (a_partSize a) (a_covered a) (a_complete a) (a_err a) (a_changed a).
Definition set_ctx v a := MkAsm (a_cap a) (a_dst a) v (a_state a) (a_pending a) (a_remaining a) (a_next a) (a_alive a) (a_layout a) (a_seqOwner a) (a_seqOff a) (a_total a) (a_sizeKnown a) (a_partSize a) (a_covered a) (a_complete a) (a_err a) (a_changed a).
Definition set_state v a := MkAsm (a_cap a) (a_dst a) (a_ctx a) v (a_pending a) (a_remaining a) (a_next a) (a_alive a) (a_layout a) (a_seqOwner a) (a_seqOff a) (a_total a) (a_sizeKnown a) (a_partSize a) (a_covered a) (a_complete a) (a_err a) (a_changed a).
Definition set_pending v a := MkAsm (a_cap a) (a_dst a) (a_ctx a) (a_state a) v (a_remaining a) (a_next a) (a_alive a) (a_layout a) (a_seqOwner a) (a_seqOff a) (a_total a) (a_sizeKnown a) (a_partSize a) (a_covered a) (a_complete a) (a_err a) (a_changed a).
Definition set_remaining v a := MkAsm (a_cap a) (a_dst a) (a_ctx a) (a_state a) (a_pending a) v (a_next a) (a_alive a) (a_layout a) (a_seqOwner a) (a_seqOff a) (a_total a) (a_sizeKnown a) (a_partSize a) (a_covered a) (a_complete a) (a_err a) (a_changed a).
Definition set_next v a := MkAsm (a_cap a) (a_dst a) (a_ctx a) (a_state a) (a_pending a) (a_remaining a) v (a_alive a) (a_layout a) (a_seqOwner a) (a_seqOff a) (a_total a) (a_sizeKnown a) (a_partSize a) (a_covered a) (a_complete a) (a_err a) (a_changed a).
Definition set_alive v a := MkAsm (a_cap a) (a_dst a) (a_ctx a) (a_state a) (a_pending a) (a_remaining a) (a_next a) v (a_layout a) (a_seqOwner a) (a_seqOff a) (a_total a) (a_sizeKnown a) (a_partSize a) (a_covered a) (a_complete a) (a_err a) (a_changed a).
Definition set_layout v a := MkAsm (a_cap a) (a_dst a) (a_ctx a) (a_state a) (a_pending a) (a_remaining a) (a_next a) (a_alive a) v (a_seqOwner a) (a_seqOff a) (a_total a) (a_sizeKnown a) (a_partSize a) (a_covered a) (a_complete a) (a_err a) (a_changed a).
Definition set_seqOwner v a := MkAsm (a_cap a) (a_dst a) (a_ctx a) (a_state a) (a_pending a) (a_remaining a) (a_next a) (a_alive a) (a_layout a) v (a_seqOff a) (a_total a) (a_sizeKnown a) (a_partSize a) (a_covered a) (a_complete a) (a_err a) (a_changed a).
Definition set_seqOff v a := MkAsm (a_cap a) (a_dst a) (a_ctx a) (a_state a) (a_pending a) (a_remaining a) (a_next a) (a_alive a) (a_layout a) (a_seqOwner a) v (a_total a) (a_sizeKnown a) (a_partSize a) (a_covered a) (a_complete a) (a_err a) (a_changed a).
Definition set_total v a := MkAsm (a_cap a) (a_dst a) (a_ctx a) (a_state a) (a_pending a) (a_remaining a) (a_next a) (a_alive a) (a_layout a) (a_seqOwner a) (a_seqOff a) v (a_sizeKnown a) (a_partSize a) (a_covered a) (a_complete a) (a_err a) (a_changed a).
Definition set_sizeKnown v a := MkAsm (a_cap a) (a_dst a) (a_ctx a) (a_state a) (a_pending a) (a_remaining a) (a_next a) (a_alive a) (a_layout a) (a_seqOwner a) (a_seqOff a) (a_total a) v (a_partSize a) (a_covered a) (a_complete a) (a_err a) (a_changed a).
Definition set_partSize v a := MkAsm (a_cap a) (a_dst a) (a_ctx a) (a_state a) (a_pending a) (a_remaining a) (a_next a) (a_alive a) (a_layout a) (a_seqOwner a) (a_seqOff a) (a_total a) (a_sizeKnown a) v (a_covered a) (a_complete a) (a_err a) (a_changed a).
Definition set_covered v a := MkAsm (a_cap a) (a_dst a) (a_ctx a) (a_state a) (a_pending a) (a_remaining a) (a_next a) (a_alive a) (a_layout a) (a_seqOwner a) (a_seqOff a) (a_total a) (a_sizeKnown a) (a_partSize a) v (a_complete a) (a_err a) (a_changed a).
Definition set_complete v a := MkAsm (a_cap a) (a_dst a) (a_ctx a) (a_state a) (a_pending a) (a_remaining a) (a_next a) (a_alive a) (a_layout a) (a_seqOwner a) (a_seqOff a) (a_total a) (a_sizeKnown a) (a_partSize a) (a_covered a) v (a_err a) (a_changed a).
Definition set_err v a := MkAsm (a_cap a) (a_dst a) (a_ctx a) (a_state a) (a_pending a) (a_remaining a) (a_next a) (a_alive a) (a_layout a) (a_seqOwner a) (a_seqOff a) (a_total a) (a_sizeKnown a) (a_partSize a) (a_covered a) (a_complete a) v (a_changed a).
Definition set_changed v a := MkAsm (a_cap a) (a_dst a) (a_ctx a) (a_state a) (a_pending a) (a_remaining a) (a_next a) (a_alive a) (a_layout a) (a_seqOwner a) (a_seqOff a) (a_total a) (a_sizeKnown a) (a_partSize a) (a_covered a) (a_complete a) (a_err a) v.

(** * Destination *)

(** WriteAt: the bytes of [p] from offset [off] on. *)
Fixpoint writeAt (p : bytes) (off : Z) (dst : gmap Z Z) : gmap Z Z :=
  match p with
  | [] => dst
  | b :: p => writeAt p (off + 1) (<[off := b]> dst)
  end.

(** segWriter.Write when the destination accepts the first [n] bytes; the error
    is the writer's own refusal. *)
Definition segWrite (p : bytes) (n : nat) (w : segWriter) (dst : gmap Z Z) :
    option asmErr * segWriter * gmap Z Z :=
  if w_remain w <? Z.of_nat (length p) then (Some errExceedsDeclared, w, dst)
  else
    let q := take n p in
    (None, MkWriter (w_off w + Z.of_nat (length q)) (w_remain w - Z.of_nat (length q)),
     writeAt q (w_off w) dst).

(** * Notification and failure *)

Definition notifyLocked (a : assembly) : assembly := set_changed (S (a_changed a)) a.

Definition cancel (a : assembly) : assembly :=
  match a_ctx a with
  | None => set_ctx (Some errCanceled) a
  | Some _ => a
  end.

Definition failLocked (e : asmErr) (a : assembly) : assembly :=
  match a_err a with
  | Some _ => a
  | None =>
      if a_complete a then a
      else cancel (notifyLocked (set_err (Some e) a))
  end.

(** * Choosing segments *)

Definition isPending (a : assembly) (j : nat) : bool := bool_decide (a_state a !! j = Some segPending).

(** The scan of pickLocked: the first pending segment among the [m] from
    [next + i] on, wrapping around. *)
Fixpoint pick_scan (m i : nat) (a : assembly) : option nat :=
  match m with
  | O => None
  | S m =>
      let n := length (a_state a) in
      let j := (a_next a + i)%nat in
      let j := if (n <=? j)%nat then (j - n)%nat else j in
      if isPending a j then Some j else pick_scan m (S i) a
  end.

Definition pickLocked (a : assembly) : option nat * assembly :=
  let n := length (a_state a) in
  match pick_scan n 0 a with
  | Some j =>
      let a := set_state (<[j := segInflight]> (a_state a)) a in
      let a := set_pending (a_pending a - 1) a in
      (Some j, set_next (if (n <=? S j)%nat then 0%nat else S j) a)
  | None => (None, a)
  end.

(** One turn of nextSegment: a segment to fetch, exit, or wait for a change. *)
Inductive nextResult := NSeg (idx : nat) | NExit | NWait.

Definition nextSegment (id : nat) (a : assembly) : nextResult * assembly :=
  if bool_decide (a_err a <> None) || a_complete a || bool_decide (a_ctx a <> None) ||
     (bool_decide (a_layout a = layoutSequential) && negb (id =? a_seqOwner a)%nat)
  then (NExit, a)
  else if bool_decide (a_layout a = layoutUnknown) then
    if isPending a 0 then
      let a := set_state (<[0%nat := segInflight]> (a_state a)) a in
      (NSeg 0, set_pending (a_pending a - 1) a)
    else (NWait, a)
  else if 0 <? a_pending a then
    match pickLocked a with
    | (Some idx, a) => (NSeg idx, a)
    | (None, a) => (NWait, a)
    end
  else (NWait, a).

Definition requeue (idx : nat) (a : assembly) : assembly :=
  let a := set_state (<[idx := segPending]> (a_state a)) a in
  let a := set_pending (a_pending a + 1) a in
  let a := set_next (Nat.min (a_next a) idx) a in
  notifyLocked a.

(** The first pending segment from [j] on. *)
Fixpoint first_pending (m j : nat) (a : assembly) : option nat :=
  match m with
  | O => None
  | S m => if isPending a j then Some j else first_pending m (S j) a
  end.

Definition hintLocked (pos : Z) (a : assembly) : assembly :=
  if negb (bool_decide (a_layout a = layoutParallel)) || (a_partSize a <=? 0) || (a_pending a =? 0) then a
  else
    let n := length (a_state a) in
    let idx := Z.to_nat (Z.min (pos / a_partSize a) (Z.of_nat n - 1)) in
    match first_pending (n - idx) idx a with
    | Some j => set_next j a
    | None => a
    end.

(** * Articles *)

Definition selfDescribing (h : yencHeader) (nsegs : nat) : bool :=
  if h_Size h <=? 0 then false
  else if (nsegs =? 1)%nat then negb (h_HasPart h) || ((h_Begin h =? 1) && (h_End h =? h_Size h))
  else h_HasPart h && (h_Begin h =? 1) && (h_Begin h <=? h_End h) && (h_End h <? h_Size h).

(** The first article's header fixes the layout. *)
Definition fixLayout (id : nat) (h : yencHeader) (a : assembly) : result asmErr assembly :=
  if bool_decide (a_layout a = layoutUnknown) then
    if selfDescribing h (length (a_state a)) then
      if a_cap a <? h_Size h then Err (errTooBig (h_Size h) (a_cap a))
      else
        let a := set_layout layoutParallel a in
        let a := set_total (h_Size h) a in
        let a := set_sizeKnown true a in
        let a := set_partSize (if h_HasPart h then h_End h - h_Begin h + 1 else h_Size h) a in
        Ok (notifyLocked a)
    else Ok (notifyLocked (set_seqOwner id (set_layout layoutSequential a)))
  else Ok a.

(** Where an article goes once the layout is known. *)
Definition placeArticle (h : yencHeader) (a : assembly) : result asmErr (segWriter * extent) :=
  if bool_decide (a_layout a = layoutSequential) then
    Ok (MkWriter (a_seqOff a) (a_cap a - a_seqOff a), MkExt (a_seqOff a) 0)
  else if h_HasPart h then
    if negb (h_Size h =? a_total a) then Err (errSizeMismatch (h_Size h) (a_total a))
    else if (h_Begin h <? 1) || (h_End h <? h_Begin h) || (a_total a <? h_End h)
    then Err (errOutside (h_Begin h) (h_End h) (a_total a))
    else
      let e := MkExt (h_Begin h - 1) (h_End h) in
      Ok (MkWriter (e_start e) (e_end e - e_start e), e)
  else if (length (a_state a) =? 1)%nat && (h_Size h =? a_total a) then
    Ok (MkWriter 0 (a_total a), MkExt 0 (a_total a))
  else Err errNoPartInfo.

(** openSegment: the layout may be fixed even when the article is refused. *)
Definition openSegment (id : nat) (h : yencHeader) (a : assembly) :
    result asmErr (segWriter * extent) * assembly :=
  match fixLayout id h a with
  | Err e => (Err e, a)
  | Ok a => (placeArticle h a, a)
  end.

Definition ext_sum (s : list extent) : Z := sumZ (fun e => e_end e - e_start e) s.

Definition tiled (total : Z) (s : list extent) : bool :=
  match s with
  | [] => total =? 0
  | [e] => (e_start e =? 0) && (e_end e =? total)
  | _ => false
  end.

Definition finalizeLocked (a : assembly) : assembly :=
  let a := if bool_decide (a_layout a = layoutSequential)
           then set_sizeKnown true (set_total (a_seqOff a) a) else a in
  if tiled (a_total a) (a_covered a) then set_complete true a
  else failLocked (errTiling (ext_sum (a_covered a)) (a_total a)) a.

Definition completeSegment (idx : nat) (ext : extent) (n : Z) (a : assembly) :
    option asmErr * assembly :=
  let parallel := bool_decide (a_layout a = layoutParallel) in
  let want := e_end ext - e_start ext in
  if parallel && negb (n =? want) then (Some (errDecoded n want), a)
  else
    let ext := if parallel then ext else MkExt (e_start ext) (e_start ext + n) in
    let a := if parallel then a else set_seqOff (e_end ext) a in
    let a := set_state (<[idx := segDone]> (a_state a)) a in
    let a := set_remaining (a_remaining a - 1) a in
    let a := if 0 <? n then set_covered (addCovered (a_covered a) ext) a else a in
    let a := if a_remaining a =? 0 then finalizeLocked a else a in
    (None, notifyLocked a).

(** workerExit; [cause] is set when the worker left because it could not connect. *)
Definition workerExit (cause : option asmErr) (a : assembly) : assembly :=
  let a := set_alive (a_alive a - 1) a in
  if (0 <? a_alive a) || a_complete a || bool_decide (a_err a <> None) then a
  else
    match cause, a_ctx a with
    | Some e, _ => failLocked e a
    | None, Some e => failLocked e a
    | None, None => failLocked errStopped a
    end.

(** * Readers *)

(** One turn of awaitRun. *)
Inductive awaitResult := ARun (runEnd : Z) | AErr (e : asmErr) | ABeyond (total : Z) | AWait.

Definition awaitRun (off : Z) (a : assembly) : awaitResult * assembly :=
  match runIndex (a_covered a) off with
  | Some i => (ARun (e_end (ext_at (a_covered a) i)), a)
  | None =>
      match a_err a with
      | Some e => (AErr e, a)
      | None =>
          if a_sizeKnown a && (a_total a <=? off) then (ABeyond (a_total a), a)
          else (AWait, hintLocked off a)
      end
  end.

(** One turn of Size. *)
Definition Size (a : assembly) : option (result asmErr Z) :=
  if a_sizeKnown a then Some (Ok (a_total a))
  else match a_err a with
       | Some e => Some (Err e)
       | None => None
       end.

(** * Start *)

Definition newAssembly (n : nat) (cap alive : Z) : assembly :=
  MkAsm cap ∅ None (replicate n segPending) (Z.of_nat n) (Z.of_nat n) 0 alive
    layoutUnknown 0 0 0 false 0 [] false None 0.

(** StartAssembly for a file of [n] articles; an empty file is complete. *)
Definition StartAssembly (n : nat) (cap connections : Z) : assembly :=
  match n with
  | O => MkAsm cap ∅ (Some errCanceled) [] 0 0 0 0 layoutParallel 0 0 0 true 0 [] true None 0
  | S _ => newAssembly n cap (workerCount connections (Z.of_nat n))
  end.

(** * Workers *)

(** Where a worker's loop stands.  [WBody] carries the extent, the writer, and
    how many decoded bytes have been written. *)
Inductive wpc :=
| WDial
| WNext
| WFetch (idx : nat) (retry : bool)
| WBody (idx : nat) (retry : bool) (ext : extent) (w : segWriter) (n : Z)
| WRedial (idx : nat)
| WExiting (cause : option asmErr)
| WGone.

Record config := MkConfig { c_asm : assembly; c_workers : list wpc }.

(** A fetch that failed: worker's error handling.  [conn] tells a dead
    connection, which is dialled again once. *)
Definition fetchFailed (idx : nat) (retry conn : bool) (a : assembly) : wpc * assembly :=
  if bool_decide (a_ctx a <> None) then (WExiting None, a)
  else if conn && negb retry then (WRedial idx, a)
  else (WExiting None, failLocked errSegment a).

Inductive step : config -> config -> Prop :=
(* worker: dialling *)
| step_dial_ok a ws id :
    ws !! id = Some WDial -> step (MkConfig a ws) (MkConfig a (<[id := WNext]> ws))
| step_dial_err a ws id :
    ws !! id = Some WDial ->
    step (MkConfig a ws) (MkConfig a (<[id := WExiting (Some errConn)]> ws))
(* worker: the next segment *)
| step_next a ws id idx a' :
    ws !! id = Some WNext -> nextSegment id a = (NSeg idx, a') ->
    step (MkConfig a ws) (MkConfig a' (<[id := WFetch idx false]> ws))
| step_next_exit a ws id a' :
    ws !! id = Some WNext -> nextSegment id a = (NExit, a') ->
    step (MkConfig a ws) (MkConfig a' (<[id := WExiting None]> ws))
(* worker: an article *)
| step_open a ws id idx retry h w ext a' :
    ws !! id = Some (WFetch idx retry) -> openSegment id h a = (Ok (w, ext), a') ->
    step (MkConfig a ws) (MkConfig a' (<[id := WBody idx retry ext w 0]> ws))
| step_refuse a ws id idx retry h e a' pc a'' :
    ws !! id = Some (WFetch idx retry) -> openSegment id h a = (Err e, a') ->
    fetchFailed idx retry false a' = (pc, a'') ->
    step (MkConfig a ws) (MkConfig a'' (<[id := pc]> ws))
| step_write a ws id idx retry ext w n p w' dst' :
    ws !! id = Some (WBody idx retry ext w n) ->
    segWrite p (length p) w (a_dst a) = (None, w', dst') ->
    step (MkConfig a ws)
      (MkConfig (set_dst dst' a) (<[id := WBody idx retry ext w' (n + Z.of_nat (length p))]> ws))
(* the destination refuses after the first [k] bytes *)
| step_write_err a ws id idx retry ext w n p k w' dst' pc a' :
    ws !! id = Some (WBody idx retry ext w n) ->
    segWrite p k w (a_dst a) = (None, w', dst') ->
    fetchFailed idx retry false (set_dst dst' a) = (pc, a') ->
    step (MkConfig a ws) (MkConfig a' (<[id := pc]> ws))
| step_done a ws id idx retry ext w n a' :
    ws !! id = Some (WBody idx retry ext w n) -> completeSegment idx ext n a = (None, a') ->
    step (MkConfig a ws) (MkConfig a' (<[id := WNext]> ws))
| step_failed a ws id idx retry conn pc a' :
    (ws !! id = Some (WFetch idx retry) \/
     exists ext w n, ws !! id = Some (WBody idx retry ext w n)) ->
    fetchFailed idx retry conn a = (pc, a') ->
    step (MkConfig a ws) (MkConfig a' (<[id := pc]> ws))
(* worker: dialling again *)
| step_redial_ok a ws id idx :
    ws !! id = Some (WRedial idx) ->
    step (MkConfig a ws) (MkConfig a (<[id := WFetch idx true]> ws))
| step_redial_err a ws id idx :
    ws !! id = Some (WRedial idx) ->
    step (MkConfig a ws) (MkConfig (requeue idx a) (<[id := WExiting (Some errConn)]> ws))
(* worker: leaving *)
| step_exit a ws id cause :
    ws !! id = Some (WExiting cause) ->
    step (MkConfig a ws) (MkConfig (workerExit cause a) (<[id := WGone]> ws))
(* readers and the parent context *)
| step_await a ws off a' r :
    0 <= off -> awaitRun off a = (r, a') -> step (MkConfig a ws) (MkConfig a' ws)
| step_cancel a ws :
    step (MkConfig a ws) (MkConfig (failLocked errCanceled a) ws)
| step_ctx a ws e :
    a_ctx a = None -> step (MkConfig a ws) (MkConfig (set_ctx (Some e) a) ws)
| step_ctx_fail a ws e :
    a_ctx a = Some e -> step (MkConfig a ws) (MkConfig (failLocked e a) ws).

Definition start (n : nat) (cap connections : Z) : config :=
  let a := StartAssembly n cap connections in
  MkConfig a (replicate (Z.to_nat (a_alive a)) WDial).

(** * Invariant *)

Definition pending_w (s : segStatus) : Z := match s with segPending => 1 | _ => 0 end.
Definition left_w (s : segStatus) : Z := match s with segDone => 0 | _ => 1 end.
Definition alive_w (pc : wpc) : Z := match pc with WGone => 0 | _ => 1 end.

(** The segment a worker is fetching. *)
Definition holds (pc : wpc) : option nat :=
  match pc with
  | WFetch idx _ | WBody idx _ _ _ _ | WRedial idx => Some idx
  | _ => None
  end.

Definition written (a : assembly) (z : Z) : Prop := is_Some (a_dst a !! z).

(** Sequential assemblies finish their segments in order: the first [k] are
    done, the one after may be in flight, the rest are pending. *)
Definition in_order (a : assembly) (k : nat) : Prop :=
  (k <= length (a_state a))%nat /\
  (forall j, (j < k)%nat -> a_state a !! j = Some segDone) /\
  (forall j s, (k < j)%nat -> a_state a !! j = Some s -> s = segPending) /\
  a_state a !! k <> Some segDone /\
  (a_state a !! k = Some segPending -> (a_next a <= k)%nat) /\ (a_next a <= S k)%nat.

Definition seq_covered (off : Z) : list extent := if off =? 0 then [] else [MkExt 0 off].

Definition layout_ok (a : assembly) : Prop :=
  match a_layout a with
  | layoutUnknown =>
      a_covered a = [] /\ a_dst a = ∅ /\ a_seqOff a = 0 /\ a_sizeKnown a = false /\
      a_complete a = false /\ a_next a = 0%nat /\
      (forall j s, a_state a !! j = Some s -> s = segPending \/ j = 0%nat /\ s = segInflight)
  | layoutParallel =>
      a_sizeKnown a = true /\ 0 < a_total a <= a_cap a /\ 0 < a_partSize a
  | layoutSequential =>
      0 <= a_seqOff a <= a_cap a /\ a_covered a = seq_covered (a_seqOff a) /\
      (a_sizeKnown a = true -> a_remaining a = 0 /\ a_total a = a_seqOff a) /\
      exists k, in_order a k
  end.

(** The assembly's own state. *)
Record ainv (a : assembly) : Prop := {
  ai_cap : 0 < a_cap a;
  ai_next : (a_next a < length (a_state a))%nat;
  ai_pending : a_pending a = sumZ pending_w (a_state a);
  ai_remaining : a_remaining a = sumZ left_w (a_state a);
  ai_canon : canonical (a_covered a);
  ai_written : forall z, covers (a_covered a) z -> written a z;
  ai_bounds : forall z, written a z ->
    0 <= z < a_cap a /\ (a_layout a = layoutParallel -> z < a_total a);
  ai_layout : layout_ok a;
  ai_complete : a_complete a = true ->
    a_remaining a = 0 /\ a_sizeKnown a = true /\ tiled (a_total a) (a_covered a) = true;
  ai_finished : a_remaining a = 0 -> a_complete a = true \/ a_err a <> None
}.

(** What a worker in the middle of an article may rely on. *)
Definition body_ok (a : assembly) (ext : extent) (w : segWriter) (n : Z) : Prop :=
  0 <= n /\ 0 <= w_remain w /\ 0 <= e_start ext /\ w_off w = e_start ext + n /\
  (forall z, e_start ext <= z < w_off w -> written a z) /\
  match a_layout a with
  | layoutUnknown => False
  | layoutParallel => w_off w + w_remain w = e_end ext /\ e_start ext < e_end ext <= a_total a
  | layoutSequential => e_start ext = a_seqOff a /\ w_off w + w_remain w = a_cap a
  end.

(** The workers against the assembly. *)
Record winv (a : assembly) (ws : list wpc) : Prop := {
  wi_own : forall id pc idx, ws !! id = Some pc -> holds pc = Some idx ->
    a_state a !! idx = Some segInflight;
  wi_uniq : forall id1 id2 pc1 pc2 idx, ws !! id1 = Some pc1 -> ws !! id2 = Some pc2 ->
    holds pc1 = Some idx -> holds pc2 = Some idx -> id1 = id2;
  wi_inflight : a_err a = None -> a_ctx a = None -> forall idx, a_state a !! idx = Some segInflight ->
    exists id pc, ws !! id = Some pc /\ holds pc = Some idx;
  wi_body : forall id idx retry ext w n, ws !! id = Some (WBody idx retry ext w n) -> body_ok a ext w n;
  wi_alive : a_alive a = sumZ alive_w ws;
  wi_exit : a_alive a = 0 -> a_complete a = true \/ a_err a <> None;
  wi_owner : a_layout a = layoutSequential -> forall id pc idx, ws !! id = Some pc ->
    holds pc = Some idx -> id = a_seqOwner a
}.

Definition inv (c : config) : Prop := ainv (c_asm c) /\ winv (c_asm c) (c_workers c).

(** * Helper lemmas *)

Lemma pending_w_nonneg s : 0 <= pending_w s.
Proof. destruct s; simpl; lia. Qed.
Lemma left_w_nonneg s : 0 <= left_w s.
Proof. destruct s; simpl; lia. Qed.
Lemma alive_w_nonneg pc : 0 <= alive_w pc.
Proof. destruct pc; simpl; lia. Qed.

Lemma isPending_spec a j : isPending a j = true <-> a_state a !! j = Some segPending.
Proof. unfold isPending. by rewrite bool_decide_eq_true. Qed.

(** While a segment is in flight the file is not finished. *)
Lemma inflight_left a idx :
  ainv a -> a_state a !! idx = Some segInflight -> 0 < a_remaining a /\ a_complete a = false.
Proof.
  intros Ha Hi. assert (0 < a_remaining a) as Hr.
  { rewrite (ai_remaining _ Ha). apply list_elem_of_lookup_2 in Hi.
    pose proof (sumZ_elem_le left_w (a_state a) segInflight (fun s _ => left_w_nonneg s) Hi). simpl in *. lia. }
  split; [done|]. destruct (a_complete a) eqn:Hc; [|done]. destruct (ai_complete _ Ha Hc). lia.
Qed.

Lemma holds_left c id pc idx :
  inv c -> c_workers c !! id = Some pc -> holds pc = Some idx ->
  a_state (c_asm c) !! idx = Some segInflight /\ 0 < a_remaining (c_asm c) /\ a_complete (c_asm c) = false.
Proof.
  intros [Ha Hw] Hid Hh. pose proof (wi_own _ _ Hw id pc idx Hid Hh) as Hs.
  split; [done|]. by eapply inflight_left.
Qed.

(** A body depends only on the placement fields and on what is written. *)
Lemma body_ok_mono a a' ext w n :
  (forall z, written a z -> written a' z) -> a_layout a' = a_layout a -> a_seqOff a' = a_seqOff a ->
  a_cap a' = a_cap a -> a_total a' = a_total a -> body_ok a ext w n -> body_ok a' ext w n.
Proof.
  intros Hwr Hl Hs Hc Ht (H1 & H2 & H3 & H4 & H5 & H6). unfold body_ok. rewrite Hl, Hs, Hc, Ht.
  split_and!; auto.
Qed.

(** One worker moves, the assembly changes: what has to be checked. *)
Lemma winv_move a a' ws id pc pc' :
  winv a ws -> ws !! id = Some pc ->
  (forall id2 pc2 idx, <[id := pc']> ws !! id2 = Some pc2 -> holds pc2 = Some idx ->
     a_state a' !! idx = Some segInflight) ->
  (forall idx, holds pc' = Some idx -> forall id2 pc2, id2 <> id -> ws !! id2 = Some pc2 -> holds pc2 <> Some idx) ->
  (a_err a' = None -> a_ctx a' = None -> forall idx, a_state a' !! idx = Some segInflight ->
     holds pc' = Some idx \/
     (a_err a = None /\ a_ctx a = None /\ a_state a !! idx = Some segInflight /\ holds pc <> Some idx)) ->
  (forall id2 idx retry ext w n, <[id := pc']> ws !! id2 = Some (WBody idx retry ext w n) ->
     body_ok a' ext w n) ->
  a_alive a' = a_alive a - alive_w pc + alive_w pc' ->
  (a_alive a' = 0 -> a_complete a' = true \/ a_err a' <> None) ->
  (a_layout a' = layoutSequential -> forall id2 pc2 idx, <[id := pc']> ws !! id2 = Some pc2 ->
     holds pc2 = Some idx -> id2 = a_seqOwner a') ->
  winv a' (<[id := pc']> ws).
Proof.
  intros Hw Hid Hown Huniq Hinfl Hbody Halive Hexit Howner.
  pose proof (lookup_lt_Some _ _ _ Hid) as Hlt. split; [done| | |done| |done|done].
  - intros id1 id2 pc1 pc2 idx H1 H2 Hh1 Hh2.
    apply list_lookup_insert_Some in H1 as [(<- & <- & _)|[Hn1 H1]];
      apply list_lookup_insert_Some in H2 as [(<- & <- & _)|[Hn2 H2]]; [done| | |].
    + by destruct (Huniq idx Hh1 id2 pc2 ltac:(congruence) H2).
    + by destruct (Huniq idx Hh2 id1 pc1 ltac:(congruence) H1).
    + by eapply (wi_uniq _ _ Hw).
  - intros He Hc idx Hs. destruct (Hinfl He Hc idx Hs) as [Hh|(He0 & Hc0 & Hs0 & Hne)].
    + exists id, pc'. by rewrite list_lookup_insert_eq.
    + destruct (wi_inflight _ _ Hw He0 Hc0 idx Hs0) as (id2 & pc2 & H2 & Hh2). exists id2, pc2.
      rewrite list_lookup_insert_ne; [done|]. intros <-. congruence.
  - rewrite Halive, (wi_alive _ _ Hw). by rewrite (sumZ_insert _ _ _ _ _ Hid).
Qed.

(** A worker moves and the assembly does not change for the workers. *)
Lemma winv_step a a' ws id pc pc' :
  winv a ws -> ws !! id = Some pc ->
  a_state a' = a_state a -> (a_err a' = None -> a_err a = None) -> (a_ctx a' = None -> a_ctx a = None) ->
  (a_err a <> None -> a_err a' <> None) ->
  a_layout a' = a_layout a -> a_seqOff a' = a_seqOff a -> a_cap a' = a_cap a -> a_total a' = a_total a ->
  a_seqOwner a' = a_seqOwner a -> a_alive a' = a_alive a -> a_complete a' = a_complete a ->
  (forall z, written a z -> written a' z) ->
  alive_w pc' = alive_w pc ->
  holds pc' = holds pc \/ (holds pc' = None /\ (a_err a' <> None \/ a_ctx a' <> None \/ holds pc = None)) ->
  (forall idx retry ext w n, pc' = WBody idx retry ext w n -> body_ok a' ext w n) ->
  winv a' (<[id := pc']> ws).
Proof.
  intros Hw Hid Hst He Hc He' Hl Hso Hcap Ht Hown Hal Hcm Hwr Hpc Hh Hb.
  assert (Hhold : forall idx, holds pc' = Some idx -> holds pc = Some idx).
  { intros idx Hi. destruct Hh as [Hh|[Hh _]]; congruence. }
  apply (winv_move a a' ws id pc pc'); try done.
  - intros id2 pc2 idx [(<- & <- & _)|[_ H2]]%list_lookup_insert_Some Hi; rewrite Hst;
      eapply (wi_own _ _ Hw); eauto.
  - intros idx Hi id2 pc2 Hne H2 Hi2. apply Hne. eapply (wi_uniq _ _ Hw); eauto.
  - intros E C idx Hs. rewrite Hst in Hs.
    destruct (decide (holds pc' = Some idx)) as [|Hn]; [by left|right]. split_and!; auto.
    intros Hp. destruct Hh as [Hh|(Hh & [?|[?|?]])]; congruence.
  - intros id2 idx retry ext w n [(_ & Heq & _)|[_ H2]]%list_lookup_insert_Some; [by eapply Hb|].
    eapply body_ok_mono; [..|eapply (wi_body _ _ Hw), H2]; done.
  - rewrite Hal, Hpc. lia.
  - rewrite Hal, Hcm. intros H0. destruct (wi_exit _ _ Hw H0); auto.
  - rewrite Hl, Hown. intros Hseq id2 pc2 idx [(<- & <- & _)|[_ H2]]%list_lookup_insert_Some Hi;
      eapply (wi_owner _ _ Hw); eauto.
Qed.

(** Changes confined to the error, the context, the cursor and the
    notifications. *)
Record only_flags (a a' : assembly) : Prop := {
  of_cap : a_cap a' = a_cap a;
  of_dst : a_dst a' = a_dst a;
  of_state : a_state a' = a_state a;
  of_pending : a_pending a' = a_pending a;
  of_remaining : a_remaining a' = a_remaining a;
  of_layout : a_layout a' = a_layout a;
  of_seqOwner : a_seqOwner a' = a_seqOwner a;
  of_seqOff : a_seqOff a' = a_seqOff a;
  of_total : a_total a' = a_total a;
  of_sizeKnown : a_sizeKnown a' = a_sizeKnown a;
  of_partSize : a_partSize a' = a_partSize a;
  of_covered : a_covered a' = a_covered a;
  of_complete : a_complete a' = a_complete a;
  of_alive : a_alive a' = a_alive a;
  of_err : a_err a <> None -> a_err a' <> None;
  of_ctx : a_ctx a <> None -> a_ctx a' <> None
}.

Lemma winv_flags a a' ws : only_flags a a' -> winv a ws -> winv a' ws.
Proof.
  intros F Hw. split.
  - rewrite (of_state _ _ F). apply Hw.
  - apply Hw.
  - rewrite (of_state _ _ F). intros He Hc. apply Hw.
    + destruct (a_err a) eqn:E; [|done]. by destruct (of_err _ _ F); rewrite ?E.
    + destruct (a_ctx a) eqn:E; [|done]. by destruct (of_ctx _ _ F); rewrite ?E.
  - intros id idx retry ext w n H. eapply body_ok_mono; [..|eapply (wi_body _ _ Hw), H]; try apply F.
    unfold written. by rewrite (of_dst _ _ F).
  - rewrite (of_alive _ _ F). apply Hw.
  - rewrite (of_alive _ _ F), (of_complete _ _ F). intros H0.
    destruct (wi_exit _ _ Hw H0); [by left|right; by apply F].
  - rewrite (of_layout _ _ F), (of_seqOwner _ _ F). apply Hw.
Qed.

Lemma ainv_flags a a' : only_flags a a' -> a_next a' = a_next a -> ainv a -> ainv a'.
Proof.
  intros F En Ha. pose proof (of_err _ _ F) as He. destruct Ha as [H1 H2 H3 H4 H5 H6 H7 H8 H9 H10].
  split; unfold written, layout_ok, in_order in *;
    rewrite ?En, ?(of_cap _ _ F), ?(of_dst _ _ F), ?(of_state _ _ F), ?(of_pending _ _ F), ?(of_remaining _ _ F),
      ?(of_layout _ _ F), ?(of_seqOff _ _ F), ?(of_total _ _ F), ?(of_sizeKnown _ _ F), ?(of_partSize _ _ F),
      ?(of_covered _ _ F), ?(of_complete _ _ F); try done.
  intros Hr. destruct (H10 Hr); auto.
Qed.

Lemma failLocked_flags e a : only_flags a (failLocked e a) /\ a_next (failLocked e a) = a_next a.
Proof.
  unfold failLocked, cancel, notifyLocked. destruct (a_err a) eqn:He; [split; [split|]; congruence|].
  destruct (a_complete a) eqn:Hc; [split; [split|]; congruence|].
  cbn. destruct (a_ctx a) eqn:Hx; cbn; split; try split; cbn; congruence.
Qed.

Lemma failLocked_err e a : a_complete a = false -> a_err (failLocked e a) <> None.
Proof.
  unfold failLocked, cancel, notifyLocked. intros Hc. destruct (a_err a) eqn:He; [congruence|].
  rewrite Hc. cbn. by destruct (a_ctx a).
Qed.

Lemma fail_inv e a ws : ainv a -> winv a ws -> ainv (failLocked e a) /\ winv (failLocked e a) ws.
Proof.
  intros Ha Hw. destruct (failLocked_flags e a) as [F En]. split; [by eapply ainv_flags|by eapply winv_flags].
Qed.

(** * The workers' moves *)

(** Moves of one worker that keep what it holds, or drop it once the download
    is stopping. *)
Lemma pc_move a ws id pc pc' :
  winv a ws -> ws !! id = Some pc -> alive_w pc' = alive_w pc ->
  holds pc' = holds pc \/ (holds pc' = None /\ (a_err a <> None \/ a_ctx a <> None \/ holds pc = None)) ->
  (forall idx retry ext w n, pc' = WBody idx retry ext w n -> body_ok a ext w n) ->
  winv a (<[id := pc']> ws).
Proof. intros. eapply winv_step; eauto. Qed.

(** The error path of a fetch, after a change to the assembly. *)
Lemma fetchFailed_inv a ws id pc idx retry conn pc' a' :
  ainv a -> winv a ws -> ws !! id = Some pc -> holds pc = Some idx -> alive_w pc = 1 ->
  fetchFailed idx retry conn a = (pc', a') -> inv (MkConfig a' (<[id := pc']> ws)).
Proof.
  intros Ha Hw Hid Hh Hal. unfold fetchFailed.
  pose proof (wi_own _ _ Hw id pc idx Hid Hh) as Hst.
  destruct (bool_decide_reflect (a_ctx a <> None)) as [Hc|Hc].
  { intros [= <- <-]. split; [done|]. eapply pc_move; [done|done|done| |done]. right. auto. }
  destruct (conn && negb retry).
  { intros [= <- <-]. split; [done|]. eapply pc_move; [done|done|done| |done]. by left. }
  intros [= <- <-]. destruct (fail_inv errSegment a ws Ha Hw) as [Ha' Hw']. split; [done|].
  eapply pc_move; [done|done|done| |done]. right. split; [done|]. left. apply failLocked_err.
  by eapply inflight_left.
Qed.

(** * Picking *)

(** How far segment [i] is ahead of the cursor, going round. *)
Definition ahead (a : assembly) (i : nat) : nat :=
  if (a_next a <=? i)%nat then (i - a_next a)%nat else (i + length (a_state a) - a_next a)%nat.

Definition wrap (a : assembly) (x : nat) : nat :=
  if (length (a_state a) <=? x)%nat then (x - length (a_state a))%nat else x.

Lemma wrap_ahead a i :
  (a_next a < length (a_state a))%nat -> (i < length (a_state a))%nat ->
  wrap a (a_next a + ahead a i) = i /\ (ahead a i < length (a_state a))%nat.
Proof.
  intros Hn Hi. unfold wrap, ahead. destruct (Nat.leb_spec (a_next a) i).
  - destruct (Nat.leb_spec (length (a_state a)) (a_next a + (i - a_next a))); lia.
  - destruct (Nat.leb_spec (length (a_state a)) (a_next a + (i + length (a_state a) - a_next a))); lia.
Qed.

Lemma ahead_wrap a k :
  (a_next a < length (a_state a))%nat -> (k < length (a_state a))%nat -> ahead a (wrap a (a_next a + k)) = k.
Proof.
  intros Hn Hk. unfold wrap, ahead. destruct (Nat.leb_spec (length (a_state a)) (a_next a + k)).
  - destruct (Nat.leb_spec (a_next a) (a_next a + k - length (a_state a))); lia.
  - destruct (Nat.leb_spec (a_next a) (a_next a + k)); lia.
Qed.

Lemma pick_scan_spec m i a :
  match pick_scan m i a with
  | Some j => exists k, (i <= k < i + m)%nat /\ j = wrap a (a_next a + k) /\ isPending a j = true /\
      forall k', (i <= k' < k)%nat -> isPending a (wrap a (a_next a + k')) = false
  | None => forall k', (i <= k' < i + m)%nat -> isPending a (wrap a (a_next a + k')) = false
  end.
Proof.
  revert i. induction m as [|m IH]; intros i; cbn [pick_scan]; [intros; lia|].
  fold (wrap a (a_next a + i)). destruct (isPending a (wrap a (a_next a + i))) eqn:Hp.
  - exists i. split; [lia|]. split_and!; try done. intros; lia.
  - specialize (IH (S i)). destruct (pick_scan m (S i) a) as [j|].
    + destruct IH as (k & Hk & -> & Hj & Hb). exists k. split; [lia|]. split_and!; try done.
      intros k' Hk'. destruct (decide (k' = i)) as [->|]; [done|]. apply Hb. lia.
    + intros k' Hk'. destruct (decide (k' = i)) as [->|]; [done|]. apply IH. lia.
Qed.

(** pickLocked claims a pending segment whenever there is one: the first ahead
    of the cursor. *)
Lemma pickLocked_spec a :
  (a_next a < length (a_state a))%nat ->
  match pickLocked a with
  | (Some j, a') =>
      a_state a !! j = Some segPending /\
      (forall i, a_state a !! i = Some segPending -> (ahead a j <= ahead a i)%nat) /\
      a' = set_next (if (length (a_state a) <=? S j)%nat then 0%nat else S j)
             (set_pending (a_pending a - 1) (set_state (<[j := segInflight]> (a_state a)) a))
  | (None, a') => a' = a /\ (forall i, a_state a !! i <> Some segPending)
  end.
Proof.
  intros Hn. unfold pickLocked. pose proof (pick_scan_spec (length (a_state a)) 0 a) as H.
  destruct (pick_scan (length (a_state a)) 0 a) as [j|].
  - destruct H as (k & Hk & -> & Hp & Hb). apply isPending_spec in Hp. split; [done|]. split; [|done].
    intros i Hi. rewrite ahead_wrap by lia. destruct (wrap_ahead a i Hn) as [Hw Ha]; [by eapply lookup_lt_Some|].
    destruct (decide (ahead a i < k)%nat); [|lia]. specialize (Hb (ahead a i) ltac:(lia)).
    rewrite Hw in Hb. apply isPending_spec in Hi. congruence.
  - split; [done|]. intros i Hi. destruct (wrap_ahead a i Hn) as [Hw Ha]; [by eapply lookup_lt_Some|].
    specialize (H (ahead a i) ltac:(lia)). rewrite Hw in H. apply isPending_spec in Hi. congruence.
Qed.

(** The assembly after a segment is claimed. *)
Definition claim (j nx : nat) (a : assembly) : assembly :=
  set_next nx (set_pending (a_pending a - 1) (set_state (<[j := segInflight]> (a_state a)) a)).

Lemma claim_inv j nx a ws id :
  ainv a -> winv a ws -> ws !! id = Some WNext -> a_state a !! j = Some segPending ->
  a_err a = None -> a_ctx a = None -> (a_layout a = layoutSequential -> id = a_seqOwner a) ->
  (nx < length (a_state a))%nat -> layout_ok (claim j nx a) ->
  inv (MkConfig (claim j nx a) (<[id := WFetch j false]> ws)).
Proof.
  intros Ha Hw Hid Hj He Hc Hown Hnx Hlay. pose proof (lookup_lt_Some _ _ _ Hj) as Hjlt.
  assert (Hnone : forall id2 pc2, ws !! id2 = Some pc2 -> holds pc2 <> Some j).
  { intros id2 pc2 H2 Hh2. pose proof (wi_own _ _ Hw _ _ _ H2 Hh2). congruence. }
  split; cbn [c_asm c_workers].
  - destruct Ha. split; cbn [a_cap a_next a_state a_pending a_remaining a_covered a_layout a_total a_complete a_err a_sizeKnown claim set_next set_pending set_state]; try done.
    + by rewrite length_insert.
    + rewrite (sumZ_insert _ _ _ _ _ Hj). simpl. lia.
    + rewrite (sumZ_insert _ _ _ _ _ Hj). simpl. lia.
  - eapply winv_move; [done|done|..]; cbn [a_state a_err a_ctx a_alive a_complete a_layout a_seqOwner claim set_next set_pending set_state holds].
    + intros id2 pc2 idx [(<- & <- & _)|[_ H2]]%list_lookup_insert_Some Hh; simpl in Hh.
      * injection Hh as <-. by apply list_lookup_insert_eq.
      * rewrite list_lookup_insert_ne; [by eapply (wi_own _ _ Hw)|]. intros <-. by apply (Hnone id2 pc2).
    + intros idx [= <-] id2 pc2 _ H2. by apply Hnone with id2.
    + intros _ _ idx [(<- & _ & _)|[Hne Hs]]%list_lookup_insert_Some; [by left|]. right. done.
    + intros id2 idx retry ext w n [(_ & Heq & _)|[_ H2]]%list_lookup_insert_Some; [done|].
      eapply body_ok_mono; [..|eapply (wi_body _ _ Hw), H2]; done.
    + simpl. lia.
    + apply (wi_exit _ _ Hw).
    + intros Hseq id2 pc2 idx [(<- & <- & _)|[_ H2]]%list_lookup_insert_Some Hh; [by apply Hown|].
      by eapply (wi_owner _ _ Hw).
Qed.

(** In a sequential download only the next segment in line can be claimed, and
    only when nobody is fetching it. *)
Lemma seq_claim a k j :
  in_order a k -> (a_next a < length (a_state a))%nat -> a_state a !! k <> Some segInflight ->
  a_state a !! j = Some segPending -> (forall i, a_state a !! i = Some segPending -> (ahead a j <= ahead a i)%nat) ->
  j = k.
Proof.
  intros (Hk & Hdone & Hpend & Hnd & Hnx & Hnx') Hn Hni Hj Hmin.
  pose proof (lookup_lt_Some _ _ _ Hj) as Hjlt.
  destruct (Nat.lt_trichotomy j k) as [Hlt|[->|Hgt]]; [|done|].
  - by rewrite Hdone in Hj.
  - assert (a_state a !! k = Some segPending) as Hkp.
    { destruct (lookup_lt_is_Some_2 (a_state a) k) as [s Hs]; [lia|]. rewrite Hs in *. by destruct s. }
    specialize (Hmin k Hkp). specialize (Hnx Hkp). unfold ahead in Hmin.
    destruct (Nat.leb_spec (a_next a) j), (Nat.leb_spec (a_next a) k); lia.
Qed.

Lemma next_inv a ws id idx a' :
  inv (MkConfig a ws) -> ws !! id = Some WNext -> nextSegment id a = (NSeg idx, a') ->
  inv (MkConfig a' (<[id := WFetch idx false]> ws)).
Proof.
  intros [Ha Hw] Hid. cbn in Ha, Hw. unfold nextSegment.
  destruct (bool_decide_reflect (a_err a <> None)) as [He|He]; [done|]. apply dec_stable in He.
  destruct (a_complete a) eqn:Hcm; [done|].
  destruct (bool_decide_reflect (a_ctx a <> None)) as [Hc|Hc]; [done|]. apply dec_stable in Hc. cbn [orb].
  destruct (bool_decide (a_layout a = layoutSequential) && negb (id =? a_seqOwner a)%nat) eqn:Hseq; [done|].
  assert (Hown : a_layout a = layoutSequential -> id = a_seqOwner a).
  { intros Hl. rewrite bool_decide_true in Hseq by done. bool_to_prop. apply negb_false_iff in Hseq.
    by apply Nat.eqb_eq in Hseq. }
  pose proof (ai_layout _ Ha) as Hlay. pose proof (ai_next _ Ha) as Hn.
  destruct (bool_decide_reflect (a_layout a = layoutUnknown)) as [Hl|Hl].
  - destruct (isPending a 0) eqn:Hp; [|done]. apply isPending_spec in Hp. intros [= <- <-].
    change (set_pending _ _) with (set_pending (a_pending a - 1) (set_state (<[0%nat := segInflight]> (a_state a)) a)).
    replace (set_pending (a_pending a - 1) (set_state (<[0%nat := segInflight]> (a_state a)) a))
      with (claim 0 0 a).
    2: { unfold layout_ok in Hlay. rewrite Hl in Hlay. destruct Hlay as (_ & _ & _ & _ & _ & Hx & _).
         unfold claim. rewrite <- Hx. by destruct a. }
    apply claim_inv; try done; [lia|]. unfold layout_ok in *. cbn [a_layout claim set_next set_pending set_state].
    rewrite Hl in *. destruct Hlay as (? & ? & ? & ? & ? & ? & Hst). do 6 (split; [done|]).
    intros j s. cbn [a_state claim set_next set_pending set_state].
    intros [(<- & <- & _)|[_ Hs]]%list_lookup_insert_Some; [by right|by apply Hst].
  - destruct (0 <? a_pending a) eqn:Hpd; bool_to_prop; [|done].
    pose proof (pickLocked_spec a Hn) as Hpick. destruct (pickLocked a) as [[j|] a1]; [|done].
    destruct Hpick as (Hj & Hmin & ->). intros [= -> <-].
    fold (claim idx (if (length (a_state a) <=? S idx)%nat then 0%nat else S idx) a).
    pose proof (lookup_lt_Some _ _ _ Hj). apply claim_inv; try done.
    { destruct (Nat.leb_spec (length (a_state a)) (S idx)); lia. }
    unfold layout_ok in *. cbn [a_layout claim set_next set_pending set_state]. destruct (a_layout a) eqn:El; [done|done|].
    destruct Hlay as (H1 & H2 & H3 & k & Hk). do 3 (split; [assumption|]). exists k.
    assert (Hki : a_state a !! k <> Some segInflight).
    { intros Hs. destruct (wi_inflight _ _ Hw He Hc k Hs) as (id2 & pc2 & Hid2 & Hh2).
      pose proof (wi_owner _ _ Hw El id2 pc2 k Hid2 Hh2). rewrite (Hown eq_refl) in Hid. subst id2.
      rewrite Hid in Hid2. by injection Hid2 as <-. }
    assert (idx = k) as -> by (by eapply seq_claim).
    destruct Hk as (K1 & K2 & K3 & K4 & K5 & K6). unfold in_order.
    cbn [a_state a_next claim set_next set_pending set_state]. rewrite length_insert. split_and!; try done.
    + intros j Hjk. rewrite list_lookup_insert_ne by lia. by apply K2.
    + intros j s Hjk. rewrite list_lookup_insert_ne by lia. by apply K3.
    + rewrite list_lookup_insert_eq by done. done.
    + rewrite list_lookup_insert_eq by done. done.
    + destruct (Nat.leb_spec (length (a_state a)) (S k)); lia.
Qed.

(** * Articles *)

Lemma fixLayout_inv a ws id idx retry h a1 :
  inv (MkConfig a ws) -> ws !! id = Some (WFetch idx retry) -> fixLayout id h a = Ok a1 ->
  inv (MkConfig a1 ws) /\ a_layout a1 <> layoutUnknown.
Proof.
  intros Hi Hid. destruct (holds_left _ _ _ idx Hi Hid eq_refl) as (Hst & Hrem & Hcm).
  destruct Hi as [Ha Hw]. cbn in Ha, Hw, Hst, Hrem, Hcm. unfold fixLayout.
  destruct (bool_decide_reflect (a_layout a = layoutUnknown)) as [Hl|Hl]; [|by intros [= <-]].
  pose proof (ai_layout _ Ha) as Hlay. unfold layout_ok in Hlay. rewrite Hl in Hlay.
  destruct Hlay as (Hcov & Hdst & Hso & Hsk & Hc & Hn & Hsts).
  assert (idx = 0%nat) as ->. { destruct (Hsts idx segInflight Hst) as [|[? _]]; done. }
  assert (Hnobody : forall id2 i r ext w n, ws !! id2 <> Some (WBody i r ext w n)).
  { intros id2 i r ext w n H2. pose proof (wi_body _ _ Hw _ _ _ _ _ _ H2) as (_ & _ & _ & _ & _ & Hb).
    by rewrite Hl in Hb. }
  destruct (selfDescribing h (length (a_state a))) eqn:Hsd.
  - destruct (a_cap a <? h_Size h) eqn:Hcap; [done|]. bool_to_prop. intros [= <-]. split; [|done].
    assert (Hpart : 0 < h_Size h /\ 0 < (if h_HasPart h then h_End h - h_Begin h + 1 else h_Size h)).
    { unfold selfDescribing in Hsd. destruct (h_Size h <=? 0) eqn:?; [done|]. bool_to_prop. split; [lia|].
      destruct (length (a_state a) =? 1)%nat, (h_HasPart h); cbn [negb orb] in Hsd; bool_to_prop; lia. }
    split; cbn [c_asm c_workers].
    + destruct Ha. split; try done.
      * intros z [x Hz]. unfold written in Hz. cbn in Hz. rewrite Hdst in Hz. by rewrite lookup_empty in Hz.
      * unfold layout_ok. cbn. split; [done|]. split; [lia|apply Hpart].
      * cbn. congruence.
    + destruct Hw as [W1 W2 W3 W4 W5 W6 W7]. split; try done. intros id2 i r ext w n H2. by destruct (Hnobody id2 i r ext w n).
  - intros [= <-]. split; [|done]. split; cbn [c_asm c_workers].
    + destruct Ha as [A1 A2 A3 A4 A5 A6 A7 A8 A9 A10]. split; try done.
      { intros z Hz. split; [by apply A7|done]. }
      unfold layout_ok. cbn. rewrite Hso, Hcov. split; [lia|]. split; [done|]. split; [congruence|].
      exists 0%nat. unfold in_order. cbn. rewrite Hst, Hn. split; [lia|]. split; [lia|]. split.
      { intros j s Hj Hs. destruct (Hsts j s Hs) as [|[? _]]; [done|lia]. }
      split; [done|]. split; [done|lia].
    + destruct Hw as [W1 W2 W3 W4 W5 W6 W7]. split; try done.
      * intros id2 i r ext w n H2. by destruct (Hnobody id2 i r ext w n).
      * cbn. intros _ id2 pc2 i H2 Hh2. pose proof (W1 _ _ _ H2 Hh2) as Hi2.
        destruct (Hsts i segInflight Hi2) as [|[-> _]]; [done|]. by apply (W2 id2 id pc2 (WFetch 0 retry) 0%nat).
Qed.

Lemma placeArticle_ok a h w ext :
  ainv a -> a_layout a <> layoutUnknown -> placeArticle h a = Ok (w, ext) -> body_ok a ext w 0.
Proof.
  intros Ha Hl. pose proof (ai_layout _ Ha) as Hlay. unfold layout_ok in Hlay. unfold placeArticle, body_ok.
  destruct (a_layout a) eqn:El; [done| |].
  - rewrite bool_decide_false by done. destruct Hlay as (_ & Ht & _). destruct (h_HasPart h).
    + destruct (negb (h_Size h =? a_total a)); [done|].
      destruct ((h_Begin h <? 1) || (h_End h <? h_Begin h) || (a_total a <? h_End h)) eqn:E; [done|].
      bool_to_prop. intros [= <- <-]. cbn. split_and!; try lia.
    + destruct ((length (a_state a) =? 1)%nat && (h_Size h =? a_total a)); [|done].
      intros [= <- <-]. cbn. split_and!; try lia.
  - rewrite bool_decide_true by done. intros [= <- <-]. cbn. destruct Hlay as (Hs & _). split_and!; try lia.
Qed.

Lemma open_inv a ws id idx retry h w ext a' :
  inv (MkConfig a ws) -> ws !! id = Some (WFetch idx retry) -> openSegment id h a = (Ok (w, ext), a') ->
  inv (MkConfig a' (<[id := WBody idx retry ext w 0]> ws)).
Proof.
  intros Hi Hid. unfold openSegment. destruct (fixLayout id h a) as [a1|e] eqn:Hf; [|done].
  intros [= Hp <-]. destruct (fixLayout_inv _ _ _ _ _ _ _ Hi Hid Hf) as [[Ha Hw] Hl]. split; [done|].
  cbn. eapply pc_move; [exact Hw|exact Hid|done|by left|]. intros ? ? ? ? ? [= <- <- <- <- <-].
  by eapply placeArticle_ok.
Qed.

Lemma refuse_inv a ws id idx retry h e a' pc a'' :
  inv (MkConfig a ws) -> ws !! id = Some (WFetch idx retry) -> openSegment id h a = (Err e, a') ->
  fetchFailed idx retry false a' = (pc, a'') -> inv (MkConfig a'' (<[id := pc]> ws)).
Proof.
  intros Hi Hid. unfold openSegment. destruct (fixLayout id h a) as [a1|e1] eqn:Hf.
  - intros [= _ <-] Hff. destruct (fixLayout_inv _ _ _ _ _ _ _ Hi Hid Hf) as [[Ha Hw] Hl].
    by eapply (fetchFailed_inv a1 ws id (WFetch idx retry)).
  - intros [= _ <-] Hff. destruct Hi as [Ha Hw].
    by eapply (fetchFailed_inv a ws id (WFetch idx retry)).
Qed.

(** * Writing *)

Lemma writeAt_lookup p off dst z :
  writeAt p off dst !! z =
  if decide (off <= z < off + Z.of_nat (length p)) then p !! Z.to_nat (z - off) else dst !! z.
Proof.
  revert off dst. induction p as [|b p IH]; intros off dst; cbn [writeAt length].
  { case_decide; [lia|done]. }
  rewrite IH. destruct (decide (z = off)) as [->|Hz].
  - rewrite !decide_False by lia. rewrite decide_True by lia. rewrite lookup_insert_eq.
    by replace (off - off) with 0 by lia.
  - destruct (decide (off + 1 <= z < off + 1 + Z.of_nat (length p))).
    + rewrite decide_True by lia. replace (Z.to_nat (z - off)) with (S (Z.to_nat (z - (off + 1)))) by lia. done.
    + rewrite decide_False by lia. by rewrite lookup_insert_ne.
Qed.

Lemma writeAt_written p off dst z :
  is_Some (writeAt p off dst !! z) <-> off <= z < off + Z.of_nat (length p) \/ is_Some (dst !! z).
Proof.
  rewrite writeAt_lookup. case_decide; [|tauto]. split; [auto|]. intros _. apply lookup_lt_is_Some_2. lia.
Qed.

(** A write by a body stays inside its extent and keeps every invariant. *)
Lemma segWrite_inv a ws id idx retry ext w n p k w' dst' :
  inv (MkConfig a ws) -> ws !! id = Some (WBody idx retry ext w n) ->
  segWrite p k w (a_dst a) = (None, w', dst') ->
  ainv (set_dst dst' a) /\ winv (set_dst dst' a) ws /\
  body_ok (set_dst dst' a) ext w' (n + Z.of_nat (length (take k p))).
Proof.
  intros [Ha Hw] Hid. cbn in Ha, Hw. pose proof (wi_body _ _ Hw _ _ _ _ _ _ Hid) as Hb.
  unfold segWrite. destruct (w_remain w <? Z.of_nat (length p)) eqn:Hrem; [done|]. bool_to_prop.
  intros [= <- <-]. set (q := take k p). assert (Hq : (length q <= length p)%nat) by (unfold q; rewrite length_take; lia).
  destruct Hb as (B1 & B2 & B3 & B4 & B5 & B6).
  assert (Hwr : forall z, written (set_dst (writeAt q (w_off w) (a_dst a)) a) z <->
    w_off w <= z < w_off w + Z.of_nat (length q) \/ written a z) by (intros z; apply writeAt_written).
  assert (Hcap : w_off w + w_remain w <= a_cap a /\ (a_layout a = layoutParallel -> w_off w + w_remain w <= a_total a)).
  { pose proof (ai_layout _ Ha) as Hlay. unfold layout_ok in Hlay. destruct (a_layout a); [done| |]; [|split; [lia|done]].
    destruct Hlay as (_ & ? & _). split; [lia|intros _; lia]. }
  split_and!.
  - pose proof Ha as [A1 A2 A3 A4 A5 A6 A7 A8 A9 A10]. split; try done.
    + intros z Hz. apply Hwr. right. by apply A6.
    + intros z Hz%Hwr. cbn [a_cap a_layout a_total set_dst]. destruct Hz as [Hz|Hz]; [|by apply A7].
      destruct Hcap as [? Hct]. split; [lia|]. intros Hl. specialize (Hct Hl). lia.
    + unfold layout_ok in *. cbn. destruct (a_layout a); [done|done|exact A8].
  - destruct Hw as [W1 W2 W3 W4 W5 W6 W7]. split; try done.
    intros id2 i r e2 w2 n2 H2. eapply body_ok_mono; [..|eapply W4, H2]; try done.
    intros z Hz. apply Hwr. by right.
  - unfold body_ok. cbn [w_off w_remain a_layout a_total a_cap a_seqOff set_dst]. split_and!; try lia.
    + intros z Hz. apply Hwr. destruct (decide (z < w_off w)); [right; apply B5; lia|left; lia].
    + destruct (a_layout a); [done| |]; destruct_and!; split_and!; try lia.
Qed.

Lemma write_inv a ws id idx retry ext w n p w' dst' :
  inv (MkConfig a ws) -> ws !! id = Some (WBody idx retry ext w n) ->
  segWrite p (length p) w (a_dst a) = (None, w', dst') ->
  inv (MkConfig (set_dst dst' a) (<[id := WBody idx retry ext w' (n + Z.of_nat (length p))]> ws)).
Proof.
  intros Hi Hid Hs. destruct (segWrite_inv _ _ _ _ _ _ _ _ _ _ _ _ Hi Hid Hs) as (Ha & Hw & Hb).
  split; [done|]. cbn. eapply pc_move; [exact Hw|exact Hid|done|by left|].
  intros ? ? ? ? ? [= <- <- <- <- <-]. by rewrite firstn_all in Hb.
Qed.

(** * Completing a segment *)

Lemma seq_covered_add off n :
  0 <= off -> 0 < n -> addCovered (seq_covered off) (MkExt off (off + n)) = seq_covered (off + n).
Proof.
  intros Ho Hn. unfold seq_covered. destruct (off + n =? 0) eqn:E; bool_to_prop; [lia|].
  destruct (off =? 0) eqn:E0; bool_to_prop.
  - subst. done.
  - unfold addCovered, Search. cbn [length search_loop Nat.ltb Nat.leb Nat.add Nat.div2].
    unfold ext_at. cbn [lookup list_lookup default from_option e_start e_end id].
    destruct (off <=? off) eqn:?; bool_to_prop; [|lia]. cbn [search_loop drop absorb e_start e_end].
    destruct (0 <=? off + n) eqn:?; bool_to_prop; [|lia]. cbn.
    replace (Z.min off 0) with 0 by lia. replace (Z.max (off + n) off) with (off + n) by lia. done.
Qed.

(** The assembly with one more segment done, before the final check. *)
Definition doneState (idx : nat) (ext : extent) (n : Z) (a : assembly) : assembly :=
  let parallel := bool_decide (a_layout a = layoutParallel) in
  let ext := if parallel then ext else MkExt (e_start ext) (e_start ext + n) in
  let a := if parallel then a else set_seqOff (e_end ext) a in
  let a := set_state (<[idx := segDone]> (a_state a)) a in
  let a := set_remaining (a_remaining a - 1) a in
  if 0 <? n then set_covered (addCovered (a_covered a) ext) a else a.

Lemma completeSegment_eq idx ext n a :
  completeSegment idx ext n a =
    let want := e_end ext - e_start ext in
    if bool_decide (a_layout a = layoutParallel) && negb (n =? want) then (Some (errDecoded n want), a)
    else
      let a := doneState idx ext n a in
      (None, notifyLocked (if a_remaining a =? 0 then finalizeLocked a else a)).
Proof. done. Qed.

Lemma doneState_parts idx ext n a :
  let a' := doneState idx ext n a in
  a_cap a' = a_cap a /\ a_dst a' = a_dst a /\ a_ctx a' = a_ctx a /\ a_err a' = a_err a /\
  a_state a' = <[idx := segDone]> (a_state a) /\ a_pending a' = a_pending a /\
  a_remaining a' = a_remaining a - 1 /\ a_next a' = a_next a /\ a_alive a' = a_alive a /\
  a_layout a' = a_layout a /\ a_seqOwner a' = a_seqOwner a /\ a_total a' = a_total a /\
  a_sizeKnown a' = a_sizeKnown a /\ a_partSize a' = a_partSize a /\ a_complete a' = a_complete a.
Proof. unfold doneState. destruct (bool_decide _), (0 <? n); cbn; split_and!; done. Qed.

Lemma doneState_ainv a ws id idx retry ext w n :
  inv (MkConfig a ws) -> ws !! id = Some (WBody idx retry ext w n) ->
  a_layout a = layoutParallel -> n = e_end ext - e_start ext ->
  ainv (set_err (Some errStopped) (doneState idx ext n a)).
Proof.
  intros Hi Hid Hl Hn. destruct (holds_left _ _ _ idx Hi Hid eq_refl) as (Hst & Hrem & Hcm).
  destruct Hi as [Ha Hw]. cbn in Ha, Hw, Hst, Hrem, Hcm.
  pose proof (wi_body _ _ Hw _ _ _ _ _ _ Hid) as (B1 & B2 & B3 & B4 & B5 & B6). rewrite Hl in B6.
  destruct B6 as [B6 B7]. destruct Ha as [A1 A2 A3 A4 A5 A6 A7 A8 A9 A10].
  unfold doneState. rewrite Hl, bool_decide_true by done.
  destruct (0 <? n) eqn:Hn0; bool_to_prop; [|lia].
  destruct (addCovered_spec (a_covered a) ext A5 ltac:(lia)) as [Hcan Hcov].
  split; cbn [a_cap a_next a_state a_pending a_remaining a_covered a_layout a_total a_complete a_err a_sizeKnown
    set_err set_covered set_remaining set_state]; try done.
  - by rewrite length_insert.
  - rewrite (sumZ_insert _ _ _ _ _ Hst). simpl. lia.
  - rewrite (sumZ_insert _ _ _ _ _ Hst). simpl. lia.
  - intros z [Hz|Hz]%Hcov; [|by apply A6]. apply B5. unfold in_ext in Hz. lia.
  - unfold layout_ok in *. cbn. rewrite Hl in *. done.
  - congruence.
  - by right.
Qed.

Lemma doneState_ainv_seq a ws id idx retry ext w n :
  inv (MkConfig a ws) -> ws !! id = Some (WBody idx retry ext w n) -> a_layout a = layoutSequential ->
  ainv (set_err (Some errStopped) (doneState idx ext n a)).
Proof.
  intros Hi Hid Hl. destruct (holds_left _ _ _ idx Hi Hid eq_refl) as (Hst & Hrem & Hcm).
  destruct Hi as [Ha Hw]. cbn in Ha, Hw, Hst, Hrem, Hcm.
  pose proof (wi_body _ _ Hw _ _ _ _ _ _ Hid) as (B1 & B2 & B3 & B4 & B5 & B6). rewrite Hl in B6.
  destruct B6 as [B6 B7]. destruct Ha as [A1 A2 A3 A4 A5 A6 A7 A8 A9 A10].
  unfold layout_ok in A8. rewrite Hl in A8. destruct A8 as (L1 & L2 & L3 & k & L4).
  assert (Ecov : (if 0 <? n then addCovered (a_covered a) (MkExt (e_start ext) (e_start ext + n)) else a_covered a)
    = seq_covered (a_seqOff a + n)).
  { rewrite B6, L2. destruct (0 <? n) eqn:?; bool_to_prop; [by apply seq_covered_add; [apply L1|]|].
    by replace (a_seqOff a + n) with (a_seqOff a) by lia. }
  assert (Hcov : canonical (seq_covered (a_seqOff a + n)) /\
    forall z, covers (seq_covered (a_seqOff a + n)) z -> written a z).
  { split.
    - unfold seq_covered. destruct (_ =? 0) eqn:?; bool_to_prop; [done|]. cbn. lia.
    - intros z Hz. rewrite <- Ecov in Hz. destruct (0 <? n) eqn:?; bool_to_prop; [|by apply A6].
      apply (addCovered_spec (a_covered a) (MkExt (e_start ext) (e_start ext + n)) A5) in Hz; [|cbn; lia].
      destruct Hz as [Hz|Hz]; [|by apply A6]. apply B5. unfold in_ext in Hz. cbn in Hz. lia. }
  assert (idx = k) as ->.
  { destruct L4 as (_ & K2 & K3 & _). destruct (Nat.lt_trichotomy idx k) as [Hlt|[->|Hgt]]; [|done|].
    - by rewrite K2 in Hst.
    - by specialize (K3 idx segInflight Hgt Hst). }
  pose proof (lookup_lt_Some _ _ _ Hst) as Hklt.
  assert (Eq : set_err (Some errStopped) (doneState k ext n a) =
    set_err (Some errStopped) (set_covered (seq_covered (a_seqOff a + n)) (set_remaining (a_remaining a - 1)
      (set_state (<[k := segDone]> (a_state a)) (set_seqOff (a_seqOff a + n) a))))).
  { unfold doneState. rewrite Hl, bool_decide_false by done. rewrite <- Ecov, <- B6. by destruct (0 <? n). }
  rewrite Eq. clear Eq.
  split; cbn [a_cap a_next a_state a_pending a_remaining a_covered a_layout a_total a_complete a_err a_sizeKnown
    set_err set_covered set_remaining set_state set_seqOff]; try done.
  - by rewrite length_insert.
  - rewrite (sumZ_insert _ _ _ _ _ Hst). simpl. lia.
  - rewrite (sumZ_insert _ _ _ _ _ Hst). simpl. lia.
  - apply Hcov.
  - apply Hcov.
  - unfold layout_ok. cbn. rewrite Hl. split; [lia|]. split; [done|]. split.
    { intros Hk. destruct (L3 Hk). lia. }
    exists (S k). destruct L4 as (K1 & K2 & K3 & K4 & K5 & K6). unfold in_order. cbn. rewrite length_insert.
    split; [lia|]. split_and!; [| | |intros _; lia|lia].
    + intros j Hj. destruct (decide (j = k)) as [->|]; [by apply list_lookup_insert_eq|].
      rewrite list_lookup_insert_ne by lia. apply K2. lia.
    + intros j s Hj. rewrite list_lookup_insert_ne by lia. apply K3. lia.
    + rewrite list_lookup_insert_ne by lia. intros Hs. by specialize (K3 (S k) segDone ltac:(lia) Hs).
  - congruence.
  - by right.
Qed.

Lemma doneState_winv a ws id idx retry ext w n :
  inv (MkConfig a ws) -> ws !! id = Some (WBody idx retry ext w n) ->
  winv (doneState idx ext n a) (<[id := WNext]> ws).
Proof.
  intros Hi Hid. destruct (holds_left _ _ _ idx Hi Hid eq_refl) as (Hst & Hrem & Hcm).
  destruct Hi as [Ha Hw]. cbn in Ha, Hw, Hst, Hrem, Hcm.
  pose proof (doneState_parts idx ext n a) as P. set (a' := doneState idx ext n a) in *. cbn zeta in P.
  destruct P as (P1 & P2 & P3 & P4 & P5 & P6 & P7 & P8 & P9 & P10 & P11 & P12 & P13 & P14 & P15).
  pose proof (lookup_lt_Some _ _ _ Hst) as Hlt.
  assert (Hother : forall id2 pc2 i, id2 <> id -> ws !! id2 = Some pc2 -> holds pc2 = Some i -> i <> idx).
  { intros id2 pc2 i Hne H2 Hh ->. apply Hne. eapply (wi_uniq _ _ Hw id2 id); eauto. }
  eapply winv_move; [done|exact Hid|..]; rewrite ?P3, ?P4, ?P5, ?P9, ?P10, ?P11, ?P15.
  - intros id2 pc2 i [(_ & <- & _)|[Hne H2]]%list_lookup_insert_Some Hh; [done|].
    rewrite list_lookup_insert_ne by (intros <-; by apply (Hother id2 pc2 idx)). by eapply (wi_own _ _ Hw).
  - done.
  - intros He Hc i [(<- & ? & _)|[Hne Hs]]%list_lookup_insert_Some; [done|]. right. split_and!; try done.
    simpl. congruence.
  - intros id2 i r e2 w2 n2 [(_ & ? & _)|[Hne H2]]%list_lookup_insert_Some; [done|].
    pose proof (wi_body _ _ Hw _ _ _ _ _ _ H2) as Hb.
    destruct (decide (a_layout a = layoutSequential)) as [Hs|Hs].
    + destruct Hne. rewrite (wi_owner _ _ Hw Hs id _ _ Hid eq_refl).
      by rewrite (wi_owner _ _ Hw Hs id2 _ _ H2 eq_refl).
    + destruct Hb as (B1 & B2 & B3 & B4 & B5 & B6). unfold body_ok. rewrite P10, P12.
      split_and!; try done; [|by destruct (a_layout a)]. intros z Hz. unfold written. rewrite P2. by apply B5.
  - simpl. lia.
  - apply (wi_exit _ _ Hw).
  - intros Hs id2 pc2 i [(_ & <- & _)|[Hne H2]]%list_lookup_insert_Some Hh; [done|].
    by eapply (wi_owner _ _ Hw).
Qed.

(** Nobody holds a segment: only the counters matter. *)
Lemma winv_idle a ws :
  (forall id pc, ws !! id = Some pc -> holds pc = None) ->
  (forall idx, a_state a !! idx <> Some segInflight) ->
  a_alive a = sumZ alive_w ws -> (a_alive a = 0 -> a_complete a = true \/ a_err a <> None) -> winv a ws.
Proof.
  intros Hh Hs Hal He. split; try done.
  - intros id pc idx H1 H2. by rewrite (Hh _ _ H1) in H2.
  - intros id1 id2 pc1 pc2 idx H1 H2 H3 _. by rewrite (Hh _ _ H1) in H3.
  - intros _ _ idx Hi. by destruct (Hs idx).
  - intros id idx retry ext w n H1. by pose proof (Hh _ _ H1).
  - intros _ id pc idx H1 H2. by rewrite (Hh _ _ H1) in H2.
Qed.

Lemma finalize_inv a ws :
  ainv (set_err (Some errStopped) a) -> winv a ws -> a_layout a <> layoutUnknown ->
  a_complete a = false -> a_remaining a = 0 ->
  inv (MkConfig (finalizeLocked a) ws).
Proof.
  intros Ha Hw Hl Hc Hr.
  assert (Hnone : forall idx, a_state a !! idx <> Some segInflight).
  { intros idx Hs. pose proof (ai_remaining _ Ha) as Hsum. cbn [a_remaining set_err a_state] in Hsum.
    apply list_elem_of_lookup_2 in Hs. rewrite Hr in Hsum.
    pose proof (sumZ_elem_le left_w _ _ (fun s _ => left_w_nonneg s) Hs) as H1.
    rewrite <- Hsum in H1. cbn in H1. lia. }
  assert (Hidle : forall id pc, ws !! id = Some pc -> holds pc = None).
  { intros id pc H1. destruct (holds pc) as [idx|] eqn:E; [|done].
    by destruct (Hnone idx (wi_own _ _ Hw _ _ _ H1 E)). }
  unfold finalizeLocked. set (a1 := if bool_decide (a_layout a = layoutSequential) then _ else a).
  assert (H1 : ainv (set_err (Some errStopped) a1) /\ a_remaining a1 = 0 /\ a_sizeKnown a1 = true /\
    a_state a1 = a_state a /\ a_alive a1 = a_alive a /\ a_err a1 = a_err a /\ a_complete a1 = false).
  { unfold a1. destruct Ha as [A1 A2 A3 A4 A5 A6 A7 A8 A9 A10]. unfold layout_ok in A8.
    cbn [a_layout a_seqOff a_cap a_covered a_sizeKnown a_remaining a_total a_partSize set_err] in A8.
    destruct (bool_decide_reflect (a_layout a = layoutSequential)) as [El|El].
    - rewrite El in A8. destruct A8 as (L1 & L2 & L3 & k & L4). split; [|done]. split; try done.
      + intros z Hz. destruct (A7 z Hz) as [? _]. split; [done|]. cbn. congruence.
      + unfold layout_ok. cbn. rewrite El. split; [done|]. split; [done|]. split; [intros _; by split|]. by exists k.
      + cbn. congruence.
    - destruct (a_layout a) eqn:Ela; [done| |done]. destruct A8 as (L1 & L2 & L3). split; [|done]. split; try done.
      unfold layout_ok. cbn. rewrite Ela. by split. }
  destruct H1 as (H1 & H2 & H3 & H4 & H5 & H6 & H7). clearbody a1.
  destruct (tiled (a_total a1) (a_covered a1)) eqn:Ht.
  - split; cbn [c_asm c_workers].
    + destruct H1 as [A1 A2 A3 A4 A5 A6 A7 A8 A9 A10]. split; try done; [|by left].
      unfold layout_ok in *. cbn [a_layout set_complete set_err] in *.
      destruct (a_layout a1); [|exact A8|exact A8]. destruct A8 as (_ & _ & _ & Hsk & _). cbn in Hsk. congruence.
    + apply winv_idle; [done|cbn; by rewrite H4| |by left]. cbn. rewrite H5. apply Hw.
  - set (e := errTiling _ _). destruct (failLocked_flags e a1) as [F En].
    pose proof (failLocked_err e a1 H7) as He. split; cbn [c_asm c_workers].
    + apply (ainv_flags (set_err (Some errStopped) a1)); [|by rewrite En|done].
      destruct F. split; try done.
    + apply winv_idle; [done|rewrite (of_state _ _ F), H4; done| |by right].
      rewrite (of_alive _ _ F), H5. apply Hw.
Qed.

Lemma done_inv a ws id idx retry ext w n a' :
  inv (MkConfig a ws) -> ws !! id = Some (WBody idx retry ext w n) -> completeSegment idx ext n a = (None, a') ->
  inv (MkConfig a' (<[id := WNext]> ws)).
Proof.
  intros Hi Hid. rewrite completeSegment_eq. cbn zeta.
  destruct (bool_decide (a_layout a = layoutParallel) && negb (n =? e_end ext - e_start ext)) eqn:Hg; [done|].
  intros [= <-]. pose proof (doneState_winv _ _ _ _ _ _ _ _ Hi Hid) as Hw1.
  destruct (holds_left _ _ _ idx Hi Hid eq_refl) as (_ & _ & Hcm). cbn in Hcm.
  assert (Hl : a_layout a <> layoutUnknown).
  { intros Hl. pose proof (wi_body _ _ (proj2 Hi) _ _ _ _ _ _ Hid) as (_ & _ & _ & _ & _ & Hb). cbn in Hb. by rewrite Hl in Hb. }
  assert (Ha1 : ainv (set_err (Some errStopped) (doneState idx ext n a))).
  { destruct (a_layout a) eqn:El; [done| |].
    - eapply doneState_ainv; [done|done|done|]. rewrite bool_decide_true in Hg by done. cbn in Hg.
      apply negb_false_iff in Hg. by apply Z.eqb_eq in Hg.
    - by eapply doneState_ainv_seq. }
  destruct (doneState_parts idx ext n a) as (P1 & P2 & P3 & P4 & P5 & P6 & P7 & P8 & P9 & P10 & P11 & P12 & P13 & P14 & P15).
  set (a1 := doneState idx ext n a) in *.
  assert (Hinv : inv (MkConfig (if a_remaining a1 =? 0 then finalizeLocked a1 else a1) (<[id := WNext]> ws))).
  { destruct (a_remaining a1 =? 0) eqn:Hr; bool_to_prop.
    - apply finalize_inv; try done; [by rewrite P10|by rewrite P15].
    - split; [|done]. cbn. destruct Ha1 as [A1 A2 A3 A4 A5 A6 A7 A8 A9 A10]. split; try done. }
  destruct Hinv as [Ha2 Hw2]. cbn in Ha2, Hw2. set (a2 := if a_remaining a1 =? 0 then _ else a1) in *.
  assert (F : only_flags a2 (notifyLocked a2)) by (by split).
  split; [by apply (ainv_flags a2)|by apply (winv_flags a2)].
Qed.

(** * Leaving, steering, cancelling *)

Lemma requeue_inv a ws id idx pc' :
  inv (MkConfig a ws) -> ws !! id = Some (WRedial idx) -> alive_w pc' = 1 -> holds pc' = None ->
  inv (MkConfig (requeue idx a) (<[id := pc']> ws)).
Proof.
  intros Hi Hid Hal' Hh'. destruct (holds_left _ _ _ idx Hi Hid eq_refl) as (Hst & Hrem & Hcm).
  destruct Hi as [Ha Hw]. cbn in Ha, Hw, Hst, Hrem, Hcm. pose proof (lookup_lt_Some _ _ _ Hst) as Hlt.
  assert (Hother : forall id2 pc2 i, id2 <> id -> ws !! id2 = Some pc2 -> holds pc2 = Some i -> i <> idx).
  { intros id2 pc2 i Hne H2 Hh ->. apply Hne. eapply (wi_uniq _ _ Hw id2 id); eauto. }
  split; cbn [c_asm c_workers].
  - destruct Ha as [A1 A2 A3 A4 A5 A6 A7 A8 A9 A10].
    split; cbn [a_cap a_next a_state a_pending a_remaining a_covered a_layout a_total a_complete a_err a_sizeKnown
      requeue notifyLocked set_changed set_next set_pending set_state]; try done.
    + rewrite length_insert. lia.
    + rewrite (sumZ_insert _ _ _ _ _ Hst). simpl. lia.
    + rewrite (sumZ_insert _ _ _ _ _ Hst). simpl. lia.
    + unfold layout_ok in *. cbn. destruct (a_layout a); [|done|].
      * destruct A8 as (? & ? & ? & ? & ? & E & Hs). rewrite E. do 6 (split; [done|]).
        intros j s [(_ & <- & _)|[_ Hj2]]%list_lookup_insert_Some; [by left|by apply Hs].
      * destruct A8 as (? & ? & ? & k & K1 & K2 & K3 & K4 & K5 & K6). do 3 (split; [done|]). exists k.
        assert (idx = k) as ->.
        { destruct (Nat.lt_trichotomy idx k) as [Hl|[->|Hl]]; [by rewrite K2 in Hst|done|].
          by specialize (K3 idx segInflight Hl Hst). }
        unfold in_order. cbn. rewrite length_insert. split; [done|]. split_and!; try lia.
        -- intros j Hj. rewrite list_lookup_insert_ne by lia. by apply K2.
        -- intros j s Hj. rewrite list_lookup_insert_ne by lia. by apply K3.
        -- by rewrite list_lookup_insert_eq.
  - eapply winv_move; [done|exact Hid|..];
      cbn [a_state a_err a_ctx a_alive a_complete a_layout a_seqOwner requeue notifyLocked set_changed set_next set_pending set_state].
    + intros id2 pc2 i [(_ & <- & _)|[Hne H2]]%list_lookup_insert_Some Hh; [congruence|].
      rewrite list_lookup_insert_ne by (intros <-; by apply (Hother id2 pc2 idx)). by eapply (wi_own _ _ Hw).
    + intros i Hx. congruence.
    + intros He Hc i [(<- & ? & _)|[Hne Hs]]%list_lookup_insert_Some; [done|]. right. split_and!; try done.
      simpl. congruence.
    + intros id2 i r e2 w2 n2 [(_ & -> & _)|[Hne H2]]%list_lookup_insert_Some; [done|].
      eapply body_ok_mono; [..|eapply (wi_body _ _ Hw), H2]; done.
    + rewrite Hal'. simpl. lia.
    + apply (wi_exit _ _ Hw).
    + intros Hs id2 pc2 i [(_ & <- & _)|[Hne H2]]%list_lookup_insert_Some Hh; [congruence|].
      by eapply (wi_owner _ _ Hw).
Qed.

(** The assembly with one worker fewer. *)
Lemma exit_alive a ws id cause :
  ainv a -> winv a ws -> ws !! id = Some (WExiting cause) ->
  (a_alive a - 1 = 0 -> a_complete a = true \/ a_err a <> None) ->
  ainv (set_alive (a_alive a - 1) a) /\ winv (set_alive (a_alive a - 1) a) (<[id := WGone]> ws).
Proof.
  intros Ha Hw Hid Hex. split.
  - destruct Ha as [A1 A2 A3 A4 A5 A6 A7 A8 A9 A10]. by split.
  - eapply winv_move; [done|exact Hid|..]; cbn [a_state a_err a_ctx a_alive a_complete a_layout a_seqOwner set_alive].
    + intros id2 pc2 i [(_ & <- & _)|[Hne H2]]%list_lookup_insert_Some Hh; [done|by eapply (wi_own _ _ Hw)].
    + done.
    + intros He Hc i Hs. right. done.
    + intros id2 i r e2 w2 n2 [(_ & ? & _)|[Hne H2]]%list_lookup_insert_Some; [done|].
      eapply body_ok_mono; [..|eapply (wi_body _ _ Hw), H2]; done.
    + simpl. lia.
    + exact Hex.
    + intros Hs id2 pc2 i [(_ & <- & _)|[Hne H2]]%list_lookup_insert_Some Hh; [done|by eapply (wi_owner _ _ Hw)].
Qed.

Lemma exit_inv a ws id cause :
  inv (MkConfig a ws) -> ws !! id = Some (WExiting cause) ->
  inv (MkConfig (workerExit cause a) (<[id := WGone]> ws)).
Proof.
  intros [Ha Hw] Hid. cbn in Ha, Hw. unfold workerExit. cbn [a_alive a_complete a_err a_ctx set_alive].
  set (a1 := set_alive (a_alive a - 1) a).
  destruct ((0 <? a_alive a - 1) || a_complete a || bool_decide (a_err a <> None)) eqn:Hg.
  - apply (exit_alive a ws id cause); try done. intros H0. rewrite H0 in Hg. cbn in Hg.
    apply orb_true_iff in Hg as [Hg|Hg]; [by left|right]. by apply bool_decide_eq_true in Hg.
  - apply orb_false_iff in Hg as [Hg He]. apply orb_false_iff in Hg as [_ Hc].
    assert (Hall : forall e, inv (MkConfig (failLocked e a1) (<[id := WGone]> ws))).
    { intros e. destruct (fail_inv e a ws Ha Hw) as [Ha1 Hw1].
      pose proof (failLocked_err e a Hc) as Herr.
      destruct (exit_alive (failLocked e a) ws id cause Ha1 Hw1 Hid) as [Ha2 Hw2]; [by right|].
      assert (E : set_alive (a_alive (failLocked e a) - 1) (failLocked e a) = failLocked e a1).
      { unfold a1, failLocked, cancel, notifyLocked. cbn. apply bool_decide_eq_false in He.
        destruct (a_err a); [by destruct He|]. rewrite Hc. cbn. by destruct (a_ctx a). }
      rewrite E in Ha2, Hw2. by split. }
    destruct cause as [e|]; [apply Hall|]. destruct (a_ctx a); apply Hall.
Qed.

Lemma first_pending_spec m j a :
  match first_pending m j a with
  | Some i => (j <= i < j + m)%nat /\ a_state a !! i = Some segPending
  | None => True
  end.
Proof.
  revert j. induction m as [|m IH]; intros j; cbn [first_pending]; [done|].
  destruct (isPending a j) eqn:Hp; [apply isPending_spec in Hp; split; [lia|done]|].
  specialize (IH (S j)). destruct (first_pending m (S j) a); [|done]. split; [lia|apply IH].
Qed.

Lemma hint_inv off a ws : ainv a -> winv a ws -> ainv (hintLocked off a) /\ winv (hintLocked off a) ws.
Proof.
  intros Ha Hw. unfold hintLocked. destruct (bool_decide_reflect (a_layout a = layoutParallel)) as [Hl|Hl]; [|done].
  destruct (_ || _); [done|].
  set (idx := Z.to_nat _). pose proof (first_pending_spec (length (a_state a) - idx) idx a) as Hf.
  destruct (first_pending _ idx a) as [j|]; [|done]. destruct Hf as [Hj Hp].
  split.
  - pose proof (lookup_lt_Some _ _ _ Hp). destruct Ha as [A1 A2 A3 A4 A5 A6 A7 A8 A9 A10]. split; try done.
    unfold layout_ok in *. cbn. rewrite Hl in *. done.
  - assert (F : only_flags a (set_next j a)) by (by split). by apply (winv_flags a).
Qed.

Lemma await_inv off a ws r a' :
  ainv a -> winv a ws -> awaitRun off a = (r, a') -> ainv a' /\ winv a' ws.
Proof.
  intros Ha Hw. unfold awaitRun. destruct (runIndex (a_covered a) off); [by intros [= _ <-]|].
  destruct (a_err a); [by intros [= _ <-]|]. destruct (_ && _); [by intros [= _ <-]|].
  intros [= _ <-]. by apply hint_inv.
Qed.

Lemma ctx_inv e a ws : ainv a -> winv a ws -> a_ctx a = None -> ainv (set_ctx (Some e) a) /\ winv (set_ctx (Some e) a) ws.
Proof.
  intros Ha Hw Hc. assert (F : only_flags a (set_ctx (Some e) a)) by (split; try done; congruence).
  split; [by apply (ainv_flags a)|by apply (winv_flags a)].
Qed.

Theorem step_inv c c' : inv c -> step c c' -> inv c'.
Proof.
  intros Hi Hstep. destruct Hstep as
    [a ws id Hid|a ws id Hid|a ws id idx a' Hid Hn|a ws id a' Hid Hn|a ws id idx retry h w ext a' Hid Ho
    |a ws id idx retry h e a' pc a'' Hid Ho Hf|a ws id idx retry ext w n p w' dst' Hid Hs
    |a ws id idx retry ext w n p k w' dst' pc a' Hid Hs Hf|a ws id idx retry ext w n a' Hid Hd
    |a ws id idx retry conn pc a' Hid Hf|a ws id idx Hid|a ws id idx Hid|a ws id cause Hid
    |a ws off a' r Ho Haw|a ws|a ws e Hc|a ws e Hc]; pose proof Hi as [Ha Hw]; cbn in Ha, Hw.
  - split; [done|]. eapply pc_move; [done|done|done|by left|done].
  - split; [done|]. eapply pc_move; [done|done|done|by left|done].
  - by eapply next_inv.
  - assert (a' = a) as ->.
    { unfold nextSegment in Hn. repeat case_match; simplify_eq; done. }
    split; [done|]. eapply pc_move; [done|done|done|by left|done].
  - by eapply open_inv.
  - by eapply refuse_inv.
  - by eapply write_inv.
  - destruct (segWrite_inv _ _ _ _ _ _ _ _ _ _ _ _ Hi Hid Hs) as (Ha1 & Hw1 & _).
    eapply fetchFailed_inv; [exact Ha1|exact Hw1|exact Hid|done|done|exact Hf].
  - by eapply done_inv.
  - destruct Hid as [Hid|(ext & w & n & Hid)]; eapply fetchFailed_inv; [done|done|exact Hid|done|done|exact Hf|done|done|exact Hid|done|done|exact Hf].
  - split; [done|]. eapply pc_move; [done|done|done|by left|done].
  - by eapply requeue_inv.
  - by eapply exit_inv.
  - destruct (await_inv off a ws r a' Ha Hw Haw). by split.
  - destruct (fail_inv errCanceled a ws Ha Hw). by split.
  - destruct (ctx_inv e a ws Ha Hw Hc). by split.
  - destruct (fail_inv e a ws Ha Hw). by split.
Qed.

(** * The initial state *)

Lemma workerCount_bounds configured segs :
  1 <= segs -> 1 <= workerCount configured segs <= Z.min maxConnections segs.
Proof. unfold workerCount, maxConnections, defaultConnections. destruct (configured <=? 0) eqn:?; bool_to_prop; lia. Qed.

Lemma start_inv n cap connections : (0 < n)%nat -> 0 < cap -> inv (start n cap connections).
Proof.
  intros Hn Hcap. destruct n as [|n]; [lia|]. unfold start, StartAssembly.
  pose proof (workerCount_bounds connections (Z.of_nat (S n)) ltac:(lia)) as Hwc.
  set (k := workerCount _ _) in *. cbn [a_alive newAssembly].
  split; cbn [c_asm c_workers]; split;
    cbn [newAssembly a_cap a_next a_state a_pending a_remaining a_covered a_complete a_err a_ctx a_alive a_layout].
  - done.
  - rewrite length_replicate. lia.
  - rewrite sumZ_replicate. cbn [pending_w]. lia.
  - rewrite sumZ_replicate. cbn [left_w]. lia.
  - done.
  - intros z Hz. by apply covers_nil in Hz.
  - intros z [x Hz]. cbn in Hz. by rewrite lookup_empty in Hz.
  - unfold layout_ok. cbn [newAssembly a_layout a_covered a_dst a_seqOff a_sizeKnown a_complete a_next a_state].
    do 6 (split; [done|]). intros j s [-> _]%lookup_replicate. by left.
  - done.
  - lia.
  - intros id pc idx [-> _]%lookup_replicate. done.
  - intros id1 id2 pc1 pc2 idx [-> _]%lookup_replicate _ Hh. done.
  - intros _ _ idx [? _]%lookup_replicate. done.
  - intros id idx retry ext w m [? _]%lookup_replicate. done.
  - rewrite sumZ_replicate. cbn [alive_w]. lia.
  - lia.
  - done.
Qed.

Lemma reachable_inv n cap connections c :
  (0 < n)%nat -> 0 < cap -> rtc step (start n cap connections) c -> inv c.
Proof. intros Hn Hc Hr. eapply rtc_invariant; [apply step_inv|exact Hr|by apply start_inv]. Qed.

(** * Waiting *)

(** A pending segment is always found. *)
Lemma pick_some a : ainv a -> 0 < a_pending a -> exists j a', pickLocked a = (Some j, a').
Proof.
  intros Ha Hp. pose proof (pickLocked_spec a (ai_next _ Ha)) as Hpk.
  destruct (pickLocked a) as [[j|] a1]; [eauto|]. exfalso. destruct Hpk as [_ Hnone].
  rewrite (ai_pending _ Ha) in Hp.
  destruct (sumZ_pos_elem pending_w (a_state a) (fun s _ => pending_w_nonneg s) Hp) as (s & [i Hi]%list_elem_of_lookup & Hw).
  destruct s; simpl in Hw; try lia. by destruct (Hnone i).
Qed.

(** When a worker waits. *)
Lemma nextSegment_wait a id :
  ainv a ->
  ((nextSegment id a).1 = NWait <->
   a_err a = None /\ a_complete a = false /\ a_ctx a = None /\
   (a_layout a = layoutSequential -> id = a_seqOwner a) /\
   if bool_decide (a_layout a = layoutUnknown) then a_state a !! 0%nat <> Some segPending
   else a_pending a <= 0).
Proof.
  intros Ha. unfold nextSegment.
  destruct (bool_decide_reflect (a_err a <> None)) as [He|He]; [split; [done|by intros [? _]]|].
  apply dec_stable in He. destruct (a_complete a); [split; [done|by intros (_ & ? & _)]|].
  destruct (bool_decide_reflect (a_ctx a <> None)) as [Hc|Hc]; [split; [done|by intros (_ & _ & ? & _)]|].
  apply dec_stable in Hc. cbn [orb].
  destruct (bool_decide (a_layout a = layoutSequential) && negb (id =? a_seqOwner a)%nat) eqn:Hs.
  { apply andb_true_iff in Hs as [Hs Hn]. apply bool_decide_eq_true in Hs. apply negb_true_iff, Nat.eqb_neq in Hn.
    split; [done|]. intros (_ & _ & _ & H & _). by destruct Hn; apply H. }
  assert (Hown : a_layout a = layoutSequential -> id = a_seqOwner a).
  { intros Hl. rewrite bool_decide_true in Hs by done. apply negb_false_iff in Hs. by apply Nat.eqb_eq. }
  destruct (bool_decide (a_layout a = layoutUnknown)).
  - destruct (isPending a 0) eqn:Hp.
    + apply isPending_spec in Hp. split; [done|]. by intros (_ & _ & _ & _ & ?).
    + split; [|done]. intros _. do 4 (split; [done|]). intros Hx. apply isPending_spec in Hx. congruence.
  - destruct (0 <? a_pending a) eqn:Hp; bool_to_prop.
    + destruct (pick_some a Ha Hp) as (j & a' & ->). split; [done|]. intros (_ & _ & _ & _ & ?). lia.
    + split; [|done]. intros _. by do 4 (split; [done|]).
Qed.

(** When a reader waits. *)
Lemma awaitRun_wait a off :
  (awaitRun off a).1 = AWait <->
  runIndex (a_covered a) off = None /\ a_err a = None /\ (a_sizeKnown a && (a_total a <=? off)) = false.
Proof.
  unfold awaitRun. destruct (runIndex (a_covered a) off); [split; [done|by intros [? _]]|].
  destruct (a_err a); [split; [done|by intros (_ & ? & _)]|].
  destruct (a_sizeKnown a && (a_total a <=? off)); [split; [done|by intros (_ & _ & ?)]|]. done.
Qed.

(** Changes that neither notify nor matter to anyone waiting. *)
Record quiet (a a' : assembly) : Prop := {
  q_covered : a_covered a' = a_covered a;
  q_err : a_err a' = a_err a;
  q_sizeKnown : a_sizeKnown a' = a_sizeKnown a;
  q_total : a_total a' = a_total a;
  q_complete : a_complete a' = a_complete a;
  q_layout : a_layout a' = a_layout a;
  q_owner : a_seqOwner a' = a_seqOwner a;
  q_pending : a_pending a' <= a_pending a;
  q_first : a_state a' !! 0%nat = Some segPending -> a_state a !! 0%nat = Some segPending
}.

Lemma quiet_refl a : quiet a a.
Proof. split; try done. Qed.

(** Failing either notifies or does nothing. *)
Lemma fail_quiet e a : a_changed (failLocked e a) = a_changed a -> failLocked e a = a.
Proof.
  unfold failLocked, cancel, notifyLocked. destruct (a_err a); [done|]. destruct (a_complete a); [done|].
  cbn. destruct (a_ctx a); cbn; lia.
Qed.

Lemma fail_changed e a : (a_changed a <= a_changed (failLocked e a))%nat.
Proof.
  unfold failLocked, cancel, notifyLocked. destruct (a_err a); [done|]. destruct (a_complete a); [done|].
  cbn. destruct (a_ctx a); cbn; lia.
Qed.

Lemma fetchFailed_changed idx retry conn a pc a' :
  fetchFailed idx retry conn a = (pc, a') -> (a_changed a <= a_changed a')%nat.
Proof.
  unfold fetchFailed. destruct (bool_decide _); [by intros [= _ <-]|].
  destruct (conn && negb retry); [by intros [= _ <-]|]. intros [= _ <-]. apply fail_changed.
Qed.

Lemma fetchFailed_quiet idx retry conn a pc a' :
  fetchFailed idx retry conn a = (pc, a') -> a_changed a' = a_changed a -> a' = a.
Proof.
  unfold fetchFailed. destruct (bool_decide _); [by intros [= _ <-]|].
  destruct (conn && negb retry); [by intros [= _ <-]|]. intros [= _ <-]. apply fail_quiet.
Qed.

Lemma pick_quiet a j a' : pickLocked a = (Some j, a') -> quiet a a'.
Proof.
  unfold pickLocked. destruct (pick_scan _ 0 a) as [i|] eqn:Hs; [|done]. intros [= <- <-].
  split; cbn; try done; [lia|]. intros [(_ & ? & _)|[_ ?]]%list_lookup_insert_Some; done.
Qed.

Lemma next_quiet id a r a' : nextSegment id a = (r, a') -> quiet a a'.
Proof.
  unfold nextSegment. destruct (_ || _); [intros [= _ <-]; apply quiet_refl|].
  destruct (bool_decide _).
  - destruct (isPending a 0); intros [= _ <-]; [|apply quiet_refl]. split; cbn; try done; [lia|].
    intros [(_ & ? & _)|[_ ?]]%list_lookup_insert_Some; done.
  - destruct (0 <? a_pending a); [|intros [= _ <-]; apply quiet_refl].
    destruct (pickLocked a) as [[j|] a1] eqn:Hp; intros [= _ <-].
    + by eapply pick_quiet.
    + unfold pickLocked in Hp. destruct (pick_scan _ 0 a); [done|]. injection Hp as <-. apply quiet_refl.
Qed.

(** Choosing a layout notifies. *)
Lemma fixLayout_changed id h a a1 :
  fixLayout id h a = Ok a1 -> a1 = a \/ (a_changed a < a_changed a1)%nat.
Proof.
  unfold fixLayout. destruct (bool_decide _); [|by intros [= <-]; left].
  destruct (selfDescribing _ _); [destruct (a_cap a <? _); [done|]|]; intros [= <-]; right; cbn; lia.
Qed.

Lemma refuse_quiet id h a e a' idx retry pc a'' :
  openSegment id h a = (Err e, a') -> fetchFailed idx retry false a' = (pc, a'') ->
  a_changed a'' = a_changed a -> a'' = a.
Proof.
  unfold openSegment. destruct (fixLayout id h a) as [a1|e1] eqn:Hf.
  - intros [= _ <-] Hff Hch. pose proof (fetchFailed_changed _ _ _ _ _ _ Hff).
    destruct (fixLayout_changed _ _ _ _ Hf) as [->|]; [|lia]. by eapply fetchFailed_quiet.
  - intros [= _ <-] Hff Hch. by eapply fetchFailed_quiet.
Qed.

Lemma finalize_changed a : (a_changed a <= a_changed (finalizeLocked a))%nat.
Proof.
  unfold finalizeLocked. set (a1 := if bool_decide _ then set_sizeKnown _ _ else a).
  assert (a_changed a1 = a_changed a) as <- by (unfold a1; by destruct (bool_decide _)).
  destruct (tiled _ _); [done|]. apply fail_changed.
Qed.

Lemma complete_changed idx ext n a a' :
  completeSegment idx ext n a = (None, a') -> (a_changed a < a_changed a')%nat.
Proof.
  rewrite completeSegment_eq. cbn zeta. destruct (_ && _); [done|]. intros [= <-].
  assert (a_changed (doneState idx ext n a) = a_changed a) as E.
  { unfold doneState. by destruct (bool_decide _), (0 <? n). }
  cbn. destruct (a_remaining (doneState idx ext n a) =? 0); [|lia].
  pose proof (finalize_changed (doneState idx ext n a)). lia.
Qed.

Lemma hint_quiet off a : quiet a (hintLocked off a).
Proof.
  unfold hintLocked. destruct (_ || _); [apply quiet_refl|].
  destruct (first_pending _ _ _); [by split|apply quiet_refl].
Qed.

Lemma exit_quiet cause a : a_changed (workerExit cause a) = a_changed a -> quiet a (workerExit cause a).
Proof.
  unfold workerExit. set (a1 := set_alive _ a). assert (Q : quiet a a1) by by split.
  change (a_changed a) with (a_changed a1).
  destruct (_ || _); [done|]. intros Hch.
  destruct cause as [e|]; [by rewrite (fail_quiet _ _ Hch)|]. destruct (a_ctx a1); by rewrite (fail_quiet _ _ Hch).
Qed.

(** A step that wakes nobody changes nothing a sleeper is waiting for. *)
Lemma step_quiet a ws a' ws' :
  step (MkConfig a ws) (MkConfig a' ws') -> a_changed a' = a_changed a -> quiet a a'.
Proof.
  intros Hstep. inversion Hstep; subst; intros Hch; try apply quiet_refl; try (by split).
  - by eapply next_quiet.
  - by eapply next_quiet.
  - unfold openSegment in *. destruct (fixLayout id h a) as [a1|] eqn:Hf; [|done].
    simplify_eq. destruct (fixLayout_changed _ _ _ _ Hf) as [->|]; [apply quiet_refl|lia].
  - assert (a' = a) as -> by (by eapply refuse_quiet). apply quiet_refl.
  - match goal with H : fetchFailed _ _ _ _ = _ |- _ => apply fetchFailed_quiet in H; [subst|done] end. by split.
  - match goal with H : completeSegment _ _ _ _ = _ |- _ => apply complete_changed in H end. lia.
  - match goal with H : fetchFailed _ _ _ _ = _ |- _ => apply fetchFailed_quiet in H; [subst|done] end. apply quiet_refl.
  - cbn in Hch. lia.
  - by apply exit_quiet.
  - unfold awaitRun in *. repeat case_match; simplify_eq; try apply quiet_refl. apply hint_quiet.
  - rewrite (fail_quiet _ _ Hch). apply quiet_refl.
  - rewrite (fail_quiet _ _ Hch). apply quiet_refl.
Qed.

(** * Progress *)

(** A worker neither waiting for a segment nor gone. *)
Definition busy (pc : wpc) : bool := match pc with WNext | WGone => false | _ => true end.

Lemma busy_moves a ws id pc :
  a_ctx a = None -> ws !! id = Some pc -> busy pc = true ->
  exists c', step (MkConfig a ws) c' /\ c_workers c' !! id <> Some pc.
Proof.
  intros Hc Hid Hb. pose proof (lookup_lt_Some _ _ _ Hid) as Hlt.
  assert (Hff : forall idx, fetchFailed idx true false a = (WExiting None, failLocked errSegment a)).
  { intros idx. unfold fetchFailed. rewrite bool_decide_false by (rewrite Hc; tauto). done. }
  destruct pc; try done.
  - eexists. split; [by apply step_dial_ok|]. cbn. by rewrite list_lookup_insert_eq.
  - eexists. split; [eapply step_failed with (conn := false); [by left|]|].
    { unfold fetchFailed. rewrite bool_decide_false by (rewrite Hc; tauto). reflexivity. }
    cbn. by rewrite list_lookup_insert_eq.
  - eexists. split; [eapply step_failed with (conn := false); [right; eauto|]|].
    { unfold fetchFailed. rewrite bool_decide_false by (rewrite Hc; tauto). reflexivity. }
    cbn. by rewrite list_lookup_insert_eq.
  - eexists. split; [by apply step_redial_ok|]. cbn. by rewrite list_lookup_insert_eq.
  - eexists. split; [by apply step_exit|]. cbn. by rewrite list_lookup_insert_eq.
Qed.

(** With nobody fetching, an unfinished file has a pending segment. *)
Lemma some_pending a ws :
  ainv a -> winv a ws -> a_err a = None -> a_ctx a = None -> a_complete a = false ->
  (forall id pc, ws !! id = Some pc -> busy pc = false) ->
  0 < a_pending a /\ (a_layout a = layoutUnknown -> a_state a !! 0%nat = Some segPending).
Proof.
  intros Ha Hw He Hc Hcm Hidle.
  assert (Hno : forall idx, a_state a !! idx <> Some segInflight).
  { intros idx Hs. destruct (wi_inflight _ _ Hw He Hc idx Hs) as (id & pc & Hid & Hh).
    specialize (Hidle id pc Hid). by destruct pc. }
  assert (Hrem : a_remaining a <> 0).
  { intros Hr. destruct (ai_finished _ Ha Hr); congruence. }
  assert (Hpos : 0 < sumZ left_w (a_state a)).
  { pose proof (sumZ_nonneg left_w (a_state a) (fun s _ => left_w_nonneg s)).
    pose proof (ai_remaining _ Ha). lia. }
  destruct (sumZ_pos_elem left_w _ (fun s _ => left_w_nonneg s) Hpos) as (s & Hs & Hsw).
  assert (s = segPending) as ->.
  { apply list_elem_of_lookup in Hs as [i Hi]. destruct s; [done|by destruct (Hno i)|simpl in Hsw; lia]. }
  pose proof (sumZ_elem_le pending_w _ _ (fun s _ => pending_w_nonneg s) Hs) as Hle.
  rewrite (ai_pending _ Ha). cbn [pending_w] in Hle. split; [lia|]. intros Hl.
  destruct (lookup_lt_is_Some_2 (a_state a) 0) as [s0 Hs0]; [pose proof (ai_next _ Ha); lia|].
  pose proof (ai_layout _ Ha) as Hlay. unfold layout_ok in Hlay. rewrite Hl in Hlay.
  destruct Hlay as (_ & _ & _ & _ & _ & _ & Hst). rewrite Hs0.
  destruct (Hst 0%nat s0 Hs0) as [->|[_ ->]]; [done|]. by destruct (Hno 0%nat).
Qed.

Lemma progress a ws :
  ainv a -> winv a ws -> a_err a = None -> a_ctx a = None -> a_complete a = false ->
  exists id pc c', ws !! id = Some pc /\ step (MkConfig a ws) c' /\ c_workers c' !! id <> Some pc.
Proof.
  intros Ha Hw He Hc Hcm.
  destruct (decide (Exists (fun pc => busy pc = true) ws)) as [Hex|Hnex].
  { apply Exists_exists in Hex as (pc & [id Hid]%list_elem_of_lookup & Hb).
    destruct (busy_moves a ws id pc Hc Hid Hb) as (c' & Hs & Hne). eauto 6. }
  assert (Hidle : forall id pc, ws !! id = Some pc -> busy pc = false).
  { intros id pc Hid. destruct (busy pc) eqn:Hb; [|done]. destruct Hnex. apply Exists_exists.
    exists pc. split; [|done]. by eapply list_elem_of_lookup_2. }
  destruct (some_pending a ws Ha Hw He Hc Hcm Hidle) as [Hp Hp0].
  assert (Hal : 0 < sumZ alive_w ws).
  { pose proof (sumZ_nonneg alive_w ws (fun pc _ => alive_w_nonneg pc)).
    assert (a_alive a <> 0) as Hne by (intros H0; destruct (wi_exit _ _ Hw H0); congruence).
    rewrite (wi_alive _ _ Hw) in Hne. lia. }
  destruct (sumZ_pos_elem alive_w ws (fun pc _ => alive_w_nonneg pc) Hal) as (pc & [id Hid]%list_elem_of_lookup & Hpc).
  pose proof (Hidle id pc Hid) as Hb. destruct pc; try done.
  pose proof (lookup_lt_Some _ _ _ Hid) as Hlt.
  assert (Hnw : (nextSegment id a).1 <> NWait).
  { intros Hn. apply (nextSegment_wait a id Ha) in Hn as (_ & _ & _ & _ & Hn).
    destruct (bool_decide_reflect (a_layout a = layoutUnknown)); [by apply Hn, Hp0|lia]. }
  destruct (nextSegment id a) as [[idx| |] a'] eqn:En; [| |done].
  - exists id, WNext. eexists. split; [done|]. split; [by eapply step_next|]. cbn. by rewrite list_lookup_insert_eq.
  - exists id, WNext. eexists. split; [done|]. split; [by eapply step_next_exit|]. cbn. by rewrite list_lookup_insert_eq.
Qed.

(** A tiled set covers exactly the file. *)
Lemma tiled_covers total s z : tiled total s = true -> 0 <= z < total -> covers s z.
Proof.
  unfold tiled. destruct s as [|e [|]]; [|intros H Hz|done].
  - intros H Hz. bool_to_prop. lia.
  - bool_to_prop. exists e. split; [left|]. unfold in_ext. lia.
Qed.

(** The cap never changes. *)
Lemma fixLayout_cap id h a a1 : fixLayout id h a = Ok a1 -> a_cap a1 = a_cap a.
Proof.
  unfold fixLayout. destruct (bool_decide _); [|by intros [= <-]].
  destruct (selfDescribing _ _); [destruct (a_cap a <? _); [done|]|]; by intros [= <-].
Qed.

Lemma fail_cap e a : a_cap (failLocked e a) = a_cap a.
Proof. apply failLocked_flags. Qed.

Lemma fetchFailed_cap idx retry conn a pc a' : fetchFailed idx retry conn a = (pc, a') -> a_cap a' = a_cap a.
Proof.
  unfold fetchFailed. destruct (bool_decide _); [by intros [= _ <-]|].
  destruct (conn && negb retry); [by intros [= _ <-]|]. intros [= _ <-]. apply fail_cap.
Qed.

Lemma open_cap id h a r a' : openSegment id h a = (r, a') -> a_cap a' = a_cap a.
Proof.
  unfold openSegment. destruct (fixLayout id h a) as [a1|] eqn:Hf; intros [= _ <-]; [|done].
  by eapply fixLayout_cap.
Qed.

Lemma complete_cap idx ext n a a' : completeSegment idx ext n a = (None, a') -> a_cap a' = a_cap a.
Proof.
  rewrite completeSegment_eq. cbn zeta. destruct (_ && _); [done|]. intros [= <-].
  destruct (doneState_parts idx ext n a) as (P1 & _). cbn. destruct (_ =? 0); [|done].
  rewrite <- P1. unfold finalizeLocked. destruct (bool_decide _); destruct (tiled _ _); try done;
    by rewrite fail_cap.
Qed.

Lemma step_cap c c' : step c c' -> a_cap (c_asm c') = a_cap (c_asm c).
Proof.
  intros Hs. destruct Hs; cbn [c_asm]; try done; try by (eapply open_cap).
  - unfold nextSegment, pickLocked in *. repeat case_match; simplify_eq; done.
  - unfold nextSegment, pickLocked in *. repeat case_match; simplify_eq; done.
  - match goal with H : fetchFailed _ _ _ _ = _ |- _ => rewrite (fetchFailed_cap _ _ _ _ _ _ H) end. by eapply open_cap.
  - match goal with H : fetchFailed _ _ _ _ = _ |- _ => by rewrite (fetchFailed_cap _ _ _ _ _ _ H) end.
  - by eapply complete_cap.
  - by eapply fetchFailed_cap.
  - unfold workerExit. destruct (_ || _); [done|]. destruct cause; [by rewrite fail_cap|].
    destruct (a_ctx _); by rewrite fail_cap.
  - unfold awaitRun, hintLocked in *. repeat case_match; simplify_eq; done.
  - apply fail_cap.
  - apply fail_cap.
Qed.

(** * Properties *)

(** C1: whatever the interleaving of workers, readers, failures and
    cancellation, a completed download has every byte of the file written and
    recorded, every segment done, and a size within the declared cap. *)
Theorem complete_is_whole n cap connections c :
  (0 < n)%nat -> 0 < cap -> rtc step (start n cap connections) c ->
  let a := c_asm c in
  a_complete a = true ->
  a_sizeKnown a = true /\ a_total a <= cap /\
  (forall z, 0 <= z < a_total a -> covers (a_covered a) z /\ written a z) /\
  (forall i s, a_state a !! i = Some s -> s = segDone).
Proof.
  intros Hn Hcap Hr a Hc. destruct (reachable_inv n cap connections c Hn Hcap Hr) as [Ha Hw].
  assert (Ecap : a_cap a = cap).
  { unfold a. apply (rtc_invariant step (fun c => a_cap (c_asm c) = cap)) in Hr; [done| |].
    - intros s s' Hs Hstep. rewrite <- Hs. by apply step_cap.
    - by destruct n. }
  fold a in Ha, Hw. destruct (ai_complete _ Ha Hc) as (Hrem & Hsk & Ht). split; [done|]. split.
  { pose proof (ai_layout _ Ha) as Hl. unfold layout_ok in Hl. destruct (a_layout a).
    - destruct Hl as (_ & _ & _ & ? & _). congruence.
    - lia.
    - destruct Hl as (Hs & _ & Hk & _). destruct (Hk Hsk) as [_ ->]. lia. }
  split.
  - intros z Hz. assert (covers (a_covered a) z) by (by eapply tiled_covers). split; [done|].
    by apply (ai_written _ Ha).
  - intros i s Hs. apply list_elem_of_lookup_2 in Hs. rewrite (ai_remaining _ Ha) in Hrem.
    pose proof (sumZ_zero_elem left_w _ _ (fun s _ => left_w_nonneg s) Hrem Hs). by destruct s.
Qed.

(** C23: in every reachable state the recorded ranges are canonical, everything
    recorded was really written, nothing is ever written outside the cap, and a
    file of known layout is never written past its declared size. *)
Theorem covered_is_written n cap connections c :
  (0 < n)%nat -> 0 < cap -> rtc step (start n cap connections) c ->
  let a := c_asm c in
  canonical (a_covered a) /\
  (forall z, covers (a_covered a) z -> written a z) /\
  (forall z, written a z -> 0 <= z < cap /\ (a_layout a = layoutParallel -> z < a_total a)).
Proof.
  intros Hn Hcap Hr a. destruct (reachable_inv n cap connections c Hn Hcap Hr) as [Ha Hw].
  assert (Ecap : a_cap a = cap).
  { unfold a. apply (rtc_invariant step (fun c => a_cap (c_asm c) = cap)) in Hr; [done| |].
    - intros s s' Hs Hstep. rewrite <- Hs. by apply step_cap.
    - by destruct n. }
  fold a in Ha. split; [apply Ha|]. split; [apply Ha|]. rewrite <- Ecap. apply Ha.
Qed.

(** no deadlock. While the download is neither complete nor failed nor
    cancelled, some worker can move (not merely a reader), and once every worker
    has left, the download is complete or has recorded why it failed. *)
Lemma no_deadlock n cap connections c :
  (0 < n)%nat -> 0 < cap -> rtc step (start n cap connections) c ->
  (a_err (c_asm c) = None -> a_ctx (c_asm c) = None -> a_complete (c_asm c) = false ->
     exists id pc c', c_workers c !! id = Some pc /\ step c c' /\ c_workers c' !! id <> Some pc) /\
  (Forall (fun pc => pc = WGone) (c_workers c) ->
     a_complete (c_asm c) = true \/ a_err (c_asm c) <> None).
Proof.
  intros Hn Hcap Hr. destruct (reachable_inv n cap connections c Hn Hcap Hr) as [Ha Hw].
  destruct c as [a ws]. cbn [c_asm c_workers] in *. split.
  - intros He Hc Hcm. by apply progress.
  - intros Hall. apply (wi_exit _ _ Hw). rewrite (wi_alive _ _ Hw).
    clear -Hall. induction Hall as [|pc ws -> _ IH]; [done|]. rewrite sumZ_cons, IH. done.
Qed.

(** no lost wake-up. A step that does not notify leaves every waiting
    worker and every waiting reader with nothing new to find, unless it is the
    cancellation they also listen for. *)
Lemma no_lost_wakeup n cap connections c c' :
  (0 < n)%nat -> 0 < cap -> rtc step (start n cap connections) c -> step c c' ->
  a_changed (c_asm c') = a_changed (c_asm c) ->
  (forall off, (awaitRun off (c_asm c)).1 = AWait -> (awaitRun off (c_asm c')).1 = AWait) /\
  (a_ctx (c_asm c') = a_ctx (c_asm c) ->
     forall id, (nextSegment id (c_asm c)).1 = NWait -> (nextSegment id (c_asm c')).1 = NWait).
Proof.
  intros Hn Hcap Hr Hs Hch. pose proof (reachable_inv n cap connections c Hn Hcap Hr) as Hi.
  destruct (step_inv _ _ Hi Hs) as [Ha' _]. destruct Hi as [Ha _].
  destruct c as [a ws], c' as [a' ws']. cbn [c_asm] in *. pose proof (step_quiet _ _ _ _ Hs Hch) as Q. split.
  - intros off Hw. apply awaitRun_wait. apply awaitRun_wait in Hw.
    by rewrite (q_covered _ _ Q), (q_err _ _ Q), (q_sizeKnown _ _ Q), (q_total _ _ Q).
  - intros Hctx id Hw. apply (nextSegment_wait _ _ Ha'). apply (nextSegment_wait _ _ Ha) in Hw.
    rewrite (q_err _ _ Q), (q_complete _ _ Q), Hctx, (q_layout _ _ Q), (q_owner _ _ Q).
    destruct Hw as (H1 & H2 & H3 & H4 & H5). do 4 (split; [done|]).
    pose proof (q_pending _ _ Q). pose proof (q_first _ _ Q).
    destruct (bool_decide (a_layout a = layoutUnknown)); [tauto|lia].
Qed.

(** C5: Until the download is complete, failed or cancelled some worker can
    move, and when all workers are gone it is complete or failed; a step that
    does not notify changes nothing any waiting worker or reader is waiting for.
    *)
Theorem workers_progress :
  (forall n cap connections c,
   (0 < n)%nat -> 0 < cap -> rtc step (start n cap connections) c ->
  (a_err (c_asm c) = None -> a_ctx (c_asm c) = None -> a_complete (c_asm c) = false ->
     exists id pc c', c_workers c !! id = Some pc /\ step c c' /\ c_workers c' !! id <> Some pc) /\
  (Forall (fun pc => pc = WGone) (c_workers c) ->
     a_complete (c_asm c) = true \/ a_err (c_asm c) <> None)) /\
  (forall n cap connections c c',
   (0 < n)%nat -> 0 < cap -> rtc step (start n cap connections) c -> step c c' ->
  a_changed (c_asm c') = a_changed (c_asm c) ->
  (forall off, (awaitRun off (c_asm c)).1 = AWait -> (awaitRun off (c_asm c')).1 = AWait) /\
  (a_ctx (c_asm c') = a_ctx (c_asm c) ->
     forall id, (nextSegment id (c_asm c)).1 = NWait -> (nextSegment id (c_asm c')).1 = NWait)).
Proof. split; [exact no_deadlock|]. exact no_lost_wakeup. Qed.

(** what a reader is told is true. A run [off, end) it is given is written
    from end to end and stops where the recorded data stops; it is told the
    offset is beyond the file only when it is. *)
Lemma awaitRun_sound n cap connections c off :
  (0 < n)%nat -> 0 < cap -> rtc step (start n cap connections) c ->
  let a := c_asm c in
  match (awaitRun off a).1 with
  | ARun e => off < e /\ (forall z, off <= z < e -> written a z) /\ ~ covers (a_covered a) e
  | ABeyond total => a_sizeKnown a = true /\ total = a_total a /\ total <= off
  | AErr e => a_err a = Some e /\ ~ covers (a_covered a) off
  | AWait => ~ covers (a_covered a) off /\ a_err a = None
  end.
Proof.
  intros Hn Hcap Hr a. destruct (reachable_inv n cap connections c Hn Hcap Hr) as [Ha Hw]. fold a in Ha.
  pose proof (runIndex_spec (a_covered a) off (ai_canon _ Ha)) as Hrun. unfold awaitRun.
  destruct (runIndex (a_covered a) off) as [i|]; cbn [fst].
  - destruct Hrun as (e & He & Hin & Hend). unfold ext_at. rewrite He. cbn. unfold in_ext in Hin.
    split; [lia|]. split; [|done]. intros z Hz. apply (ai_written _ Ha). exists e.
    split; [by eapply list_elem_of_lookup_2|]. unfold in_ext. lia.
  - destruct (a_err a); cbn [fst]; [done|]. destruct (a_sizeKnown a && (a_total a <=? off)) eqn:E; cbn [fst]; [|done].
    by bool_to_prop.
Qed.

(** C34: a download whose articles do not place themselves is written strictly
    in order: finished segments are a prefix, and what is recorded is exactly
    the bytes from the start up to the append offset. *)
Theorem sequential_in_order n cap connections c :
  (0 < n)%nat -> 0 < cap -> rtc step (start n cap connections) c ->
  let a := c_asm c in
  a_layout a = layoutSequential ->
  (exists k, forall i s, a_state a !! i = Some s -> (s = segDone <-> (i < k)%nat)) /\
  (forall z, covers (a_covered a) z <-> 0 <= z < a_seqOff a) /\
  (forall id idx retry ext w m, c_workers c !! id = Some (WBody idx retry ext w m) ->
     id = a_seqOwner a /\ e_start ext = a_seqOff a /\ w_off w = a_seqOff a + m).
Proof.
  intros Hn Hcap Hr a Hl. destruct (reachable_inv n cap connections c Hn Hcap Hr) as [Ha Hw]. fold a in Ha, Hw.
  pose proof (ai_layout _ Ha) as Hlay. unfold layout_ok in Hlay. rewrite Hl in Hlay.
  destruct Hlay as (Hso & Hcov & _ & k & K1 & K2 & K3 & K4 & _). split; [|split].
  - exists k. intros i s Hs. split.
    + intros ->. destruct (Nat.lt_trichotomy i k) as [|[->|Hgt]]; [done|done|]. by specialize (K3 i segDone Hgt Hs).
    + intros Hi. rewrite (K2 i Hi) in Hs. congruence.
  - intros z. rewrite Hcov. unfold seq_covered. destruct (a_seqOff a =? 0) eqn:E; bool_to_prop.
    + split; [intros Hz; by apply covers_nil in Hz|lia].
    + rewrite covers_cons. unfold in_ext. cbn. pose proof (covers_nil z). split; [intros [?|?]; [lia|done]|by left].
  - intros id idx retry ext w m Hid. pose proof (wi_body _ _ Hw _ _ _ _ _ _ Hid) as (_ & _ & _ & Ho & _ & Hb).
    rewrite Hl in Hb. destruct Hb as [Hb _]. rewrite Ho, Hb. split; [|done]. by eapply (wi_owner _ _ Hw).
Qed.

(** the elevator. Whenever segments are pending, one is claimed, and it is
    the first at or after the cursor, going round; the cursor then points past
    it. *)
Lemma pick_elevator a :
  (a_next a < length (a_state a))%nat -> a_pending a = sumZ pending_w (a_state a) -> 0 < a_pending a ->
  exists j a', pickLocked a = (Some j, a') /\ a_state a !! j = Some segPending /\
    (forall i, a_state a !! i = Some segPending -> (ahead a j <= ahead a i)%nat) /\
    a_state a' = <[j := segInflight]> (a_state a) /\ a_pending a' = a_pending a - 1 /\
    a_next a' = (S j mod length (a_state a))%nat.
Proof.
  intros Hn Hpend Hp. pose proof (pickLocked_spec a Hn) as Hpk.
  destruct (pickLocked a) as [[j|] a'].
  - destruct Hpk as (Hj & Hmin & ->). exists j. eexists. split; [done|]. split; [done|]. split; [done|].
    cbn. split; [done|]. split; [done|]. apply lookup_lt_Some in Hj.
    destruct (Nat.leb_spec (length (a_state a)) (S j)).
    + assert (S j = length (a_state a)) as -> by lia. by rewrite Nat.Div0.mod_same.
    + by rewrite Nat.mod_small.
  - exfalso. destruct Hpk as [_ Hnone]. rewrite Hpend in Hp.
    destruct (sumZ_pos_elem pending_w (a_state a) (fun s _ => pending_w_nonneg s) Hp) as (s & [i Hi]%list_elem_of_lookup & Hw).
    destruct s; simpl in Hw; try lia. by destruct (Hnone i).
Qed.

(** C31: The two turns an assembly takes. The elevator: whenever segments are
    pending, one is claimed, the first at or after the cursor, going round, and
    the cursor then points past it. And what a reader is told is true: a run
    [off, end) it is given is written from end to end and stops where the recorded
    data stops; it is told the offset is beyond the file only when it is. *)
Theorem turns_sound :
  (forall a,
   (a_next a < length (a_state a))%nat -> a_pending a = sumZ pending_w (a_state a) -> 0 < a_pending a ->
  exists j a', pickLocked a = (Some j, a') /\ a_state a !! j = Some segPending /\
    (forall i, a_state a !! i = Some segPending -> (ahead a j <= ahead a i)%nat) /\
    a_state a' = <[j := segInflight]> (a_state a) /\ a_pending a' = a_pending a - 1 /\
    a_next a' = (S j mod length (a_state a))%nat) /\
  (forall n cap connections c off,
   (0 < n)%nat -> 0 < cap -> rtc step (start n cap connections) c ->
  let a := c_asm c in
  match (awaitRun off a).1 with
  | ARun e => off < e /\ (forall z, off <= z < e -> written a z) /\ ~ covers (a_covered a) e
  | ABeyond total => a_sizeKnown a = true /\ total = a_total a /\ total <= off
  | AErr e => a_err a = Some e /\ ~ covers (a_covered a) off
  | AWait => ~ covers (a_covered a) off /\ a_err a = None
  end).
Proof. split; [exact pick_elevator|]. exact awaitRun_sound. Qed.

(** ** Witnesses *)

(** Two articles of two bytes each over one connection. *)
Definition wit_h1 : yencHeader := MkHdr 4 1 1 2 true.
Definition wit_h2 : yencHeader := MkHdr 4 2 3 4 true.

Definition wit_a1 : assembly := (nextSegment 0 (c_asm (start 2 6 1))).2.
Definition wit_o1 : assembly := (openSegment 0 wit_h1 wit_a1).2.
Definition wit_a2 : assembly := set_dst (writeAt [10; 20] 0 (a_dst wit_o1)) wit_o1.
Definition wit_a3 : assembly := (completeSegment 0 (MkExt 0 2) 2 wit_a2).2.
Definition wit_a4 : assembly := (nextSegment 0 wit_a3).2.
Definition wit_a5 : assembly := set_dst (writeAt [30; 40] 2 (a_dst wit_a4)) wit_a4.
Definition wit_a6 : assembly := (completeSegment 1 (MkExt 2 4) 2 wit_a5).2.

(** After the first article. *)
Lemma wit_half : rtc step (start 2 6 1) (MkConfig wit_a3 [WNext]).
Proof.
  eapply rtc_l. { apply (step_dial_ok _ _ 0). reflexivity. }
  eapply rtc_l. { apply (step_next _ _ 0 0 wit_a1); vm_compute; reflexivity. }
  eapply rtc_l. { eapply (step_open wit_a1 _ 0 0 false wit_h1 (MkWriter 0 2) (MkExt 0 2) wit_o1); vm_compute; reflexivity. }
  eapply rtc_l. { apply (step_write wit_o1 _ 0 0 false (MkExt 0 2) (MkWriter 0 2) 0 [10; 20] (MkWriter 2 0) (a_dst wit_a2));
    vm_compute; reflexivity. }
  eapply rtc_l. { apply (step_done wit_a2 _ 0 0 false (MkExt 0 2) (MkWriter 2 0) 2 wit_a3); vm_compute; reflexivity. }
  apply rtc_refl.
Qed.

Lemma wit_full : rtc step (start 2 6 1) (MkConfig wit_a6 [WNext]).
Proof.
  etrans; [apply wit_half|].
  eapply rtc_l. { apply (step_next wit_a3 _ 0 1 wit_a4); vm_compute; reflexivity. }
  eapply rtc_l. { apply (step_open wit_a4 _ 0 1 false wit_h2 (MkWriter 2 2) (MkExt 2 4) wit_a4); vm_compute; reflexivity. }
  eapply rtc_l. { apply (step_write wit_a4 _ 0 1 false (MkExt 2 4) (MkWriter 2 2) 0 [30; 40] (MkWriter 4 0) (a_dst wit_a5));
    vm_compute; reflexivity. }
  eapply rtc_l. { apply (step_done wit_a5 _ 0 1 false (MkExt 2 4) (MkWriter 4 0) 2 wit_a6); vm_compute; reflexivity. }
  apply rtc_refl.
Qed.

Lemma complete_is_whole_witness :
  a_complete wit_a6 = true /\ a_total wit_a6 = 4 /\ covers (a_covered wit_a6) 3.
Proof.
  split; [reflexivity|]. split; [reflexivity|].
  apply (complete_is_whole 2 6 1 (MkConfig wit_a6 [WNext]) ltac:(lia) ltac:(lia) wit_full eq_refl).
  vm_compute. done.
Defined.

Lemma covered_is_written_witness : written wit_a3 1.
Proof.
  apply (covered_is_written 2 6 1 (MkConfig wit_a3 [WNext]) ltac:(lia) ltac:(lia) wit_half).
  exists (MkExt 0 2). split; [left|vm_compute; done].
Defined.

(** A reader asking for a byte that is missing moves the cursor and keeps
    waiting. *)

(** An article with no part range in a file of several: the download falls back
    to appending. *)
Definition wit_seq : assembly := (openSegment 0 (MkHdr 4 0 0 0 false) wit_a1).2.

Lemma wit_seq_reachable :
  rtc step (start 2 6 1) (MkConfig wit_seq [WBody 0 false (MkExt 0 0) (MkWriter 0 6) 0]).
Proof.
  eapply rtc_l. { apply (step_dial_ok _ _ 0). reflexivity. }
  eapply rtc_l. { apply (step_next _ _ 0 0 wit_a1); vm_compute; reflexivity. }
  eapply rtc_l. { apply (step_open wit_a1 _ 0 0 false (MkHdr 4 0 0 0 false) (MkWriter 0 6) (MkExt 0 0) wit_seq); vm_compute; reflexivity. }
  apply rtc_refl.
Qed.

Lemma sequential_in_order_witness :
  a_layout wit_seq = layoutSequential /\ forall z, covers (a_covered wit_seq) z <-> 0 <= z < a_seqOff wit_seq.
Proof.
  split; [reflexivity|].
  apply (sequential_in_order 2 6 1 _ ltac:(lia) ltac:(lia) wit_seq_reachable eq_refl).
Defined.

Lemma turns_sound_witness :
  (exists j a', pickLocked wit_a3 = (Some j, a') /\ a_state wit_a3 !! j = Some segPending) /\
  (awaitRun 0 wit_a3).1 = ARun 2 /\ (0 < 2 /\ (forall z, 0 <= z < 2 -> written wit_a3 z) /\ ~ covers (a_covered wit_a3) 2).
Proof.
  destruct turns_sound as [T1 T2]. split.
  - destruct (T1 wit_a3) as (j & a' & H1 & H2 & _); [vm_compute; lia|reflexivity|reflexivity|].
    exists j, a'. split; [exact H1|exact H2].
  - split; [reflexivity|].
    apply (T2 2%nat 6 1 (MkConfig wit_a3 [WNext]) 0 ltac:(lia) ltac:(lia) wit_half).
Defined.

Lemma workers_progress_witness :
  (exists id pc c', [WNext] !! id = Some pc /\ step (MkConfig wit_a3 [WNext]) c' /\ c_workers c' !! id <> Some pc) /\
  ((awaitRun 3 wit_a3).1 = AWait /\ (awaitRun 3 (awaitRun 3 wit_a3).2).1 = AWait).
Proof.
  destruct workers_progress as [P1 P2]. split.
  { apply (P1 2%nat 6 1 (MkConfig wit_a3 [WNext]) ltac:(lia) ltac:(lia) wit_half); reflexivity. }
  { split; [reflexivity|].
    apply (P2 2%nat 6 1 (MkConfig wit_a3 [WNext]) (MkConfig (awaitRun 3 wit_a3).2 [WNext])
      ltac:(lia) ltac:(lia) wit_half); [|reflexivity|reflexivity].
    eapply (step_await _ _ 3 _ AWait); [lia|reflexivity]. }
Defined.
