(* ===== verification/ByteBudget.v ===== *)
(** The in-flight segment budget of the stream proxy
    (internal/streamproxy/membudget.go): a FIFO weighted semaphore over bytes.

    [byteBudget] is the state under the mutex; a waiter's [ready] channel is
    closed exactly when it leaves [b_waiters] through notifyLocked.  [step]
    interleaves callers; [c_held] records who has been granted what and not yet
    returned it. *)

From S2P Require Import Prelude.

(** * Data and operations *)

(** budgetWaiter, with the identity of its caller. *)
Record budgetWaiter := MkWaiter { bw_id : nat; bw_n : Z }.

Record byteBudget := MkBudget {
  b_max : Z;
  b_used : Z;
  b_peak : Z;
  b_waiters : list budgetWaiter
}.

Definition newByteBudget (limit : Z) : byteBudget := MkBudget limit 0 0 [].

(** grant: records [n] bytes as used. *)
Definition grant (n : Z) (b : byteBudget) : byteBudget :=
  let used := b_used b + n in
  MkBudget (b_max b) used (if b_peak b <? used then used else b_peak b) (b_waiters b).

Definition set_waiters ws (b : byteBudget) : byteBudget := MkBudget (b_max b) (b_used b) (b_peak b) ws.
Definition set_used u (b : byteBudget) : byteBudget := MkBudget (b_max b) u (b_peak b) (b_waiters b).

(** notifyLocked: grants queued waiters in order while they fit, and returns
    those it granted. *)
Fixpoint notify_loop (ws : list budgetWaiter) (b : byteBudget) : list budgetWaiter * byteBudget :=
  match ws with
  | [] => ([], set_waiters [] b)
  | w :: ws' =>
      if b_max b <? b_used b + bw_n w then ([], set_waiters ws b)
      else
        let '(granted, b) := notify_loop ws' (grant (bw_n w) b) in
        (w :: granted, b)
  end.

Definition notifyLocked (b : byteBudget) : list budgetWaiter * byteBudget :=
  notify_loop (b_waiters b) b.

Definition tryAcquire (n : Z) (b : byteBudget) : bool * byteBudget :=
  if (b_max b <? n) || (b_max b <? b_used b + n) || bool_decide (b_waiters b <> []) then (false, b)
  else (true, grant n b).

(** The first critical section of acquire. *)
Inductive acquireResult := Acquired | TooBig | Queued.

Definition acquire (id : nat) (n : Z) (b : byteBudget) : acquireResult * byteBudget :=
  if b_max b <? n then (TooBig, b)
  else if (b_used b + n <=? b_max b) && bool_decide (b_waiters b = []) then (Acquired, grant n b)
  else (Queued, set_waiters (b_waiters b ++ [MkWaiter id n]) b).

(** acquire after ctx is done: hand granted bytes back, or leave the queue. *)
Definition acquireCancel (id : nat) (n : Z) (granted : bool) (b : byteBudget) :
    list budgetWaiter * byteBudget :=
  let b := if granted then set_used (b_used b - n) b
           else set_waiters (filter (fun w => bw_id w <> id) (b_waiters b)) b in
  notifyLocked b.

Definition release (n : Z) (b : byteBudget) : list budgetWaiter * byteBudget :=
  if n <=? 0 then ([], b) else notifyLocked (set_used (b_used b - n) b).

(** * Callers *)

Record config := MkConfig { c_budget : byteBudget; c_held : gmap nat Z }.

Definition give (ws : list budgetWaiter) (held : gmap nat Z) : gmap nat Z :=
  foldl (fun m w => <[bw_id w := bw_n w]> m) held ws.

(** A caller that neither holds bytes nor waits for some. *)
Definition idle (c : config) (id : nat) : Prop :=
  c_held c !! id = None /\ Forall (fun w => bw_id w <> id) (b_waiters (c_budget c)).

Inductive step : config -> config -> Prop :=
| step_try b h id n b' :
    idle (MkConfig b h) id -> 0 <= n -> tryAcquire n b = (true, b') ->
    step (MkConfig b h) (MkConfig b' (<[id := n]> h))
| step_acquired b h id n b' :
    idle (MkConfig b h) id -> 0 <= n -> acquire id n b = (Acquired, b') ->
    step (MkConfig b h) (MkConfig b' (<[id := n]> h))
| step_queued b h id n b' :
    idle (MkConfig b h) id -> 0 <= n -> acquire id n b = (Queued, b') ->
    step (MkConfig b h) (MkConfig b' h)
| step_cancel_queued b h w ws b' :
    w ∈ b_waiters b -> acquireCancel (bw_id w) (bw_n w) false b = (ws, b') ->
    step (MkConfig b h) (MkConfig b' (give ws h))
| step_cancel_granted b h id n ws b' :
    h !! id = Some n -> acquireCancel id n true b = (ws, b') ->
    step (MkConfig b h) (MkConfig b' (give ws (delete id h)))
| step_release b h id n ws b' :
    h !! id = Some n -> release n b = (ws, b') ->
    step (MkConfig b h) (MkConfig b' (give ws (delete id h))).

Definition init (limit : Z) : config := MkConfig (newByteBudget limit) ∅.

(** * Invariant *)

(** The waiter at the head of the queue does not fit. *)
Definition head_blocked (b : byteBudget) : Prop :=
  match b_waiters b with
  | [] => True
  | w :: _ => b_max b < b_used b + bw_n w
  end.

Definition inv (c : config) : Prop :=
  let b := c_budget c in
  b_used b = msum id (c_held c) /\ 0 <= b_used b <= b_max b /\ b_used b <= b_peak b <= b_max b /\
  head_blocked b /\ NoDup (bw_id <$> b_waiters b) /\
  (forall w, w ∈ b_waiters b -> 0 <= bw_n w <= b_max b /\ c_held c !! bw_id w = None) /\
  (forall id n, c_held c !! id = Some n -> 0 <= n).

(** What notifyLocked does: it grants a prefix of the queue, in order, and stops
    at the first waiter that does not fit. *)
Lemma notify_loop_spec ws b held :
  b_used b = msum id held -> 0 <= b_used b <= b_max b -> b_used b <= b_peak b <= b_max b ->
  NoDup (bw_id <$> ws) ->
  (forall w, w ∈ ws -> 0 <= bw_n w <= b_max b /\ held !! bw_id w = None) ->
  (forall id n, held !! id = Some n -> 0 <= n) ->
  let '(granted, b') := notify_loop ws b in
  inv (MkConfig b' (give granted held)) /\ ws = granted ++ b_waiters b' /\ b_max b' = b_max b.
Proof.
  revert b held. induction ws as [|w ws IH]; intros b held Hu Hr Hp Hnd Hws Hh; cbn [notify_loop].
  { split; [|done]. unfold inv. cbn. split_and!; try done; try lia. }
  apply NoDup_cons in Hnd as [Hni Hnd].
  destruct (b_max b <? b_used b + bw_n w) eqn:Hfit; bool_to_prop.
  { split; [|done]. unfold inv. cbn. split_and!; try done; try lia. by apply NoDup_cons. }
  destruct (Hws w ltac:(left)) as [Hn Hnone].
  specialize (IH (grant (bw_n w) b) (<[bw_id w := bw_n w]> held)). cbn [grant b_used b_max b_peak] in IH.
  destruct (notify_loop ws (grant (bw_n w) b)) as [granted b'].
  destruct IH as (Hi & Hsplit & Hmax); try done.
  - rewrite msum_insert_new by done. unfold id at 1. lia.
  - lia.
  - destruct (b_peak b <? b_used b + bw_n w) eqn:?; bool_to_prop; lia.
  - intros v Hv. destruct (Hws v ltac:(by right)) as [? ?]. split; [done|].
    rewrite lookup_insert_ne; [done|]. intros E. apply Hni. rewrite E. by apply list_elem_of_fmap_2.
  - intros i n [[_ <-]|[_ ?]]%lookup_insert_Some; [lia|eauto].
  - split; [exact Hi|]. split; [by rewrite Hsplit at 1|done].
Qed.

(** Returning bytes, then notifying. *)
Lemma return_inv b h id n :
  inv (MkConfig b h) -> h !! id = Some n ->
  let '(ws, b') := notifyLocked (set_used (b_used b - n) b) in inv (MkConfig b' (give ws (delete id h))).
Proof.
  intros (Hu & Hr & Hp & Hb & Hnd & Hws & Hh) Hid. cbn [c_budget c_held] in *.
  assert (Hsum : msum (@Datatypes.id Z) h = n + msum Datatypes.id (delete id h)) by (by apply (msum_delete Datatypes.id)).
  pose proof (Hh id n Hid). assert (0 <= msum Datatypes.id (delete id h)) as Hn0.
  { apply msum_nonneg. intros k a [_ ?]%lookup_delete_Some. by apply (Hh k). }
  pose proof (notify_loop_spec (b_waiters b) (set_used (b_used b - n) b) (delete id h)) as H1.
  unfold notifyLocked. cbn [set_used b_waiters b_used b_max b_peak] in *.
  destruct (notify_loop _ _) as [ws b'].
  destruct H1 as (Hi & _); try done; try lia.
  - intros w Hw. destruct (Hws w Hw) as [? Hnone]. split; [done|]. apply lookup_delete_None. auto.
  - intros k a [_ ?]%lookup_delete_Some. by apply (Hh k).
Qed.

(** Taking bytes that fit when nobody waits. *)
Lemma take_inv b h id n :
  inv (MkConfig b h) -> idle (MkConfig b h) id -> 0 <= n -> b_used b + n <= b_max b -> b_waiters b = [] ->
  inv (MkConfig (grant n b) (<[id := n]> h)).
Proof.
  intros (Hu & Hr & Hp & Hb & Hnd & Hws & Hh) [Hid _] Hn Hfit Hw. cbn [c_budget c_held] in *.
  unfold inv. cbn [c_budget c_held grant b_used b_max b_peak b_waiters]. unfold head_blocked. cbn. rewrite Hw.
  split_and!; try done; try lia.
  - rewrite msum_insert_new by done. unfold Datatypes.id at 1. lia.
  - destruct (b_peak b <? b_used b + n) eqn:?; bool_to_prop; lia.
  - destruct (b_peak b <? b_used b + n) eqn:?; bool_to_prop; lia.
  - constructor.
  - by intros w ?%not_elem_of_nil.
  - intros i m [[_ <-]|[_ ?]]%lookup_insert_Some; [lia|eauto].
Qed.

Lemma budget_step_inv c c' : inv c -> step c c' -> inv c'.
Proof.
  intros Hi Hstep. destruct Hstep as [b h id n b' Hid Hn Ht|b h id n b' Hid Hn Ha|b h id n b' Hid Hn Ha
    |b h w ws b' Hw Hc|b h id n ws b' Hh Hc|b h id n ws b' Hh Hr].
  - unfold tryAcquire in Ht. destruct (_ || _) eqn:E in Ht; [done|]. injection Ht as <-.
    apply orb_false_iff in E as [E Hws]. apply bool_decide_eq_false in Hws. apply dec_stable in Hws.
    bool_to_prop. by apply take_inv.
  - unfold acquire in Ha. destruct (b_max b <? n); [done|]. destruct (_ && _) eqn:E in Ha; [|done].
    injection Ha as <-. apply andb_true_iff in E as [E Hws]. apply bool_decide_eq_true in Hws.
    bool_to_prop. by apply take_inv.
  - unfold acquire in Ha. destruct (b_max b <? n) eqn:Hbig; [done|]. bool_to_prop.
    destruct (_ && _) eqn:E in Ha; [done|]. injection Ha as <-.
    destruct Hi as (Hu & Hr & Hp & Hb & Hnd & Hws & Hhn). destruct Hid as [Hid Hnw]. cbn in *.
    unfold inv. cbn. split_and!; try done; try lia.
    + unfold head_blocked in *. cbn. destruct (b_waiters b); [|done]. cbn. rewrite andb_true_r in E. bool_to_prop. lia.
    + rewrite fmap_app. apply NoDup_app. split; [done|]. split; [|apply NoDup_singleton].
      intros i (v & -> & Hv)%list_elem_of_fmap. rewrite Forall_forall in Hnw. intros E1%list_elem_of_singleton.
      by apply (Hnw v).
    + intros v [Hv| ->%list_elem_of_singleton]%elem_of_app; [by apply Hws|]. cbn. split; [lia|done].
  - destruct Hi as (Hu & Hr & Hp & Hb & Hnd & Hws & Hh). cbn [c_budget c_held] in *.
    unfold acquireCancel, notifyLocked in Hc. cbn [set_waiters b_waiters] in Hc.
    set (q := filter (fun v => bw_id v <> bw_id w) (b_waiters b)) in *.
    pose proof (notify_loop_spec q (set_waiters q b) h Hu Hr Hp) as H1. rewrite Hc in H1. apply H1.
    + eapply sublist_NoDup; [exact Hnd|]. apply fmap_sublist, sublist_filter.
    + intros v [_ Hv]%list_elem_of_filter. by apply Hws.
    + done.
  - pose proof (return_inv b h id n Hi Hh) as H1. unfold acquireCancel in Hc. by rewrite Hc in H1.
  - unfold release in Hr. destruct (n <=? 0) eqn:Hn; bool_to_prop.
    + injection Hr as <- <-. pose proof Hi as (_ & _ & _ & _ & _ & _ & Hh0). cbn in Hh0.
      assert (n = 0) as -> by (specialize (Hh0 id n Hh); lia). cbn.
      destruct Hi as (Hu & Hr & Hp & Hb & Hnd & Hws & _). unfold inv. cbn in *.
      assert (msum (@Datatypes.id Z) h = 0 + msum Datatypes.id (delete id h)) as Hs by (by apply (msum_delete Datatypes.id)).
      split_and!; try done; try lia.
      * intros v Hv. destruct (Hws v Hv) as [? Hnone]. split; [done|]. apply lookup_delete_None. auto.
      * intros k a [_ ?]%lookup_delete_Some. by apply (Hh0 k).
    + pose proof (return_inv b h id n Hi Hh) as H1. by rewrite Hr in H1.
Qed.

Lemma budget_init_inv limit : 0 <= limit -> inv (init limit).
Proof.
  intros Hl. unfold inv. cbn. rewrite msum_empty. split_and!; try done; try lia; [constructor|].
  by intros w ?%not_elem_of_nil.
Qed.

Lemma budget_reachable_inv limit c : 0 <= limit -> rtc step (init limit) c -> inv c.
Proof. intros Hl Hr. eapply rtc_invariant; [apply budget_step_inv|exact Hr|by apply budget_init_inv]. Qed.

Lemma step_max c c' : step c c' -> b_max (c_budget c') = b_max (c_budget c).
Proof.
  assert (Hl : forall ws b, b_max (notify_loop ws b).2 = b_max b).
  { intros ws. induction ws as [|w ws IH]; intros b; cbn [notify_loop]; [done|].
    destruct (_ <? _); [done|]. specialize (IH (grant (bw_n w) b)).
    destruct (notify_loop ws (grant (bw_n w) b)). exact IH. }
  intros Hs. destruct Hs as [b h i n b' _ _ H|b h i n b' _ _ H|b h i n b' _ _ H|b h w ws b' _ H|b h i n ws b' _ H|b h i n ws b' _ H];
    cbn [c_budget].
  - unfold tryAcquire in H. destruct (_ || _); [done|]. by injection H as <-.
  - unfold acquire in H. destruct (_ <? _); [done|]. destruct (_ && _); [|done]. by injection H as <-.
  - unfold acquire in H. destruct (_ <? _); [done|]. destruct (_ && _); [done|]. by injection H as <-.
  - unfold acquireCancel, notifyLocked in H. set (b0 := set_waiters _ b) in H. pose proof (Hl (b_waiters b0) b0) as E.
    rewrite H in E. exact E.
  - unfold acquireCancel, notifyLocked in H. set (b0 := set_used _ b) in H. pose proof (Hl (b_waiters b0) b0) as E.
    rewrite H in E. exact E.
  - unfold release, notifyLocked in H. destruct (n <=? 0); [by injection H as <- <-|].
    set (b0 := set_used _ b) in H. pose proof (Hl (b_waiters b0) b0) as E. rewrite H in E. exact E.
Qed.

(** * Properties *)

Lemma budget_exact limit c :
  0 <= limit -> rtc step (init limit) c ->
  b_used (c_budget c) = msum id (c_held c) /\ 0 <= b_used (c_budget c) <= limit /\
  b_peak (c_budget c) <= limit.
Proof.
  intros Hl Hr. pose proof (budget_reachable_inv limit c Hl Hr) as (Hu & Hb & Hp & _).
  assert (b_max (c_budget c) = limit) as <-.
  { apply (rtc_invariant step (fun c => b_max (c_budget c) = limit)) in Hr; [done| |done].
    intros s s' <- Hs. by apply step_max. }
  split; [done|]. split; [done|lia].
Qed.

Lemma budget_no_stranded_waiter limit c :
  0 <= limit -> rtc step (init limit) c ->
  head_blocked (c_budget c) /\ (c_held c = ∅ -> b_waiters (c_budget c) = []).
Proof.
  intros Hl Hr. pose proof (budget_reachable_inv limit c Hl Hr) as (Hu & Hb & Hp & Hh & _ & Hws & _).
  split; [done|]. intros He. rewrite He, msum_empty in Hu. unfold head_blocked in Hh.
  destruct (b_waiters (c_budget c)) as [|w ws]; [done|]. destruct (Hws w ltac:(left)) as [? _]. lia.
Qed.

(** C36: The bytes in use are exactly the bytes granted and not yet returned,
    and never exceed the budget, nor does the recorded peak; and no waiter is
    forgotten: whenever somebody waits, the first in line does not fit in what
    is left, so once everything held has been returned nobody waits any more. *)
Theorem budget_correct limit c :
  0 <= limit -> rtc step (init limit) c ->
  (b_used (c_budget c) = msum id (c_held c) /\ 0 <= b_used (c_budget c) <= limit /\
   b_peak (c_budget c) <= limit) /\
  head_blocked (c_budget c) /\ (c_held c = ∅ -> b_waiters (c_budget c) = []).
Proof. intros Hl Hr. split; [by apply budget_exact|by apply (budget_no_stranded_waiter limit)]. Qed.

(** ** Witnesses *)

(** One caller holds 6 of 10 bytes, another waits for 5. *)
Definition wit_config : config := MkConfig (MkBudget 10 6 6 [MkWaiter 2 5]) {[1%nat := 6]}.

Lemma wit_budget_reachable : rtc step (init 10) wit_config.
Proof.
  eapply rtc_l.
  { apply (step_acquired _ ∅ 1 6 (MkBudget 10 6 6 [])); [split; [done|constructor]|lia|reflexivity]. }
  eapply rtc_l.
  { apply (step_queued _ _ 2 5 (MkBudget 10 6 6 [MkWaiter 2 5])); [split; [done|constructor]|lia|reflexivity]. }
  apply rtc_refl.
Qed.

Lemma budget_correct_witness :
  b_used (c_budget wit_config) = msum id (c_held wit_config) /\
  b_waiters (c_budget wit_config) <> [] /\ head_blocked (c_budget wit_config).
Proof.
  destruct (budget_correct 10 wit_config ltac:(lia) wit_budget_reachable) as ((H1 & _) & H2 & _).
  split; [exact H1|]. split; [done|exact H2].
Defined.
