(* ===== verification/SlotSem.v ===== *)
(** The transcoder's concurrency limiter (internal/media/slotsem.go): a FIFO
    counting semaphore whose limit is passed to every call, so that it can
    change while callers wait.

    Each critical section is one [step]; a release is two of them (hand the
    slot back, then, when somebody was queued, look the limit up again and wake
    waiters), with [c_waking] counting the releases in between. *)

From S2P Require Import Prelude.

(** * Data and operations *)

(** slotSem: [ss_waiters] are the callers whose [ready] is still open, oldest
    first. *)
Record slotSem := MkSem { ss_held : Z; ss_waiters : list nat }.

(** grantLocked; the loop takes at most one turn per waiter.  Returns the
    callers it handed a slot to. *)
Fixpoint grant_loop (limit : Z) (ws : list nat) (s : slotSem) : list nat * slotSem :=
  match ws with
  | [] => ([], MkSem (ss_held s) [])
  | w :: ws' =>
      if ss_held s <? limit then
        let '(g, s) := grant_loop limit ws' (MkSem (ss_held s + 1) ws') in (w :: g, s)
      else ([], MkSem (ss_held s) ws)
  end.

Definition grantLocked (limit : Z) (s : slotSem) : list nat * slotSem :=
  grant_loop limit (ss_waiters s) s.

(** The first critical section of acquire: the callers woken, and whether the
    caller itself got a slot. *)
Definition acquire (id : nat) (limit : Z) (s : slotSem) : list nat * bool * slotSem :=
  let '(g, s) := grantLocked limit s in
  if (ss_held s <? limit) && bool_decide (ss_waiters s = []) then (g, true, MkSem (ss_held s + 1) (ss_waiters s))
  else (g, false, MkSem (ss_held s) (ss_waiters s ++ [id])).

(** acquire after ctx is done. *)
Definition acquireCancel (id : nat) (granted : bool) (limit : Z) (s : slotSem) : list nat * slotSem :=
  if granted then grantLocked limit (MkSem (ss_held s - 1) (ss_waiters s))
  else ([], MkSem (ss_held s) (filter (fun w => w <> id) (ss_waiters s))).

(** The first critical section of release, and whether anybody was queued. *)
Definition release1 (s : slotSem) : bool * slotSem :=
  let s := if 0 <? ss_held s then MkSem (ss_held s - 1) (ss_waiters s) else s in
  (bool_decide (ss_waiters s <> []), s).

(** * Callers *)

Record config := MkConfig { c_sem : slotSem; c_holders : gset nat; c_waking : nat }.

Definition give (g : list nat) (h : gset nat) : gset nat := list_to_set g ∪ h.

(** The steps, the limit each was called with. *)
Inductive step : Z -> config -> config -> Prop :=
| step_fast limit s h k id g s' :
    id ∉ h -> id ∉ ss_waiters s -> acquire id limit s = (g, true, s') ->
    step limit (MkConfig s h k) (MkConfig s' ({[id]} ∪ give g h) k)
| step_queue limit s h k id g s' :
    id ∉ h -> id ∉ ss_waiters s -> acquire id limit s = (g, false, s') ->
    step limit (MkConfig s h k) (MkConfig s' (give g h) k)
| step_tick limit s h k g s' :
    grantLocked limit s = (g, s') -> step limit (MkConfig s h k) (MkConfig s' (give g h) k)
| step_cancel_granted limit s h k id g s' :
    id ∈ h -> acquireCancel id true limit s = (g, s') ->
    step limit (MkConfig s h k) (MkConfig s' (give g (h ∖ {[id]})) k)
| step_cancel_queued limit s h k id g s' :
    id ∈ ss_waiters s -> acquireCancel id false limit s = (g, s') ->
    step limit (MkConfig s h k) (MkConfig s' (give g h) k)
| step_release1 limit s h k id queued s' :
    id ∈ h -> release1 s = (queued, s') ->
    step limit (MkConfig s h k) (MkConfig s' (h ∖ {[id]}) (if queued then S k else k))
| step_release2 limit s h k g s' :
    grantLocked limit s = (g, s') ->
    step limit (MkConfig s h (S k)) (MkConfig s' (give g h) k).

(** Steps under any limits, and under one fixed limit. *)
Definition anystep (c c' : config) : Prop := exists limit, step limit c c'.

Definition init : config := MkConfig (MkSem 0 []) ∅ 0.

(** * Invariant *)

Definition inv (c : config) : Prop :=
  ss_held (c_sem c) = Z.of_nat (size (c_holders c)) /\ NoDup (ss_waiters (c_sem c)) /\
  (forall w, w ∈ ss_waiters (c_sem c) -> w ∉ c_holders c).

(** With one fixed limit: between releases, either nobody waits or the limit is
    reached. *)
Definition saturated (limit : Z) (c : config) : Prop :=
  c_waking c = 0%nat -> ss_waiters (c_sem c) = [] \/ limit <= ss_held (c_sem c).

Lemma give_nil h : give [] h = h.
Proof. unfold give. cbn. by rewrite union_empty_l_L. Qed.

Lemma give_cons w g h : give (w :: g) h = give g ({[w]} ∪ h).
Proof. unfold give. cbn. by rewrite (assoc_L (∪)), (comm_L (∪) {[w]}). Qed.

Lemma grant_loop_spec limit ws s h :
  ss_held s = Z.of_nat (size h) -> NoDup ws -> (forall w, w ∈ ws -> w ∉ h) ->
  let '(g, s') := grant_loop limit ws s in
  ss_held s' = Z.of_nat (size (give g h)) /\ ws = g ++ ss_waiters s' /\
  (forall w, w ∈ ss_waiters s' -> w ∉ give g h) /\
  (ss_waiters s' = [] \/ limit <= ss_held s') /\ ss_held s <= ss_held s' <= Z.max (ss_held s) limit.
Proof.
  revert s h. induction ws as [|w ws IH]; intros s h Hh Hnd Hd; cbn [grant_loop].
  { cbn. rewrite give_nil. split; [done|]. split; [done|].
    split; [by intros w ?%not_elem_of_nil|]. split; [by left|lia]. }
  destruct (ss_held s <? limit) eqn:Hl; bool_to_prop.
  2: { cbn. rewrite give_nil. split; [done|]. split; [done|]. split; [done|].
       split; [right; lia|lia]. }
  apply NoDup_cons in Hnd as [Hni Hnd].
  specialize (IH (MkSem (ss_held s + 1) ws) ({[w]} ∪ h)). cbn [ss_held] in IH.
  destruct (grant_loop limit ws (MkSem (ss_held s + 1) ws)) as [g s'].
  destruct IH as (H1 & H2 & H3 & H4 & H5); [| |set_solver|].
  - rewrite size_union by (pose proof (Hd w ltac:(left)); set_solver). rewrite size_singleton. lia.
  - done.
  - rewrite give_cons.
    split; [done|]. split; [by rewrite H2 at 1|]. split; [done|]. split; [done|lia].
Qed.

Lemma grantLocked_inv limit s h k g s' k' :
  inv (MkConfig s h k) -> grantLocked limit s = (g, s') ->
  inv (MkConfig s' (give g h) k') /\ (ss_waiters s' = [] \/ limit <= ss_held s').
Proof.
  intros (Hh & Hnd & Hd) Hg. cbn in *. pose proof (grant_loop_spec limit (ss_waiters s) s h Hh Hnd Hd) as H.
  unfold grantLocked in Hg. rewrite Hg in H. destruct H as (H1 & H2 & H3 & H4 & _).
  split; [|done]. split; [done|]. split; [|done]. cbn. rewrite H2 in Hnd. by apply NoDup_app in Hnd as (_ & _ & ?).
Qed.

(** Removing one holder. *)
Lemma drop_holder s h k id :
  inv (MkConfig s h k) -> id ∈ h ->
  0 < ss_held s /\ inv (MkConfig (MkSem (ss_held s - 1) (ss_waiters s)) (h ∖ {[id]}) k).
Proof.
  intros (Hh & Hnd & Hd) Hid. cbn in *.
  assert (Hsz : size h = S (size (h ∖ {[id]}))).
  { rewrite (union_difference_singleton_L id h Hid) at 1. rewrite size_union by set_solver. rewrite size_singleton. lia. }
  split; [lia|]. split; [cbn; lia|]. split; [done|]. cbn. set_solver.
Qed.

Lemma slot_step_inv limit c c' : inv c -> step limit c c' -> inv c'.
Proof.
  intros Hi Hs. destruct Hs as [l s h k id g s' Hh Hw Ha|l s h k id g s' Hh Hw Ha|l s h k g s' Hg
    |l s h k id g s' Hid Hc|l s h k id g s' Hid Hc|l s h k id q s' Hid Hr|l s h k g s' Hg].
  - unfold acquire in Ha. destruct (grantLocked l s) as [g0 s0] eqn:Hg.
    destruct (_ && _) eqn:E in Ha; [|done]. injection Ha as <- <-.
    apply andb_true_iff in E as [_ E]. apply bool_decide_eq_true in E.
    destruct (grantLocked_inv _ _ _ _ _ _ k Hi Hg) as [(H1 & H2 & H3) _]. cbn in *.
    assert (id ∉ give g0 h).
    { destruct Hi as (Hh0 & Hnd & Hd). pose proof (grant_loop_spec l (ss_waiters s) s h Hh0 Hnd Hd) as H.
      unfold grantLocked in Hg. rewrite Hg in H. destruct H as (_ & H & _). unfold give. rewrite H in Hw. set_solver. }
    split; [|split]; cbn.
    + rewrite size_union by set_solver. rewrite size_singleton. lia.
    + done.
    + rewrite E. by intros w ?%not_elem_of_nil.
  - unfold acquire in Ha. destruct (grantLocked l s) as [g0 s0] eqn:Hg.
    destruct (_ && _) eqn:E in Ha; [done|]. injection Ha as <- <-.
    destruct (grantLocked_inv _ _ _ _ _ _ k Hi Hg) as [(H1 & H2 & H3) _]. cbn in *.
    destruct Hi as (Hh0 & Hnd & Hd). pose proof (grant_loop_spec l (ss_waiters s) s h Hh0 Hnd Hd) as H.
    unfold grantLocked in Hg. rewrite Hg in H. destruct H as (_ & H & _). rewrite H in Hw.
    split; [done|]. split; cbn.
    + apply NoDup_app. split; [done|]. split; [set_solver|apply NoDup_singleton].
    + unfold give in *. set_solver.
  - by eapply grantLocked_inv.
  - unfold acquireCancel in Hc. destruct (drop_holder _ _ _ _ Hi Hid) as [_ Hi'].
    by eapply grantLocked_inv.
  - unfold acquireCancel in Hc. injection Hc as <- <-. destruct Hi as (Hh & Hnd & Hd). cbn in *.
    rewrite give_nil. split; [done|]. split; cbn.
    + by apply NoDup_filter.
    + intros w [_ Hw]%list_elem_of_filter. by apply Hd.
  - unfold release1 in Hr. destruct (drop_holder _ _ _ _ Hi Hid) as [Hpos Hi'].
    destruct (0 <? ss_held s) eqn:?; bool_to_prop; [|lia]. by injection Hr as <- <-.
  - by eapply grantLocked_inv.
Qed.

Lemma slot_step_saturated limit c c' : inv c -> saturated limit c -> step limit c c' -> saturated limit c'.
Proof.
  intros Hi Hsat Hs. unfold saturated in *. destruct Hs as [l s h k id g s' Hh Hw Ha|l s h k id g s' Hh Hw Ha|l s h k g s' Hg
    |l s h k id g s' Hid Hc|l s h k id g s' Hid Hc|l s h k id q s' Hid Hr|l s h k g s' Hg]; cbn in *.
  - intros _. left. unfold acquire in Ha. destruct (grantLocked l s) as [g0 s0] eqn:Hg.
    destruct (_ && _) eqn:E in Ha; [|done]. injection Ha as <- <-.
    apply andb_true_iff in E as [_ E]. by apply bool_decide_eq_true in E.
  - intros _. right. unfold acquire in Ha. destruct (grantLocked l s) as [g0 s0] eqn:Hg.
    destruct (_ && _) eqn:E in Ha; [done|]. injection Ha as <- <-. cbn.
    destruct (grantLocked_inv _ _ _ _ _ _ k Hi Hg) as [_ [Hn|]]; [|done].
    rewrite Hn, bool_decide_true, andb_true_r in E by done. bool_to_prop. done.
  - intros _. by eapply grantLocked_inv with (k' := k).
  - intros _. unfold acquireCancel in Hc. destruct (drop_holder _ _ _ _ Hi Hid) as [_ Hi'].
    by eapply grantLocked_inv with (k' := k).
  - unfold acquireCancel in Hc. injection Hc as <- <-. cbn. intros Hk. destruct (Hsat Hk) as [->|]; [by left|by right].
  - unfold release1 in Hr. injection Hr as <- <-. set (s1 := if 0 <? _ then MkSem _ _ else s).
    assert (ss_waiters s1 = ss_waiters s) as -> by (unfold s1; by destruct (0 <? ss_held s)).
    destruct (bool_decide_reflect (ss_waiters s <> [])); [done|]. intros _. left. by apply dec_stable.
  - intros _. by eapply grantLocked_inv with (k' := k).
Qed.

Lemma slot_init_inv : inv init.
Proof. split; [done|]. split; [constructor|]. by intros w ?%not_elem_of_nil. Qed.

(** * Properties *)

Lemma slots_exact c :
  rtc anystep init c ->
  ss_held (c_sem c) = Z.of_nat (size (c_holders c)) /\
  (forall w, w ∈ ss_waiters (c_sem c) -> w ∉ c_holders c).
Proof.
  intros Hr. assert (inv c) as (? & _ & ?); [|done].
  eapply (rtc_invariant anystep); [|exact Hr|apply slot_init_inv].
  intros s s' Hs [l Hstep]. by eapply slot_step_inv.
Qed.

Lemma slots_no_lost_wakeup limit c :
  rtc (step limit) init c -> c_waking c = 0%nat ->
  ss_waiters (c_sem c) = [] \/ limit <= ss_held (c_sem c).
Proof.
  intros Hr. assert (inv c /\ saturated limit c) as [_ Hs]; [|done].
  eapply (rtc_invariant (step limit) (fun c => inv c /\ saturated limit c)); [|exact Hr|].
  - intros s s' [Hi Hs] Hstep. split; [by eapply slot_step_inv|by eapply slot_step_saturated].
  - split; [apply slot_init_inv|]. intros _. by left.
Qed.

(** C37: Under any interleaving and any change of the limit between calls, the
    held count is the number of callers that own a slot, and no caller both
    waits and owns one; with the limit unchanged, no wake-up is lost: whenever
    no release is half way, somebody waits only if the limit is reached,
    although release drops the lock between giving its slot back and waking the
    next in line. *)
Theorem slots_correct c :
  rtc anystep init c ->
  (ss_held (c_sem c) = Z.of_nat (size (c_holders c)) /\
   forall w, w ∈ ss_waiters (c_sem c) -> w ∉ c_holders c) /\
  forall limit, rtc (step limit) init c -> c_waking c = 0%nat ->
    ss_waiters (c_sem c) = [] \/ limit <= ss_held (c_sem c).
Proof. intros Hr. split; [by apply slots_exact|]. intros limit. apply slots_no_lost_wakeup. Qed.

(** ** Witnesses *)

(** One slot, one holder, one waiter. *)
Definition wit_config : config := MkConfig (MkSem 1 [2%nat]) {[1%nat]} 0.

Lemma wit_slots_reachable : rtc (step 1) init wit_config.
Proof.
  eapply rtc_l.
  { apply (step_fast 1 (MkSem 0 []) ∅ 0 1 [] (MkSem 1 [])); [set_solver|by apply not_elem_of_nil|reflexivity]. }
  eapply rtc_l.
  { apply (step_queue 1 _ _ 0 2 [] (MkSem 1 [2%nat])); [vm_compute; done|by apply not_elem_of_nil|reflexivity]. }
  apply rtc_refl.
Qed.

Lemma slots_correct_witness :
  ss_held (c_sem wit_config) = Z.of_nat (size (c_holders wit_config)) /\
  (ss_waiters (c_sem wit_config) = [] \/ 1 <= ss_held (c_sem wit_config)).
Proof.
  destruct (slots_correct wit_config) as [[H1 _] H2].
  { eapply rtc_subrel; [|exact wit_slots_reachable]. intros x y H. by exists 1. }
  split; [exact H1|]. by apply (H2 1 wit_slots_reachable).
Defined.
