(* ===== verification/SegCache.v ===== *)
(** The stream proxy's segment cache (internal/streamproxy/cache.go): an LRU
    bounded by entries, bytes and age, its key derivation, and the buffered read
    that feeds it.

    [segCache] is the state under the mutex: the map [items], and the keys of the
    list in recency order, front first.  Clock readings are arguments. *)

From S2P Require Import Prelude GoStrings.

(** * Data *)

Record cacheEntry := MkEntry {
  ce_key : bytes;
  ce_val : bytes;
  ce_hdr : option header;
  ce_status : Z;
  ce_expiresAt : Z;
  ce_size : Z
}.

Record segCache := MkCache {
  sc_ttl : Z;
  sc_maxEntries : Z;
  sc_maxBytes : Z;
  sc_totalBytes : Z;
  sc_items : gmap bytes cacheEntry;
  sc_lru : list bytes
}.

Definition defaultCacheMaxBytes : Z := 256 * 1024 * 1024.
Definition maxSegmentBytes : Z := 50 * 1024 * 1024.

Definition newSegCache (ttl maxEntries : Z) : segCache :=
  MkCache ttl maxEntries defaultCacheMaxBytes 0 ∅ [].

Definition set_state (total : Z) (items : gmap bytes cacheEntry) (lru : list bytes) (c : segCache) : segCache :=
  MkCache (sc_ttl c) (sc_maxEntries c) (sc_maxBytes c) total items lru.

(** list.Remove and MoveToFront, on keys. *)
Definition lruRemove (key : bytes) (l : list bytes) : list bytes := filter (fun k => k <> key) l.
Definition moveToFront (key : bytes) (l : list bytes) : list bytes := key :: lruRemove key l.

(** removeLocked: drops one entry and its byte accounting. *)
Definition removeLocked (key : bytes) (c : segCache) : segCache :=
  match sc_items c !! key with
  | Some e => set_state (sc_totalBytes c - ce_size e) (delete key (sc_items c)) (lruRemove key (sc_lru c)) c
  | None => c
  end.

(** sweep: the list from the back, dropping what has expired. *)
Definition sweep_one (now : Z) (c : segCache) (key : bytes) : segCache :=
  match sc_items c !! key with
  | Some e => if ce_expiresAt e <? now then removeLocked key c else c
  | None => c
  end.

Definition sweep (now : Z) (c : segCache) : segCache := foldl (sweep_one now) c (rev (sc_lru c)).

(** The eviction loops: the back of the list is dropped while [over] holds. *)
Fixpoint evictBack (over : segCache -> bool) (fuel : nat) (c : segCache) : segCache :=
  match fuel with
  | O => c
  | S fuel =>
      if over c then
        match last (sc_lru c) with
        | None => c
        | Some back => evictBack over fuel (removeLocked back c)
        end
      else c
  end.

(** After a larger replacement: over budget, but never the refreshed entry. *)
Definition overBudget (key : bytes) (c : segCache) : bool :=
  (sc_maxBytes c <? sc_totalBytes c) && bool_decide (last (sc_lru c) <> Some key).

(** Before an insertion of [newSize] bytes. *)
Definition noRoom (newSize : Z) (c : segCache) : bool :=
  (sc_maxEntries c <=? Z.of_nat (length (sc_lru c))) || (sc_maxBytes c <? sc_totalBytes c + newSize).

Definition putFull (key val : bytes) (hdr : option header) (status now : Z) (c : segCache) : segCache :=
  let newSize := Z.of_nat (length val) in
  if sc_maxBytes c <? newSize then removeLocked key c
  else
    let e' := MkEntry key val hdr status (now + sc_ttl c) newSize in
    match sc_items c !! key with
    | Some e =>
        let c := set_state (sc_totalBytes c - ce_size e + newSize) (<[key := e']> (sc_items c))
                   (moveToFront key (sc_lru c)) c in
        evictBack (overBudget key) (S (length (sc_lru c))) c
    | None =>
        let c := evictBack (noRoom newSize) (S (length (sc_lru c))) c in
        set_state (sc_totalBytes c + newSize) (<[key := e']> (sc_items c)) (key :: sc_lru c) c
    end.

Definition getFull (key : bytes) (now : Z) (c : segCache) : option cacheEntry * segCache :=
  match sc_items c !! key with
  | None => (None, c)
  | Some e =>
      if ce_expiresAt e <? now then (None, removeLocked key c)
      else (Some e, set_state (sc_totalBytes c) (sc_items c) (moveToFront key (sc_lru c)) c)
  end.

(** * Keys *)

(** Byte-wise string order. *)
Fixpoint bytes_le (a b : bytes) : bool :=
  match a, b with
  | [], _ => true
  | _ :: _, [] => false
  | x :: a, y :: b => (x <? y) || ((x =? y) && bytes_le a b)
  end.

#[export] Instance pair_le_dec : RelDecision (fun p q : bytes * list bytes => Is_true (bytes_le p.1 q.1)).
Proof. intros p q. apply _. Defined.

(** The header pairs as they are hashed: names canonical, in order, empty value
    lists left out. *)
Definition headerPairs (hdr : header) : list (bytes * list bytes) :=
  merge_sort (fun p q => Is_true (bytes_le p.1 q.1))
    ((fun p => (CanonicalHeaderKey p.1, p.2)) <$> filter (fun p => p.2 <> []) (map_to_list hdr)).

Definition pairBytes (p : bytes * list bytes) : bytes :=
  0 :: p.1 ++ 58 :: concat ((fun v => v ++ [1]) <$> p.2).

(** What cacheKey feeds the hash. *)
Definition keyInput (rawurl : bytes) (hdr : header) : bytes :=
  rawurl ++ concat (pairBytes <$> headerPairs hdr).

Definition cacheKey (sha256hex : bytes -> bytes) (rawurl : bytes) (hdr : header) : bytes :=
  sha256hex (keyInput rawurl hdr).

(** * Buffered reads *)

Inductive readErr := errSegmentTooLarge | errEOF | errUnexpectedEOF | errBody.

(** The in-flight budget a body of the advertised length needs. *)
Definition segmentReservation (contentLength : Z) : Z :=
  if contentLength <? 0 then maxSegmentBytes else contentLength.

(** readSegment on a body that yields [body] and then [fail] (an error, or end
    of file). *)
Definition readSegment (body : bytes) (fail : bool) (contentLength : Z) : result readErr bytes :=
  if maxSegmentBytes <? contentLength then Err errSegmentTooLarge
  else if 0 <=? contentLength then
    if Z.of_nat (length body) <? contentLength then Err (if fail then errBody else if bool_decide (body = []) then errEOF else errUnexpectedEOF)
    else Ok (take (Z.to_nat contentLength) body)
  else
    let data := take (Z.to_nat (maxSegmentBytes + 1)) body in
    if (Z.of_nat (length data) <=? maxSegmentBytes) && fail then Err errBody
    else if maxSegmentBytes <? Z.of_nat (length data) then Err errSegmentTooLarge
    else Ok data.

Definition cacheableResponse (status contentLength : Z) : bool :=
  (status =? 200) && (0 <=? contentLength) && (contentLength <=? maxSegmentBytes).

(** * Invariant *)

Record wf (c : segCache) : Prop := {
  wf_nodup : NoDup (sc_lru c);
  wf_dom : forall k, k ∈ sc_lru c <-> is_Some (sc_items c !! k);
  wf_entry : forall k e, sc_items c !! k = Some e -> ce_key e = k /\ ce_size e = Z.of_nat (length (ce_val e));
  wf_total : sc_totalBytes c = msum ce_size (sc_items c)
}.

Definition bounded (c : segCache) : Prop :=
  sc_totalBytes c <= sc_maxBytes c /\ Z.of_nat (length (sc_lru c)) <= Z.max 1 (sc_maxEntries c).

Lemma lruRemove_elem key l k : k ∈ lruRemove key l <-> k <> key /\ k ∈ l.
Proof. unfold lruRemove. by rewrite list_elem_of_filter. Qed.

Lemma lruRemove_nodup key l : NoDup l -> NoDup (lruRemove key l).
Proof. apply NoDup_filter. Qed.

(** Removing the last key leaves the rest in order. *)
Lemma lruRemove_last l key : NoDup (l ++ [key]) -> lruRemove key (l ++ [key]) = l.
Proof.
  intros H. apply NoDup_app in H as (_ & Hd & _). unfold lruRemove. rewrite filter_app.
  rewrite filter_cons_False by tauto. rewrite filter_nil, app_nil_r.
  induction l as [|k l IH]; [done|]. rewrite filter_cons_True.
  - f_equal. apply IH. intros x Hx. apply Hd. by right.
  - intros ->. by destruct (Hd key (list_elem_of_here _ _) (list_elem_of_here _ _)).
Qed.

Lemma sizes_nonneg c k e : wf c -> sc_items c !! k = Some e -> 0 <= ce_size e.
Proof. intros H Hk. destruct (wf_entry _ H k e Hk) as [_ ->]. lia. Qed.

Lemma removeLocked_wf key c : wf c -> wf (removeLocked key c).
Proof.
  intros H. unfold removeLocked. destruct (sc_items c !! key) as [e|] eqn:He; [|done].
  split; cbn.
  - apply lruRemove_nodup, H.
  - intros k. rewrite lruRemove_elem, lookup_delete_is_Some, (wf_dom _ H). naive_solver.
  - intros k e' [_ Hk]%lookup_delete_Some. by apply (wf_entry _ H).
  - rewrite (wf_total _ H), (msum_delete ce_size _ _ _ He). lia.
Qed.

Lemma removeLocked_le key c : wf c ->
  sc_totalBytes (removeLocked key c) <= sc_totalBytes c /\
  (length (sc_lru (removeLocked key c)) <= length (sc_lru c))%nat /\
  sc_maxBytes (removeLocked key c) = sc_maxBytes c /\ sc_maxEntries (removeLocked key c) = sc_maxEntries c /\
  sc_ttl (removeLocked key c) = sc_ttl c /\
  (forall k e, sc_items (removeLocked key c) !! k = Some e -> sc_items c !! k = Some e /\ (k = key -> False)).
Proof.
  intros H. unfold removeLocked. destruct (sc_items c !! key) as [e|] eqn:He.
  - pose proof (sizes_nonneg c key e H He). cbn. split_and!; try done; try lia.
    + unfold lruRemove. apply length_filter.
    + intros k e' [Hn Hk]%lookup_delete_Some. split; [done|]. intros ->. done.
  - split_and!; try done. intros k e Hk. split; [done|]. intros ->. congruence.
Qed.

(** Dropping the back of the list. *)
Lemma removeLocked_back back c :
  wf c -> last (sc_lru c) = Some back ->
  exists l e, sc_lru c = l ++ [back] /\ sc_items c !! back = Some e /\
    removeLocked back c = set_state (sc_totalBytes c - ce_size e) (delete back (sc_items c)) l c.
Proof.
  intros H Hl. apply last_Some in Hl as [l Hl].
  assert (is_Some (sc_items c !! back)) as [e He] by (apply (wf_dom _ H); rewrite Hl; set_solver).
  exists l, e. split; [done|]. split; [done|]. unfold removeLocked. rewrite He, Hl, lruRemove_last; [done|].
  rewrite <- Hl. apply H.
Qed.

(** * Every operation keeps the invariant *)

(** What an eviction loop leaves: a well-formed part of what was there. *)
Record shrunk (c c' : segCache) : Prop := {
  sh_wf : wf c';
  sh_cfg : sc_ttl c' = sc_ttl c /\ sc_maxEntries c' = sc_maxEntries c /\ sc_maxBytes c' = sc_maxBytes c;
  sh_items : sc_items c' ⊆ sc_items c;
  sh_total : sc_totalBytes c' <= sc_totalBytes c;
  sh_len : (length (sc_lru c') <= length (sc_lru c))%nat
}.

#[export] Instance shrunk_trans : Transitive shrunk.
Proof.
  intros a b c [W1 [? [? ?]] I1 T1 L1] [W2 [? [? ?]] I2 T2 L2].
  split; [done| |by etrans|lia|lia]. split; [congruence|]. split; congruence.
Qed.

Lemma shrunk_refl c : wf c -> shrunk c c.
Proof. intros H. by split. Qed.

Lemma removeLocked_shrunk key c : wf c -> shrunk c (removeLocked key c).
Proof.
  intros H. destruct (removeLocked_le key c H) as (? & ? & ? & ? & ? & Hi).
  split; [by apply removeLocked_wf|done| |done|done].
  apply map_subseteq_spec. intros k e Hk. by apply Hi.
Qed.

Lemma sweep_one_shrunk now key c : wf c -> shrunk c (sweep_one now c key).
Proof.
  intros H. unfold sweep_one. repeat case_match; auto using shrunk_refl, removeLocked_shrunk.
Qed.

Lemma sweep_shrunk now c : wf c -> shrunk c (sweep now c).
Proof.
  intros H. unfold sweep. generalize (rev (sc_lru c)). intros l.
  revert c H. induction l as [|k l IH]; intros c H; cbn; [by apply shrunk_refl|].
  pose proof (sweep_one_shrunk now k c H). etrans; [done|]. apply IH, sh_wf with c. done.
Qed.

(** The bytes held under the keys of [l]. *)
Definition bytesOf (c : segCache) (l : list bytes) : Z :=
  sumZ (fun k => from_option ce_size 0 (sc_items c !! k)) l.

Lemma total_bytesOf c : wf c -> sc_totalBytes c = bytesOf c (sc_lru c).
Proof. intros H. rewrite (wf_total _ H). apply msum_keys; apply H. Qed.

(** [c'] is [c] cut down to its [n] most recently used entries. *)
Record cut (n : nat) (c c' : segCache) : Prop := {
  cut_shrunk : shrunk c c';
  cut_lru : sc_lru c' = take n (sc_lru c);
  cut_items : forall k, k ∈ sc_lru c' -> sc_items c' !! k = sc_items c !! k
}.

Lemma cut_total n c c' : cut n c c' -> sc_totalBytes c' = bytesOf c (take n (sc_lru c)).
Proof.
  intros H. rewrite total_bytesOf by apply H. unfold bytesOf. rewrite <- (cut_lru _ _ _ H).
  apply sumZ_ext. intros k Hk. by rewrite (cut_items _ _ _ H).
Qed.

Lemma cut_all c : wf c -> cut (length (sc_lru c)) c c.
Proof. intros H. split; [by apply shrunk_refl|by rewrite firstn_all|done]. Qed.

(** One more entry cut off the back. *)
Lemma cut_step c back :
  wf c -> last (sc_lru c) = Some back ->
  exists l, sc_lru c = l ++ [back] /\ cut (length l) c (removeLocked back c) /\
    sc_lru (removeLocked back c) = l.
Proof.
  intros H El. destruct (removeLocked_back back c H El) as (l & e & Hl & He & Hr).
  assert (sc_lru (removeLocked back c) = l) as Hl' by by rewrite Hr.
  assert (NoDup (l ++ [back])) as (_ & Hnd & _)%NoDup_app by (rewrite <- Hl; apply H).
  exists l. split; [done|]. split; [|done]. split.
  - by apply removeLocked_shrunk.
  - by rewrite Hl', Hl, take_app_length.
  - intros k Hk. rewrite Hr. cbn. rewrite lookup_delete_ne; [done|]. intros <-.
    rewrite Hl' in Hk. apply (Hnd back Hk), list_elem_of_here.
Qed.

Lemma cut_trans n c c1 c2 :
  (n <= length (sc_lru c1))%nat -> cut (length (sc_lru c1)) c c1 -> cut n c1 c2 -> cut n c c2.
Proof.
  intros Hn H1 H2. split.
  - etrans; [apply H1|apply H2].
  - rewrite (cut_lru _ _ _ H2), (cut_lru _ _ _ H1), take_take. f_equal. lia.
  - intros k Hk. rewrite (cut_items _ _ _ H2) by done. apply (cut_items _ _ _ H1).
    rewrite (cut_lru _ _ _ H2) in Hk. eapply subseteq_take, Hk.
Qed.

(** The loop stops at the first cut, from the back, where [over] is false. *)
Lemma evictBack_spec over fuel c :
  wf c -> (length (sc_lru c) < fuel)%nat ->
  let c' := evictBack over fuel c in
  exists n, (n <= length (sc_lru c))%nat /\ cut n c c' /\ (over c' = false \/ sc_lru c' = []) /\
    forall m, (n < m <= length (sc_lru c))%nat -> exists cm, cut m c cm /\ over cm = true.
Proof.
  revert c. induction fuel as [|fuel IH]; intros c H Hf; [lia|]. cbn.
  destruct (over c) eqn:Ho.
  2:{ exists (length (sc_lru c)). split_and!; eauto using cut_all; lia. }
  destruct (last (sc_lru c)) as [back|] eqn:El.
  2:{ exists (length (sc_lru c)). apply last_None in El. split_and!; eauto using cut_all; lia. }
  destruct (cut_step c back H El) as (l & Hl & Hc & Hl').
  assert (length (sc_lru c) = S (length l)) as Hlen by (rewrite Hl, length_app; cbn; lia).
  destruct (IH (removeLocked back c)) as (n & Hn & Hcut & Hstop & Hmax); [apply Hc|rewrite Hl'; lia|].
  assert (cut (length (sc_lru (removeLocked back c))) c (removeLocked back c)) as Hc' by by rewrite Hl'.
  exists n. rewrite Hl' in Hn. split; [lia|]. split; [|split; [done|]].
  { eapply cut_trans; [by rewrite Hl'|done|done]. }
  intros m Hm. destruct (decide (m = S (length l))) as [->|Hne].
  - exists c. rewrite <- Hlen. split; [by apply cut_all|done].
  - destruct (Hmax m) as (cm & Hcm & Hom); [rewrite Hl'; lia|]. exists cm. split; [|done].
    eapply cut_trans; [rewrite Hl'; lia|done|done].
Qed.

(** * Storing *)

Definition newEntry (key val : bytes) (hdr : option header) (status now : Z) (c : segCache) : cacheEntry :=
  MkEntry key val hdr status (now + sc_ttl c) (Z.of_nat (length val)).

(** A new entry at the front, for a key the cache does not hold. *)
Lemma insert_front_wf c e :
  wf c -> sc_items c !! ce_key e = None -> ce_size e = Z.of_nat (length (ce_val e)) ->
  wf (set_state (sc_totalBytes c + ce_size e) (<[ce_key e := e]> (sc_items c)) (ce_key e :: sc_lru c) c).
Proof.
  intros H Hk He. split; cbn.
  - apply NoDup_cons. split; [|apply H]. rewrite (wf_dom _ H), Hk. by intros [? ?].
  - intros k. rewrite elem_of_cons, (wf_dom _ H), lookup_insert_is_Some'. naive_solver.
  - intros k e' [[<- <-]|[_ ?]]%lookup_insert_Some; [done|]. by apply (wf_entry _ H).
  - rewrite (wf_total _ H), msum_insert_new by done. lia.
Qed.

(** Replacing is removing and inserting. *)
Lemma replace_front c e e0 :
  wf c -> sc_items c !! ce_key e = Some e0 ->
  set_state (sc_totalBytes c - ce_size e0 + ce_size e) (<[ce_key e := e]> (sc_items c))
    (moveToFront (ce_key e) (sc_lru c)) c =
  (let c1 := removeLocked (ce_key e) c in
   set_state (sc_totalBytes c1 + ce_size e) (<[ce_key e := e]> (sc_items c1)) (ce_key e :: sc_lru c1) c1).
Proof.
  intros H Hk. unfold removeLocked. rewrite Hk. cbn. unfold set_state. cbn.
  by rewrite insert_delete_eq.
Qed.

Lemma lruRemove_absent key l : key ∉ l -> lruRemove key l = l.
Proof.
  intros Hk. unfold lruRemove. induction l as [|k l IH]; [done|].
  rewrite filter_cons_True by set_solver. f_equal. set_solver.
Qed.

Lemma removeLocked_lru key c : wf c -> sc_lru (removeLocked key c) = lruRemove key (sc_lru c).
Proof.
  intros H. unfold removeLocked. destruct (sc_items c !! key) eqn:E; [done|].
  symmetry. apply lruRemove_absent. rewrite (wf_dom _ H), E. by intros [? ?].
Qed.

Lemma removeLocked_lookup key c k :
  wf c -> k <> key -> sc_items (removeLocked key c) !! k = sc_items c !! k.
Proof.
  intros H Hk. unfold removeLocked. case_match; [|done]. cbn. by rewrite lookup_delete_ne.
Qed.

Lemma removeLocked_absent key c : sc_items (removeLocked key c) !! key = None.
Proof. unfold removeLocked. destruct (sc_items c !! key) eqn:E; [apply lookup_delete_eq|done]. Qed.

(** The state before the loop of a replacement: everything else, behind the new
    entry. *)
Definition refreshed (e : cacheEntry) (c : segCache) : segCache :=
  let c1 := removeLocked (ce_key e) c in
  set_state (sc_totalBytes c1 + ce_size e) (<[ce_key e := e]> (sc_items c1)) (ce_key e :: sc_lru c1) c1.

Lemma refreshed_wf e c : wf c -> ce_size e = Z.of_nat (length (ce_val e)) -> wf (refreshed e c).
Proof.
  intros H He. apply insert_front_wf; [by apply removeLocked_wf|apply removeLocked_absent|done].
Qed.

Lemma refreshed_lru e c : wf c -> sc_lru (refreshed e c) = ce_key e :: lruRemove (ce_key e) (sc_lru c).
Proof. intros H. cbn. by rewrite removeLocked_lru. Qed.

Lemma refreshed_lookup e c k :
  wf c -> k <> ce_key e -> sc_items (refreshed e c) !! k = sc_items c !! k.
Proof. intros H Hk. cbn. rewrite lookup_insert_ne by done. by apply removeLocked_lookup. Qed.

Lemma bytesOf_ext c c' l :
  (forall k, k ∈ l -> sc_items c !! k = sc_items c' !! k) -> bytesOf c l = bytesOf c' l.
Proof. intros H. apply sumZ_ext. intros k Hk. by rewrite H. Qed.

Lemma refreshed_bytes e c m :
  wf c -> let l := lruRemove (ce_key e) (sc_lru c) in
  bytesOf (refreshed e c) (take (S m) (sc_lru (refreshed e c))) = ce_size e + bytesOf c (take m l).
Proof.
  intros H l. rewrite refreshed_lru by done. fold l. cbn [take]. unfold bytesOf. rewrite sumZ_cons.
  f_equal; [cbn; by rewrite lookup_insert_eq|]. apply (bytesOf_ext (refreshed e c) c). intros k Hk.
  apply refreshed_lookup; [done|]. intros ->.
  assert (ce_key e ∈ l) as [? ?]%lruRemove_elem; [|done]. eapply subseteq_take, Hk.
Qed.

(** What a store leaves, in both branches. *)
Record stored (c : segCache) (e : cacheEntry) (n : nat) (c' : segCache) : Prop := {
  st_wf : wf c';
  st_cfg : sc_ttl c' = sc_ttl c /\ sc_maxEntries c' = sc_maxEntries c /\ sc_maxBytes c' = sc_maxBytes c;
  st_lru : sc_lru c' = ce_key e :: take n (lruRemove (ce_key e) (sc_lru c));
  st_new : sc_items c' !! ce_key e = Some e;
  st_old : forall k, k ∈ take n (lruRemove (ce_key e) (sc_lru c)) -> sc_items c' !! k = sc_items c !! k;
  st_fits : sc_totalBytes c' <= sc_maxBytes c
}.

Lemma last_is_head (key : bytes) (l : list bytes) : NoDup (key :: l) -> last (key :: l) = Some key -> l = [].
Proof.
  intros [Hk _]%NoDup_cons Hl. destruct l as [|x l]; [done|]. exfalso. apply Hk.
  rewrite last_cons_cons in Hl. by apply last_Some_elem_of in Hl.
Qed.

Lemma putFull_replace c e :
  wf c -> is_Some (sc_items c !! ce_key e) -> ce_size e = Z.of_nat (length (ce_val e)) ->
  ce_size e <= sc_maxBytes c ->
  let c' := evictBack (overBudget (ce_key e)) (S (length (sc_lru (refreshed e c)))) (refreshed e c) in
  let l := lruRemove (ce_key e) (sc_lru c) in
  exists n, (n <= length l)%nat /\ stored c e n c' /\
    forall m, (n < m <= length l)%nat -> sc_maxBytes c < ce_size e + bytesOf c (take m l).
Proof.
  intros H Hk He Hfit c' l. pose proof (refreshed_wf e c H He) as Hw.
  pose proof (refreshed_lru e c H) as Hlru. fold l in Hlru.
  assert (sc_maxBytes (refreshed e c) = sc_maxBytes c) as Hmb.
  { cbn. apply (sh_cfg _ _ (removeLocked_shrunk (ce_key e) c H)). }
  destruct (evictBack_spec (overBudget (ce_key e)) (S (length (sc_lru (refreshed e c)))) (refreshed e c))
    as (n & Hn & Hcut & Hstop & Hmax); [done|lia|]. fold c' in Hcut, Hstop.
  rewrite Hlru in Hn. cbn in Hn.
  assert (forall m, (n < m <= S (length l))%nat ->
    sc_maxBytes c < bytesOf (refreshed e c) (take m (sc_lru (refreshed e c))) /\
    last (take m (ce_key e :: l)) <> Some (ce_key e)) as Hover.
  { intros m Hm. destruct (Hmax m) as (cm & Hcm & Hom); [rewrite Hlru; cbn; lia|].
    apply andb_true_iff in Hom as [Ho1%Z.ltb_lt Ho2%bool_decide_eq_true].
    destruct (sh_cfg _ _ (cut_shrunk _ _ _ Hcm)) as (_ & _ & Hcm').
    rewrite (cut_total _ _ _ Hcm) in Ho1. rewrite (cut_lru _ _ _ Hcm), Hlru in Ho2.
    split; [congruence|done]. }
  destruct n as [|n].
  { destruct (Hover 1%nat) as [_ Hl]; [lia|]. by destruct Hl. }
  exists n. split; [lia|].
  assert (sc_lru c' = ce_key e :: take n l) as Hl' by by rewrite (cut_lru _ _ _ Hcut), Hlru.
  pose proof (sh_wf _ _ (cut_shrunk _ _ _ Hcut)) as Hw'.
  split; [split|].
  - done.
  - destruct (sh_cfg _ _ (cut_shrunk _ _ _ Hcut)) as (-> & -> & ->). cbn.
    apply (sh_cfg _ _ (removeLocked_shrunk (ce_key e) c H)).
  - done.
  - rewrite (cut_items _ _ _ Hcut) by (rewrite Hl'; apply list_elem_of_here). cbn. apply lookup_insert_eq.
  - intros k Hk'. rewrite (cut_items _ _ _ Hcut) by (rewrite Hl'; by right). apply refreshed_lookup; [done|].
    intros ->. assert (ce_key e ∈ l) as [? ?]%lruRemove_elem; [|done]. eapply subseteq_take, Hk'.
  - destruct Hstop as [Ho|Ho]; [|by rewrite Hl' in Ho]. unfold overBudget in Ho.
    destruct (sh_cfg _ _ (cut_shrunk _ _ _ Hcut)) as (_ & _ & Hm'). rewrite Hm', Hmb in Ho.
    apply andb_false_iff in Ho as [Ho%Z.ltb_ge|Ho]; [done|]. apply bool_decide_eq_false in Ho.
    apply dec_stable in Ho. rewrite Hl' in Ho. apply last_is_head in Ho; [|rewrite <- Hl'; apply Hw'].
    rewrite (cut_total _ _ _ Hcut), refreshed_bytes by done. fold l. rewrite Ho. unfold bytesOf. cbn. lia.
  - intros m Hm. destruct (Hover (S m)) as [Ho _]; [lia|]. by rewrite refreshed_bytes in Ho.
Qed.

Lemma putFull_fresh c e :
  wf c -> sc_items c !! ce_key e = None -> ce_size e = Z.of_nat (length (ce_val e)) ->
  ce_size e <= sc_maxBytes c ->
  let c1 := evictBack (noRoom (ce_size e)) (S (length (sc_lru c))) c in
  let c' := set_state (sc_totalBytes c1 + ce_size e) (<[ce_key e := e]> (sc_items c1)) (ce_key e :: sc_lru c1) c1 in
  exists n, (n <= length (sc_lru c))%nat /\ stored c e n c' /\
    Z.of_nat (S n) <= Z.max 1 (sc_maxEntries c) /\
    forall m, (n < m <= length (sc_lru c))%nat ->
      sc_maxBytes c < ce_size e + bytesOf c (take m (sc_lru c)) \/ sc_maxEntries c <= Z.of_nat m.
Proof.
  intros H Hk He Hfit c1 c'.
  destruct (evictBack_spec (noRoom (ce_size e)) (S (length (sc_lru c))) c)
    as (n & Hn & Hcut & Hstop & Hmax); [done|lia|]. fold c1 in Hcut, Hstop.
  pose proof (sh_cfg _ _ (cut_shrunk _ _ _ Hcut)) as (Ht & Hme & Hmb).
  assert (ce_key e ∉ sc_lru c) as Hnl by (rewrite (wf_dom _ H), Hk; by intros [? ?]).
  assert (length (sc_lru c1) = n) as Hlen by (rewrite (cut_lru _ _ _ Hcut), length_take; lia).
  assert (sc_items c1 !! ce_key e = None) as Hk1.
  { eapply lookup_weaken_None; [exact Hk|]. apply Hcut. }
  assert (sc_lru c1 = [] -> sc_totalBytes c1 = 0) as Hempty.
  { intros E. rewrite total_bytesOf by apply Hcut. by rewrite E. }
  exists n. split; [done|]. split; [split|split].
  - apply insert_front_wf; [apply Hcut|done|done].
  - done.
  - cbn. rewrite lruRemove_absent by done. f_equal. apply Hcut.
  - cbn. apply lookup_insert_eq.
  - rewrite lruRemove_absent by done. intros k Hk'. cbn. rewrite lookup_insert_ne.
    + apply (cut_items _ _ _ Hcut). by rewrite (cut_lru _ _ _ Hcut).
    + intros <-. apply Hnl. eapply subseteq_take, Hk'.
  - change (sc_totalBytes c1 + ce_size e <= sc_maxBytes c).
    destruct Hstop as [Ho|Ho]; [|rewrite Hempty by done; lia].
    unfold noRoom in Ho. apply orb_false_iff in Ho as [_ Ho%Z.ltb_ge]. lia.
  - destruct Hstop as [Ho|Ho]; [|rewrite Ho in Hlen; cbn in Hlen; lia].
    unfold noRoom in Ho. apply orb_false_iff in Ho as [Ho%Z.leb_gt _]. lia.
  - intros m Hm. destruct (Hmax m) as (cm & Hcm & Hom); [lia|].
    pose proof (sh_cfg _ _ (cut_shrunk _ _ _ Hcm)) as (_ & Hme' & Hmb').
    unfold noRoom in Hom. rewrite (cut_total _ _ _ Hcm), (cut_lru _ _ _ Hcm), length_take in Hom.
    apply orb_true_iff in Hom as [Ho%Z.leb_le|Ho%Z.ltb_lt]; [right|left]; lia.
Qed.

(** * Runs against the unbounded table the cache approximates *)

Inductive op :=
| OpPut (key val : bytes) (hdr : option header) (status now : Z)
| OpGet (key : bytes) (now : Z)
| OpSweep (now : Z).

Definition run_op (c : segCache) (o : op) : segCache :=
  match o with
  | OpPut key val hdr status now => putFull key val hdr status now c
  | OpGet key now => (getFull key now c).2
  | OpSweep now => sweep now c
  end.

Definition run (c : segCache) (ops : list op) : segCache := foldl run_op c ops.

(** The specification: the last response stored under each key, except those too
    large for any cache. *)
Definition spec_op (ttl maxBytes : Z) (m : gmap bytes cacheEntry) (o : op) : gmap bytes cacheEntry :=
  match o with
  | OpPut key val hdr status now =>
      if maxBytes <? Z.of_nat (length val) then delete key m
      else <[key := MkEntry key val hdr status (now + ttl) (Z.of_nat (length val))]> m
  | _ => m
  end.

Definition spec (ttl maxBytes : Z) (ops : list op) : gmap bytes cacheEntry :=
  foldl (spec_op ttl maxBytes) ∅ ops.

Lemma stored_subseteq c e n c' m :
  wf c -> stored c e n c' -> sc_items c ⊆ m -> sc_items c' ⊆ <[ce_key e := e]> m.
Proof.
  intros H Hs Hm. apply map_subseteq_spec. intros k x Hk.
  destruct (decide (k = ce_key e)) as [->|Hne].
  { rewrite (st_new _ _ _ _ Hs) in Hk. by rewrite lookup_insert_eq. }
  rewrite lookup_insert_ne by done. eapply lookup_weaken; [|exact Hm].
  rewrite <- (st_old _ _ _ _ Hs k); [done|].
  assert (k ∈ sc_lru c') as Hin by (apply (wf_dom _ (st_wf _ _ _ _ Hs)); by eexists).
  rewrite (st_lru _ _ _ _ Hs), elem_of_cons in Hin. by destruct Hin.
Qed.

Lemma stored_length c e n c' :
  (n <= length (lruRemove (ce_key e) (sc_lru c)))%nat -> stored c e n c' -> length (sc_lru c') = S n.
Proof. intros Hn Hs. rewrite (st_lru _ _ _ _ Hs). cbn. rewrite length_take. lia. Qed.

Lemma stored_bounded c e n c' :
  (n <= length (lruRemove (ce_key e) (sc_lru c)))%nat -> stored c e n c' ->
  Z.of_nat (S n) <= Z.max 1 (sc_maxEntries c) -> bounded c'.
Proof.
  intros Hn Hs Hle. destruct (st_cfg _ _ _ _ Hs) as (? & Hme & Hmb). split.
  - rewrite Hmb. apply Hs.
  - by rewrite Hme, (stored_length _ _ _ _ Hn Hs).
Qed.

Lemma lruRemove_lt key l : key ∈ l -> (length (lruRemove key l) < length l)%nat.
Proof.
  intros (l1 & l2 & ->)%list_elem_of_split. unfold lruRemove.
  rewrite filter_app, filter_cons_False, !length_app by tauto. cbn.
  pose proof (length_filter (fun k => k <> key) l1). pose proof (length_filter (fun k => k <> key) l2). lia.
Qed.

(** [putFull], by whether the key is there. *)
Lemma putFull_present c key val hdr status now e0 :
  wf c -> Z.of_nat (length val) <= sc_maxBytes c -> sc_items c !! key = Some e0 ->
  let e := newEntry key val hdr status now c in
  putFull key val hdr status now c =
  evictBack (overBudget key) (S (length (sc_lru (refreshed e c)))) (refreshed e c).
Proof.
  intros H Hfit Hk e. unfold putFull.
  destruct (Z.ltb_spec (sc_maxBytes c) (Z.of_nat (length val))) as [?|_]; [lia|]. rewrite Hk.
  pose proof (replace_front c e e0 H Hk) as Hr. fold (refreshed e c) in Hr.
  exact (f_equal (fun c => evictBack (overBudget key) (S (length (sc_lru c))) c) Hr).
Qed.

Lemma putFull_absent c key val hdr status now :
  Z.of_nat (length val) <= sc_maxBytes c -> sc_items c !! key = None ->
  let e := newEntry key val hdr status now c in
  putFull key val hdr status now c =
  (let c1 := evictBack (noRoom (ce_size e)) (S (length (sc_lru c))) c in
   set_state (sc_totalBytes c1 + ce_size e) (<[key := e]> (sc_items c1))
     (key :: sc_lru c1) c1).
Proof.
  intros Hfit Hk e. unfold putFull.
  destruct (Z.ltb_spec (sc_maxBytes c) (Z.of_nat (length val))) as [?|_]; [lia|]. by rewrite Hk.
Qed.

(** A store, whatever was there before. *)
Lemma putFull_stored c key val hdr status now :
  wf c -> bounded c -> Z.of_nat (length val) <= sc_maxBytes c ->
  let e := newEntry key val hdr status now c in
  let l := lruRemove key (sc_lru c) in
  let c' := putFull key val hdr status now c in
  exists n, (n <= length l)%nat /\ stored c e n c' /\ bounded c' /\
    forall m, (n < m <= length l)%nat ->
      sc_maxBytes c < Z.of_nat (length val) + bytesOf c (take m l) \/
      sc_items c !! key = None /\ sc_maxEntries c <= Z.of_nat m.
Proof.
  intros H [Hb1 Hb2] Hfit e l c'.
  destruct (sc_items c !! key) as [e0|] eqn:Hk.
  - destruct (putFull_replace c e) as (n & Hn & Hs & Hmax); [done|by eexists|done|done|].
    unfold c'. rewrite (putFull_present _ _ _ _ _ _ _ H Hfit Hk). fold e.
    change (ce_key e) with key in Hn, Hs, Hmax. revert Hs. generalize (evictBack (overBudget key)
      (S (length (sc_lru (refreshed e c)))) (refreshed e c)). intros c1 Hs.
    exists n. split; [done|]. split; [done|]. split; [|by intros m Hm; left; apply Hmax].
    apply (stored_bounded c e n); [done..|].
    assert (key ∈ sc_lru c) as Hin by (apply (wf_dom _ H); by eexists).
    pose proof (lruRemove_lt _ _ Hin). lia.
  - assert (l = sc_lru c) as El.
    { apply lruRemove_absent. rewrite (wf_dom _ H), Hk. by intros [? ?]. }
    destruct (putFull_fresh c e) as (n & Hn & Hs & Hlen & Hmax); [done|done|done|done|].
    rewrite El. exists n. split; [done|]. split; [|split].
    + unfold c'. rewrite (putFull_absent _ _ _ _ _ _ Hfit Hk). exact Hs.
    + unfold c'. rewrite (putFull_absent _ _ _ _ _ _ Hfit Hk). fold e. cbv zeta. revert Hs. cbv zeta.
      change (ce_key e) with key. generalize (evictBack (noRoom (ce_size e)) (S (length (sc_lru c))) c).
      intros c1 Hs. apply (stored_bounded c e n); [|done..].
      change (ce_key e) with key. fold l. by rewrite El.
    + intros m Hm. destruct (Hmax m Hm) as [?|?]; [by left|by right].
Qed.

(** What every run keeps. *)
Record ok (ttl maxEntries maxBytes : Z) (m : gmap bytes cacheEntry) (c : segCache) : Prop := {
  ok_wf : wf c;
  ok_bounded : bounded c;
  ok_cfg : sc_ttl c = ttl /\ sc_maxEntries c = maxEntries /\ sc_maxBytes c = maxBytes;
  ok_items : sc_items c ⊆ m
}.

Lemma shrunk_ok ttl n mb m c c' : ok ttl n mb m c -> shrunk c c' -> ok ttl n mb m c'.
Proof.
  intros [H [Hb1 Hb2] [? [? ?]] Hi] [Hw [? [? ?]] Hi' Ht Hl]. split; [done| | |by etrans].
  - split; [lia|]. etrans; [apply inj_le, Hl|]. etrans; [exact Hb2|]. apply Z.eq_le_incl. congruence.
  - split; [congruence|]. split; congruence.
Qed.

Lemma moveToFront_perm key l : NoDup l -> key ∈ l -> moveToFront key l ≡ₚ l.
Proof.
  intros Hn (l1 & l2 & ->)%list_elem_of_split. unfold moveToFront, lruRemove.
  assert (key ∉ l1 /\ key ∉ l2) as [H1 H2].
  { apply NoDup_app in Hn as (_ & Hd & [? _]%NoDup_cons). split; [|done].
    intros Hk. apply (Hd key Hk), list_elem_of_here. }
  rewrite filter_app, filter_cons_False by tauto. fold (lruRemove key l1) (lruRemove key l2).
  rewrite !lruRemove_absent by done. by rewrite Permutation_middle.
Qed.

Lemma getFull_ok ttl n mb m key now c : ok ttl n mb m c -> ok ttl n mb m (getFull key now c).2.
Proof.
  intros H. unfold getFull. destruct (sc_items c !! key) as [e|] eqn:Hk; [|done].
  case_match; cbn.
  { eapply shrunk_ok; [done|]. apply removeLocked_shrunk, H. }
  assert (moveToFront key (sc_lru c) ≡ₚ sc_lru c) as Hp.
  { apply moveToFront_perm; [apply H|]. apply (wf_dom _ (ok_wf _ _ _ _ _ H)). by eexists. }
  destruct H as [[] [Hb1 Hb2] ? ?]. split; [split|split| |]; cbn -[moveToFront]; try done.
  - by rewrite Hp.
  - intros k. rewrite Hp. done.
  - by rewrite Hp.
Qed.

Lemma run_op_ok ttl n mb m c o : ok ttl n mb m c -> ok ttl n mb (spec_op ttl mb m o) (run_op c o).
Proof.
  intros H. destruct o as [key val hdr status now|key now|now]; cbn.
  - pose proof (ok_cfg _ _ _ _ _ H) as (Et & En & Em).
    destruct (Z.ltb_spec mb (Z.of_nat (length val))) as [Hbig|Hfit].
    + assert (putFull key val hdr status now c = removeLocked key c) as ->.
      { unfold putFull. destruct (Z.ltb_spec (sc_maxBytes c) (Z.of_nat (length val))); [done|lia]. }
      pose proof (removeLocked_le key c (ok_wf _ _ _ _ _ H)) as (_ & _ & _ & _ & _ & Hi).
      destruct (shrunk_ok _ _ _ _ _ _ H (removeLocked_shrunk key c (ok_wf _ _ _ _ _ H))) as [? ? ? _].
      split; try done. apply map_subseteq_spec. intros k e [Hk Hne]%Hi.
      rewrite lookup_delete_ne by congruence. eapply lookup_weaken; [exact Hk|apply H].
    + destruct (putFull_stored c key val hdr status now) as (n' & Hn & Hs & Hb & _); [apply H..|lia|].
      destruct (st_cfg _ _ _ _ Hs) as (Et' & En' & Em').
      split; [apply Hs|done|split; [congruence|split; congruence]|].
      subst ttl. apply (stored_subseteq c _ _ _ m (ok_wf _ _ _ _ _ H) Hs), H.
  - by apply getFull_ok.
  - eapply shrunk_ok; [done|]. apply sweep_shrunk, H.
Qed.

Lemma run_ok ttl n mb ops : forall m c,
  ok ttl n mb m c -> ok ttl n mb (foldl (spec_op ttl mb) m ops) (run c ops).
Proof. induction ops as [|o ops IH]; intros m c H; cbn; [done|]. by apply IH, run_op_ok. Qed.

Lemma newSegCache_ok ttl n : ok ttl n defaultCacheMaxBytes ∅ (newSegCache ttl n).
Proof.
  split; [split|split| |]; cbn; try done; try lia.
  - apply NoDup_nil_2.
  - intros k. rewrite lookup_empty. split; [by intros ?%not_elem_of_nil|by intros [? ?]].
Qed.

(** * Properties *)

(** after any sequence of stores, lookups and sweeps on a fresh cache, the
    list holds exactly the map's keys, once each; [totalBytes] is the sum of the
    bodies' lengths, within the byte budget, and the entries within the cap; and
    a lookup only ever returns what the unbounded table of the same stores holds
    under that key, its own key and length attached, and not past its expiry. *)
Lemma cache_refines_table (ttl maxEntries : Z) (ops : list op) :
  let c := run (newSegCache ttl maxEntries) ops in
  NoDup (sc_lru c) /\ (forall k, k ∈ sc_lru c <-> is_Some (sc_items c !! k)) /\
  sc_totalBytes c = msum (fun e => Z.of_nat (length (ce_val e))) (sc_items c) /\
  sc_totalBytes c <= defaultCacheMaxBytes /\
  Z.of_nat (length (sc_lru c)) <= Z.max 1 maxEntries /\
  forall key now e, (getFull key now c).1 = Some e ->
    spec ttl defaultCacheMaxBytes ops !! key = Some e /\ ce_key e = key /\ now <= ce_expiresAt e.
Proof.
  intros c. destruct (run_ok ttl maxEntries defaultCacheMaxBytes ops ∅ _ (newSegCache_ok ttl maxEntries))
    as [Hw [Hb1 Hb2] (Et & En & Em) Hi]. fold c in Hw, Hb1, Hb2, Et, En, Em, Hi.
  split; [apply Hw|]. split; [apply Hw|]. split.
  { rewrite (wf_total _ Hw). apply msum_ext. intros k e Hk. by apply (wf_entry _ Hw k). }
  rewrite Em in Hb1. rewrite En in Hb2. split; [done|]. split; [done|].
  intros key now e He. unfold getFull in He. destruct (sc_items c !! key) as [e'|] eqn:Hk; [|done].
  destruct (Z.ltb_spec (ce_expiresAt e') now); simplify_eq/=.
  split; [|split; [by apply (wf_entry _ Hw key)|done]]. unfold spec. eapply lookup_weaken; done.
Qed.

(** a store whose body fits the budget keeps the new entry at the front and,
    behind it, a prefix of the other entries in recency order, each unchanged;
    it drops an entry only when keeping it would overrun the byte budget or, for
    a new key, the entry cap; and a lookup within the TTL then returns it. *)
Lemma store_keeps_most_recent c key val hdr status now now' :
  wf c -> bounded c -> Z.of_nat (length val) <= sc_maxBytes c -> now' <= now + sc_ttl c ->
  let l := lruRemove key (sc_lru c) in
  let c' := putFull key val hdr status now c in
  wf c' /\ bounded c' /\
  (exists n, (n <= length l)%nat /\ sc_lru c' = key :: take n l /\
    (forall k, k ∈ take n l -> sc_items c' !! k = sc_items c !! k) /\
    forall m, (n < m <= length l)%nat ->
      sc_maxBytes c < Z.of_nat (length val) + bytesOf c (take m l) \/
      sc_items c !! key = None /\ sc_maxEntries c <= Z.of_nat m) /\
  exists e, (getFull key now' c').1 = Some e /\ ce_val e = val /\ ce_hdr e = hdr /\ ce_status e = status.
Proof.
  intros H Hb Hfit Hnow l c'.
  destruct (putFull_stored c key val hdr status now H Hb Hfit) as (n & Hn & Hs & Hb' & Hmax).
  fold c' in Hs, Hb'. split; [apply Hs|]. split; [done|]. split.
  - exists n. split; [done|]. split; [apply Hs|]. split; [apply Hs|done].
  - exists (newEntry key val hdr status now c). pose proof (st_new _ _ _ _ Hs) as Hk.
    change (ce_key _) with key in Hk. unfold getFull. rewrite Hk. cbn.
    destruct (Z.ltb_spec (now + sc_ttl c) now'); [lia|done].
Qed.

(** * The key derivation *)

Lemma bytes_le_total a b : bytes_le a b = true \/ bytes_le b a = true.
Proof.
  revert b. induction a as [|x a IH]; intros [|y b]; cbn; [by left|by left|by right|].
  destruct (IH b) as [->| ->]; destruct (Z.ltb_spec x y), (Z.ltb_spec y x), (Z.eqb_spec x y), (Z.eqb_spec y x);
    cbn; try lia; eauto.
Qed.

Lemma bytes_le_trans a b c : bytes_le a b = true -> bytes_le b c = true -> bytes_le a c = true.
Proof.
  revert b c. induction a as [|x a IH]; intros [|y b] [|z c]; cbn; try done.
  rewrite !orb_true_iff, !andb_true_iff, !Z.ltb_lt, !Z.eqb_eq.
  intros [?|[-> ?]] [?|[-> ?]]; try (left; lia). right. split; [done|]. by eapply IH.
Qed.

Lemma bytes_le_antisym a b : bytes_le a b = true -> bytes_le b a = true -> a = b.
Proof.
  revert b. induction a as [|x a IH]; intros [|y b]; cbn; try done.
  rewrite !orb_true_iff, !andb_true_iff, !Z.ltb_lt, !Z.eqb_eq.
  intros [?|[-> ?]] [?|[? ?]]; try lia. f_equal. by apply IH.
Qed.

Abbreviation pair_le := (fun p q : bytes * list bytes => Is_true (bytes_le p.1 q.1)).

#[export] Instance pair_le_trans : Transitive pair_le.
Proof. intros p q r H1%Is_true_true H2%Is_true_true. apply Is_true_true. by eapply bytes_le_trans. Qed.

#[export] Instance pair_le_total : Total pair_le.
Proof. intros p q. rewrite !Is_true_true. apply bytes_le_total. Qed.

(** The canonical pairs, in no particular order. *)
Definition canonicalPairs (hdr : header) : list (bytes * list bytes) :=
  (fun p => (CanonicalHeaderKey p.1, p.2)) <$> filter (fun p => p.2 <> []) (map_to_list hdr).

Lemma headerPairs_perm hdr : headerPairs hdr ≡ₚ canonicalPairs hdr.
Proof. apply merge_sort_Permutation. Qed.

(** Pairs with distinct names come out in one order only. *)
Lemma headerPairs_unique h1 h2 :
  NoDup (fst <$> canonicalPairs h1) -> canonicalPairs h1 ≡ₚ canonicalPairs h2 ->
  headerPairs h1 = headerPairs h2.
Proof.
  intros Hn Hp. apply (StronglySorted_unique_strong pair_le).
  - intros p q Hp1 Hq1 H1%Is_true_true H2%Is_true_true.
    rewrite headerPairs_perm in Hp1. rewrite headerPairs_perm, <- Hp in Hq1.
    pose proof (bytes_le_antisym _ _ H1 H2) as E.
    apply list_elem_of_lookup in Hp1 as [i Hi], Hq1 as [j Hj].
    assert (i = j) as ->; [|by simplify_eq].
    apply (NoDup_lookup _ i j p.1 Hn); rewrite list_lookup_fmap; [by rewrite Hi|by rewrite Hj; cbn; f_equal].
  - apply StronglySorted_merge_sort; apply _.
  - apply StronglySorted_merge_sort; apply _.
  - by rewrite !headerPairs_perm.
Qed.

(** A field followed by a byte it does not contain is read back uniquely. *)
Lemma field_inj (sep : Z) a1 a2 b1 b2 :
  sep ∉ a1 -> sep ∉ a2 -> a1 ++ sep :: b1 = a2 ++ sep :: b2 -> a1 = a2 /\ b1 = b2.
Proof.
  intros H1 H2 E. pose proof (Cut_app a1 b1 sep H1) as C1. rewrite E, (Cut_app a2 b2 sep H2) in C1.
  by simplify_eq.
Qed.

(** What the separators rely on. *)
Definition cleanPair (p : bytes * list bytes) : Prop :=
  0 ∉ p.1 /\ 58 ∉ p.1 /\ Forall (fun v => 0 ∉ v /\ 1 ∉ v) p.2.

(** The values of a pair, up to the next pair or the end. *)
Lemma values_inj vs1 vs2 r1 r2 :
  Forall (fun v => 0 ∉ v /\ 1 ∉ v) vs1 -> Forall (fun v => 0 ∉ v /\ 1 ∉ v) vs2 ->
  (r1 = [] \/ exists t, r1 = 0 :: t) -> (r2 = [] \/ exists t, r2 = 0 :: t) ->
  concat ((fun v => v ++ [1]) <$> vs1) ++ r1 = concat ((fun v => v ++ [1]) <$> vs2) ++ r2 ->
  vs1 = vs2 /\ r1 = r2.
Proof.
  intros H1 H2 Hr1 Hr2. revert vs2 H2. induction H1 as [|v1 vs1 [Hz1 Ho1] H1 IH]; intros vs2 H2 E.
  - destruct H2 as [|v2 vs2 [Hz2 Ho2] H2]; [done|]. exfalso. cbn in E. rewrite <- !app_assoc in E.
    destruct Hr1 as [->|[t ->]]; [by destruct v2|]. destruct v2; simplify_eq/=. set_solver.
  - destruct H2 as [|v2 vs2 [Hz2 Ho2] H2].
    { exfalso. cbn in E. rewrite <- !app_assoc in E.
      destruct Hr2 as [->|[t ->]]; [by destruct v1|]. destruct v1; simplify_eq/=. set_solver. }
    cbn in E. rewrite <- !app_assoc in E. apply field_inj in E as [-> E]; [|done..].
    apply IH in E as [-> ->]; [done|done].
Qed.

Lemma pairs_start ps : concat (pairBytes <$> ps) = [] \/ exists t, concat (pairBytes <$> ps) = 0 :: t.
Proof. destruct ps as [|p ps]; [by left|]. right. cbn. by eexists. Qed.

Lemma pairs_inj ps1 ps2 :
  Forall cleanPair ps1 -> Forall cleanPair ps2 ->
  concat (pairBytes <$> ps1) = concat (pairBytes <$> ps2) -> ps1 = ps2.
Proof.
  intros H1. revert ps2. induction H1 as [|[n1 vs1] ps1 (Hz1 & Hc1 & Hv1) H1 IH]; intros ps2 H2 E.
  { by destruct H2. }
  destruct H2 as [|[n2 vs2] ps2 (Hz2 & Hc2 & Hv2) H2]; [done|].
  cbn in E. apply (inj (cons 0)) in E. rewrite <- !app_assoc in E. cbn in E.
  apply field_inj in E as [-> E]; [|done..].
  apply values_inj in E as [-> E]; [|done..|apply pairs_start|apply pairs_start].
  f_equal. by apply IH.
Qed.

Lemma keyInput_split u1 u2 r1 r2 :
  0 ∉ u1 -> 0 ∉ u2 -> (r1 = [] \/ exists t, r1 = 0 :: t) -> (r2 = [] \/ exists t, r2 = 0 :: t) ->
  u1 ++ r1 = u2 ++ r2 -> u1 = u2 /\ r1 = r2.
Proof.
  intros H1 H2 [->|[t1 ->]] [->|[t2 ->]] E.
  - by rewrite !app_nil_r in E.
  - exfalso. rewrite app_nil_r in E. subst. set_solver.
  - exfalso. rewrite app_nil_r in E. subst. set_solver.
  - apply field_inj in E as [-> ->]; done.
Qed.

(** Canonicalising a name brings in neither separator. *)
Lemma canonical_from_fresh upper s c : c = 0 \/ c = 58 -> c ∉ s -> c ∉ canonical_from upper s.
Proof.
  intros Hc. revert upper. induction s as [|x s IH]; intros upper Hs; cbn; [done|].
  apply not_elem_of_cons in Hs as [Hx Hs]. apply not_elem_of_cons. split; [|by apply IH].
  unfold toLower1. intros E. apply Hx. destruct upper;
    [destruct (Z.leb_spec 97 x), (Z.leb_spec x 122)|destruct (Z.leb_spec 65 x), (Z.leb_spec x 90)];
    cbn in E; lia.
Qed.

Lemma CanonicalHeaderKey_fresh s c : c = 0 \/ c = 58 -> c ∉ s -> c ∉ CanonicalHeaderKey s.
Proof. intros Hc Hs. unfold CanonicalHeaderKey. case_match; [by apply canonical_from_fresh|done]. Qed.

(** What net/http guarantees of a header: no separator in names and values, no
    two spellings of a name. *)
Record clean_header (h : header) : Prop := {
  ch_pairs : forall n vs, h !! n = Some vs -> cleanPair (n, vs);
  ch_names : NoDup (fst <$> canonicalPairs h)
}.

Lemma clean_header_pairs h : clean_header h -> Forall cleanPair (headerPairs h).
Proof.
  intros H. rewrite headerPairs_perm. apply Forall_forall. intros p (q & -> & Hq)%list_elem_of_fmap.
  apply list_elem_of_filter in Hq as [_ Hq]. destruct q as [n vs]. apply elem_of_map_to_list in Hq.
  destruct (ch_pairs _ H n vs Hq) as (? & ? & ?). split_and!; try done; apply CanonicalHeaderKey_fresh; auto.
Qed.

(** two requests hash the same bytes exactly when they have the same URL and
    the same headers up to the case of names, the order of headers and headers
    without values; so, the hash being free of collisions on them, requests with
    different credentials never share an entry and equal ones always do. *)
Lemma keyInput_faithful (u1 u2 : bytes) (h1 h2 : header) :
  0 ∉ u1 -> 0 ∉ u2 -> clean_header h1 -> clean_header h2 ->
  keyInput u1 h1 = keyInput u2 h2 <-> u1 = u2 /\ canonicalPairs h1 ≡ₚ canonicalPairs h2.
Proof.
  intros Hu1 Hu2 H1 H2. unfold keyInput. split.
  - intros E. apply keyInput_split in E as [-> E]; [|done|done|apply pairs_start|apply pairs_start].
    split; [done|]. apply pairs_inj in E; [|by apply clean_header_pairs..].
    by rewrite <- !headerPairs_perm, E.
  - intros [-> Hp]. by rewrite (headerPairs_unique h1 h2 (ch_names _ H1) Hp).
Qed.

(** What is kept, and under which key. A store whose body fits the budget
    keeps the new entry at the front and, behind it, a prefix of the other entries
    in recency order, each unchanged; it drops an entry only when keeping it would
    overrun the byte budget or, for a new key, the entry cap; and a lookup within
    the TTL then returns it. And two requests hash the same bytes exactly when they
    have the same URL and the same headers up to the case of names, the order of
    headers and headers without values; so, the hash being free of collisions on
    them, requests with different credentials never share an entry. *)
Lemma stores_and_keys :
  (forall c key val hdr status now now',
   wf c -> bounded c -> Z.of_nat (length val) <= sc_maxBytes c -> now' <= now + sc_ttl c ->
  let l := lruRemove key (sc_lru c) in
  let c' := putFull key val hdr status now c in
  wf c' /\ bounded c' /\
  (exists n, (n <= length l)%nat /\ sc_lru c' = key :: take n l /\
    (forall k, k ∈ take n l -> sc_items c' !! k = sc_items c !! k) /\
    forall m, (n < m <= length l)%nat ->
      sc_maxBytes c < Z.of_nat (length val) + bytesOf c (take m l) \/
      sc_items c !! key = None /\ sc_maxEntries c <= Z.of_nat m) /\
  exists e, (getFull key now' c').1 = Some e /\ ce_val e = val /\ ce_hdr e = hdr /\ ce_status e = status) /\
  (forall (u1 u2 : bytes) (h1 h2 : header),
   0 ∉ u1 -> 0 ∉ u2 -> clean_header h1 -> clean_header h2 ->
  keyInput u1 h1 = keyInput u2 h2 <-> u1 = u2 /\ canonicalPairs h1 ≡ₚ canonicalPairs h2).
Proof. split; [exact store_keeps_most_recent|]. exact keyInput_faithful. Qed.


(** ** Witnesses *)

Definition cache0 : segCache :=
  run (MkCache 10 2 8 0 ∅ []) [OpPut (bs "a") (bs "123") None 200 0; OpPut (bs "b") (bs "4567") None 200 1].

Lemma cache0_ok : wf cache0 /\ bounded cache0.
Proof.
  assert (ok 10 2 8 ∅ (MkCache 10 2 8 0 ∅ [])) as H.
  { split; [split|split| |]; cbn; try done; try lia; [apply NoDup_nil_2|].
    intros k. rewrite lookup_empty. split; [by intros ?%not_elem_of_nil|by intros [? ?]]. }
  pose proof (run_ok _ _ _ [OpPut (bs "a") (bs "123") None 200 0; OpPut (bs "b") (bs "4567") None 200 1] _ _ H)
    as [? ? _ _]. done.
Qed.

Definition hdr1 : header := {[ bs "authorization" := [bs "x"] ]}.
Definition hdr2 : header := {[ bs "Authorization" := [bs "x"] ]}.

Lemma hdr_clean n v : 0 ∉ n -> 58 ∉ n -> 0 ∉ v -> 1 ∉ v -> clean_header {[ n := [v] ]}.
Proof.
  intros. split.
  - intros n' vs [<- <-]%lookup_singleton_Some. split_and!; try done. by apply Forall_singleton.
  - unfold canonicalPairs. rewrite map_to_list_singleton, filter_cons_True by done. rewrite filter_nil.
    apply NoDup_singleton.
Qed.

