(* ===== verification/FtpPool.v ===== *)
(** The FTP session pool (internal/ftpstream/pool.go) and the life of a session
    through it (internal/ftpstream/ftpstream.go).

    [pool] is the state under ftpPoolMu: idle control connections per server and
    credentials, each list in the order they were parked.  [config] adds what the
    requests do with the sessions: a session is owned by one request at a time,
    through a lease whose cancellation hook runs concurrently, and [step]
    interleaves requests, hooks and the janitor.  Clock readings, the iteration
    order of Go maps and the server's replies are the environment's. *)

From S2P Require Import Prelude GoStrings.

(** * Data *)

Definition ftpPoolTTL : Z := 30.
Definition ftpPoolMaxIdle : Z := 8.
Definition ftpPoolMaxPerKey : Z := 2.

Record ftpPoolKey := MkKey {
  k_addr : bytes; k_user : bytes; k_passSum : bytes; k_tls : bool; k_allowPrivate : bool
}.

#[export] Instance ftpPoolKey_eq_dec : EqDecision ftpPoolKey.
Proof. solve_decision. Defined.

#[export] Instance ftpPoolKey_countable : Countable ftpPoolKey.
Proof.
  refine (inj_countable' (fun k => (k_addr k, k_user k, k_passSum k, k_tls k, k_allowPrivate k))
    (fun '(a, u, p, t, w) => MkKey a u p t w) _). by intros [].
Defined.

(** ftpSession as the pool sees it: an identity, its key and when it was parked. *)
Record ftpSession := MkSession { s_id : nat; s_key : ftpPoolKey; s_idleSince : Z }.

Record pool := MkPool { ftpPool : gmap ftpPoolKey (list ftpSession); ftpPoolIdle : Z }.

Definition emptyPool : pool := MkPool ∅ 0.

Definition idleOf (p : pool) (k : ftpPoolKey) : list ftpSession := default [] (ftpPool p !! k).

(** Stores a key's list, dropping the key when it is empty. *)
Definition setIdle (k : ftpPoolKey) (l : list ftpSession) (m : gmap ftpPoolKey (list ftpSession)) :=
  match l with [] => delete k m | _ => <[k := l]> m end.

Definition expired (now : Z) (s : ftpSession) : bool := ftpPoolTTL <=? now - s_idleSince s.

(** * Operations *)

(** The loop of ftpPoolGet over the idle list, most recently parked first: the
    session found, what is left, the sessions that had expired, the idle count. *)
Fixpoint get_loop (now : Z) (l : list ftpSession) (idle : Z) :
    option ftpSession * list ftpSession * list ftpSession * Z :=
  match l with
  | [] => (None, [], [], idle)
  | s :: l =>
      if expired now s then
        let '(got, rest, exp, idle) := get_loop now l (idle - 1) in (got, rest, s :: exp, idle)
      else (Some s, l, [], idle - 1)
  end.

(** ftpPoolGet: the session, those to discard, the pool. *)
Definition ftpPoolGet (key : ftpPoolKey) (now : Z) (p : pool) : option ftpSession * list ftpSession * pool :=
  let '(got, rest, exp, idle) := get_loop now (rev (idleOf p key)) (ftpPoolIdle p) in
  (got, exp, MkPool (setIdle key (rev rest) (ftpPool p)) idle).

(** The scan for the key whose oldest session is the oldest of all. *)
Definition older (m : gmap ftpPoolKey (list ftpSession)) (acc : option (ftpPoolKey * Z)) (k : ftpPoolKey) :
    option (ftpPoolKey * Z) :=
  match m !! k with
  | Some (s :: _) =>
      match acc with
      | None => Some (k, s_idleSince s)
      | Some (_, at_) => if s_idleSince s <? at_ then Some (k, s_idleSince s) else acc
      end
  | _ => acc
  end.

Definition oldestKey (order : list ftpPoolKey) (m : gmap ftpPoolKey (list ftpSession)) : option (ftpPoolKey * Z) :=
  foldl (older m) None order.

(** The eviction loop of ftpPoolPut; [order n] is the order in which its [n]-th
    scan from the end meets the keys. *)
Fixpoint evict_loop (order : nat -> list ftpPoolKey) (fuel : nat) (p : pool) : list ftpSession * pool :=
  match fuel with
  | O => ([], p)
  | S fuel =>
      if ftpPoolMaxIdle <=? ftpPoolIdle p then
        match oldestKey (order fuel) (ftpPool p) with
        | None => ([], p)
        | Some (oldKey, _) =>
            match idleOf p oldKey with
            | [] => ([], p)
            | s :: rest =>
                let '(ev, p) := evict_loop order fuel
                  (MkPool (setIdle oldKey rest (ftpPool p)) (ftpPoolIdle p - 1)) in
                (s :: ev, p)
            end
        end
      else ([], p)
  end.

(** The cap of one key: its oldest session makes room. *)
Definition evictKey (key : ftpPoolKey) (p : pool) : list ftpSession * pool :=
  match idleOf p key with
  | s :: rest =>
      if ftpPoolMaxPerKey <=? Z.of_nat (length (s :: rest))
      then ([s], MkPool (<[key := rest]> (ftpPool p)) (ftpPoolIdle p - 1))
      else ([], p)
  | [] => ([], p)
  end.

(** ftpPoolPut: the sessions to discard, the pool. *)
Definition ftpPoolPut (order : nat -> list ftpPoolKey) (id : nat) (key : ftpPoolKey) (now : Z) (p : pool) :
    list ftpSession * pool :=
  let '(ev1, p) := evictKey key p in
  let '(ev2, p) := evict_loop order (S (Z.to_nat (ftpPoolIdle p))) p in
  (ev1 ++ ev2,
   MkPool (<[key := idleOf p key ++ [MkSession id key now]]> (ftpPool p)) (ftpPoolIdle p + 1)).

(** ftpPoolEvict, the janitor. *)
Definition keepFresh (now : Z) (l : list ftpSession) : list ftpSession := filter (fun s => expired now s = false) l.

Definition ftpPoolEvict (now : Z) (p : pool) : list ftpSession * pool :=
  (filter (fun s => expired now s = true) (mjoin (map_to_list (ftpPool p)).*2),
   MkPool (omap (fun l => match keepFresh now l with [] => None | l => Some l end) (ftpPool p))
     (ftpPoolIdle p - msum (fun l => Z.of_nat (length l) - Z.of_nat (length (keepFresh now l))) (ftpPool p))).

(** * Replies *)

(** What ended an exchange on the control connection: no error, the server's
    reply (textproto.Error), a data connection that could not be dialled, or
    anything else. *)
Inductive outcome := NoErr | Reply (code : Z) | DataDial | Transport.

Definition ftpReplySynced (o : outcome) : bool :=
  match o with
  | NoErr => true
  | Reply code => (200 <=? code) && negb (code =? 421)
  | _ => false
  end.

Definition ftpReplyRefused (o : outcome) : bool :=
  match o with
  | Reply code => if (code =? 421) || (code =? 530) || (code =? 532) then false else 400 <=? code
  | _ => false
  end.

Definition ftpSessionHealthy (o : outcome) : bool :=
  ftpReplyRefused o || match o with DataDial => true | _ => false end.

(** The protocol's side: whether the server still owes a reply after an exchange
    that ended so (a preliminary 1xx announces another; after a transport error
    nothing is known), and whether it said it is closing. *)
Definition owes (o : outcome) : bool :=
  match o with
  | Reply code => code <? 200
  | Transport => true
  | _ => false
  end.

Definition saysClosing (o : outcome) : bool :=
  match o with Reply code => code =? 421 | _ => false end.

(** * Sessions and leases *)

Inductive phase := leaseOpening | leaseTransferring | leaseAborted.

(** The ctx hook registered by bind. *)
Inductive hook := HArmed | HStopped | HRunning | HDone.

(** ftpLease. *)
Record ftpLease := MkLease { l_sess : nat; l_phase : phase; l_hook : hook }.

Inductive where_ := WIdle | WOpening | WTransferring | WClosing | WDiscarded.

#[export] Instance where_eq_dec : EqDecision where_.
Proof. solve_decision. Defined.

(** The session object: its key, its current lease, whether its control
    connection was force-closed, whether the server owes a reply or announced
    its closing, and who has it. *)
Record sess := MkSess {
  x_key : ftpPoolKey; x_lease : option nat; x_ctlClosed : bool;
  x_owed : bool; x_closing : bool; x_where : where_
}.

Record config := MkConfig {
  c_pool : pool; c_sess : gmap nat sess; c_leases : gmap nat ftpLease; c_now : Z
}.

Definition set_x_where w (x : sess) : sess := MkSess (x_key x) (x_lease x) (x_ctlClosed x) (x_owed x) (x_closing x) w.
Definition set_x_lease l (x : sess) : sess := MkSess (x_key x) l (x_ctlClosed x) (x_owed x) (x_closing x) (x_where x).
Definition set_l_hook h (l : ftpLease) : ftpLease := MkLease (l_sess l) (l_phase l) h.
Definition set_l_phase p (l : ftpLease) : ftpLease := MkLease (l_sess l) p (l_hook l).

(** discard: the lease is dropped and every connection closed. *)
Definition discard (x : sess) : sess := MkSess (x_key x) None true (x_owed x) (x_closing x) WDiscarded.

Definition discardAll (l : list ftpSession) (m : gmap nat sess) : gmap nat sess :=
  foldr (fun s => alter discard (s_id s)) m l.

(** bind: a lease with the hook armed. *)
Definition bind (id : nat) : ftpLease := MkLease id leaseOpening HArmed.

(** stop: detaches the hook; false when it fired first. *)
Definition stop (l : ftpLease) : bool * ftpLease :=
  match l_hook l with
  | HArmed => (true, set_l_hook HStopped l)
  | _ => (false, l)
  end.

(** beginTransfer. *)
Definition beginTransfer (l : ftpLease) : bool * ftpLease :=
  match l_phase l with
  | leaseOpening => (true, set_l_phase leaseTransferring l)
  | _ => (false, l)
  end.

(** The hook's body: whether it closes the control connection. *)
Definition runHook (l : ftpLease) : bool * ftpLease :=
  match l_phase l with
  | leaseOpening => (true, MkLease (l_sess l) leaseAborted HDone)
  | _ => (false, set_l_hook HDone l)
  end.

Definition closeCtl (x : sess) : sess := MkSess (x_key x) (x_lease x) true (x_owed x) (x_closing x) (x_where x).

(** What an exchange leaves on the control connection. *)
Definition exchange (o : outcome) (x : sess) : sess :=
  MkSess (x_key x) (x_lease x) (x_ctlClosed x) (owes o) (x_closing x || saysClosing o) (x_where x).

(** Hands a session to ftpPoolPut (its lease dropped first). *)
Definition park (order : nat -> list ftpPoolKey) (id : nat) (x : sess) (c : config) : config :=
  let '(ev, p) := ftpPoolPut order id (x_key x) (c_now c) (c_pool c) in
  MkConfig p (discardAll ev (<[id := set_x_where WIdle (set_x_lease None x)]> (c_sess c))) (c_leases c) (c_now c).

Definition drop_ (id : nat) (x : sess) (c : config) : config :=
  MkConfig (c_pool c) (<[id := discard x]> (c_sess c)) (c_leases c) (c_now c).

(** Sets a lease. *)
Definition setLease (lid : nat) (l : ftpLease) (c : config) : config :=
  MkConfig (c_pool c) (c_sess c) (<[lid := l]> (c_leases c)) (c_now c).

Definition setSess (id : nat) (x : sess) (c : config) : config :=
  MkConfig (c_pool c) (<[id := x]> (c_sess c)) (c_leases c) (c_now c).

(** [order] meets every key of the pool. *)
Definition covers (order : nat -> list ftpPoolKey) (p : pool) : Prop :=
  forall n k, is_Some (ftpPool p !! k) -> k ∈ order n.

(** The request [id] is under way, in state [w], on lease [lid]. *)
Definition at_ (c : config) (id : nat) (x : sess) (lid : nat) (l : ftpLease) (w : where_) : Prop :=
  c_sess c !! id = Some x /\ x_where x = w /\ x_lease x = Some lid /\ c_leases c !! lid = Some l.

Inductive step : config -> config -> Prop :=
(** time passes *)
| st_time c now : c_now c <= now -> step c (MkConfig (c_pool c) (c_sess c) (c_leases c) now)
(** openFTPAt takes an idle session and binds it *)
| st_get p m ls now key s exp p' lid x :
    ftpPoolGet key now p = (Some s, exp, p') -> ls !! lid = None -> m !! s_id s = Some x ->
    step (MkConfig p m ls now)
      (MkConfig p' (<[s_id s := set_x_where WOpening (set_x_lease (Some lid) x)]> (discardAll exp m))
         (<[lid := bind (s_id s)]> ls) now)
(** openFTPAt finds none, and makes a session *)
| st_miss p m ls now key exp p' lid id :
    ftpPoolGet key now p = (None, exp, p') -> ls !! lid = None -> m !! id = None ->
    step (MkConfig p m ls now)
      (MkConfig p' (<[id := MkSess key (Some lid) false false false WOpening]> (discardAll exp m))
         (<[lid := bind id]> ls) now)
(** a stale pooled session was discarded: openFTPAt makes a new one *)
| st_redial c key lid id :
    c_leases c !! lid = None -> c_sess c !! id = None ->
    step c (MkConfig (c_pool c) (<[id := MkSess key (Some lid) false false false WOpening]> (c_sess c))
              (<[lid := bind id]> (c_leases c)) (c_now c))
(** a context is cancelled: its hook starts *)
| st_cancel c lid l : c_leases c !! lid = Some l -> l_hook l = HArmed ->
    step c (setLease lid (set_l_hook HRunning l) c)
(** a hook runs *)
| st_hook c lid l closes l' : c_leases c !! lid = Some l -> l_hook l = HRunning -> runHook l = (closes, l') ->
    step c (MkConfig (c_pool c) (if closes then alter closeCtl (l_sess l) (c_sess c) else c_sess c)
              (<[lid := l']> (c_leases c)) (c_now c))
(** open: dialling or logging in failed, or RETR did *)
| st_fail c id x lid l o b l' : at_ c id x lid l WOpening -> stop l = (b, l') ->
    step c (drop_ id (exchange o x) (setLease lid l' c))
(** open: RETR was refused, the session being healthy *)
| st_refused c id x lid l o b l' order : at_ c id x lid l WOpening ->
    ftpSessionHealthy o = true -> stop l = (b, l') -> covers order (c_pool c) ->
    step c (if b then park order id (exchange o x) (setLease lid l' c)
            else drop_ id (exchange o x) (setLease lid l' c))
(** open: the transfer has started; the final reply is owed *)
| st_begin c id x lid l l' : at_ c id x lid l WOpening -> beginTransfer l = (true, l') ->
    step c (setSess id (MkSess (x_key x) (x_lease x) (x_ctlClosed x) true (x_closing x) WTransferring) (setLease lid l' c))
(** open: the hook won *)
| st_aborted c id x lid l l' b l'' : at_ c id x lid l WOpening -> beginTransfer l = (false, l') -> stop l' = (b, l'') ->
    step c (drop_ id x (setLease lid l'' c))
(** Close: detach the hook, then read the final reply *)
| st_close c id x lid l b l' : at_ c id x lid l WTransferring -> stop l = (b, l') ->
    step c (setSess id (set_x_where WClosing x) (setLease lid l' c))
| st_closed c id x lid l o order : at_ c id x lid l WClosing -> covers order (c_pool c) ->
    step c (if ftpReplySynced o && negb (x_ctlClosed x) then park order id (exchange o x) c
            else drop_ id (exchange o x) c)
(** the janitor *)
| st_janitor p m ls now ev p' : ftpPoolEvict now p = (ev, p') ->
    step (MkConfig p m ls now) (MkConfig p' (discardAll ev m) ls now).

Definition init : config := MkConfig emptyPool ∅ ∅ 0.

(** * The pool's invariant *)

Record list_ok (now : Z) (k : ftpPoolKey) (l : list ftpSession) : Prop := {
  lo_nonempty : l <> [];
  lo_cap : Z.of_nat (length l) <= ftpPoolMaxPerKey;
  lo_sorted : StronglySorted (fun s t => s_idleSince s <= s_idleSince t) l;
  lo_nodup : NoDup (s_id <$> l);
  lo_entry : Forall (fun s => s_key s = k /\ s_idleSince s <= now) l
}.

Definition len (l : list ftpSession) : Z := Z.of_nat (length l).

(** Session [id] is parked. *)
Definition parked (p : pool) (id : nat) : Prop :=
  exists k l, ftpPool p !! k = Some l /\ id ∈ s_id <$> l.

Record pool_ok (now : Z) (p : pool) : Prop := {
  po_lists : forall k l, ftpPool p !! k = Some l -> list_ok now k l;
  po_count : ftpPoolIdle p = msum len (ftpPool p);
  po_cap : ftpPoolIdle p <= ftpPoolMaxIdle;
  po_unique : forall id k1 l1 k2 l2, ftpPool p !! k1 = Some l1 -> ftpPool p !! k2 = Some l2 ->
    id ∈ s_id <$> l1 -> id ∈ s_id <$> l2 -> k1 = k2
}.

(** [p'] is [p] without the sessions [r]. *)
Record removed (now : Z) (p : pool) (r : list ftpSession) (p' : pool) : Prop := {
  rm_ok : pool_ok now p';
  rm_sub : forall k l', ftpPool p' !! k = Some l' -> exists l, ftpPool p !! k = Some l /\ l' `sublist_of` l;
  rm_parked : forall id, parked p id <-> parked p' id \/ id ∈ s_id <$> r;
  rm_gone : forall id, parked p' id -> id ∉ s_id <$> r;
  rm_count : ftpPoolIdle p' = ftpPoolIdle p - len r
}.

Lemma list_ok_mono now now' k l : now <= now' -> list_ok now k l -> list_ok now' k l.
Proof.
  intros Hle []. split; try done. eapply Forall_impl; [done|]. cbn. intros s [? ?]. split; [done|lia].
Qed.

Lemma pool_ok_mono now now' p : now <= now' -> pool_ok now p -> pool_ok now' p.
Proof. intros Hle []. split; try done. intros. eapply list_ok_mono; eauto. Qed.

Lemma Forall_sublist {A} (P : A -> Prop) l l' : l' `sublist_of` l -> Forall P l -> Forall P l'.
Proof. intros Hs H. apply Forall_forall. intros x Hx. eapply Forall_forall; [exact H|]. by eapply elem_of_sublist. Qed.

Lemma StronglySorted_sublist {A} (R : relation A) l l' :
  l' `sublist_of` l -> StronglySorted R l -> StronglySorted R l'.
Proof.
  induction 1 as [|x l' l Hs IH|x l' l Hs IH]; intros H; [done| |].
  - apply StronglySorted_inv in H as [H Hx]. constructor; [by apply IH|]. by eapply Forall_sublist.
  - apply StronglySorted_inv in H as [H _]. by apply IH.
Qed.

Lemma ids_sublist (l l' : list ftpSession) id : l' `sublist_of` l -> id ∈ s_id <$> l' -> id ∈ s_id <$> l.
Proof. intros Hs Hi. eapply elem_of_sublist; [exact Hi|]. by apply fmap_sublist. Qed.

Lemma list_ok_sublist now k l l' : l' `sublist_of` l -> l' <> [] -> list_ok now k l -> list_ok now k l'.
Proof.
  intros Hs Hn []. split; [done| | | |].
  - apply sublist_length in Hs. lia.
  - by eapply StronglySorted_sublist.
  - eapply sublist_NoDup; [|by apply fmap_sublist]. done.
  - by eapply Forall_sublist.
Qed.

Lemma idleOf_ids p k id : id ∈ s_id <$> idleOf p k -> parked p id.
Proof.
  unfold idleOf, parked. destruct (ftpPool p !! k) as [l|] eqn:E; cbn; [by eauto|].
  by intros ?%not_elem_of_nil.
Qed.

Lemma setIdle_lookup k k' l m :
  setIdle k l m !! k' = if decide (k = k') then (match l with [] => None | _ => Some l end) else m !! k'.
Proof.
  unfold setIdle. destruct l; case_decide; subst.
  - apply lookup_delete_eq.
  - by apply lookup_delete_ne.
  - apply lookup_insert_eq.
  - by apply lookup_insert_ne.
Qed.

Lemma msum_setIdle k l m :
  msum len (setIdle k l m) = msum len m - len (default [] (m !! k)) + len l.
Proof.
  unfold setIdle. destruct (m !! k) as [l0|] eqn:E; cbn.
  - destruct l as [|s l].
    + rewrite (msum_delete len m k l0 E). change (len []) with 0. lia.
    + rewrite (msum_insert_old len m k (s :: l) l0 E). lia.
  - destruct l as [|s l].
    + rewrite delete_id by done. change (len []) with 0. lia.
    + rewrite msum_insert_new by done. change (len []) with 0. lia.
Qed.

(** Cutting one key's list down. *)
Lemma setIdle_removed now p k l' r :
  pool_ok now p -> l' `sublist_of` idleOf p k -> idleOf p k ≡ₚ l' ++ r ->
  removed now p r (MkPool (setIdle k l' (ftpPool p)) (ftpPoolIdle p - len r)).
Proof.
  intros H Hs Hp.
  assert (Hlen : len (idleOf p k) = len l' + len r) by (unfold len; rewrite Hp, length_app; lia).
  assert (Hids : forall id, id ∈ s_id <$> idleOf p k <-> id ∈ s_id <$> l' \/ id ∈ s_id <$> r)
    by (intros id; rewrite Hp, fmap_app, elem_of_app; done).
  assert (Hsub : forall k' l, setIdle k l' (ftpPool p) !! k' = Some l ->
    exists l0, ftpPool p !! k' = Some l0 /\ l `sublist_of` l0).
  { intros k' l. rewrite setIdle_lookup. case_decide as E; [subst k'|by eauto].
    destruct l' as [|s l']; intros ?; simplify_eq. unfold idleOf in Hs.
    destruct (ftpPool p !! k) as [l0|]; [by eauto|]. by apply sublist_nil_r in Hs; subst. }
  split; cbn; [split; cbn| | | |done].
  - intros k' l Hk. destruct (Hsub k' l Hk) as (l0 & Hl0 & Hs0).
    apply (list_ok_sublist now k' l0 l Hs0); [|by eapply po_lists].
    intros ->. rewrite setIdle_lookup in Hk. case_decide; [by destruct l'|].
    by destruct (lo_nonempty _ _ _ (po_lists _ _ H k' [] Hk)).
  - rewrite msum_setIdle. fold (idleOf p k). rewrite Hlen, (po_count _ _ H). lia.
  - pose proof (po_cap _ _ H). unfold len. lia.
  - intros id k1 l1 k2 l2 H1 H2 Hi1 Hi2. destruct (Hsub _ _ H1) as (l1' & ? & ?), (Hsub _ _ H2) as (l2' & ? & ?).
    eapply (po_unique _ _ H id k1 l1' k2 l2'); [done|done|by eapply ids_sublist|by eapply ids_sublist].
  - done.
  - intros id. split.
    + intros (k' & l & Hl & Hi). destruct (decide (k = k')) as [<-|Hne].
      * assert (idleOf p k = l) as E by (unfold idleOf; by rewrite Hl). rewrite <- E, Hids in Hi.
        destruct Hi as [Hi|Hi]; [left|by right]. exists k, l'. cbn. rewrite setIdle_lookup, decide_True by done.
        split; [|done]. destruct l'; [by apply not_elem_of_nil in Hi|done].
      * left. exists k', l. cbn. by rewrite setIdle_lookup, decide_False by done.
    + intros [(k' & l & Hl & Hi)|Hi].
      * destruct (Hsub _ _ Hl) as (l0 & Hl0 & Hs0). exists k', l0. split; [done|].
        by eapply ids_sublist.
      * apply idleOf_ids with k. rewrite Hids. by right.
  - intros id (k' & l & Hl & Hi) Hr. assert (parked p id) as (k0 & l0 & Hl0 & Hi0).
    { apply idleOf_ids with k. rewrite Hids. by right. }
    assert (id ∈ s_id <$> idleOf p k) as Hik by (rewrite Hids; by right).
    destruct (ftpPool p !! k) as [lk|] eqn:Ek; [|unfold idleOf in Hik; rewrite Ek in Hik; by apply not_elem_of_nil in Hik].
    assert (idleOf p k = lk) as Elk by (unfold idleOf; by rewrite Ek).
    destruct (Hsub _ _ Hl) as (l1 & Hl1 & Hs1).
    assert (k = k') as <-.
    { eapply (po_unique _ _ H id k lk k' l1); [done|done|by rewrite <- Elk|].
      by eapply ids_sublist. }
    cbn in Hl. rewrite setIdle_lookup, decide_True in Hl by done.
    assert (l = l') as -> by (destruct l'; by simplify_eq).
    pose proof (lo_nodup _ _ _ (po_lists _ _ H k lk Ek)) as Hnd. rewrite <- Elk, Hp, fmap_app in Hnd.
    apply NoDup_app in Hnd as (_ & Hnd & _). by apply (Hnd id).
Qed.

Lemma removed_refl now p : pool_ok now p -> removed now p [] p.
Proof.
  intros H. split; [done|by eauto| |by intros id _ ?%not_elem_of_nil|unfold len; cbn; lia].
  intros id. split; [by left|]. intros [?|?%not_elem_of_nil]; done.
Qed.

Lemma removed_trans now p r1 p1 r2 p2 :
  removed now p r1 p1 -> removed now p1 r2 p2 -> removed now p (r1 ++ r2) p2.
Proof.
  intros [O1 S1 P1 G1 C1] [O2 S2 P2 G2 C2]. split; [done| | | |].
  - intros k l2 (l1 & H1 & Hs1)%S2. destruct (S1 k l1 H1) as (l & ? & ?). exists l. split; [done|by etrans].
  - intros id. rewrite P1, P2, fmap_app, elem_of_app. tauto.
  - intros id Hid. rewrite fmap_app, elem_of_app. intros [Hr|Hr]; [|by eapply G2].
    apply (G1 id); [|done]. apply P2. by left.
  - rewrite C2, C1. unfold len. rewrite length_app. lia.
Qed.

(** ** Taking a session *)

Lemma get_loop_spec now l idle :
  let '(got, rest, exp, idle') := get_loop now l idle in
  l = exp ++ option_list got ++ rest /\ idle' = idle - len exp - len (option_list got) /\
  Forall (fun s => expired now s = true) exp /\
  match got with Some s => expired now s = false | None => rest = [] end.
Proof.
  revert idle. induction l as [|s l IH]; intros idle; cbn.
  { split_and!; try done. unfold len. cbn. lia. }
  destruct (expired now s) eqn:Es.
  - specialize (IH (idle - 1)). destruct (get_loop now l (idle - 1)) as [[[got rest] exp] idle'].
    destruct IH as (-> & -> & Hf & Hg). split_and!; try done; [|by constructor].
    unfold len. cbn. lia.
  - split_and!; try done. unfold len. cbn. lia.
Qed.

Lemma ftpPoolGet_removed now key p :
  pool_ok now p ->
  let '(got, exp, p') := ftpPoolGet key now p in removed now p (exp ++ option_list got) p'.
Proof.
  intros H. unfold ftpPoolGet. pose proof (get_loop_spec now (rev (idleOf p key)) (ftpPoolIdle p)) as Hl.
  destruct (get_loop now (rev (idleOf p key)) (ftpPoolIdle p)) as [[[got rest] exp] idle'].
  destruct Hl as (Hr & -> & _ & _).
  assert (idleOf p key = rev rest ++ rev (exp ++ option_list got)) as Hi.
  { rewrite <- rev_app_distr, <- app_assoc, <- Hr. by rewrite rev_involutive. }
  assert (ftpPoolIdle p - len exp - len (option_list got) = ftpPoolIdle p - len (exp ++ option_list got)) as ->
    by (unfold len; rewrite length_app; lia).
  apply setIdle_removed; [done| |].
  - rewrite Hi. by apply sublist_inserts_r.
  - rewrite Hi. by rewrite <- (Permutation_rev (exp ++ option_list got)).
Qed.

(** ** Making room *)

Lemma idle_lookup now p k s l :
  pool_ok now p -> idleOf p k = s :: l -> ftpPool p !! k = Some (s :: l).
Proof. intros H. unfold idleOf. destruct (ftpPool p !! k) eqn:E; cbn; [by intros ->|done]. Qed.

Lemma pop_removed now p k s l :
  pool_ok now p -> idleOf p k = s :: l ->
  removed now p [s] (MkPool (setIdle k l (ftpPool p)) (ftpPoolIdle p - 1)).
Proof.
  intros H E. apply (setIdle_removed now p k l [s] H).
  - rewrite E. by apply sublist_cons.
  - rewrite E. by rewrite Permutation_app_comm.
Qed.

Lemma evictKey_spec now key p :
  pool_ok now p ->
  let '(ev, p') := evictKey key p in
  removed now p ev p' /\ len (idleOf p' key) < ftpPoolMaxPerKey /\
  (ev = [] /\ p' = p /\ len (idleOf p key) < ftpPoolMaxPerKey \/
   exists s rest, ev = [s] /\ idleOf p key = s :: rest /\ len (s :: rest) = ftpPoolMaxPerKey).
Proof.
  intros H. unfold evictKey. destruct (idleOf p key) as [|s rest] eqn:E.
  { split; [by apply removed_refl|]. rewrite E. split; [done|]. by left. }
  pose proof (lo_cap _ _ _ (po_lists _ _ H key _ (idle_lookup _ _ _ _ _ H E))) as Hc.
  fold (len (s :: rest)) in *. destruct (Z.leb_spec ftpPoolMaxPerKey (len (s :: rest))) as [Hf|Hf].
  - pose proof (pop_removed now p key s rest H E) as Hr.
    assert (setIdle key rest (ftpPool p) = <[key := rest]> (ftpPool p)) as Es.
    { destruct rest; [unfold len, ftpPoolMaxPerKey in Hf; cbn in Hf; lia|done]. }
    rewrite Es in Hr. split; [done|]. split.
    + unfold idleOf. cbn. rewrite lookup_insert_eq. unfold len in *. cbn in *. lia.
    + right. exists s, rest. split_and!; try done. lia.
  - split; [by apply removed_refl|]. rewrite E. split; [lia|]. left. done.
Qed.

(** The scan finds the oldest head among the keys it meets. *)
Lemma oldestKey_spec order m :
  match oldestKey order m with
  | None => forall k, k ∈ order -> m !! k = None \/ m !! k = Some []
  | Some (k, t) => k ∈ order /\ (exists s l, m !! k = Some (s :: l) /\ s_idleSince s = t) /\
      forall k' s' l', k' ∈ order -> m !! k' = Some (s' :: l') -> t <= s_idleSince s'
  end.
Proof.
  unfold oldestKey. induction order as [|k order IH] using rev_ind; [by intros k ?%not_elem_of_nil|].
  rewrite foldl_app. cbn. destruct (foldl (older m) None order) as [[k0 t0]|] eqn:Ef.
  - destruct IH as (Hk0 & (s0 & l0 & Hm0 & Ht0) & Hmin). unfold older.
    destruct (m !! k) as [[|s l]|] eqn:Em.
    2:{ destruct (Z.ltb_spec (s_idleSince s) t0).
        - split; [set_solver|]. split; [by eauto|].
          intros k' s' l' [Hk'|Hk'%list_elem_of_singleton]%elem_of_app Hm'; [|subst; simplify_eq; done].
          specialize (Hmin k' s' l' Hk' Hm'). lia.
        - split; [set_solver|]. split; [by eauto|].
          intros k' s' l' [Hk'|Hk'%list_elem_of_singleton]%elem_of_app Hm'; [by eapply Hmin|subst; simplify_eq; lia]. }
    all: split; [set_solver|]; split; [by eauto|];
      intros k' s' l' [Hk'|Hk'%list_elem_of_singleton]%elem_of_app Hm'; [by eapply Hmin|subst; congruence].
  - unfold older. destruct (m !! k) as [[|s l]|] eqn:Em.
    2:{ split; [set_solver|]. split; [by eauto|].
        intros k' s' l' [Hk'|Hk'%list_elem_of_singleton]%elem_of_app Hm'; [|subst; simplify_eq; done].
        destruct (IH k' Hk'); congruence. }
    all: intros k' [Hk'|Hk'%list_elem_of_singleton]%elem_of_app; [by apply IH|subst; auto].
Qed.

Lemma pool_nonempty now p : pool_ok now p -> 0 < ftpPoolIdle p -> exists k s l, ftpPool p !! k = Some (s :: l).
Proof.
  intros H Hi. destruct (decide (ftpPool p = ∅)) as [E|E].
  { rewrite (po_count _ _ H), E, msum_empty in Hi. lia. }
  apply map_choose in E as (k & l & Hk). destruct l as [|s l]; [|by eauto].
  by destruct (lo_nonempty _ _ _ (po_lists _ _ H k _ Hk)).
Qed.

(** The pool is at its cap at most by one, so the loop drops the oldest session
    of the pool or nothing. *)
Lemma ftp_evict_loop_spec now order fuel p :
  pool_ok now p -> covers order p -> (Z.to_nat (ftpPoolIdle p) < fuel)%nat ->
  let '(ev, p') := evict_loop order fuel p in
  removed now p ev p' /\ ftpPoolIdle p' < ftpPoolMaxIdle /\
  (ev = [] /\ p' = p /\ ftpPoolIdle p < ftpPoolMaxIdle \/
   exists k s rest, ev = [s] /\ idleOf p k = s :: rest /\ ftpPoolIdle p = ftpPoolMaxIdle /\
     p' = MkPool (setIdle k rest (ftpPool p)) (ftpPoolIdle p - 1) /\
     forall k' s' l', ftpPool p !! k' = Some (s' :: l') -> s_idleSince s <= s_idleSince s').
Proof.
  intros H Hc Hf. destruct fuel as [|fuel]; [lia|]. cbn [evict_loop].
  destruct (Z.leb_spec ftpPoolMaxIdle (ftpPoolIdle p)) as [Hm|Hm].
  2:{ split; [by apply removed_refl|]. split; [done|]. by left. }
  destruct fuel as [|fuel]; [unfold ftpPoolMaxIdle in Hm; lia|].
  pose proof (po_cap _ _ H) as Hcap.
  pose proof (oldestKey_spec (order (S fuel)) (ftpPool p)) as Ho.
  destruct (oldestKey (order (S fuel)) (ftpPool p)) as [[k t]|].
  2:{ destruct (pool_nonempty now p H) as (k & s & l & Hk); [unfold ftpPoolMaxIdle in *; lia|].
      destruct (Ho k); [|congruence..]. apply Hc. by eexists. }
  destruct Ho as (_ & (s & rest & Hk & <-) & Hmin).
  assert (idleOf p k = s :: rest) as E by (unfold idleOf; by rewrite Hk). rewrite E.
  assert ((ftpPoolMaxIdle <=? ftpPoolIdle p - 1) = false) as Hstop by (apply Z.leb_gt; lia).
  cbn [evict_loop ftpPoolIdle]. rewrite Hstop. cbn.
  split; [by apply (pop_removed now)|]. split; [lia|]. right. exists k, s, rest.
  split_and!; try done; [lia|]. intros k' s' l' Hk'. eapply Hmin; [|done]. apply Hc. by eexists.
Qed.

(** ** Parking a session *)

Lemma append_ok now p id key :
  pool_ok now p -> ~ parked p id -> len (idleOf p key) < ftpPoolMaxPerKey -> ftpPoolIdle p < ftpPoolMaxIdle ->
  pool_ok now (MkPool (<[key := idleOf p key ++ [MkSession id key now]]> (ftpPool p)) (ftpPoolIdle p + 1)).
Proof.
  intros H Hid Hk Hi.
  assert (id ∉ s_id <$> idleOf p key) as Hni by (intros Hin; by apply Hid, (idleOf_ids _ key)).
  split; cbn.
  - intros k l [[<- <-]|[_ Hl]]%lookup_insert_Some; [|by apply H]. split.
    + by destruct (idleOf p key).
    + unfold len in Hk. rewrite length_app. cbn. lia.
    + apply StronglySorted_app. split_and!.
      * intros x y Hx Hy%list_elem_of_singleton. subst y. cbn. unfold idleOf in Hx.
        destruct (ftpPool p !! key) as [l|] eqn:E; [|by apply not_elem_of_nil in Hx].
        pose proof (lo_entry _ _ _ (po_lists _ _ H key l E)) as Hf. rewrite Forall_forall in Hf. by apply (Hf x).
      * unfold idleOf. destruct (ftpPool p !! key) as [l|] eqn:E; [|constructor].
        apply (lo_sorted _ _ _ (po_lists _ _ H key l E)).
      * repeat constructor.
    + rewrite fmap_app. apply NoDup_app. split_and!.
      * unfold idleOf. destruct (ftpPool p !! key) as [l|] eqn:E; [|constructor].
        apply (lo_nodup _ _ _ (po_lists _ _ H key l E)).
      * intros x Hx Hy%list_elem_of_singleton. by subst.
      * apply NoDup_singleton.
    + apply Forall_app. split; [|apply Forall_singleton; cbn; split; [done|lia]].
      unfold idleOf. destruct (ftpPool p !! key) as [l|] eqn:E; [|constructor].
      apply (lo_entry _ _ _ (po_lists _ _ H key l E)).
  - rewrite (po_count _ _ H). pose proof (msum_setIdle key (idleOf p key ++ [MkSession id key now]) (ftpPool p)) as E.
    unfold setIdle in E. destruct (idleOf p key ++ [MkSession id key now]) eqn:En; [by destruct (idleOf p key)|].
    rewrite E, <- En. fold (idleOf p key). unfold len. rewrite length_app. cbn. lia.
  - lia.
  - assert (Hin : forall i k l, <[key:=idleOf p key ++ [MkSession id key now]]> (ftpPool p) !! k = Some l ->
      i ∈ s_id <$> l -> (i = id /\ k = key) \/ (i <> id /\ exists l0, ftpPool p !! k = Some l0 /\ i ∈ s_id <$> l0)).
    { intros i k l [[<- <-]|[Hne Hl]]%lookup_insert_Some Hx.
      - rewrite fmap_app, elem_of_app in Hx. destruct Hx as [Hx|Hx%list_elem_of_singleton]; [right|by left].
        split; [by intros ->|]. unfold idleOf in Hx. destruct (ftpPool p !! key) as [l|]; [by eauto|].
        by apply not_elem_of_nil in Hx.
      - right. split; [|by eauto]. intros ->. apply Hid. by exists k, l. }
    intros i k1 l1 k2 l2 H1 H2 Hi1 Hi2.
    destruct (Hin i k1 l1 H1 Hi1) as [[? ->]|(? & l1' & ? & ?)], (Hin i k2 l2 H2 Hi2) as [[? ->]|(? & l2' & ? & ?)];
      try done. by eapply (po_unique _ _ H i).
Qed.

Lemma append_parked p id key now i :
  parked (MkPool (<[key := idleOf p key ++ [MkSession id key now]]> (ftpPool p)) (ftpPoolIdle p + 1)) i <->
  parked p i \/ i = id.
Proof.
  split.
  - intros (k & l & Hl & Hi). cbn in Hl. apply lookup_insert_Some in Hl as [[<- <-]|[_ Hl]]; [|left; by exists k, l].
    rewrite fmap_app, elem_of_app in Hi. destruct Hi as [Hi|Hi%list_elem_of_singleton]; [left|by right].
    by apply idleOf_ids in Hi.
  - intros [(k & l & Hk & Hi)| ->].
    + destruct (decide (k = key)) as [->|Hne].
      * exists key, (idleOf p key ++ [MkSession id key now]). cbn. rewrite lookup_insert_eq. split; [done|].
        unfold idleOf. rewrite Hk. cbn. rewrite fmap_app, elem_of_app. by left.
      * exists k, l. cbn. by rewrite lookup_insert_ne.
    + exists key, (idleOf p key ++ [MkSession id key now]). cbn. rewrite lookup_insert_eq. split; [done|].
      rewrite fmap_app, elem_of_app. right. by apply list_elem_of_singleton.
Qed.

(** What a put does: at most one session makes room, then [id] is parked. *)
Lemma ftpPoolPut_spec now order id key p :
  pool_ok now p -> covers order p -> ~ parked p id ->
  let '(ev, p') := ftpPoolPut order id key now p in
  pool_ok now p' /\ exists p1, removed now p ev p1 /\ (forall i, parked p' i <-> parked p1 i \/ i = id) /\
    p' = MkPool (<[key := idleOf p1 key ++ [MkSession id key now]]> (ftpPool p1)) (ftpPoolIdle p1 + 1).
Proof.
  intros H Hc Hid. unfold ftpPoolPut.
  pose proof (evictKey_spec now key p H) as Hk. destruct (evictKey key p) as [ev1 p1].
  destruct Hk as (Hr1 & Hlen1 & Hcase).
  assert (covers order p1) as Hc1.
  { intros n k [l Hl]. apply Hc. destruct (rm_sub _ _ _ _ Hr1 k l Hl) as (l0 & ? & _). by eexists. }
  pose proof (ftp_evict_loop_spec now order (S (Z.to_nat (ftpPoolIdle p1))) p1 (rm_ok _ _ _ _ Hr1) Hc1 ltac:(lia)) as Hl.
  destruct (evict_loop order (S (Z.to_nat (ftpPoolIdle p1))) p1) as [ev2 p2].
  destruct Hl as (Hr2 & Hi2 & _). pose proof (removed_trans _ _ _ _ _ _ Hr1 Hr2) as Hr.
  assert (~ parked p2 id) by (intros Hp; apply Hid, (rm_parked _ _ _ _ Hr); by left).
  assert (len (idleOf p2 key) < ftpPoolMaxPerKey) as Hlen2.
  { destruct (ftpPool p2 !! key) as [l|] eqn:E; [|unfold idleOf, len; rewrite E; cbn; done].
    destruct (rm_sub _ _ _ _ Hr2 key l E) as (l1 & E1 & Hs%sublist_length).
    unfold idleOf, len in *. rewrite E. rewrite E1 in Hlen1. cbn in *. lia. }
  split; [by apply append_ok; [apply Hr| | |]|]. exists p2. split; [done|]. split; [apply append_parked|done].
Qed.

(** ** The janitor *)

Lemma keepFresh_sublist now l : keepFresh now l `sublist_of` l.
Proof. apply sublist_filter. Qed.

Lemma ftpPoolEvict_lookup now p k :
  ftpPool (ftpPoolEvict now p).2 !! k =
  match ftpPool p !! k with
  | Some l => match keepFresh now l with [] => None | l' => Some l' end
  | None => None
  end.
Proof. cbn. rewrite lookup_omap. by destruct (ftpPool p !! k). Qed.

Lemma filter_ids_perm now l : l ≡ₚ keepFresh now l ++ filter (fun s => expired now s = true) l.
Proof.
  unfold keepFresh. induction l as [|s l IH]; [done|]. rewrite !filter_cons.
  destruct (expired now s); cbn; [rewrite IH at 1; by rewrite Permutation_middle|by rewrite IH at 1].
Qed.

Lemma filter_ids now l id :
  NoDup (s_id <$> l) ->
  (id ∈ s_id <$> l <-> id ∈ s_id <$> keepFresh now l \/ id ∈ s_id <$> filter (fun s => expired now s = true) l) /\
  (id ∈ s_id <$> keepFresh now l -> id ∉ s_id <$> filter (fun s => expired now s = true) l).
Proof.
  intros Hnd. pose proof (filter_ids_perm now l) as Hp.
  split.
  - rewrite Hp at 1. by rewrite fmap_app, elem_of_app.
  - rewrite Hp, fmap_app in Hnd. apply NoDup_app in Hnd as (_ & Hd & _). apply Hd.
Qed.

Lemma evicted_elem now p id :
  id ∈ s_id <$> (ftpPoolEvict now p).1 <->
  exists k l, ftpPool p !! k = Some l /\ id ∈ s_id <$> filter (fun s => expired now s = true) l.
Proof.
  cbn. rewrite list_elem_of_fmap. split.
  - intros (s & -> & [He Hs]%list_elem_of_filter). apply list_elem_of_join in Hs as (l & Hs & Hl).
    apply list_elem_of_fmap in Hl as ([k l'] & -> & Hl). apply elem_of_map_to_list in Hl.
    exists k, l'. split; [done|]. apply list_elem_of_fmap_2, list_elem_of_filter. done.
  - intros (k & l & Hl & (s & -> & [He Hs]%list_elem_of_filter)%list_elem_of_fmap).
    exists s. split; [done|]. apply list_elem_of_filter. split; [done|]. apply list_elem_of_join. exists l. split; [done|].
    apply list_elem_of_fmap. exists (k, l). split; [done|]. by apply elem_of_map_to_list.
Qed.

Lemma msum_evict now (m : gmap ftpPoolKey (list ftpSession)) :
  msum len (omap (fun l => match keepFresh now l with [] => None | l => Some l end) m) =
  msum len m - msum (fun l => Z.of_nat (length l) - Z.of_nat (length (keepFresh now l))) m.
Proof.
  induction m as [|k l m Hk IH] using map_ind; [by rewrite omap_empty, !msum_empty|].
  rewrite !msum_insert_new by done. unfold len at 2.
  destruct (keepFresh now l) as [|s l'] eqn:E.
  - rewrite omap_insert_None by (by rewrite E). rewrite delete_id by (by rewrite lookup_omap, Hk).
    rewrite IH. cbn. lia.
  - rewrite (omap_insert_Some _ _ _ _ (s :: l')) by (by rewrite E).
    rewrite msum_insert_new by (by rewrite lookup_omap, Hk). rewrite IH. unfold len at 1. lia.
Qed.

Lemma ftpPoolEvict_removed now p :
  pool_ok now p -> removed now p (ftpPoolEvict now p).1 (ftpPoolEvict now p).2.
Proof.
  intros H.
  assert (Hsub : forall k l', ftpPool (ftpPoolEvict now p).2 !! k = Some l' ->
    exists l, ftpPool p !! k = Some l /\ l' = keepFresh now l /\ l' <> []).
  { intros k l'. rewrite ftpPoolEvict_lookup. destruct (ftpPool p !! k) as [l|]; [|done].
    destruct (keepFresh now l) eqn:E; intros ?; simplify_eq. exists l. by rewrite E. }
  assert (Hnd : forall k l, ftpPool p !! k = Some l -> NoDup (s_id <$> l)) by (intros k l Hl; by eapply lo_nodup, po_lists).
  split; [split| | | |].
  - intros k l' (l & Hl & -> & Hn)%Hsub. eapply list_ok_sublist; [apply keepFresh_sublist|done|by apply H].
  - cbn. rewrite msum_evict, (po_count _ _ H). done.
  - cbn. assert (0 <= msum (fun l => Z.of_nat (length l) - Z.of_nat (length (keepFresh now l))) (ftpPool p)).
    { apply msum_nonneg. intros k l _. pose proof (sublist_length _ _ (keepFresh_sublist now l)). lia. }
    pose proof (po_cap _ _ H). lia.
  - intros id k1 l1' k2 l2' (l1 & H1 & -> & _)%Hsub (l2 & H2 & -> & _)%Hsub Hi1 Hi2.
    eapply (po_unique _ _ H id); [exact H1|exact H2| |]; (eapply ids_sublist; [apply keepFresh_sublist|done]).
  - intros k l' (l & Hl & -> & _)%Hsub. exists l. split; [done|apply keepFresh_sublist].
  - intros id. rewrite evicted_elem. split.
    + intros (k & l & Hl & Hi). destruct (filter_ids now l id (Hnd k l Hl)) as [Hf _].
      apply Hf in Hi as [Hi|Hi]; [left|right; by eauto]. exists k, (keepFresh now l).
      rewrite ftpPoolEvict_lookup, Hl. split; [|done]. destruct (keepFresh now l); [by apply not_elem_of_nil in Hi|done].
    + intros [(k & l' & (l & Hl & -> & _)%Hsub & Hi)|(k & l & Hl & Hi)]; exists k, l; (split; [done|]);
        destruct (filter_ids now l id (Hnd k l Hl)) as [Hf _]; apply Hf; auto.
  - intros id (k & l' & (l & Hl & -> & _)%Hsub & Hi). rewrite evicted_elem. intros (k2 & l2 & Hl2 & Hi2).
    destruct (filter_ids now l id (Hnd k l Hl)) as [Hf Hd].
    destruct (filter_ids now l2 id (Hnd k2 l2 Hl2)) as [Hf2 _].
    assert (k = k2) as <-; [eapply (po_unique _ _ H id); [exact Hl|exact Hl2|apply Hf; auto|apply Hf2; auto]|].
    simplify_eq. by apply Hd.
  - cbn. assert (len (ftpPoolEvict now p).1 =
      msum (fun l => Z.of_nat (length l) - Z.of_nat (length (keepFresh now l))) (ftpPool p)) as E; [|cbn in E; lia].
    cbn. clear. assert (forall L : list (list ftpSession),
      len (filter (fun s => expired now s = true) (mjoin L)) =
      sumZ (fun l => Z.of_nat (length l) - Z.of_nat (length (keepFresh now l))) L) as HL.
    { assert (forall l, len (filter (fun s => expired now s = true) l) =
        Z.of_nat (length l) - Z.of_nat (length (keepFresh now l))) as Hl.
      { intros l. pose proof (filter_ids_perm now l) as Hp. apply Permutation_length in Hp.
        rewrite length_app in Hp. unfold len. lia. }
      induction L as [|l L IH]; [done|]. rewrite sumZ_cons, <- IH, <- Hl. unfold len. cbn.
      rewrite filter_app, length_app. apply Nat2Z.inj_add. }
    rewrite HL. clear. induction (ftpPool p) as [|k l m Hk IH] using map_ind.
    { by rewrite map_to_list_empty, msum_empty. }
    rewrite map_to_list_insert by done. rewrite msum_insert_new by done.
    by rewrite fmap_cons, sumZ_cons, IH.
Qed.

(** * The invariant of sessions and leases *)

Definition sess_ok (ls : gmap nat ftpLease) (id : nat) (x : sess) : Prop :=
  match x_where x with
  | WDiscarded => True
  | WIdle => x_lease x = None /\ x_ctlClosed x = false /\ x_owed x = false /\ x_closing x = false
  | w => exists lid l, x_lease x = Some lid /\ ls !! lid = Some l /\ l_sess l = id /\ x_closing x = false /\
      match w with
      | WOpening => x_owed x = false /\
          (l_phase l = leaseOpening /\ x_ctlClosed x = false /\ l_hook l <> HStopped /\ l_hook l <> HDone \/
           l_phase l = leaseAborted /\ l_hook l = HDone)
      | _ => x_ctlClosed x = false /\ l_phase l = leaseTransferring
      end
  end.

(** The hook of [l] can still close a control connection. *)
Definition armed (l : ftpLease) : Prop :=
  l_phase l = leaseOpening /\ (l_hook l = HArmed \/ l_hook l = HRunning).

Definition lease_ok (m : gmap nat sess) (lid : nat) (l : ftpLease) : Prop :=
  exists x, m !! l_sess l = Some x /\
    (armed l -> x_where x = WDiscarded \/ x_where x = WOpening /\ x_lease x = Some lid).

Record inv (c : config) : Prop := {
  i_pool : pool_ok (c_now c) (c_pool c);
  i_idle : forall id, parked (c_pool c) id <-> exists x, c_sess c !! id = Some x /\ x_where x = WIdle;
  i_key : forall k l s, ftpPool (c_pool c) !! k = Some l -> s ∈ l ->
    exists x, c_sess c !! s_id s = Some x /\ x_key x = k;
  i_sess : forall id x, c_sess c !! id = Some x -> sess_ok (c_leases c) id x;
  i_lease : forall lid l, c_leases c !! lid = Some l -> lease_ok (c_sess c) lid l
}.

Lemma discardAll_lookup r m id :
  discardAll r m !! id = if decide (id ∈ s_id <$> r) then discard <$> m !! id else m !! id.
Proof.
  induction r as [|s r IH]; [cbn; case_decide as H; [by apply not_elem_of_nil in H|done]|].
  change (discardAll (s :: r) m) with (alter discard (s_id s) (discardAll r m)). rewrite fmap_cons.
  destruct (decide (id = s_id s)) as [->|Hne].
  - rewrite lookup_alter_eq, IH. rewrite (decide_True (P := _ ∈ _ :: _)) by left.
    case_decide; [|done]. by destruct (m !! s_id s).
  - rewrite lookup_alter_ne by done. rewrite IH. apply decide_ext. rewrite elem_of_cons. naive_solver.
Qed.

Lemma discard_ok ls id x : sess_ok ls id (discard x).
Proof. done. Qed.

(** The pool lost the sessions [r]; those in [ev] of them were discarded, and the
    map of sessions otherwise changed only at ids outside the pool. *)
Lemma removed_key now p r p' (m m' : gmap nat sess) :
  removed now p r p' ->
  (forall k l s, ftpPool p !! k = Some l -> s ∈ l -> exists x, m !! s_id s = Some x /\ x_key x = k) ->
  (forall id x, parked p' id -> m !! id = Some x -> exists x', m' !! id = Some x' /\ x_key x' = x_key x) ->
  forall k l s, ftpPool p' !! k = Some l -> s ∈ l -> exists x, m' !! s_id s = Some x /\ x_key x = k.
Proof.
  intros Hr Hk Hm k l s Hl Hs. destruct (rm_sub _ _ _ _ Hr k l Hl) as (l0 & Hl0 & Hsub).
  destruct (Hk k l0 s Hl0) as (x & Hx & <-); [by eapply elem_of_sublist|].
  destruct (Hm (s_id s) x) as (x' & ? & ?); [|done|by eauto].
  exists (x_key x), l. split; [done|]. by apply list_elem_of_fmap_2.
Qed.

(** A step of one request: its session and its lease change, the pool does not. *)
Lemma local_inv c id x lid l w x' l' :
  inv c -> at_ c id x lid l w -> w <> WDiscarded -> x_where x' <> WIdle -> x_key x' = x_key x -> l_sess l' = l_sess l ->
  sess_ok (<[lid := l']> (c_leases c)) id x' ->
  (armed l' -> x_where x' = WDiscarded \/ x_where x' = WOpening /\ x_lease x' = Some lid) ->
  inv (setSess id x' (setLease lid l' c)).
Proof.
  intros H (Hx & Hw & Hxl & Hl) Hnd Hni Hkey Hsess Hok Harm.
  assert (x_where x <> WIdle) as Hxi.
  { intros E. pose proof (i_sess _ H id x Hx) as Ho. unfold sess_ok in Ho. rewrite E in Ho. destruct Ho; congruence. }
  assert (l_sess l = id) as Hlid.
  { pose proof (i_sess _ H id x Hx) as Ho. unfold sess_ok in Ho.
    destruct (x_where x); subst; try done; destruct Ho as (lid' & l0 & ? & ? & ? & _); by simplify_eq. }
  assert (~ parked (c_pool c) id) as Hnp by (intros (y & Hy & Ey)%(i_idle _ H); congruence).
  split; cbn.
  - apply H.
  - intros i. rewrite (i_idle _ H i). destruct (decide (i = id)) as [->|Hne].
    + rewrite lookup_insert_eq. split; intros (y & Hy & Ey); exfalso; congruence.
    + by rewrite lookup_insert_ne.
  - intros k ll s Hk Hs. destruct (i_key _ H k ll s Hk Hs) as (y & Hy & Ey).
    rewrite lookup_insert_ne; [by eauto|]. intros ->. apply Hnp. exists k, ll. split; [done|]. by apply list_elem_of_fmap_2.
  - intros i y [[<- <-]|[Hne Hy]]%lookup_insert_Some; [done|].
    pose proof (i_sess _ H i y Hy) as Ho. unfold sess_ok in *. destruct (x_where y); try done;
      destruct Ho as (lid' & l0 & H1 & H2 & H3 & Ho); exists lid', l0; (split; [done|]);
      (rewrite lookup_insert_ne; [done|intros ->; simplify_eq]).
  - intros j k [[<- <-]|[Hne Hj]]%lookup_insert_Some.
    + exists x'. rewrite Hsess, Hlid, lookup_insert_eq. done.
    + destruct (i_lease _ H j k Hj) as (y & Hy & Ey). destruct (decide (l_sess k = id)) as [E|E].
      * exists x'. rewrite E, lookup_insert_eq. split; [done|]. intros Ha. rewrite E, Hx in Hy. simplify_eq.
        destruct (Ey Ha) as [Ey'|[_ Ey']]; [by rewrite Ey' in Hnd|congruence].
      * exists y. by rewrite lookup_insert_ne.
Qed.

(** A session whose hooks are all spent enters the pool. *)
Lemma park_discarded order c id z y :
  inv c -> c_sess c !! id = Some z -> x_where z = WDiscarded ->
  (forall j k, c_leases c !! j = Some k -> l_sess k = id -> ~ armed k) ->
  x_ctlClosed y = false -> x_owed y = false -> x_closing y = false -> covers order (c_pool c) ->
  inv (park order id y c).
Proof.
  intros H Hz Hw Harm Hc Ho Hcl Hcov. unfold park.
  assert (~ parked (c_pool c) id) as Hnp by (intros (x & Hx & Ex)%(i_idle _ H); congruence).
  pose proof (ftpPoolPut_spec (c_now c) order id (x_key y) (c_pool c) (i_pool _ H) Hcov Hnp) as Hput.
  destruct (ftpPoolPut order id (x_key y) (c_now c) (c_pool c)) as [ev p'].
  destruct Hput as (Hok & p1 & Hr & Hp' & Ep').
  set (y' := set_x_where WIdle (set_x_lease None y)).
  assert (id ∉ s_id <$> ev) as Hnev by (intros Hi; apply Hnp, (rm_parked _ _ _ _ Hr); by right).
  assert (Hlook : forall i, discardAll ev (<[id := y']> (c_sess c)) !! i =
    if decide (i = id) then Some y' else if decide (i ∈ s_id <$> ev) then discard <$> c_sess c !! i else c_sess c !! i).
  { intros i. rewrite discardAll_lookup. destruct (decide (i = id)) as [->|Hne].
    - by rewrite decide_False, lookup_insert_eq.
    - by rewrite lookup_insert_ne. }
  split; cbn.
  - done.
  - intros i. rewrite Hp', Hlook. destruct (decide (i = id)) as [->|Hne].
    + split; [|by right]. intros _. by exists y'.
    + destruct (decide (i ∈ s_id <$> ev)) as [Hi|Hi].
      * split; [intros [Hp|?]; [by destruct (rm_gone _ _ _ _ Hr i Hp)|done]|].
        intros (x & Hx & Ex). destruct (c_sess c !! i); by simplify_eq/=.
      * rewrite <- (i_idle _ H i), (rm_parked _ _ _ _ Hr i). tauto.
  - intros k l s Hl Hs. rewrite Hlook.
    assert (s = MkSession id (x_key y) (c_now c) /\ k = x_key y \/
            exists l1, ftpPool p1 !! k = Some l1 /\ s ∈ l1) as [[-> ->]|(l1 & Hl1 & Hs1)].
    { rewrite Ep' in Hl. cbn in Hl. apply lookup_insert_Some in Hl as [[<- <-]|[_ Hl]]; [|right; by eauto].
      apply elem_of_app in Hs as [Hs|Hs%list_elem_of_singleton]; [|by left]. right. unfold idleOf in Hs.
      destruct (ftpPool p1 !! x_key y) as [l1|]; [by eauto|]. by apply not_elem_of_nil in Hs. }
    { exists y'. by rewrite decide_True. }
    assert (parked p1 (s_id s)) as Hp1 by (exists k, l1; split; [done|]; by apply list_elem_of_fmap_2).
    rewrite decide_False, decide_False.
    + destruct (rm_sub _ _ _ _ Hr k l1 Hl1) as (l0 & Hl0 & Hsub). apply (i_key _ H k l0 s Hl0).
      by eapply elem_of_sublist.
    + by apply (rm_gone _ _ _ _ Hr).
    + intros E. apply Hnp. rewrite <- E. apply (rm_parked _ _ _ _ Hr). by left.
  - intros i x. rewrite Hlook. destruct (decide (i = id)) as [->|Hne].
    { intros Hx. injection Hx as <-. unfold sess_ok. cbn. done. }
    case_decide; [|by apply (i_sess _ H)]. destruct (c_sess c !! i); [|done]. intros ?; by simplify_eq/=.
  - intros j k Hj. destruct (i_lease _ H j k Hj) as (x & Hx & Hax). unfold lease_ok. rewrite Hlook.
    destruct (decide (l_sess k = id)) as [E|E].
    { exists y'. split; [done|]. intros Ha. by destruct (Harm j k Hj E). }
    case_decide; [|by eauto]. rewrite Hx. cbn. exists (discard x). split; [done|]. by left.
Qed.

Lemma not_armed_lid c id x lid l' :
  inv c -> c_sess c !! id = Some x -> x_where x <> WDiscarded -> x_lease x = Some lid -> ~ armed l' ->
  forall j k, <[lid := l']> (c_leases c) !! j = Some k -> l_sess k = id -> ~ armed k.
Proof.
  intros H Hx Hw Hl Hn j k [[<- <-]|[Hne Hj]]%lookup_insert_Some E; [done|]. intros Ha.
  destruct (i_lease _ H j k Hj) as (y & Hy & Hc). rewrite E in Hy. simplify_eq.
  destruct (Hc Ha) as [?|[_ ?]]; congruence.
Qed.

(** The end of a request: its session goes back to the pool. *)
Lemma park_inv order c id x lid l w y l' :
  inv c -> at_ c id x lid l w -> w <> WDiscarded -> l_sess l' = l_sess l -> ~ armed l' -> x_key y = x_key x ->
  x_ctlClosed y = false -> x_owed y = false -> x_closing y = false -> covers order (c_pool c) ->
  inv (park order id y (setLease lid l' c)).
Proof.
  intros H Hat Hw Hs Ha Hk H1 H2 H3 Hcov.
  pose proof (local_inv c id x lid l w (discard y) l' H Hat Hw ltac:(done) Hk Hs (discard_ok _ _ _)
    ltac:(intros; done)) as Hi.
  assert (park order id y (setLease lid l' c) = park order id y (setSess id (discard y) (setLease lid l' c))) as ->.
  { unfold park. cbn. destruct (ftpPoolPut order id (x_key y) (c_now c) (c_pool c)). by rewrite insert_insert_eq. }
  destruct Hat as (Hx & Hxw & Hxl & Hl). eapply park_discarded; [exact Hi|cbn; apply lookup_insert_eq|done| |done..].
  cbn. eapply not_armed_lid; try done. congruence.
Qed.

Lemma drop_inv c id x lid l w y l' :
  inv c -> at_ c id x lid l w -> w <> WDiscarded -> l_sess l' = l_sess l -> x_key y = x_key x ->
  inv (drop_ id y (setLease lid l' c)).
Proof. intros. eapply (local_inv c id x lid l w (discard y) l'); try done. by left. Qed.

(** The pool gives sessions up, and they are discarded. *)
Lemma removed_inv p m ls now r p' :
  inv (MkConfig p m ls now) -> removed now p r p' -> inv (MkConfig p' (discardAll r m) ls now).
Proof.
  intros H Hr. split; cbn.
  - apply Hr.
  - intros id. rewrite discardAll_lookup. pose proof (i_idle _ H id) as Hid. cbn in Hid.
    rewrite (rm_parked _ _ _ _ Hr) in Hid. case_decide as Hi.
    + split; [intros Hp; by destruct (rm_gone _ _ _ _ Hr id Hp)|].
      intros (x & Hx & Ex). destruct (m !! id); by simplify_eq/=.
    + rewrite <- Hid. tauto.
  - eapply removed_key; [exact Hr|apply (i_key _ H)|]. intros id x Hp Hx. rewrite discardAll_lookup.
    rewrite decide_False by (by apply (rm_gone _ _ _ _ Hr)). by eauto.
  - intros id x. rewrite discardAll_lookup. case_decide; [|by apply (i_sess _ H)].
    destruct (m !! id); [|done]. intros ?; by simplify_eq/=.
  - intros j k Hj. destruct (i_lease _ H j k Hj) as (x & Hx & Ha). cbn in Hx. unfold lease_ok. rewrite discardAll_lookup, Hx.
    case_decide; cbn; [exists (discard x)|exists x]; auto.
Qed.

(** A session outside the pool, with no live hook, is bound to a new lease. *)
Lemma activate_inv c id lid key :
  inv c -> ~ parked (c_pool c) id ->
  (forall j k, c_leases c !! j = Some k -> l_sess k = id -> ~ armed k) -> c_leases c !! lid = None ->
  inv (MkConfig (c_pool c) (<[id := MkSess key (Some lid) false false false WOpening]> (c_sess c))
         (<[lid := bind id]> (c_leases c)) (c_now c)).
Proof.
  intros H Hp Ha Hfresh. split; cbn.
  - apply H.
  - intros i. rewrite (i_idle _ H i). destruct (decide (i = id)) as [->|Hne]; [|by rewrite lookup_insert_ne].
    rewrite lookup_insert_eq, <- (i_idle _ H id). split; [done|]. intros (y & Hy & Ey). by simplify_eq/=.
  - intros k l s Hl Hs. rewrite lookup_insert_ne; [by eapply (i_key _ H)|]. intros ->. apply Hp.
    exists k, l. split; [done|]. by apply list_elem_of_fmap_2.
  - intros i x [[<- <-]|[Hne Hx]]%lookup_insert_Some.
    + exists lid, (bind id). cbn. rewrite lookup_insert_eq. split_and!; try done. by left.
    + pose proof (i_sess _ H i x Hx) as Ho. unfold sess_ok in *. destruct (x_where x); try done;
        destruct Ho as (lid' & l0 & H1 & H2 & Ho); exists lid', l0; (split; [done|]);
        (rewrite lookup_insert_ne; [done|intros ->; congruence]).
  - intros j k [[<- <-]|[Hne Hj]]%lookup_insert_Some.
    + exists (MkSess key (Some lid) false false false WOpening). cbn. rewrite lookup_insert_eq. split; [done|]. by right.
    + destruct (i_lease _ H j k Hj) as (y & Hy & Hc). unfold lease_ok. destruct (decide (l_sess k = id)) as [E|E].
      * rewrite E, lookup_insert_eq. eexists. split; [done|]. intros Hk. by destruct (Ha j k Hj E).
      * rewrite lookup_insert_ne by done. by eauto.
Qed.

Lemma stop_spec l b l' : stop l = (b, l') ->
  l_sess l' = l_sess l /\ l_phase l' = l_phase l /\ (b = true -> l_hook l = HArmed /\ l_hook l' = HStopped).
Proof. unfold stop. destruct (l_hook l) eqn:E; intros; by simplify_eq/=. Qed.

Lemma owes_healthy o : ftpSessionHealthy o = true -> owes o = false /\ saysClosing o = false.
Proof.
  destruct o as [|code| |]; try done. unfold ftpSessionHealthy, ftpReplyRefused. rewrite orb_false_r. cbn.
  destruct (Z.eqb_spec code 421); cbn; [done|]. case_match; [done|]. intros Hge%Z.leb_le.
  split; [apply Z.ltb_ge; lia|done].
Qed.

Lemma owes_synced o : ftpReplySynced o = true -> owes o = false /\ saysClosing o = false.
Proof.
  destruct o as [|code| |]; cbn; try done. rewrite andb_true_iff, negb_true_iff.
  intros [H%Z.leb_le ->]. split; [apply Z.ltb_ge; lia|done].
Qed.

(** What [at_] says in a state satisfying the invariant. *)
Lemma at_opening c id x lid l : inv c -> at_ c id x lid l WOpening ->
  l_sess l = id /\ x_closing x = false /\ x_owed x = false /\
  (l_phase l = leaseOpening /\ x_ctlClosed x = false /\ l_hook l <> HStopped /\ l_hook l <> HDone \/ l_phase l = leaseAborted /\ l_hook l = HDone).
Proof.
  intros H (Hx & Hw & Hxl & Hl). pose proof (i_sess _ H id x Hx) as Ho. unfold sess_ok in Ho. rewrite Hw in Ho.
  destruct Ho as (lid' & l0 & H1 & H2 & H3 & H4 & H5 & H6). by simplify_eq.
Qed.

Lemma at_transferring c id x lid l w : inv c -> at_ c id x lid l w -> w = WTransferring \/ w = WClosing ->
  l_sess l = id /\ x_closing x = false /\ x_ctlClosed x = false /\ l_phase l = leaseTransferring.
Proof.
  intros H (Hx & Hw & Hxl & Hl) Hor. pose proof (i_sess _ H id x Hx) as Ho. unfold sess_ok in Ho. rewrite Hw in Ho.
  destruct Hor as [->| ->]; destruct Ho as (lid' & l0 & H1 & H2 & H3 & H4 & H5 & H6); by simplify_eq.
Qed.

(** The condition of a session after its lease changed. *)
Lemma sess_ok_upd ls lid l l' id x y :
  sess_ok ls id x -> x_lease x = Some lid -> ls !! lid = Some l -> l_sess l' = l_sess l ->
  x_where y = x_where x -> x_lease y = x_lease x -> x_closing y = x_closing x -> x_owed y = x_owed x ->
  (x_where x = WOpening -> l_phase l = leaseOpening /\ x_ctlClosed x = false \/ l_phase l = leaseAborted /\ l_hook l = HDone ->
    l_phase l' = leaseOpening /\ x_ctlClosed y = false /\ l_hook l' <> HStopped /\ l_hook l' <> HDone \/
    l_phase l' = leaseAborted /\ l_hook l' = HDone) ->
  (l_phase l = leaseTransferring -> x_ctlClosed x = false -> l_phase l' = leaseTransferring /\ x_ctlClosed y = false) ->
  sess_ok (<[lid := l']> ls) id y.
Proof.
  intros Ho Hxl Hl Hs Hw Hyl Hc How Hop Htr. unfold sess_ok in *. rewrite Hw.
  destruct (x_where x); try done; [destruct Ho; congruence|..]; destruct Ho as (lid' & l0 & E1 & E2 & E3 & E4 & E5 & E6);
    assert (lid' = lid) as -> by congruence; assert (l0 = l) as -> by congruence;
    exists lid, l'; rewrite lookup_insert_eq; (split; [congruence|]); (split; [done|]); (split; [congruence|]);
    (split; [congruence|]).
  - split; [congruence|]. apply Hop; [done|]. destruct E6 as [(? & ? & _)|?]; [by left|by right].
  - destruct (Htr E6 E5). done.
  - destruct (Htr E6 E5). done.
Qed.

(** A hook runs, or starts: only a session being opened can lose its control
    connection. *)
Lemma hook_inv c lid l l' f :
  inv c -> c_leases c !! lid = Some l -> l_sess l' = l_sess l ->
  (armed l' -> armed l) ->
  (forall x, x_key (f x) = x_key x /\ x_where (f x) = x_where x /\ x_lease (f x) = x_lease x) ->
  (forall x, c_sess c !! l_sess l = Some x -> x_lease x = Some lid ->
     sess_ok (<[lid := l']> (c_leases c)) (l_sess l) (f x)) ->
  (forall x, c_sess c !! l_sess l = Some x -> x_lease x <> Some lid -> x_where x <> WDiscarded -> f x = x) ->
  inv (MkConfig (c_pool c) (alter f (l_sess l) (c_sess c)) (<[lid := l']> (c_leases c)) (c_now c)).
Proof.
  intros H Hl Hs Ha Hf Hown Hother.
  assert (Hlook : forall i y, alter f (l_sess l) (c_sess c) !! i = Some y ->
    exists x, c_sess c !! i = Some x /\ y = (if decide (i = l_sess l) then f x else x)).
  { intros i y. destruct (decide (i = l_sess l)) as [->|Hne].
    - rewrite lookup_alter_eq. destruct (c_sess c !! l_sess l); [|done]. cbn. intros ?; simplify_eq. by eauto.
    - rewrite lookup_alter_ne by done. by eauto. }
  assert (Hlook' : forall i x, c_sess c !! i = Some x ->
    alter f (l_sess l) (c_sess c) !! i = Some (if decide (i = l_sess l) then f x else x)).
  { intros i x Hx. destruct (decide (i = l_sess l)) as [->|Hne].
    - by rewrite lookup_alter_eq, Hx.
    - by rewrite lookup_alter_ne. }
  split; cbn.
  - apply H.
  - intros i. rewrite (i_idle _ H i). split.
    + intros (x & Hx & Ex). eexists. split; [by apply Hlook'|]. case_decide; [|done]. by rewrite (proj1 (proj2 (Hf x))).
    + intros (y & (x & Hx & ->)%Hlook & Ey). exists x. split; [done|]. case_decide; [|done].
      by rewrite <- (proj1 (proj2 (Hf x))).
  - intros k ll s Hk Hin. destruct (i_key _ H k ll s Hk Hin) as (x & Hx & <-). eexists. split; [by apply Hlook'|].
    case_decide; [apply Hf|done].
  - intros i y (x & Hx & ->)%Hlook. pose proof (i_sess _ H i x Hx) as Ho.
    destruct (decide (x_lease x = Some lid)) as [El|El].
    + destruct (decide (x_where x = WDiscarded)) as [Ew|Ew].
      { unfold sess_ok. case_decide; [rewrite (proj1 (proj2 (Hf x)))|]; by rewrite Ew. }
      assert (i = l_sess l) as ->.
      { unfold sess_ok in Ho. destruct (x_where x); try done; [by destruct Ho; congruence|..];
          destruct Ho as (lid' & l0 & ? & ? & ? & _); by simplify_eq. }
      rewrite decide_True by done. by apply Hown.
    + assert (sess_ok (<[lid := l']> (c_leases c)) i x) as Hok.
      { unfold sess_ok in *. destruct (x_where x); try done; destruct Ho as (lid' & l0 & H1 & H2 & Ho);
          exists lid', l0; (split; [done|]); (rewrite lookup_insert_ne; [done|intros ->; congruence]). }
      case_decide as E; [subst i|done]. destruct (decide (x_where x = WDiscarded)) as [Ew|Ew].
      * unfold sess_ok. by rewrite (proj1 (proj2 (Hf x))), Ew.
      * by rewrite Hother.
  - intros j k [[<- <-]|[Hne Hj]]%lookup_insert_Some.
    + destruct (i_lease _ H lid l Hl) as (x & Hx & Hc). unfold lease_ok. rewrite Hs, (Hlook' _ _ Hx), decide_True by done.
      eexists. split; [done|]. intros Har. destruct (Hf x) as (_ & -> & ->). by apply Hc, Ha.
    + destruct (i_lease _ H j k Hj) as (x & Hx & Hc). unfold lease_ok. rewrite (Hlook' _ _ Hx). eexists. split; [done|].
      case_decide; [|done]. by destruct (Hf x) as (_ & -> & ->).
Qed.

Lemma ftp_step_inv c c' : step c c' -> inv c -> inv c'.
Proof.
  destruct 1 as [c now Hn|p m ls now key s exp p' lid x Hg Hfr Hx|p m ls now key exp p' lid id Hg Hfr Hx
    |c key lid id Hfr Hx|c lid l Hl Hh|c lid l closes l' Hl Hh Hrun|c id x lid l o b l' Hat Hst
    |c id x lid l o b l' order Hat Hhe Hst Hcov|c id x lid l l' Hat Hb|c id x lid l l' b l'' Hat Hb Hst
    |c id x lid l b l' Hat Hst|c id x lid l o order Hat Hcov|p m ls now ev p' Hev]; intros H.
  - destruct H. split; try done. cbn. by eapply pool_ok_mono.
  - (* get *)
    pose proof (ftpPoolGet_removed now key p (i_pool _ H)) as Hr. rewrite Hg in Hr.
    pose proof (removed_inv _ _ _ _ _ _ H Hr) as Hi.
    assert (s_id s ∈ s_id <$> (exp ++ [s])) as Hin by (rewrite fmap_app, elem_of_app; right; by left).
    assert (parked p (s_id s)) as Hp by (apply (rm_parked _ _ _ _ Hr); by right).
    destruct (proj1 (i_idle _ H (s_id s)) Hp) as (x' & Hx' & Ew). cbn in Hx'. simplify_eq.
    pose proof (i_sess _ H _ _ Hx) as Hok. unfold sess_ok in Hok. rewrite Ew in Hok. destruct Hok as (_ & Hc & Ho & Hcl).
    assert (<[s_id s := set_x_where WOpening (set_x_lease (Some lid) x)]> (discardAll exp m) =
      <[s_id s := MkSess (x_key x) (Some lid) false false false WOpening]> (discardAll (exp ++ [s]) m)) as ->.
    { unfold set_x_where, set_x_lease. cbn. rewrite Hc, Ho, Hcl. apply map_eq. intros i.
      destruct (decide (i = s_id s)) as [->|Hne]; [by rewrite !lookup_insert_eq|].
      rewrite !lookup_insert_ne, !discardAll_lookup by done. apply decide_ext.
      rewrite fmap_app, elem_of_app. cbn. rewrite list_elem_of_singleton. tauto. }
    apply (activate_inv _ _ _ _ Hi); cbn; [|intros j k Hj E Ha|done].
    + intros Hp'. by destruct (rm_gone _ _ _ _ Hr _ Hp').
    + destruct (i_lease _ H j k Hj) as (y & Hy & Hc'). rewrite E in Hy. cbn in Hy. simplify_eq.
      destruct (Hc' Ha) as [?|[? _]]; congruence.
  - (* miss *)
    pose proof (ftpPoolGet_removed now key p (i_pool _ H)) as Hr. rewrite Hg in Hr. cbn in Hr. rewrite app_nil_r in Hr.
    pose proof (removed_inv _ _ _ _ _ _ H Hr) as Hi.
    apply (activate_inv _ _ _ _ Hi); cbn; [|intros j k Hj E Ha|done].
    + intros Hp'. assert (parked p id) as Hp by (apply (rm_parked _ _ _ _ Hr); by left).
      apply (i_idle _ H) in Hp as (y & Hy & _). cbn in Hy. congruence.
    + destruct (i_lease _ H j k Hj) as (y & Hy & _). cbn in Hy. congruence.
  - (* redial *)
    apply (activate_inv _ _ _ _ H); [|intros j k Hj E Ha|done].
    + intros (y & Hy & _)%(i_idle _ H). congruence.
    + destruct (i_lease _ H j k Hj) as (y & Hy & _). congruence.
  - (* cancel *)
    assert (setLease lid (set_l_hook HRunning l) c =
      MkConfig (c_pool c) (alter id (l_sess l) (c_sess c)) (<[lid := set_l_hook HRunning l]> (c_leases c)) (c_now c)) as ->.
    { unfold setLease. f_equal. symmetry. by apply alter_id. }
    apply (hook_inv c lid l); try done.
    + intros [? _]. split; [done|by left].
    + intros x Hx Hxl. eapply sess_ok_upd; try done; [by apply (i_sess _ H)|]. cbn.
      intros _ [[? ?]|[_ ?]]; [by left|congruence].
  - (* hook *)
    unfold runHook in Hrun. destruct (l_phase l) eqn:Ep; simplify_eq; cbn [negb].
    + apply (hook_inv c lid l); try done.
      * by intros [? _].
      * intros x Hx Hxl. eapply sess_ok_upd; try done; [by apply (i_sess _ H)|by right|congruence].
      * intros x Hx Hxl Hw. destruct (i_lease _ H lid l Hl) as (y & Hy & Hc). simplify_eq.
        destruct (Hc (conj Ep (or_intror Hh))) as [?|[_ ?]]; congruence.
    + assert (c_sess c = alter id (l_sess l) (c_sess c)) as -> by (symmetry; by apply alter_id).
      apply (hook_inv c lid l); try done.
      * by intros [? _]; cbn in *; congruence.
      * intros x Hx Hxl. eapply sess_ok_upd; try done; [by apply (i_sess _ H)|]. cbn.
        intros _ [[? ?]|[? ?]]; [congruence|by right].
    + assert (c_sess c = alter id (l_sess l) (c_sess c)) as -> by (symmetry; by apply alter_id).
      apply (hook_inv c lid l); try done.
      * by intros [? _]; cbn in *; congruence.
      * intros x Hx Hxl. eapply sess_ok_upd; try done; [by apply (i_sess _ H)|]. cbn.
        intros _ [[? ?]|[? ?]]; [congruence|by right].
  - (* fail *)
    destruct (stop_spec _ _ _ Hst) as (? & _ & _). by eapply drop_inv.
  - (* refused *)
    destruct (stop_spec _ _ _ Hst) as (Hs & Hph & Hb). destruct (at_opening _ _ _ _ _ H Hat) as (_ & Hc & _ & Hor).
    destruct (owes_healthy o Hhe) as [Hw Hsc]. destruct b; [|by eapply drop_inv].
    destruct (Hb eq_refl) as [Ha Hst']. eapply park_inv; try done.
    + intros [_ [?|?]]; congruence.
    + cbn. destruct Hor as [(_ & ? & _)|[_ ?]]; [done|congruence].
    + cbn. by rewrite Hc.
  - (* begin *)
    destruct (at_opening _ _ _ _ _ H Hat) as (Hid & Hc & Ho & Hor). unfold beginTransfer in Hb.
    destruct (l_phase l) eqn:Ep; simplify_eq. destruct Hor as [(_ & Hctl & _)|[? _]]; [|congruence].
    eapply local_inv; try done; [|by intros [? _]]. destruct Hat as (_ & _ & Hxl & _).
    exists lid, (set_l_phase leaseTransferring l). rewrite lookup_insert_eq. by split_and!.
  - (* aborted *)
    unfold beginTransfer in Hb. destruct (stop_spec _ _ _ Hst) as (Hs & _ & _). eapply drop_inv; try done.
    rewrite Hs. destruct (l_phase l); by simplify_eq.
  - (* close *)
    destruct (at_transferring _ _ _ _ _ _ H Hat ltac:(by left)) as (Hid & Hc & Hctl & Hp).
    destruct (stop_spec _ _ _ Hst) as (Hs & Hph & _). eapply local_inv; try done.
    + destruct Hat as (_ & _ & Hxl & _). exists lid, l'. rewrite lookup_insert_eq. split_and!; try done; congruence.
    + intros [? _]. congruence.
  - (* closed *)
    destruct (at_transferring _ _ _ _ _ _ H Hat ltac:(by right)) as (Hid & Hc & Hctl & Hp).
    assert (setLease lid l c = c) as Es.
    { destruct Hat as (_ & _ & _ & Hl). unfold setLease. rewrite insert_id by done. by destruct c. }
    destruct (ftpReplySynced o) eqn:Hsy; cbn.
    + rewrite Hctl. cbn. rewrite <- Es. destruct (owes_synced o Hsy) as [Hw Hsc]. eapply park_inv; try done.
      * intros [? _]. congruence.
      * cbn. by rewrite Hc.
    + rewrite <- Es. by eapply drop_inv.
  - (* janitor *)
    pose proof (ftpPoolEvict_removed now p (i_pool _ H)) as Hr. rewrite Hev in Hr. by apply (removed_inv _ _ _ _ _ _ H).
Qed.

Lemma ftp_init_inv : inv init.
Proof.
  split; cbn.
  - split; cbn; [by intros k l|by rewrite msum_empty|done|by intros id k1 l1].
  - intros id. split; [by intros (k & l & Hl & _)|by intros (x & Hx & _)].
  - by intros k l s Hl.
  - by intros id x.
  - by intros lid l.
Qed.

Lemma ftp_reachable_inv c : rtc step init c -> inv c.
Proof.
  intros Hr. eapply (rtc_invariant step inv); [|exact Hr|apply ftp_init_inv]. intros ? ? H Hs. by eapply ftp_step_inv.
Qed.

(** * Properties of the pool *)

(** in every state the requests, their cancellation hooks and the janitor can
    reach, the idle count is the number of parked sessions, at most 8 in all and
    2 per key; and every parked session sits under its own key, belongs to no
    request, has an open control connection on which no server reply is owed and
    no closing was announced, and no hook of any request is left that could
    still close it. *)
Lemma parked_sessions_usable c :
  rtc step init c ->
  ftpPoolIdle (c_pool c) = msum len (ftpPool (c_pool c)) /\ ftpPoolIdle (c_pool c) <= ftpPoolMaxIdle /\
  forall k l, ftpPool (c_pool c) !! k = Some l ->
    len l <= ftpPoolMaxPerKey /\ NoDup (s_id <$> l) /\
    forall s, s ∈ l -> exists x, c_sess c !! s_id s = Some x /\ x_key x = k /\ x_where x = WIdle /\
      x_lease x = None /\ x_ctlClosed x = false /\ x_owed x = false /\ x_closing x = false /\
      forall lid l, c_leases c !! lid = Some l -> l_sess l = s_id s -> ~ armed l.
Proof.
  intros H%ftp_reachable_inv. split; [apply H|]. split; [apply H|]. intros k l Hl.
  destruct (po_lists _ _ (i_pool _ H) k l Hl) as [_ Hcap _ Hnd _]. split; [done|]. split; [done|]. intros s Hs.
  destruct (i_key _ H k l s Hl Hs) as (x & Hx & Hk). exists x.
  assert (parked (c_pool c) (s_id s)) as Hp by (exists k, l; split; [done|]; by apply list_elem_of_fmap_2).
  apply (i_idle _ H) in Hp as (x' & Hx' & Hw). simplify_eq.
  pose proof (i_sess _ H _ _ Hx) as Hok. unfold sess_ok in Hok. rewrite Hw in Hok.
  do 7 (split; [by try apply Hok|]). intros lid l' Hl' E Ha.
  destruct (i_lease _ H lid l' Hl') as (y & Hy & Hc). rewrite E in Hy. simplify_eq.
  destruct (Hc Ha) as [?|[? _]]; congruence.
Qed.

Lemma expired_older now s t : s_idleSince s <= s_idleSince t -> expired now t = true -> expired now s = true.
Proof. unfold expired. rewrite !Z.leb_le. lia. Qed.

Lemma idleOf_sorted now p key : pool_ok now p -> StronglySorted (fun s t => s_idleSince s <= s_idleSince t) (idleOf p key).
Proof.
  intros H. unfold idleOf. destruct (ftpPool p !! key) as [l|] eqn:E; [|constructor].
  apply (lo_sorted _ _ _ (po_lists _ _ H key l E)).
Qed.

(** The newest parked session decides: it is taken, or all of them expired. *)
Lemma ftpPoolGet_spec now key p :
  pool_ok now p ->
  match ftpPoolGet key now p with
  | (Some s, exp, _) => exp = [] /\ last (idleOf p key) = Some s /\ now - s_idleSince s < ftpPoolTTL
  | (None, exp, _) => exp ≡ₚ idleOf p key /\ forall s, s ∈ idleOf p key -> ftpPoolTTL <= now - s_idleSince s
  end.
Proof.
  intros H. unfold ftpPoolGet. pose proof (get_loop_spec now (rev (idleOf p key)) (ftpPoolIdle p)) as Hl.
  destruct (get_loop now (rev (idleOf p key)) (ftpPoolIdle p)) as [[[got rest] exp] idle'].
  destruct Hl as (Hr & _ & Hexp & Hg).
  assert (idleOf p key = rev rest ++ rev (option_list got) ++ rev exp) as Hi.
  { apply (f_equal (rev (A:=ftpSession))) in Hr. rewrite rev_involutive, !rev_app_distr, <- app_assoc in Hr. done. }
  destruct got as [s|]; cbn in *.
  - assert (exp = []) as ->.
    { destruct exp as [|t exp]; [done|]. exfalso. pose proof (idleOf_sorted now p key H) as Hs. rewrite Hi in Hs.
      apply StronglySorted_app in Hs as (_ & _ & Hs).
      apply (StronglySorted_app _ [s]) in Hs as (Hle & _). apply Forall_cons in Hexp as [Ht _].
      assert (expired now s = true); [|congruence]. apply (expired_older now s t); [|done].
      apply Hle; [by left|]. cbn. apply elem_of_app. right. by left. }
    split; [done|]. split; [|apply Z.leb_gt, Hg]. rewrite Hi. cbn. apply last_snoc.
  - subst rest. cbn in Hi. split; [rewrite Hi; apply Permutation_rev|]. intros s Hs. rewrite Hi in Hs.
    rewrite <- Permutation_rev in Hs. rewrite Forall_forall in Hexp. apply Z.leb_le, (Hexp s Hs).
Qed.

(** a request reuses the most recently parked session of its key, and only
    one parked for less than the TTL (when it finds none, every session of the
    key had expired and is dropped); parking a session drops at most one other,
    the key's oldest when the key is at its cap, else the pool's oldest when the
    pool is at its cap, and the parked session is the next to be reused. *)
Lemma newest_reused_oldest_dropped now order key id p :
  pool_ok now p -> covers order p -> ~ parked p id ->
  match ftpPoolGet key now p with
  | (Some s, exp, _) => exp = [] /\ last (idleOf p key) = Some s /\ now - s_idleSince s < ftpPoolTTL
  | (None, exp, _) => exp ≡ₚ idleOf p key /\ forall s, s ∈ idleOf p key -> ftpPoolTTL <= now - s_idleSince s
  end /\
  let '(ev, p') := ftpPoolPut order id key now p in
  (ev = [] \/ exists s, ev = [s] /\
    (len (idleOf p key) = ftpPoolMaxPerKey /\ head (idleOf p key) = Some s \/
     len (idleOf p key) < ftpPoolMaxPerKey /\ ftpPoolIdle p = ftpPoolMaxIdle /\
     (exists k, head (idleOf p k) = Some s) /\ forall k t, t ∈ idleOf p k -> s_idleSince s <= s_idleSince t)) /\
  (ftpPoolGet key now p').1.1 = Some (MkSession id key now).
Proof.
  intros H Hc Hid. split; [by apply ftpPoolGet_spec|].
  pose proof (ftpPoolPut_spec now order id key p H Hc Hid) as Hput.
  destruct (ftpPoolPut order id key now p) as [ev p'] eqn:Eput. destruct Hput as (Hok & p1 & _ & _ & ->). split.
  - unfold ftpPoolPut in Eput. pose proof (evictKey_spec now key p H) as Hk.
    destruct (evictKey key p) as [ev1 p2]. destruct Hk as (Hr1 & Hlen & Hcase).
    assert (covers order p2) as Hc2.
    { intros n k [l Hl]. apply Hc. destruct (rm_sub _ _ _ _ Hr1 k l Hl) as (l0 & ? & _). by eexists. }
    pose proof (ftp_evict_loop_spec now order (S (Z.to_nat (ftpPoolIdle p2))) p2 (rm_ok _ _ _ _ Hr1) Hc2 ltac:(lia)) as Hl.
    destruct (evict_loop order _ p2) as [ev2 p3]. injection Eput as <- _. destruct Hl as (_ & _ & Hl).
    destruct Hcase as [(-> & -> & Hlt)|(s & rest & -> & Hi & Hfull)].
    + destruct Hl as [(-> & _)|(k & s & rest & -> & Hi & Hm & _ & Hmin)]; [by left|]. right. exists s. split; [done|].
      right. split_and!; [done|done|exists k; by rewrite Hi|]. intros k' t Ht. unfold idleOf in Ht.
      destruct (ftpPool p !! k') as [[|t0 l]|] eqn:E; [by apply not_elem_of_nil in Ht| |by apply not_elem_of_nil in Ht].
      cbn in Ht. specialize (Hmin k' t0 l E). pose proof (lo_sorted _ _ _ (po_lists _ _ H k' _ E)) as Hs.
      apply StronglySorted_inv in Hs as [_ Hs]. rewrite Forall_forall in Hs.
      apply elem_of_cons in Ht as [->|Ht]; [done|]. etrans; [exact Hmin|by apply Hs].
    + destruct Hl as [(-> & _)|(_ & _ & _ & _ & _ & Hm & _)].
      2:{ pose proof (rm_count _ _ _ _ Hr1) as E. pose proof (po_cap _ _ H). unfold len in E. cbn in E. lia. }
      right. exists s. split; [by rewrite app_nil_r|]. left. rewrite Hi. done.
  - pose proof (ftpPoolGet_spec now key _ Hok) as Hg. destruct (ftpPoolGet key now _) as [[[s|] exp] p4]; cbn in *.
    + destruct Hg as (_ & Hl & _). unfold idleOf in Hl. cbn in Hl. rewrite lookup_insert_eq in Hl. cbn in Hl.
      by rewrite last_snoc in Hl.
    + destruct Hg as (_ & Hg). specialize (Hg (MkSession id key now)). cbn in Hg.
      assert (ftpPoolTTL <= now - now); [|unfold ftpPoolTTL in *; lia]. apply Hg. unfold idleOf. cbn.
      rewrite lookup_insert_eq. cbn. apply elem_of_app. right. by left.
Qed.


(** ** Witnesses *)

Definition kA : ftpPoolKey := MkKey (bs "a:21") (bs "u") [] false false.
Definition kB : ftpPoolKey := MkKey (bs "b:21") (bs "u") [] false false.

(** A run: a request opens a session on a server, streams, is cancelled while it
    streams, and still parks the session once the server's 426 is read. *)
Definition wit0 : config := init.
Definition wit1 : config := MkConfig emptyPool {[ 0%nat := MkSess kA (Some 0%nat) false false false WOpening ]}
  {[ 0%nat := bind 0 ]} 0.
Definition wit2 : config := MkConfig emptyPool {[ 0%nat := MkSess kA (Some 0%nat) false true false WTransferring ]}
  {[ 0%nat := MkLease 0 leaseTransferring HArmed ]} 0.
Definition wit3 : config := MkConfig emptyPool {[ 0%nat := MkSess kA (Some 0%nat) false true false WTransferring ]}
  {[ 0%nat := MkLease 0 leaseTransferring HRunning ]} 0.
Definition wit4 : config := MkConfig emptyPool {[ 0%nat := MkSess kA (Some 0%nat) false true false WClosing ]}
  {[ 0%nat := MkLease 0 leaseTransferring HRunning ]} 0.
Definition wit5 : config := MkConfig (MkPool {[ kA := [MkSession 0 kA 0] ]} 1)
  {[ 0%nat := MkSess kA None false false false WIdle ]} {[ 0%nat := MkLease 0 leaseTransferring HRunning ]} 0.

Lemma wit_ftp_reachable : rtc step init wit5.
Proof.
  assert (step wit0 wit1) as S1 by exact (st_miss emptyPool ∅ ∅ 0 kA [] emptyPool 0 0 eq_refl eq_refl eq_refl).
  assert (step wit1 wit2) as S2.
  { apply (st_begin wit1 0 (MkSess kA (Some 0%nat) false false false WOpening) 0 (bind 0)); done. }
  assert (step wit2 wit3) as S3 by (apply (st_cancel wit2 0 (MkLease 0 leaseTransferring HArmed)); done).
  assert (step wit3 wit4) as S4.
  { apply (st_close wit3 0 (MkSess kA (Some 0%nat) false true false WTransferring) 0 (MkLease 0 leaseTransferring HRunning) false
      (MkLease 0 leaseTransferring HRunning)); done. }
  assert (step wit4 wit5) as S5.
  { apply (st_closed wit4 0 (MkSess kA (Some 0%nat) false true false WClosing) 0 (MkLease 0 leaseTransferring HRunning) (Reply 426)
      (fun _ => [])); [done|]. intros n k [l Hl]. done. }
  eapply rtc_l; [exact S1|]. eapply rtc_l; [exact S2|]. eapply rtc_l; [exact S3|]. eapply rtc_l; [exact S4|].
  by apply rtc_once.
Qed.

Lemma wit5_ok : pool_ok 5 (c_pool wit5).
Proof. eapply pool_ok_mono; [|apply (i_pool _ (ftp_reachable_inv _ wit_ftp_reachable))]. done. Qed.

