(* ===== verification/NetIP.v ===== *)
(** Go's net.IP, net.IPNet and the address parser of net/netip, as the address
    guard and the authentication of proxy links use them.

    A net.IP is its 4 or 16 bytes, nil the empty list. *)

From S2P Require Import Prelude GoStrings.

(** * net.IP *)

Definition v4InV6Prefix : bytes := replicate 10 0 ++ [255; 255].

Definition To4 (ip : bytes) : option bytes :=
  if (length ip =? 4)%nat then Some ip
  else if (length ip =? 16)%nat && bool_decide (take 12 ip = v4InV6Prefix) then Some (drop 12 ip)
  else None.

(** IP.Equal: an IPv4 address and its IPv6 form are equal. *)
Definition Equal (ip x : bytes) : bool :=
  if (length ip =? length x)%nat then bool_decide (ip = x)
  else if (length ip =? 4)%nat && (length x =? 16)%nat then
    bool_decide (take 12 x = v4InV6Prefix) && bool_decide (ip = drop 12 x)
  else if (length ip =? 16)%nat && (length x =? 4)%nat then
    bool_decide (take 12 ip = v4InV6Prefix) && bool_decide (drop 12 ip = x)
  else false.

Definition IPv4zero : bytes := v4InV6Prefix ++ [0; 0; 0; 0].
Definition IPv4bcast : bytes := v4InV6Prefix ++ [255; 255; 255; 255].
Definition IPv6unspecified : bytes := replicate 16 0.

Definition IsUnspecified (ip : bytes) : bool := Equal ip IPv4zero || Equal ip IPv6unspecified.

Definition IsMulticast (ip : bytes) : bool :=
  match To4 ip with
  | Some ip4 => match ip4 with b :: _ => Z.land b 240 =? 224 | [] => false end
  | None => (length ip =? 16)%nat && match ip with b :: _ => b =? 255 | [] => false end
  end.

(** * Masks and networks *)

Fixpoint maskBytes (l : nat) (ones : Z) : bytes :=
  match l with
  | O => []
  | S l => if 8 <=? ones then 255 :: maskBytes l (ones - 8)
           else Z.lxor 255 (Z.shiftr 255 ones) :: maskBytes l 0
  end.

Definition CIDRMask (ones bits : Z) : bytes := maskBytes (Z.to_nat (bits / 8)) ones.

Record IPNet := MkNet { n_IP : bytes; n_Mask : bytes }.

(** IP.Mask. *)
Definition maskIP (ip mask : bytes) : bytes :=
  let mask := if (length mask =? 16)%nat && (length ip =? 4)%nat && bool_decide (take 12 mask = replicate 12 255)
              then drop 12 mask else mask in
  let ip := if (length mask =? 4)%nat && (length ip =? 16)%nat && bool_decide (take 12 ip = v4InV6Prefix)
            then drop 12 ip else ip in
  if (length ip =? length mask)%nat then zip_with Z.land ip mask else [].

Definition networkNumberAndMask (n : IPNet) : bytes * bytes :=
  let ip := match To4 (n_IP n) with
            | Some ip4 => ip4
            | None => if (length (n_IP n) =? 16)%nat then n_IP n else []
            end in
  let m := n_Mask n in
  match ip with
  | [] => ([], [])
  | _ => if (length m =? 4)%nat then if (length ip =? 4)%nat then (ip, m) else ([], [])
         else if (length m =? 16)%nat then if (length ip =? 4)%nat then (ip, drop 12 m) else (ip, m)
         else ([], [])
  end.

Fixpoint sameUnder (m a b : bytes) : bool :=
  match m, a, b with
  | mb :: m, x :: a, y :: b => (Z.land x mb =? Z.land y mb) && sameUnder m a b
  | _, _, _ => true
  end.

(** IPNet.Contains. *)
Definition netContains (n : IPNet) (ip : bytes) : bool :=
  let '(nn, m) := networkNumberAndMask n in
  let ip := match To4 ip with Some x => x | None => ip end in
  if negb (length ip =? length nn)%nat then false else sameUnder m nn ip.

(** * netip.ParseAddr *)

Fixpoint v4_loop (fields : bytes) (val digLen : Z) (s : bytes) : option bytes :=
  match s with
  | [] => if (length fields <? 3)%nat then None else Some (fields ++ [val])
  | c :: s =>
      if (48 <=? c) && (c <=? 57) then
        if (digLen =? 1) && (val =? 0) then None
        else
          let val := val * 10 + (c - 48) in
          if 255 <? val then None else v4_loop fields val (digLen + 1) s
      else if c =? 46 then
        if (digLen =? 0) || match s with [] => true | _ => false end then None
        else if (length fields =? 3)%nat then None
        else v4_loop (fields ++ [val]) 0 0 s
      else None
  end.

Definition parseIPv4Fields (s : bytes) : option bytes := v4_loop [] 0 0 s.

(** One field: its digits, its value, what follows; [None] for more than four. *)
Fixpoint hexField (off : nat) (acc : Z) (s : bytes) : option (nat * Z * bytes) :=
  match s with
  | [] => Some (off, acc, [])
  | c :: s' =>
      match digit c with
      | None => Some (off, acc, s)
      | Some d =>
          let acc := Z.shiftl acc 4 + d in
          if (3 <? off)%nat then None
          else if 65535 <? acc then None
          else hexField (S off) acc s'
      end
  end.

(** The fields of an IPv6 address, two bytes a turn; [fuel] is the number of
    turns left of 8. The bytes so far, where the ellipsis was, what is left. *)
Fixpoint v6_loop (fuel : nat) (ip : bytes) (ellipsis : option nat) (s : bytes) : option (bytes * option nat * bytes) :=
  match fuel with
  | O => Some (ip, ellipsis, s)
  | S fuel =>
      match hexField 0 0 s with
      | None | Some (O, _, _) => None
      | Some (_, acc, rest) =>
          if match rest with c :: _ => c =? 46 | [] => false end then
            if match ellipsis with None => negb (length ip =? 12)%nat | Some _ => false end then None
            else if (16 <? length ip + 4)%nat then None
            else match parseIPv4Fields s with
                 | None => None
                 | Some v4 => Some (ip ++ v4, ellipsis, [])
                 end
          else
            let ip := ip ++ [uint8 (Z.shiftr acc 8); uint8 acc] in
            match rest with
            | [] => Some (ip, ellipsis, [])
            | c :: rest =>
                if negb (c =? 58) then None
                else match rest with
                     | [] => None
                     | c :: rest' =>
                         if c =? 58 then
                           match ellipsis, rest' with
                           | Some _, _ => None
                           | None, [] => Some (ip, Some (length ip), [])
                           | None, _ => v6_loop fuel ip (Some (length ip)) rest'
                           end
                         else v6_loop fuel ip ellipsis rest
                     end
            end
      end
  end.

Definition expand (r : option (bytes * option nat * bytes)) : option bytes :=
  match r with
  | Some (ip, ellipsis, []) =>
      if (length ip <? 16)%nat then
        match ellipsis with
        | None => None
        | Some e => Some (take e ip ++ replicate (16 - length ip) 0 ++ drop e ip)
        end
      else match ellipsis with Some _ => None | None => Some ip end
  | _ => None
  end.

(** An address: its 4 or 16 bytes and its zone. *)
Definition parseIPv6 (s0 : bytes) : option (bytes * bytes) :=
  let parsed := match Cut s0 37 with
                | Some (s, []) => None
                | Some (s, zone) => Some (s, zone)
                | None => Some (s0, [])
                end in
  match parsed with
  | None => None
  | Some (s, zone) =>
      let ip := if HasPrefix s [58; 58] then
                  match drop 2 s with
                  | [] => Some (replicate 16 0)
                  | s => expand (v6_loop 8 [] (Some 0%nat) s)
                  end
                else expand (v6_loop 8 [] None s) in
      (fun ip => (ip, zone)) <$> ip
  end.

Fixpoint firstSpecial (s : bytes) : option Z :=
  match s with
  | [] => None
  | c :: s => if (c =? 46) || (c =? 58) || (c =? 37) then Some c else firstSpecial s
  end.

Definition ParseAddr (s : bytes) : option (bytes * bytes) :=
  match firstSpecial s with
  | Some c => if c =? 46 then (fun v4 => (v4, [])) <$> parseIPv4Fields s
              else if c =? 58 then parseIPv6 s
              else None
  | None => None
  end.

(** Addr.As16. *)
Definition As16 (ip : bytes) : bytes := if (length ip =? 4)%nat then v4InV6Prefix ++ ip else ip.

(** net.ParseIP: always 16 bytes, or nil. *)
Definition ParseIP (s : bytes) : bytes :=
  match ParseAddr s with
  | Some (ip, []) => As16 ip
  | _ => []
  end.

(** dtoi: the value of the leading digits and their number; [None] without a
    digit or from 0xFFFFFF on. *)
Fixpoint dtoi_loop (n : Z) (i : nat) (s : bytes) : option (Z * nat) :=
  match s with
  | [] => if (i =? 0)%nat then None else Some (n, i)
  | c :: s =>
      if (48 <=? c) && (c <=? 57) then
        let n := n * 10 + (c - 48) in
        if 16777215 <=? n then None else dtoi_loop n (S i) s
      else if (i =? 0)%nat then None else Some (n, i)
  end.

(** net.ParseCIDR: the network. *)
Definition ParseCIDR (s : bytes) : option IPNet :=
  match Cut s 47 with
  | None => None
  | Some (addr, mask) =>
      match ParseAddr addr with
      | Some (ip, []) =>
          let bits := 8 * Z.of_nat (length ip) in
          match dtoi_loop 0 0 mask with
          | Some (n, i) =>
              if negb (i =? length mask)%nat || (n <? 0) || (bits <? n) then None
              else let m := CIDRMask n bits in Some (MkNet (maskIP (As16 ip) m) m)
          | None => None
          end
      | _ => None
      end
  end.

(** * IP.String *)

Definition join (sep : bytes) (l : list bytes) : bytes :=
  match l with
  | [] => []
  | x :: l => x ++ concat ((fun y => sep ++ y) <$> l)
  end.

Fixpoint groups (ip : bytes) : list Z :=
  match ip with
  | a :: b :: ip => (a * 256 + b) :: groups ip
  | _ => []
  end.

Fixpoint zrun (gs : list Z) : nat :=
  match gs with
  | 0 :: gs => S (zrun gs)
  | _ => O
  end.

(** The first of the longest runs of at least two zero groups. *)
Definition zeroSpan (gs : list Z) : nat * nat :=
  foldl (fun best i =>
    let l := zrun (drop i gs) in
    if (2 <=? l)%nat && (best.2 - best.1 <? l)%nat then (i, i + l)%nat else best)
    (0, 0)%nat (seq 0 8).

Definition hex (g : Z) : bytes := FormatUint g 16.

Definition string6 (ip : bytes) : bytes :=
  let gs := groups ip in
  let '(a, b) := zeroSpan gs in
  if (b - a =? 0)%nat then join [58] (hex <$> gs)
  else join [58] (hex <$> take a gs) ++ [58; 58] ++ join [58] (hex <$> drop b gs).

(** For 4 or 16 bytes. *)
Definition IPString (ip : bytes) : bytes :=
  match To4 ip with
  | Some p4 => join [46] (Itoa <$> p4)
  | None => string6 ip
  end.

(** * net.SplitHostPort: the host *)

Definition lastIndex (s : bytes) (c : Z) : option nat := (fun i => (length s - 1 - i)%nat) <$> IndexByte (rev s) c.

Definition SplitHostPort (hostport : bytes) : option (bytes * bytes) :=
  match lastIndex hostport 58 with
  | None => None
  | Some i =>
      let check host j k :=
        if ContainsByte (drop j hostport) 91 || ContainsByte (drop k hostport) 93 then None
        else Some (host, drop (S i) hostport) in
      match hostport with
      | 91 :: _ =>
          match IndexByte hostport 93 with
          | None => None
          | Some e =>
              if (S e =? i)%nat then check (take (e - 1) (drop 1 hostport)) 1%nat (S e)
              else None
          end
      | _ =>
          let host := take i hostport in
          if ContainsByte host 58 then None else check host 0%nat 0%nat
      end
  end.

(** * What a mask keeps *)

Definition is_addr (ip : bytes) : Prop := (length ip = 4%nat \/ length ip = 16%nat) /\ Forall is_byte ip.

Lemma is_addr_check ip :
  ((length ip =? 4)%nat || (length ip =? 16)%nat) && forallb (fun b => (0 <=? b) && (b <? 256)) ip = true -> is_addr ip.
Proof.
  intros [Hl Hb]%andb_true_iff. split.
  - by apply orb_true_iff in Hl as [?%Nat.eqb_eq|?%Nat.eqb_eq]; [left|right].
  - apply Forall_forall. intros b Hin. rewrite forallb_forall in Hb. specialize (Hb b (proj1 (list_elem_of_In _ _) Hin)).
    apply andb_true_iff in Hb as [?%Z.leb_le ?%Z.ltb_lt]. done.
Qed.

(** The number an address is, most significant byte first. *)
Fixpoint num (ip : bytes) : Z :=
  match ip with
  | [] => 0
  | b :: ip => b * 2 ^ (8 * Z.of_nat (length ip)) + num ip
  end.

Lemma num_range ip : Forall is_byte ip -> 0 <= num ip < 2 ^ (8 * Z.of_nat (length ip)).
Proof.
  induction 1 as [|b ip Hb Hip IH]; [done|]. cbn [num length]. unfold is_byte in Hb.
  replace (8 * Z.of_nat (S (length ip))) with (8 + 8 * Z.of_nat (length ip)) by lia.
  rewrite Z.pow_add_r by lia. change (2 ^ 8) with 256. nia.
Qed.

Lemma digit_inj p x y a b : 0 <= a < p -> 0 <= b < p -> x * p + a = y * p + b <-> x = y /\ a = b.
Proof.
  intros Ha Hb. split; [|by intros [-> ->]]. intros He.
  assert (x = y) as -> by nia. split; [done|lia].
Qed.

Lemma num_inj a b : Forall is_byte a -> Forall is_byte b -> length a = length b -> num a = num b -> a = b.
Proof.
  intros Ha. revert b. induction Ha as [|x a Hx Ha IH]; intros [|y b] Hb Hl; try done.
  apply Forall_cons in Hb as [Hy Hb]. injection Hl as Hl. cbn [num]. rewrite <- Hl.
  pose proof (num_range a Ha). pose proof (num_range b Hb) as Hn. rewrite <- Hl in Hn.
  intros [-> He]%digit_inj; [|done|done]. f_equal. by apply IH.
Qed.

Lemma land_high b n : is_byte b -> 0 <= n < 8 ->
  Z.land b (Z.lxor 255 (Z.shiftr 255 n)) = b / 2 ^ (8 - n) * 2 ^ (8 - n).
Proof.
  intros Hb Hn.
  assert (forallb (fun n => forallb (fun b => Z.land b (Z.lxor 255 (Z.shiftr 255 n)) =? b / 2 ^ (8 - n) * 2 ^ (8 - n))
    (seqZ 0 256)) (seqZ 0 8) = true) as H by (vm_compute; reflexivity).
  rewrite forallb_forall in H. specialize (H n ltac:(by apply list_elem_of_In, elem_of_seqZ)).
  rewrite forallb_forall in H. by apply Z.eqb_eq, H, list_elem_of_In, elem_of_seqZ.
Qed.

Lemma sameUnder_zeros l a b : length a = l -> length b = l -> sameUnder (maskBytes l 0) a b = true.
Proof.
  revert a b. induction l as [|l IH]; intros [|x a] [|y b] Ha Hb; try done. cbn.
  rewrite !Z.land_0_r, Z.eqb_refl. apply IH; by injection Ha; injection Hb.
Qed.

(** Two addresses agree under a mask when their leading bits do. *)
Lemma sameUnder_num l n a b :
  Forall is_byte a -> Forall is_byte b -> length a = l -> length b = l -> 0 <= n <= 8 * Z.of_nat l ->
  sameUnder (maskBytes l n) a b = true <->
  num a / 2 ^ (8 * Z.of_nat l - n) = num b / 2 ^ (8 * Z.of_nat l - n).
Proof.
  revert n a b. induction l as [|l IH]; intros n [|x a] [|y b] Ha Hb Hla Hlb Hn; try done.
  apply Forall_cons in Ha as [Hx Ha]. apply Forall_cons in Hb as [Hy Hb].
  injection Hla as Hla. injection Hlb as Hlb. cbn [maskBytes num]. rewrite Hla, Hlb.
  pose proof (num_range a Ha) as Ra. pose proof (num_range b Hb) as Rb. rewrite Hla in Ra. rewrite Hlb in Rb.
  unfold is_byte in Hx, Hy.
  destruct (Z.leb_spec 8 n) as [H8|H8]; cbn [sameUnder]; rewrite andb_true_iff, Z.eqb_eq.
  - change 255 with (Z.ones 8) at 1 2. rewrite !Z.land_ones, !Z.mod_small by (change (2 ^ 8) with 256; lia).
    rewrite IH by (done || lia).
    replace (8 * Z.of_nat (S l) - n) with (8 * Z.of_nat l - (n - 8)) by lia.
    set (k := 8 * Z.of_nat l - (n - 8)). assert (2 ^ (8 * Z.of_nat l) = 2 ^ (n - 8) * 2 ^ k) as ->.
    { unfold k. rewrite <- Z.pow_add_r by lia. f_equal. lia. }
    rewrite !(Z.mul_assoc _ (2 ^ (n - 8))), !Z.div_add_l by lia.
    assert (forall c, 0 <= num c < 2 ^ (8 * Z.of_nat l) -> 0 <= num c / 2 ^ k < 2 ^ (n - 8)) as Hd.
    { intros c Hc. assert (0 <= k) by (unfold k; lia). split; [apply Z.div_pos; lia|]. apply Z.div_lt_upper_bound; [lia|].
      rewrite <- Z.pow_add_r by lia. replace (k + (n - 8)) with (8 * Z.of_nat l) by (unfold k; lia). lia. }
    symmetry. apply digit_inj; by apply Hd.
  - rewrite !land_high by (done || lia). rewrite sameUnder_zeros by done.
    replace (8 * Z.of_nat (S l) - n) with (8 * Z.of_nat l + (8 - n)) by lia. rewrite Z.pow_add_r by lia.
    rewrite <- !Z.div_div by lia. rewrite !Z.div_add_l by lia. rewrite !(Z.div_small (num _)) by lia.
    rewrite !Z.add_0_r. assert (0 < 2 ^ (8 - n)) by lia. split; [intros [E1 _]; nia|]. intros ->. done.
Qed.

(** A check of every number with at most [k] bits after [base]. *)
Fixpoint all_below (P : Z -> bool) (k : nat) (base : Z) : bool :=
  match k with
  | O => P base
  | S k => all_below P k (2 * base) && all_below P k (2 * base + 1)
  end.

Lemma all_below_spec P k base z : all_below P k base = true ->
  base * 2 ^ Z.of_nat k <= z < (base + 1) * 2 ^ Z.of_nat k -> P z = true.
Proof.
  revert base. induction k as [|k IH]; intros base; cbn [all_below].
  - intros H Hz. change (2 ^ Z.of_nat 0) with 1 in Hz. by replace z with base by lia.
  - intros [H1 H2]%andb_true_iff Hz. rewrite Nat2Z.inj_succ, Z.pow_succ_r in Hz by lia.
    destruct (Z.lt_ge_cases z ((2 * base + 1) * 2 ^ Z.of_nat k)); [apply (IH _ H1)|apply (IH _ H2)]; lia.
Qed.

Lemma below_check P k : all_below P k 0 = true -> forall z, 0 <= z < 2 ^ Z.of_nat k -> P z = true.
Proof. intros H z Hz. apply (all_below_spec P k 0 z H). lia. Qed.

Lemma To4_length ip x : To4 ip = Some x -> length x = 4%nat.
Proof.
  unfold To4. destruct (Nat.eqb_spec (length ip) 4); [by intros [= <-]|].
  destruct (Nat.eqb_spec (length ip) 16); cbn [andb]; [|done]. case_bool_decide; [|done]. intros [= <-].
  rewrite length_drop. lia.
Qed.

Lemma To4_bytes ip x : Forall is_byte ip -> To4 ip = Some x -> Forall is_byte x.
Proof.
  intros Hb. unfold To4. destruct (length ip =? 4)%nat; [by intros [= <-]|].
  destruct (_ && _); [|done]. intros [= <-]. by apply Forall_drop.
Qed.

Lemma To4_mapped x : length x = 4%nat -> To4 (v4InV6Prefix ++ x) = Some x.
Proof. by destruct x as [|a [|b [|c [|d [|e x]]]]]. Qed.

Lemma To4_Some ip x : To4 ip = Some x -> ip = x \/ ip = v4InV6Prefix ++ x.
Proof.
  unfold To4. destruct (length ip =? 4)%nat; [intros [= <-]; by left|].
  destruct (_ && bool_decide _) eqn:E; [|done]. apply andb_true_iff in E as [_ E%bool_decide_eq_true_1].
  intros [= <-]. right. rewrite <- (take_drop 12 ip) at 1. by rewrite E.
Qed.

(** The address behind the two forms of an IPv4 address, or an IPv6 one. *)
Inductive addr := A4 (z : Z) | A6 (z : Z).

Definition addrOf (ip : bytes) : addr :=
  match To4 ip with
  | Some ip4 => A4 (num ip4)
  | None => A6 (num ip)
  end.

Lemma addrOf_As16 ip : is_addr ip -> addrOf (As16 ip) = addrOf ip.
Proof.
  intros [Hl _]. unfold As16, addrOf. destruct (Nat.eqb_spec (length ip) 4) as [E|E]; [|done].
  rewrite To4_mapped by done. unfold To4. by rewrite (proj2 (Nat.eqb_eq _ _) E).
Qed.

(** The shorter form of an address. *)
Definition canon (ip : bytes) : bytes := match To4 ip with Some ip4 => ip4 | None => ip end.

(** A network whose number and mask are [nn] and [ones] leading ones. *)
Lemma netContains_num n nn l ones ip :
  networkNumberAndMask n = (nn, maskBytes l ones) -> length nn = l -> Forall is_byte nn -> 0 <= ones <= 8 * Z.of_nat l ->
  Forall is_byte ip ->
  netContains n ip = true <->
  length (canon ip) = l /\
  num nn / 2 ^ (8 * Z.of_nat l - ones) = num (canon ip) / 2 ^ (8 * Z.of_nat l - ones).
Proof.
  intros Hn Hl Hb Ho Hip. unfold netContains. rewrite Hn. fold (canon ip).
  assert (Forall is_byte (canon ip)) as Hx.
  { unfold canon. destruct (To4 ip) eqn:E; [by eapply To4_bytes|done]. }
  rewrite Hl. destruct (Nat.eqb_spec (length (canon ip)) l) as [El|El]; cbn [negb].
  - rewrite sameUnder_num by done. tauto.
  - split; [done|]. by intros [? _].
Qed.

(** Equality of addresses. *)
Lemma Equal_addrOf a b : is_addr a -> is_addr b -> Equal a b = true <-> addrOf a = addrOf b.
Proof.
  intros [La Ba] [Lb Bb]. unfold Equal, addrOf, To4.
  assert (forall x : bytes, length x = 16%nat -> take 12 x = v4InV6Prefix -> x = v4InV6Prefix ++ drop 12 x) as Hs.
  { intros x _ <-. by rewrite take_drop. }
  pose proof (Forall_drop _ 12 _ Ba). pose proof (Forall_drop _ 12 _ Bb).
  destruct La as [La|La], Lb as [Lb|Lb]; rewrite La, Lb; cbn [Nat.eqb andb].
  - rewrite bool_decide_eq_true. split; [by intros ->|]. intros [= E]. apply num_inj; [done..|lia|done].
  - rewrite andb_true_iff, !bool_decide_eq_true. case_bool_decide as E.
    + split; [intros [_ ->]; done|]. intros [= En]. split; [done|]. apply num_inj; [done..|rewrite length_drop; lia|done].
    + split; [intros [? _]; done|done].
  - rewrite andb_true_iff, !bool_decide_eq_true. case_bool_decide as E.
    + split; [intros [_ <-]; done|]. intros [= En]. split; [done|]. apply num_inj; [done..|rewrite length_drop; lia|done].
    + split; [intros [? _]; done|done].
  - rewrite bool_decide_eq_true. case_bool_decide as E1; case_bool_decide as E2.
    + split; [by intros ->|]. intros [= En]. rewrite (Hs a), (Hs b) by done. f_equal.
      apply num_inj; [done..|rewrite !length_drop; lia|done].
    + split; [by intros ->|done].
    + split; [by intros ->|done].
    + split; [by intros ->|]. intros [= En]. apply num_inj; [done..|lia|done].
Qed.

(** * What the parser returns *)

Lemma uint8_byte z : is_byte (uint8 z).
Proof. apply uint8_range. Qed.

Lemma v4_loop_addr s fields val dl v : Forall is_byte fields -> 0 <= val < 256 -> (length fields <= 3)%nat ->
  v4_loop fields val dl s = Some v -> length v = 4%nat /\ Forall is_byte v.
Proof.
  revert fields val dl. induction s as [|c s IH]; intros fields val dl Hf Hv Hl; cbn [v4_loop].
  - destruct (Nat.ltb_spec (length fields) 3); [done|]. intros [= <-]. rewrite length_app. cbn. split; [lia|].
    apply Forall_app. split; [done|]. constructor; [exact Hv|constructor].
  - destruct (_ && _) eqn:Hd.
    + destruct ((dl =? 1) && _); [discriminate|]. destruct (Z.ltb_spec 255 (val * 10 + (c - 48))); [discriminate|]. bool_to_prop. apply IH; [done|lia|done].
    + destruct (c =? 46); [|discriminate]. destruct (_ || _); [discriminate|].
      destruct (Nat.eqb_spec (length fields) 3); [discriminate|].
      apply IH; [|lia|rewrite length_app; cbn; lia]. apply Forall_app. split; [done|]. constructor; [exact Hv|constructor].
Qed.

Lemma parseIPv4Fields_addr s v : parseIPv4Fields s = Some v -> length v = 4%nat /\ Forall is_byte v.
Proof. apply v4_loop_addr; [constructor|lia|cbn; lia]. Qed.

Definition v6_ok (r : bytes * option nat * bytes) : Prop :=
  Forall is_byte r.1.1 /\ (length r.1.1 <= 16)%nat /\ forall e, r.1.2 = Some e -> (e <= length r.1.1)%nat.

Lemma v6_loop_ok fuel ip ell s r : (length ip + 2 * fuel <= 16)%nat -> v6_ok (ip, ell, s) ->
  v6_loop fuel ip ell s = Some r -> v6_ok r.
Proof.
  unfold v6_ok. cbn [fst snd]. revert ip ell s. induction fuel as [|fuel IH]; intros ip ell s Hl (Hb & H16 & He); cbn [v6_loop fst snd].
  { intros [= <-]. done. }
  destruct (hexField 0 0 s) as [[[[|off] acc] rest]|]; try done.
  assert (Forall is_byte (ip ++ [uint8 (Z.shiftr acc 8); uint8 acc])) as Hb2.
  { apply Forall_app. split; [done|]. repeat constructor; apply uint8_range. }
  assert (length (ip ++ [uint8 (Z.shiftr acc 8); uint8 acc]) = length ip + 2)%nat as Hl2 by (by rewrite length_app).
  assert (forall e, ell = Some e -> (e <= length (ip ++ [uint8 (Z.shiftr acc 8); uint8 acc]))%nat) as He2.
  { intros e E. rewrite Hl2. specialize (He e E). lia. }
  set (ip2 := ip ++ _) in *.
  destruct (match rest with [] => false | _ => _ end).
  { destruct (match ell with None => _ | Some _ => _ end); [done|]. destruct (Nat.ltb_spec 16 (length ip + 4)); [done|].
    destruct (parseIPv4Fields s) as [v4|] eqn:E4; [|done]. apply parseIPv4Fields_addr in E4 as [E4 E4b]. intros [= <-]. cbn.
    rewrite length_app. split; [by apply Forall_app|]. split; [lia|]. intros e E. specialize (He e E). lia. }
  destruct rest as [|c rest]; [intros [= <-]; cbn; split; [done|]; split; [lia|done]|].
  destruct (negb _); [done|]. destruct rest as [|c2 rest]; [done|]. destruct (c2 =? 58).
  - destruct ell; [done|]. destruct rest as [|c3 rest].
    + intros [= <-]. cbn. split; [done|]. split; [lia|]. by intros e [= <-].
    + apply IH; [lia|]. split; [done|]. split; [lia|]. by intros e [= <-].
  - apply IH; [lia|]. split; [done|]. split; [lia|done].
Qed.

Lemma expand_addr r ip : (forall x, r = Some x -> v6_ok x) -> expand r = Some ip -> length ip = 16%nat /\ Forall is_byte ip.
Proof.
  unfold expand. destruct r as [[[x ell] [|? ?]]|]; [|done..]. intros H. destruct (H _ eq_refl) as (Hb & Hl & He). cbn [fst snd] in *.
  destruct (Nat.ltb_spec (length x) 16) as [H16|H16].
  - destruct ell as [e|]; [|done]. intros [= <-]. specialize (He e eq_refl).
    rewrite !length_app, length_take, length_replicate, length_drop. split; [lia|].
    rewrite !Forall_app. split; [by apply Forall_take|]. split; [|by apply Forall_drop]. apply Forall_replicate. unfold is_byte. lia.
  - destruct ell; [done|]. intros [= <-]. split; [lia|done].
Qed.

Lemma parseIPv6_addr s ip z : parseIPv6 s = Some (ip, z) -> length ip = 16%nat /\ Forall is_byte ip.
Proof.
  assert (forall ell t, (forall e, ell = Some e -> e = 0%nat) -> forall x, v6_loop 8 [] ell t = Some x -> v6_ok x) as Hok.
  { intros ell t He x. apply v6_loop_ok; [cbn; lia|]. split; [constructor|]. cbn. split; [lia|]. intros e E. by rewrite (He e E). }
  assert (forall t z0, (fun ip => (ip, z0)) <$> (if HasPrefix t [58; 58] then
      match drop 2 t with [] => Some (replicate 16 0) | s => expand (v6_loop 8 [] (Some 0%nat) s) end
      else expand (v6_loop 8 [] None t)) = Some (ip, z) -> length ip = 16%nat /\ Forall is_byte ip) as H.
  { intros t z0 [x [Hx [= -> _]]]%fmap_Some. revert Hx. destruct (HasPrefix t [58; 58]).
    - destruct (drop 2 t) as [|c u]; [|by apply expand_addr, Hok; intros e [= <-]].
      intros [= <-]. split; [done|]. by repeat constructor.
    - apply expand_addr, Hok. done. }
  unfold parseIPv6. destruct (Cut s 37) as [[t [|c zone]]|]; [done|apply H|apply H].
Qed.

Lemma ParseAddr_addr s ip z : ParseAddr s = Some (ip, z) -> is_addr ip.
Proof.
  unfold ParseAddr. destruct (firstSpecial s) as [c|]; [|done].
  assert (forall r, r = (fun v4 : bytes => (v4, @nil Z)) <$> parseIPv4Fields s -> r = Some (ip, z) -> is_addr ip) as H4.
  { intros r -> Hr. destruct (parseIPv4Fields s) as [v|] eqn:E; [|done]. injection Hr as -> <-.
    apply parseIPv4Fields_addr in E as [? ?]. split; [by left|done]. }
  destruct (c =? 46); [by apply H4|]. destruct (c =? 58); [|done]. intros E. apply parseIPv6_addr in E as [? ?]. split; [by right|done].
Qed.

Lemma As16_addr ip : is_addr ip -> length (As16 ip) = 16%nat /\ Forall is_byte (As16 ip).
Proof.
  intros [Hl Hb]. unfold As16. destruct (Nat.eqb_spec (length ip) 4) as [E|E]; [|destruct Hl; [lia|done]].
  rewrite length_app, E. split; [done|]. apply Forall_app. split; [|done]. by repeat constructor.
Qed.

Lemma ParseIP_addr s : ParseIP s <> [] -> length (ParseIP s) = 16%nat /\ Forall is_byte (ParseIP s).
Proof.
  unfold ParseIP. destruct (ParseAddr s) as [[ip [|? ?]]|] eqn:E; [|done..]. intros _.
  by apply As16_addr, (ParseAddr_addr s _ []).
Qed.

(** * Printing and parsing back *)

Fixpoint v4_digits (val dl : Z) (ds : bytes) : option (Z * Z) :=
  match ds with
  | [] => Some (val, dl)
  | c :: ds =>
      if (48 <=? c) && (c <=? 57) && negb ((dl =? 1) && (val =? 0)) && negb (255 <? val * 10 + (c - 48))
      then v4_digits (val * 10 + (c - 48)) (dl + 1) ds else None
  end.

Lemma v4_loop_digits fields ds val dl v d s :
  v4_digits val dl ds = Some (v, d) -> v4_loop fields val dl (ds ++ s) = v4_loop fields v d s.
Proof.
  revert val dl. induction ds as [|c ds IH]; intros val dl; cbn [v4_digits app]; [by intros [= -> ->]|].
  destruct ((48 <=? c) && (c <=? 57)) eqn:Ec; [|done].
  destruct ((dl =? 1) && (val =? 0)) eqn:Ez; [done|]. destruct (255 <? val * 10 + (c - 48)) eqn:Eo; [done|].
  intros H. cbn [v4_loop]. rewrite Ec, Ez, Eo. by apply IH.
Qed.

Lemma octet_digits b : is_byte b ->
  exists d, v4_digits 0 0 (Itoa b) = Some (b, d) /\ d <> 0 /\ Forall is_digit10 (Itoa b) /\ Itoa b <> [].
Proof.
  intros Hb.
  assert ((match v4_digits 0 0 (Itoa b) with Some (v, d) => (v =? b) && negb (d =? 0) | None => false end) = true) as H.
  { apply (below_check (fun b => match v4_digits 0 0 (Itoa b) with Some (v, d) => (v =? b) && negb (d =? 0) | None => false end) 8);
      [vm_compute; reflexivity|exact Hb]. }
  destruct (v4_digits 0 0 (Itoa b)) as [[v d]|] eqn:E; [|done]. bool_to_prop. subst v. exists d. split; [done|]. split; [done|].
  split; [apply Itoa_digits; unfold is_byte in Hb; lia|]. intros E0. rewrite E0 in E. injection E as _ <-. done.
Qed.

Lemma v4_loop_octet fields b s : is_byte b ->
  exists d, d <> 0 /\ v4_loop fields 0 0 (Itoa b ++ s) = v4_loop fields b d s.
Proof. intros Hb. destruct (octet_digits b Hb) as (d & H & Hd & _). exists d. split; [done|]. by apply v4_loop_digits. Qed.

Lemma v4_loop_dot fields b s : (length fields < 3)%nat -> s <> [] -> is_byte b ->
  v4_loop fields 0 0 (Itoa b ++ 46 :: s) = v4_loop (fields ++ [b]) 0 0 s.
Proof.
  intros Hl Hs Hb. destruct (v4_loop_octet fields b (46 :: s) Hb) as (d & Hd & ->). cbn [v4_loop].
  rewrite (proj2 (Z.eqb_neq d 0)) by done. destruct s; [done|]. cbn [orb andb Z.leb Z.eqb Pos.eqb].
  rewrite (proj2 (Nat.eqb_neq _ _)) by lia. done.
Qed.

Lemma parse_dotted x : length x = 4%nat -> Forall is_byte x -> parseIPv4Fields (join [46] (Itoa <$> x)) = Some x.
Proof.
  intros Hl Hb. destruct x as [|a [|b [|c [|d [|]]]]]; try done. clear Hl.
  inversion Hb as [|? ? Ba B1]; inversion B1 as [|? ? Bb B2]; inversion B2 as [|? ? Bc B3]; inversion B3 as [|? ? Bd _]; subst.
  unfold parseIPv4Fields. cbn [join fmap list_fmap concat app]. rewrite app_nil_r.
  destruct (octet_digits d Bd) as (_ & _ & _ & _ & Hd).
  rewrite !v4_loop_dot by (done || (cbn; lia) || (by intros E; apply app_eq_nil in E as [_ E]) || (by destruct (Itoa d))).
  destruct (v4_loop_octet [a; b; c] d [] Bd) as (n & _ & E). rewrite app_nil_r in E. cbn [app]. rewrite E. reflexivity.
Qed.

Definition hexc (c : Z) : bool := ((48 <=? c) && (c <=? 57)) || ((97 <=? c) && (c <=? 102)).

Lemma hexField_app ds o a off acc rest :
  hexField off acc ds = Some (o, a, []) -> match rest with c :: _ => digit c = None | [] => True end ->
  hexField off acc (ds ++ rest) = Some (o, a, rest).
Proof.
  intros H Hr. revert off acc H. induction ds as [|c ds IH]; intros off acc; cbn [hexField app].
  - intros [= -> ->]. destruct rest as [|c rest]; [done|]. cbn [hexField]. by rewrite Hr.
  - destruct (digit c) as [d|]; [|done]. destruct (3 <? off)%nat; [done|]. destruct (65535 <? _); [done|]. apply IH.
Qed.

Lemma hexField_digits s off acc v : digits 16 acc s = Some v -> v <= 65535 -> 0 <= acc -> (off + length s <= 4)%nat ->
  hexField off acc s = Some ((off + length s)%nat, v, []).
Proof.
  intros H Hv. revert off acc H. induction s as [|c s IH]; intros off acc; cbn [digits hexField length]; [intros [= ->] _ _; by rewrite Nat.add_0_r|].
  destruct (digit c) as [d|] eqn:Ed; [|done]. pose proof (digit_range _ _ Ed) as Hdr. rewrite (proj2 (Z.ltb_lt d 16)) by lia.
  intros H Ha Hl. pose proof (digits_mono 16 _ _ _ H ltac:(lia) ltac:(lia)). rewrite Z.shiftl_mul_pow2 by lia. change (2 ^ 4) with 16.
  rewrite (proj2 (Nat.ltb_ge 3 off)) by lia. rewrite (proj2 (Z.ltb_ge _ _)) by lia. rewrite IH by (done || lia). by rewrite Nat.add_succ_r.
Qed.

Lemma hex_parses g : 0 <= g < 65536 ->
  (exists o, hexField 0 0 (hex g) = Some (S o, g, [])) /\ (exists c t, hex g = c :: t /\ hexc c = true) /\ forallb hexc (hex g) = true.
Proof.
  intros Hg. pose proof (FormatUint_digits 16 g ltac:(lia) ltac:(lia)) as Hd.
  pose proof (format_length_pow 4 64 16 g [] ltac:(lia) ltac:(lia) ltac:(change (16 ^ Z.of_nat 4) with 65536; lia)) as Hl.
  assert (Forall (fun c => hexc c = true) (hex g)) as Hc.
  { apply format_all; [lia..| |constructor]. intros d Hd'. unfold hexc, digitChar. destruct (Z.ltb_spec d 10); bool_to_prop; lia. }
  pose proof (hexField_digits (hex g) 0 0 g Hd ltac:(lia) ltac:(lia) Hl) as Hf.
  destruct (format_cons 64 16 g [] ltac:(lia)) as (c & t & E). change (hex g = c :: t) in E. split; [rewrite Hf, E; by eexists|].
  split; [exists c, t; rewrite E in Hc; by apply Forall_cons in Hc as [? _]|].
  apply forallb_forall. intros x Hx%list_elem_of_In. by apply (proj1 (Forall_forall _ _) Hc).
Qed.

Definition ungroup (gs : list Z) : bytes := concat ((fun g => [uint8 (Z.shiftr g 8); uint8 g]) <$> gs).
Definition is_group (g : Z) : Prop := 0 <= g < 65536.

Lemma ungroup_length gs : length (ungroup gs) = (2 * length gs)%nat.
Proof. unfold ungroup. induction gs as [|g gs IH]; [done|]. cbn in *. lia. Qed.

Lemma ungroup_app a b : ungroup (a ++ b) = ungroup a ++ ungroup b.
Proof. unfold ungroup. by rewrite fmap_app, concat_app. Qed.

Lemma ungroup_zeros n : ungroup (replicate n 0) = replicate (2 * n) 0.
Proof. induction n as [|n IH]; [done|]. replace (2 * S n)%nat with (S (S (2 * n))) by lia. cbn in *. unfold ungroup in IH. by rewrite IH. Qed.

Lemma groups_spec l ip : length ip = (2 * l)%nat -> Forall is_byte ip ->
  ungroup (groups ip) = ip /\ Forall is_group (groups ip) /\ length (groups ip) = l.
Proof.
  revert ip. induction l as [|l IH]; intros ip Hl Hb; [destruct ip; [by repeat constructor|done]|].
  destruct ip as [|a [|b ip]]; try (cbn in Hl; lia).
  apply Forall_cons in Hb as [Ha [Hb Hip]%Forall_cons]. destruct (IH ip ltac:(cbn in Hl; lia) Hip) as (H1 & H2 & H3).
  unfold is_byte in *. cbn [groups]. split; [|split; [|cbn; lia]].
  - unfold ungroup in *. cbn [fmap list_fmap concat app]. rewrite H1. f_equal; [|f_equal].
    + rewrite Z.shiftr_div_pow2 by lia. change (2 ^ 8) with 256. rewrite Z.div_add_l, Z.div_small, Z.add_0_r by lia. by apply uint8_id.
    + unfold uint8, wrapU. change (2 ^ 8) with 256. rewrite Z.add_comm, Z.mod_add, Z.mod_small; lia.
  - apply Forall_cons. split; [|done]. unfold is_group. lia.
Qed.

(** What the loop does after the fields before the end or before the ellipsis. *)
Definition v6_after (n : nat) (ip : bytes) (ell : option nat) (rest : bytes) : option (bytes * option nat * bytes) :=
  match rest with
  | [] => Some (ip, ell, [])
  | _ => match drop 2 rest with
         | [] => Some (ip, Some (length ip), [])
         | t => v6_loop n ip (Some (length ip)) t
         end
  end.

Lemma v6_loop_groups gs n ip ell rest :
  gs <> [] -> Forall is_group gs -> rest = [] \/ (ell = None /\ exists t, rest = 58 :: 58 :: t) ->
  v6_loop (length gs + n) ip ell (join [58] (hex <$> gs) ++ rest) = v6_after n (ip ++ ungroup gs) ell rest.
Proof.
  intros Hne Hg Hr. revert ip. induction Hg as [|g gs Hg Hgs IH]; [done|]. intros ip.
  destruct (hex_parses g Hg) as ((o & Ho) & _ & _). cbn [length Nat.add fmap list_fmap join].
  assert (forall s, match s with c :: _ => digit c = None | [] => True end ->
    hexField 0 0 (hex g ++ s) = Some (S o, g, s)) as Hs by (intros s; by apply hexField_app).
  destruct gs as [|g2 gs].
  - cbn [fmap list_fmap concat]. rewrite app_nil_r. cbn [v6_loop length Nat.add]. rewrite Hs by (by destruct Hr as [->|(_ & t & ->)]).
    unfold ungroup. cbn [fmap list_fmap concat app]. destruct Hr as [->|(-> & t & ->)]; [done|]. cbn [drop v6_after Z.eqb Pos.eqb negb].
    by destruct t.
  - cbn [fmap list_fmap concat]. rewrite <- !app_assoc.
    change (concat ((fun y : list Z => [58] ++ y) <$> list_fmap Z (list Z) hex gs)) with (concat ((fun y : list Z => [58] ++ y) <$> (hex <$> gs))).
    cbn [v6_loop]. rewrite (Hs ([58] ++ _)) by done. cbn [app Z.eqb Pos.eqb negb].
    specialize (IH ltac:(done) (ip ++ [uint8 (Z.shiftr g 8); uint8 g])).
    rewrite <- app_assoc in IH. change ([uint8 (Z.shiftr g 8); uint8 g] ++ ungroup (g2 :: gs)) with (ungroup (g :: g2 :: gs)) in IH.
    rewrite <- IH. cbn [fmap list_fmap join]. rewrite <- app_assoc.
    destruct (hex_parses g2 ltac:(by apply Forall_cons in Hgs as [? _])) as (_ & (c & t & Ht & Hc) & _).
    rewrite Ht. cbn [app]. assert (c =? 58 = false) as ->; [|done].
    apply Z.eqb_neq. intros ->. done.
Qed.

Lemma zrun_zeros gs : take (zrun gs) gs = replicate (zrun gs) 0 /\ (zrun gs <= length gs)%nat.
Proof.
  induction gs as [|g gs [IH1 IH2]]; [done|]. cbn [zrun]. destruct g as [|g|g]; cbn; try (split; [done|lia]).
  rewrite IH1. split; [done|]. lia.
Qed.

Lemma zeroSpan_spec gs : length gs = 8%nat ->
  let '(a, b) := zeroSpan gs in
  (a <= b <= 8)%nat /\ gs = take a gs ++ replicate (b - a) 0 ++ drop b gs.
Proof.
  intros Hl. unfold zeroSpan.
  set (P := fun s : nat * nat => (s.1 <= s.2 <= 8)%nat /\ gs = take s.1 gs ++ replicate (s.2 - s.1) 0 ++ drop s.2 gs).
  assert (forall l s, (forall i, i ∈ l -> (i < 8)%nat) -> P s -> P (foldl (fun best i =>
    if (2 <=? zrun (drop i gs))%nat && (best.2 - best.1 <? zrun (drop i gs))%nat then (i, i + zrun (drop i gs))%nat else best) s l)) as H.
  { induction l as [|i l IH]; intros s Hi Hs; [done|]. cbn [foldl]. apply IH; [intros; apply Hi; by right|].
    destruct (_ && _); [|done]. destruct (zrun_zeros (drop i gs)) as [H1 H2]. rewrite length_drop in H2.
    specialize (Hi i ltac:(by left)). unfold P. cbn [fst snd]. split; [lia|].
    replace (i + zrun (drop i gs) - i)%nat with (zrun (drop i gs)) by lia. rewrite <- H1, <- drop_drop.
    by rewrite take_drop, take_drop. }
  specialize (H (seq 0 8) (0, 0)%nat). cbv zeta. destruct (foldl _ _ _) as [a b]. apply H.
  - intros i Hi%elem_of_seq. lia.
  - unfold P. cbn. split; [lia|done].
Qed.

Lemma hexc_char c : hexc c = true -> (c =? 46) || (c =? 58) || (c =? 37) = false.
Proof.
  unfold hexc. intros [H|H]%orb_true_iff; apply andb_true_iff in H as [?%Z.leb_le ?%Z.leb_le];
    rewrite !orb_false_iff, !Z.eqb_neq; lia.
Qed.

Lemma join_hex_chars gs c : Forall is_group gs -> c ∈ join [58] (hex <$> gs) -> hexc c = true \/ c = 58.
Proof.
  intros Hg. assert (forall g d, is_group g -> d ∈ hex g -> hexc d = true) as Hh.
  { intros g d Hgr Hd. destruct (hex_parses g Hgr) as (_ & _ & H). rewrite forallb_forall in H. by apply H, list_elem_of_In. }
  destruct gs as [|g gs]; [by intros ?%elem_of_nil|]. apply Forall_cons in Hg as [Hg Hgs]. cbn [fmap list_fmap join].
  rewrite elem_of_app. intros [H|H]; [left; by eapply Hh|].
  apply list_elem_of_In, in_concat in H as (l & Hl%list_elem_of_In & Hc%list_elem_of_In).
  apply list_elem_of_fmap in Hl as (y & -> & Hy). apply list_elem_of_fmap in Hy as (h & -> & Hin).
  apply elem_of_app in Hc as [->%list_elem_of_singleton|Hc]; [by right|]. left. eapply Hh; [|exact Hc].
  by apply (proj1 (Forall_forall _ _) Hgs).
Qed.

Lemma firstSpecial_app s c t : forallb hexc s = true -> (c =? 46) || (c =? 58) || (c =? 37) = true -> firstSpecial (s ++ c :: t) = Some c.
Proof.
  intros Hs Hc. induction s as [|d s IH]; cbn [app firstSpecial]; [by rewrite Hc|].
  cbn in Hs. apply andb_true_iff in Hs as [Hd Hs]. rewrite hexc_char by done. by apply IH.
Qed.

Lemma string6_chars ip c : length ip = 16%nat -> Forall is_byte ip -> c ∈ string6 ip -> hexc c = true \/ c = 58.
Proof.
  intros Hl Hb. destruct (groups_spec 8 ip Hl Hb) as (_ & Hg & _). unfold string6.
  destruct (zeroSpan (groups ip)) as [a b]. destruct (b - a =? 0)%nat; [by apply join_hex_chars|].
  rewrite !elem_of_app. intros [?|[Hc|?]].
  - by apply (join_hex_chars (take a (groups ip))); [apply Forall_take|].
  - apply elem_of_cons in Hc as [->|Hc]; [by right|]. apply list_elem_of_singleton in Hc as ->. by right.
  - by apply (join_hex_chars (drop b (groups ip))); [apply Forall_drop|].
Qed.

(** The text of an address: it starts with the digits of a field, or with the
    ellipsis, and has no percent sign. *)
Lemma parse_string6 ip : length ip = 16%nat -> Forall is_byte ip -> ParseAddr (string6 ip) = Some (ip, []).
Proof.
  intros Hl Hb. pose proof (fun c => string6_chars ip c Hl Hb) as Hchars. revert Hchars.
  destruct (groups_spec 8 ip Hl Hb) as (Hu & Hg & H8). unfold string6. cbv zeta.
  set (gs := groups ip) in *. pose proof (zeroSpan_spec gs H8) as Hz. destruct (zeroSpan gs) as [a b]. destruct Hz as [Hab Hgs].
  pose proof (Forall_take _ a _ Hg) as Ga. pose proof (Forall_drop _ b _ Hg) as Gb.
  set (s := if (b - a =? 0)%nat then _ else _). intros Hchars.
  assert (Cut s 37 = None) as Hcut.
  { destruct (Cut s 37) as [[x y]|] eqn:E; [|done]. apply Cut_spec in E as [E _].
    destruct (Hchars 37) as [|]; [rewrite E; apply elem_of_app; right; by left|done..]. }
  assert (forall x t, x <> [] -> Forall is_group x -> HasPrefix (join [58] (hex <$> x) ++ t) [58; 58] = false) as Hnp.
  { intros [|g x] t; [done|]. intros _ [Hgr _]%Forall_cons. destruct (hex_parses g Hgr) as (_ & (c & u & Hh & Hc) & _).
    cbn [fmap list_fmap join]. rewrite Hh. cbn [app HasPrefix]. destruct (Z.eqb_spec 58 c) as [<-|]; [done|done]. }
  assert (forall x t, x <> [] -> Forall is_group x -> (t = [] -> (1 < length x)%nat) -> (t = [] \/ exists u, t = 58 :: u) ->
    firstSpecial (join [58] (hex <$> x) ++ t) = Some 58) as Hfs.
  { intros [|g x] t; [done|]. intros _ [Hgr Hx]%Forall_cons Ht Hu58. destruct (hex_parses g Hgr) as (_ & _ & Hf).
    cbn [fmap list_fmap join]. rewrite <- app_assoc. destruct x as [|g2 x].
    - cbn [fmap list_fmap concat app]. destruct Hu58 as [->|(u & ->)]; [specialize (Ht eq_refl); cbn in Ht; lia|]. by apply firstSpecial_app.
    - cbn [fmap list_fmap concat]. rewrite <- app_assoc. cbn [app]. by apply firstSpecial_app. }
  assert (firstSpecial s = Some 58 /\ (if HasPrefix s [58; 58] then
                  match drop 2 s with
                  | [] => Some (replicate 16 0)
                  | s => expand (v6_loop 8 [] (Some 0%nat) s)
                  end
                else expand (v6_loop 8 [] None s)) = Some ip) as [H1 H2].
  2:{ unfold ParseAddr. rewrite H1. cbn [Z.eqb Pos.eqb]. unfold parseIPv6. rewrite Hcut, H2. done. }
  assert (length (ungroup (take a gs)) = 2 * a)%nat as La by (rewrite ungroup_length, length_take; lia).
  assert (length (ungroup (drop b gs)) = 2 * (8 - b))%nat as Lb by (rewrite ungroup_length, length_drop; lia).
  assert (ip = ungroup (take a gs) ++ replicate (2 * (b - a)) 0 ++ ungroup (drop b gs)) as Hip.
  { rewrite <- Hu at 1. rewrite Hgs at 1. by rewrite !ungroup_app, ungroup_zeros. }
  unfold s. clear s Hchars Hcut. destruct (Nat.eqb_spec (b - a) 0) as [E0|E0].
  - assert (gs <> []) as Hne by (by intros ->). rewrite <- (app_nil_r (join _ _)). rewrite Hfs by (done || lia || by left).
    rewrite Hnp by done. split; [done|]. change 8%nat with (8 + 0)%nat. rewrite <- H8.
    rewrite (v6_loop_groups gs 0 [] None []) by (done || by left). cbn [app v6_after]. unfold expand.
    rewrite Hu, Hl. done.
  - assert (forall n pre, (length pre = 2 * a)%nat -> n = (8 - a)%nat -> b <> 8%nat ->
      expand (v6_loop n pre (Some (2 * a)%nat) (join [58] (hex <$> drop b gs))) = Some (pre ++ replicate (2 * (b - a)) 0 ++ ungroup (drop b gs))) as Hlast.
    { intros n pre Hp -> Hb8. rewrite <- (app_nil_r (join _ _)).
      replace (8 - a)%nat with (length (drop b gs) + (b - a))%nat by (rewrite length_drop; lia).
      rewrite v6_loop_groups; [|intros E; apply (f_equal length) in E; rewrite length_drop in E; cbn in E; lia|done|by left].
      cbn [v6_after]. unfold expand. rewrite length_app, Hp, Lb. rewrite (proj2 (Nat.ltb_lt _ _)) by lia.
      rewrite <- Hp at 1. rewrite <- Hp at 2. rewrite take_app_length, drop_app_length. do 4 f_equal. lia. }
    destruct (decide (a = 0)%nat) as [->|Ha0].
    + cbn [take fmap list_fmap join app firstSpecial Z.eqb Pos.eqb orb]. split; [done|]. cbn [HasPrefix Z.eqb Pos.eqb andb drop].
      destruct (decide (b = 8%nat)) as [->|Hb8].
      * rewrite drop_ge by lia. cbn [fmap list_fmap join]. f_equal. rewrite Hip. rewrite drop_ge by lia. done.
      * assert (expand (v6_loop 8 [] (Some 0%nat) (join [58] (hex <$> drop b gs))) = Some ip) as <-.
        { etrans; [by apply (Hlast 8%nat [])|]. f_equal. symmetry. exact Hip. }
        destruct (drop b gs) as [|g x] eqn:Ed; [apply (f_equal length) in Ed; rewrite length_drop in Ed; cbn in Ed; lia|].
        destruct (hex_parses g ltac:(by apply Forall_cons in Gb as [? _])) as (_ & (c & u & Hh & _) & _).
        cbn [fmap list_fmap join]. rewrite Hh. done.
    + assert (take a gs <> []) as Hne by (intros E; apply (f_equal length) in E; rewrite length_take in E; cbn in E; lia).
      rewrite Hfs by (done || eauto). rewrite Hnp by done. split; [done|].
      replace 8%nat with (length (take a gs) + (8 - a))%nat at 1 by (rewrite length_take; lia).
      rewrite v6_loop_groups by eauto. cbn [app v6_after drop]. rewrite drop_0, La.
      destruct (decide (b = 8%nat)) as [->|Hb8].
      * rewrite Hip, (drop_ge gs 8) by lia. cbn [fmap list_fmap join]. unfold expand. rewrite La, (proj2 (Nat.ltb_lt _ _)) by lia.
        rewrite take_ge, drop_ge by lia. change (ungroup []) with (@nil Z).
        do 4 f_equal. lia.
      * destruct (join [58] (hex <$> drop b gs)) as [|c u] eqn:Ej.
        { exfalso. destruct (drop b gs) as [|g x] eqn:Ed; [apply (f_equal length) in Ed; rewrite length_drop in Ed; cbn in Ed; lia|].
          destruct (hex_parses g ltac:(by apply Forall_cons in Gb as [? _])) as (_ & (c & u & Hh & _) & _).
          cbn [fmap list_fmap join] in Ej. rewrite Hh in Ej. done. }
        rewrite Hip. apply Hlast; [done|done|done].
Qed.

(** The canonical text of an address parses to it. *)
Lemma ParseAddr_String ip : is_addr ip -> To4 ip = None \/ length ip = 4%nat -> ParseAddr (IPString ip) = Some (ip, []).
Proof.
  intros [Hl Hb] [E|L4].
  - unfold IPString. rewrite E. apply parse_string6; [|done]. destruct Hl as [Hl|Hl]; [unfold To4 in E; by rewrite Hl in E|done].
  - unfold IPString, To4. rewrite L4. cbn [Nat.eqb]. unfold ParseAddr.
    assert (firstSpecial (join [46] (Itoa <$> ip)) = Some 46) as ->.
    { destruct ip as [|a [|b ip]]; try done. cbn [fmap list_fmap join concat]. rewrite <- app_assoc. cbn [app].
      apply firstSpecial_app; [|done]. apply Forall_cons in Hb as [Ha _].
      destruct (octet_digits a Ha) as (_ & _ & _ & Hd & _). apply forallb_forall. intros c Hc%list_elem_of_In.
      pose proof (proj1 (Forall_forall _ _) Hd c Hc) as Hc'. unfold is_digit10 in Hc'. unfold hexc.
      rewrite orb_true_iff, andb_true_iff, !Z.leb_le. by left. }
    cbn [Z.eqb Pos.eqb]. by rewrite parse_dotted.
Qed.

(** An address is one of the two: in 4 bytes, or no IPv4 address at all. *)
Lemma canon_addr ip : is_addr ip -> is_addr (canon ip) /\ (To4 (canon ip) = None \/ length (canon ip) = 4%nat).
Proof.
  intros [Hl Hb]. unfold canon. destruct (To4 ip) as [x|] eqn:E; [|split; [done|by left]].
  pose proof (To4_length _ _ E). split; [|by right]. split; [by left|by eapply To4_bytes].
Qed.

Lemma IPString_canon ip : IPString (canon ip) = IPString ip.
Proof.
  unfold IPString, canon. destruct (To4 ip) as [x|] eqn:E; [|by rewrite E].
  unfold To4. by rewrite (To4_length _ _ E).
Qed.

Lemma addrOf_canon ip : addrOf (canon ip) = addrOf ip.
Proof.
  unfold addrOf, canon. destruct (To4 ip) as [x|] eqn:E; [|by rewrite E].
  unfold To4. by rewrite (To4_length _ _ E).
Qed.

Lemma ParseAddr_canon ip : is_addr ip -> ParseAddr (IPString ip) = Some (canon ip, []).
Proof. intros Ha. destruct (canon_addr ip Ha) as [H1 H2]. rewrite <- IPString_canon. by apply ParseAddr_String. Qed.

Lemma ParseIP_String ip : is_addr ip -> ParseIP (IPString ip) = As16 (canon ip).
Proof. intros Ha. unfold ParseIP. by rewrite ParseAddr_canon. Qed.

(** Printing tells addresses apart. *)
Lemma IPString_addrOf a b : is_addr a -> is_addr b -> IPString a = IPString b <-> addrOf a = addrOf b.
Proof.
  intros Ha Hb. split.
  - intros E. pose proof (ParseAddr_canon a Ha) as Pa. rewrite E, (ParseAddr_canon b Hb) in Pa. injection Pa as Pa.
    by rewrite <- (addrOf_canon a), <- Pa, addrOf_canon.
  - intros E. rewrite <- (IPString_canon a), <- (IPString_canon b). f_equal. destruct Ha as [La Ba], Hb as [Lb Bb].
    unfold addrOf, canon in *. destruct (To4 a) as [x|] eqn:Ea, (To4 b) as [y|] eqn:Eb; try done; injection E as E.
    + apply num_inj; [by apply (To4_bytes a)|by apply (To4_bytes b)| |done].
      by rewrite (To4_length _ _ Ea), (To4_length _ _ Eb).
    + apply num_inj; [done..| |done]. unfold To4 in *.
      destruct La as [La|La]; rewrite La in Ea; [done|]. destruct Lb as [Lb|Lb]; rewrite Lb in Eb; [done|]. lia.
Qed.

(** ** CIDR notation *)

Lemma dtoi_digits ds n i v : Forall is_digit10 ds -> 0 <= n -> digits 10 n ds = Some v -> v < 16777215 ->
  n < 16777215 -> (0 < i + length ds)%nat ->
  dtoi_loop n i ds = Some (v, (i + length ds)%nat).
Proof.
  intros Hd. revert n i. induction Hd as [|c ds Hc Hd IH]; intros n i Hn; cbn [digits dtoi_loop length].
  - intros [= ->] _ _ Hi. rewrite (proj2 (Nat.eqb_neq _ _)) by lia. do 2 f_equal. lia.
  - unfold is_digit10 in Hc. assert (digit c = Some (c - 48)) as ->.
    { unfold digit. by rewrite !(proj2 (Z.leb_le _ _)) by lia. }
    rewrite (proj2 (Z.ltb_lt _ _)) by lia. rewrite !(proj2 (Z.leb_le _ _)) by lia. cbn [andb]. intros Hv Hlt Hnlt Hi.
    assert (n * 10 + (c - 48) <= v).
    { assert (forall l a w, Forall is_digit10 l -> 0 <= a -> digits 10 a l = Some w -> a <= w) as Hmono.
      { clear. induction l as [|c l IH]; intros a w Hl Ha; cbn [digits]; [by intros [= ->]|].
        apply Forall_cons in Hl as [Hc Hl]. unfold is_digit10 in Hc. assert (digit c = Some (c - 48)) as ->.
        { unfold digit. by rewrite !(proj2 (Z.leb_le _ _)) by lia. }
        rewrite (proj2 (Z.ltb_lt _ _)) by lia. intros H%IH; [lia|done|lia]. }
      apply (Hmono ds _ _ Hd); [lia|done]. }
    rewrite (proj2 (Z.leb_gt _ _)) by lia. rewrite (IH (n * 10 + (c - 48)) (S i)) by first [exact Hv|lia]. do 2 f_equal. lia.
Qed.

Lemma dtoi_Itoa n : 0 <= n < 16777215 -> dtoi_loop 0 0 (Itoa n) = Some (n, length (Itoa n)).
Proof.
  intros Hn. assert (Itoa n = FormatUint n 10) as E by (unfold Itoa; by rewrite (proj2 (Z.ltb_ge _ _)) by lia).
  assert (digits 10 0 (Itoa n) = Some n) as Hd by (rewrite E; apply FormatUint_digits; lia).
  apply (dtoi_digits (Itoa n) 0 0 n); [apply Itoa_digits; lia|lia|exact Hd|lia|lia|].
  destruct (Itoa n) eqn:E2; [|cbn; lia]. exfalso. destruct (format_cons 64 10 n []) as (c & t & Hc); [lia|].
  unfold FormatUint in E. congruence.
Qed.

Lemma IPString_chars ip c : is_addr ip -> c ∈ IPString ip -> hexc c = true \/ c = 58 \/ c = 46.
Proof.
  intros Ha. rewrite <- IPString_canon. destruct (canon_addr ip Ha) as [[Hl Hb] Hc]. generalize dependent (canon ip). intros x Hl Hb Hx.
  destruct Hx as [E|L4].
  - destruct Hl as [Hl|Hl]; [unfold To4 in E; by rewrite Hl in E|]. unfold IPString. rewrite E.
    intros [?|?]%string6_chars; [by left|by right; left|done..].
  - unfold IPString, To4. rewrite L4. cbn [Nat.eqb]. clear Hl L4.
    assert (forall b, is_byte b -> c ∈ Itoa b -> hexc c = true) as Hd.
    { intros b Hbb Hin. destruct (octet_digits b Hbb) as (_ & _ & _ & Hd & _).
      pose proof (proj1 (Forall_forall _ _) Hd c Hin) as Hc'. unfold is_digit10 in Hc'. unfold hexc.
      rewrite orb_true_iff, andb_true_iff, !Z.leb_le. by left. }
    destruct x as [|b x]; [by intros ?%elem_of_nil|]. apply Forall_cons in Hb as [Hb Hbs]. cbn [fmap list_fmap join].
    rewrite elem_of_app. intros [H|H]; [left; by eapply Hd|].
    apply list_elem_of_In, in_concat in H as (l & Hl%list_elem_of_In & Hc%list_elem_of_In).
    apply list_elem_of_fmap in Hl as (y & -> & Hy). apply list_elem_of_fmap in Hy as (h & -> & Hin).
    apply elem_of_app in Hc as [->%list_elem_of_singleton|Hc]; [by right; right|]. left. eapply Hd; [|exact Hc].
    by apply (proj1 (Forall_forall _ _) Hbs).
Qed.

Lemma ParseCIDR_String ip n : is_addr ip -> 0 <= n <= 8 * Z.of_nat (length (canon ip)) ->
  ParseCIDR (IPString ip ++ 47 :: Itoa n) =
  Some (let m := maskBytes (length (canon ip)) n in MkNet (maskIP (As16 (canon ip)) m) m).
Proof.
  intros Ha Hn. unfold ParseCIDR. destruct (canon_addr ip Ha) as [[Hl _] _].
  assert (n < 16777215) by (destruct Hl as [Hl|Hl]; rewrite Hl in Hn; lia).
  rewrite Cut_app by (intros [?|[?|?]]%IPString_chars; done).
  rewrite ParseAddr_canon, dtoi_Itoa, Nat.eqb_refl by (done || lia).
  rewrite (proj2 (Z.ltb_ge n 0)), (proj2 (Z.ltb_ge _ n)) by lia. cbn [negb orb].
  unfold CIDRMask. by rewrite Z.mul_comm, Z.div_mul, Nat2Z.id by lia.
Qed.

(** Which addresses a network of [n] leading bits holds. *)
Definition covers (a : addr) (n : Z) (b : addr) : Prop :=
  match a, b with
  | A4 u, A4 v => u / 2 ^ (32 - n) = v / 2 ^ (32 - n)
  | A6 u, A6 v => u / 2 ^ (128 - n) = v / 2 ^ (128 - n)
  | _, _ => False
  end.

Lemma netContains_covers N nn n ip x :
  is_addr ip -> is_addr x -> networkNumberAndMask N = (nn, maskBytes (length (canon ip)) n) ->
  length nn = length (canon ip) -> Forall is_byte nn -> 0 <= n <= 8 * Z.of_nat (length (canon ip)) ->
  sameUnder (maskBytes (length (canon ip)) n) nn (canon ip) = true ->
  netContains N x = true <-> covers (addrOf ip) n (addrOf x).
Proof.
  intros Ha Hx HN Hl Hb Hn Hs. rewrite (netContains_num _ _ _ _ _ HN Hl Hb Hn (proj2 Hx)).
  destruct (canon_addr ip Ha) as [[Hlc Hbc] Hc]. destruct (canon_addr x Hx) as [[Hlx Hbx] Hcx].
  rewrite sameUnder_num in Hs by done. rewrite Hs. rewrite <- (addrOf_canon ip), <- (addrOf_canon x).
  generalize dependent (canon ip). intros c Hs HN Hl Hn Hlc Hbc Hc. generalize dependent (canon x). intros y Hlx Hbx Hcx.
  unfold addrOf, covers. destruct Hc as [E|L], Hcx as [Ex|Lx].
  - rewrite E, Ex. destruct Hlc as [Hlc|Hlc]; [unfold To4 in E; by rewrite Hlc in E|].
    destruct Hlx as [Hlx|Hlx]; [unfold To4 in Ex; by rewrite Hlx in Ex|]. rewrite Hlc, Hlx. tauto.
  - rewrite E. unfold To4. rewrite Lx. cbn [Nat.eqb]. destruct Hlc as [Hlc|Hlc]; [unfold To4 in E; by rewrite Hlc in E|].
    rewrite Hlc. split; [by intros [? _]|done].
  - rewrite Ex. unfold To4. rewrite L. cbn [Nat.eqb]. destruct Hlx as [Hlx|Hlx]; [unfold To4 in Ex; by rewrite Hlx in Ex|].
    rewrite Hlx. split; [by intros [? _]|done].
  - unfold To4. rewrite L, Lx. cbn [Nat.eqb]. tauto.
Qed.

Lemma maskBytes_length l n : length (maskBytes l n) = l.
Proof. revert n. induction l as [|l IH]; intros n; [done|]. cbn [maskBytes]. destruct (8 <=? n); cbn [length]; by rewrite IH. Qed.

Lemma maskBytes_ones l n k : (k <= l)%nat -> 8 * Z.of_nat k <= n -> take k (maskBytes l n) = replicate k 255.
Proof.
  revert n k. induction l as [|l IH]; intros n [|k] Hk Hn; try done; [lia|]. cbn [maskBytes].
  rewrite (proj2 (Z.leb_le 8 n)) by lia. cbn [take replicate]. f_equal. apply IH; lia.
Qed.

Lemma maskBytes_short l n k : (k < l)%nat -> 0 <= n < 8 * Z.of_nat (S k) -> exists b, maskBytes l n !! k = Some b /\ 0 <= b < 255.
Proof.
  revert n k. induction l as [|l IH]; intros n k Hk Hn; [lia|]. cbn [maskBytes]. destruct (Z.leb_spec 8 n) as [H8|H8].
  - destruct k as [|k]; [lia|]. cbn [lookup list_lookup]. apply IH; lia.
  - destruct k as [|k]; cbn [lookup list_lookup].
    + exists (Z.lxor 255 (Z.shiftr 255 n)). split; [done|].
      pose proof (below_check (fun n => (0 <=? Z.lxor 255 (Z.shiftr 255 n)) && (Z.lxor 255 (Z.shiftr 255 n) <? 255)) 3
        ltac:(vm_compute; reflexivity) n ltac:(cbn; lia)) as H. cbv beta in H. apply andb_true_iff in H as [?%Z.leb_le ?%Z.ltb_lt]. lia.
    + apply IH; [lia|lia].
Qed.

Lemma land_byte a b : is_byte a -> is_byte b -> 0 <= Z.land a b <= b.
Proof.
  unfold is_byte. intros Ha Hb. split; [apply Z.land_nonneg; lia|].
  assert (b - Z.land a b = Z.ldiff b (Z.land a b)) as E.
  { apply Z.sub_nocarry_ldiff. rewrite Z.ldiff_land, <- Z.land_assoc, Z.land_lnot_diag. apply Z.land_0_r. }
  assert (0 <= Z.ldiff b (Z.land a b)) by (apply Z.ldiff_nonneg; lia). lia.
Qed.

Lemma land_255 a : is_byte a -> Z.land a 255 = a.
Proof. intros Ha. change 255 with (Z.ones 8). rewrite Z.land_ones by lia. by apply Z.mod_small. Qed.

Lemma maskBytes_bytes l n : 0 <= n -> Forall is_byte (maskBytes l n).
Proof.
  revert n. induction l as [|l IH]; intros n Hn; [constructor|]. cbn [maskBytes]. destruct (Z.leb_spec 8 n).
  - constructor; [unfold is_byte; lia|apply IH; lia].
  - constructor; [|apply IH; lia].
    pose proof (below_check (fun n => (0 <=? Z.lxor 255 (Z.shiftr 255 n)) && (Z.lxor 255 (Z.shiftr 255 n) <? 256)) 3
      ltac:(vm_compute; reflexivity) n ltac:(change (2 ^ Z.of_nat 3) with 8; lia)) as H1. cbv beta in H1.
    apply andb_true_iff in H1 as [?%Z.leb_le ?%Z.ltb_lt]. done.
Qed.

Lemma masked_bytes c m : Forall is_byte c -> Forall is_byte m -> Forall is_byte (zip_with Z.land c m).
Proof.
  intros Hc. revert m. induction Hc as [|x c Hx Hc IH]; intros [|b m] Hm; try constructor.
  - apply Forall_cons in Hm as [Hb _]. pose proof (land_byte x b Hx Hb). unfold is_byte in *. lia.
  - apply IH. by apply Forall_cons in Hm as [_ ?].
Qed.

Lemma sameUnder_masked m c : sameUnder m (zip_with Z.land c m) c = true.
Proof.
  revert m. induction c as [|x c IH]; intros [|b m]; try done. cbn.
  rewrite <- Z.land_assoc, Z.land_diag, Z.eqb_refl. apply IH.
Qed.

(** Masking cannot give an IPv6 address the form of an IPv4 one. *)
Lemma masked_not_mapped c n : length c = 16%nat -> Forall is_byte c -> To4 c = None -> 0 <= n ->
  To4 (zip_with Z.land c (maskBytes 16 n)) = None.
Proof.
  intros Hl Hb Hc Hn. unfold To4 in *. rewrite Hl in Hc. rewrite length_zip_with_l_eq by (by rewrite maskBytes_length).
  rewrite Hl. cbn [Nat.eqb andb] in *. case_bool_decide as E; [done|]. clear Hc. case_bool_decide as E2; [|done]. exfalso. apply E.
  assert (forall k : nat, (k < 12)%nat -> exists x b : Z, c !! k = Some x /\ maskBytes 16 n !! k = Some b /\
    is_byte x /\ is_byte b /\ v4InV6Prefix !! k = Some (Z.land x b)) as Hk.
  { intros k Hk. destruct (lookup_lt_is_Some_2 c k ltac:(lia)) as [x Hx].
    destruct (lookup_lt_is_Some_2 (maskBytes 16 n) k) as [b Hbk]; [rewrite maskBytes_length; lia|]. exists x, b.
    split; [done|]. split; [done|]. split; [by eapply Forall_lookup_1|].
    split; [by eapply Forall_lookup_1; [apply maskBytes_bytes|]|].
    rewrite <- E2, lookup_take_lt by done. by rewrite lookup_zip_with, Hx, Hbk. }
  destruct (Z.lt_ge_cases n 96) as [H96|H96].
  - destruct (maskBytes_short 16 n 11) as (b & Hb11 & Hr); [lia|cbn; lia|].
    destruct (Hk 11%nat ltac:(lia)) as (x & b' & Hx & Hb' & Bx & Bb & Hp). rewrite Hb11 in Hb'. injection Hb' as <-.
    cbn in Hp. injection Hp as Hp. pose proof (land_byte x b Bx Bb). lia.
  - rewrite <- E2. apply list_eq. intros k. destruct (Nat.lt_ge_cases k 12) as [Hlt|Hge].
    + destruct (Hk k Hlt) as (x & b & Hx & Hbk & Bx & _). rewrite !lookup_take_lt by done.
      rewrite lookup_zip_with, Hx, Hbk. cbn [mbind option_bind]. f_equal.
      assert (take 12 (maskBytes 16 n) !! k = Some b) as Hb2 by (by rewrite lookup_take_lt).
      rewrite maskBytes_ones in Hb2 by (cbn; lia). apply lookup_replicate in Hb2 as [-> _]. by rewrite land_255.
    + rewrite !lookup_take_ge by done. done.
Qed.

Lemma maskIP_same ip m : length ip = 16%nat -> length m = length ip -> maskIP ip m = zip_with Z.land ip m.
Proof. intros Hl Hm. unfold maskIP. cbv zeta. do 4 (rewrite ?Hm, ?Hl; cbn [Nat.eqb andb]). done. Qed.

Lemma maskIP_mapped ip m : length ip = 4%nat -> length m = length ip ->
  maskIP (v4InV6Prefix ++ ip) m = zip_with Z.land ip m.
Proof.
  intros Hl Hm. unfold maskIP. cbv zeta. change (take 12 (v4InV6Prefix ++ ip)) with v4InV6Prefix.
  change (drop 12 (v4InV6Prefix ++ ip)) with ip. rewrite length_app. change (length v4InV6Prefix) with 12%nat.
  rewrite (bool_decide_eq_true_2 (v4InV6Prefix = v4InV6Prefix)) by done.
  do 4 (rewrite ?Hm, ?Hl; cbn [Nat.eqb Nat.add andb]). done.
Qed.

(** The network of a parsed prefix, and that of a single address. *)
Lemma prefix_covers ip n x : is_addr ip -> is_addr x -> 0 <= n <= 8 * Z.of_nat (length (canon ip)) ->
  let m := maskBytes (length (canon ip)) n in
  netContains (MkNet (maskIP (As16 (canon ip)) m) m) x = true <-> covers (addrOf ip) n (addrOf x).
Proof.
  intros Ha Hx Hn m. destruct (canon_addr ip Ha) as [[Hl Hb] Hc].
  assert (length m = length (canon ip)) as Hm by apply maskBytes_length.
  assert (Forall is_byte m) as Hmb by (apply maskBytes_bytes; lia).
  assert (maskIP (As16 (canon ip)) m = zip_with Z.land (canon ip) m) as ->.
  { unfold As16. destruct (Nat.eqb_spec (length (canon ip)) 4) as [L4|L4].
    - apply maskIP_mapped; [done|by rewrite Hm].
    - apply maskIP_same; [by destruct Hl|by rewrite Hm]. }
  assert (length (zip_with Z.land (canon ip) m) = length (canon ip)) as Hz by (by apply length_zip_with_l_eq).
  apply (netContains_covers _ (zip_with Z.land (canon ip) m)); [done|done| |done| |done|apply sameUnder_masked].
  - unfold networkNumberAndMask. cbn [n_IP n_Mask].
    assert (match To4 (zip_with Z.land (canon ip) m) with Some ip4 => ip4
      | None => if (length (zip_with Z.land (canon ip) m) =? 16)%nat then zip_with Z.land (canon ip) m else [] end = zip_with Z.land (canon ip) m) as ->.
    { destruct Hc as [E|L4].
      - destruct Hl as [Hl|Hl]; [unfold To4 in E; by rewrite Hl in E|]. unfold m. rewrite Hl, masked_not_mapped by (done || lia).
        fold m. replace (length (zip_with Z.land (canon ip) (maskBytes 16 n))) with 16%nat; [done|].
        unfold m in Hz. rewrite Hl in Hz. lia.
      - unfold To4. by rewrite Hz, L4. }
    destruct (zip_with Z.land (canon ip) m) as [|z zs] eqn:Ez; [cbn in Hz; lia|]. rewrite <- Ez in *. clear z zs Ez.
    fold m. rewrite Hm, Hz. by destruct Hl as [E|E]; rewrite E.
  - by apply masked_bytes.
Qed.

Lemma single_covers ip x : is_addr ip -> is_addr x ->
  let bits := match To4 (As16 (canon ip)) with None => 128 | Some _ => 32 end in
  netContains (MkNet (As16 (canon ip)) (CIDRMask bits bits)) x = true <-> addrOf ip = addrOf x.
Proof.
  intros Ha Hx. destruct (canon_addr ip Ha) as [[Hl Hb] Hc].
  assert (forall a b, covers a (match a with A4 _ => 32 | A6 _ => 128 end) b <-> a = b) as Hcov.
  { intros [u|u] [v|v]; cbn; rewrite ?Z.div_1_r; split; try done; try (by intros ->); by intros [= ->]. }
  cbv zeta. rewrite <- (Hcov (addrOf ip)).
  assert (networkNumberAndMask (MkNet (As16 (canon ip)) (CIDRMask (match To4 (As16 (canon ip)) with None => 128 | Some _ => 32 end)
    (match To4 (As16 (canon ip)) with None => 128 | Some _ => 32 end))) = (canon ip, maskBytes (length (canon ip)) (8 * Z.of_nat (length (canon ip)))) /\
    match addrOf ip with A4 _ => 32 | A6 _ => 128 end = 8 * Z.of_nat (length (canon ip))) as [HN Hbits].
  { rewrite <- (addrOf_canon ip). unfold networkNumberAndMask, addrOf, As16. cbn [n_IP n_Mask]. destruct Hc as [E|L4].
    - destruct Hl as [Hl|Hl]; [unfold To4 in E; by rewrite Hl in E|]. rewrite Hl. cbn [Nat.eqb]. rewrite E, Hl. cbn [Nat.eqb].
      destruct (canon ip) as [|z zs] eqn:Ez; [done|]. rewrite Hl. split; reflexivity.
    - rewrite L4. cbn [Nat.eqb]. rewrite To4_mapped by done. unfold To4. rewrite L4. cbn [Nat.eqb].
      destruct (canon ip) as [|z zs] eqn:Ez; [done|]. split; reflexivity. }
  rewrite Hbits. apply (netContains_covers _ (canon ip)); [done|done|exact HN|done|done|lia|].
  rewrite sameUnder_num; [done|done|done|done|done|lia].
Qed.

(** * Joining and splitting *)

Lemma split_from_app cur a s sep : sep ∉ a -> split_from cur (a ++ sep :: s) sep = (rev cur ++ a) :: split_from [] s sep.
Proof.
  revert cur. induction a as [|c a IH]; intros cur Ha; cbn [app split_from].
  - by rewrite Z.eqb_refl, app_nil_r.
  - apply not_elem_of_cons in Ha as [Hc Ha]. rewrite (proj2 (Z.eqb_neq c sep)) by done. rewrite IH by done.
    cbn [rev]. by rewrite <- app_assoc.
Qed.

Lemma split_from_last cur a sep : sep ∉ a -> split_from cur a sep = [rev cur ++ a].
Proof.
  revert cur. induction a as [|c a IH]; intros cur Ha; cbn [split_from]; [by rewrite app_nil_r|].
  apply not_elem_of_cons in Ha as [Hc Ha]. rewrite (proj2 (Z.eqb_neq c sep)) by done. rewrite IH by done.
  cbn [rev]. by rewrite <- app_assoc.
Qed.

Lemma Split_join l sep : l <> [] -> Forall (fun a => sep ∉ a) l -> Split (join [sep] l) sep = l.
Proof.
  unfold Split. destruct l as [|a l]; [done|]. intros _ H. revert a H. induction l as [|b l IH]; intros a [Ha Hl]%Forall_cons; cbn [join fmap list_fmap concat].
  - rewrite app_nil_r. by apply split_from_last.
  - cbn [app]. rewrite split_from_app by done. cbn [rev app]. f_equal. exact (IH b Hl).
Qed.

Lemma split_from_notin cur s c : c ∉ cur -> Forall (fun l => c ∉ l) (split_from cur s c).
Proof.
  revert cur. induction s as [|d s IH]; intros cur Hc; cbn [split_from].
  - constructor; [by rewrite elem_of_rev|constructor].
  - destruct (Z.eqb_spec d c) as [->|Hd]; [constructor; [by rewrite elem_of_rev|apply IH, not_elem_of_nil]|].
    apply IH. rewrite not_elem_of_cons. split; [congruence|done].
Qed.

Lemma lastIndex_None s c : c ∉ s -> lastIndex s c = None.
Proof. intros H. unfold lastIndex. by rewrite (proj2 (IndexByte_None (rev s) c)) by (by rewrite elem_of_rev). Qed.

Lemma lastIndex_Some s c i : lastIndex s c = Some i -> s = take i s ++ c :: drop (S i) s /\ c ∉ drop (S i) s.
Proof.
  unfold lastIndex. destruct (IndexByte (rev s) c) as [j|] eqn:E; [|done]. intros [= <-].
  assert (Cut (rev s) c = Some (take j (rev s), drop (S j) (rev s))) as Hc by (unfold Cut; by rewrite E).
  apply Cut_spec in Hc as [Hs Hn]. set (a := take j (rev s)) in *. set (b := drop (S j) (rev s)) in *.
  assert (length a = j) as Hj.
  { unfold a. rewrite length_take. assert (j < length (rev s))%nat; [|lia].
    apply IndexByte_spec in E as [E _]. by eapply lookup_lt_Some. }
  apply (f_equal (@rev Z)) in Hs. rewrite rev_involutive, rev_app_distr in Hs. cbn [rev] in Hs. rewrite <- app_assoc in Hs. cbn [app] in Hs.
  assert (length s - 1 - j = length (rev b))%nat as ->.
  { rewrite Hs, length_app. cbn [length]. rewrite !length_rev. lia. }
  rewrite Hs. rewrite take_app_length, (cons_middle c), (app_assoc (rev b) [c]).
  rewrite drop_app_length' by (rewrite length_app; cbn [length]; lia). rewrite <- app_assoc. cbn [app].
  split; [done|]. by rewrite elem_of_rev.
Qed.
