(* ===== verification/Netguard.v ===== *)
(** The guard on outbound connections (internal/netguard/netguard.go, allow.go):
    which addresses may be dialled, and the operator's list of exceptions.

    The resolver is the environment: a lookup gives the addresses of a host, or
    fails. *)

From S2P Require Import Prelude GoStrings NetIP.

(** * Validation *)

Definition cidrs : list bytes :=
  [bs "0.0.0.0/8"; bs "10.0.0.0/8"; bs "100.64.0.0/10"; bs "127.0.0.0/8"; bs "169.254.0.0/16"; bs "172.16.0.0/12";
   bs "192.168.0.0/16"; bs "::1/128"; bs "fc00::/7"; bs "fe80::/10"; bs "::/128"].

Definition privateRanges : list IPNet := omap ParseCIDR cidrs.

Definition IsPrivate (ip : bytes) : bool :=
  match ip with
  | [] => false
  | _ =>
      let ip := match To4 ip with Some ip4 => ip4 | None => ip end in
      existsb (fun r => netContains r ip) privateRanges
  end.

Definition metadataIPs : list bytes :=
  [ParseIP (bs "169.254.169.254"); ParseIP (bs "169.254.170.2"); ParseIP (bs "100.100.100.200");
   ParseIP (bs "fd00:ec2::254")].

Definition IsCloudMetadata (ip : bytes) : bool :=
  match ip with
  | [] => false
  | _ => existsb (fun m => Equal m ip) metadataIPs
  end.

Definition isNonUnicast (ip : bytes) : bool :=
  if IsUnspecified ip || IsMulticast ip then true
  else match To4 ip with
       | Some ip4 => Equal ip4 IPv4bcast
       | None => false
       end.

Inductive guardErr := EMetadata | EPrivate | EAddress | ENotIP.

#[export] Instance guardErr_eq_dec : EqDecision guardErr.
Proof. solve_decision. Defined.

Definition ValidateIP (ip : bytes) (blockPrivate : bool) : option guardErr :=
  if IsCloudMetadata ip then Some EMetadata
  else if blockPrivate && (IsPrivate ip || match ip with [] => false | _ => isNonUnicast ip end) then Some EPrivate
  else None.

Definition DialControl (blockPrivate : bool) (address : bytes) : option guardErr :=
  match SplitHostPort address with
  | None => Some EAddress
  | Some (host, _) =>
      match ParseIP host with
      | [] => Some ENotIP
      | ip => ValidateIP ip blockPrivate
      end
  end.

(** * The allowlist *)

Definition allowHostRefresh : Z := 5 * 60 * 1000000000.

Record Allow := MkAllow {
  al_nets : list IPNet;
  al_hosts : list bytes;
  al_hostIPs : option (list bytes);   (* None before the first lookup *)
  al_resolved : Z                     (* nanoseconds *)
}.

Definition label_ok (c : Z) : bool :=
  negb (negb (c =? 45) && ((c <? 48) || (57 <? c)) && ((c <? 97) || (122 <? c)) && ((c <? 65) || (90 <? c))).

(** A rune outside ASCII is made of bytes from 128 on, which are refused as well. *)
Definition validHostname (s : bytes) : bool :=
  if (length s =? 0)%nat || (253 <? length s)%nat then false
  else forallb (fun label =>
         negb (match label with [] => true | c :: _ => (63 <? length label)%nat || (c =? 45) end ||
               match last label with Some c => c =? 45 | None => false end) &&
         forallb label_ok label)
       (Split (TrimSuffix s [46]) 46).

(** strings.Trim(e, "[]"). *)
Fixpoint trimLeftBrackets (s : bytes) : bytes :=
  match s with
  | c :: s' => if (c =? 91) || (c =? 93) then trimLeftBrackets s' else s
  | [] => []
  end.
Definition trimBrackets (s : bytes) : bytes := rev (trimLeftBrackets (rev (trimLeftBrackets s))).

(** What ParseAllow makes of one entry. *)
Inductive parsedEntry := PNet (n : IPNet) | PHost (h : bytes) | PBad (e : bytes) | PSkip.

Definition parseEntry (e : bytes) : parsedEntry :=
  match TrimSpace e with
  | [] => PSkip
  | e =>
      match ParseCIDR e with
      | Some n => PNet n
      | None =>
          match ParseIP (trimBrackets e) with
          | [] => if validHostname e then PHost (ToLower (TrimSuffix e [46])) else PBad e
          | ip => let bits := match To4 ip with None => 128 | Some _ => 32 end in PNet (MkNet ip (CIDRMask bits bits))
          end
      end
  end.

Definition ParseAllow (spec : bytes) : option Allow * list bytes :=
  let es := parseEntry <$> Split spec 44 in
  let nets := omap (fun p => match p with PNet n => Some n | _ => None end) es in
  let hosts := omap (fun p => match p with PHost h => Some h | _ => None end) es in
  let bad := omap (fun p => match p with PBad e => Some e | _ => None end) es in
  match nets, hosts with
  | [], [] => (None, bad)
  | _, _ => (Some (MkAllow nets hosts None 0), bad)
  end.

Section Allowlist.
(** The resolver, as each lookup at a given time answers. *)
Context (lookup : Z -> bytes -> option (list bytes)).

Definition hostAddrs (now : Z) (a : Allow) : list bytes * Allow :=
  match al_hostIPs a with
  | Some ips =>
      if now - al_resolved a <? allowHostRefresh then (ips, a)
      else
        let answers := omap (lookup now) (al_hosts a) in
        let ips' := match answers with [] => ips | _ => concat answers end in
        (ips', MkAllow (al_nets a) (al_hosts a) (Some ips') now)
  | None =>
      let ips' := concat (omap (lookup now) (al_hosts a)) in
      (ips', MkAllow (al_nets a) (al_hosts a) (Some ips') now)
  end.

Definition allowContains (now : Z) (ip : bytes) (a : option Allow) : bool * option Allow :=
  match a with
  | None => (false, a)
  | Some al =>
      match ip with
      | [] => (false, a)
      | _ =>
          if IsCloudMetadata ip then (false, a)
          else if existsb (fun n => netContains n ip) (al_nets al) then (true, a)
          else match al_hosts al with
               | [] => (false, a)
               | _ => let '(ips, al) := hostAddrs now al in (existsb (fun h => Equal h ip) ips, Some al)
               end
      end
  end.

Definition ValidateIPAllow (now : Z) (ip : bytes) (blockPrivate : bool) (a : option Allow) : option guardErr * option Allow :=
  let '(allowed, a) := if blockPrivate then allowContains now ip a else (false, a) in
  ((if allowed then None else ValidateIP ip blockPrivate), a).

Definition DialControlAllow (blockPrivate : bool) (now : Z) (address : bytes) (a : option Allow) : option guardErr * option Allow :=
  match a with
  | None => (DialControl blockPrivate address, a)
  | Some _ =>
      match SplitHostPort address with
      | None => (Some EAddress, a)
      | Some (host, _) =>
          match ParseIP host with
          | [] => (Some ENotIP, a)
          | ip => ValidateIPAllow now ip blockPrivate a
          end
      end
  end.

End Allowlist.

(** * Which addresses are refused *)

Definition v4 (a b c d : Z) : Z := ((a * 256 + b) * 256 + c) * 256 + d.

Definition within (spans : list (Z * Z)) (z : Z) : Prop := exists span, span ∈ spans /\ span.1 <= z <= span.2.

Definition privateV4 : list (Z * Z) :=
  [(v4 0 0 0 0, v4 0 255 255 255); (v4 10 0 0 0, v4 10 255 255 255); (v4 100 64 0 0, v4 100 127 255 255);
   (v4 127 0 0 0, v4 127 255 255 255); (v4 169 254 0 0, v4 169 254 255 255); (v4 172 16 0 0, v4 172 31 255 255);
   (v4 192 168 0 0, v4 192 168 255 255)].
Definition multicastV4 : list (Z * Z) := [(v4 224 0 0 0, v4 239 255 255 255); (v4 255 255 255 255, v4 255 255 255 255)].

Definition privateV6 : list (Z * Z) :=
  [(1, 1); (252 * 2 ^ 120, 254 * 2 ^ 120 - 1); (65152 * 2 ^ 112, 65216 * 2 ^ 112 - 1); (0, 0)].
Definition multicastV6 : list (Z * Z) := [(255 * 2 ^ 120, 2 ^ 128 - 1)].

(** Loopback, private, link-local and unspecified addresses, and what is no
    unicast address. *)
Definition internal (a : addr) : Prop :=
  match a with
  | A4 z => within (privateV4 ++ multicastV4) z
  | A6 z => within (privateV6 ++ multicastV6) z
  end.

Definition metadata (a : addr) : Prop :=
  a ∈ [A4 (v4 169 254 169 254); A4 (v4 169 254 170 2); A4 (v4 100 100 100 200);
       A6 (64768 * 2 ^ 112 + 3778 * 2 ^ 96 + 596)].

Definition ranges : list (bytes * nat * Z) :=
  [([0; 0; 0; 0], 4%nat, 8); ([10; 0; 0; 0], 4%nat, 8); ([100; 64; 0; 0], 4%nat, 10); ([127; 0; 0; 0], 4%nat, 8);
   ([169; 254; 0; 0], 4%nat, 16); ([172; 16; 0; 0], 4%nat, 12); ([192; 168; 0; 0], 4%nat, 16);
   (replicate 15 0 ++ [1], 16%nat, 128); (252 :: replicate 15 0, 16%nat, 7); (254 :: 128 :: replicate 14 0, 16%nat, 10);
   (replicate 16 0, 16%nat, 128)].

Definition netOf (r : bytes * nat * Z) : IPNet := MkNet r.1.1 (maskBytes r.1.2 r.2).

Definition spanOf (r : bytes * nat * Z) : Z * Z :=
  let p := 2 ^ (8 * Z.of_nat r.1.2 - r.2) in (num r.1.1 / p * p, num r.1.1 / p * p + (p - 1)).

Lemma privateRanges_eq : privateRanges = netOf <$> ranges.
Proof. vm_compute. reflexivity. Qed.

Lemma div_span q p z : 0 < p -> q = z / p <-> q * p <= z <= q * p + (p - 1).
Proof.
  intros Hp. pose proof (Z.div_mod z p ltac:(lia)). pose proof (Z.mod_pos_bound z p Hp).
  split; [intros ->; nia|]. intros. apply Z.div_unique with (z - q * p); nia.
Qed.

(** [x] has no other form: it is an IPv4 address in 4 bytes or an IPv6 one. *)
Lemma range_contains r x : r ∈ ranges -> Forall is_byte x -> canon x = x ->
  netContains (netOf r) x = true <-> length x = r.1.2 /\ (spanOf r).1 <= num x <= (spanOf r).2.
Proof.
  intros Hr Hb Hx.
  assert (networkNumberAndMask (netOf r) = (r.1.1, maskBytes r.1.2 r.2) /\ length r.1.1 = r.1.2 /\ Forall is_byte r.1.1 /\
    0 <= r.2 <= 8 * Z.of_nat r.1.2) as (H1 & H2 & H3 & H4).
  { revert r Hr. apply Forall_forall. unfold ranges. repeat (apply Forall_cons; split;
      [split; [vm_compute; reflexivity|split; [reflexivity|split; [by repeat constructor|cbn; lia]]]|]). constructor. }
  rewrite (netContains_num _ _ _ _ _ H1 H2 H3 H4 Hb), Hx. unfold spanOf. cbn [fst snd].
  rewrite div_span by lia. done.
Qed.

Lemma ranges_contain x : Forall is_byte x -> canon x = x ->
  existsb (fun r => netContains r x) privateRanges = true <->
  within (spanOf <$> filter (fun r => r.1.2 = length x) ranges) (num x).
Proof.
  intros Hb Hx. rewrite privateRanges_eq, existsb_exists. unfold within. split.
  - intros (n & Hn & Hc). apply list_elem_of_In, list_elem_of_fmap in Hn as (r & -> & Hr).
    apply range_contains in Hc as [Hl Hs]; [|done..]. exists (spanOf r). split; [|done].
    apply list_elem_of_fmap_2, list_elem_of_filter. done.
  - intros (s & Hs & Hin). apply list_elem_of_fmap in Hs as (r & -> & Hr). apply list_elem_of_filter in Hr as [Hl Hr].
    exists (netOf r). split; [by apply list_elem_of_In, list_elem_of_fmap_2|]. by apply range_contains.
Qed.

Lemma isPrivate_spec ip : is_addr ip ->
  IsPrivate ip = true <-> match addrOf ip with A4 z => within privateV4 z | A6 z => within privateV6 z end.
Proof.
  intros [Hl Hb]. assert (IsPrivate ip = existsb (fun r => netContains r (canon ip)) privateRanges) as ->.
  { by destruct ip; [destruct Hl|]. }
  unfold addrOf, canon. destruct (To4 ip) as [x|] eqn:E.
  - pose proof (To4_length _ _ E) as L. pose proof (To4_bytes _ _ Hb E) as B.
    rewrite ranges_contain; [|done|unfold canon, To4; by rewrite L]. rewrite L. vm_compute (spanOf <$> _). done.
  - rewrite ranges_contain; [|done|unfold canon; by rewrite E]. destruct Hl as [Hl|Hl]; [unfold To4 in E; by rewrite Hl in E|].
    rewrite Hl. vm_compute (spanOf <$> _). done.
Qed.

Lemma isCloudMetadata_spec ip : is_addr ip -> IsCloudMetadata ip = true <-> metadata (addrOf ip).
Proof.
  intros Ha. assert (IsCloudMetadata ip = existsb (fun m => Equal m ip) metadataIPs) as ->.
  { destruct ip; [by destruct Ha as [[|] _]|done]. }
  assert (Forall is_addr metadataIPs) as Hm.
  { vm_compute metadataIPs. repeat (apply Forall_cons; split; [split; [by right|by repeat constructor]|]). constructor. }
  assert (metadata (addrOf ip) <-> addrOf ip ∈ addrOf <$> metadataIPs) as ->.
  { unfold metadata. vm_compute (addrOf <$> _). vm_compute [A4 (v4 169 254 169 254); _; _; _]. done. }
  rewrite existsb_exists, list_elem_of_fmap. split.
  - intros (m & Hi & He). apply list_elem_of_In in Hi. exists m. split; [|done]. symmetry. apply Equal_addrOf; [|done|done].
    by apply (proj1 (Forall_forall _ _) Hm).
  - intros (m & He & Hi). exists m. split; [by apply list_elem_of_In|]. apply Equal_addrOf; [|done|done].
    by apply (proj1 (Forall_forall _ _) Hm).
Qed.

Lemma multicast_byte a : is_byte a -> Z.land a 240 =? 224 = ((224 <=? a) && (a <=? 239)).
Proof.
  intros Ha. apply (eqb_prop _ _).
  by apply (below_check (fun a => eqb (Z.land a 240 =? 224) ((224 <=? a) && (a <=? 239))) 8); [vm_compute; reflexivity|].
Qed.

Lemma isNonUnicast_spec ip : is_addr ip ->
  isNonUnicast ip = true <->
  match addrOf ip with A4 z => z = 0 \/ within multicastV4 z | A6 z => z = 0 \/ within multicastV6 z end.
Proof.
  intros Ha. assert (isNonUnicast ip = Equal ip IPv4zero || Equal ip IPv6unspecified || IsMulticast ip ||
    match To4 ip with Some ip4 => Equal ip4 IPv4bcast | None => false end) as ->.
  { unfold isNonUnicast, IsUnspecified. by destruct (_ || IsMulticast ip). }
  assert (is_addr IPv4zero /\ is_addr IPv6unspecified /\ is_addr IPv4bcast) as (H1 & H2 & H3).
  { split; [|split]; (split; [by right|by repeat constructor]). }
  rewrite !orb_true_iff, !Equal_addrOf by done. vm_compute (addrOf IPv4zero). vm_compute (addrOf IPv6unspecified).
  unfold addrOf, IsMulticast, within. destruct (To4 ip) as [x|] eqn:E.
  - pose proof (To4_length _ _ E) as L. pose proof (To4_bytes _ _ (proj2 Ha) E) as B.
    rewrite Equal_addrOf by first [done|(split; [by left|done])]. vm_compute (addrOf IPv4bcast). unfold addrOf, To4. rewrite L.
    destruct x as [|a [|b [|c [|d [|]]]]]; try done. cbn [Nat.eqb num length].
    inversion B as [|? ? Ba B1]; inversion B1 as [|? ? Bb B2]; inversion B2 as [|? ? Bc B3]; inversion B3 as [|? ? Bd _]; subst.
    rewrite multicast_byte, andb_true_iff, !Z.leb_le by done. unfold is_byte in *.
    split.
    + intros [[[[= H]|[=]]|H]|[= H]]; [left; lia|right; exists (v4 224 0 0 0, v4 239 255 255 255)|right; exists (v4 255 255 255 255, v4 255 255 255 255)].
      * split; [by left|]. unfold v4. cbn. lia.
      * split; [right; by left|]. unfold v4. cbn. lia.
    + intros [H|(s & Hs & H)]; [left; left; left; f_equal; lia|]. apply elem_of_cons in Hs as [->|Hs]; [|apply list_elem_of_singleton in Hs as ->].
      * left. right. unfold v4 in H. cbn in H. lia.
      * right. f_equal. unfold v4 in H. cbn in H. lia.
  - destruct Ha as [[L|L] B]; [unfold To4 in E; by rewrite L in E|]. rewrite L. destruct ip as [|b ip]; [done|]. injection L as L.
    apply Forall_cons in B as [Bb B]. pose proof (num_range ip B) as R. cbn [num Nat.eqb andb]. rewrite L in *. unfold is_byte in Bb.
    change (8 * Z.of_nat 15) with 120 in *. rewrite Z.eqb_eq. split.
    + intros [[[[=]|[= H]]|H]|[=]]; [by left|right]. exists (255 * 2 ^ 120, 2 ^ 128 - 1). split; [by left|]. cbn [fst snd]. lia.
    + intros [H|(s & ->%list_elem_of_singleton & H)]; [left; left; right; by f_equal|]. left. right. cbn [fst snd] in H. lia.
Qed.

Lemma match_cons {A B} (l : list A) (a b : B) : l <> [] -> match l with [] => a | _ :: _ => b end = b.
Proof. by destruct l. Qed.

Lemma internal_spec ip : is_addr ip -> IsPrivate ip || isNonUnicast ip = true <-> internal (addrOf ip).
Proof.
  intros Ha. rewrite orb_true_iff, isPrivate_spec, isNonUnicast_spec by done. unfold internal, within.
  destruct (addrOf ip) as [z|z];
    setoid_rewrite elem_of_app; (split; [intros [(s & ? & ?)|[->|(s & ? & ?)]]|intros (s & [?|?] & ?)]); eauto.
  - exists (v4 0 0 0 0, v4 0 255 255 255). split; [left; by left|done].
  - exists (0, 0). split; [left; by do 3 right; left|done].
Qed.

Lemma validateIP_spec ip blockPrivate :
  is_addr ip ->
  (ValidateIP ip blockPrivate = Some EMetadata <-> metadata (addrOf ip)) /\
  (ValidateIP ip blockPrivate = None <-> ~ metadata (addrOf ip) /\ (blockPrivate = true -> ~ internal (addrOf ip))) /\
  ValidateIP (As16 ip) blockPrivate = ValidateIP ip blockPrivate.
Proof.
  assert (forall ip, is_addr ip -> (ValidateIP ip blockPrivate = Some EMetadata <-> metadata (addrOf ip)) /\
    (ValidateIP ip blockPrivate = None <-> ~ metadata (addrOf ip) /\ (blockPrivate = true -> ~ internal (addrOf ip)))) as H.
  { clear ip. intros ip Ha. pose proof (isCloudMetadata_spec ip Ha) as Hm.
    pose proof (internal_spec ip Ha) as Hi.
    unfold ValidateIP. destruct (IsCloudMetadata ip); [split; split; try done; [intros _; by apply Hm|]; intros [[] _]; by apply Hm|].
    assert (~ metadata (addrOf ip)) as Hnm by (intros ?%Hm; done).
    replace (match ip with [] => false | _ => isNonUnicast ip end) with (isNonUnicast ip) by (by destruct ip; [destruct Ha as [[|] _]|]).
    destruct blockPrivate; cbn [andb]; [|split; split; done].
    destruct (IsPrivate ip || isNonUnicast ip); split; split; try done.
    - intros [_ []]; [done|]. by apply Hi.
    - intros _. split; [done|]. intros _ ?%Hi. done. }
  intros Ha. destruct (H ip Ha) as [H1 H2]. split; [done|]. split; [done|].
  assert (is_addr (As16 ip)) as Ha' by (split; [right|]; by apply As16_addr).
  assert (forall a : bytes, is_addr a -> match a with [] => false | _ => isNonUnicast a end = isNonUnicast a) as Hne
    by (intros [|? ?] [[|] _]; done).
  unfold ValidateIP. rewrite !Hne by done.
  rewrite (eq_true_iff_eq (IsCloudMetadata (As16 ip)) (IsCloudMetadata ip)), (eq_true_iff_eq (IsPrivate (As16 ip)) (IsPrivate ip)),
    (eq_true_iff_eq (isNonUnicast (As16 ip)) (isNonUnicast ip)); [done|..].
  - by rewrite !isNonUnicast_spec, addrOf_As16.
  - by rewrite !isPrivate_spec, addrOf_As16.
  - by rewrite !isCloudMetadata_spec, addrOf_As16.
Qed.

(** Refused by the guard. *)
Lemma refused_spec ip b : is_addr ip ->
  is_Some (ValidateIP ip b) <-> metadata (addrOf ip) \/ b = true /\ internal (addrOf ip).
Proof.
  intros Ha. destruct (validateIP_spec ip b Ha) as (H1 & H2 & _). split.
  - intros [e He]. unfold ValidateIP in *. pose proof (isCloudMetadata_spec ip Ha) as Hm.
    destruct (IsCloudMetadata ip); [left; by apply Hm|]. right. destruct b; [|done]. split; [done|].
    apply internal_spec; [done|]. rewrite match_cons in He by (intros ->; by destruct Ha as [[|] _]).
    by destruct (IsPrivate ip || isNonUnicast ip).
  - intros [Hm|[-> Hi]].
    + apply H1 in Hm. by eexists.
    + destruct (ValidateIP ip true) eqn:E; [by eexists|]. destruct (proj1 H2 eq_refl) as [_ Hn]. by destruct Hn.
Qed.

(** * What an allowlist lets through *)

(** The entries of a list, printed as an operator writes them. *)
Inductive entry := EIP (ip : bytes) | ENet (ip : bytes) (n : Z) | EHost (h : bytes).

Definition entry_ok (e : entry) : Prop :=
  match e with
  | EIP ip => is_addr ip
  | ENet ip n => is_addr ip /\ 0 <= n <= 8 * Z.of_nat (length (canon ip))
  | EHost h => validHostname h = true /\ ParseIP h = []
  end.

Definition print (e : entry) : bytes :=
  match e with
  | EIP ip => IPString ip
  | ENet ip n => IPString ip ++ 47 :: Itoa n
  | EHost h => h
  end.

Definition listed (es : list entry) (a : addr) : Prop :=
  exists e, e ∈ es /\ match e with EIP ip => addrOf ip = a | ENet ip n => covers (addrOf ip) n a | EHost _ => False end.

(** No entry has a space, a comma, a bracket. *)
Definition plain (c : Z) : bool := negb (isSpace c) && negb (c =? 44) && negb (c =? 91) && negb (c =? 93).

Lemma trimLeft_plain s : Forall (fun c => plain c = true) s -> trimLeft s = s /\ trimLeftBrackets s = s.
Proof.
  intros H. destruct s as [|c s]; [done|]. apply Forall_cons in H as [Hc _]. unfold plain in Hc. cbn. bool_to_prop.
  rewrite H. rewrite !(proj2 (Z.eqb_neq c _)) by done. done.
Qed.

Lemma trim_plain s : Forall (fun c => plain c = true) s -> TrimSpace s = s /\ trimBrackets s = s.
Proof.
  intros H. unfold TrimSpace, trimBrackets. destruct (trimLeft_plain s H) as [-> ->].
  destruct (trimLeft_plain (rev s)) as [-> ->]; [by apply Forall_rev|]. by rewrite rev_involutive.
Qed.

Lemma hexc_plain c : hexc c = true \/ c = 58 \/ c = 46 \/ c = 47 -> plain c = true /\ c <> 47 \/ c = 47.
Proof.
  intros [H|[->|[->| ->]]]; [|by left|by left|by right]. left. unfold hexc in H. unfold plain, isSpace.
  rewrite !andb_true_iff, !negb_true_iff, orb_false_iff, andb_false_iff, !Z.leb_gt, !Z.eqb_neq.
  apply orb_true_iff in H as [H|H]; apply andb_true_iff in H as [?%Z.leb_le ?%Z.leb_le]; lia.
Qed.

Lemma IPString_plain ip : is_addr ip -> Forall (fun c => plain c = true) (IPString ip) /\ 47 ∉ IPString ip.
Proof.
  intros Ha. split.
  - apply Forall_forall. intros c Hc. destruct (hexc_plain c) as [[? _]| ->]; [|done|].
    + apply IPString_chars in Hc; [|done]. tauto.
    + apply IPString_chars in Hc; [|done]. by destruct Hc as [|[|]].
  - intros Hc%IPString_chars; [|done]. by destruct Hc as [|[|]].
Qed.

Lemma Itoa_plain n : 0 <= n -> Forall (fun c => plain c = true) (Itoa n).
Proof.
  intros Hn. pose proof (Itoa_digits n Hn) as H. eapply Forall_impl; [exact H|]. intros c Hc. unfold is_digit10 in Hc.
  destruct (hexc_plain c) as [[? _]|?]; [|done|lia]. left. unfold hexc. rewrite orb_true_iff, andb_true_iff, !Z.leb_le. by left.
Qed.

Lemma validHostname_chars h c : validHostname h = true -> c ∈ h -> label_ok c = true \/ c = 46.
Proof.
  unfold validHostname. destruct (_ || _); [done|]. intros H Hc.
  assert (forall s cur, forallb (fun label =>
         negb (match label with [] => true | c :: _ => (63 <? length label)%nat || (c =? 45) end ||
               match last label with Some c => c =? 45 | None => false end) &&
         forallb label_ok label) (split_from cur s 46) = true -> forall d, d ∈ s -> label_ok d = true \/ d = 46) as Hs.
  { assert (forall s cur, forallb (fun l : bytes => forallb label_ok l) (split_from cur s 46) = true ->
      (forall d, d ∈ s -> label_ok d = true \/ d = 46) /\ forallb label_ok cur = true) as Hs.
    { induction s as [|e s IH]; intros cur; cbn [split_from].
      - cbn. rewrite andb_true_r. intros Hf. split; [by intros d ?%elem_of_nil|]. apply forallb_forall. intros x Hx.
        rewrite forallb_forall in Hf. apply Hf, in_rev. by rewrite rev_involutive.
      - destruct (Z.eqb_spec e 46) as [->|He].
        + cbn [forallb]. rewrite andb_true_iff. intros [Hf Hr]. destruct (IH _ Hr) as [Hd _]. split.
          * intros d [->|Hin]%elem_of_cons; [by right|by apply Hd].
          * apply forallb_forall. intros x Hx. rewrite forallb_forall in Hf. apply Hf, in_rev. by rewrite rev_involutive.
        + intros Hr. destruct (IH _ Hr) as [Hd Hcur]. cbn in Hcur. apply andb_true_iff in Hcur as [He2 Hcur]. split; [|done].
          intros d [->|Hin]%elem_of_cons; [by left|by apply Hd]. }
    intros s cur Hf. apply (Hs s cur). apply forallb_forall. intros l Hl. rewrite forallb_forall in Hf.
    by apply Hf, andb_true_iff in Hl as [_ ?]. }
  destruct (HasSuffix h [46]) eqn:Es.
  - unfold TrimSuffix in H. rewrite Es in H. specialize (Hs _ _ H).
    unfold HasSuffix in Es. apply HasPrefix_spec in Es as [t Ht]. apply (f_equal (@rev Z)) in Ht. rewrite rev_involutive, rev_app_distr in Ht.
    cbn [rev app] in Ht. subst h. rewrite length_app in Hs. cbn [length] in Hs. rewrite Nat.add_sub, take_app_length in Hs.
    apply elem_of_app in Hc as [Hc|Hc]; [by apply Hs|]. right. by apply list_elem_of_singleton in Hc.
  - unfold TrimSuffix in H. rewrite Es in H. by apply (Hs _ _ H).
Qed.

Lemma host_plain h : validHostname h = true -> Forall (fun c => plain c = true) h /\ 47 ∉ h /\ h <> [].
Proof.
  intros Hv. assert (forall c, c ∈ h -> plain c = true /\ c <> 47) as H.
  { intros c Hc%(validHostname_chars h c Hv). unfold label_ok, plain, isSpace in *.
    destruct Hc as [Hc| ->]; [|done].
    rewrite !negb_true_iff, !andb_false_iff, !negb_false_iff, !orb_false_iff, !Z.ltb_ge, Z.eqb_eq in Hc.
    rewrite !andb_true_iff, !negb_true_iff, orb_false_iff, andb_false_iff, !Z.leb_gt, !Z.eqb_neq. lia. }
  split; [apply Forall_forall; intros; by apply H|]. split; [by intros [_ []]%H|]. by intros ->.
Qed.

(** ** Reading the entries back *)

Definition parsedAs (e : entry) : parsedEntry :=
  match e with
  | EIP ip => let ip := As16 (canon ip) in
              let bits := match To4 ip with None => 128 | Some _ => 32 end in PNet (MkNet ip (CIDRMask bits bits))
  | ENet ip n => let m := maskBytes (length (canon ip)) n in PNet (MkNet (maskIP (As16 (canon ip)) m) m)
  | EHost h => PHost (ToLower (TrimSuffix h [46]))
  end.

Lemma print_plain e : entry_ok e -> Forall (fun c => plain c = true) (print e) /\ print e <> [].
Proof.
  assert (forall ip, is_addr ip -> IPString ip <> []) as Hne.
  { intros ip Ha E. pose proof (ParseAddr_canon ip Ha) as H. by rewrite E in H. }
  destruct e as [ip|ip n|h]; cbn [entry_ok print].
  - intros Ha. split; [by apply IPString_plain|by apply Hne].
  - intros [Ha Hn]. split; [|by destruct (IPString ip)]. apply Forall_app. split; [by apply IPString_plain|].
    constructor; [done|]. apply Itoa_plain. lia.
  - intros [Hv _]. split; by apply host_plain.
Qed.

Lemma parseEntry_print e : entry_ok e -> parseEntry (print e) = parsedAs e.
Proof.
  intros Hok. destruct (print_plain e Hok) as [Hp Hne]. destruct (trim_plain _ Hp) as [Ht Hb].
  unfold parseEntry. rewrite Ht. destruct (print e) as [|c t] eqn:E; [done|]. rewrite Hb. clear Ht Hb Hp. rewrite <- E. clear c t E Hne.
  destruct e as [ip|ip n|h]; cbn [entry_ok print parsedAs] in *.
  - destruct (IPString_plain ip Hok) as [_ Hs]. assert (ParseCIDR (IPString ip) = None) as ->.
    { unfold ParseCIDR, Cut. by rewrite (proj2 (IndexByte_None _ _)). }
    rewrite ParseIP_String by done. destruct (canon_addr ip Hok) as [Hc _]. destruct (As16_addr _ Hc) as [Hl _].
    by destruct (As16 (canon ip)).
  - destruct Hok as [Ha Hn]. by rewrite ParseCIDR_String.
  - destruct Hok as [Hv Hip]. destruct (host_plain h Hv) as (_ & Hs & _). assert (ParseCIDR h = None) as ->.
    { unfold ParseCIDR, Cut. by rewrite (proj2 (IndexByte_None _ _)). }
    by rewrite Hip, Hv.
Qed.

Definition hostNames (es : list entry) : list bytes :=
  omap (fun e => match e with EHost h => Some (ToLower (TrimSuffix h [46])) | _ => None end) es.

(** The networks of a list hold what it lists. *)
Definition netsOf (es : list entry) : list IPNet :=
  omap (fun e => match parsedAs e with PNet n => Some n | _ => None end) es.

Lemma netsOf_listed es x : Forall entry_ok es -> is_addr x ->
  existsb (fun n => netContains n x) (netsOf es) = true <-> listed es (addrOf x).
Proof.
  intros Hok Hx. rewrite existsb_exists. unfold listed, netsOf. split.
  - intros (n & Hn & Hc). apply list_elem_of_In, list_elem_of_omap in Hn as (e & He & Hn). exists e. split; [done|].
    pose proof (proj1 (Forall_forall _ _) Hok e He) as Hoe.
    destruct e as [ip|ip k|h]; [|destruct Hoe as [Ha Hk]|done]; injection Hn as <-.
    + by apply single_covers in Hc.
    + by apply prefix_covers in Hc.
  - intros (e & He & Hc). pose proof (proj1 (Forall_forall _ _) Hok e He) as Hoe.
    destruct e as [ip|ip k|h]; [|destruct Hoe as [Ha Hk]|done]; cbn [entry_ok] in *.
    + eexists. split; [apply list_elem_of_In, list_elem_of_omap; exists (EIP ip); split; [done|reflexivity]|]. by apply single_covers.
    + eexists. split; [apply list_elem_of_In, list_elem_of_omap; exists (ENet ip k); split; [done|reflexivity]|]. by apply prefix_covers.
Qed.

Lemma ParseAllow_print es : Forall entry_ok es ->
  ParseAllow (join [44] (print <$> es)) =
  (match es with [] => None | _ => Some (MkAllow (netsOf es) (hostNames es) None 0) end, []).
Proof.
  intros Hok. unfold ParseAllow. destruct es as [|e es]; [vm_compute; reflexivity|]. set (l := e :: es) in *.
  rewrite Split_join; [|done|].
  2:{ apply Forall_fmap. eapply Forall_impl; [exact Hok|]. intros a Ha. destruct (print_plain a Ha) as [Hp _].
      intros Hin. pose proof (proj1 (Forall_forall _ _) Hp _ Hin). done. }
  assert (parseEntry <$> (print <$> l) = parsedAs <$> l) as ->.
  { rewrite <- list_fmap_compose. apply list_fmap_ext. intros i a Ha. apply parseEntry_print. by eapply Forall_lookup_1. }
  assert (forall A (f : parsedEntry -> option A), omap f (parsedAs <$> l) = omap (fun e => f (parsedAs e)) l) as Ho.
  { intros A f. clear. induction l as [|a l IH]; [done|]. cbn in *. by rewrite IH. }
  rewrite !Ho. fold (netsOf l).
  assert (omap (fun e => match parsedAs e with PHost h => Some h | _ => None end) l = hostNames l) as ->.
  { unfold hostNames. clear. induction l as [|[] l IH]; cbn in *; [done|by rewrite IH..]. }
  assert (omap (fun e => match parsedAs e with PBad b => Some b | _ => None end) l = []) as ->.
  { clear. induction l as [|[] l IH]; done. }
  assert (netsOf l = [] -> hostNames l = [] -> False) as Hnot by (unfold l; by destruct e).
  destruct (netsOf l), (hostNames l); try done. by destruct Hnot.
Qed.

(** The addresses of the hosts that a check at [now] sees. *)
Definition hostIPsAt (lookup : Z -> bytes -> option (list bytes)) (now : Z) (al : option Allow) : list bytes :=
  match al with
  | None => []
  | Some a => match al_hosts a with [] => [] | _ => fst (hostAddrs lookup now a) end
  end.

Definition sameEntries (al al' : option Allow) : Prop :=
  (fun a => (al_nets a, al_hosts a)) <$> al = (fun a => (al_nets a, al_hosts a)) <$> al'.

Lemma hostAddrs_same lookup now a : sameEntries (Some (snd (hostAddrs lookup now a))) (Some a).
Proof. unfold hostAddrs. destruct (al_hostIPs a); [destruct (_ <? _)|]; done. Qed.

Lemma allowContains_spec lookup now es al x :
  Forall entry_ok es -> sameEntries al (fst (ParseAllow (join [44] (print <$> es)))) -> is_addr x ->
  Forall is_addr (hostIPsAt lookup now al) ->
  let '(r, al') := allowContains lookup now x al in
  sameEntries al' al /\
  (r = true <-> ~ metadata (addrOf x) /\
     (listed es (addrOf x) \/ exists ip, ip ∈ hostIPsAt lookup now al /\ addrOf ip = addrOf x)).
Proof.
  intros Hok Hsame Hx Hips. rewrite ParseAllow_print in Hsame by done. cbn [fst] in Hsame.
  destruct al as [a|].
  2:{ destruct es; [|done]. cbn. split; [done|]. split; [done|]. intros [_ [(e & He & _)|(ip & Hin & _)]].
      - by apply elem_of_nil in He.
      - by apply elem_of_nil in Hin. }
  assert (al_nets a = netsOf es /\ al_hosts a = hostNames es) as [Hn Hh] by (destruct es; [done|by injection Hsame]).
  unfold allowContains. pose proof (isCloudMetadata_spec x Hx) as Hm.
  rewrite match_cons by (intros ->; by destruct Hx as [[|] _]). destruct (IsCloudMetadata x); [split; [done|]; split; [done|]; intros [[] _]; by apply Hm|].
  assert (~ metadata (addrOf x)) as Hnm by (intros ?%Hm; done).
  rewrite Hn. pose proof (netsOf_listed es x Hok Hx) as Hl. destruct (existsb _ (netsOf es)).
  { split; [done|]. split; [|done]. intros _. split; [done|]. left. by apply Hl. }
  assert (~ listed es (addrOf x)) as Hnl by (intros ?%Hl; done).
  unfold hostIPsAt in *. rewrite Hh in *. destruct (hostNames es) as [|h hs].
  { split; [done|]. split; [done|]. intros [_ [?|(ip & Hin & _)]]; [done|by apply elem_of_nil in Hin]. }
  pose proof (hostAddrs_same lookup now a) as Hs. destruct (hostAddrs lookup now a) as [ips a']. cbn [fst snd] in *.
  split; [done|]. rewrite existsb_exists. split.
  - intros (ip & Hin & Heq). apply list_elem_of_In in Hin. split; [done|]. right. exists ip. split; [done|].
    apply Equal_addrOf; [by apply (proj1 (Forall_forall _ _) Hips)|done|done].
  - intros [_ [?|(ip & Hin & Heq)]]; [done|]. exists ip. split; [by apply list_elem_of_In|].
    apply Equal_addrOf; [by apply (proj1 (Forall_forall _ _) Hips)|done|done].
Qed.

(** An allowlist written as addresses, prefixes and host names is read
    without loss, and DialControlAllow then lets a dial through exactly when its
    address is no metadata address and, with private addresses blocked, is
    public, listed, or currently the address of a listed host; whatever the
    cache of host addresses holds. *)
Lemma allow_exact es :
  Forall entry_ok es ->
  let '(a, bad) := ParseAllow (join [44] (print <$> es)) in
  bad = [] /\
  forall lookup blockPrivate now address al,
    sameEntries al a -> Forall is_addr (hostIPsAt lookup now al) ->
    let '(err, al') := DialControlAllow lookup blockPrivate now address al in
    sameEntries al' a /\
    match SplitHostPort address with
    | None => err = Some EAddress
    | Some (host, _) =>
        let x := addrOf (ParseIP host) in
        (err = Some ENotIP <-> ParseIP host = []) /\
        (ParseIP host <> [] ->
         err = None <-> ~ metadata x /\ (blockPrivate = true -> internal x -> listed es x \/
           exists ip, ip ∈ hostIPsAt lookup now al /\ addrOf ip = x))
    end.
Proof.
  intros Hok. pose proof (ParseAllow_print es Hok) as Hp.
  destruct (ParseAllow (join [44] (print <$> es))) as [a bad] eqn:E. split; [by injection Hp|].
  intros lookup bp now address al Hsame Hips. unfold DialControlAllow, DialControl.
  assert (forall ip, is_addr ip -> ValidateIP ip bp <> Some ENotIP) as Hnot.
  { intros ip _. unfold ValidateIP. by repeat case_match. }
  destruct (SplitHostPort address) as [[host port]|]; [|by destruct al].
  destruct (ParseIP host) as [|c t] eqn:Ei; [by destruct al|]. rewrite <- Ei.
  assert (is_addr (ParseIP host)) as Hx by (split; [right|]; apply ParseIP_addr; by rewrite Ei).
  destruct (validateIP_spec (ParseIP host) bp Hx) as (_ & Hv & _).
  assert (ParseIP host <> []) as Hne by (by rewrite Ei). clear c t Ei.
  pose proof (allowContains_spec lookup now es al (ParseIP host) Hok) as Hc. rewrite E in Hc. specialize (Hc Hsame Hx Hips).
  assert (internal (addrOf (ParseIP host)) \/ ~ internal (addrOf (ParseIP host))) as Hdec.
  { rewrite <- (internal_spec _ Hx). destruct (_ || _); [by left|by right]. }
  destruct al as [al|].
  - unfold ValidateIPAllow. destruct bp.
    + destruct (allowContains lookup now (ParseIP host) (Some al)) as [r al'] eqn:Er. destruct Hc as [Hs Hr].
      split; [unfold sameEntries in *; congruence|]. destruct r.
      * destruct (proj1 Hr eq_refl) as [Hm Hl]. split; [split; [done|intros H; by rewrite H in Hne]|]. intros _. split; [|done].
        intros _. split; [done|]. by intros _ _.
      * split; [split; [by intros ?%Hnot|done]|]. intros _. rewrite Hv. split.
        -- intros [Hm Hi]. split; [done|]. intros _ ?. by destruct Hi.
        -- intros [Hm Hi]. split; [done|]. intros _ Hint. specialize (Hi eq_refl Hint). by specialize (proj2 Hr (conj Hm Hi)).
    + split; [done|]. split; [split; [by intros ?%Hnot|done]|]. intros _. rewrite Hv.
      split; intros [Hm _]; (split; [done|by intros ?]).
  - split; [done|]. split; [split; [by intros ?%Hnot|done]|]. intros _. rewrite Hv. split.
    + intros [Hm Hi]. split; [done|]. intros Hb Hint. by destruct (Hi Hb).
    + intros [Hm Hi]. split; [done|]. intros Hb Hint. destruct (Hi Hb Hint) as [Hl|(ip & Hin & _)]; [|by apply elem_of_nil in Hin].
      cbn in Hc. destruct Hc as [_ Hc]. by specialize (proj2 Hc (conj Hm (or_introl Hl))).
Qed.

(** ValidateIP refuses exactly what it should, in either form of an IPv4
    address: the cloud metadata addresses always, and when private addresses are
    blocked those of the listed ranges, the unspecified, the multicast and the
    broadcast ones, given here as spans of numbers. *)
Lemma validateIP_exact ip blockPrivate :
  is_addr ip ->
  (ValidateIP ip blockPrivate = Some EMetadata <-> metadata (addrOf ip)) /\
  (ValidateIP ip blockPrivate = None <-> ~ metadata (addrOf ip) /\ (blockPrivate = true -> ~ internal (addrOf ip))) /\
  ValidateIP (As16 ip) blockPrivate = ValidateIP ip blockPrivate.
Proof. apply validateIP_spec. Qed.

(** C12: ValidateIP refuses exactly the metadata addresses and, when private ones
    are blocked, the addresses in the listed spans, in either form of an IPv4
    address; a printed allowlist is read without loss, and a dial passes exactly
    when its address is no metadata address and is public, listed or an address
    of a listed host at the time. *)
Theorem guard_exact :
  (forall ip blockPrivate,
   is_addr ip ->
  (ValidateIP ip blockPrivate = Some EMetadata <-> metadata (addrOf ip)) /\
  (ValidateIP ip blockPrivate = None <-> ~ metadata (addrOf ip) /\ (blockPrivate = true -> ~ internal (addrOf ip))) /\
  ValidateIP (As16 ip) blockPrivate = ValidateIP ip blockPrivate) /\
  (forall es,
   Forall entry_ok es ->
  let '(a, bad) := ParseAllow (join [44] (print <$> es)) in
  bad = [] /\
  forall lookup blockPrivate now address al,
    sameEntries al a -> Forall is_addr (hostIPsAt lookup now al) ->
    let '(err, al') := DialControlAllow lookup blockPrivate now address al in
    sameEntries al' a /\
    match SplitHostPort address with
    | None => err = Some EAddress
    | Some (host, _) =>
        let x := addrOf (ParseIP host) in
        (err = Some ENotIP <-> ParseIP host = []) /\
        (ParseIP host <> [] ->
         err = None <-> ~ metadata x /\ (blockPrivate = true -> internal x -> listed es x \/
           exists ip, ip ∈ hostIPsAt lookup now al /\ addrOf ip = x))
    end).
Proof. split; [exact validateIP_exact|]. exact allow_exact. Qed.

(** A refresh in which one host answers forgets the addresses of a host that
    does not. *)
Lemma hostAddrs_forgets :
  let a := MkAllow [] [bs "nas.lan"; bs "tv.lan"] (Some [ParseIP (bs "10.0.0.1"); ParseIP (bs "10.0.0.2")]) 0 in
  let lookup := fun (now : Z) (h : bytes) => if bool_decide (h = bs "tv.lan") then Some [ParseIP (bs "10.0.0.2")] else None in
  fst (hostAddrs lookup allowHostRefresh a) = [ParseIP (bs "10.0.0.2")].
Proof. vm_compute. reflexivity. Qed.

(** * Witnesses *)

Definition wit_entries : list entry := [EIP [192; 168; 1; 10]; ENet [10; 0; 0; 0] 24; EHost (bs "nas.lan")].

Lemma wit_entries_ok : Forall entry_ok wit_entries.
Proof.
  repeat (apply Forall_cons; split); [by apply is_addr_check| | |constructor].
  - split; [by apply is_addr_check|]. vm_compute. split; discriminate.
  - split; vm_compute; reflexivity.
Qed.

Definition wit_lookup (now : Z) (h : bytes) : option (list bytes) := Some [[192; 168; 1; 50]].

Lemma guard_exact_witness :
  (ValidateIP [10; 0; 0; 1] true = Some EPrivate /\ ~ metadata (addrOf [10; 0; 0; 1]) /\
  ValidateIP (As16 [8; 8; 8; 8]) true = ValidateIP [8; 8; 8; 8] true) /\
  (snd (ParseAllow (join [44] (print <$> wit_entries))) = [] /\
  fst (DialControlAllow wit_lookup true 0 (bs "10.0.0.77:80") (fst (ParseAllow (join [44] (print <$> wit_entries))))) = None /\
  fst (DialControlAllow wit_lookup true 0 (bs "192.168.1.50:80") (fst (ParseAllow (join [44] (print <$> wit_entries))))) = None /\
  fst (DialControlAllow wit_lookup true 0 (bs "10.0.1.77:80") (fst (ParseAllow (join [44] (print <$> wit_entries))))) = Some EPrivate).
Proof.
  destruct guard_exact as [P1 P2]. split.
  { assert (is_addr [10; 0; 0; 1]) as A1 by (by apply is_addr_check).
    assert (is_addr [8; 8; 8; 8]) as A2 by (by apply is_addr_check).
    split; [vm_compute; reflexivity|]. split.
    - intros Hm. apply (proj1 (P1 [10; 0; 0; 1] true A1)) in Hm. vm_compute in Hm. discriminate.
    - apply (P1 [8; 8; 8; 8] true A2). }
  { split; [|split; [|split; vm_compute; reflexivity]].
    - pose proof (P2 wit_entries wit_entries_ok) as H. destruct (ParseAllow _) as [a bad]. exact (proj1 H).
    - pose proof (P2 wit_entries wit_entries_ok) as H. destruct (ParseAllow _) as [a bad] eqn:E. cbn [fst].
      destruct H as [_ H]. assert (Forall is_addr (hostIPsAt wit_lookup 0 a)) as Hi.
      { replace a with (fst (ParseAllow (join [44] (print <$> wit_entries)))) by (by rewrite E). 
        replace (hostIPsAt _ _ _) with [[192; 168; 1; 50]] by (vm_compute; reflexivity).
        apply Forall_cons. split; [by apply is_addr_check|constructor]. }
      specialize (H wit_lookup true 0 (bs "10.0.0.77:80") a eq_refl Hi).
      destruct (DialControlAllow _ _ _ _ _) as [err a'] eqn:Ed. destruct H as [_ [_ H]].
      apply H; [vm_compute; discriminate|]. split.
      + vm_compute. intros Hin. repeat (apply elem_of_cons in Hin as [Hin|Hin]; [discriminate|]). by apply elem_of_nil in Hin.
      + intros _ _. left. exists (ENet [10; 0; 0; 0] 24). split; [right; left|]. vm_compute. reflexivity. }
Defined.
