(* ===== verification/FtpOpen.v ===== *)
(** Opening a remote file at an offset (internal/ftpstream/ftpstream.go) and the
    metadata caches behind it (internal/ftpstream/pool.go): SIZE answers and
    pre-flight verdicts, each a map with an expiry and a cap.

    DNS, the servers and the connections are the environment: their answers are
    arguments.  Reading the body of a response yields its bytes. *)

From S2P Require Import Prelude GoStrings NetIP Netguard.

(** * The metadata caches *)

Section Meta.
Context {K V : Type} `{Countable K}.

(** ftpSizeEntry and preflightEntry. *)
Record metaEntry := MkMeta { me_val : V; me_expires : Z }.

Abbreviation cache := (gmap K metaEntry).
Implicit Types m : cache.

Definition fresh (now : Z) (e : metaEntry) : bool := now <? me_expires e.

Definition metaGet (k : K) (now : Z) m : option V :=
  match m !! k with
  | Some e => if fresh now e then Some (me_val e) else None
  | None => None
  end.

Definition dropExpired (now : Z) m : cache := filter (fun kv => fresh now kv.2 = true) m.

(** Arbitrary entries go, in the order the map is met, until it is below the cap. *)
Fixpoint trim_loop (limit : Z) (order : list K) m : cache :=
  match order with
  | [] => m
  | k :: order => if Z.of_nat (size m) <? limit then m else trim_loop limit order (delete k m)
  end.

Definition trim (limit : Z) (order : list K) (now : Z) m : cache := trim_loop limit order (dropExpired now m).

Definition metaPut (limit ttl : Z) (order : list K) (k : K) (v : V) (now : Z) m : cache :=
  let m := match m !! k with
           | None => if limit <=? Z.of_nat (size m) then trim limit order now m else m
           | Some _ => m
           end in
  <[k := MkMeta v (now + ttl)]> m.

(** * Runs against the unbounded table *)

Inductive meta_op :=
| MPut (order : list K) (k : K) (v : V) (now : Z)
| MForget (k : K)
| MEvict (now : Z).

Definition run_meta (limit ttl : Z) m (o : meta_op) : cache :=
  match o with
  | MPut order k v now => metaPut limit ttl order k v now m
  | MForget k => delete k m
  | MEvict now => dropExpired now m
  end.

Definition spec_meta (ttl : Z) m (o : meta_op) : cache :=
  match o with
  | MPut _ k v now => <[k := MkMeta v (now + ttl)]> m
  | MForget k => delete k m
  | MEvict _ => m
  end.

(** A put's iteration meets every key of the map it finds. *)
Fixpoint covering (limit ttl : Z) m (ops : list meta_op) : Prop :=
  match ops with
  | [] => True
  | o :: ops =>
      match o with MPut order _ _ _ => forall k, is_Some (m !! k) -> k ∈ order | _ => True end /\
      covering limit ttl (run_meta limit ttl m o) ops
  end.

Lemma trim_loop_spec limit order m :
  (forall k, is_Some (m !! k) -> k ∈ order) -> 1 <= limit ->
  trim_loop limit order m ⊆ m /\ Z.of_nat (size (trim_loop limit order m)) < limit.
Proof.
  revert m. induction order as [|k order IH]; intros m Hc Hl; cbn.
  { assert (m = ∅) as ->; [|split; [done|rewrite map_size_empty; lia]].
    apply map_empty. intros k. apply eq_None_not_Some. intros Hk. by apply Hc, not_elem_of_nil in Hk. }
  destruct (Z.ltb_spec (Z.of_nat (size m)) limit); [done|].
  destruct (IH (delete k m)) as [Hs Hlt]; [|done|].
  - intros k' [Hne Hk']%lookup_delete_is_Some. apply Hc, elem_of_cons in Hk' as [->|]; done.
  - split; [|done]. etrans; [exact Hs|]. apply delete_subseteq.
Qed.

Lemma metaPut_spec limit ttl order k v now m spec :
  (forall k, is_Some (m !! k) -> k ∈ order) -> 1 <= limit -> Z.of_nat (size m) <= limit -> m ⊆ spec ->
  Z.of_nat (size (metaPut limit ttl order k v now m)) <= limit /\
  metaPut limit ttl order k v now m ⊆ <[k := MkMeta v (now + ttl)]> spec.
Proof.
  intros Hc Hl Hs Hm. unfold metaPut. destruct (m !! k) as [e|] eqn:Hk.
  { split; [|by apply insert_mono]. rewrite map_size_insert_Some by (by eexists). done. }
  destruct (Z.leb_spec limit (Z.of_nat (size m))) as [Hfull|Hroom].
  - unfold trim. destruct (trim_loop_spec limit order (dropExpired now m)) as [Hsub Hlt]; [|done|].
    { intros k' [e He]. apply Hc. apply map_lookup_filter_Some in He as [He _]. by eexists. }
    assert (trim_loop limit order (dropExpired now m) ⊆ m) as Hsub'.
    { etrans; [exact Hsub|]. apply map_filter_subseteq. }
    split; [|apply insert_mono; by etrans]. rewrite map_size_insert_None; [lia|].
    by eapply lookup_weaken_None.
  - split; [|by apply insert_mono]. rewrite map_size_insert_None by done. lia.
Qed.

Lemma run_meta_spec limit ttl ops m spec :
  1 <= limit -> covering limit ttl m ops -> Z.of_nat (size m) <= limit -> m ⊆ spec ->
  Z.of_nat (size (foldl (run_meta limit ttl) m ops)) <= limit /\
  foldl (run_meta limit ttl) m ops ⊆ foldl (spec_meta ttl) spec ops.
Proof.
  intros Hl. revert m spec. induction ops as [|o ops IH]; intros m spec Hc Hs Hm; cbn; [done|].
  destruct Hc as [Ho Hc]. apply IH; [done| |]; destruct o as [order k v now|k|now]; cbn in *.
  - by apply (metaPut_spec limit ttl order k v now m spec).
  - etrans; [|exact Hs]. apply inj_le, map_subseteq_size, delete_subseteq.
  - etrans; [|exact Hs]. apply inj_le, map_subseteq_size, map_filter_subseteq.
  - by apply (metaPut_spec limit ttl order k v now m spec).
  - by apply delete_mono.
  - etrans; [|exact Hm]. apply map_filter_subseteq.
Qed.

Lemma metaGet_spec limit ttl ops k now v :
  1 <= limit -> covering limit ttl ∅ ops ->
  metaGet k now (foldl (run_meta limit ttl) ∅ ops) = Some v ->
  exists e, foldl (spec_meta ttl) ∅ ops !! k = Some e /\ me_val e = v /\ now < me_expires e.
Proof.
  intros Hl Hc. destruct (run_meta_spec limit ttl ops ∅ ∅ Hl Hc ltac:(rewrite map_size_empty; lia) ltac:(done)) as [_ Hs].
  unfold metaGet. destruct (_ !! k) as [e|] eqn:E; [|done]. unfold fresh.
  destruct (Z.ltb_spec now (me_expires e)); [|done]. intros [= <-]. exists e. split; [|done]. by eapply lookup_weaken.
Qed.

End Meta.

Arguments metaEntry : clear implicits.
Arguments meta_op : clear implicits.

(** * The two caches *)

Record ftpSizeKey := MkSizeKey { sk_addr : bytes; sk_user : bytes; sk_path : bytes }.

#[export] Instance ftpSizeKey_eq_dec : EqDecision ftpSizeKey.
Proof. solve_decision. Defined.

#[export] Instance ftpSizeKey_countable : Countable ftpSizeKey.
Proof.
  refine (inj_countable' (fun k => (sk_addr k, sk_user k, sk_path k)) (fun '(a, u, p) => MkSizeKey a u p) _).
  by intros [].
Defined.

Definition ftpSizeTTL : Z := 15.
Definition ftpSizeMaxEntries : Z := 256.
Definition preflightTTL : Z := 30.
Definition preflightMaxEntries : Z := 256.

Abbreviation sizeCache := (gmap ftpSizeKey (metaEntry Z)).

Definition ftpSizeGet (k : ftpSizeKey) (now : Z) (m : sizeCache) : Z * bool :=
  match metaGet k now m with Some size => (size, true) | None => (-1, false) end.

Definition ftpSizePut (order : list ftpSizeKey) (k : ftpSizeKey) (size now : Z) (m : sizeCache) : sizeCache :=
  metaPut ftpSizeMaxEntries ftpSizeTTL order k size now m.

Definition ftpSizeForget (k : ftpSizeKey) (m : sizeCache) : sizeCache := delete k m.

Section Preflight.
Context {Addr Err : Type} (ValidateIP : bool -> Addr -> option Err).

(** preflightKey, and the verdicts, [None] when the host may be dialled. *)
Abbreviation verdicts := (gmap (bytes * bool) (metaEntry (option Err))).

(** The scan of the resolved addresses: one allowed address is enough. *)
Fixpoint scan (blockPrivate : bool) (firstErr : option Err) (addrs : list Addr) : option Err :=
  match addrs with
  | [] => firstErr
  | a :: addrs =>
      match ValidateIP blockPrivate a with
      | Some e => scan blockPrivate (match firstErr with None => Some e | Some _ => firstErr end) addrs
      | None => None
      end
  end.

(** preflightHost; [lookup] is the resolver's answer, [None] an error. *)
Definition preflightHost (order : list (bytes * bool)) (host : bytes) (blockPrivate : bool)
    (lookup : option (list Addr)) (now : Z) (m : verdicts) : option Err * verdicts :=
  match metaGet (host, blockPrivate) now m with
  | Some verdict => (verdict, m)
  | None =>
      match lookup with
      | None | Some [] => (None, m)
      | Some addrs =>
          let verdict := scan blockPrivate None addrs in
          (verdict, metaPut preflightMaxEntries preflightTTL order (host, blockPrivate) verdict now m)
      end
  end.

Lemma scan_spec b firstErr addrs :
  scan b firstErr addrs = None <->
  (exists a, a ∈ addrs /\ ValidateIP b a = None) \/ (firstErr = None /\ addrs = []).
Proof.
  revert firstErr. induction addrs as [|a addrs IH]; intros firstErr; cbn.
  { split; [by right|]. intros [(a & Ha & _)|[? _]]; [by apply not_elem_of_nil in Ha|done]. }
  destruct (ValidateIP b a) as [e|] eqn:Ea.
  - rewrite IH. split.
    + intros [(a' & Ha' & Hv)|[? _]]; [left; exists a'; split; [by right|done]|by destruct firstErr].
    + intros [(a' & Ha' & Hv)|[_ ?]]; [|done]. left. apply elem_of_cons in Ha' as [->|Ha']; [congruence|by eauto].
  - split; [|done]. intros _. left. exists a. split; [by left|done].
Qed.

End Preflight.

(** the SIZE cache never holds more than 256 answers, and any answer it gives
    is the last one recorded for that server, user and path, not forgotten since
    and less than 15 s old; a pre-flight verdict that is not cached blocks a host
    exactly when it resolves and every one of its addresses is rejected, and is
    then the cached one for that host and policy until it is 30 s old. *)
Lemma metadata_caches_sound {Addr Err} (ValidateIP : bool -> Addr -> option Err)
    (ops : list (meta_op ftpSizeKey Z)) (Hops : covering ftpSizeMaxEntries ftpSizeTTL ∅ ops) :
  let m := foldl (run_meta ftpSizeMaxEntries ftpSizeTTL) ∅ ops in
  Z.of_nat (size m) <= ftpSizeMaxEntries /\
  (forall k now size, ftpSizeGet k now m = (size, true) ->
     exists e, foldl (spec_meta ftpSizeTTL) ∅ ops !! k = Some e /\ me_val e = size /\ now < me_expires e) /\
  forall order host b lookup now now' vs, metaGet (host, b) now vs = None ->
    let '(verdict, vs') := preflightHost ValidateIP order host b lookup now vs in
    (is_Some verdict <-> exists addrs, lookup = Some addrs /\ addrs <> [] /\ forall a, a ∈ addrs -> is_Some (ValidateIP b a)) /\
    (is_Some verdict -> now <= now' < now + preflightTTL ->
     preflightHost ValidateIP order host b lookup now' vs' = (verdict, vs')).
Proof.
  intros m. split; [|split].
  - apply (run_meta_spec _ _ ops ∅ ∅); [done|done|by rewrite map_size_empty|done].
  - intros k now sz. unfold ftpSizeGet. destruct (metaGet k now m) as [v|] eqn:E; [|done]. intros [= <-].
    by apply (metaGet_spec ftpSizeMaxEntries).
  - intros order host b lookup now now' vs Hmiss. unfold preflightHost at 1. rewrite Hmiss.
    assert (Hnone : is_Some (None : option Err) <-> False) by (split; [by intros []|done]).
    destruct lookup as [[|a addrs]|].
    + split; [|by intros []]. rewrite Hnone. split; [done|]. intros (addrs & [= <-] & Hn & _). done.
    + split.
      * rewrite <- not_eq_None_Some, (scan_spec ValidateIP). split.
        -- intros Hs. exists (a :: addrs). split; [done|]. split; [done|]. intros a' Ha'. apply not_eq_None_Some.
           intros E. apply Hs. left. by eauto.
        -- intros (l & [= <-] & _ & Hall) [(a' & Ha' & E)|[_ ?]]; [|done]. destruct (Hall a' Ha'). congruence.
      * intros _ Hnow. unfold preflightHost, metaGet, metaPut. rewrite lookup_insert_eq. unfold fresh. cbn [me_expires].
        destruct (Z.ltb_spec now' (now + preflightTTL)); [done|lia].
    + split; [|by intros []]. rewrite Hnone. split; [done|]. intros (addrs & ? & _). done.
Qed.

(** * Opening over HTTP *)

Inductive httpErr := ErrRangeNotSatisfiable | ErrStatus | ErrSkip | ErrRequest.

(** A response to the GET, with the bytes its body yields and whether reading
    past them fails rather than ends. *)
Record response := MkResponse {
  r_status : Z; r_contentLength : Z; r_contentRange : bytes; r_body : bytes; r_bodyErr : bool
}.

(** What follows the last [c] of [s]. *)
Fixpoint afterLast (c : Z) (s : bytes) : option bytes :=
  match s with
  | [] => None
  | x :: s => match afterLast c s with Some t => Some t | None => if x =? c then Some s else None end
  end.

(** The total size a response gives, -1 when it gives none. *)
Definition responseSize (offset : Z) (resp : response) : Z :=
  let size :=
    match r_contentRange resp with
    | [] => -1
    | cr => match afterLast 47 cr with
            | Some t => match ParseInt t 64 with Ok n => if 0 <=? n then n else -1 | Err _ => -1 end
            | None => -1
            end
    end in
  if (size <? 0) && (0 <? r_contentLength resp) then
    if r_status resp =? 200 then r_contentLength resp else offset + r_contentLength resp
  else size.

(** openHTTP, the request having been answered: the bytes the reader yields, and
    the size. *)
Definition openHTTP (offset : Z) (resp : response) : result httpErr (bytes * Z) :=
  if r_status resp =? 416 then Err ErrRangeNotSatisfiable
  else if negb (r_status resp =? 200) && negb (r_status resp =? 206) then Err ErrStatus
  else if (0 <? offset) && (r_status resp =? 200) && ((r_contentLength resp <? 0) || (offset <? r_contentLength resp)) then
    if Z.of_nat (length (r_body resp)) <? offset then Err (if r_bodyErr resp then ErrSkip else ErrRangeNotSatisfiable)
    else Ok (drop (Z.to_nat offset) (r_body resp), responseSize offset resp)
  else Ok (r_body resp, responseSize offset resp).

(** openAt for http and https; [get] is the server's answer to the GET for an
    offset ([None] when the pre-flight or the request failed).  Result: the
    reader's bytes, the size, the position. *)
Definition openAt (get : Z -> option response) (offset : Z) (requireSize : bool) : result httpErr (bytes * Z * Z) :=
  match get offset with
  | None => Err ErrRequest
  | Some resp =>
      match openHTTP offset resp with
      | Err e => Err e
      | Ok (rc, size) =>
          if requireSize && (0 <? offset) && (size <? 0) then
            match get 0 with
            | None => Err ErrRequest
            | Some resp =>
                match openHTTP 0 resp with
                | Err e => Err e
                | Ok (rc, size) => Ok (rc, size, 0)
                end
            end
          else Ok (rc, size, offset)
      end
  end.

(** * Opening over FTP *)

(** The size and offset policy of open: the SIZE answer (cached for seeks only;
    [server] is the server's, [None] when it fails or is negative), what the
    cache becomes, and the offset RETR is given. *)
Definition ftpPlan (order : list ftpSizeKey) (sk : ftpSizeKey) (offset : Z) (requireSize : bool)
    (server : option Z) (now : Z) (m : sizeCache) : Z * Z * sizeCache :=
  let '(size, cached) := if 0 <? offset then ftpSizeGet sk now m else (-1, false) in
  let '(size, m) :=
    if cached then (size, m)
    else match server with
         | Some sz => if 0 <=? sz then (sz, ftpSizePut order sk sz now m) else (-1, m)
         | None => (-1, m)
         end in
  let offset := if requireSize && (0 <? offset) && (size <? 0) then 0 else offset in
  (size, offset, m).

(** * A server that serves [data] *)

(** The answers HTTP allows it for a request at [offset]: the whole resource, the
    rest of it with its range, or a refusal. *)
Definition serves (data : bytes) (offset : Z) (resp : response) : Prop :=
  let n := Z.of_nat (length data) in
  (r_status resp = 200 /\ r_body resp = data /\ r_bodyErr resp = false /\
     (r_contentLength resp = -1 \/ r_contentLength resp = n) /\ r_contentRange resp = []) \/
  (r_status resp = 206 /\ 0 < offset < n /\ r_body resp = drop (Z.to_nat offset) data /\
     (r_contentLength resp = -1 \/ r_contentLength resp = n - offset) /\
     (r_contentRange resp = [] \/
      exists range, r_contentRange resp = range ++ 47 :: Itoa n \/ r_contentRange resp = range ++ 47 :: bs "*")) \/
  r_status resp = 416.

Lemma afterLast_app c a b : c ∉ b -> afterLast c (a ++ c :: b) = Some b.
Proof.
  intros Hb. assert (afterLast c b = None) as E.
  { induction b as [|x b IH]; [done|]. apply not_elem_of_cons in Hb as [Hx Hb]. cbn. rewrite IH by done.
    by destruct (Z.eqb_spec x c). }
  induction a as [|x a IH]; cbn; [|by rewrite IH]. by rewrite E, Z.eqb_refl.
Qed.

Lemma slash_not_digit n : 0 <= n -> 47 ∉ Itoa n.
Proof.
  intros Hn Hin. pose proof (Itoa_digits n Hn) as Hd. rewrite Forall_forall in Hd. specialize (Hd 47 Hin).
  unfold is_digit10 in Hd. lia.
Qed.

Lemma responseSize_spec data offset resp :
  serves data offset resp -> r_status resp <> 416 -> Z.of_nat (length data) < 2 ^ 63 ->
  responseSize offset resp = -1 \/ responseSize offset resp = Z.of_nat (length data).
Proof.
  intros Hs Hne Hn. unfold responseSize.
  destruct Hs as [(Hst & _ & _ & Hcl & Hcr)|[(Hst & Ho & _ & Hcl & Hcr)|?]]; [| |done].
  - rewrite Hcr, Hst. cbn. destruct Hcl as [->| ->]; cbn; [by left|]. case_match; auto.
  - assert ((200 =? 206) = false) as E by done. rewrite Hst.
    destruct Hcr as [->|(range & [->| ->])].
    + cbn. destruct Hcl as [->| ->]; cbn; [by left|]. destruct (Z.ltb_spec 0 (Z.of_nat (length data) - offset)); [right; lia|by left].
    + destruct (range ++ 47 :: Itoa (Z.of_nat (length data))) as [|z zs] eqn:Ez; [by destruct range|]. rewrite <- Ez.
      rewrite afterLast_app by (apply slash_not_digit; lia). rewrite ParseInt_Itoa by lia.
      destruct (Z.leb_spec 0 (Z.of_nat (length data))); [|lia].
      destruct (Z.ltb_spec (Z.of_nat (length data)) 0); [lia|]. cbn. by right.
    + destruct (range ++ 47 :: bs "*") as [|z zs] eqn:Ez; [by destruct range|]. rewrite <- Ez.
      rewrite afterLast_app by by_decide. assert (ParseInt (bs "*") 64 = Err ErrSyntax) as -> by reflexivity. cbn.
      destruct Hcl as [->| ->]; cbn; [by left|]. destruct (Z.ltb_spec 0 (Z.of_nat (length data) - offset)); [right; lia|by left].
Qed.

Lemma openHTTP_spec data offset resp rc size :
  0 <= offset -> Z.of_nat (length data) < 2 ^ 63 -> serves data offset resp -> openHTTP offset resp = Ok (rc, size) ->
  (size = -1 \/ size = Z.of_nat (length data)) /\
  (rc = drop (Z.to_nat offset) data \/ size = Z.of_nat (length data) /\ size <= offset).
Proof.
  intros Ho Hn Hs H. unfold openHTTP in H. destruct (Z.eqb_spec (r_status resp) 416) as [|Hne]; [done|].
  pose proof (responseSize_spec data offset resp Hs Hne Hn) as Hsz.
  destruct Hs as [(Hst & Hb & Hbe & Hcl & Hcr)|[(Hst & Hoff & Hb & Hcl & Hcr)|?]]; [| |done]; rewrite Hst in H; cbn in H.
  - rewrite Hb in H. destruct (Z.ltb_spec 0 offset) as [H0|H0]; cbn in H.
    + destruct ((r_contentLength resp <? 0) || (offset <? r_contentLength resp)) eqn:Ec.
      * destruct (Z.ltb_spec (Z.of_nat (length data)) offset); [done|]. injection H as <- <-. auto.
      * injection H as <- <-. split; [done|]. apply orb_false_iff in Ec as [E1%Z.ltb_ge E2%Z.ltb_ge].
        destruct Hcl as [?|Hcl]; [lia|]. rewrite Hcl in E2. unfold responseSize. rewrite Hcr, Hst, Hcl. cbn.
        destruct (Z.ltb_spec 0 (Z.of_nat (length data))); cbn; [by right|]. left.
        destruct data; [by rewrite drop_nil|cbn in *; lia].
    + injection H as <- <-. assert (offset = 0) as -> by lia. auto.
  - rewrite andb_false_r in H. cbn in H. injection H as <- <-. auto.
Qed.

Lemma ftpPlan_spec order sk offset requireSize server now m :
  0 < offset ->
  let '(sz, off, m') := ftpPlan order sk offset requireSize server now m in
  (off = offset \/ off = 0) /\ (requireSize = true -> 0 < off -> 0 <= sz) /\ (requireSize = false -> off = offset) /\
  (snd (ftpSizeGet sk now m) = true -> sz = fst (ftpSizeGet sk now m) /\ m' = m).
Proof.
  intros Hpos. unfold ftpPlan. rewrite (proj2 (Z.ltb_lt 0 offset) Hpos).
  destruct (ftpSizeGet sk now m) as [sz cached]. cbn [fst snd].
  assert (Hoff : forall z, let off := if requireSize && true && (z <? 0) then 0 else offset in
    (off = offset \/ off = 0) /\ (requireSize = true -> 0 < off -> 0 <= z) /\ (requireSize = false -> off = offset)).
  { intros z. destruct requireSize, (Z.ltb_spec z 0); cbn; split_and!; auto; lia. }
  destruct cached; [|destruct server as [s|]; [destruct (0 <=? s)|]]; cbv beta iota zeta;
    (split; [apply Hoff|]); (split; [apply Hoff|]); (split; [apply Hoff|done]).
Qed.

(** against a server that serves [data], whatever form its answers take
    (a partial response, an ignored Range, a known or unknown length), the reader
    openAt returns yields the resource from the reported position on, the size is
    the resource's or unknown, and a caller that needs the size for a ranged
    answer gets it, or position 0; the one exception is a position at or past the
    reported size, where the reader is left alone for the caller to refuse.  The
    FTP plan makes the same promise of the offset it gives RETR, and a fresh
    cached size is used without asking the server. *)
Lemma opened_at_position (data : bytes) get offset requireSize rc size pos :
  (forall o resp, get o = Some resp -> serves data o resp) ->
  0 <= offset -> Z.of_nat (length data) < 2 ^ 63 ->
  openAt get offset requireSize = Ok (rc, size, pos) ->
  (pos = offset \/ pos = 0) /\ (size = -1 \/ size = Z.of_nat (length data)) /\
  (rc = drop (Z.to_nat pos) data \/ size = Z.of_nat (length data) /\ size <= pos) /\
  (requireSize = true -> 0 < pos -> 0 <= size) /\
  forall order sk server now m, 0 < offset ->
    let '(sz, off, m') := ftpPlan order sk offset requireSize server now m in
    (off = offset \/ off = 0) /\ (requireSize = true -> 0 < off -> 0 <= sz) /\ (requireSize = false -> off = offset) /\
    (snd (ftpSizeGet sk now m) = true -> sz = fst (ftpSizeGet sk now m) /\ m' = m).
Proof.
  intros Hserve Ho Hn H. unfold openAt in H.
  destruct (get offset) as [resp|] eqn:Eg; [|done]. destruct (openHTTP offset resp) as [[rc0 size0]|] eqn:Eo; [|done].
  pose proof (openHTTP_spec data offset resp rc0 size0 Ho Hn (Hserve _ _ Eg) Eo) as [Hs0 Hr0].
  destruct (requireSize && (0 <? offset) && (size0 <? 0)) eqn:Ec.
  - destruct (get 0) as [resp1|] eqn:Eg1; [|done]. destruct (openHTTP 0 resp1) as [[rc1 size1]|] eqn:Eo1; [|done].
    injection H as <- <- <-. pose proof (openHTTP_spec data 0 resp1 rc1 size1 ltac:(lia) Hn (Hserve _ _ Eg1) Eo1) as [? ?].
    split; [by right|]. split; [done|]. split; [done|]. split; [lia|]. intros. by apply ftpPlan_spec.
  - injection H as <- <- <-. split; [by left|]. split; [done|]. split; [done|]. split.
    + intros -> Hp. rewrite (proj2 (Z.ltb_lt 0 offset) Hp) in Ec. cbn in Ec. by apply Z.ltb_ge in Ec.
    + intros. by apply ftpPlan_spec.
Qed.

(** C39: Opening a remote resource. The SIZE cache never holds more than 256
    answers, and any answer it gives is the last one recorded for that server,
    user and path, not forgotten since and less than 15 s old. A pre-flight verdict
    that is not cached blocks a host exactly when it resolves and every one of its
    addresses is a metadata address or, with private hosts blocked, an internal
    one, and is then the cached one until it is 30 s old. Against a web server that
    serves [data], whatever form its answers take, the reader yields the resource
    from the reported position on, which is the requested one or the start; the
    size is the resource's or unknown, and known whenever a caller that needs it is
    given a later position (at or past the reported size the reader is left for the
    caller to refuse). The FTP plan makes the same promise of the offset it gives
    RETR, and uses a fresh cached size without asking the server. *)
Theorem openers_sound :
  (forall ops, covering ftpSizeMaxEntries ftpSizeTTL ∅ ops ->
   let m := foldl (run_meta ftpSizeMaxEntries ftpSizeTTL) ∅ ops in
   Z.of_nat (size m) <= ftpSizeMaxEntries /\
   forall (k : ftpSizeKey) now size, ftpSizeGet k now m = (size, true) ->
     exists e, foldl (spec_meta ftpSizeTTL) ∅ ops !! k = Some e /\ me_val e = size /\ now < me_expires e) /\
  (forall order host b lookup now now' vs, metaGet (host, b) now vs = None ->
   (forall addrs, lookup = Some addrs -> Forall is_addr addrs) ->
   let '(verdict, vs') := preflightHost (fun b ip => ValidateIP ip b) order host b lookup now vs in
   (is_Some verdict <-> exists addrs, lookup = Some addrs /\ addrs <> [] /\
      forall a, a ∈ addrs -> metadata (addrOf a) \/ b = true /\ internal (addrOf a)) /\
   (is_Some verdict -> now <= now' < now + preflightTTL ->
    preflightHost (fun b ip => ValidateIP ip b) order host b lookup now' vs' = (verdict, vs'))) /\
  (forall (data : bytes) get offset requireSize rc size pos,
   (forall o resp, get o = Some resp -> serves data o resp) ->
   0 <= offset -> Z.of_nat (length data) < 2 ^ 63 ->
   openAt get offset requireSize = Ok (rc, size, pos) ->
   (pos = offset \/ pos = 0) /\ (size = -1 \/ size = Z.of_nat (length data)) /\
   (rc = drop (Z.to_nat pos) data \/ size = Z.of_nat (length data) /\ size <= pos) /\
   (requireSize = true -> 0 < pos -> 0 <= size)) /\
  (forall order sk offset requireSize server now m, 0 < offset ->
   let '(sz, off, m') := ftpPlan order sk offset requireSize server now m in
   (off = offset \/ off = 0) /\ (requireSize = true -> 0 < off -> 0 <= sz) /\ (requireSize = false -> off = offset) /\
   (snd (ftpSizeGet sk now m) = true -> sz = fst (ftpSizeGet sk now m) /\ m' = m)).
Proof.
  split; [|split; [|split]].
  - intros ops Hops. destruct (metadata_caches_sound (fun (_ : bool) (_ : unit) => None : option unit) ops Hops) as (H1 & H2 & _). done.
  - intros order host b lookup now now' vs Hnone Haddr.
    destruct (metadata_caches_sound (fun b ip => ValidateIP ip b) [] I) as (_ & _ & H).
    specialize (H order host b lookup now now' vs Hnone). destruct (preflightHost _ _ _ _ _ _ _) as [verdict vs'].
    destruct H as [H1 H2]. split; [|done]. rewrite H1. split; intros (addrs & Hl & Hne & Hall); exists addrs; (split; [done|]);
      (split; [done|]); intros a Ha; specialize (Hall a Ha);
      pose proof (refused_spec a b (proj1 (Forall_forall _ _) (Haddr addrs Hl) a Ha)) as Hr; by apply Hr.
  - intros data get offset requireSize rc size pos Hs Ho Hn H.
    destruct (opened_at_position data get offset requireSize rc size pos Hs Ho Hn H) as (H1 & H2 & H3 & H4 & _). done.
  - intros. by apply ftpPlan_spec.
Qed.

(** ** Witnesses *)

Definition wit_key : ftpSizeKey := MkSizeKey (bs "h:21") (bs "u") (bs "/f").
Definition wit_ops : list (meta_op ftpSizeKey Z) := [MPut [] wit_key 10 0; MEvict 5; MPut [wit_key] wit_key 12 6].

Lemma wit_covering : covering ftpSizeMaxEntries ftpSizeTTL ∅ wit_ops.
Proof.
  split; [by intros k [? ?]|]. split; [done|]. split; [|done]. intros k [e He].
  assert (k = wit_key) as ->; [|by left]. cbn in He.
  apply map_lookup_filter_Some in He as [He _].
  unfold metaPut in He. rewrite lookup_empty in He. cbn in He.
  by apply lookup_insert_Some in He as [[<- _]|[_ ?]].
Qed.

(** A server that ignores Range and gives no length. *)
Definition wit_get (o : Z) : option response := Some (MkResponse 200 (-1) [] (bs "abcdef") false).

Lemma openers_sound_witness :
  (ftpSizeGet wit_key 20 (foldl (run_meta ftpSizeMaxEntries ftpSizeTTL) ∅ wit_ops) = (12, true) /\
   exists e, foldl (spec_meta ftpSizeTTL) ∅ wit_ops !! wit_key = Some e /\ me_val e = 12) /\
  is_Some (fst (preflightHost (fun b ip => ValidateIP ip b) [] (bs "h") true (Some [[10; 0; 0; 1]]) 0 ∅)) /\
  bs "abcdef" = drop 0 (bs "abcdef").
Proof.
  destruct openers_sound as (H1 & H2 & H3 & _). split; [|split].
  - split; [vm_compute; reflexivity|]. destruct (H1 wit_ops wit_covering) as [_ H].
    destruct (H wit_key 20 12 ltac:(vm_compute; reflexivity)) as (e & He & Hv & _). exists e. exact (conj He Hv).
  - assert (forall addrs, Some [[10; 0; 0; 1]] = Some addrs -> Forall is_addr addrs) as Ha.
    { intros addrs [= <-]. apply Forall_cons. split; [by apply is_addr_check|constructor]. }
    specialize (H2 [] (bs "h") true (Some [[10; 0; 0; 1]]) 0 1 ∅ eq_refl Ha).
    destruct (preflightHost _ _ _ _ _ _ _) as [verdict vs']. apply H2. exists [[10; 0; 0; 1]]. split; [reflexivity|].
    split; [discriminate|]. intros a ->%list_elem_of_singleton. right. split; [reflexivity|].
    exists (v4 10 0 0 0, v4 10 255 255 255). split; [right; left|]. vm_compute. split; discriminate.
  - destruct (H3 (bs "abcdef") wit_get 2 true (bs "abcdef") (-1) 0) as (_ & _ & [H|[H _]] & _).
    + intros o resp [= <-]. left. split_and!; try done. by left.
    + lia.
    + cbn. lia.
    + reflexivity.
    + exact H.
    + discriminate H.
Defined.
