(* ===== verification/FileAt.v ===== *)
(** Reading an archive without holding it open (internal/archive/fileat.go): every
    refill of a small read-ahead block opens the file, checks that it is still
    the one that was opened first, reads and closes.

    What each open finds is the environment's: [opens n] is the [n]-th one. *)

From S2P Require Import Prelude GoStrings.

Definition reopenMinBlock : Z := 4 * 1024.
Definition reopenMaxBlock : Z := 256 * 1024.

Inductive readErr := ErrNegative | EOF | ErrOpen | ErrChanged | ErrUnexpectedEOF | ErrRead.

(** What an open finds: no file, or its size, its modification time, the bytes
    reads of it see, and whether reading short of a request fails or ends. *)
Inductive snapshot :=
| Missing
| Found (size mtime : Z) (content : bytes) (readFails : bool).

(** fileAt: the read-ahead block holds the file's bytes from [fa_off]. *)
Record fileAt := MkFileAt { fa_size : Z; fa_mtime : Z; fa_buf : bytes; fa_off : Z }.

Definition newFileAt (s : snapshot) : result readErr fileAt :=
  match s with
  | Missing => Err ErrOpen
  | Found size mtime _ _ => Ok (MkFileAt size mtime [] 0)
  end.

(** readFrom: [n] bytes at [pos], through one open. *)
Definition readFrom (s : snapshot) (n pos : Z) (r : fileAt) : result readErr bytes :=
  match s with
  | Missing => Err ErrOpen
  | Found size mtime content readFails =>
      if negb (size =? fa_size r) || negb (mtime =? fa_mtime r) then Err ErrChanged
      else
        let got := take (Z.to_nat n) (drop (Z.to_nat pos) content) in
        if Z.of_nat (length got) =? n then Ok got
        else Err (if readFails then ErrRead else ErrUnexpectedEOF)
  end.

(** The block size of a refill. *)
Definition blockSize (pos need : Z) (r : fileAt) : Z :=
  let len := Z.of_nat (length (fa_buf r)) in
  let size := if (pos =? fa_off r + len) && (0 <? len) then Z.min (2 * len) reopenMaxBlock else reopenMinBlock in
  let size := Z.max size need in
  if fa_size r - pos <? size then fa_size r - pos else size.

Definition refill (s : snapshot) (pos need : Z) (r : fileAt) : option readErr * fileAt :=
  match readFrom s (blockSize pos need r) pos r with
  | Ok buf => (None, MkFileAt (fa_size r) (fa_mtime r) buf pos)
  | Err e => (Some e, MkFileAt (fa_size r) (fa_mtime r) [] pos)
  end.

Section Reading.
Variable opens : nat -> snapshot.

(** The loop of ReadAt: [acc] is what it has copied so far, [want] the length of
    [p], [k] the number of opens so far.  [None]: out of fuel. *)
Fixpoint read_loop (fuel : nat) (want off : Z) (eof : option readErr) (acc : bytes) (k : nat) (r : fileAt) :
    option (bytes * option readErr * nat * fileAt) :=
  match fuel with
  | O => None
  | S fuel =>
      let n := Z.of_nat (length acc) in
      if n <? want then
        let pos := off + n in
        if (fa_off r <=? pos) && (pos <? fa_off r + Z.of_nat (length (fa_buf r))) then
          let chunk := take (Z.to_nat (want - n)) (drop (Z.to_nat (pos - fa_off r)) (fa_buf r)) in
          read_loop fuel want off eof (acc ++ chunk) k r
        else if reopenMaxBlock <=? want - n then
          match readFrom (opens k) (want - n) pos r with
          | Ok got => Some (acc ++ got, eof, S k, r)
          | Err e => Some (acc, Some e, S k, r)
          end
        else
          match refill (opens k) pos (want - n) r with
          | (None, r) => read_loop fuel want off eof acc (S k) r
          | (Some e, r) => Some (acc, Some e, S k, r)
          end
      else Some (acc, eof, k, r)
  end.

(** ReadAt of [len] bytes: the bytes, the error, the opens so far, the state. *)
Definition ReadAt (len off : Z) (k : nat) (r : fileAt) : option (bytes * option readErr * nat * fileAt) :=
  if off <? 0 then Some ([], Some ErrNegative, k, r)
  else if len =? 0 then Some ([], None, k, r)
  else if fa_size r <=? off then Some ([], Some EOF, k, r)
  else
    let rem := fa_size r - off in
    let '(want, eof) := if rem <? len then (rem, Some EOF) else (len, None) in
    read_loop 4 want off eof [] k r.

End Reading.

(** * The file's bytes *)

Definition slice (data : bytes) (pos n : Z) : bytes := take (Z.to_nat n) (drop (Z.to_nat pos) data).

Lemma slice_length data pos n :
  0 <= pos -> 0 <= n -> pos + n <= Z.of_nat (length data) -> Z.of_nat (length (slice data pos n)) = n.
Proof. intros. unfold slice. rewrite length_take, length_drop. lia. Qed.

Lemma slice_app data pos a b :
  0 <= pos -> 0 <= a -> 0 <= b -> slice data pos a ++ slice data (pos + a) b = slice data pos (a + b).
Proof.
  intros. unfold slice. rewrite (Z2Nat.inj_add pos a), (Z2Nat.inj_add a b) by lia. rewrite <- drop_drop.
  by rewrite <- take_take_drop.
Qed.

Lemma slice_slice data pos n i m :
  0 <= pos -> 0 <= i -> 0 <= m -> i + m <= n -> slice (slice data pos n) i m = slice data (pos + i) m.
Proof.
  intros. unfold slice. rewrite skipn_firstn_comm, take_take, drop_drop. f_equal; [lia|]. f_equal. lia.
Qed.

(** The open was of the file first opened, unchanged. *)
Definition unchanged (r : fileAt) (s : snapshot) : Prop :=
  exists content f, s = Found (fa_size r) (fa_mtime r) content f.

(** The error of an open that was not. *)
Definition fault (s : snapshot) : readErr := match s with Missing => ErrOpen | Found _ _ _ _ => ErrChanged end.

(** The read-ahead block holds the file's bytes. *)
Record block_ok (data : bytes) (size mtime : Z) (r : fileAt) : Prop := {
  bo_size : fa_size r = size;
  bo_mtime : fa_mtime r = mtime;
  bo_data : Z.of_nat (length data) = size;
  bo_off : 0 <= fa_off r;
  bo_end : fa_buf r <> [] -> fa_off r + Z.of_nat (length (fa_buf r)) <= size;
  bo_buf : fa_buf r = slice data (fa_off r) (Z.of_nat (length (fa_buf r)))
}.

Section ReadingFacts.
Variables (data : bytes) (size mtime : Z) (opens : nat -> snapshot).
Hypothesis Hgenuine : forall k content f, opens k = Found size mtime content f -> content = data.

Lemma readFrom_spec k n pos r :
  block_ok data size mtime r -> 0 <= n -> 0 <= pos -> pos + n <= size ->
  readFrom (opens k) n pos r = Ok (slice data pos n) /\ unchanged r (opens k) \/
  readFrom (opens k) n pos r = Err (fault (opens k)) /\ ~ unchanged r (opens k).
Proof.
  intros H Hn Hp Hle. unfold readFrom, unchanged. rewrite (bo_size _ _ _ _ H), (bo_mtime _ _ _ _ H).
  destruct (opens k) as [|s m content f] eqn:E; [right; split; [done|by intros (? & ? & ?)]|].
  destruct (Z.eqb_spec s size) as [->|Hne], (Z.eqb_spec m mtime) as [->|Hne']; cbn;
    [|right; (split; [done|intros (? & ? & ?); congruence])..].
  left. rewrite (Hgenuine k content f E). fold (slice data pos n).
  rewrite slice_length; [|lia|lia|rewrite (bo_data _ _ _ _ H); lia]. rewrite Z.eqb_refl. split; [done|by eauto].
Qed.

(** What ReadAt leaves: [want] bytes at [off], or the bytes before the open that
    failed. *)
Definition outcome_ok (want off : Z) (eof : option readErr) (k : nat) (r : fileAt)
    (res : option (bytes * option readErr * nat * fileAt)) : Prop :=
  exists n err k' r', res = Some (slice data off n, err, k', r') /\ 0 <= n <= want /\ block_ok data size mtime r' /\
    (k <= k' <= S k)%nat /\
    (n = want /\ err = eof \/ n < want /\ k' = S k /\ ~ unchanged r (opens k) /\ err = Some (fault (opens k))).

Section Loop.
Variables (want off : Z) (eof : option readErr).
Hypotheses (Hoff : 0 <= off) (Hwant : 0 <= want) (Hend : off + want <= size).

Lemma acc_length n r : block_ok data size mtime r -> 0 <= n <= want -> Z.of_nat (length (slice data off n)) = n.
Proof. intros H Hn. apply slice_length; [done|lia|]. rewrite (bo_data _ _ _ _ H). lia. Qed.

Lemma loop_done fuel k r :
  block_ok data size mtime r ->
  read_loop opens (S fuel) want off eof (slice data off want) k r = Some (slice data off want, eof, k, r).
Proof. intros H. cbn. rewrite (acc_length want r H) by lia. by rewrite Z.ltb_irrefl. Qed.

(** A copy from the block. *)
Lemma loop_copy fuel n k r :
  block_ok data size mtime r -> 0 <= n < want ->
  fa_off r <= off + n < fa_off r + Z.of_nat (length (fa_buf r)) ->
  let n' := Z.min want (fa_off r + Z.of_nat (length (fa_buf r)) - off) in
  read_loop opens (S fuel) want off eof (slice data off n) k r = read_loop opens fuel want off eof (slice data off n') k r.
Proof.
  intros H Hn Hin n'. cbn [read_loop]. rewrite (acc_length n r H) by lia.
  destruct (Z.ltb_spec n want); [|lia].
  destruct (Z.leb_spec (fa_off r) (off + n)); [|lia].
  destruct (Z.ltb_spec (off + n) (fa_off r + Z.of_nat (length (fa_buf r)))); [|lia]. cbn [andb].
  assert (Hb := bo_off _ _ _ _ H). set (l := Z.of_nat (length (fa_buf r))) in *.
  assert (take (Z.to_nat (want - n)) (drop (Z.to_nat (off + n - fa_off r)) (fa_buf r)) = slice data (off + n) (n' - n)) as ->.
  { fold (slice (fa_buf r) (off + n - fa_off r) (want - n)).
    assert (slice (fa_buf r) (off + n - fa_off r) (want - n) = slice (fa_buf r) (off + n - fa_off r) (n' - n)) as ->.
    { destruct (Z.le_gt_cases want (fa_off r + l - off)); [f_equal; lia|].
      unfold slice. rewrite !take_ge; [done|rewrite length_drop; unfold n', l in *; lia..]. }
    rewrite (bo_buf _ _ _ _ H). fold l. rewrite slice_slice by lia. f_equal. lia. }
  rewrite slice_app by lia. by replace (n + (n' - n)) with n' by lia.
Qed.

(** Outside the block: a direct read or a refill. *)
Lemma loop_open fuel n k r :
  block_ok data size mtime r -> 0 <= n < want ->
  ~ fa_off r <= off + n < fa_off r + Z.of_nat (length (fa_buf r)) ->
  outcome_ok want off eof k r (read_loop opens (S (S (S fuel))) want off eof (slice data off n) k r).
Proof.
  intros H Hn Hout. remember (S (S fuel)) as fuel2 eqn:Ef. cbn [read_loop]. rewrite (acc_length n r H) by lia.
  destruct (Z.ltb_spec n want); [|lia].
  destruct ((fa_off r <=? off + n) && (off + n <? fa_off r + Z.of_nat (length (fa_buf r)))) eqn:Ei; [bool_to_prop; lia|].
  destruct (Z.leb_spec reopenMaxBlock (want - n)) as [Hbig|Hsmall].
  - destruct (readFrom_spec k (want - n) (off + n) r H) as [[-> Hu]|[-> Hu]]; [lia..| |].
    + exists want, eof, (S k), r. rewrite slice_app by lia. replace (n + (want - n)) with want by lia.
      split_and!; try done; try lia. by left.
    + exists n, (Some (fault (opens k))), (S k), r. split_and!; try done; try lia. right. split_and!; try done; lia.
  - unfold refill. set (b := blockSize (off + n) (want - n) r).
    assert (want - n <= b /\ off + n + b <= size) as [Hb1 Hb2].
    { unfold b, blockSize. rewrite (bo_size _ _ _ _ H). case_match; bool_to_prop; lia. }
    destruct (readFrom_spec k b (off + n) r H) as [[-> Hu]|[-> Hu]]; [lia..| |].
    + assert (Z.of_nat (length (slice data (off + n) b)) = b) as Hl.
      { apply slice_length; [lia|lia|]. rewrite (bo_data _ _ _ _ H). lia. }
      set (r' := MkFileAt (fa_size r) (fa_mtime r) (slice data (off + n) b) (off + n)).
      assert (block_ok data size mtime r') as H'.
      { split; cbn; try apply H; [lia|lia|by rewrite Hl]. }
      rewrite Ef, (loop_copy (S fuel) n (S k) r' H') by (cbn; lia). cbn [fa_off fa_buf r'].
      replace (Z.min want _) with want by lia. rewrite loop_done by done.
      exists want, eof, (S k), r'. split_and!; try done; try lia. by left.
    + exists n, (Some (fault (opens k))), (S k), (MkFileAt (fa_size r) (fa_mtime r) [] (off + n)).
      split_and!; try done; try lia; [|right; split_and!; try done; lia].
      split; cbn; try apply H; [lia|done|]. unfold slice. by rewrite take_0.
Qed.

Lemma loop_spec k r :
  block_ok data size mtime r -> 0 < want -> outcome_ok want off eof k r (read_loop opens 4 want off eof [] k r).
Proof.
  intros H Hw. assert (slice data off 0 = []) as E by (unfold slice; by rewrite take_0). rewrite <- E.
  destruct (decide (fa_off r <= off + 0 < fa_off r + Z.of_nat (length (fa_buf r)))) as [Hin|Hout].
  - rewrite (loop_copy 3 0 k r H) by lia. set (n := Z.min want (fa_off r + Z.of_nat (length (fa_buf r)) - off)).
    destruct (decide (n = want)) as [->|Hne].
    + rewrite loop_done by done. exists want, eof, k, r. split_and!; try done; try lia. by left.
    + apply loop_open; [done|lia|]. lia.
  - apply loop_open; [done|lia|done].
Qed.

End Loop.
End ReadingFacts.

(** C27: over a file whose size and modification time tell its content, a ReadAt
    always terminates, opens the file at most once, and behaves as os.File's
    would on the file first opened: it returns the bytes at the offset, all of
    them, with io.EOF exactly when the file ends first; or, only when the one
    open it made found the file missing or changed, the correct bytes before it
    and that error.  The read-ahead block keeps holding the file's bytes. *)
Theorem readAt_serves_file (data : bytes) size mtime opens r len off k :
  (forall j content f, opens j = Found size mtime content f -> content = data) ->
  block_ok data size mtime r -> 0 <= len -> 0 <= off ->
  exists got err k' r', ReadAt opens len off k r = Some (got, err, k', r') /\
    block_ok data size mtime r' /\ (k <= k' <= S k)%nat /\
    (got = slice data off len /\ (err = None /\ Z.of_nat (length got) = len \/
                                 err = Some EOF /\ Z.of_nat (length got) < len) \/
     exists n, got = slice data off n /\ n < len /\ k' = S k /\ ~ unchanged r (opens k) /\ err = Some (fault (opens k))).
Proof.
  intros Hg H Hlen Hoff. unfold ReadAt. destruct (Z.ltb_spec off 0); [lia|].
  assert (Hd := bo_data _ _ _ _ H). assert (Hs := bo_size _ _ _ _ H).
  destruct (Z.eqb_spec len 0) as [->|Hne].
  { exists [], None, k, r. split; [done|]. split; [done|]. split; [lia|]. left. split; [unfold slice; by rewrite take_0|].
    by left. }
  destruct (Z.leb_spec (fa_size r) off) as [Hpast|Hin].
  { exists [], (Some EOF), k, r. split; [done|]. split; [done|]. split; [lia|]. left. split; [|right; split; [done|cbn; lia]].
    unfold slice. rewrite drop_ge by lia. by rewrite take_nil. }
  destruct (Z.ltb_spec (fa_size r - off) len) as [Hshort|Hfull].
  - destruct (loop_spec data size mtime opens Hg (fa_size r - off) off (Some EOF) Hoff ltac:(lia) ltac:(lia) k r H ltac:(lia))
      as (n & err & k' & r' & -> & Hn & H' & Hk & Hc).
    exists (slice data off n), err, k', r'. split; [done|]. split; [done|]. split; [done|].
    destruct Hc as [[-> ->]|(Hlt & -> & Hu & ->)]; [left|right; exists n; split_and!; try done; lia].
    split; [unfold slice; rewrite !take_ge; [done|rewrite length_drop; lia..]|]. right. split; [done|].
    rewrite slice_length; lia.
  - destruct (loop_spec data size mtime opens Hg len off None Hoff ltac:(lia) ltac:(lia) k r H ltac:(lia))
      as (n & err & k' & r' & -> & Hn & H' & Hk & Hc).
    exists (slice data off n), err, k', r'. split; [done|]. split; [done|]. split; [done|].
    destruct Hc as [[-> ->]|(Hlt & -> & Hu & ->)]; [left|right; exists n; split_and!; try done; lia].
    split; [done|]. left. split; [done|]. rewrite slice_length; lia.
Qed.

(** ** Witness: a file replaced between two reads *)

Definition wit_opens (k : nat) : snapshot :=
  match k with O => Found 6 1 (bs "abcdef") false | _ => Found 6 2 (bs "uvwxyz") false end.

Lemma readAt_serves_file_witness :
  (exists r', ReadAt wit_opens 3 4 0 (MkFileAt 6 1 [] 0) = Some (bs "ef", Some EOF, 1%nat, r')) /\
  (exists r', ReadAt wit_opens 3 1 1 (MkFileAt 6 1 [] 0) = Some ([], Some ErrChanged, 2%nat, r')) /\
  exists got err k' r', ReadAt wit_opens 3 1 1 (MkFileAt 6 1 [] 0) = Some (got, err, k', r') /\ (k' <= 2)%nat.
Proof.
  split; [eexists; vm_compute; reflexivity|]. split; [eexists; vm_compute; reflexivity|].
  destruct (readAt_serves_file (bs "abcdef") 6 1 wit_opens (MkFileAt 6 1 [] 0) 3 1 1) as (got & err & k' & r' & E & _ & Hk & _).
  - intros [|j] content f; cbn; [by intros [= <- _]|discriminate].
  - split; try reflexivity. cbn. congruence.
  - lia.
  - lia.
  - exists got, err, k', r'. exact (conj E (proj2 Hk)).
Defined.
