(* ===== verification/TsScan.v ===== *)
(** Validation of transcoded segments (internal/media/segcheck.go): the MPEG-TS
    scan, the watch on ffmpeg's standard error, and the decision to serve, cache
    or retry.

    An index or slice expression that Go would refuse at run time is [None] in the
    scanner ([at_], [slice_]), so that it shows whether the scan can panic.
    Seconds (float64) are only compared here, and are left abstract. *)

From S2P Require Import Prelude GoStrings.

(** * Go's indexing *)

Definition lenZ (p : bytes) : Z := Z.of_nat (length p).

Definition at_ (p : bytes) (i : Z) : option Z := if 0 <=? i then p !! Z.to_nat i else None.

(** p[a:b]. *)
Definition slice_ (p : bytes) (a b : Z) : option bytes :=
  if (0 <=? a) && (a <=? b) && (b <=? lenZ p) then Some (take (Z.to_nat (b - a)) (drop (Z.to_nat a) p)) else None.

(** * MPEG-TS *)

Definition tsPacketSize : Z := 188.
Definition ptsWrap : Z := 2 ^ 33.

(** ptsDiff; the remainder has the dividend's sign. *)
Definition ptsDiff (a b : Z) : Z :=
  let d := Z.rem (a - b) ptsWrap in
  let d := if d <? 0 then d + ptsWrap else d in
  if ptsWrap / 2 <=? d then d - ptsWrap else d.

(** A 13-bit PID from two bytes. *)
Definition pid13 (hi lo : Z) : Z := Z.lor (Z.shiftl (Z.land hi 31) 8) lo.

(** A 12-bit length from two bytes. *)
Definition len12 (hi lo : Z) : Z := Z.lor (Z.shiftl (Z.land hi 15) 8) lo.

(** pesPTS: [Some (Some pts)], [Some None] when there is none. *)
Definition pesPTS (p : bytes) : option (option Z) :=
  if lenZ p <? 14 then Some None
  else
    b6 ← at_ p 6; b7 ← at_ p 7;
    if negb (Z.land b6 192 =? 128) || (Z.land b7 128 =? 0) then Some None
    else
      b9 ← at_ p 9; b10 ← at_ p 10; b11 ← at_ p 11; b12 ← at_ p 12; b13 ← at_ p 13;
      Some (Some (Z.lor (Z.lor (Z.lor (Z.lor (Z.shiftl (Z.land (Z.shiftr b9 1) 7) 30) (Z.shiftl b10 22))
                    (Z.shiftl (Z.shiftr b11 1) 15)) (Z.shiftl b12 7)) (Z.shiftr b13 1))).

(** psiSection: the section's body, empty where Go returns nil. *)
Definition psiSection (payload : bytes) (tableID : Z) : option bytes :=
  if lenZ payload <? 1 then Some []
  else
    b0 ← at_ payload 0;
    let p := 1 + b0 in
    if lenZ payload <? p + 3 then Some []
    else
      id ← at_ payload p;
      if negb (id =? tableID) then Some []
      else
        h ← at_ payload (p + 1); l ← at_ payload (p + 2);
        let secLen := len12 h l in
        let end_ := p + 3 + secLen - 4 in
        if (secLen <? 9) || (lenZ payload <? end_) then Some [] else slice_ payload (p + 8) end_.

(** parsePAT's loop from index [i]. *)
Fixpoint pat_loop (fuel : nat) (body : bytes) (i : Z) : option (list Z) :=
  match fuel with
  | O => Some []
  | S fuel =>
      if i + 4 <=? lenZ body then
        b0 ← at_ body i; b1 ← at_ body (i + 1);
        if Z.lor (Z.shiftl b0 8) b1 =? 0 then pat_loop fuel body (i + 4)
        else
          b2 ← at_ body (i + 2); b3 ← at_ body (i + 3);
          rest ← pat_loop fuel body (i + 4);
          Some (pid13 b2 b3 :: rest)
      else Some []
  end.

Definition parsePAT (payload : bytes) : option (list Z) :=
  body ← psiSection payload 0; pat_loop (length body) body 0.

Inductive kind := Video | Audio.

(** The stream types of the PMT. *)
Definition streamKind (st : Z) : option kind :=
  if bool_decide (st ∈ [1; 2; 16; 27; 36; 66; 209; 234]) then Some Video
  else if bool_decide (st ∈ [3; 4; 15; 17; 129; 130; 135]) then Some Audio
  else None.

Fixpoint pmt_loop (fuel : nat) (body : bytes) (i : Z) (kinds : gmap Z kind) : option (gmap Z kind) :=
  match fuel with
  | O => Some kinds
  | S fuel =>
      if i + 5 <=? lenZ body then
        st ← at_ body i; b1 ← at_ body (i + 1); b2 ← at_ body (i + 2);
        let kinds := match streamKind st with Some k => <[pid13 b1 b2 := k]> kinds | None => kinds end in
        b3 ← at_ body (i + 3); b4 ← at_ body (i + 4);
        pmt_loop fuel body (i + (5 + len12 b3 b4)) kinds
      else Some kinds
  end.

Definition parsePMT (payload : bytes) (kinds : gmap Z kind) : option (bool * gmap Z kind) :=
  body ← psiSection payload 2;
  if lenZ body <? 4 then Some (false, kinds)
  else
    h ← at_ body 2; l ← at_ body 3;
    kinds ← pmt_loop (length body) body (4 + len12 h l) kinds;
    Some (true, kinds).

(** pidStats. *)
Record pidStats := MkStats { starts : Z; firstPTS : Z; minD : Z; maxD : Z; hasPTS : bool }.

Definition noStats : pidStats := MkStats 0 0 0 0 false.

(** One more PES packet of a stream, with its PTS if it has one. *)
Definition notePES (pts : option Z) (st : pidStats) : pidStats :=
  let st := MkStats (starts st + 1) (firstPTS st) (minD st) (maxD st) (hasPTS st) in
  match pts with
  | None => st
  | Some pts =>
      if hasPTS st then
        let d := ptsDiff pts (firstPTS st) in
        MkStats (starts st) (firstPTS st) (Z.min (minD st) d) (Z.max (maxD st) d) true
      else MkStats (starts st) pts (minD st) (maxD st) true
  end.

(** The scanner's variables. *)
Record scan := MkScan { pmtPIDs : gset Z; kinds : gmap Z kind; stats : gmap Z pidStats; sawPMT : bool }.

Definition scan0 : scan := MkScan ∅ ∅ ∅ false.

Inductive scanErr := ErrSync | ErrNoPMT | ErrIO.

(** One packet: [None] is a panic. *)
Definition scanPacket (pkt : bytes) (s : scan) : option (result scanErr scan) :=
  sync ← at_ pkt 0;
  if negb (sync =? 71) then Some (Err ErrSync)
  else
    b1 ← at_ pkt 1; b2 ← at_ pkt 2; b3 ← at_ pkt 3;
    let pusi := negb (Z.land b1 64 =? 0) in
    let pid := pid13 b1 b2 in
    let afc := Z.land (Z.shiftr b3 4) 3 in
    if Z.land afc 1 =? 0 then Some (Ok s)
    else
      off ← (if afc =? 3 then b4 ← at_ pkt 4; Some (4 + (1 + b4)) else Some 4);
      if (tsPacketSize <=? off) || negb pusi then Some (Ok s)
      else
        payload ← slice_ pkt off tsPacketSize;
        if pid =? 0 then
          pids ← parsePAT payload;
          Some (Ok (MkScan (list_to_set pids ∪ pmtPIDs s) (kinds s) (stats s) (sawPMT s)))
        else if bool_decide (pid ∈ pmtPIDs s) then
          r ← parsePMT payload (kinds s);
          Some (Ok (MkScan (pmtPIDs s) r.2 (stats s) (r.1 || sawPMT s)))
        else
          if HasPrefix payload [0; 0; 1] then
            pts ← pesPTS payload;
            let st := default noStats (stats s !! pid) in
            Some (Ok (MkScan (pmtPIDs s) (kinds s) (<[pid := notePES pts st]> (stats s)) (sawPMT s)))
          else Some (Ok s).

(** The loop over the stream; a trailing partial packet is ignored, a reader that
    fails is an error. *)
Fixpoint scan_loop (fuel : nat) (data : bytes) (readFails : bool) (s : scan) : option (result scanErr scan) :=
  match fuel with
  | O => Some (Ok s)
  | S fuel =>
      if lenZ data <? tsPacketSize then Some (if readFails then Err ErrIO else Ok s)
      else
        r ← scanPacket (take 188 data) s;
        match r with
        | Err e => Some (Err e)
        | Ok s => scan_loop fuel (drop 188 data) readFails s
        end
  end.

Record tsCounts := MkCounts { c_video : Z; c_audio : Z; c_videoPTS : Z; c_videoSpan : Z; c_hasVideoPTS : bool }.

(** One stream's share of the result. *)
Definition addStream (ks : gmap Z kind) (m : gmap Z pidStats) (c : tsCounts) (pid : Z) : tsCounts :=
  match m !! pid with
  | None => c
  | Some st =>
      match ks !! pid with
      | Some Video =>
          let c := MkCounts (c_video c + starts st) (c_audio c) (c_videoPTS c) (c_videoSpan c) (c_hasVideoPTS c) in
          if hasPTS st && negb (c_hasVideoPTS c) then
            MkCounts (c_video c) (c_audio c) (Z.rem (firstPTS st + minD st + ptsWrap) ptsWrap) (maxD st - minD st) true
          else c
      | Some Audio => MkCounts (c_video c) (c_audio c + starts st) (c_videoPTS c) (c_videoSpan c) (c_hasVideoPTS c)
      | None => c
      end
  end.

(** countTSPackets; [order] is the order in which the map of streams is met. *)
Definition countTSPackets (order : list Z) (data : bytes) (readFails : bool) : option (result scanErr tsCounts) :=
  r ← scan_loop (S (length data)) data readFails scan0;
  match r with
  | Err e => Some (Err e)
  | Ok s => Some (if sawPMT s then Ok (foldl (addStream (kinds s) (stats s)) (MkCounts 0 0 0 0 false) order) else Err ErrNoPMT)
  end.

(** * The watch on stderr *)

Definition inputErrMarkers : list bytes :=
  [bs "Stream ends prematurely"; bs "File ended prematurely"; bs "Error during demuxing"].

Record stderrWatch := MkWatch { w_tail : bytes; w_hit : option bytes }.

Definition newWatch : stderrWatch := MkWatch [] None.

(** Write. *)
Definition watchWrite (p : bytes) (w : stderrWatch) : stderrWatch :=
  match w_hit w with
  | Some _ => w
  | None =>
      let buf := w_tail w ++ p in
      match find (Contains buf) inputErrMarkers with
      | Some m => MkWatch [] (Some m)
      | None =>
          let keep := foldl (fun k m => Nat.max k (length m - 1)) 0%nat inputErrMarkers in
          MkWatch (if decide (keep < length buf)%nat then drop (length buf - keep) buf else buf) None
      end
  end.

(** * Serve, cache or retry *)

(** isSeekIndexed. *)
Definition seekIndexedFormats : list bytes := [bs "matroska"; bs "webm"; bs "mov"; bs "mp4"].

Definition isSeekIndexed (formatName : bytes) : bool :=
  existsb (fun name => bool_decide (TrimSpace name ∈ seekIndexedFormats)) (Split formatName 44).

Record segVerdict := MkVerdict { v_reason : bytes; v_videoMissing : bool }.

Section Transcode.
Context {F Err_ : Type} (ltF : F -> F -> bool).

Record preRollPlan := MkPlan { first : F; retry : F }.

(** One attempt: what encode said (an input-failure marker, or an error), what
    inspect said of its output. *)
Record attemptResult := MkAttempt { a_encode : result Err_ bytes; a_inspect : result Err_ segVerdict }.

Definition attempt (a : attemptResult) : result Err_ segVerdict :=
  match a_encode a with
  | Err e => Err e
  | Ok inputErr =>
      match a_inspect a with
      | Err e => Err e
      | Ok v => Ok (match inputErr with [] => v | _ => MkVerdict (bs "ffmpeg input error: " ++ inputErr) false end)
      end
  end.

(** transcodeChecked: which of the two paths to serve and the reason not to cache
    it, with the paths removed and the attempts made. *)
Definition transcodeChecked (start : F) (pre : preRollPlan) (ctxErr : bool) (a1 a2 : attemptResult) :
    result Err_ (nat * bytes) * list nat * nat :=
  match attempt a1 with
  | Err e => (Err e, [], 1%nat)
  | Ok v =>
      match v_reason v with
      | [] => (Ok (0%nat, []), [], 1%nat)
      | reason =>
          if v_videoMissing v && ltF (first pre) (retry pre) && ltF (first pre) start && negb ctxErr then
            match attempt a2 with
            | Ok v2 => if bool_decide (v_reason v2 = []) then (Ok (1%nat, []), [0%nat], 2%nat)
                       else (Ok (0%nat, reason), [1%nat], 2%nat)
            | Err _ => (Ok (0%nat, reason), [1%nat], 2%nat)
            end
          else (Ok (0%nat, reason), [], 1%nat)
      end
  end.

(** segPreRollPlan, with fullPreRoll, tsRetryPreRoll and zero. *)
Definition segPreRollPlan (zero full tsRetry indexedPreRoll : F) (isTS seekIndexed : bool) : preRollPlan :=
  if seekIndexed && ltF indexedPreRoll full then MkPlan indexedPreRoll full
  else if isTS then MkPlan full tsRetry
  else MkPlan full zero.

End Transcode.

(** * No panic, and bounds *)

Definition bytesOK (p : bytes) : Prop := Forall is_byte p.

Lemma bytesOK_nil : bytesOK [].
Proof. constructor. Qed.

#[local] Hint Resolve bytesOK_nil : core.

Lemma at_some p i : bytesOK p -> 0 <= i < lenZ p -> exists b, at_ p i = Some b /\ is_byte b.
Proof.
  intros Hp Hi. unfold at_. rewrite (proj2 (Z.leb_le 0 i)) by lia. unfold lenZ in Hi.
  destruct (lookup_lt_is_Some_2 p (Z.to_nat i) ltac:(lia)) as [b Hb]. exists b. split; [done|].
  unfold bytesOK in Hp. rewrite Forall_lookup in Hp. by apply (Hp (Z.to_nat i)).
Qed.

(** Resolves the next index expression of the goal. *)
Ltac index :=
  match goal with
  | |- context [at_ ?p ?i ≫= _] =>
      let b := fresh "b" in let E := fresh "E" in let Hb := fresh "Hb" in
      destruct (at_some p i) as (b & E & Hb); [try done|unfold tsPacketSize in *; try lia|rewrite E; cbn [mbind option_bind]]
  end.

Lemma slice_some p a b : 0 <= a <= b -> b <= lenZ p -> exists q, slice_ p a b = Some q /\ lenZ q = b - a /\ (bytesOK p -> bytesOK q).
Proof.
  intros Ha Hb. unfold slice_. rewrite (proj2 (Z.leb_le 0 a)), (proj2 (Z.leb_le a b)), (proj2 (Z.leb_le b (lenZ p))) by lia.
  eexists. split; [done|]. split.
  - unfold lenZ in *. rewrite length_take, length_drop. lia.
  - intros Hp. by apply Forall_take, Forall_drop.
Qed.

Lemma lor_bound n a b : 0 <= n -> 0 <= a < 2 ^ n -> 0 <= b < 2 ^ n -> 0 <= Z.lor a b < 2 ^ n.
Proof.
  intros Hn Ha Hb. split; [apply Z.lor_nonneg; lia|].
  destruct (Z.eq_dec (Z.lor a b) 0) as [->|Hne]; [lia|]. apply Z.log2_lt_pow2; [pose proof (proj2 (Z.lor_nonneg a b)); lia|].
  rewrite Z.log2_lor by lia.
  assert (forall x, 0 <= x < 2 ^ n -> x <> 0 -> Z.log2 x < n) as Hl by (intros x ? ?; apply Z.log2_lt_pow2; lia).
  destruct (Z.eq_dec a 0) as [->|Ha0], (Z.eq_dec b 0) as [->|Hb0].
  - by rewrite Z.lor_0_l in Hne.
  - rewrite Z.max_r by apply Z.log2_nonneg. by apply Hl.
  - rewrite Z.max_l by apply Z.log2_nonneg. by apply Hl.
  - apply Z.max_lub_lt; by apply Hl.
Qed.

Lemma land_mask a n : 0 <= a -> 0 <= n -> 0 <= Z.land a (Z.ones n) < 2 ^ n.
Proof. intros. rewrite Z.land_ones by done. apply Z.mod_pos_bound. lia. Qed.

Lemma shift_bound a k n : 0 <= k -> 0 <= n -> 0 <= a < 2 ^ n -> 0 <= Z.shiftl a k < 2 ^ (n + k).
Proof. intros. rewrite Z.shiftl_mul_pow2, Z.pow_add_r by lia. nia. Qed.

Lemma len12_range hi lo : is_byte hi -> is_byte lo -> 0 <= len12 hi lo < 4096.
Proof.
  intros [? ?] [? ?]. apply (lor_bound 12); [lia| |change (2 ^ 12) with 4096; lia].
  apply (shift_bound _ 8 4); [lia|lia|]. by apply (land_mask hi 4).
Qed.

Lemma pid13_range hi lo : is_byte hi -> is_byte lo -> 0 <= pid13 hi lo < 8192.
Proof.
  intros [? ?] [? ?]. apply (lor_bound 13); [lia| |change (2 ^ 13) with 8192; lia].
  apply (shift_bound _ 8 5); [lia|lia|]. by apply (land_mask hi 5).
Qed.

(** A PTS is read within the payload and fits 33 bits. *)
Lemma pesPTS_spec p : bytesOK p ->
  exists r, pesPTS p = Some r /\ match r with Some pts => 0 <= pts < ptsWrap | None => True end.
Proof.
  intros Hp. unfold pesPTS. destruct (Z.ltb_spec (lenZ p) 14) as [?|Hlen]; [by exists None|].
  do 2 index. case_match; [by exists None|]. do 5 index. eexists. split; [done|].
  assert (Hsr : forall b, is_byte b -> 0 <= Z.shiftr b 1 < 2 ^ 7).
  { intros b' [? ?]. rewrite Z.shiftr_div_pow2 by lia. change (2 ^ 1) with 2. change (2 ^ 7) with 128.
    split; [apply Z.div_pos; lia|apply Z.div_lt_upper_bound; lia]. }
  assert (Hw : forall a m, 0 <= m <= 33 -> 0 <= a < 2 ^ m -> 0 <= a < 2 ^ 33).
  { intros a m Hm [? ?]. split; [done|]. eapply Z.lt_le_trans; [done|]. apply Z.pow_le_mono_r; lia. }
  assert (forall b, is_byte b -> 0 <= b < 2 ^ 8) as Hb8 by done.
  unfold ptsWrap. repeat apply lor_bound; try lia.
  - apply (shift_bound _ 30 3); [lia|lia|]. apply (land_mask _ 3); [|lia]. by apply Hsr.
  - apply (Hw _ 30); [lia|]. apply (shift_bound _ 22 8); [lia|lia|]. by apply Hb8.
  - apply (Hw _ 22); [lia|]. apply (shift_bound _ 15 7); [lia|lia|]. by apply Hsr.
  - apply (Hw _ 15); [lia|]. apply (shift_bound _ 7 8); [lia|lia|]. by apply Hb8.
  - apply (Hw _ 7); [lia|]. by apply Hsr.
Qed.

Lemma psiSection_some payload id : bytesOK payload ->
  exists body, psiSection payload id = Some body /\ bytesOK body.
Proof.
  intros Hp. unfold psiSection. destruct (Z.ltb_spec (lenZ payload) 1); [by exists []|].
  index. destruct Hb as [Hb0 Hb1]. case_match eqn:E3; [by exists []|]. bool_to_prop. index. case_match; [by exists []|].
  do 2 index. case_match eqn:E5; [by exists []|]. bool_to_prop.
  destruct (slice_some payload (1 + b + 8) (1 + b + 3 + len12 b1 b2 - 4)) as (q & Hq & _ & Hok); [lia|lia|].
  exists q. split; [done|by apply Hok].
Qed.

Lemma pat_loop_some fuel body i : bytesOK body -> 0 <= i -> is_Some (pat_loop fuel body i).
Proof.
  intros Hb. revert i. induction fuel as [|fuel IH]; intros i Hi; cbn; [by eexists|].
  destruct (Z.leb_spec (i + 4) (lenZ body)); [|by eexists]. do 2 index. case_match; [apply IH; lia|]. do 2 index.
  destruct (IH (i + 4) ltac:(lia)) as [rest ->]. by eexists.
Qed.

Lemma pmt_loop_some fuel body i kinds : bytesOK body -> 0 <= i -> is_Some (pmt_loop fuel body i kinds).
Proof.
  intros Hb. revert i kinds. induction fuel as [|fuel IH]; intros i kinds Hi; cbn; [by eexists|].
  destruct (Z.leb_spec (i + 5) (lenZ body)); [|by eexists]. do 5 index. apply IH.
  pose proof (len12_range b2 b3 Hb3 Hb4). lia.
Qed.

Lemma parsePAT_some payload : bytesOK payload -> is_Some (parsePAT payload).
Proof.
  intros Hp. unfold parsePAT. destruct (psiSection_some payload 0 Hp) as (body & -> & Hb). cbn. by apply pat_loop_some.
Qed.

Lemma parsePMT_some payload kinds : bytesOK payload -> is_Some (parsePMT payload kinds).
Proof.
  intros Hp. unfold parsePMT. destruct (psiSection_some payload 2 Hp) as (body & -> & Hb). cbn [mbind option_bind].
  destruct (Z.ltb_spec (lenZ body) 4); [by eexists|]. do 2 index.
  destruct (pmt_loop_some (length body) body (4 + len12 b b0) kinds Hb) as [ks ->]; [|by eexists].
  pose proof (len12_range b b0 Hb0 Hb1). lia.
Qed.

Lemma ptsDiff_spec a b :
  - 2 ^ 32 <= ptsDiff a b < 2 ^ 32 /\ (ptsDiff a b) mod ptsWrap = (a - b) mod ptsWrap.
Proof.
  unfold ptsDiff, ptsWrap. change (2 ^ 33 / 2) with (2 ^ 32).
  pose proof (Z.quot_rem (a - b) (2 ^ 33) ltac:(lia)) as Hq.
  pose proof (Z.rem_bound_abs (a - b) (2 ^ 33) ltac:(lia)) as Hr.
  assert (forall k, (Z.rem (a - b) (2 ^ 33) + k * 2 ^ 33) mod 2 ^ 33 = (a - b) mod 2 ^ 33) as Hm.
  { intros k. rewrite Hq at 2. rewrite Z.mod_add by lia. rewrite Z.add_comm, (Z.mul_comm (2 ^ 33)), Z.mod_add by lia. done. }
  assert (Hr' : - 2 ^ 33 < Z.rem (a - b) (2 ^ 33) < 2 ^ 33) by (change (2 ^ 33) with 8589934592 in *; lia).
  destruct (Z.ltb_spec (Z.rem (a - b) (2 ^ 33)) 0) as [Hn|Hn].
  - destruct (Z.leb_spec (2 ^ 32) (Z.rem (a - b) (2 ^ 33) + 2 ^ 33)).
    + split; [lia|]. rewrite <- (Hm 0). f_equal; lia.
    + split; [lia|]. rewrite <- (Hm 1). f_equal; lia.
  - destruct (Z.leb_spec (2 ^ 32) (Z.rem (a - b) (2 ^ 33))).
    + split; [lia|]. rewrite <- (Hm (-1)). f_equal; lia.
    + split; [lia|]. rewrite <- (Hm 0). f_equal; lia.
Qed.

(** * The statistics of a stream *)

Record stats_ok (st : pidStats) : Prop := {
  so_starts : 0 <= starts st;
  so_first : 0 <= firstPTS st < ptsWrap;
  so_min : - 2 ^ 32 <= minD st <= 0;
  so_max : 0 <= maxD st < 2 ^ 32
}.

Lemma noStats_ok : stats_ok noStats.
Proof. by split. Qed.

Lemma notePES_ok pts st :
  match pts with Some p => 0 <= p < ptsWrap | None => True end -> stats_ok st -> stats_ok (notePES pts st).
Proof.
  intros Hp []. unfold notePES. destruct pts as [p|]; [|split; cbn; try done; lia].
  cbn. destruct (hasPTS st); [|split; cbn; try done; lia].
  destruct (ptsDiff_spec p (firstPTS st)) as [Hd _]. split; cbn; try done; lia.
Qed.

Lemma scanPacket_some pkt s : bytesOK pkt -> lenZ pkt = tsPacketSize ->
  exists r, scanPacket pkt s = Some r /\
    (map_Forall (fun _ st => stats_ok st) (stats s) ->
     match r with Ok s' => map_Forall (fun _ st => stats_ok st) (stats s') | Err _ => True end).
Proof.
  intros Hp Hl. unfold scanPacket. unfold tsPacketSize in Hl. index. case_match; [by eexists|]. do 3 index.
  case_match; [by eexists|].
  assert (exists off, (if Z.land (Z.shiftr b2 4) 3 =? 3 then b4 ← at_ pkt 4; Some (4 + (1 + b4)) else Some 4) = Some off /\ 0 <= off)
    as (off & -> & Hoff).
  { case_match; [|by exists 4]. index. destruct Hb3. eexists. split; [done|lia]. }
  cbn [mbind option_bind]. destruct ((tsPacketSize <=? off) || _) eqn:Eo; [by eexists|]. bool_to_prop.
  destruct (slice_some pkt off tsPacketSize) as (payload & -> & Hpl & Hok); [unfold tsPacketSize in *; lia|unfold tsPacketSize; lia|].
  specialize (Hok Hp). cbn [mbind option_bind]. case_match.
  { destruct (parsePAT_some payload Hok) as [pids ->]. cbn. by eexists. }
  case_match.
  { destruct (parsePMT_some payload (kinds s) Hok) as [r ->]. cbn. by eexists. }
  case_match; [|by eexists].
  destruct (pesPTS_spec payload Hok) as (pts & -> & Hpts). cbn. eexists. split; [done|]. intros Hs.
  apply map_Forall_insert_2; [|done]. apply notePES_ok; [done|].
  destruct (stats s !! _) as [st|] eqn:Est; cbn; [by eapply Hs|apply noStats_ok].
Qed.

Lemma scan_loop_some fuel data readFails s : bytesOK data ->
  map_Forall (fun _ st => stats_ok st) (stats s) ->
  exists r, scan_loop fuel data readFails s = Some r /\
    match r with Ok s' => map_Forall (fun _ st => stats_ok st) (stats s') | Err _ => True end.
Proof.
  intros Hd. revert data Hd s. induction fuel as [|fuel IH]; intros data Hd s Hs; cbn [scan_loop]; [by eexists|].
  destruct (Z.ltb_spec (lenZ data) tsPacketSize); [destruct readFails; by eexists|].
  destruct (scanPacket_some (take 188 data) s) as (r & -> & Hr); [by apply Forall_take|unfold lenZ, tsPacketSize in *; rewrite length_take; lia|].
  cbn [mbind option_bind]. destruct r as [s'|e]; [|by eexists]. apply IH; [by apply Forall_drop|by apply Hr].
Qed.

(** * The result *)

Definition isKind (k : kind) (ks : gmap Z kind) (pid : Z) : bool :=
  match k, ks !! pid with Video, Some Video | Audio, Some Audio => true | _, _ => false end.

Definition startsOf (k : kind) (ks : gmap Z kind) (m : gmap Z pidStats) (pid : Z) : Z :=
  if isKind k ks pid then from_option starts 0 (m !! pid) else 0.

Definition videoPTSOf (ks : gmap Z kind) (m : gmap Z pidStats) (pid : Z) : bool :=
  isKind Video ks pid && from_option hasPTS false (m !! pid).

Record counts_ok (c : tsCounts) : Prop := {
  co_video : 0 <= c_video c;
  co_audio : 0 <= c_audio c;
  co_pts : 0 <= c_videoPTS c < ptsWrap;
  co_span : 0 <= c_videoSpan c < ptsWrap
}.

Lemma addStream_ok ks m c pid :
  map_Forall (fun _ st => stats_ok st) m -> counts_ok c -> counts_ok (addStream ks m c pid).
Proof.
  intros Hm Hc. unfold addStream. destruct (m !! pid) as [st|] eqn:Est; [|done].
  destruct (Hm pid st Est) as [H1 H2 H3 H4]. destruct Hc as [K1 K2 K3 K4].
  destruct (ks !! pid) as [[]|]; [|split; cbn; try done; lia|done].
  cbn. case_match; split; cbn; try done; try lia.
  - unfold ptsWrap in *. rewrite Z.rem_mod_nonneg by lia. apply Z.mod_pos_bound. lia.
  - unfold ptsWrap. lia.
Qed.

Lemma foldl_addStream_ok ks m order c :
  map_Forall (fun _ st => stats_ok st) m -> counts_ok c -> counts_ok (foldl (addStream ks m) c order).
Proof. intros Hm. revert c. induction order as [|pid order IH]; intros c Hc; cbn; [done|]. by apply IH, addStream_ok. Qed.

(** The counts are sums over the streams, whatever the order. *)
Lemma foldl_addStream_counts ks m order c :
  let c' := foldl (addStream ks m) c order in
  c_video c' = c_video c + sumZ (startsOf Video ks m) order /\
  c_audio c' = c_audio c + sumZ (startsOf Audio ks m) order /\
  c_hasVideoPTS c' = c_hasVideoPTS c || existsb (videoPTSOf ks m) order.
Proof.
  revert c. induction order as [|pid order IH]; intros c.
  { cbn. rewrite orb_false_r. split_and!; try done; lia. }
  cbn [foldl existsb]. rewrite !sumZ_cons. destruct (IH (addStream ks m c pid)) as (-> & -> & ->). rewrite orb_assoc.
  generalize (sumZ (startsOf Video ks m) order) (sumZ (startsOf Audio ks m) order) (existsb (videoPTSOf ks m) order).
  intros nv na ex. clear IH. unfold addStream, startsOf, videoPTSOf, isKind.
  destruct (m !! pid) as [st|], (ks !! pid) as [[]|]; cbn; rewrite ?orb_false_r; try (split_and!; done || lia).
  destruct (hasPTS st), (c_hasVideoPTS c); cbn; split_and!; try done; lia.
Qed.

Lemma existsb_perm {A} (f : A -> bool) l l' : l ≡ₚ l' -> existsb f l = existsb f l'.
Proof.
  induction 1 as [|x l l' _ IH|x y l|l1 l2 l3 _ IH1 _ IH2]; cbn; [done|by rewrite IH| |congruence].
  by rewrite !orb_assoc, (orb_comm (f y)).
Qed.

(** A whole packet of [data] does not start with the sync byte. *)
Definition syncLost (data : bytes) : Prop :=
  exists i, (S i * 188 <= length data)%nat /\ data !! (i * 188)%nat <> Some 71.

Lemma scanPacket_sync pkt s r : bytesOK pkt -> lenZ pkt = tsPacketSize -> scanPacket pkt s = Some r ->
  (r = Err ErrSync <-> pkt !! 0%nat <> Some 71) /\ (forall e, r = Err e -> e = ErrSync).
Proof.
  intros Hp Hl H. unfold scanPacket in H. unfold tsPacketSize in Hl.
  destruct (at_some pkt 0 Hp ltac:(lia)) as (b & E & _). rewrite E in H. cbn [mbind option_bind] in H.
  change (at_ pkt 0) with (pkt !! 0%nat) in E. rewrite E.
  destruct (Z.eqb_spec b 71) as [Hb71|Hne]; cbn [negb] in H.
  - rewrite Hb71. clear E Hb71. assert (exists s', r = Ok s') as [s' ->]; [|by split].
    repeat match type of H with
    | (?x ≫= _) = _ => destruct x eqn:?; cbn [mbind option_bind] in H; [|done]
    | (if ?c then _ else _) = _ => destruct c eqn:?
    | Some (Ok ?x) = Some _ => injection H as <-; by exists x
    end.
  - injection H as <-. split; [split; [intros _ [= ?]; done|done]|by intros e [= <-]].
Qed.

Lemma scan_loop_sync fuel data readFails s : bytesOK data -> (length data < fuel)%nat ->
  forall r, scan_loop fuel data readFails s = Some r ->
  (r = Err ErrSync <-> syncLost data) /\ (r = Err ErrIO -> readFails = true) /\ r <> Err ErrNoPMT.
Proof.
  intros Hd. revert data Hd s. induction fuel as [|fuel IH]; intros data Hd s Hf r H; [lia|]. cbn [scan_loop] in H.
  destruct (Z.ltb_spec (lenZ data) tsPacketSize) as [Hs|Hl].
  - assert (~ syncLost data) as Hn.
    { intros (i & Hi & _). unfold lenZ, tsPacketSize in Hs. lia. }
    destruct readFails; injection H as <-; (split; [split; [done|by intros ?]|done]).
  - unfold lenZ, tsPacketSize in Hl. set (pkt := take 188 data) in *.
    assert (bytesOK pkt) as Hp by by apply Forall_take.
    assert (lenZ pkt = tsPacketSize) as Hpl by (unfold lenZ, tsPacketSize, pkt; rewrite length_take; lia).
    destruct (scanPacket_some pkt s Hp Hpl) as (r1 & Hr1 & _). rewrite Hr1 in H. cbn [mbind option_bind] in H.
    destruct (scanPacket_sync pkt s r1 Hp Hpl Hr1) as [Hsync Herr].
    assert (pkt !! 0%nat = data !! 0%nat) as E0 by (unfold pkt; by rewrite lookup_take_lt by lia).
    destruct r1 as [s'|e].
    + destruct (IH (drop 188 data)) with (s := s') (r := r) as (Hiff & Hio & Hn);
        [by apply Forall_drop|rewrite length_drop; lia|done|]. split; [|done]. rewrite Hiff. split.
      * intros (i & Hi & Hb). exists (S i). rewrite length_drop in Hi. split; [lia|]. rewrite lookup_drop in Hb.
        by replace (S i * 188)%nat with (188 + i * 188)%nat by lia.
      * intros ([|i] & Hi & Hb); [exfalso; cbn [Nat.mul] in Hb; rewrite <- E0 in Hb; by apply Hsync in Hb|]. exists i. rewrite length_drop. split; [lia|].
        rewrite lookup_drop. by replace (188 + i * 188)%nat with (S i * 188)%nat by lia.
    + injection H as <-. rewrite (Herr e eq_refl) in *. split; [|done]. split; [|done]. intros _. exists 0%nat. split; [lia|].
      cbn [Nat.mul]. rewrite <- E0. by apply Hsync.
Qed.

(** whatever the bytes of a segment, the scan never indexes out of range and
    always ends; it fails exactly when a whole packet lacks the sync byte (or the
    reader failed, or no PMT was seen); the counts it returns do not depend on the
    order in which Go meets its maps, and are bounded: no negative count, a start
    and a span below 2^33 ticks. *)
Lemma scan_total data readFails order :
  bytesOK data ->
  exists r, countTSPackets order data readFails = Some r /\
    (r = Err ErrSync <-> syncLost data) /\ (r = Err ErrIO -> readFails = true) /\
    (forall c, r = Ok c -> counts_ok c) /\
    forall order', order ≡ₚ order' -> exists r', countTSPackets order' data readFails = Some r' /\
      match r, r' with
      | Ok c, Ok c' => c_video c = c_video c' /\ c_audio c = c_audio c' /\ c_hasVideoPTS c = c_hasVideoPTS c'
      | Err e, Err e' => e = e'
      | _, _ => False
      end.
Proof.
  intros Hd. unfold countTSPackets.
  destruct (scan_loop_some (S (length data)) data readFails scan0 Hd) as (r & Hr & Hok); [apply map_Forall_empty|].
  destruct (scan_loop_sync (S (length data)) data readFails scan0 Hd ltac:(lia) r Hr) as (Hs & Hio & Hn). rewrite Hr.
  cbn [mbind option_bind]. destruct r as [s|e].
  - eexists. split; [reflexivity|]. destruct (sawPMT s).
    + split; [rewrite <- Hs; split; discriminate|]. split; [discriminate|]. split.
      { intros c [= <-]. apply foldl_addStream_ok; [done|]. split; cbn; unfold ptsWrap; lia. }
      intros order' Hp. eexists. split; [reflexivity|]. cbv beta iota.
      destruct (foldl_addStream_counts (kinds s) (stats s) order (MkCounts 0 0 0 0 false)) as (-> & -> & ->).
      destruct (foldl_addStream_counts (kinds s) (stats s) order' (MkCounts 0 0 0 0 false)) as (-> & -> & ->).
      rewrite !(sumZ_Permutation _ _ _ Hp), (existsb_perm _ _ _ Hp). auto.
    + split; [rewrite <- Hs; split; discriminate|]. split; [discriminate|]. split; [discriminate|].
      intros order' _. eexists. by split; [reflexivity|].
  - exists (Err e). split; [reflexivity|]. split; [rewrite <- Hs; split; intros [= ->]; reflexivity|].
    split; [intros [= ->]; by apply Hio|]. split; [discriminate|]. intros order' _. eexists. by split; [reflexivity|].
Qed.

(** * The watch sees what the stream holds *)

(** The end of a string, of at most [n] bytes. *)
Definition lastn (n : nat) (s : bytes) : bytes := drop (length s - n) s.

Lemma lastn_all n s : (length s <= n)%nat -> lastn n s = s.
Proof. intros H. unfold lastn. by replace (length s - n)%nat with 0%nat by lia. Qed.

Lemma lastn_app n x p : lastn n (lastn n x ++ p) = lastn n (x ++ p).
Proof.
  unfold lastn. destruct (decide (length x <= n)%nat) as [Hl|Hl].
  - by replace (length x - n)%nat with 0%nat by lia.
  - rewrite !length_app, length_drop. destruct (decide (length p <= n)%nat) as [Hp|Hp].
    + rewrite drop_app_le by (rewrite length_drop; lia). rewrite drop_drop. rewrite drop_app_le by lia. do 2 f_equal. lia.
    + rewrite drop_app_ge by (rewrite length_drop; lia). rewrite drop_app_ge by lia. f_equal. rewrite length_drop. lia.
Qed.

(** A new occurrence ends in the new chunk, so its start is within the last
    [length m - 1] bytes of the old text. *)
Lemma Contains_lastn keep m x p :
  (length m <= S keep)%nat -> (0 < length m)%nat -> Contains x m = false ->
  Contains (lastn keep x ++ p) m = Contains (x ++ p) m.
Proof.
  intros Hk Hm Hx. apply eq_true_iff_eq. rewrite !Contains_spec. split.
  - intros (a & b & E). exists (take (length x - keep) x ++ a), b. rewrite <- app_assoc, <- E, app_assoc.
    unfold lastn. by rewrite take_drop.
  - intros (a & b & E). assert (length x < length (a ++ m))%nat as Hlong.
    { destruct (decide (length x < length (a ++ m))%nat); [done|]. exfalso.
      assert (Contains x m = true); [|congruence]. apply Contains_spec. exists a, (drop (length (a ++ m)) x).
      apply (f_equal (take (length x))) in E. rewrite take_app_length in E. rewrite E at 1.
      rewrite app_assoc, take_app_ge by lia. rewrite <- app_assoc. do 2 f_equal.
      apply (f_equal (drop (length (a ++ m)))) in E. rewrite app_assoc, take_app_ge, drop_app_length in E by lia. by rewrite E. }
    rewrite length_app in Hlong. exists (drop (length x - keep) a), b. unfold lastn.
    assert (drop (length x - keep) x ++ p = drop (length x - keep) (x ++ p)) as ->.
    { rewrite drop_app_le by lia. done. }
    rewrite E. rewrite drop_app_le by lia. done.
Qed.

Definition keepLen : nat := foldl (fun k m => Nat.max k (length m - 1)) 0%nat inputErrMarkers.

Lemma markers_len m : m ∈ inputErrMarkers -> (length m <= S keepLen)%nat /\ (0 < length m)%nat.
Proof.
  intros Hm. assert (Forall (fun m => (length m <= S keepLen)%nat /\ (0 < length m)%nat) inputErrMarkers) as H.
  { repeat constructor; cbn; lia. }
  rewrite Forall_forall in H. by apply H.
Qed.

Definition watching (x : bytes) (w : stderrWatch) : Prop :=
  match w_hit w with
  | Some m => m ∈ inputErrMarkers /\ Contains x m = true
  | None => w_tail w = lastn keepLen x /\ forall m, m ∈ inputErrMarkers -> Contains x m = false
  end.

Lemma Contains_app x p m : Contains x m = true -> Contains (x ++ p) m = true.
Proof. rewrite !Contains_spec. intros (a & b & ->). exists a, (b ++ p). by rewrite <- !app_assoc. Qed.

Lemma watchWrite_spec x p w : watching x w -> watching (x ++ p) (watchWrite p w).
Proof.
  unfold watching, watchWrite. destruct (w_hit w) as [m|] eqn:Eh.
  { rewrite Eh. intros [? ?]. split; [done|by apply Contains_app]. }
  intros [Ht Hno]. rewrite Ht.
  assert (forall m, m ∈ inputErrMarkers -> Contains (lastn keepLen x ++ p) m = Contains (x ++ p) m) as Heq.
  { intros m Hm. destruct (markers_len m Hm). apply Contains_lastn; auto. }
  destruct (find (Contains (lastn keepLen x ++ p)) inputErrMarkers) as [m|] eqn:Ef; cbn [w_hit w_tail].
  - apply find_some in Ef as [Hin%list_elem_of_In Hc]. split; [done|]. by rewrite <- Heq.
  - fold keepLen. split.
    + rewrite <- (lastn_app keepLen x p). case_decide as Hd; [done|]. symmetry. apply lastn_all. lia.
    + intros m Hm. rewrite <- Heq by done. apply (find_none _ _ Ef). by apply list_elem_of_In.
Qed.

(** however ffmpeg's standard error is cut into writes, the watch reports a
    marker exactly when the whole text contains one, and the marker it reports is
    in the text; it never keeps more than one byte less than the longest marker. *)
Lemma stderrWatch_exact (chunks : list bytes) :
  let w := foldl (fun w p => watchWrite p w) newWatch chunks in
  (is_Some (w_hit w) <-> exists m, m ∈ inputErrMarkers /\ Contains (concat chunks) m = true) /\
  (forall m, w_hit w = Some m -> m ∈ inputErrMarkers /\ Contains (concat chunks) m = true) /\
  (length (w_tail w) <= keepLen)%nat.
Proof.
  assert (Hgen : forall cs x w, watching x w -> watching (x ++ concat cs) (foldl (fun w p => watchWrite p w) w cs)).
  { induction cs as [|c cs IH]; intros x w H; cbn; [by rewrite app_nil_r|]. rewrite app_assoc. by apply IH, watchWrite_spec. }
  assert (Hlen : forall cs w, (length (w_tail w) <= keepLen)%nat ->
    (length (w_tail (foldl (fun w p => watchWrite p w) w cs)) <= keepLen)%nat).
  { induction cs as [|c cs IH]; intros w H; cbn [foldl]; [done|]. apply IH. unfold watchWrite.
    destruct (w_hit w); [done|]. case_match; cbn [w_tail]; [cbn; lia|]. fold keepLen.
    case_decide; [rewrite length_drop; lia|lia]. }
  intros w. assert (watching (concat chunks) w) as Hw.
  { apply (Hgen chunks [] newWatch). split; [done|]. intros m Hm. apply not_true_is_false. rewrite Contains_spec.
    intros (a & b & E). destruct (markers_len m Hm) as [_ ?]. destruct a, m; try done; cbn in *; lia. }
  split; [|split; [|apply Hlen; cbn; lia]].
  - unfold watching in Hw. destruct (w_hit w) as [m|].
    + split; [intros _; by exists m|by eexists].
    + split; [by intros []|]. intros (m & Hm & Hc). destruct Hw as [_ Hw]. rewrite (Hw m Hm) in Hc. done.
  - intros m Hm. unfold watching in Hw. by rewrite Hm in Hw.
Qed.

(** transcodeChecked fails exactly when the first attempt does; otherwise it
    serves a file that it did not remove, from an attempt that produced it; it
    lets the segment be cached exactly when the attempt it serves came out clean;
    it never makes more than two attempts, and the second only for missing video
    with a longer pre-roll that moves the seek; and after a retry exactly the
    other file is removed. *)
Lemma transcodeChecked_spec {F Err_} (ltF : F -> F -> bool) start pre ctxErr (a1 a2 : @attemptResult Err_) :
  let '(res, removed, attempts) := transcodeChecked ltF start pre ctxErr a1 a2 in
  match res with
  | Err e => attempt a1 = Err e /\ removed = [] /\ attempts = 1%nat
  | Ok (path, reason) =>
      path ∉ removed /\ (path < attempts)%nat /\ (attempts <= 2)%nat /\
      (exists v, attempt (if decide (path = 0%nat) then a1 else a2) = Ok v /\ (path = 0%nat \/ v_reason v = []) /\
         (reason = [] <-> v_reason v = [])) /\
      (attempts = 2%nat -> removed = [(1 - path)%nat] /\
         (exists v, attempt a1 = Ok v /\ v_reason v <> [] /\ v_videoMissing v = true) /\
         ltF (first pre) (retry pre) = true /\ ltF (first pre) start = true /\ ctxErr = false)
  end.
Proof.
  unfold transcodeChecked. destruct (attempt a1) as [v|e] eqn:E1; [|done].
  destruct (v_reason v) as [|c reason] eqn:Er.
  { split; [by apply not_elem_of_nil|]. split; [lia|]. split; [lia|]. split; [|lia].
    exists v. split; [done|]. split; [by left|]. by rewrite Er. }
  destruct (v_videoMissing v && ltF (first pre) (retry pre) && ltF (first pre) start && negb ctxErr) eqn:Ec.
  2:{ split; [by apply not_elem_of_nil|]. split; [lia|]. split; [lia|]. split; [|lia].
      exists v. split; [done|]. split; [by left|]. by rewrite Er. }
  bool_to_prop. assert (exists v0, (Ok v : result Err_ segVerdict) = Ok v0 /\ v_reason v0 <> [] /\ v_videoMissing v0 = true) as Hv
    by (exists v; by rewrite Er).
  destruct (attempt a2) as [v2|e2] eqn:E2; [case_bool_decide as Hc|].
  - split; [apply not_elem_of_cons; split; [done|by apply not_elem_of_nil]|]. split; [lia|]. split; [lia|].
    split; [exists v2; split; [done|]; split; [by right|by rewrite Hc]|done].
  - split; [apply not_elem_of_cons; split; [done|by apply not_elem_of_nil]|]. split; [lia|]. split; [lia|].
    split; [exists v; split; [done|]; split; [by left|by rewrite Er]|done].
  - split; [apply not_elem_of_cons; split; [done|by apply not_elem_of_nil]|]. split; [lia|]. split; [lia|].
    split; [exists v; split; [done|]; split; [by left|by rewrite Er]|done].
Qed.


(** ** Witness *)

