(* ===== verification/SegIndex.v ===== *)
(** The index of one HLS session's cached segments (internal/media/segindex.go):
    what it holds on disk, and the eviction that keeps it within its cap.

    The directory listing, the outcome of TryLock and of os.Remove, and the order
    in which Go meets the map are the environment's. *)

From S2P Require Import Prelude GoStrings.

(** * Data *)

Definition segCacheSegments : Z := 300.
Definition segCacheMinBytes : Z := 64 * 1024 * 1024.
Definition segServeGrace : Z := 30.
Definition segDur : Z := 4.
Definition legacyMaxrateBps : Z := 8000000.

Record segEntry := MkSeg { se_size : Z; se_last : Z }.

Record segIndex := MkIndex { si_loaded : bool; si_files : gmap bytes segEntry; si_total : Z }.

(** The zero value. *)
Definition zeroIndex : segIndex := MkIndex false ∅ 0.

(** os.DirEntry: its name, whether it is a directory, and what Info says. *)
Record dirEntry := MkDirEntry { de_name : bytes; de_isDir : bool; de_info : option (Z * Z) }.

(** * Operations *)

Definition isCachedSegName (name : bytes) : bool :=
  if negb (HasSuffix name (bs ".ts")) || Contains name (bs ".tmp") then false
  else HasPrefix name (bs "seg") || (HasPrefix name (bs "a") && Contains name (bs "seg")).

Definition load_one (ix : segIndex) (e : dirEntry) : segIndex :=
  if de_isDir e || negb (isCachedSegName (de_name e)) then ix
  else match de_info e with
       | None => ix
       | Some (size, mtime) =>
           if size <=? 0 then ix
           else MkIndex (si_loaded ix) (<[de_name e := MkSeg size mtime]> (si_files ix)) (si_total ix + size)
       end.

(** loadLocked; [dir] is what os.ReadDir returns, [None] for an error. *)
Definition loadLocked (dir : option (list dirEntry)) (ix : segIndex) : segIndex :=
  if si_loaded ix then ix
  else
    let ix := MkIndex true ∅ (si_total ix) in
    match dir with
    | None => ix
    | Some ents => foldl load_one ix ents
    end.

Definition sizeOf (files : gmap bytes segEntry) (name : bytes) : Z := from_option se_size 0 (files !! name).

Definition noteSegment (dir : option (list dirEntry)) (filename : bytes) (size now : Z) (ix : segIndex) : segIndex :=
  let ix := loadLocked dir ix in
  MkIndex (si_loaded ix) (<[filename := MkSeg size now]> (si_files ix))
    (si_total ix + (size - sizeOf (si_files ix) filename)).

(** segmentCacheBytes, from the configured cap and the session's bitrate. *)
Definition segmentCacheBytes (cfgBytes maxrateBps : Z) : Z :=
  if 0 <? cfgBytes then cfgBytes
  else if cfgBytes <? 0 then 0
  else
    let bps := if maxrateBps <=? 0 then legacyMaxrateBps else maxrateBps in
    Z.max segCacheMinBytes (int64 (int64 (Z.quot bps 8 * segDur) * segCacheSegments)).

(** The files eviction may consider, oldest first; [order] is the map's. *)
Definition evictable (keep : bytes) (now : Z) (files : gmap bytes segEntry) (name : bytes) : Prop :=
  match files !! name with
  | Some e => name <> keep /\ segServeGrace <= now - se_last e
  | None => False
  end.

#[export] Instance evictable_dec keep now files name : Decision (evictable keep now files name).
Proof. unfold evictable. destruct (files !! name); apply _. Defined.

Definition lastUsed (files : gmap bytes segEntry) (name : bytes) : Z := from_option se_last 0 (files !! name).

Definition older_ (files : gmap bytes segEntry) (a b : bytes) : Prop := lastUsed files a <= lastUsed files b.

#[export] Instance older_dec files a b : Decision (older_ files a b).
Proof. unfold older_. apply _. Defined.

Definition candidates (order : list bytes) (keep : bytes) (now : Z) (files : gmap bytes segEntry) : list bytes :=
  merge_sort (older_ files) (filter (fun name => evictable keep now files name) order).

(** The loop over the candidates: [lock] is TryLock's answer, [remove] whether
    os.Remove deleted the file or found it gone. *)
Fixpoint evict_loop (lock remove : bytes -> bool) (limit : Z) (cands : list bytes) (ix : segIndex) : segIndex :=
  match cands with
  | [] => ix
  | name :: cands =>
      if si_total ix <=? limit then ix
      else if negb (lock name) then evict_loop lock remove limit cands ix
      else if remove name then
        evict_loop lock remove limit cands
          (MkIndex (si_loaded ix) (delete name (si_files ix)) (si_total ix - sizeOf (si_files ix) name))
      else evict_loop lock remove limit cands ix
  end.

Definition evictSegments (dir : option (list dirEntry)) (order : gmap bytes segEntry -> list bytes)
    (lock remove : bytes -> bool) (limit : Z) (keep : bytes) (now : Z) (ix : segIndex) : segIndex :=
  if limit <=? 0 then ix
  else
    let ix := loadLocked dir ix in
    if si_total ix <=? limit then ix
    else evict_loop lock remove limit (candidates (order (si_files ix)) keep now (si_files ix)) ix.

(** * Invariant *)

(** The total is the sum of the sizes; nothing is counted before the scan. *)
Record index_ok (ix : segIndex) : Prop := {
  ix_total : si_total ix = msum se_size (si_files ix);
  ix_sizes : map_Forall (fun _ e => 0 <= se_size e) (si_files ix);
  ix_unloaded : si_loaded ix = false -> si_files ix = ∅
}.

(** A directory lists a name once. *)
Definition dir_ok (dir : option (list dirEntry)) : Prop :=
  match dir with Some ents => NoDup (de_name <$> ents) | None => True end.

Lemma load_fold ents ix :
  NoDup (de_name <$> ents) -> (forall e, e ∈ ents -> si_files ix !! de_name e = None) -> index_ok ix -> si_loaded ix = true ->
  index_ok (foldl load_one ix ents) /\ si_loaded (foldl load_one ix ents) = true.
Proof.
  revert ix. induction ents as [|e ents IH]; intros ix Hnd Hnew Hok Hl; cbn; [done|].
  apply NoDup_cons in Hnd as [Hni Hnd].
  assert (index_ok (load_one ix e) /\ si_loaded (load_one ix e) = true /\
    forall n, n <> de_name e -> si_files (load_one ix e) !! n = si_files ix !! n) as (Hok' & Hl' & Hsame).
  { unfold load_one. case_match; [done|]. destruct (de_info e) as [[size mtime]|]; [|done].
    destruct (Z.leb_spec size 0); [done|]. split; [|split; [done|intros n Hn; cbn; by rewrite lookup_insert_ne]].
    split; cbn; [|apply map_Forall_insert_2; [cbn; lia|apply Hok]|congruence].
    rewrite msum_insert_new by (apply Hnew; by left). rewrite (ix_total _ Hok). cbn. lia. }
  apply IH; [done| |done|done]. intros e' He'. rewrite Hsame; [apply Hnew; by right|].
  intros E. apply Hni. rewrite <- E. by apply list_elem_of_fmap_2.
Qed.

Lemma loadLocked_ok dir ix : dir_ok dir -> index_ok ix -> index_ok (loadLocked dir ix) /\ si_loaded (loadLocked dir ix) = true.
Proof.
  intros Hd H. unfold loadLocked. destruct (si_loaded ix) eqn:El; [done|].
  assert (si_total ix = 0) as E0 by (rewrite (ix_total _ H), (ix_unloaded _ H El); apply msum_empty).
  assert (index_ok (MkIndex true ∅ (si_total ix))) as H0.
  { split; cbn; [by rewrite E0, msum_empty|apply map_Forall_empty|done]. }
  destruct dir as [ents|]; [|done]. apply load_fold; try done.
Qed.

Lemma noteSegment_ok dir filename size now ix :
  dir_ok dir -> 0 <= size -> index_ok ix -> index_ok (noteSegment dir filename size now ix).
Proof.
  intros Hd Hs H. destruct (loadLocked_ok dir ix Hd H) as [Hok Hl]. unfold noteSegment.
  set (ix' := loadLocked dir ix) in *. split; cbn.
  - rewrite (ix_total _ Hok). unfold sizeOf. destruct (si_files ix' !! filename) as [e|] eqn:E; cbn.
    + rewrite (msum_insert_old _ _ _ _ _ E). cbn. lia.
    + rewrite msum_insert_new by done. cbn. lia.
  - apply map_Forall_insert_2; [done|apply Hok].
  - congruence.
Qed.

Lemma remove_ok name ix : index_ok ix ->
  index_ok (MkIndex (si_loaded ix) (delete name (si_files ix)) (si_total ix - sizeOf (si_files ix) name)).
Proof.
  intros H. split; cbn.
  - rewrite (ix_total _ H). unfold sizeOf. destruct (si_files ix !! name) as [e|] eqn:E; cbn.
    + rewrite (msum_delete _ _ _ _ E). lia.
    + rewrite delete_id by done. lia.
  - apply map_Forall_delete, H.
  - intros Hl. rewrite (ix_unloaded _ H Hl). apply delete_empty.
Qed.

(** * Eviction *)

(** The files the loop removes: the unlocked, removable candidates it visits. *)
Definition taken (lock remove : bytes -> bool) (l : list bytes) : list bytes :=
  filter (fun n => lock n && remove n = true) l.

Definition deleteAll (l : list bytes) (m : gmap bytes segEntry) : gmap bytes segEntry := foldr delete m l.

Lemma deleteAll_lookup l m n : deleteAll l m !! n = if decide (n ∈ l) then None else m !! n.
Proof.
  induction l as [|x l IH]; [cbn; by rewrite decide_False by apply not_elem_of_nil|].
  change (deleteAll (x :: l) m) with (delete x (deleteAll l m)). destruct (decide (n = x)) as [->|Hne].
  - rewrite lookup_delete_eq, decide_True by left. done.
  - rewrite lookup_delete_ne, IH by done. apply decide_ext. rewrite elem_of_cons. naive_solver.
Qed.

Lemma deleteAll_delete x l m : deleteAll l (delete x m) = deleteAll (x :: l) m.
Proof.
  apply map_eq. intros n. rewrite !deleteAll_lookup. destruct (decide (n = x)) as [->|Hne].
  - rewrite (decide_True (P := x ∈ x :: l)) by left. rewrite lookup_delete_eq. by case_decide.
  - rewrite lookup_delete_ne by done. apply decide_ext. rewrite elem_of_cons. naive_solver.
Qed.

(** The loop visits a prefix [a] of the candidates, and stops early only within
    the limit; each file it removes was removed above the limit. *)
Lemma seg_evict_loop_spec lock remove limit cands ix :
  index_ok ix ->
  exists a b, cands = a ++ b /\ index_ok (evict_loop lock remove limit cands ix) /\
    si_files (evict_loop lock remove limit cands ix) = deleteAll (taken lock remove a) (si_files ix) /\
    (b = [] \/ si_total (evict_loop lock remove limit cands ix) <= limit) /\
    forall a1 n a2, a = a1 ++ n :: a2 -> limit < msum se_size (deleteAll (taken lock remove a1) (si_files ix)).
Proof.
  revert ix. induction cands as [|name cands IH]; intros ix H; cbn [evict_loop].
  { exists [], []. split_and!; try done; [by left|]. intros a1 n a2 E. by destruct a1. }
  destruct (Z.leb_spec (si_total ix) limit) as [Hle|Hgt].
  { exists [], (name :: cands). split_and!; try done; [by right|]. intros a1 n a2 E. by destruct a1. }
  destruct (lock name && remove name) eqn:El.
  - apply andb_true_iff in El as [El Er]. rewrite El, Er. cbn [negb].
    destruct (IH _ (remove_ok name ix H)) as (a & b & -> & Hok & Hf & Hstop & Hmax).
    exists (name :: a), b. split; [done|]. split; [done|]. cbn [si_files] in *.
    assert (forall l, taken lock remove (name :: l) = name :: taken lock remove l) as Et.
    { intros l. unfold taken. by rewrite filter_cons_True by (by rewrite El, Er). }
    split; [by rewrite Hf, Et, deleteAll_delete|]. split; [done|]. intros [|x a1] n a2 E; injection E as <- E.
    + cbn. by rewrite <- (ix_total _ H).
    + rewrite Et, <- deleteAll_delete. by eapply Hmax.
  - assert ((if negb (lock name) then evict_loop lock remove limit cands ix
       else if remove name
        then evict_loop lock remove limit cands
          (MkIndex (si_loaded ix) (delete name (si_files ix)) (si_total ix - sizeOf (si_files ix) name))
        else evict_loop lock remove limit cands ix) = evict_loop lock remove limit cands ix) as ->.
    { destruct (lock name), (remove name); done. }
    destruct (IH ix H) as (a & b & -> & Hok & Hf & Hstop & Hmax). exists (name :: a), b.
    assert (forall l, taken lock remove (name :: l) = taken lock remove l) as Et.
    { intros l. unfold taken. by rewrite filter_cons_False by (by rewrite El). }
    rewrite Et. split_and!; try done. intros [|x a1] n a2 E; injection E as <- E.
    + cbn. by rewrite <- (ix_total _ H).
    + rewrite Et. by eapply Hmax.
Qed.

#[export] Instance older_trans files : Transitive (older_ files).
Proof. intros a b c. unfold older_. lia. Qed.

#[export] Instance older_total files : Total (older_ files).
Proof. intros a b. unfold older_. lia. Qed.

Lemma candidates_spec order keep now files n :
  n ∈ candidates order keep now files <-> n ∈ order /\ evictable keep now files n.
Proof. unfold candidates. rewrite merge_sort_Permutation, list_elem_of_filter. tauto. Qed.

(** C40: the index's total is always the sum of its files' sizes, through scans,
    notes and evictions.  An eviction removes files only above the limit, never
    the file being served, one used within the grace period, or one whose lock is
    held or whose deletion fails, and never a file while an older removable one
    is kept; afterwards the cache is within the limit, or every file left is
    protected in one of those ways. *)
Theorem evictSegments_lru dir order lock remove limit keep now ix :
  dir_ok dir -> (forall m n, n ∈ order m <-> is_Some (m !! n)) -> index_ok ix -> 0 < limit ->
  let ix0 := loadLocked dir ix in
  let ix' := evictSegments dir order lock remove limit keep now ix in
  (forall f size, 0 <= size -> index_ok (noteSegment dir f size now ix)) /\
  index_ok ix' /\ si_files ix' ⊆ si_files ix0 /\
  (forall n e, si_files ix0 !! n = Some e -> si_files ix' !! n = None ->
     limit < si_total ix0 /\ n <> keep /\ segServeGrace <= now - se_last e /\ lock n = true /\ remove n = true /\
     forall n2 e2, si_files ix' !! n2 = Some e2 -> evictable keep now (si_files ix0) n2 -> lock n2 = true -> remove n2 = true ->
       se_last e <= se_last e2) /\
  (si_total ix' <= limit \/
   forall n e, si_files ix' !! n = Some e ->
     n = keep \/ now - se_last e < segServeGrace \/ lock n = false \/ remove n = false).
Proof.
  intros Hd Hord H Hlim ix0 ix'. destruct (loadLocked_ok dir ix Hd H) as [H0 _]. fold ix0 in H0.
  split; [intros; by apply noteSegment_ok|].
  unfold ix', evictSegments. destruct (Z.leb_spec limit 0); [lia|]. fold ix0.
  destruct (Z.leb_spec (si_total ix0) limit) as [Hle|Hgt].
  { split; [done|]. split; [done|]. split; [intros; congruence|by left]. }
  set (cands := candidates (order (si_files ix0)) keep now (si_files ix0)).
  destruct (seg_evict_loop_spec lock remove limit cands ix0 H0) as (a & b & Hab & Hok & Hf & Hstop & Hmax).
  assert (Htaken : forall n, n ∈ taken lock remove a <-> n ∈ a /\ lock n = true /\ remove n = true).
  { intros n. unfold taken. rewrite list_elem_of_filter, andb_true_iff. tauto. }
  assert (Hcand : forall n, n ∈ cands <-> evictable keep now (si_files ix0) n).
  { intros n. unfold cands. rewrite candidates_spec, Hord. split; [tauto|]. intros He. split; [|done].
    unfold evictable in He. destruct (si_files ix0 !! n); [by eexists|done]. }
  split; [done|]. split; [|split].
  - rewrite Hf. apply map_subseteq_spec. intros n e. rewrite deleteAll_lookup. by case_decide.
  - intros n e Hn Hgone. rewrite Hf, deleteAll_lookup in Hgone. case_decide as Hin; [|congruence].
    apply Htaken in Hin as (Hin & Hl & Hr). assert (n ∈ cands) as Hc by (rewrite Hab, elem_of_app; by left).
    apply Hcand in Hc. unfold evictable in Hc. rewrite Hn in Hc. destruct Hc as [Hk Hg].
    split_and!; try done. intros n2 e2 Hn2 He2 Hl2 Hr2. rewrite Hf, deleteAll_lookup in Hn2. case_decide as Hin2; [done|].
    apply Hcand in He2. rewrite Hab, elem_of_app in He2. destruct He2 as [He2|He2].
    { exfalso. apply Hin2, Htaken. done. }
    assert (StronglySorted (older_ (si_files ix0)) cands) as Hs by (apply StronglySorted_merge_sort; apply _).
    rewrite Hab in Hs. apply StronglySorted_app in Hs as (Hs & _ & _). specialize (Hs n n2 Hin He2).
    unfold older_, lastUsed in Hs. by rewrite Hn, Hn2 in Hs.
  - destruct Hstop as [->|?]; [|by left]. rewrite app_nil_r in Hab. right. intros n e Hn.
    rewrite Hf, deleteAll_lookup in Hn. case_decide as Hin; [done|]. destruct (decide (n = keep)); [by left|].
    destruct (Z.lt_ge_cases (now - se_last e) segServeGrace); [by right; left|]. right. right.
    destruct (lock n) eqn:El; [|by left]. destruct (remove n) eqn:Er; [|by right]. exfalso. apply Hin, Htaken.
    split; [|done]. rewrite <- Hab. apply Hcand. unfold evictable. by rewrite Hn.
Qed.

(** ** Witness: three old segments, one locked; the cap forces one out *)

Definition wit_dir : option (list dirEntry) :=
  Some [MkDirEntry (bs "seg1.ts") false (Some (40, 10)); MkDirEntry (bs "seg2.ts") false (Some (40, 5));
        MkDirEntry (bs "seg3.ts") false (Some (40, 20)); MkDirEntry (bs "seg4.ts.tmp") false (Some (9, 1))].

Definition wit_order (m : gmap bytes segEntry) : list bytes := (map_to_list m).*1.

Lemma wit_order_ok m n : n ∈ wit_order m <-> is_Some (m !! n).
Proof.
  unfold wit_order. rewrite list_elem_of_fmap. split.
  - intros ([k e] & -> & Hk%elem_of_map_to_list). by eexists.
  - intros [e He]. exists (n, e). split; [done|]. by apply elem_of_map_to_list.
Qed.

Definition wit_lock (n : bytes) : bool := negb (bool_decide (n = bs "seg2.ts")).
Definition wit_remove (n : bytes) : bool := true.

Definition wit_ix : segIndex :=
  evictSegments wit_dir wit_order wit_lock wit_remove 100 (bs "seg3.ts") 60 zeroIndex.

Lemma evictSegments_lru_witness :
  si_files wit_ix !! bs "seg1.ts" = None /\ si_files wit_ix !! bs "seg2.ts" = Some (MkSeg 40 5) /\ si_total wit_ix = 80 /\
  index_ok wit_ix.
Proof.
  split; [vm_compute; reflexivity|]. split; [vm_compute; reflexivity|]. split; [vm_compute; reflexivity|].
  assert (dir_ok wit_dir) as Hd by (apply (bool_decide_unpack _); vm_compute; exact I).
  assert (index_ok zeroIndex) as H0 by (split; [reflexivity|apply map_Forall_empty|reflexivity]).
  pose proof (evictSegments_lru wit_dir wit_order wit_lock wit_remove 100 (bs "seg3.ts") 60 zeroIndex Hd wit_order_ok H0
    ltac:(lia)) as T.
  exact (proj1 (proj2 T)).
Defined.
