(* ===== verification/EngineMgr.v ===== *)
(** The torrent engine manager (internal/engine/engine.go): the map of live
    engines, the purges that delete a cache directory off the lock, the readers
    that pin an engine, and the janitor.

    An operation is cut where it releases a lock.  [m.mu] is held across the
    janitor's check and the Drop that follows, but a reader takes only [e.mu], so
    a state records the engine a lock holder is about to drop ([w_hold]) and
    readers may open in between.

    The torrent client, the file system and the order in which Go meets a map are
    the environment's. *)

From S2P Require Import Prelude GoStrings.

(** * Data *)

Definition janitorTick : Z := 30 * 10 ^ 9.
Definition diskScanMaxAge : Z := 4 * janitorTick.
Definition graceWindow : Z := 90 * 10 ^ 9.

(** engine: the fields the manager and the janitor use. *)
Record engine := MkEngine {
  e_infoHash : bytes;
  e_path : bytes;
  e_lastAccess : Z;
  e_openReaders : Z;
}.

(** manager: engines are named by their address in [m_heap] and channels by
    number.  [m_dropped] and [m_closed] list the calls of Drop and of close. *)
Record manager := MkMgr {
  m_maxEngines : Z;
  m_cacheRoot : bytes;
  m_heap : gmap nat engine;
  m_engines : gmap bytes nat;
  m_purging : gmap bytes nat;
  m_dropped : list nat;
  m_closed : list nat;
  m_nextE : nat;
  m_nextC : nat;
}.

(** filepath.Join of a clean root and a name of one component. *)
Definition join (root name : bytes) : bytes := root ++ 47 :: name.

Definition set_heap h m :=
  MkMgr (m_maxEngines m) (m_cacheRoot m) h (m_engines m) (m_purging m) (m_dropped m) (m_closed m) (m_nextE m) (m_nextC m).
Definition set_purging p m :=
  MkMgr (m_maxEngines m) (m_cacheRoot m) (m_heap m) (m_engines m) p (m_dropped m) (m_closed m) (m_nextE m) (m_nextC m).
Definition set_closed c m :=
  MkMgr (m_maxEngines m) (m_cacheRoot m) (m_heap m) (m_engines m) (m_purging m) (m_dropped m) c (m_nextE m) (m_nextC m).

Definition newManager (maxEngines : Z) (root : bytes) : manager := MkMgr maxEngines root ∅ ∅ ∅ [] [] 0 0.

(** e.lastAccess = now, under e.mu. *)
Definition touch (now : Z) (e : engine) : engine := MkEngine (e_infoHash e) (e_path e) now (e_openReaders e).

(** The second critical section of NewReader. *)
Definition pin (e : engine) : engine := MkEngine (e_infoHash e) (e_path e) (e_lastAccess e) (e_openReaders e + 1).

(** What pinnedReader.Close does to the reader count and the clock. *)
Definition unpin (now : Z) (e : engine) : engine :=
  MkEngine (e_infoHash e) (e_path e) now (e_openReaders e - 1).

(** * Purging *)

(** The closure beginPurge returns: the directory it deletes, the key it clears
    and the channel it closes. *)
Record finisher := MkFin { f_ih : bytes; f_path : bytes; f_done : nat }.

Definition beginPurge (ih : bytes) (id : nat) (e : engine) (m : manager) : finisher * manager :=
  (MkFin ih (e_path e) (m_nextC m),
   MkMgr (m_maxEngines m) (m_cacheRoot m) (m_heap m) (delete ih (m_engines m)) (<[ih := m_nextC m]> (m_purging m))
     (id :: m_dropped m) (m_closed m) (m_nextE m) (S (m_nextC m))).

(** The two parts of the closure after os.RemoveAll. *)
Definition finishUnmark (f : finisher) (m : manager) : manager := set_purging (delete (f_ih f) (m_purging m)) m.
Definition finishClose (f : finisher) (m : manager) : manager := set_closed (f_done f :: m_closed m) m.

Definition finish (f : finisher) (m : manager) : manager := finishClose f (finishUnmark f m).

(** * Ensuring and removing *)

(** oldestIdleLocked over the engines in the order the range meets them; [None]
    is the initial "". *)
Fixpoint oldest_loop (heap : gmap nat engine) (order : list (bytes * nat)) (best : option (bytes * Z)) : option (bytes * Z) :=
  match order with
  | [] => best
  | (ih, id) :: order =>
      match heap !! id with
      | None => oldest_loop heap order best
      | Some e =>
          let better := match best with None => true | Some (b, t) => bool_decide (b = []) || (e_lastAccess e <? t) end in
          oldest_loop heap order (if (e_openReaders e =? 0) && better then Some (ih, e_lastAccess e) else best)
      end
  end.

Definition oldestIdleLocked (heap : gmap nat engine) (order : list (bytes * nat)) : bytes :=
  from_option fst [] (oldest_loop heap order None).

Inductive ensured := EnsHit (id : nat) | EnsWait (done : nat) | EnsVictim (ih : bytes) | EnsTooMany (n : Z) | EnsErr | EnsCreated (id : nat).

(** EnsureEngine under m.mu, once round its loop.  [added] is whether the client
    accepted the torrent.  A victim is purged before the lock is released. *)
Definition ensureLocked (infoHash : bytes) (order : list (bytes * nat)) (added : bool) (now : Z) (m : manager) : ensured * manager :=
  let ih := ToLower infoHash in
  match m_engines m !! ih with
  | Some id => (EnsHit id, set_heap (alter (touch now) id (m_heap m)) m)
  | None =>
      match m_purging m !! ih with
      | Some done => (EnsWait done, m)
      | None =>
          if (0 <? m_maxEngines m) && (m_maxEngines m <=? Z.of_nat (size (m_engines m))) then
            match oldestIdleLocked (m_heap m) order with
            | [] => (EnsTooMany (Z.of_nat (size (m_engines m))), m)
            | victim => (EnsVictim victim, m)
            end
          else if added then
            (EnsCreated (m_nextE m),
             MkMgr (m_maxEngines m) (m_cacheRoot m)
               (<[m_nextE m := MkEngine ih (join (m_cacheRoot m) ih) now 0]> (m_heap m))
               (<[ih := m_nextE m]> (m_engines m)) (m_purging m) (m_dropped m) (m_closed m) (S (m_nextE m)) (m_nextC m))
          else (EnsErr, m)
      end
  end.

Definition GetEngine (infoHash : bytes) (m : manager) : option nat := m_engines m !! ToLower infoHash.

(** The critical section of RemoveEngine, and of RemoveAll. *)
Definition removeLocked (ih : bytes) (m : manager) : option finisher * manager :=
  match m_engines m !! ih with
  | None => (None, m)
  | Some id =>
      match m_heap m !! id with
      | None => (None, m)
      | Some e => let '(f, m) := beginPurge ih id e m in (Some f, m)
      end
  end.

Definition RemoveEngine (infoHash : bytes) (m : manager) : option finisher * manager := removeLocked (ToLower infoHash) m.

Fixpoint RemoveAll (order : list bytes) (m : manager) : list finisher * manager :=
  match order with
  | [] => ([], m)
  | ih :: order =>
      let '(f, m) := removeLocked ih m in
      let '(fs, m) := RemoveAll order m in
      (match f with Some f => f :: fs | None => fs end, m)
  end.

(** * The janitor's check, under m.mu *)

Definition evictCheck (ih : bytes) (id : nat) (m : manager) : bool :=
  bool_decide (m_engines m !! ih = Some id) &&
  match m_heap m !! id with
  | None => false
  | Some e => negb (0 <? e_openReaders e)
  end.

(** purgeReaderless compares with the time its pass began. *)
Definition reapCheck (now threshold : Z) (ih : bytes) (id : nat) (m : manager) : bool :=
  bool_decide (m_engines m !! ih = Some id) &&
  match m_heap m !! id with
  | None => false
  | Some e => negb ((0 <? e_openReaders e) || (now - e_lastAccess e <? threshold))
  end.

(** * Interleaving *)

(** How far a purge's closure has come. *)
Inductive stage := FRemove | FUnmark | FClose.

(** [w_fin] are the purges in flight, by their channel; [w_readers] the readers
    handed out, with their engine and whether they are still open. *)
Record world := MkWorld {
  w_m : manager;
  w_now : Z;
  w_hold : option (bytes * nat);
  w_fin : gmap nat (stage * finisher);
  w_readers : gmap nat (nat * bool);
}.

Definition spawn (fs : list finisher) (fin : gmap nat (stage * finisher)) : gmap nat (stage * finisher) :=
  foldr (fun f => <[f_done f := (FRemove, f)]>) fin fs.

Definition on_heap (g : gmap nat engine -> gmap nat engine) (m : manager) : manager := set_heap (g (m_heap m)) m.

Inductive step : world -> world -> Prop :=
| st_tick m now hold fin rs now' :
    now <= now' -> step (MkWorld m now hold fin rs) (MkWorld m now' hold fin rs)
(* EnsureEngine *)
| st_ensure m now fin rs ih order added r m' :
    order ≡ₚ map_to_list (m_engines m) -> ensureLocked ih order added now m = (r, m') ->
    step (MkWorld m now None fin rs)
      (MkWorld m' now (match r with EnsVictim v => (fun id => (v, id)) <$> m_engines m !! v | _ => None end) fin rs)
(* the janitor *)
| st_evict m now fin rs ih id :
    evictCheck ih id m = true -> step (MkWorld m now None fin rs) (MkWorld m now (Some (ih, id)) fin rs)
| st_reap m now fin rs now0 threshold ih id :
    now0 <= now -> reapCheck now0 threshold ih id m = true ->
    step (MkWorld m now None fin rs) (MkWorld m now (Some (ih, id)) fin rs)
| st_drop m now fin rs ih id e f m' :
    m_heap m !! id = Some e -> beginPurge ih id e m = (f, m') ->
    step (MkWorld m now (Some (ih, id)) fin rs) (MkWorld m' now None (spawn [f] fin) rs)
(* RemoveEngine, RemoveAll *)
| st_remove m now fin rs ih f m' :
    RemoveEngine ih m = (Some f, m') -> step (MkWorld m now None fin rs) (MkWorld m' now None (spawn [f] fin) rs)
| st_removeAll m now fin rs order fs m' :
    order ≡ₚ (map_to_list (m_engines m)).*1 -> RemoveAll order m = (fs, m') ->
    step (MkWorld m now None fin rs) (MkWorld m' now None (spawn fs fin) rs)
(* the closures beginPurge returned *)
| st_fin_remove m now hold fin rs d f :
    fin !! d = Some (FRemove, f) ->
    step (MkWorld m now hold fin rs) (MkWorld m now hold (<[d := (FUnmark, f)]> fin) rs)
| st_fin_unmark m now fin rs d f :
    fin !! d = Some (FUnmark, f) ->
    step (MkWorld m now None fin rs) (MkWorld (finishUnmark f m) now None (<[d := (FClose, f)]> fin) rs)
| st_fin_close m now hold fin rs d f :
    fin !! d = Some (FClose, f) -> step (MkWorld m now hold fin rs) (MkWorld (finishClose f m) now hold (delete d fin) rs)
(* NewReader and Stats on an engine somebody holds, and pinnedReader.Close *)
| st_touch m now hold fin rs id :
    step (MkWorld m now hold fin rs) (MkWorld (on_heap (alter (touch now) id) m) now hold fin rs)
| st_open m now hold fin rs id rid :
    is_Some (m_heap m !! id) -> rs !! rid = None ->
    step (MkWorld m now hold fin rs) (MkWorld (on_heap (alter pin id) m) now hold fin (<[rid := (id, true)]> rs))
| st_closeReader m now hold fin rs id rid :
    rs !! rid = Some (id, true) ->
    step (MkWorld m now hold fin rs) (MkWorld (on_heap (alter (unpin now) id) m) now hold fin (<[rid := (id, false)]> rs)).

Definition start (maxEngines : Z) (root : bytes) (now : Z) : world := MkWorld (newManager maxEngines root) now None ∅ ∅.

Definition reachable (maxEngines : Z) (root : bytes) (now : Z) (w : world) : Prop := rtc step (start maxEngines root now) w.

(** * Invariant *)

(** The open readers of an engine. *)
Definition openOf (id : nat) (r : nat * bool) : Z := if bool_decide (r = (id, true)) then 1 else 0.

Record inv (w : world) : Prop := {
  i_live ih id : m_engines (w_m w) !! ih = Some id -> exists e, m_heap (w_m w) !! id = Some e /\
    e_infoHash e = ih /\ e_path e = join (m_cacheRoot (w_m w)) ih /\ id ∉ m_dropped (w_m w);
  i_heap id : (m_nextE (w_m w) <= id)%nat -> m_heap (w_m w) !! id = None /\ id ∉ m_dropped (w_m w);
  i_purging ih d : m_purging (w_m w) !! ih = Some d <->
    exists s f, w_fin w !! d = Some (s, f) /\ s <> FClose /\ f_ih f = ih;
  i_apart ih : is_Some (m_purging (w_m w) !! ih) -> m_engines (w_m w) !! ih = None;
  i_fin d s f : w_fin w !! d = Some (s, f) ->
    f_done f = d /\ (d < m_nextC (w_m w))%nat /\ d ∉ m_closed (w_m w) /\ f_path f = join (m_cacheRoot (w_m w)) (f_ih f);
  i_closed d : d ∈ m_closed (w_m w) -> (d < m_nextC (w_m w))%nat;
  i_woken d : (d < m_nextC (w_m w))%nat -> d ∈ m_closed (w_m w) \/ is_Some (w_fin w !! d);
  i_once : NoDup (m_dropped (w_m w)) /\ NoDup (m_closed (w_m w));
  i_cap : 0 < m_maxEngines (w_m w) -> Z.of_nat (size (m_engines (w_m w))) <= m_maxEngines (w_m w);
  i_hold ih id : w_hold w = Some (ih, id) -> m_engines (w_m w) !! ih = Some id;
  i_readers id e : m_heap (w_m w) !! id = Some e -> e_openReaders e = msum (openOf id) (w_readers w);
  i_handles rid id b : w_readers w !! rid = Some (id, b) -> is_Some (m_heap (w_m w) !! id);
}.

(** A change of the engines' fields that keeps their names, with the reader
    counts it leaves. *)
Lemma inv_heap m now hold fin rs h' rs' now' :
  inv (MkWorld m now hold fin rs) ->
  (forall id, match m_heap m !! id, h' !! id with
              | Some e, Some e' => e_infoHash e' = e_infoHash e /\ e_path e' = e_path e /\
                  (e_openReaders e = msum (openOf id) rs -> e_openReaders e' = msum (openOf id) rs')
              | None, None => True
              | _, _ => False
              end) ->
  (forall rid id b, rs' !! rid = Some (id, b) -> is_Some (h' !! id)) ->
  inv (MkWorld (set_heap h' m) now' hold fin rs').
Proof.
  intros I Hh Hr. destruct I; cbn in *. constructor; cbn; try done.
  - intros ih id Hl. destruct (i_live0 _ _ Hl) as (e & He & H1 & H2 & H3). specialize (Hh id). rewrite He in Hh.
    destruct (h' !! id) as [e'|]; [|done]. destruct Hh as (E1 & E2 & _). exists e'. by rewrite E1, E2.
  - intros id Hid. destruct (i_heap0 id Hid) as [He Hd]. specialize (Hh id). rewrite He in Hh. by destruct (h' !! id).
  - intros id e' He'. specialize (Hh id). rewrite He' in Hh. destruct (m_heap m !! id) as [e|] eqn:He; [|done].
    by apply Hh, i_readers0.
Qed.

Lemma inv_alter m now hold fin rs g id rs' now' :
  inv (MkWorld m now hold fin rs) ->
  (forall e, e_infoHash (g e) = e_infoHash e /\ e_path (g e) = e_path e) ->
  (forall e, m_heap m !! id = Some e -> e_openReaders e = msum (openOf id) rs ->
    e_openReaders (g e) = msum (openOf id) rs') ->
  (forall id', id' <> id -> msum (openOf id') rs' = msum (openOf id') rs) ->
  (forall rid id' b, rs' !! rid = Some (id', b) -> is_Some (m_heap m !! id')) ->
  inv (MkWorld (on_heap (alter g id) m) now' hold fin rs').
Proof.
  intros I Hg Ho Hn Hr. apply (inv_heap m now hold fin rs); [done| |].
  - intros id'. destruct (decide (id' = id)) as [->|Hne].
    + rewrite lookup_alter_eq. destruct (m_heap m !! id) as [e|]; cbn; [|done].
      destruct (Hg e) as [-> ->]. split_and!; [done|done|]. by apply Ho.
    + rewrite lookup_alter_ne by done. destruct (m_heap m !! id') as [e|]; [|done]. by rewrite (Hn id').
  - intros rid id' b Hrid. apply Hr in Hrid. destruct (decide (id' = id)) as [->|?].
    + rewrite lookup_alter_eq. by apply fmap_is_Some.
    + by rewrite lookup_alter_ne.
Qed.

Lemma openOf_other id id' b : id' <> id -> openOf id' (id, b) = 0.
Proof. intros. unfold openOf. rewrite bool_decide_false; [done|congruence]. Qed.

Lemma openOf_here id b : openOf id (id, b) = if b then 1 else 0.
Proof. unfold openOf. destruct b; [by rewrite bool_decide_true|by rewrite bool_decide_false]. Qed.

Lemma inv_tick m now hold fin rs now' : inv (MkWorld m now hold fin rs) -> inv (MkWorld m now' hold fin rs).
Proof. intros I. by destruct I; constructor. Qed.

Lemma inv_touch m now hold fin rs id now' :
  inv (MkWorld m now hold fin rs) -> inv (MkWorld (on_heap (alter (touch now) id) m) now' hold fin rs).
Proof. intros I. apply (inv_alter m now hold fin rs); try done. apply (i_handles _ I). Qed.

Lemma inv_open m now hold fin rs id rid :
  is_Some (m_heap m !! id) -> rs !! rid = None -> inv (MkWorld m now hold fin rs) ->
  inv (MkWorld (on_heap (alter pin id) m) now hold fin (<[rid := (id, true)]> rs)).
Proof.
  intros Hid Hrid I. apply (inv_alter m now hold fin rs); try done.
  - intros e He Heq. cbn. rewrite msum_insert_new, openOf_here by done. lia.
  - intros id' Hne. by rewrite msum_insert_new, openOf_other by done.
  - intros r id' b [[-> [= <- <-]]|[_ H]]%lookup_insert_Some; [done|]. by eapply (i_handles _ I).
Qed.

Lemma inv_closeReader m now hold fin rs id rid :
  rs !! rid = Some (id, true) -> inv (MkWorld m now hold fin rs) ->
  inv (MkWorld (on_heap (alter (unpin now) id) m) now hold fin (<[rid := (id, false)]> rs)).
Proof.
  intros Hrid I. apply (inv_alter m now hold fin rs); try done.
  - intros e He Heq. cbn. rewrite (msum_insert_old _ _ _ _ _ Hrid), !openOf_here. lia.
  - intros id' Hne. rewrite (msum_insert_old _ _ _ _ _ Hrid), !openOf_other by done. lia.
  - intros r id' b [[-> [= <- <-]]|[_ H]]%lookup_insert_Some; [by eapply (i_handles _ I)|]. by eapply (i_handles _ I).
Qed.

Lemma inv_purge m now hold fin rs ih id e f m' :
  m_engines m !! ih = Some id -> m_heap m !! id = Some e -> beginPurge ih id e m = (f, m') ->
  inv (MkWorld m now hold fin rs) -> inv (MkWorld m' now None (spawn [f] fin) rs).
Proof.
  intros Hl He Hb I. destruct I; cbn in *. unfold beginPurge in Hb. injection Hb as <- <-.
  destruct (i_live0 _ _ Hl) as (e0 & He0 & Hih & Hpath & Hnd). rewrite He in He0. injection He0 as <-.
  assert (m_purging m !! ih = None) as Hnp.
  { destruct (m_purging m !! ih) as [d|] eqn:Hp; [|done]. by rewrite i_apart0 in Hl. }
  assert (fin !! m_nextC m = None) as Hnf.
  { destruct (fin !! m_nextC m) as [[s f]|] eqn:Hf; [|done]. apply i_fin0 in Hf as (_ & ? & _). lia. }
  constructor; cbn.
  - intros ih' id' [Hne Hl']%lookup_delete_Some. destruct (i_live0 _ _ Hl') as (e' & He' & H1 & H2 & H3).
    exists e'. split_and!; try done. apply not_elem_of_cons. split; [|done]. intros ->. rewrite He in He'. congruence.
  - intros id' Hid. destruct (i_heap0 id' Hid) as [H1 H2]. split; [done|]. apply not_elem_of_cons. split; [congruence|done].
  - intros ih' d. split.
    + intros [[<- <-]|[Hne Hp]]%lookup_insert_Some.
      * eexists FRemove, _. rewrite lookup_insert_eq. done.
      * apply i_purging0 in Hp as (s & f & Hf & ? & ?). exists s, f. rewrite lookup_insert_ne; [done|]. congruence.
    + intros (s & f & [[<- [= <- <-]]|[Hne Hf]]%lookup_insert_Some & Hs & <-); cbn; [by rewrite lookup_insert_eq|].
      assert (m_purging m !! f_ih f = Some d) as Hp by (apply i_purging0; eauto).
      rewrite lookup_insert_ne; [done|]. congruence.
  - intros ih' Hp. destruct (decide (ih' = ih)) as [->|Hne]; [by rewrite lookup_delete_eq|].
    rewrite lookup_insert_ne in Hp by done. rewrite lookup_delete_ne by done. by apply i_apart0.
  - intros d s f [[<- [= <- <-]]|[Hne Hf]]%lookup_insert_Some; cbn.
    + split_and!; [done|lia| |done]. intros Hc%i_closed0. lia.
    + apply i_fin0 in Hf as (? & ? & ? & ?). split_and!; try done. lia.
  - intros d Hd%i_closed0. lia.
  - intros d Hd. destruct (decide (d = m_nextC m)) as [->|Hne]; [right; rewrite lookup_insert_eq; by eexists|].
    rewrite lookup_insert_ne by done. apply i_woken0. lia.
  - destruct i_once0. split; [by apply NoDup_cons|done].
  - intros Hm. specialize (i_cap0 Hm). pose proof (map_size_delete_Some ih (m_engines m) (ltac:(by eexists))). lia.
  - done.
  - done.
  - done.
Qed.

Lemma removeLocked_inv ih m now fin rs f m' :
  inv (MkWorld m now None fin rs) -> removeLocked ih m = (f, m') ->
  match f with
  | None => m' = m
  | Some f => inv (MkWorld m' now None (spawn [f] fin) rs)
  end.
Proof.
  intros I. unfold removeLocked. destruct (m_engines m !! ih) as [id|] eqn:Hl; [|by intros [= <- <-]].
  destruct (m_heap m !! id) as [e|] eqn:He; [|by intros [= <- <-]].
  destruct (beginPurge ih id e m) as [f0 m0] eqn:Hb. intros [= <- <-]. by eapply inv_purge.
Qed.

Lemma spawn_commute f fs fin :
  (forall g, g ∈ fs -> f_done g <> f_done f) -> spawn fs (spawn [f] fin) = spawn (f :: fs) fin.
Proof.
  induction fs as [|g fs IH]; intros Hne; [done|].
  change (spawn (g :: fs) (spawn [f] fin)) with (<[f_done g := (FRemove, g)]> (spawn fs (spawn [f] fin))).
  rewrite IH by (intros; apply Hne; by right). cbn. apply insert_insert_ne. apply Hne. by left.
Qed.

Lemma removeLocked_done ih m f m' :
  removeLocked ih m = (f, m') ->
  (m_nextC m <= m_nextC m')%nat /\ forall g, f = Some g -> f_done g = m_nextC m /\ m_nextC m' = S (m_nextC m).
Proof.
  unfold removeLocked. destruct (m_engines m !! ih) as [id|]; [|intros [= <- <-]; done].
  destruct (m_heap m !! id) as [e|]; [|intros [= <- <-]; done]. cbn. intros [= <- <-]. cbn.
  split; [lia|]. by intros g [= <-].
Qed.

Lemma RemoveAll_done order m fs m' g : RemoveAll order m = (fs, m') -> g ∈ fs -> (m_nextC m <= f_done g)%nat.
Proof.
  revert m fs. induction order as [|ih order IH]; intros m fs; cbn; [intros [= <- <-]; by intros ?%not_elem_of_nil|].
  destruct (removeLocked ih m) as [f m1] eqn:Hr. destruct (RemoveAll order m1) as [fs1 m2] eqn:Ha. intros [= <- <-] Hg.
  apply removeLocked_done in Hr as [Hle Hf].
  assert (g ∈ fs1 -> (m_nextC m <= f_done g)%nat) as Hin by (intros H; specialize (IH m1 fs1 Ha H); lia).
  destruct f as [f|]; [|by auto]. apply elem_of_cons in Hg as [->|Hg]; [|by auto]. destruct (Hf f eq_refl). lia.
Qed.

Lemma RemoveAll_inv order m now fin rs fs m' :
  inv (MkWorld m now None fin rs) -> RemoveAll order m = (fs, m') -> inv (MkWorld m' now None (spawn fs fin) rs).
Proof.
  revert m fin fs. induction order as [|ih order IH]; intros m fin fs I; cbn; [by intros [= <- <-]|].
  destruct (removeLocked ih m) as [f m1] eqn:Hr. destruct (RemoveAll order m1) as [fs1 m2] eqn:Ha. intros [= <- <-].
  pose proof (removeLocked_inv _ _ _ _ _ _ _ I Hr) as I1. destruct f as [f|]; [|subst m1; by eapply IH].
  specialize (IH _ _ _ I1 Ha). rewrite spawn_commute in IH; [done|].
  intros g Hg. pose proof (RemoveAll_done _ _ _ _ _ Ha Hg). apply removeLocked_done in Hr as [_ Hf].
  destruct (Hf f eq_refl). lia.
Qed.

(** What one turn of EnsureEngine does to the manager. *)
Lemma ensureLocked_cases ih order added now m r m' :
  ensureLocked ih order added now m = (r, m') ->
  match r with
  | EnsHit id => m_engines m !! ToLower ih = Some id /\ m' = on_heap (alter (touch now) id) m
  | EnsCreated id =>
      m_engines m !! ToLower ih = None /\ m_purging m !! ToLower ih = None /\
      (0 < m_maxEngines m -> Z.of_nat (size (m_engines m)) < m_maxEngines m) /\
      m_engines m' = <[ToLower ih := id]> (m_engines m) /\ id = m_nextE m
  | EnsWait d => m' = m /\ m_purging m !! ToLower ih = Some d /\ m_engines m !! ToLower ih = None
  | EnsVictim v => m' = m /\ v = oldestIdleLocked (m_heap m) order /\ v <> [] /\
      0 < m_maxEngines m <= Z.of_nat (size (m_engines m))
  | EnsTooMany n => m' = m /\ oldestIdleLocked (m_heap m) order = [] /\ n = Z.of_nat (size (m_engines m)) /\
      0 < m_maxEngines m <= n
  | EnsErr => m' = m
  end.
Proof.
  unfold ensureLocked. destruct (m_engines m !! ToLower ih) as [id|] eqn:Hl; [by intros [= <- <-]|].
  destruct (m_purging m !! ToLower ih) as [d|] eqn:Hp; [by intros [= <- <-]|].
  destruct ((0 <? m_maxEngines m) && (m_maxEngines m <=? Z.of_nat (size (m_engines m)))) eqn:Hc.
  - bool_to_prop. destruct (oldestIdleLocked (m_heap m) order) eqn:Ho; by intros [= <- <-].
  - destruct added; [|by intros [= <- <-]]. intros [= <- <-]. cbn. split_and!; try done.
    intros Hm. apply andb_false_iff in Hc as [?|?]; bool_to_prop; lia.
Qed.

Lemma inv_create m now fin rs ih order m' id :
  ensureLocked ih order true now m = (EnsCreated id, m') ->
  inv (MkWorld m now None fin rs) -> inv (MkWorld m' now None fin rs).
Proof.
  intros E I. pose proof (ensureLocked_cases _ _ _ _ _ _ _ E) as (Hl & Hp & Hcap & _ & ->).
  unfold ensureLocked in E. rewrite Hl, Hp in E. revert E.
  destruct ((0 <? m_maxEngines m) && (m_maxEngines m <=? Z.of_nat (size (m_engines m)))) eqn:Hc.
  { by destruct (oldestIdleLocked (m_heap m) order). }
  intros [= <-]. destruct I; cbn in *. destruct (i_heap0 (m_nextE m) ltac:(lia)) as [Hnew Hnd].
  assert (forall id, is_Some (m_heap m !! id) -> id <> m_nextE m) as Hold by (intros id [e He] ->; congruence).
  constructor; cbn; try done.
  - intros ih' id' [[<- <-]|[Hne Hl']]%lookup_insert_Some.
    + eexists. by rewrite lookup_insert_eq.
    + destruct (i_live0 _ _ Hl') as (e & He & H1). exists e. rewrite lookup_insert_ne; [done|].
      intros <-. congruence.
  - intros id' Hid. rewrite lookup_insert_ne by lia. apply i_heap0. lia.
  - intros ih' Hs. rewrite lookup_insert_ne; [by apply i_apart0|]. intros <-. rewrite Hp in Hs. by destruct Hs.
  - intros Hm. rewrite map_size_insert_None by done. specialize (Hcap Hm). lia.
  - intros id' e [[<- <-]|[Hne He]]%lookup_insert_Some; [|by apply i_readers0]. cbn. symmetry.
    apply msum_zero. intros rid [id' b] Hr. apply openOf_other. intros E. by apply (Hold id' (i_handles0 _ _ _ Hr)).
  - intros rid id' b Hr. pose proof (i_handles0 _ _ _ Hr) as Hs. rewrite lookup_insert_ne; [done|].
    intros E. by apply (Hold id' Hs).
Qed.

Lemma inv_hold m now fin rs ih id :
  m_engines m !! ih = Some id -> inv (MkWorld m now None fin rs) -> inv (MkWorld m now (Some (ih, id)) fin rs).
Proof. intros Hl I. destruct I; constructor; try done. cbn. by intros ih' id' [= <- <-]. Qed.

Lemma inv_ensure m now fin rs ih order added r m' :
  ensureLocked ih order added now m = (r, m') -> inv (MkWorld m now None fin rs) ->
  inv (MkWorld m' now (match r with EnsVictim v => (fun id => (v, id)) <$> m_engines m !! v | _ => None end) fin rs).
Proof.
  intros E I. pose proof (ensureLocked_cases _ _ _ _ _ _ _ E) as C. destruct r as [id|d|v|n| |id].
  - destruct C as [_ ->]. by apply inv_touch with (now := now).
  - by destruct C as [-> _].
  - destruct C as [-> _]. destruct (m_engines m !! v) as [id|] eqn:Hv; [|done].
    by apply inv_hold.
  - by destruct C as [-> _].
  - by subst.
  - destruct added; [by eapply inv_create|]. revert E. unfold ensureLocked.
    by repeat (go_case; try done).
Qed.

Lemma inv_fin_remove m now hold fin rs d f :
  fin !! d = Some (FRemove, f) -> inv (MkWorld m now hold fin rs) ->
  inv (MkWorld m now hold (<[d := (FUnmark, f)]> fin) rs).
Proof.
  intros Hf I. destruct I; cbn in *. constructor; cbn; try done.
  - intros ih d'. rewrite i_purging0. destruct (decide (d' = d)) as [->|Hne]; [|by rewrite lookup_insert_ne].
    rewrite lookup_insert_eq, Hf. split; intros (s & g & [= <- <-] & ? & ?); eauto.
  - intros d' s g [[<- [= <- <-]]|[_ Hg]]%lookup_insert_Some; eauto.
  - intros d' Hd. destruct (i_woken0 d' Hd) as [?|Hs]; [by left|]. right.
    destruct (decide (d' = d)) as [->|?]; [by rewrite lookup_insert_eq|by rewrite lookup_insert_ne].
Qed.

Lemma inv_fin_unmark m now fin rs d f :
  fin !! d = Some (FUnmark, f) -> inv (MkWorld m now None fin rs) ->
  inv (MkWorld (finishUnmark f m) now None (<[d := (FClose, f)]> fin) rs).
Proof.
  intros Hf I. destruct I; cbn in *.
  assert (m_purging m !! f_ih f = Some d) as Hp by (apply i_purging0; exists FUnmark, f; done).
  constructor; cbn; try done.
  - intros ih d'. split.
    + intros [Hne H]%lookup_delete_Some. apply i_purging0 in H as (s & g & Hg & ? & <-). exists s, g.
      rewrite lookup_insert_ne; [done|]. intros <-. rewrite Hf in Hg. congruence.
    + intros (s & g & [[<- [= <- <-]]|[Hne Hg]]%lookup_insert_Some & Hs & <-); [done|].
      assert (m_purging m !! f_ih g = Some d') as Hp' by (apply i_purging0; eauto).
      rewrite lookup_delete_ne; [done|]. intros E. rewrite E in Hp. congruence.
  - intros ih [x Hx]. apply lookup_delete_Some in Hx as [_ Hx]. by apply i_apart0.
  - intros d' s g [[<- [= <- <-]]|[_ Hg]]%lookup_insert_Some; eauto.
  - intros d' Hd. destruct (i_woken0 d' Hd) as [?|Hs]; [by left|]. right.
    destruct (decide (d' = d)) as [->|?]; [by rewrite lookup_insert_eq|by rewrite lookup_insert_ne].
Qed.

Lemma inv_fin_close m now hold fin rs d f :
  fin !! d = Some (FClose, f) -> inv (MkWorld m now hold fin rs) ->
  inv (MkWorld (finishClose f m) now hold (delete d fin) rs).
Proof.
  intros Hf I. destruct I; cbn in *. destruct (i_fin0 _ _ _ Hf) as (Hd & Hlt & Hnc & _). constructor; cbn; try done.
  - intros ih d'. rewrite i_purging0. destruct (decide (d' = d)) as [->|Hne]; [|by rewrite lookup_delete_ne].
    rewrite lookup_delete_eq, Hf. split; intros (s & g & H & Hs & _); congruence.
  - intros d' s g [Hne Hg]%lookup_delete_Some. destruct (i_fin0 _ _ _ Hg) as (? & ? & ? & ?). split_and!; try done.
    apply not_elem_of_cons. split; [congruence|done].
  - intros d' [->|H]%elem_of_cons; [congruence|by apply i_closed0].
  - intros d' Hd'. rewrite elem_of_cons. destruct (decide (d' = d)) as [->|?]; [by left; left|].
    destruct (i_woken0 d' Hd') as [?|Hs]; [by left; right|]. right. by rewrite lookup_delete_ne.
  - destruct i_once0. split; [done|]. apply NoDup_cons. by rewrite Hd.
Qed.

Lemma mgr_step_inv w w' : inv w -> step w w' -> inv w'.
Proof.
  intros I S. destruct S.
  - by eapply inv_tick.
  - by eapply inv_ensure.
  - apply andb_true_iff in H as [H%bool_decide_eq_true _]. by apply inv_hold.
  - apply andb_true_iff in H0 as [H0%bool_decide_eq_true _]. by apply inv_hold.
  - eapply inv_purge; [|done|done|done]. by apply (i_hold _ I).
  - by pose proof (removeLocked_inv _ _ _ _ _ _ _ I H).
  - by eapply RemoveAll_inv.
  - by eapply inv_fin_remove.
  - by eapply inv_fin_unmark.
  - by eapply inv_fin_close.
  - by eapply inv_touch.
  - by eapply inv_open.
  - by eapply inv_closeReader.
Qed.

Lemma mgr_start_inv maxEngines root now : inv (start maxEngines root now).
Proof.
  constructor; cbn; try done; try set_solver.
  - lia.
  - split; constructor.
  - intros. rewrite map_size_empty. lia.
Qed.

(** The cap and the cache root never change. *)
Lemma removeLocked_config ih m f m' :
  removeLocked ih m = (f, m') -> m_maxEngines m' = m_maxEngines m /\ m_cacheRoot m' = m_cacheRoot m.
Proof. unfold removeLocked, beginPurge. intros H. repeat (go_case_in H; simplify_eq/=); done. Qed.

Lemma RemoveAll_config order m fs m' :
  RemoveAll order m = (fs, m') -> m_maxEngines m' = m_maxEngines m /\ m_cacheRoot m' = m_cacheRoot m.
Proof.
  revert m fs. induction order as [|ih order IH]; intros m fs; cbn; [by intros [= <- <-]|].
  destruct (removeLocked ih m) as [f m1] eqn:Hr. destruct (RemoveAll order m1) as [fs1 m2] eqn:Ha. intros [= <- <-].
  apply removeLocked_config in Hr as [<- <-]. by eapply IH.
Qed.

Lemma step_config w w' : step w w' ->
  m_maxEngines (w_m w') = m_maxEngines (w_m w) /\ m_cacheRoot (w_m w') = m_cacheRoot (w_m w).
Proof.
  intros S. destruct S; cbn; try done.
  - unfold ensureLocked in H0. repeat (go_case_in H0; simplify_eq/=; try done).
  - unfold beginPurge in H0. by simplify_eq/=.
  - by eapply removeLocked_config.
  - by eapply RemoveAll_config.
Qed.

Lemma mgr_reachable_inv maxEngines root now w : reachable maxEngines root now w ->
  inv w /\ m_maxEngines (w_m w) = maxEngines /\ m_cacheRoot (w_m w) = root.
Proof.
  intros R. eapply (rtc_invariant step (fun w => inv w /\ m_maxEngines (w_m w) = maxEngines /\ m_cacheRoot (w_m w) = root)).
  - intros w1 w2 (I & H1 & H2) S. split; [by eapply mgr_step_inv|]. apply step_config in S as [-> ->]. done.
  - exact R.
  - split; [apply mgr_start_inv|done].
Qed.

Lemma join_inj root a b : join root a = join root b -> a = b.
Proof. unfold join. intros H%app_inv_head. congruence. Qed.

(** * A purge owns its directory *)

(** C2: In every reachable state the number of live engines is within the cap,
    no live engine was dropped and none was dropped twice, no channel was closed
    twice; a directory about to be deleted belongs to no live engine and to no
    other purge, and an engine counts exactly its open readers. *)
Theorem purge_exclusive maxEngines root now w :
  reachable maxEngines root now w ->
  (0 < maxEngines -> Z.of_nat (size (m_engines (w_m w))) <= maxEngines) /\
  NoDup (m_dropped (w_m w)) /\ NoDup (m_closed (w_m w)) /\
  (forall ih id, m_engines (w_m w) !! ih = Some id ->
     exists e, m_heap (w_m w) !! id = Some e /\ e_infoHash e = ih /\ id ∉ m_dropped (w_m w) /\
       forall d s f, w_fin w !! d = Some (s, f) -> s <> FClose -> e_path e <> f_path f) /\
  (forall d1 d2 s1 s2 f1 f2, w_fin w !! d1 = Some (s1, f1) -> w_fin w !! d2 = Some (s2, f2) ->
     s1 <> FClose -> s2 <> FClose -> f_path f1 = f_path f2 -> d1 = d2) /\
  (forall id e, m_heap (w_m w) !! id = Some e -> e_openReaders e = msum (openOf id) (w_readers w)).
Proof.
  intros R. apply mgr_reachable_inv in R as (I & Hmax & Hroot). destruct (i_once _ I) as [N1 N2].
  split; [rewrite <- Hmax; apply (i_cap _ I)|]. split_and!; [done|done| | |apply (i_readers _ I)].
  - intros ih id Hl. destruct (i_live _ I _ _ Hl) as (e & He & Hih & Hp & Hd). exists e. split_and!; try done.
    intros d s f Hf Hs Heq. destruct (i_fin _ I _ _ _ Hf) as (_ & _ & _ & Hfp). rewrite Hp, Hfp in Heq.
    apply join_inj in Heq. assert (m_purging (w_m w) !! ih = Some d) as Hpu by (apply (i_purging _ I); eauto).
    by rewrite (i_apart _ I) in Hl by (by eexists).
  - intros d1 d2 s1 s2 f1 f2 H1 H2 Hs1 Hs2 Heq.
    destruct (i_fin _ I _ _ _ H1) as (_ & _ & _ & P1). destruct (i_fin _ I _ _ _ H2) as (_ & _ & _ & P2).
    rewrite P1, P2 in Heq. apply join_inj in Heq.
    assert (m_purging (w_m w) !! f_ih f1 = Some d1) as Q1 by (apply (i_purging _ I); eauto).
    assert (m_purging (w_m w) !! f_ih f1 = Some d2) as Q2 by (apply (i_purging _ I); eauto).
    congruence.
Qed.

(** * EnsureEngine *)

Lemma oldest_loop_spec heap order best :
  (forall ih id, (ih, id) ∈ order -> ih <> []) -> (forall b t, best = Some (b, t) -> b <> []) ->
  match oldest_loop heap order best with
  | None => best = None /\ forall ih id e, (ih, id) ∈ order -> heap !! id = Some e -> e_openReaders e <> 0
  | Some (v, t) =>
      v <> [] /\ (forall b t0, best = Some (b, t0) -> t <= t0) /\
      (best = Some (v, t) \/ exists id e, (v, id) ∈ order /\ heap !! id = Some e /\ e_openReaders e = 0 /\ e_lastAccess e = t) /\
      forall ih id e, (ih, id) ∈ order -> heap !! id = Some e -> e_openReaders e = 0 -> t <= e_lastAccess e
  end.
Proof.
  revert best. induction order as [|[ih id] order IH]; intros best Hk Hb; cbn [oldest_loop].
  { destruct best as [[v t]|]; [|split; [done|by intros ? ? ? ?%not_elem_of_nil]].
    split_and!; [by eapply Hb| |by left|by intros ? ? ? ?%not_elem_of_nil]. intros b t0 [= <- <-]. lia. }
  assert (forall ih' id', (ih', id') ∈ order -> ih' <> []) as Hk' by (intros ? ? ?; eapply Hk; by right).
  destruct (heap !! id) as [e|] eqn:He.
  2:{ specialize (IH best Hk' Hb). destruct (oldest_loop heap order best) as [[v t]|].
      - destruct IH as (H1 & H2 & H3 & H4). split_and!; [done|done| |].
        + destruct H3 as [?|(i & e & ? & ?)]; [by left|]. right. exists i, e. split; [by right|done].
        + intros ih' id' e' [[= -> ->]|H]%elem_of_cons; [congruence|]. by eapply H4.
      - destruct IH as [H1 H2]. split; [done|]. intros ih' id' e' [[= -> ->]|H]%elem_of_cons; [congruence|]. by eapply H2. }
  set (better := match best with None => true | Some (b, t) => bool_decide (b = []) || (e_lastAccess e <? t) end).
  specialize (IH (if (e_openReaders e =? 0) && better then Some (ih, e_lastAccess e) else best) Hk').
  destruct ((e_openReaders e =? 0) && better) eqn:Hc.
  - apply andb_true_iff in Hc as [Ho%Z.eqb_eq Hbe].
    specialize (IH ltac:(intros b t [= <- <-]; eapply Hk; by left)).
    destruct (oldest_loop heap order _) as [[v t]|]; [|by destruct IH]. destruct IH as (H1 & H2 & H3 & H4).
    specialize (H2 _ _ eq_refl). split_and!; [done| | |].
    + intros b t0 ->. unfold better in Hbe. apply orb_true_iff in Hbe as [Hbe%bool_decide_eq_true|Hbe]; [|bool_to_prop; lia].
      exfalso. by eapply Hb.
    + right. destruct H3 as [[= <- <-]|(i & e' & ? & ?)]; [exists id, e|exists i, e'].
      * split_and!; try done. by left.
      * split; [by right|done].
    + intros ih' id' e' [[= -> ->]|H]%elem_of_cons; [|by eapply H4]. intros E _. rewrite He in E. by injection E as <-.
  - specialize (IH Hb). destruct (oldest_loop heap order best) as [[v t]|].
    + destruct IH as (H1 & H2 & H3 & H4). split_and!; [done|done| |].
      * destruct H3 as [?|(i & e' & ? & ?)]; [by left|]. right. exists i, e'. split; [by right|done].
      * intros ih' id' e' [[= -> ->]|H]%elem_of_cons; [|by eapply H4]. intros E Ho. rewrite He in E. injection E as <-.
        rewrite Ho in Hc. cbn in Hc. unfold better in Hc. destruct best as [[b t0]|]; [|done].
        apply orb_false_iff in Hc as [_ Hc%Z.ltb_ge]. specialize (H2 _ _ eq_refl). lia.
    + destruct IH as [-> H2]. split; [done|]. intros ih' id' e' [[= -> ->]|H]%elem_of_cons; [|by eapply H2].
      intros E Ho. rewrite He in E. injection E as <-. rewrite Ho in Hc. done.
Qed.

(** What EnsureEngine promises of one turn. *)
Definition ensure_post (ih : bytes) (now : Z) (m : manager) (r : ensured) (m' : manager) : Prop :=
  let key := ToLower ih in
  match r with
  | EnsHit id =>
      m_engines m !! key = Some id /\ m_engines m' = m_engines m /\
      exists e, m_heap m !! id = Some e /\ m_heap m' = <[id := touch now e]> (m_heap m)
  | EnsWait d => m' = m /\ m_engines m !! key = None /\ m_purging m !! key = Some d
  | EnsCreated id =>
      m_engines m !! key = None /\ m_purging m !! key = None /\ m_heap m !! id = None /\
      m_engines m' = <[key := id]> (m_engines m) /\
      m_heap m' = <[id := MkEngine key (join (m_cacheRoot m) key) now 0]> (m_heap m)
  | EnsVictim v =>
      m' = m /\ m_engines m !! key = None /\ 0 < m_maxEngines m <= Z.of_nat (size (m_engines m)) /\
      exists id e, m_engines m !! v = Some id /\ m_heap m !! id = Some e /\ e_openReaders e = 0 /\
        forall ih2 id2 e2, m_engines m !! ih2 = Some id2 -> m_heap m !! id2 = Some e2 -> e_openReaders e2 = 0 ->
          e_lastAccess e <= e_lastAccess e2
  | EnsTooMany n =>
      m' = m /\ m_engines m !! key = None /\ n = Z.of_nat (size (m_engines m)) /\ 0 < m_maxEngines m <= n /\
      forall ih2 id2 e2, m_engines m !! ih2 = Some id2 -> m_heap m !! id2 = Some e2 -> 0 < e_openReaders e2
  | EnsErr => m' = m /\ m_engines m !! key = None
  end.

Lemma oldestIdleLocked_spec m order :
  order ≡ₚ map_to_list (m_engines m) -> m_engines m !! [] = None ->
  match oldest_loop (m_heap m) order None with
  | None => oldestIdleLocked (m_heap m) order = [] /\
      forall ih id e, m_engines m !! ih = Some id -> m_heap m !! id = Some e -> e_openReaders e <> 0
  | Some (v, t) => oldestIdleLocked (m_heap m) order = v /\ v <> [] /\
      (exists id e, m_engines m !! v = Some id /\ m_heap m !! id = Some e /\ e_openReaders e = 0 /\ e_lastAccess e = t) /\
      forall ih id e, m_engines m !! ih = Some id -> m_heap m !! id = Some e -> e_openReaders e = 0 -> t <= e_lastAccess e
  end.
Proof.
  intros Hp Hnil.
  assert (forall ih id, (ih, id) ∈ order <-> m_engines m !! ih = Some id) as Hin.
  { intros ih id. by rewrite Hp, elem_of_map_to_list. }
  pose proof (oldest_loop_spec (m_heap m) order None ltac:(intros ih id H%Hin ->; congruence) ltac:(done)) as S.
  unfold oldestIdleLocked. destruct (oldest_loop (m_heap m) order None) as [[v t]|]; cbn.
  - destruct S as (H1 & _ & H3 & H4). split_and!; [done|done| |].
    + destruct H3 as [?|(id & e & H%Hin & ?)]; [done|]. by exists id, e.
    + intros ih id e H%Hin. by eapply H4.
  - destruct S as [_ H]. split; [done|]. intros ih id e Hl%Hin. by eapply H.
Qed.

(** One turn of EnsureEngine from any reachable state reuses and touches the
    live engine, waits exactly for a purge of the same torrent, or creates an
    engine at a free path; at the cap it picks the least recently used engine
    without readers, and fails only when every engine has one. *)
Lemma ensureEngine_turn maxEngines root now w ih order added r m' :
  reachable maxEngines root now w -> m_engines (w_m w) !! [] = None ->
  order ≡ₚ map_to_list (m_engines (w_m w)) ->
  ensureLocked ih order added (w_now w) (w_m w) = (r, m') -> ensure_post ih (w_now w) (w_m w) r m'.
Proof.
  intros R Hnil Hp E. apply mgr_reachable_inv in R as (I & _ & _). pose proof (oldestIdleLocked_spec _ _ Hp Hnil) as S.
  pose proof (ensureLocked_cases _ _ _ _ _ _ _ E) as C.
  assert ((forall id, r <> EnsHit id) -> m_engines (w_m w) !! ToLower ih = None) as Hnone.
  { intros Hr. destruct (m_engines (w_m w) !! ToLower ih) as [id|] eqn:Hl; [|done].
    unfold ensureLocked in E. rewrite Hl in E. injection E as <- _. by destruct (Hr id). }
  destruct r as [id|d|v|n| |id]; cbn.
  - destruct C as [Hl ->]. split; [done|]. split; [done|]. destruct (i_live _ I _ _ Hl) as (e & He & _).
    exists e. split; [done|]. cbn. by rewrite (alter_alt_Some _ _ _ _ He).
  - by destruct C as (-> & ? & ?).
  - destruct C as (-> & -> & Hv & Hc). split; [done|]. split; [by apply Hnone|]. split; [done|].
    destruct (oldest_loop _ _ _) as [[v t]|]; [|by destruct S]. destruct S as (-> & _ & (id & e & ? & ? & ? & <-) & Hmin).
    by exists id, e.
  - destruct C as (-> & Ho & -> & Hc). split; [done|]. split; [by apply Hnone|]. split; [done|]. split; [done|].
    destruct (oldest_loop _ _ _) as [[v t]|]; [by destruct S as (S1 & S2 & _); congruence|].
    destruct S as [_ S]. intros ih2 id2 e2 Hl He. specialize (S _ _ _ Hl He).
    assert (0 <= e_openReaders e2); [|lia]. rewrite (i_readers _ I _ _ He). apply msum_nonneg.
    intros rid [i b] _. unfold openOf. by case_bool_decide.
  - subst. split; [done|]. by apply Hnone.
  - destruct C as (H1 & H2 & _ & H4 & ->). split_and!; try done; [by apply (i_heap _ I)|].
    unfold ensureLocked in E. rewrite H1, H2 in E. revert E. repeat (go_case; try done). by intros [= <-].
Qed.

(** * Purges finish *)

(** The steps a purge at stage [s] still has to take. *)
Definition rank (s : stage) : nat := match s with FRemove => 2 | FUnmark => 1 | FClose => 0 end.

Definition room (w w' : world) : Prop :=
  w_hold w' = None /\ (forall d, w_fin w !! d <> None -> w_fin w' !! d = w_fin w !! d) /\
  (w_hold w = None -> w' = w) /\
  (w_hold w <> None -> S (size (m_engines (w_m w'))) = size (m_engines (w_m w))).

Lemma release_hold w : inv w -> exists w', rtc step w w' /\ room w w'.
Proof.
  intros I. destruct w as [m now [[ih id]|] fin rs]; [|by exists (MkWorld m now None fin rs)].
  pose proof (i_hold _ I _ _ eq_refl) as Hl. destruct (i_live _ I _ _ Hl) as (e & He & _).
  destruct (beginPurge ih id e m) as [f m'] eqn:Hb. exists (MkWorld m' now None (spawn [f] fin) rs).
  split; [apply rtc_once; by eapply st_drop|]. injection Hb as <- <-. unfold room. cbn. split_and!; try done.
  - intros d Hd. rewrite lookup_insert_ne; [done|]. intros <-. apply Hd.
    destruct (fin !! m_nextC m) as [[s f]|] eqn:Hf; [|done]. apply (i_fin _ I) in Hf as (_ & Hlt & _). cbn in Hlt. lia.
  - intros _. cbn in Hl. pose proof (map_size_delete_Some ih (m_engines m) (ltac:(by eexists))) as Hs.
    assert (size (m_engines m) <> 0)%nat; [|lia].
    intros Hz%map_size_empty_inv. rewrite Hz, lookup_empty in Hl. done.
Qed.

Lemma purge_runs n : forall w d s f, inv w -> rank s = n -> w_fin w !! d = Some (s, f) ->
  exists w', rtc step w w' /\ d ∈ m_closed (w_m w') /\ m_purging (w_m w') !! f_ih f <> Some d.
Proof.
  induction n as [|n IH]; intros w d s f I Hr Hf.
  - destruct s; try done. destruct w as [m now hold fin rs]. cbn in *.
    pose proof (i_fin _ I _ _ _ Hf) as (Hd & _).
    exists (MkWorld (finishClose f m) now hold (delete d fin) rs). split; [apply rtc_once; by apply st_fin_close|].
    cbn. rewrite Hd. split; [by left|]. intros Hp%(i_purging _ I). destruct Hp as (s & g & Hg & Hs & _). cbn in Hg. congruence.
  - destruct (release_hold w I) as (w1 & R1 & Hh1 & Hf1 & _). assert (inv w1) as I1 by (by eapply (rtc_invariant step inv mgr_step_inv)).
    rewrite <- Hf1 in Hf by congruence. destruct w1 as [m now hold fin rs]. cbn in *. subst hold. destruct s; [| |done].
    + injection Hr as <-. assert (step (MkWorld m now None fin rs) (MkWorld m now None (<[d:=(FUnmark, f)]> fin) rs)) as S
        by (by apply st_fin_remove).
      destruct (IH _ d FUnmark f (mgr_step_inv _ _ I1 S) eq_refl ltac:(cbn; by rewrite lookup_insert_eq)) as (w' & R & ?).
      exists w'. split; [|done]. etrans; [exact R1|]. by eapply rtc_l.
    + injection Hr as <-.
      assert (step (MkWorld m now None fin rs) (MkWorld (finishUnmark f m) now None (<[d:=(FClose, f)]> fin) rs)) as S
        by (by apply st_fin_unmark).
      destruct (IH _ d FClose f (mgr_step_inv _ _ I1 S) eq_refl ltac:(cbn; by rewrite lookup_insert_eq)) as (w' & R & ?).
      exists w'. split; [|done]. etrans; [exact R1|]. by eapply rtc_l.
Qed.

Lemma spawn_other fs fin d : (forall g, g ∈ fs -> f_done g <> d) -> spawn fs fin !! d = fin !! d.
Proof.
  induction fs as [|g fs IH]; intros Hne; [done|]. cbn. rewrite lookup_insert_ne by (apply Hne; by left).
  apply IH. intros g' Hg. apply Hne. by right.
Qed.

(** No step undoes what a purge has done. *)
Lemma purge_keeps w w' d s f : inv w -> step w w' -> w_fin w !! d = Some (s, f) ->
  (exists s', w_fin w' !! d = Some (s', f) /\ (rank s' <= rank s)%nat) \/ d ∈ m_closed (w_m w').
Proof.
  intros I S Hf. destruct (i_fin _ I _ _ _ Hf) as (Hd & Hlt & _).
  destruct S; cbn [w_fin w_m] in *; try (left; by exists s).
  - left. exists s. rewrite (spawn_other [_]); [done|]. unfold beginPurge in *. simplify_eq/=.
    intros g ->%list_elem_of_singleton. cbn. lia.
  - left. exists s. rewrite (spawn_other [_]); [done|]. apply removeLocked_done in H as [_ H].
    destruct (H _ eq_refl). intros g ->%list_elem_of_singleton. lia.
  - left. exists s. rewrite spawn_other; [done|]. intros g Hg. pose proof (RemoveAll_done _ _ _ _ _ H0 Hg). lia.
  - left. destruct (decide (d0 = d)) as [->|]; [rewrite lookup_insert_eq|rewrite lookup_insert_ne by done; by exists s].
    exists FUnmark. rewrite Hf in H. injection H as -> ->. split; [done|cbn; lia].
  - left. destruct (decide (d0 = d)) as [->|]; [rewrite lookup_insert_eq|rewrite lookup_insert_ne by done; by exists s].
    exists FClose. rewrite Hf in H. injection H as -> ->. split; [done|cbn; lia].
  - destruct (decide (d0 = d)) as [->|]; [right|left; rewrite lookup_delete_ne by done; by exists s].
    apply elem_of_cons. left. congruence.
Qed.

Lemma removeLocked_closed ih m f m' : removeLocked ih m = (f, m') -> m_closed m' = m_closed m.
Proof. unfold removeLocked, beginPurge. intros H. repeat (go_case_in H; simplify_eq/=); done. Qed.

Lemma RemoveAll_closed order m fs m' : RemoveAll order m = (fs, m') -> m_closed m' = m_closed m.
Proof.
  revert m fs. induction order as [|ih order IH]; intros m fs; cbn; [by intros [= <- <-]|].
  destruct (removeLocked ih m) as [f m1] eqn:Hr. destruct (RemoveAll order m1) as [fs1 m2] eqn:Ha. intros [= <- <-].
  rewrite <- (removeLocked_closed _ _ _ _ Hr). by eapply IH.
Qed.

(** A closed channel stays closed. *)
Lemma closed_keeps w w' d : step w w' -> d ∈ m_closed (w_m w) -> d ∈ m_closed (w_m w').
Proof.
  intros S Hd. destruct S; cbn in *; try done.
  - unfold ensureLocked in H0. repeat (go_case_in H0; simplify_eq/=; try done).
  - unfold beginPurge in H0. by simplify_eq/=.
  - by rewrite (removeLocked_closed _ _ _ _ H).
  - by rewrite (RemoveAll_closed _ _ _ _ H0).
  - by right.
Qed.

(** An EnsureEngine that waits on a purge is woken: the purge is in flight,
    no step of any caller takes it back, and from any reachable state it can run
    to its end, after which its channel is closed and the torrent is no longer
    marked by it; an engine chosen as victim can always be dropped, which makes
    room for one more. *)
Lemma ensureEngine_woken maxEngines root now w ih order added d m' :
  reachable maxEngines root now w -> ensureLocked ih order added (w_now w) (w_m w) = (EnsWait d, m') ->
  (exists s f, w_fin w !! d = Some (s, f) /\ s <> FClose /\ f_ih f = ToLower ih) /\
  (forall w1 w2 s f, rtc step w w1 -> step w1 w2 -> w_fin w1 !! d = Some (s, f) ->
     (exists s', w_fin w2 !! d = Some (s', f) /\ (rank s' <= rank s)%nat) \/ d ∈ m_closed (w_m w2)) /\
  (forall w1, rtc step w w1 ->
     d ∈ m_closed (w_m w1) \/
     exists w2, rtc step w1 w2 /\ d ∈ m_closed (w_m w2) /\ m_purging (w_m w2) !! ToLower ih <> Some d) /\
  (forall w1, rtc step w w1 -> w_hold w1 <> None ->
     exists w2, rtc step w1 w2 /\ w_hold w2 = None /\ S (size (m_engines (w_m w2))) = size (m_engines (w_m w1))).
Proof.
  intros R E. apply mgr_reachable_inv in R as (I & _ & _).
  pose proof (ensureLocked_cases _ _ _ _ _ _ _ E) as (-> & Hp & _).
  pose proof (proj1 (i_purging _ I _ _) Hp) as (s & f & Hf & Hs & Hih).
  assert (forall w1, rtc step w w1 -> inv w1) as Hinv.
  { intros w1 R1. by eapply (rtc_invariant step inv mgr_step_inv). }
  pose (stay := fun w1 => inv w1 /\ ((exists s', w_fin w1 !! d = Some (s', f)) \/ d ∈ m_closed (w_m w1))).
  assert (forall w1, rtc step w w1 -> stay w1) as Hstay.
  { intros w1 R1. eapply (rtc_invariant step stay); [|exact R1|split; [done|left; by exists s]].
    intros w2 w3 [I2 [[s' H]|H]] S; (split; [by eapply mgr_step_inv|]).
    - destruct (purge_keeps _ _ _ _ _ I2 S H) as [(s2 & ? & _)|?]; [left; by exists s2|by right].
    - right. by eapply closed_keeps. }
  split; [by exists s, f|]. split; [|split].
  - intros w1 w2 s1 f1 R1 S H. by eapply purge_keeps; [apply Hinv| |].
  - intros w1 R1. destruct (Hstay w1 R1) as [_ [[s' H]|H]]; [|by left]. right. rewrite <- Hih.
    by eapply purge_runs; [apply Hinv| |].
  - intros w1 R1 Hh. destruct (release_hold w1 (Hinv _ R1)) as (w2 & R2 & H1 & _ & _ & H2). exists w2. auto.
Qed.

(** C9: EnsureEngine reuses and touches the live engine, waits for a purge of
    the same torrent, creates one at a free path, or picks the least recently
    used idle engine, failing only when all have readers; and one that waits is
    woken: its purge is in flight, no step undoes its progress, and it can
    always run to its end. *)
Theorem ensureEngine_correct :
  (forall maxEngines root now w ih order added r m',
   reachable maxEngines root now w -> m_engines (w_m w) !! [] = None ->
  order ≡ₚ map_to_list (m_engines (w_m w)) ->
  ensureLocked ih order added (w_now w) (w_m w) = (r, m') -> ensure_post ih (w_now w) (w_m w) r m') /\
  (forall maxEngines root now w ih order added d m',
   reachable maxEngines root now w -> ensureLocked ih order added (w_now w) (w_m w) = (EnsWait d, m') ->
  (exists s f, w_fin w !! d = Some (s, f) /\ s <> FClose /\ f_ih f = ToLower ih) /\
  (forall w1 w2 s f, rtc step w w1 -> step w1 w2 -> w_fin w1 !! d = Some (s, f) ->
     (exists s', w_fin w2 !! d = Some (s', f) /\ (rank s' <= rank s)%nat) \/ d ∈ m_closed (w_m w2)) /\
  (forall w1, rtc step w w1 ->
     d ∈ m_closed (w_m w1) \/
     exists w2, rtc step w1 w2 /\ d ∈ m_closed (w_m w2) /\ m_purging (w_m w2) !! ToLower ih <> Some d) /\
  (forall w1, rtc step w w1 -> w_hold w1 <> None ->
     exists w2, rtc step w1 w2 /\ w_hold w2 = None /\ S (size (m_engines (w_m w2))) = size (m_engines (w_m w1)))).
Proof. split; [exact ensureEngine_turn|]. exact ensureEngine_woken. Qed.

(** * What the janitor's checks leave open *)

(** The size-based pass does not look at the access time under the lock: an
    engine EnsureEngine has just handed out still passes. *)
Lemma evictCheck_ignores_access ih id m now id' :
  evictCheck ih id (on_heap (alter (touch now) id') m) = evictCheck ih id m.
Proof.
  unfold evictCheck, on_heap. cbn. f_equal. destruct (decide (id' = id)) as [->|Hne].
  - rewrite lookup_alter_eq. by destruct (m_heap m !! id).
  - by rewrite lookup_alter_ne.
Qed.

(** A reader may open between the check and the Drop. *)
Lemma dropped_under_reader :
  exists w id e, reachable 2 (bs "/c") 5 w /\ m_dropped (w_m w) = [id] /\ m_heap (w_m w) !! id = Some e /\
    e_openReaders e = 1 /\ w_readers w = {[0%nat := (id, true)]}.
Proof.
  pose (m1 := snd (ensureLocked (bs "AA") [] true 5 (newManager 2 (bs "/c")))).
  pose (m2 := on_heap (alter pin 0%nat) m1).
  pose (f := fst (beginPurge (bs "aa") 0 (MkEngine (bs "aa") (bs "/c/aa") 5 1) m2)).
  pose (m3 := snd (beginPurge (bs "aa") 0 (MkEngine (bs "aa") (bs "/c/aa") 5 1) m2)).
  exists (MkWorld m3 5 None (spawn [f] ∅) (<[0%nat := (0%nat, true)]> ∅)), 0%nat, (MkEngine (bs "aa") (bs "/c/aa") 5 1).
  split; [|split_and!; vm_compute; reflexivity].
  eapply rtc_l; [apply (st_ensure _ 5 ∅ ∅ (bs "AA") [] true (EnsCreated 0) m1); [by vm_compute|reflexivity]|].
  eapply rtc_l; [apply (st_evict m1 5 ∅ ∅ (bs "aa") 0); vm_compute; reflexivity|].
  eapply rtc_l; [apply (st_open m1 5 (Some (bs "aa", 0%nat)) ∅ ∅ 0 0); [by eexists; vm_compute|done]|].
  eapply rtc_l; [|reflexivity].
  apply (st_drop m2 5 _ _ (bs "aa") 0 (MkEngine (bs "aa") (bs "/c/aa") 5 1) f m3); vm_compute; reflexivity.
Qed.

(** * Witnesses: one engine is created, removed, and asked for again meanwhile *)

Definition wit_m1 : manager := snd (ensureLocked (bs "AA") [] true 5 (newManager 2 (bs "/c"))).
Definition wit_m2 : manager := snd (RemoveEngine (bs "Aa") wit_m1).
Definition wit_f : finisher := MkFin (bs "aa") (bs "/c/aa") 0.
Definition wit_w1 : world := MkWorld wit_m1 5 None ∅ ∅.
Definition wit_w2 : world := MkWorld wit_m2 5 None (spawn [wit_f] ∅) ∅.

Lemma wit_reach1 : reachable 2 (bs "/c") 5 wit_w1.
Proof.
  eapply rtc_l; [|reflexivity].
  apply (st_ensure _ 5 ∅ ∅ (bs "AA") [] true (EnsCreated 0) wit_m1); [by vm_compute|reflexivity].
Qed.

Lemma wit_reach2 : reachable 2 (bs "/c") 5 wit_w2.
Proof.
  eapply rtc_r; [exact wit_reach1|]. apply (st_remove wit_m1 5 ∅ ∅ (bs "Aa") wit_f wit_m2). vm_compute. reflexivity.
Qed.

Lemma purge_exclusive_witness :
  w_fin wit_w2 !! 0%nat = Some (FRemove, wit_f) /\ m_engines wit_m2 !! bs "aa" = None /\ NoDup (m_dropped wit_m2).
Proof.
  split; [vm_compute; reflexivity|]. split; [vm_compute; reflexivity|].
  pose proof (purge_exclusive 2 (bs "/c") 5 wit_w2 wit_reach2) as (_ & T & _). exact T.
Defined.

Lemma ensureEngine_correct_witness :
  ensureLocked (bs "aA") [] true 5 wit_m2 = (EnsWait 0, wit_m2) /\ m_purging wit_m2 !! bs "aa" = Some 0%nat /\
  (0%nat ∈ m_closed wit_m2 \/
   exists w2, rtc step wit_w2 w2 /\ 0%nat ∈ m_closed (w_m w2) /\ m_purging (w_m w2) !! ToLower (bs "aA") <> Some 0%nat).
Proof.
  assert (ensureLocked (bs "aA") [] true 5 wit_m2 = (EnsWait 0, wit_m2)) as E by (vm_compute; reflexivity).
  pose proof ensureEngine_correct as [Hturn Hwoken]. split; [exact E|]. split.
  - pose proof (Hturn 2 (bs "/c") 5 wit_w2 (bs "aA") [] true (EnsWait 0) wit_m2 wit_reach2
      ltac:(vm_compute; reflexivity) ltac:(vm_compute; reflexivity) E) as (_ & _ & T). exact T.
  - pose proof (Hwoken 2 (bs "/c") 5 wit_w2 (bs "aA") [] true 0%nat wit_m2 wit_reach2 E) as (_ & _ & T & _).
    exact (T wit_w2 (rtc_refl step wit_w2)).
Defined.
