(* ===== verification/Janitor.v ===== *)
(** The janitor of the torrent engine (internal/engine/engine.go): the pass that
    keeps the cache directories within the budget, the pass that drops idle
    torrents, and the memo that spares walking the cache.

    A pass is modelled with nobody else running; EngineMgr has the interleavings.
    The sizes of the directories and the peer counters are the environment's, and
    so is the order of the snapshot: the sort is stable, so that every result of
    Go's unstable one is the result for some snapshot. *)

From S2P Require Import Prelude GoStrings EngineMgr.

(** * The memo of the last walk *)

(** diskScan: the counters are maps from engines; [None] is nil. *)
Record diskScan := MkScan {
  sc_at : Z;
  sc_total : Z;
  sc_dl : option (gmap nat Z);
  sc_prev : option (gmap nat Z);
}.

Definition zeroScan : diskScan := MkScan 0 0 None None.

(** The loop of observe over the counters of this walk. *)
Definition unchanged (prev : gmap nat Z) (dl : list (nat * Z)) : bool :=
  forallb (fun '(e, n) => match prev !! e with Some p => p =? n | None => false end) dl.

Definition observe (withinBudget : bool) (total : Z) (dl : gmap nat Z) (now : Z) (s : diskScan) : diskScan :=
  let stable := match sc_prev s with
                | None => false
                | Some prev => bool_decide (size prev = size dl) && unchanged prev (map_to_list dl)
                end in
  if withinBudget && stable then MkScan now total (Some dl) (Some dl)
  else MkScan (sc_at s) (sc_total s) None (Some dl).

(** cacheQuiet; [live] are the engines of the manager, [downloaded] their
    counters now. *)
Definition cacheQuiet (budget now : Z) (live : list nat) (downloaded : nat -> Z) (s : diskScan) : bool :=
  match sc_dl s with
  | None => false
  | Some dl =>
      if (budget <? sc_total s) || (diskScanMaxAge <=? now - sc_at s) then false
      else if negb (bool_decide (length live = size dl)) then false
      else forallb (fun e => match dl !! e with Some base => downloaded e =? base | None => false end) live
  end.

(** * The passes *)

(** beginPurge and the closure it returns, one after the other. *)
Definition purgeNow (ih : bytes) (id : nat) (m : manager) : manager :=
  match m_heap m !! id with
  | None => m
  | Some e => let '(f, m) := beginPurge ih id e m in finish f m
  end.

(** One engine of the loop of purgeReaderless. *)
Definition reapOne (now threshold : Z) (id : nat) (m : manager) : manager :=
  match m_heap m !! id with
  | None => m
  | Some e =>
      if (0 <? e_openReaders e) || (now - e_lastAccess e <? threshold) then m
      else if reapCheck now threshold (e_infoHash e) id m then purgeNow (e_infoHash e) id m
      else m
  end.

Definition purgeReaderless (now threshold : Z) (snap : list nat) (m : manager) : manager :=
  foldl (fun m id => reapOne now threshold id m) m snap.

Definition evictIdle (idle now : Z) (snap : list nat) (m : manager) : manager :=
  if idle <=? 0 then m else purgeReaderless now idle snap m.

Record entry := MkEntry { en_id : nat; en_ih : bytes; en_size : Z; en_la : Z; en_or : Z }.

Definition measure (dirAllocated : bytes -> Z) (m : manager) (id : nat) : list entry :=
  match m_heap m !! id with
  | None => []
  | Some e => [MkEntry id (e_infoHash e) (dirAllocated (e_infoHash e)) (e_lastAccess e) (e_openReaders e)]
  end.

Definition accessed_before (a b : entry) : Prop := en_la a <= en_la b.

#[export] Instance accessed_before_dec a b : Decision (accessed_before a b) := Z_le_dec _ _.

Definition spared (now : Z) (ent : entry) : bool := (0 <? en_or ent) || (now - en_la ent <? graceWindow).

(** The loop of evict: the last entry is never reached. *)
Fixpoint evict_loop (budget now : Z) (entries : list entry) (total : Z) (m : manager) : manager :=
  match entries with
  | [] | [_] => m
  | ent :: rest =>
      if budget <? total then
        if spared now ent then evict_loop budget now rest total m
        else if evictCheck (en_ih ent) (en_id ent) m then
          evict_loop budget now rest (total - en_size ent) (purgeNow (en_ih ent) (en_id ent) m)
        else evict_loop budget now rest total m
      else m
  end.

Definition evict (memoryCacheSize budget now : Z) (snap : list nat) (downloaded : nat -> Z) (dirAllocated : bytes -> Z)
    (ms : manager * diskScan) : manager * diskScan :=
  let '(m, s) := ms in
  if budget <? 0 then (m, s)
  else match snap with
  | [] => (m, s)
  | _ =>
      if budget =? 0 then (purgeReaderless now graceWindow snap m, s)
      else if 0 <? memoryCacheSize then (m, s)
      else
        let entries := snap ≫= measure dirAllocated m in
        let total := sumZ en_size entries in
        let s := observe (total <=? budget) total (list_to_map ((fun id => (id, downloaded id)) <$> snap)) now s in
        if total <=? budget then (m, s)
        else (evict_loop budget now (merge_sort accessed_before entries) total m, s)
  end.

Definition evictTick (memoryCacheSize budget now : Z) (snap : list nat) (downloaded : nat -> Z) (dirAllocated : bytes -> Z)
    (ms : manager * diskScan) : manager * diskScan :=
  if (0 <? budget) && cacheQuiet budget now snap downloaded (snd ms) then ms
  else evict memoryCacheSize budget now snap downloaded dirAllocated ms.

(** * The memo is sound *)

Lemma unchanged_spec prev dl :
  size prev = size dl -> unchanged prev (map_to_list dl) = true -> prev = dl.
Proof.
  intros Hs Hu. unfold unchanged in Hu. rewrite forallb_forall in Hu.
  assert (dl ⊆ prev) as Hsub.
  { apply map_subseteq_spec. intros e n He.
    specialize (Hu (e, n) (proj1 (list_elem_of_In _ _) (proj2 (elem_of_map_to_list dl e n) He))). cbn in Hu.
    destruct (prev !! e); [|done]. apply Z.eqb_eq in Hu. by subst. }
  symmetry. apply map_subseteq_size_eq; [done|]. by rewrite Hs.
Qed.

Lemma unchanged_refl dl : unchanged dl (map_to_list dl) = true.
Proof.
  apply forallb_forall. intros [e n] Hin. apply list_elem_of_In, elem_of_map_to_list in Hin. rewrite Hin. apply Z.eqb_refl.
Qed.

(** A walk: when, what it measured, the budget it was held against, and the
    counters sampled before it. *)
Record walk := MkWalk { wk_at : Z; wk_total : Z; wk_budget : Z; wk_dl : gmap nat Z }.

(** The memo after the walks, newest first. *)
Fixpoint memo (h : list walk) : diskScan :=
  match h with
  | [] => zeroScan
  | w :: h => observe (wk_total w <=? wk_budget w) (wk_total w) (wk_dl w) (wk_at w) (memo h)
  end.

Definition settled (w1 w2 : walk) : bool :=
  (wk_total w1 <=? wk_budget w1) &&
  (bool_decide (size (wk_dl w2) = size (wk_dl w1)) && unchanged (wk_dl w2) (map_to_list (wk_dl w1))).

Lemma memo_step w1 w2 h :
  memo (w1 :: w2 :: h) =
  if settled w1 w2 then MkScan (wk_at w1) (wk_total w1) (Some (wk_dl w1)) (Some (wk_dl w1))
  else MkScan (sc_at (memo (w2 :: h))) (sc_total (memo (w2 :: h))) None (Some (wk_dl w1)).
Proof.
  assert (sc_prev (memo (w2 :: h)) = Some (wk_dl w2)) as Hp by (cbn; unfold observe; by destruct (_ && _)).
  change (memo (w1 :: w2 :: h)) with
    (observe (wk_total w1 <=? wk_budget w1) (wk_total w1) (wk_dl w1) (wk_at w1) (memo (w2 :: h))).
  unfold observe at 1. by rewrite Hp.
Qed.

Lemma settled_spec w1 w2 : settled w1 w2 = true <-> wk_total w1 <= wk_budget w1 /\ wk_dl w2 = wk_dl w1.
Proof.
  unfold settled. rewrite !andb_true_iff, Z.leb_le, bool_decide_eq_true. split.
  - intros (? & ? & ?). split; [done|]. by apply unchanged_spec.
  - intros (? & ->). split_and!; try done. apply unchanged_refl.
Qed.

Lemma memo_dl h dl : sc_dl (memo h) = Some dl <->
  exists w1 w2 h', h = w1 :: w2 :: h' /\ wk_dl w1 = dl /\ settled w1 w2 = true /\
    sc_at (memo h) = wk_at w1 /\ sc_total (memo h) = wk_total w1.
Proof.
  destruct h as [|w1 [|w2 h]].
  - split; [done|]. by intros (w1 & w2 & h' & ? & _).
  - cbn. unfold observe. cbn. rewrite andb_false_r. split; [done|]. by intros (a & b & h' & ? & _).
  - rewrite memo_step. split.
    + destruct (settled w1 w2) eqn:Hs; [|done]. intros [= <-]. by exists w1, w2, h.
    + by intros (a & b & h' & [= <- <- <-] & <- & -> & _).
Qed.

(** The janitor skips a tick exactly when the last two walks sampled equal
    counters for exactly the engines live now, none has received a byte since,
    and the last one was within its budget and the current one and is younger
    than two minutes. *)
Lemma cacheQuiet_exact budget now live downloaded h :
  NoDup live ->
  cacheQuiet budget now live downloaded (memo h) = true <->
  exists w1 w2 h', h = w1 :: w2 :: h' /\ wk_dl w1 = wk_dl w2 /\
    wk_total w1 <= wk_budget w1 /\ wk_total w1 <= budget /\ now - wk_at w1 < 120 * 10 ^ 9 /\
    (forall e, e ∈ live <-> is_Some (wk_dl w1 !! e)) /\
    forall e, e ∈ live -> wk_dl w1 !! e = Some (downloaded e).
Proof.
  intros Hnd. unfold cacheQuiet. split.
  - destruct (sc_dl (memo h)) as [dl|] eqn:Hdl; [|done].
    destruct (_ || _) eqn:Hc; [done|]. destruct (bool_decide _) eqn:Hlen; [|done]. cbn.
    apply memo_dl in Hdl as (w1 & w2 & h' & -> & E1 & [Hle E2]%settled_spec & Hat & Htot). rewrite Hat, Htot in Hc.
    apply bool_decide_eq_true in Hlen. rewrite forallb_forall. intros Hall. bool_to_prop. exists w1, w2, h'.
    assert (forall e, e ∈ live -> wk_dl w1 !! e = Some (downloaded e)) as Hdown.
    { intros e He%list_elem_of_In. specialize (Hall e He). rewrite E1. destruct (dl !! e); [|done].
      apply Z.eqb_eq in Hall. by subst. }
    split; [done|]. split; [done|]. split; [done|].
    split; [done|]. split; [unfold diskScanMaxAge, janitorTick in *; lia|]. split; [|done].
    intros e. split; [intros He; rewrite (Hdown e He); by eexists|]. intros He.
    assert (list_to_set live = dom dl) as Hdom.
    { apply set_subseteq_size_eq.
      - intros x Hx%elem_of_list_to_set. rewrite <- E1. apply elem_of_dom. rewrite (Hdown x Hx). by eexists.
      - rewrite size_dom, size_list_to_set by done. lia. }
    rewrite E1 in He. apply elem_of_dom in He. rewrite <- Hdom in He. by apply elem_of_list_to_set in He.
  - intros (w1 & w2 & h' & -> & E & Hle & Hb & Hage & Hlive & Hdown).
    assert (sc_dl (memo (w1 :: w2 :: h')) = Some (wk_dl w1)) as Hdl.
    { rewrite memo_step. by rewrite (proj2 (settled_spec w1 w2)). }
    rewrite Hdl. apply memo_dl in Hdl as (a & b & h0 & [= <- <- <-] & _ & _ & Hat & Htot). rewrite Hat, Htot.
    rewrite (proj2 (Z.ltb_ge _ _)), (proj2 (Z.leb_gt _ _)) by (unfold diskScanMaxAge, janitorTick; lia).
    assert (list_to_set live = dom (wk_dl w1)) as Hdom.
    { apply set_eq. intros e. by rewrite elem_of_list_to_set, elem_of_dom. }
    rewrite bool_decide_true by (by rewrite <- size_dom, <- Hdom, size_list_to_set). cbn. apply forallb_forall.
    intros e He%list_elem_of_In. rewrite (Hdown e He). apply Z.eqb_refl.
Qed.

(** * The passes keep their contract *)

Definition engineOf (m : manager) (ih : bytes) (e : engine) : Prop :=
  exists id, m_engines m !! ih = Some id /\ m_heap m !! id = Some e.

(** Which engines a pass of [m] at [now] may drop. *)
Definition droppable (now threshold : Z) (e : engine) : Prop := e_openReaders e <= 0 /\ threshold <= now - e_lastAccess e.

Definition sizeOf (dirAllocated : bytes -> Z) (m : manager) (id : nat) : Z :=
  from_option (fun e => dirAllocated (e_infoHash e)) 0 (m_heap m !! id).

Definition totalSize (dirAllocated : bytes -> Z) (m : manager) : Z := msum (sizeOf dirAllocated m) (m_engines m).

(** The live engines are named by their own infohash. *)
Definition named (m : manager) : Prop :=
  forall ih id, m_engines m !! ih = Some id -> exists e, m_heap m !! id = Some e /\ e_infoHash e = ih.

Lemma purgeNow_spec ih id m e : m_heap m !! id = Some e ->
  m_engines (purgeNow ih id m) = delete ih (m_engines m) /\ m_heap (purgeNow ih id m) = m_heap m.
Proof. intros He. unfold purgeNow. by rewrite He. Qed.

Lemma named_delete ih m m' : m_engines m' = delete ih (m_engines m) -> m_heap m' = m_heap m -> named m -> named m'.
Proof.
  intros He Hh Hn ih' id Hl. rewrite He in Hl. apply lookup_delete_Some in Hl as [_ Hl]. rewrite Hh. by apply Hn.
Qed.

(** ** Dropping by idle time *)

Lemma reapOne_spec now threshold id m : named m ->
  let m' := reapOne now threshold id m in
  named m' /\ m_heap m' = m_heap m /\
  forall ih, m_engines m' !! ih =
    match m_engines m !! ih, m_heap m !! id with
    | Some i, Some e => if decide (i = id /\ droppable now threshold e) then None else Some i
    | o, _ => o
    end.
Proof.
  intros Hn m'. unfold m', reapOne. destruct (m_heap m !! id) as [e|] eqn:He.
  2:{ split_and!; try done. intros ih. by destruct (m_engines m !! ih). }
  destruct (_ || _) eqn:Hs.
  { split_and!; try done. intros ih. destruct (m_engines m !! ih) as [i|]; [|done]. rewrite decide_False; [done|].
    intros [_ [H1 H2]]. apply orb_true_iff in Hs as [?%Z.ltb_lt|?%Z.ltb_lt]; lia. }
  unfold reapCheck. rewrite He, Hs. cbn [negb]. rewrite andb_true_r. bool_to_prop.
  assert (droppable now threshold e) as Hd by (unfold droppable; lia).
  case_bool_decide as Hl.
  - destruct (purgeNow_spec (e_infoHash e) id m e He) as [E1 E2]. split; [by eapply named_delete|]. split; [done|].
    intros ih. rewrite E1. destruct (decide (ih = e_infoHash e)) as [->|Hne].
    + rewrite lookup_delete_eq, Hl, decide_True; done.
    + rewrite lookup_delete_ne by done. destruct (m_engines m !! ih) as [i|] eqn:Hi; [|done].
      rewrite decide_False; [done|]. intros [-> _]. destruct (Hn _ _ Hi) as (e' & He' & <-). congruence.
  - split_and!; try done. intros ih. destruct (m_engines m !! ih) as [i|] eqn:Hi; [|done].
    rewrite decide_False; [done|]. intros [-> _]. destruct (Hn _ _ Hi) as (e' & He' & Hih). congruence.
Qed.

Lemma purgeReaderless_spec now threshold snap m : named m ->
  let m' := purgeReaderless now threshold snap m in
  m_heap m' = m_heap m /\
  forall ih id e, m_engines m !! ih = Some id -> m_heap m !! id = Some e ->
    m_engines m' !! ih = if decide (id ∈ snap /\ droppable now threshold e) then None else Some id.
Proof.
  revert m. induction snap as [|i snap IH]; intros m Hn; cbn zeta.
  { split; [done|]. intros ih id e Hl _. rewrite decide_False; [done|]. intros [?%not_elem_of_nil _]. done. }
  change (purgeReaderless now threshold (i :: snap) m) with
    (purgeReaderless now threshold snap (reapOne now threshold i m)).
  destruct (reapOne_spec now threshold i m Hn) as (Hn1 & Hh1 & Hl1). destruct (IH _ Hn1) as [Hh Hr]. split; [by rewrite Hh|].
  intros ih id e Hl He. specialize (Hl1 ih). rewrite Hl in Hl1.
  destruct (decide (id = i /\ droppable now threshold e)) as [[-> Hd]|Hnd].
  - rewrite He, decide_True in Hl1 by done. rewrite (decide_True (P := _ ∈ _ :: _ /\ _)) by (split; [by left|done]).
    assert (forall m0, named m0 -> m_engines m0 !! ih = None ->
      m_engines (purgeReaderless now threshold snap m0) !! ih = None) as Hgone.
    { clear. induction snap as [|i snap IH]; intros m0 Hn Hl; [done|]. cbn.
      destruct (reapOne_spec now threshold i m0 Hn) as (Hn1 & _ & Hl1). apply IH; [done|]. by rewrite Hl1, Hl. }
    by apply Hgone.
  - assert (m_engines (reapOne now threshold i m) !! ih = Some id) as Hl2.
    { rewrite Hl1. destruct (m_heap m !! i) as [e'|] eqn:He'; [|done]. rewrite decide_False; [done|].
      intros [-> Hd]. apply Hnd. split; [done|]. congruence. }
    rewrite (Hr ih id e Hl2) by (by rewrite Hh1). apply decide_ext. rewrite elem_of_cons. naive_solver.
Qed.

(** ** Dropping by size *)

Definition snapped (m : manager) (ent : entry) : Prop :=
  m_engines m !! en_ih ent = Some (en_id ent) /\
  exists e, m_heap m !! en_id ent = Some e /\ e_lastAccess e = en_la ent /\ e_openReaders e = en_or ent.

(** The entries the loop drops among those it looks at. *)
Definition victims (now : Z) (es : list entry) : list entry := filter (fun ent => spared now ent = false) es.

Lemma victims_cons now ent es :
  victims now (ent :: es) = if spared now ent then victims now es else ent :: victims now es.
Proof. unfold victims. rewrite filter_cons. by destruct (spared now ent). Qed.

Lemma snapped_purge m ent ent' :
  snapped m ent -> snapped m ent' -> en_ih ent' <> en_ih ent -> snapped (purgeNow (en_ih ent) (en_id ent) m) ent'.
Proof.
  intros (Hl & e & He & _) (Hl' & e' & He' & Hp) Hne. destruct (purgeNow_spec (en_ih ent) (en_id ent) m e He) as [E1 E2].
  split; [by rewrite E1, lookup_delete_ne|]. rewrite E2. by exists e'.
Qed.

Lemma evictCheck_snapped m ent now : snapped m ent -> spared now ent = false -> evictCheck (en_ih ent) (en_id ent) m = true.
Proof.
  intros (Hl & e & He & _ & Ho) Hs. unfold evictCheck. rewrite bool_decide_true, He by done. cbn.
  apply orb_false_iff in Hs as [Hs _]. by rewrite Ho, Hs.
Qed.

Lemma size_loop_spec budget now es mru total m :
  (forall ent, ent ∈ es -> snapped m ent) -> NoDup (en_ih <$> es) ->
  exists a b, es = a ++ b /\
    let m' := evict_loop budget now (es ++ [mru]) total m in
    m_heap m' = m_heap m /\ m_engines m' = deleteKeys (en_ih <$> victims now a) (m_engines m) /\
    (b = [] \/ total - sumZ en_size (victims now a) <= budget) /\
    (forall a1 ent a2, a = a1 ++ ent :: a2 -> budget < total - sumZ en_size (victims now a1)).
Proof.
  revert total m. induction es as [|ent es IH]; intros total m Hm Hnd.
  { exists [], []. cbn. split_and!; try done; [by left|]. intros a1 ent a2 E. by destruct a1. }
  cbn in Hnd. apply NoDup_cons in Hnd as [Hni Hnd].
  assert (evict_loop budget now ((ent :: es) ++ [mru]) total m =
    if budget <? total then
      if spared now ent then evict_loop budget now (es ++ [mru]) total m
      else if evictCheck (en_ih ent) (en_id ent) m
        then evict_loop budget now (es ++ [mru]) (total - en_size ent) (purgeNow (en_ih ent) (en_id ent) m)
        else evict_loop budget now (es ++ [mru]) total m
    else m) as -> by (by destruct es).
  destruct (Z.ltb_spec budget total) as [Hlt|Hge].
  2:{ exists [], (ent :: es). cbn. split_and!; try done; [by right; lia|]. intros a1 ent' a2 E. by destruct a1. }
  assert (snapped m ent) as Hment by (apply Hm; by left).
  destruct (spared now ent) eqn:Hs.
  - destruct (IH total m ltac:(intros; apply Hm; by right) Hnd) as (a & b & -> & Hh & He & Hb & Ha).
    exists (ent :: a), b. rewrite victims_cons, Hs. cbv zeta. split_and!; try done.
    intros [|x a1] ent' a2 [= <- ?]; [cbn; lia|]. rewrite victims_cons, Hs. by eapply Ha.
  - rewrite (evictCheck_snapped m ent now) by done.
    assert (forall ent', ent' ∈ es -> snapped (purgeNow (en_ih ent) (en_id ent) m) ent') as Hm'.
    { intros ent' Hin. apply snapped_purge; [done|apply Hm; by right|]. intros E. apply Hni. rewrite <- E.
      by apply list_elem_of_fmap_2. }
    destruct (IH (total - en_size ent) _ Hm' Hnd) as (a & b & -> & Hh & He & Hb & Ha).
    destruct Hment as (Hl & e & Hhe & _). destruct (purgeNow_spec (en_ih ent) (en_id ent) m e Hhe) as [E1 E2].
    exists (ent :: a), b. rewrite victims_cons, Hs, sumZ_cons. cbv zeta. split_and!; try done.
    + by rewrite Hh.
    + by rewrite He, E1, deleteKeys_delete.
    + destruct Hb as [?|?]; [by left|right; lia].
    + intros [|x a1] ent' a2 [= <- Ea]; [cbn; lia|]. rewrite victims_cons, Hs, sumZ_cons.
      pose proof (Ha _ _ _ Ea). lia.
Qed.

Lemma measured_names dirA m l :
  (forall ih id, (ih, id) ∈ l -> exists e, m_heap m !! id = Some e /\ e_infoHash e = ih) ->
  en_ih <$> (l.*2 ≫= measure dirA m) = l.*1.
Proof.
  induction l as [|[ih id] l IH]; intros Hl; [done|]. cbn. destruct (Hl ih id ltac:(left)) as (e & He & <-).
  unfold measure at 1. rewrite He. cbn. f_equal. apply IH. intros ih' id' H. apply Hl. by right.
Qed.

(** What the snapshot holds. *)
Lemma snapshot_spec dirA m snap es :
  named m -> snap ≡ₚ (map_to_list (m_engines m)).*2 -> es ≡ₚ snap ≫= measure dirA m ->
  NoDup (en_ih <$> es) /\
  (forall ent, ent ∈ es -> snapped m ent /\ en_size ent = sizeOf dirA m (en_id ent) /\ en_size ent = dirA (en_ih ent)) /\
  forall ih, ih ∈ en_ih <$> es <-> is_Some (m_engines m !! ih).
Proof.
  intros Hn Hs He.
  assert (en_ih <$> es ≡ₚ (map_to_list (m_engines m)).*1) as Hk.
  { rewrite He, Hs. rewrite measured_names; [done|]. intros ih id H. apply elem_of_map_to_list in H. by apply Hn. }
  split; [rewrite Hk; apply NoDup_fst_map_to_list|]. split.
  - intros ent Hin. rewrite He in Hin. apply list_elem_of_bind in Hin as (id & Hm & Hid).
    unfold measure in Hm. destruct (m_heap m !! id) as [e|] eqn:Hid'; [|by apply not_elem_of_nil in Hm].
    apply list_elem_of_singleton in Hm as ->. cbn. unfold sizeOf. rewrite Hid'.
    rewrite Hs in Hid. apply list_elem_of_fmap in Hid as ([ih id'] & -> & Hl%elem_of_map_to_list). cbn in Hid'.
    destruct (Hn _ _ Hl) as (e' & He' & <-). rewrite Hid' in He'. injection He' as <-.
    split; [|done]. split; [done|]. by exists e.
  - intros ih. rewrite Hk, list_elem_of_fmap. split.
    + intros ([k id] & -> & H%elem_of_map_to_list). by eexists.
    + intros [id H]. exists (ih, id). split; [done|]. by apply elem_of_map_to_list.
Qed.

Lemma snapshot_total dirA m snap es :
  named m -> snap ≡ₚ (map_to_list (m_engines m)).*2 -> es ≡ₚ snap ≫= measure dirA m -> sumZ en_size es = totalSize dirA m.
Proof.
  intros Hn Hs He. destruct (snapshot_spec dirA m snap es Hn Hs He) as (Hnd & Hm & Hk).
  unfold totalSize. rewrite (msum_keys _ (en_ih <$> es) (m_engines m) Hnd Hk).
  clear -Hm. induction es as [|ent es IH]; [done|]. rewrite fmap_cons, !sumZ_cons.
  destruct (Hm ent ltac:(left)) as ([-> _] & -> & _). cbn. f_equal. apply IH. intros. apply Hm. by right.
Qed.

Lemma spared_spec m now ent ih e : snapped m ent -> en_ih ent = ih -> engineOf m ih e ->
  (spared now ent = false <-> droppable now graceWindow e) /\ en_la ent = e_lastAccess e.
Proof.
  intros (Hl & e' & He & Hla & Ho) <- (id & Hl' & He'). rewrite Hl in Hl'. injection Hl' as <-.
  rewrite He in He'. injection He' as ->. split; [|done]. unfold spared, droppable.
  rewrite orb_false_iff, Z.ltb_ge, Z.ltb_ge, Hla, Ho. done.
Qed.

Lemma last_victim now a : victims now a = [] \/
  exists a1 v a2, a = a1 ++ v :: a2 /\ spared now v = false /\ victims now a = victims now a1 ++ [v].
Proof.
  induction a as [|v a1 IH] using rev_ind; [by left|]. unfold victims in *. rewrite filter_app.
  destruct (spared now v) eqn:Hs.
  - assert (filter (fun ent => spared now ent = false) [v] = []) as -> by (rewrite filter_cons_False, filter_nil; congruence).
    rewrite app_nil_r. destruct IH as [?|(b1 & u & b2 & -> & Hu & E)]; [by left|]. right.
    exists b1, u, (b2 ++ [v]). by rewrite <- app_assoc.
  - right. exists a1, v, []. split_and!; try done. f_equal. by rewrite filter_cons_True, filter_nil.
Qed.

(** What a pass by size leaves: [mru] is the engine it never reaches. *)
Definition size_pass (budget now : Z) (dirA : bytes -> Z) (m m' : manager) : Prop :=
  exists mru emru, engineOf m' mru emru /\
  (forall ih e, engineOf m ih e -> e_lastAccess e <= e_lastAccess emru) /\
  (forall ih e, engineOf m ih e -> ~ engineOf m' ih e ->
     droppable now graceWindow e /\
     forall ih2 e2, engineOf m' ih2 e2 -> ih2 <> mru -> droppable now graceWindow e2 -> e_lastAccess e <= e_lastAccess e2) /\
  (totalSize dirA m' <= budget \/ forall ih e, engineOf m' ih e -> ih <> mru -> ~ droppable now graceWindow e) /\
  (m_engines m' = m_engines m \/
   exists ih e, engineOf m ih e /\ ~ engineOf m' ih e /\ budget < totalSize dirA m' + dirA ih).

#[export] Instance accessed_before_trans : Transitive accessed_before.
Proof. intros a b c. unfold accessed_before. lia. Qed.

#[export] Instance accessed_before_total : Total accessed_before.
Proof. intros a b. unfold accessed_before. lia. Qed.

Section Pass.
Context (budget now : Z) (dirA : bytes -> Z) (m : manager) (mru : entry) (a b : list entry) (m' : manager).
Hypothesis Hsnap : forall ent, ent ∈ (a ++ b) ++ [mru] -> snapped m ent /\ en_size ent = sizeOf dirA m (en_id ent) /\
  en_size ent = dirA (en_ih ent).
Hypothesis Hnd : NoDup (en_ih <$> (a ++ b) ++ [mru]).
Hypothesis Hkeys : forall ih, ih ∈ en_ih <$> (a ++ b) ++ [mru] <-> is_Some (m_engines m !! ih).
Hypothesis Hsorted : StronglySorted accessed_before ((a ++ b) ++ [mru]).
Hypothesis Hheap : m_heap m' = m_heap m.
Hypothesis Hengines : m_engines m' = deleteKeys (en_ih <$> victims now a) (m_engines m).
Hypothesis Hstop : b = [] \/ totalSize dirA m - sumZ en_size (victims now a) <= budget.
Hypothesis Hneeded : forall a1 ent a2, a = a1 ++ ent :: a2 -> budget < totalSize dirA m - sumZ en_size (victims now a1).

Lemma pass_entry ih e : engineOf m ih e -> exists ent, ent ∈ (a ++ b) ++ [mru] /\ en_ih ent = ih /\
  en_la ent = e_lastAccess e /\ (spared now ent = false <-> droppable now graceWindow e).
Proof.
  intros He. assert (is_Some (m_engines m !! ih)) as Hs by (destruct He as (id & ? & _); by eexists).
  apply Hkeys, list_elem_of_fmap in Hs as (ent & Hih & Hin). exists ent. destruct (Hsnap ent Hin) as [Hm _].
  destruct (spared_spec m now ent ih e Hm (eq_sym Hih) He). done.
Qed.

Lemma pass_engine ent : ent ∈ (a ++ b) ++ [mru] -> exists e, engineOf m (en_ih ent) e /\ e_lastAccess e = en_la ent.
Proof. intros Hin. destruct (Hsnap ent Hin) as [(Hl & e & He & Hla & _) _]. exists e. split; [|done]. by exists (en_id ent). Qed.

Lemma pass_kept ih e : engineOf m' ih e <-> engineOf m ih e /\ ih ∉ en_ih <$> victims now a.
Proof.
  unfold engineOf. rewrite Hheap, Hengines. split.
  - intros (id & Hl & He). rewrite deleteKeys_lookup in Hl. case_decide; [done|]. split; [by exists id|done].
  - intros [(id & Hl & He) Hni]. exists id. by rewrite deleteKeys_lookup, decide_False.
Qed.

Lemma pass_inj ent ent' : ent ∈ (a ++ b) ++ [mru] -> ent' ∈ (a ++ b) ++ [mru] -> en_ih ent = en_ih ent' -> ent = ent'.
Proof.
  intros [i Hi]%list_elem_of_lookup [j Hj]%list_elem_of_lookup E.
  assert (i = j) as ->; [|congruence]. eapply (NoDup_lookup _ _ _ (en_ih ent) Hnd).
  - by rewrite list_lookup_fmap, Hi.
  - by rewrite list_lookup_fmap, Hj, E.
Qed.

Lemma victims_elem ent k : ent ∈ victims now k <-> spared now ent = false /\ ent ∈ k.
Proof. unfold victims. by rewrite list_elem_of_filter. Qed.

Lemma pass_gone ih e : engineOf m ih e -> ~ engineOf m' ih e ->
  exists ent, ent ∈ a /\ spared now ent = false /\ en_ih ent = ih.
Proof.
  intros He Hg. destruct (decide (ih ∈ en_ih <$> victims now a)) as [H|H]; [|by destruct Hg; apply pass_kept].
  apply list_elem_of_fmap in H as (ent & -> & [? ?]%victims_elem). by exists ent.
Qed.

Lemma pass_total : totalSize dirA m' = totalSize dirA m - sumZ en_size (victims now a).
Proof.
  assert (NoDup (en_ih <$> victims now a)) as Hv.
  { eapply sublist_NoDup; [exact Hnd|]. rewrite <- app_assoc, fmap_app. apply sublist_inserts_r, fmap_sublist, sublist_filter. }
  assert (totalSize dirA m' = msum (sizeOf dirA m) (m_engines m')) as ->.
  { apply msum_ext. intros ih id _. unfold sizeOf. by rewrite Hheap. }
  rewrite Hengines. unfold totalSize. rewrite (msum_deleteKeys _ (en_ih <$> victims now a) (m_engines m) Hv).
  2:{ intros ih (ent & -> & [_ Hin]%victims_elem)%list_elem_of_fmap. apply Hkeys.
      apply list_elem_of_fmap_2. rewrite <- app_assoc. apply elem_of_app. by left. }
  assert (sumZ (fun k => from_option (sizeOf dirA m) 0 (m_engines m !! k)) (en_ih <$> victims now a) =
    sumZ en_size (victims now a)) as ->; [|lia].
  assert (forall ent, ent ∈ victims now a -> snapped m ent /\ en_size ent = sizeOf dirA m (en_id ent)) as Hm.
  { intros ent [_ Hin]%victims_elem. destruct (Hsnap ent) as (? & ? & _); [|done].
    rewrite <- app_assoc. apply elem_of_app. by left. }
  clear -Hm. induction (victims now a) as [|ent vs IH]; [done|]. rewrite fmap_cons, !sumZ_cons.
  destruct (Hm ent ltac:(left)) as [[-> _] ->]. cbn. f_equal. apply IH. intros. apply Hm. by right.
Qed.

Lemma pass_mru ent : ent ∈ a ++ b -> en_la ent <= en_la mru.
Proof.
  intros Hin. apply StronglySorted_app in Hsorted as (Hs & _). specialize (Hs ent mru Hin).
  apply Hs. by apply list_elem_of_singleton.
Qed.

Lemma pass_spec : size_pass budget now dirA m m'.
Proof.
  destruct (pass_engine mru) as (emru & Hem & Hla); [apply elem_of_app; right; by left|].
  assert (forall ent, ent ∈ a ++ b -> en_ih ent <> en_ih mru) as Hother.
  { intros ent Hin E. rewrite fmap_app in Hnd. apply NoDup_app in Hnd as (_ & Hd & _).
    apply (Hd (en_ih ent)); [by apply list_elem_of_fmap_2|]. rewrite E. cbn. by left. }
  exists (en_ih mru), emru. split; [|split; [|split; [|split]]].
  - apply pass_kept. split; [done|]. intros (ent & E & [_ Hin]%victims_elem)%list_elem_of_fmap.
    apply (Hother ent); [apply elem_of_app; by left|done].
  - intros ih e He. destruct (pass_entry ih e He) as (ent & Hin & _ & <- & _). rewrite Hla.
    apply elem_of_app in Hin as [Hin|Hin]; [by apply pass_mru|]. apply list_elem_of_singleton in Hin as ->. lia.
  - intros ih e He Hg. destruct (pass_gone ih e He Hg) as (ent & Hin & Hsp & <-).
    destruct (pass_entry _ e He) as (ent' & Hin' & E' & Hla' & Hd).
    apply pass_inj in E' as ->; [|done|rewrite <- app_assoc; apply elem_of_app; by left]. split; [by apply Hd|].
    intros ih2 e2 He2 Hne Hd2. apply pass_kept in He2 as [He2 Hni].
    destruct (pass_entry ih2 e2 He2) as (ent2 & Hin2 & <- & Hla2 & Hd2'). apply Hd2' in Hd2.
    apply elem_of_app in Hin2 as [Hin2|Hin2]; [|by apply list_elem_of_singleton in Hin2 as ->].
    apply elem_of_app in Hin2 as [Hin2|Hin2].
    { destruct Hni. by apply list_elem_of_fmap_2, victims_elem. }
    apply StronglySorted_app in Hsorted as (_ & Hs & _). apply StronglySorted_app in Hs as (Hs & _).
    specialize (Hs ent ent2 Hin Hin2). unfold accessed_before in Hs. lia.
  - rewrite pass_total. destruct Hstop as [Hb|]; [right|by left]. intros ih e He Hne Hd.
    apply pass_kept in He as [He Hni]. destruct (pass_entry ih e He) as (ent & Hin & <- & _ & Hsp).
    apply elem_of_app in Hin as [Hin|Hin]; [|by apply list_elem_of_singleton in Hin as ->].
    rewrite Hb, app_nil_r in Hin. apply Hni, list_elem_of_fmap_2, victims_elem. split; [by apply Hsp|done].
  - destruct (last_victim now a) as [Hv|(a1 & v & a2 & Ea & Hsp & Ev)]; [left; by rewrite Hengines, Hv|]. right.
    assert (v ∈ a) as Hin by (rewrite Ea; apply elem_of_app; right; by left).
    assert (v ∈ (a ++ b) ++ [mru]) as Hin' by (rewrite <- app_assoc; apply elem_of_app; by left).
    destruct (pass_engine v Hin') as (e & He & _). exists (en_ih v), e. split; [done|]. split.
    + rewrite pass_kept. intros [_ Hni]. apply Hni, list_elem_of_fmap_2. by apply victims_elem.
    + destruct (Hsnap v Hin') as (_ & _ & <-). rewrite pass_total, Ev, sumZ_app. pose proof (Hneeded _ _ _ Ea). cbn. lia.
Qed.

End Pass.

Lemma evict_loop_pass budget now dirA m snap :
  named m -> snap ≡ₚ (map_to_list (m_engines m)).*2 -> snap <> [] ->
  let entries := snap ≫= measure dirA m in
  let m' := evict_loop budget now (merge_sort accessed_before entries) (sumZ en_size entries) m in
  m_heap m' = m_heap m /\ m_engines m' ⊆ m_engines m /\ size_pass budget now dirA m m'.
Proof.
  intros Hn Hs Hne entries m'.
  assert (merge_sort accessed_before entries ≡ₚ entries) as Hp by apply merge_sort_Permutation.
  destruct (snapshot_spec dirA m snap _ Hn Hs Hp) as (Hnd & Hm & Hk).
  assert (StronglySorted accessed_before (merge_sort accessed_before entries)) as Hss by (apply StronglySorted_merge_sort; apply _).
  pose proof (snapshot_total dirA m snap entries Hn Hs (Permutation_refl _)) as Ht.
  unfold m' in *. rewrite Ht. clear m' Ht. revert Hnd Hm Hk Hss Hp. generalize (merge_sort accessed_before entries) as l.
  intros l Hnd Hm Hk Hss Hp. destruct l as [|mru l _] using rev_ind.
  { exfalso. destruct snap as [|id snap]; [done|].
    assert (id ∈ (map_to_list (m_engines m)).*2) as Hid by (rewrite <- Hs; by left).
    apply list_elem_of_fmap in Hid as ([ih id'] & _ & Hl%elem_of_map_to_list).
    by apply (not_elem_of_nil ih), Hk; eexists. }
  destruct (size_loop_spec budget now l mru (totalSize dirA m) m) as (a & b & -> & Hh & He & Hb & Ha).
  { intros ent Hin. apply Hm, elem_of_app. by left. }
  { rewrite fmap_app in Hnd. by apply NoDup_app in Hnd as (? & _). }
  split; [done|]. split.
  - rewrite He. apply map_subseteq_spec. intros ih id. rewrite deleteKeys_lookup. by case_decide.
  - by eapply (pass_spec budget now dirA m mru a b).
Qed.

Lemma evict_loop_fits budget now es total m : total <= budget -> evict_loop budget now es total m = m.
Proof. intros H. destruct es as [|x [|y es]]; cbn [evict_loop]; [done|done|]. by rewrite (proj2 (Z.ltb_ge _ _)). Qed.

Lemma purgeReaderless_sub now threshold snap m : named m ->
  named (purgeReaderless now threshold snap m) /\
  forall ih id, m_engines (purgeReaderless now threshold snap m) !! ih = Some id -> m_engines m !! ih = Some id.
Proof.
  revert m. induction snap as [|i snap IH]; intros m Hn; [done|]. cbn.
  destruct (reapOne_spec now threshold i m Hn) as (Hn1 & _ & Hl1). destruct (IH _ Hn1) as [Hn2 H]. split; [done|].
  intros ih id Hl%H. rewrite Hl1 in Hl. destruct (m_engines m !! ih) as [j|]; [|done].
  destruct (m_heap m !! i); [|done]. by case_decide.
Qed.

(** A pass of the janitor over any reachable state only drops engines, none
    of them with an open reader: never with an unlimited budget or with the
    pieces in memory; with a zero budget exactly the idle ones; by size the least
    recently used first, never the most recently used, until the total fits or
    none is left to drop, and the last one dropped had to go.  The idle pass
    drops exactly the engines idle for the given time. *)
Lemma evict_contract maxEngines root now0 w memoryCacheSize budget idle now snap downloaded dirA s :
  reachable maxEngines root now0 w -> snap ≡ₚ (map_to_list (m_engines (w_m w))).*2 ->
  let m := w_m w in
  let m' := fst (evict memoryCacheSize budget now snap downloaded dirA (m, s)) in
  m_heap m' = m_heap m /\ m_engines m' ⊆ m_engines m /\
  (budget < 0 \/ 0 < budget /\ 0 < memoryCacheSize -> m' = m) /\
  (budget = 0 -> forall ih e, engineOf m ih e -> engineOf m' ih e <-> ~ droppable now graceWindow e) /\
  (0 < budget -> memoryCacheSize <= 0 -> m_engines m <> ∅ -> size_pass budget now dirA m m') /\
  (0 < idle -> forall ih e, engineOf m ih e -> engineOf (evictIdle idle now snap m) ih e <-> ~ droppable now idle e).
Proof.
  intros R Hs m m'. apply mgr_reachable_inv in R as (I & _ & _).
  assert (named m) as Hn.
  { intros ih id Hl. destruct (i_live _ I _ _ Hl) as (e & ? & ? & _). by exists e. }
  assert (forall ih id, m_engines m !! ih = Some id -> id ∈ snap) as Hin.
  { intros ih id Hl. rewrite Hs. apply list_elem_of_fmap. exists (ih, id). split; [done|]. by apply elem_of_map_to_list. }
  assert (forall threshold ih e, engineOf m ih e ->
    engineOf (purgeReaderless now threshold snap m) ih e <-> ~ droppable now threshold e) as Hreap.
  { intros thr ih e (id & Hl & He). destruct (purgeReaderless_spec now thr snap m Hn) as [Hh Hr].
    specialize (Hr ih id e Hl He). split.
    - intros (id' & Hl' & _) Hd. rewrite Hr, decide_True in Hl' by (split; [by eapply Hin|done]). done.
    - intros Hd. exists id. rewrite Hh, Hr, decide_False by naive_solver. done. }
  assert (m_engines (purgeReaderless now graceWindow snap m) ⊆ m_engines m) as Hsub.
  { apply map_subseteq_spec. intros ih id Hl. destruct (purgeReaderless_sub now graceWindow snap m Hn) as [_ H].
    by apply H. }
  assert (0 < idle -> forall ih e, engineOf m ih e -> engineOf (evictIdle idle now snap m) ih e <-> ~ droppable now idle e) as Hidle.
  { intros Hi. unfold evictIdle. rewrite (proj2 (Z.leb_gt _ _)) by done. apply Hreap. }
  unfold m', evict. destruct (Z.ltb_spec budget 0) as [Hneg|Hpos].
  { split_and!; try done; intros; exfalso; lia. }
  destruct snap as [|id0 snap0].
  { split_and!; try done.
    - intros Hb ih e (id & Hl & _). apply Hin in Hl. by apply not_elem_of_nil in Hl.
    - intros _ _ Hne. destruct Hne. apply map_empty. intros ih. destruct (m_engines m !! ih) as [id|] eqn:Hl; [|done].
      apply Hin in Hl. by apply not_elem_of_nil in Hl. }
  destruct (Z.eqb_spec budget 0) as [->|Hne].
  { split_and!; try done; [by apply purgeReaderless_spec|intros; exfalso; lia|intros _; apply Hreap]. }
  destruct (Z.ltb_spec 0 memoryCacheSize) as [Hmem|Hmem].
  { split_and!; try done; intros; exfalso; lia. }
  destruct (evict_loop_pass budget now dirA m (id0 :: snap0) Hn Hs ltac:(done)) as (H1 & H2 & H3).
  destruct (Z.leb_spec (sumZ en_size ((id0 :: snap0) ≫= measure dirA m)) budget) as [Hle|Hgt].
  - cbn [fst]. split_and!; try done; [intros; exfalso; lia..|]. intros _ _ _.
    by rewrite evict_loop_fits in H3.
  - cbn [fst]. split_and!; try done; intros; exfalso; lia.
Qed.


(** * Witnesses *)

(** Three engines of 40 bytes each and a budget of 100: the two older ones are
    idle, and one of them goes. *)
Definition wit_now : Z := 1000 * 10 ^ 9.
Definition wit_engine (ih : bytes) (t : Z) : manager -> manager := fun m => snd (ensureLocked ih [] true t m).
Definition wit_j1 : manager := wit_engine (bs "aa") (2 * 10 ^ 9) (newManager 0 (bs "/c")).
Definition wit_j2 : manager := wit_engine (bs "bb") (3 * 10 ^ 9) wit_j1.
Definition wit_m : manager := wit_engine (bs "cc") (4 * 10 ^ 9) wit_j2.
Definition wit_w : world := MkWorld wit_m (4 * 10 ^ 9) None ∅ ∅.

Lemma wit_janitor_reach : reachable 0 (bs "/c") (2 * 10 ^ 9) wit_w.
Proof.
  eapply rtc_l; [apply (st_ensure _ _ ∅ ∅ (bs "aa") [] true (EnsCreated 0) wit_j1); [by vm_compute|reflexivity]|].
  eapply rtc_l; [apply (st_tick wit_j1 _ None ∅ ∅ (3 * 10 ^ 9)); lia|].
  eapply rtc_l; [apply (st_ensure wit_j1 _ ∅ ∅ (bs "bb") [(bs "aa", 0%nat)] true (EnsCreated 1) wit_j2);
    [by vm_compute|reflexivity]|].
  eapply rtc_l; [apply (st_tick wit_j2 _ None ∅ ∅ (4 * 10 ^ 9)); lia|].
  eapply rtc_l; [|reflexivity].
  apply (st_ensure wit_j2 _ ∅ ∅ (bs "cc") (map_to_list (m_engines wit_j2)) true (EnsCreated 2) wit_m); [done|reflexivity].
Qed.

Definition wit_snap : list nat := (map_to_list (m_engines wit_m)).*2.
Definition wit_after : manager :=
  fst (evict 0 100 wit_now wit_snap (fun _ => 0) (fun _ => 40) (wit_m, zeroScan)).

Definition wit_walk (t : Z) : walk := MkWalk t 80 100 {[0%nat := 7; 1%nat := 9]}.

