(* ===== verification/Boundary.v ===== *)
(** Which pieces of a torrent are fetched first (internal/engine/engine.go): the
    head and tail of the files being played, the head of the next one, and the
    files fetched in the background.

    Reading a file marks it selected, primed and prefetched, and closing its last
    reader undoes that; pieces are shared between files, so a release must spare
    what another wanted file needs.  File names, lengths and piece ranges come
    from the torrent, and so do Piece.SetPriority and File.SetPriority, which
    [e_pieces] and [e_files] record. *)

From S2P Require Import Prelude.

(** * Data *)

(** The three of anacrolix's priorities the engine sets, in its order. *)
Inductive prio := PNone | PNormal | PNow.

#[export] Instance prio_eq_dec : EqDecision prio.
Proof. solve_decision. Defined.

Definition rank (p : prio) : Z := match p with PNone => 0 | PNormal => 1 | PNow => 2 end.

(** torrent.File: its piece range, whether its extension is in videoExts, its
    length. *)
Record file := MkFile { fi_begin : Z; fi_end : Z; fi_video : bool; fi_length : Z }.

Record info := MkInfo { in_pieceLength : Z; in_files : list file }.

(** The part of engine these operations use. *)
Record engine := MkEngine {
  e_info : option info;
  e_selected : gset Z;
  e_primed : gset Z;
  e_prefetched : gset Z;
  e_tailWarmed : gset Z;
  e_reading : gmap Z Z;
  e_bprio : gmap Z prio;
  e_pieces : gmap Z prio;
  e_files : gmap Z prio;
}.

Definition newEngine : engine := MkEngine None ∅ ∅ ∅ ∅ ∅ ∅ ∅ ∅.

Definition set_marks (sel pri pre : gset Z) (e : engine) : engine :=
  MkEngine (e_info e) sel pri pre (e_tailWarmed e) (e_reading e) (e_bprio e) (e_pieces e) (e_files e).
Definition set_warm (w : gset Z) (e : engine) : engine :=
  MkEngine (e_info e) (e_selected e) (e_primed e) (e_prefetched e) w (e_reading e) (e_bprio e) (e_pieces e) (e_files e).
Definition set_reading (r : gmap Z Z) (e : engine) : engine :=
  MkEngine (e_info e) (e_selected e) (e_primed e) (e_prefetched e) (e_tailWarmed e) r (e_bprio e) (e_pieces e) (e_files e).
Definition set_prios (bp : gmap Z prio * gmap Z prio) (e : engine) : engine :=
  MkEngine (e_info e) (e_selected e) (e_primed e) (e_prefetched e) (e_tailWarmed e) (e_reading e) (fst bp) (snd bp) (e_files e).
Definition set_files (f : gmap Z prio) (e : engine) : engine :=
  MkEngine (e_info e) (e_selected e) (e_primed e) (e_prefetched e) (e_tailWarmed e) (e_reading e) (e_bprio e) (e_pieces e) f.

(** Go's reading of a missing key. *)
Definition reads (e : engine) (i : Z) : Z := from_option id 0 (e_reading e !! i).

Definition nfiles (inf : info) : Z := Z.of_nat (length (in_files inf)).

Definition file_at (inf : info) (i : Z) : option file := if i <? 0 then None else in_files inf !! Z.to_nat i.

(** * Piece ranges *)

Definition headWindowBytes : Z := Z.shiftl 4 20.
Definition tailWindowBytes : Z := Z.shiftl 8 20.
Definition minWarmSize : Z := Z.shiftl 16 20.

Definition piecesForBytes (n pieceLen : Z) : Z :=
  if (pieceLen <=? 0) || (n <=? 0) then 1
  else let p := (n + pieceLen - 1) / pieceLen in if p <? 1 then 1 else p.

Definition primeBoundaryRange (begin end_ pieceLen headBytes tailBytes : Z) : Z * Z :=
  if end_ <=? begin then (begin, begin)
  else
    let headEnd := begin + piecesForBytes headBytes pieceLen in
    let headEnd := if end_ <? headEnd then end_ else headEnd in
    let tailBegin := end_ - piecesForBytes tailBytes pieceLen in
    let tailBegin := if tailBegin <? begin then begin else tailBegin in
    (headEnd, tailBegin).

(** pieceSpan: [begin, end). *)
Definition pieceSpan : Type := Z * Z.

Definition boundarySpans (begin end_ pieceLen : Z) : list pieceSpan :=
  let '(headEnd, tailBegin) := primeBoundaryRange begin end_ pieceLen headWindowBytes tailWindowBytes in
  [(begin, headEnd); (tailBegin, end_)].

Definition prefetchPieces : Z := 4.

Definition prefetchSpans (begin end_ : Z) : list pieceSpan :=
  let tailStart := end_ - prefetchPieces in
  let tailStart := if tailStart <? begin then begin else tailStart in
  [(begin, Z.min (begin + prefetchPieces) end_); (tailStart, end_)].

(** The pieces the loops over [spans] visit, in their order. *)
Definition piecesOf (spans : list pieceSpan) : list Z := spans ≫= fun '(b, e) => seqZ b (e - b).

Fixpoint next_loop (i : Z) (files : list file) : Z :=
  match files with
  | [] => -1
  | f :: files => if fi_video f then i else next_loop (i + 1) files
  end.

(** The index after the one given is never negative: callers pass file indices. *)
Definition nextVideoIdx (inf : info) (idx : Z) : Z := next_loop (idx + 1) (drop (Z.to_nat (idx + 1)) (in_files inf)).

Fixpoint guess_loop (i bestVideo bestVideoLen bestAny bestAnyLen : Z) (files : list file) : Z * Z :=
  match files with
  | [] => (bestVideo, bestAny)
  | f :: files =>
      let '(bv, bvl) := if fi_video f && (bestVideoLen <? fi_length f) then (i, fi_length f) else (bestVideo, bestVideoLen) in
      let '(ba, bal) := if bestAnyLen <? fi_length f then (i, fi_length f) else (bestAny, bestAnyLen) in
      guess_loop (i + 1) bv bvl ba bal files
  end.

Definition GuessFileIdx (e : engine) : Z :=
  match e_info e with
  | None => -1
  | Some inf =>
      match in_files inf with
      | [] => -1
      | files => let '(bv, ba) := guess_loop 0 (-1) (-1) 0 (-1) files in if 0 <=? bv then bv else ba
      end
  end.

(** * Raising and releasing pieces: the priorities we set, and the pieces' own *)

Definition prios : Type := gmap Z prio * gmap Z prio.

Definition raise_one (p : prio) (bp : prios) (i : Z) : prios :=
  match fst bp !! i with
  | Some cur => if rank p <=? rank cur then bp else (<[i := p]> (fst bp), <[i := p]> (snd bp))
  | None => (<[i := p]> (fst bp), <[i := p]> (snd bp))
  end.

Definition raiseBoundary (spans : list pieceSpan) (p : prio) (bp : prios) : prios :=
  foldl (raise_one p) bp (piecesOf spans).

Fixpoint collect (keep seen : gset Z) (l : list Z) : list Z :=
  match l with
  | [] => []
  | i :: l => if bool_decide (i ∈ keep) || bool_decide (i ∈ seen) then collect keep seen l
              else i :: collect keep ({[i]} ∪ seen) l
  end.

Definition piecesToRelease (demoted protected : list pieceSpan) : list Z :=
  merge_sort Z.le (collect (list_to_set (piecesOf protected)) ∅ (piecesOf demoted)).

Definition release_one (bp : prios) (i : Z) : prios :=
  match fst bp !! i with
  | None => bp
  | Some _ => (delete i (fst bp), <[i := PNone]> (snd bp))
  end.

Definition releasePieces (pieces : list Z) (bp : prios) : prios := foldl release_one bp pieces.

(** spansOf inside releaseBoundary. *)
Definition spansOf (inf : info) (i : Z) : list pieceSpan :=
  match file_at inf i with
  | None => []
  | Some f =>
      boundarySpans (fi_begin f) (fi_end f) (in_pieceLength inf) ++
      (let n := nextVideoIdx inf i in
       if 0 <=? n then match file_at inf n with
                       | Some g => prefetchSpans (fi_begin g) (fi_end g)
                       | None => []
                       end
       else [])
  end.

(** The files that are selected, primed or being read. *)
Definition keepFiles (e : engine) : gset Z :=
  e_selected e ∪ e_primed e ∪ dom (filter (fun kv => 0 < kv.2) (e_reading e)).

Definition releaseBoundary (demoted : list Z) (e : engine) : engine :=
  match demoted, e_info e with
  | [], _ | _, None => e
  | _, Some inf =>
      let keep := keepFiles e ∖ list_to_set demoted in
      set_prios (releasePieces (piecesToRelease (demoted ≫= spansOf inf) (elements keep ≫= spansOf inf))
                   (e_bprio e, e_pieces e)) e
  end.

(** File.SetPriority(None) on the files that exist. *)
Definition clearFiles (inf : info) (l : list Z) (m : gmap Z prio) : gmap Z prio :=
  foldl (fun m i => if i <? nfiles inf then <[i := PNone]> m else m) m l.

(** * The operations *)

(** The critical section of ensureDownloading: the files to demote, and whether
    the file was selected already. *)
Definition demoteLocked (idx : Z) (e : engine) : list Z * bool * engine :=
  let already := bool_decide (idx ∈ e_selected e) in
  let d1 := filter (fun i => i <> idx /\ reads e i = 0) (elements (e_selected e)) in
  let sel := e_selected e ∖ list_to_set d1 in
  let pri := e_primed e ∖ list_to_set d1 in
  let pre := e_prefetched e ∖ list_to_set d1 in
  let d2 := filter (fun i => i ∉ sel /\ i <> idx /\ reads e i = 0) (elements pri) in
  let pri := pri ∖ list_to_set d2 in
  let pre := pre ∖ list_to_set d2 in
  (d1 ++ d2, already,
   if already then set_marks sel pri pre e else set_marks ({[idx]} ∪ sel) (pri ∖ {[idx]}) pre e).

Definition ensureDownloading (idx : Z) (e : engine) : engine :=
  match e_info e with
  | None => e
  | Some inf =>
      if (idx <? 0) || (nfiles inf <=? idx) then e
      else
        let '(demote, already, e) := demoteLocked idx e in
        let e := set_files (clearFiles inf demote (e_files e)) e in
        let e := releaseBoundary demote e in
        if already then e else set_files (<[idx := PNormal]> (e_files e)) e
  end.

Definition primeBoundary (idx : Z) (e : engine) : engine :=
  match e_info e with
  | None => e
  | Some inf =>
      if idx <? 0 then e
      else if bool_decide (idx ∈ e_primed e) then e
      else
        let e := set_marks (e_selected e) ({[idx]} ∪ e_primed e) (e_prefetched e) e in
        match file_at inf idx with
        | None => e
        | Some f =>
            set_prios (raiseBoundary (boundarySpans (fi_begin f) (fi_end f) (in_pieceLength inf)) PNow (e_bprio e, e_pieces e)) e
        end
  end.

Definition prefetchNext (idx : Z) (e : engine) : engine :=
  match e_info e with
  | None => e
  | Some inf =>
      if idx <? 0 then e
      else if bool_decide (idx ∈ e_prefetched e) then e
      else
        let e := set_marks (e_selected e) (e_primed e) ({[idx]} ∪ e_prefetched e) e in
        let next := nextVideoIdx inf idx in
        if next <? 0 then e
        else match file_at inf next with
             | None => e
             | Some f => set_prios (raiseBoundary (prefetchSpans (fi_begin f) (fi_end f)) PNormal (e_bprio e, e_pieces e)) e
             end
  end.

(** warmMoov up to the goroutine: the tail read it starts, if any. *)
Definition warmMoov (idx : Z) (e : engine) : bool * engine :=
  match e_info e with
  | None => (false, e)
  | Some inf =>
      if idx <? 0 then (false, e)
      else if bool_decide (idx ∈ e_tailWarmed e) then (false, e)
      else
        let e := set_warm ({[idx]} ∪ e_tailWarmed e) e in
        match file_at inf idx with
        | None => (false, e)
        | Some f => (negb (fi_length f <? minWarmSize), e)
        end
  end.

Definition tailWarmWantedLocked (idx : Z) (e : engine) : bool := (0 <? reads e idx) || bool_decide (idx ∈ e_selected e).

Definition abandonTailWarm (idx : Z) (e : engine) : engine :=
  let e := set_warm (e_tailWarmed e ∖ {[idx]}) e in
  if tailWarmWantedLocked idx e then e
  else match e_info e with
       | None => e
       | Some inf => if (0 <=? idx) && (idx <? nfiles inf) then set_files (<[idx := PNone]> (e_files e)) e else e
       end.

(** NewReader; [None] is an error. *)
Definition NewReader (idx : Z) (e : engine) : option engine :=
  match e_info e with
  | None => None
  | Some inf =>
      if (idx <? 0) || (nfiles inf <=? idx) then None
      else
        let e := set_reading (<[idx := reads e idx + 1]> (e_reading e)) e in
        Some (prefetchNext idx (snd (warmMoov idx (primeBoundary idx (ensureDownloading idx e)))))
  end.

(** The critical sections of pinnedReader.Close. *)
Definition close1 (idx : Z) (e : engine) : bool * engine :=
  let e := if 0 <? reads e idx then set_reading (<[idx := reads e idx - 1]> (e_reading e)) e else e in
  if reads e idx =? 0 then (true, set_marks (e_selected e ∖ {[idx]}) (e_primed e ∖ {[idx]}) (e_prefetched e) e)
  else (false, e).

Definition close2 (idx : Z) (e : engine) : bool * engine :=
  if (reads e idx =? 0) && negb (bool_decide (idx ∈ e_selected e)) then
    let e := set_marks (e_selected e) (e_primed e) (e_prefetched e ∖ {[idx]}) e in
    (true, match e_info e with
           | Some inf => if (0 <=? idx) && (idx <? nfiles inf) then set_files (<[idx := PNone]> (e_files e)) e else e
           | None => e
           end)
  else (false, e).

Definition Close (idx : Z) (e : engine) : engine :=
  let '(demote, e) := close1 idx e in
  if demote then
    let '(still, e) := close2 idx e in
    if still then releaseBoundary [idx] e else e
  else e.

(** applyBoundaryPriorities, once the info is there. *)
Definition applyBoundaryPriorities (e : engine) : engine :=
  let idx := GuessFileIdx e in
  if idx <? 0 then e else primeBoundary idx e.

(** * Raising and releasing *)

Definition prioOf (m : gmap Z prio) (i : Z) : prio := from_option id PNone (m !! i).

(** The priorities recorded are those the pieces have. *)
Definition synced (bp : prios) : Prop := forall i, prioOf (snd bp) i = prioOf (fst bp) i.

Definition higher (p : prio) (o : option prio) : prio :=
  match o with Some cur => if rank p <=? rank cur then cur else p | None => p end.

Lemma higher_idem p o : higher p (Some (higher p o)) = higher p o.
Proof. destruct o as [[]|], p; done. Qed.

Lemma raise_one_spec p bp i : synced bp ->
  synced (raise_one p bp i) /\
  forall j, fst (raise_one p bp i) !! j = if decide (j = i) then Some (higher p (fst bp !! j)) else fst bp !! j.
Proof.
  intros Hs. unfold raise_one.
  assert (synced (<[i:=p]> (fst bp), <[i:=p]> (snd bp))) as Hs'.
  { intros j. unfold prioOf. cbn. destruct (decide (j = i)) as [->|Hne]; [by rewrite !lookup_insert_eq|].
    rewrite !lookup_insert_ne by done. apply Hs. }
  destruct (fst bp !! i) as [cur|] eqn:Hi; [destruct (rank p <=? rank cur) eqn:Hr|]; (split; [done|]); intros j; cbn;
    destruct (decide (j = i)) as [->|Hne]; rewrite ?lookup_insert_eq, ?lookup_insert_ne by done; try done;
    rewrite Hi; cbn; by rewrite ?Hr.
Qed.

Lemma raise_list_spec p l bp : synced bp ->
  synced (foldl (raise_one p) bp l) /\
  forall j, fst (foldl (raise_one p) bp l) !! j = if decide (j ∈ l) then Some (higher p (fst bp !! j)) else fst bp !! j.
Proof.
  revert bp. induction l as [|i l IH]; intros bp Hs; cbn [foldl].
  { split; [done|]. intros j. by rewrite decide_False by apply not_elem_of_nil. }
  destruct (raise_one_spec p bp i Hs) as [Hs1 H1]. destruct (IH _ Hs1) as [Hs2 H2]. split; [done|].
  intros j. rewrite H2, H1. destruct (decide (j = i)) as [->|Hne].
  - rewrite (decide_True (P := i ∈ i :: l)) by left. case_decide; [|done]. by rewrite higher_idem.
  - apply decide_ext. rewrite elem_of_cons. naive_solver.
Qed.

Lemma raiseBoundary_spec spans p bp : synced bp ->
  synced (raiseBoundary spans p bp) /\
  forall j, fst (raiseBoundary spans p bp) !! j =
    if decide (j ∈ piecesOf spans) then Some (higher p (fst bp !! j)) else fst bp !! j.
Proof. apply raise_list_spec. Qed.

Lemma releasePieces_spec l bp : synced bp ->
  synced (releasePieces l bp) /\
  forall j, fst (releasePieces l bp) !! j = if decide (j ∈ l) then None else fst bp !! j.
Proof.
  revert bp. induction l as [|i l IH]; intros bp Hs; cbn [releasePieces foldl].
  { split; [done|]. intros j. by rewrite decide_False by apply not_elem_of_nil. }
  assert (synced (release_one bp i) /\ forall j, fst (release_one bp i) !! j = if decide (j = i) then None else fst bp !! j)
    as [Hs1 H1].
  { unfold release_one. destruct (fst bp !! i) eqn:Hi; cbn.
    - split.
      + intros j. unfold prioOf. cbn. destruct (decide (j = i)) as [->|Hne]; [by rewrite lookup_insert_eq, lookup_delete_eq|].
        rewrite lookup_insert_ne, lookup_delete_ne by done. apply Hs.
      + intros j. case_decide as Hj; [subst; by rewrite lookup_delete_eq|by rewrite lookup_delete_ne].
    - split; [done|]. intros j. case_decide as Hj; [by subst|done]. }
  destruct (IH _ Hs1) as [Hs2 H2]. split; [done|]. intros j. unfold releasePieces in H2. rewrite H2, H1.
  destruct (decide (j = i)) as [->|Hne].
  - rewrite (decide_True (P := i ∈ i :: l)) by left. by case_decide.
  - apply decide_ext. rewrite elem_of_cons. naive_solver.
Qed.

Lemma collect_spec keep seen l :
  NoDup (collect keep seen l) /\ forall i, i ∈ collect keep seen l <-> i ∈ l /\ i ∉ keep /\ i ∉ seen.
Proof.
  revert seen. induction l as [|x l IH]; intros seen; cbn [collect].
  { split; [constructor|]. intros i. rewrite elem_of_nil. tauto. }
  destruct (bool_decide (x ∈ keep) || bool_decide (x ∈ seen)) eqn:Hb.
  - destruct (IH seen) as [Hn Hi]. split; [done|]. intros i. rewrite Hi, elem_of_cons.
    apply orb_true_iff in Hb as [Hb%bool_decide_eq_true|Hb%bool_decide_eq_true]; naive_solver.
  - apply orb_false_iff in Hb as [H1%bool_decide_eq_false H2%bool_decide_eq_false].
    destruct (IH ({[x]} ∪ seen)) as [Hn Hi]. split.
    + apply NoDup_cons. split; [|done]. rewrite Hi. set_solver.
    + intros i. rewrite !elem_of_cons, Hi, not_elem_of_union, not_elem_of_singleton.
      destruct (decide (i = x)) as [->|]; naive_solver.
Qed.

#[export] Instance Zle_trans : Transitive Z.le.
Proof. intros a b c. lia. Qed.

#[export] Instance Zle_total : Total Z.le.
Proof. intros a b. lia. Qed.

Lemma piecesToRelease_spec demoted protected :
  NoDup (piecesToRelease demoted protected) /\ StronglySorted Z.le (piecesToRelease demoted protected) /\
  forall i, i ∈ piecesToRelease demoted protected <-> i ∈ piecesOf demoted /\ i ∉ piecesOf protected.
Proof.
  unfold piecesToRelease.
  destruct (collect_spec (list_to_set (piecesOf protected)) ∅ (piecesOf demoted)) as [Hn Hi].
  split; [by rewrite merge_sort_Permutation|]. split; [apply StronglySorted_merge_sort; apply _|].
  intros i. rewrite merge_sort_Permutation, Hi, elem_of_list_to_set. set_solver.
Qed.

Lemma elem_of_piecesOf spans i : i ∈ piecesOf spans <-> exists b e, (b, e) ∈ spans /\ b <= i < e.
Proof.
  unfold piecesOf. rewrite list_elem_of_bind. split.
  - intros ([b e] & Hi%elem_of_seqZ & Hs). exists b, e. split; [done|lia].
  - intros (b & e & Hs & Hi). exists (b, e). split; [apply elem_of_seqZ; lia|done].
Qed.

Lemma piecesOf_bind inf l i : i ∈ piecesOf (l ≫= spansOf inf) <-> exists k, k ∈ l /\ i ∈ piecesOf (spansOf inf k).
Proof.
  rewrite elem_of_piecesOf. split.
  - intros (b & e & (k & Hs & Hk)%list_elem_of_bind & Hi). exists k. split; [done|]. apply elem_of_piecesOf. eauto.
  - intros (k & Hk & (b & e & Hs & Hi)%elem_of_piecesOf). exists b, e. split; [|done]. apply list_elem_of_bind. eauto.
Qed.

(** The spans of the kept files, and those of the demoted ones. *)
Definition protectedSpans (inf : info) (demoted : list Z) (e : engine) : list pieceSpan :=
  elements (keepFiles e ∖ list_to_set demoted) ≫= spansOf inf.

Lemma protectedSpans_spec inf demoted e p : p ∈ piecesOf (protectedSpans inf demoted e) <->
  exists k, k ∈ keepFiles e /\ k ∉ demoted /\ p ∈ piecesOf (spansOf inf k).
Proof.
  unfold protectedSpans. rewrite piecesOf_bind. setoid_rewrite elem_of_elements. setoid_rewrite elem_of_difference.
  setoid_rewrite elem_of_list_to_set. naive_solver.
Qed.

(** What a release leaves, and that it changes nothing else. *)
Lemma releaseBoundary_spec inf demoted e :
  e_info e = Some inf -> synced (e_bprio e, e_pieces e) ->
  exists bp, releaseBoundary demoted e = set_prios bp e /\ synced bp /\
  forall p, fst bp !! p =
    if decide (p ∈ piecesOf (demoted ≫= spansOf inf) /\ p ∉ piecesOf (protectedSpans inf demoted e))
    then None else e_bprio e !! p.
Proof.
  intros Hi Hs. unfold releaseBoundary. destruct demoted as [|d demoted].
  { exists (e_bprio e, e_pieces e). split; [by destruct e|]. split; [done|]. intros p.
    rewrite decide_False; [done|]. intros [H _]. by apply not_elem_of_nil in H. }
  rewrite Hi. eexists. split; [done|].
  destruct (releasePieces_spec (piecesToRelease ((d :: demoted) ≫= spansOf inf) (protectedSpans inf (d :: demoted) e))
    (e_bprio e, e_pieces e) Hs) as [H1 H2]. split; [exact H1|]. intros p. etrans; [exact (H2 p)|]. apply decide_ext.
  apply piecesToRelease_spec.
Qed.

(** * The state between operations *)

Inductive step : engine -> engine -> Prop :=
| st_info e inf : e_info e = None ->
    step e (MkEngine (Some inf) (e_selected e) (e_primed e) (e_prefetched e) (e_tailWarmed e) (e_reading e) (e_bprio e)
              (e_pieces e) (e_files e))
| st_guess e : step e (applyBoundaryPriorities e)
| st_read e idx e' : NewReader idx e = Some e' -> step e e'
| st_close e idx : 0 < reads e idx -> step e (Close idx e)
| st_abandon e idx : idx ∈ e_tailWarmed e -> step e (abandonTailWarm idx e).

(** [S] are the selected files whose head and tail are still to be primed, [D]
    the demoted files whose pieces are still to be released. *)
Record binv (S D : gset Z) (e : engine) : Prop := {
  b_sync : synced (e_bprio e, e_pieces e);
  b_read i : 0 <= reads e i;
  b_sel i : i ∈ e_selected e <-> 0 < reads e i;
  b_file i : prioOf (e_files e) i <> PNone <-> i ∈ e_selected e;
  b_pre i : i ∈ e_prefetched e -> i ∈ e_selected e;
  b_todo i : i ∈ e_selected e -> i ∈ S \/ i ∈ e_primed e;
  b_none : e_info e = None -> e_bprio e = ∅ /\ e_selected e = ∅ /\ e_primed e = ∅;
  b_range inf i : e_info e = Some inf -> i ∈ e_selected e -> 0 <= i < nfiles inf;
  b_cover inf p : e_info e = Some inf -> is_Some (e_bprio e !! p) ->
    exists i, (i ∈ e_selected e \/ i ∈ e_primed e \/ i ∈ D) /\ p ∈ piecesOf (spansOf inf i);
  b_now inf i f p : e_info e = Some inf -> i ∈ e_primed e -> file_at inf i = Some f ->
    p ∈ piecesOf (boundarySpans (fi_begin f) (fi_end f) (in_pieceLength inf)) -> e_bprio e !! p = Some PNow;
  b_next inf i f p : e_info e = Some inf -> i ∈ e_prefetched e -> 0 <= nextVideoIdx inf i ->
    file_at inf (nextVideoIdx inf i) = Some f -> p ∈ piecesOf (prefetchSpans (fi_begin f) (fi_end f)) ->
    is_Some (e_bprio e !! p);
}.

Lemma boundary_in_spans inf i f p : file_at inf i = Some f ->
  p ∈ piecesOf (boundarySpans (fi_begin f) (fi_end f) (in_pieceLength inf)) -> p ∈ piecesOf (spansOf inf i).
Proof.
  intros Hf (b & e & Hs & Hp)%elem_of_piecesOf. apply elem_of_piecesOf. exists b, e. split; [|done].
  unfold spansOf. rewrite Hf. apply elem_of_app. by left.
Qed.

Lemma prefetch_in_spans inf i f g p : file_at inf i = Some f -> 0 <= nextVideoIdx inf i ->
  file_at inf (nextVideoIdx inf i) = Some g ->
  p ∈ piecesOf (prefetchSpans (fi_begin g) (fi_end g)) -> p ∈ piecesOf (spansOf inf i).
Proof.
  intros Hf Hn Hg (b & e & Hs & Hp)%elem_of_piecesOf. apply elem_of_piecesOf. exists b, e. split; [|done].
  unfold spansOf. rewrite Hf. apply elem_of_app. right. cbn zeta. rewrite (proj2 (Z.leb_le _ _)) by done. by rewrite Hg.
Qed.

Lemma file_at_range inf i : is_Some (file_at inf i) <-> 0 <= i < nfiles inf.
Proof.
  unfold file_at, nfiles. destruct (Z.ltb_spec i 0) as [Hlt|Hge].
  - split; [by intros []|lia].
  - rewrite lookup_lt_is_Some. lia.
Qed.

Lemma keepFiles_elem e i : i ∈ keepFiles e <-> i ∈ e_selected e \/ i ∈ e_primed e \/ 0 < reads e i.
Proof.
  unfold keepFiles. rewrite !elem_of_union, elem_of_dom.
  assert (is_Some (filter (fun kv => 0 < kv.2) (e_reading e) !! i) <-> 0 < reads e i) as ->.
  { unfold reads. split.
    - intros [n Hn]. apply map_lookup_filter_Some in Hn as [-> Hn]. exact Hn.
    - intros H. destruct (e_reading e !! i) as [n|] eqn:Hn; [|cbn in H; lia]. exists n.
      by apply map_lookup_filter_Some. }
  tauto.
Qed.

Lemma keepFiles_spec S D e : binv S D e -> forall i, i ∈ keepFiles e <-> i ∈ e_selected e \/ i ∈ e_primed e.
Proof. intros B i. rewrite keepFiles_elem, <- (b_sel S D e B). tauto. Qed.

(** Raising pieces for one more file. *)
Lemma binv_raise S S' D sel pri pre spans p i inf e :
  binv S D e -> e_info e = Some inf -> e_selected e = sel -> (i ∈ sel \/ i ∈ pri) ->
  (forall q, q ∈ piecesOf spans -> q ∈ piecesOf (spansOf inf i)) ->
  e_primed e ⊆ pri -> pri ⊆ {[i]} ∪ e_primed e -> e_prefetched e ⊆ pre -> pre ⊆ {[i]} ∪ e_prefetched e ->
  (i ∈ pre -> i ∈ sel) -> (forall j, j ∈ sel -> j ∈ S' \/ j ∈ pri) ->
  (i ∈ pri -> i ∉ e_primed e -> p = PNow /\ forall f q, file_at inf i = Some f ->
     q ∈ piecesOf (boundarySpans (fi_begin f) (fi_end f) (in_pieceLength inf)) -> q ∈ piecesOf spans) ->
  (i ∈ pre -> i ∉ e_prefetched e -> forall f q, 0 <= nextVideoIdx inf i -> file_at inf (nextVideoIdx inf i) = Some f ->
     q ∈ piecesOf (prefetchSpans (fi_begin f) (fi_end f)) -> q ∈ piecesOf spans) ->
  binv S' D (set_prios (raiseBoundary spans p (e_bprio e, e_pieces e)) (set_marks sel pri pre e)).
Proof.
  intros B Hinf <- Hi Hsub Hp1 Hp2 Hq1 Hq2 Hpre Htodo Hnow Hnext.
  destruct (raiseBoundary_spec spans p (e_bprio e, e_pieces e) (b_sync _ _ _ B)) as [Hs Hl].
  constructor; cbn [e_bprio e_pieces e_info e_selected e_primed e_prefetched e_reading e_files set_prios set_marks].
  - by destruct (raiseBoundary _ _ _).
  - apply (b_read _ _ _ B).
  - apply (b_sel _ _ _ B).
  - apply (b_file _ _ _ B).
  - intros j Hj. destruct (decide (j = i)) as [->|]; [by apply Hpre|]. apply (b_pre _ _ _ B).
    by apply Hq2, elem_of_union in Hj as [?%elem_of_singleton|?].
  - done.
  - congruence.
  - intros inf' j E. apply (b_range _ _ _ B). done.
  - intros inf' q E. rewrite Hinf in E. injection E as <-. rewrite Hl. case_decide as Hq; [intros _; exists i; split; [|by apply Hsub]; tauto|].
    intros Hq'. destruct (b_cover _ _ _ B inf q Hinf Hq') as (j & Hj & Hjq). exists j. split; [|done].
    destruct Hj as [?|[?%Hp1|?]]; auto.
  - intros inf' j f q E Hj Hf Hq. rewrite Hinf in E. injection E as <-. rewrite Hl.
    destruct (decide (j ∈ e_primed e)) as [Hj'|Hj'].
    + assert (fst (e_bprio e, e_pieces e) !! q = Some PNow) as -> by (by eapply (b_now _ _ _ B)).
      case_decide; [|done]. by destruct p.
    + assert (j = i) as -> by (apply Hp2, elem_of_union in Hj as [?%elem_of_singleton|?]; done).
      destruct (Hnow Hj Hj') as [-> Hin].
      rewrite decide_True by (by eapply Hin). by destruct (fst (e_bprio e, e_pieces e) !! q) as [[]|].
  - intros inf' j f q E Hj Hn Hf Hq. rewrite Hinf in E. injection E as <-. rewrite Hl. case_decide as Hd; [by eexists|].
    destruct (decide (j ∈ e_prefetched e)) as [Hj'|Hj']; [by eapply (b_next _ _ _ B)|].
    assert (j = i) as -> by (apply Hq2, elem_of_union in Hj as [?%elem_of_singleton|?]; done). destruct Hd. by eapply Hnext.
Qed.

(** Releasing the demoted files. *)
Lemma binv_release S D demoted e :
  binv S D e -> (forall d, d ∈ demoted <-> d ∈ D) -> (forall d, d ∈ D -> d ∉ e_selected e /\ d ∉ e_primed e) ->
  binv S ∅ (releaseBoundary demoted e).
Proof.
  intros B Hd Hdis. destruct (e_info e) as [inf|] eqn:Hinf.
  2:{ assert (releaseBoundary demoted e = e) as -> by (unfold releaseBoundary; rewrite Hinf; by destruct demoted).
      destruct B. constructor; try done. intros inf p E. congruence. }
  destruct (releaseBoundary_spec inf demoted e Hinf (b_sync _ _ _ B)) as (bp & -> & Hs & Hl).
  assert (forall q i, (i ∈ e_selected e \/ i ∈ e_primed e) -> q ∈ piecesOf (spansOf inf i) -> fst bp !! q = e_bprio e !! q) as Hkeep.
  { intros q i Hi Hq. rewrite Hl, decide_False; [done|]. intros [_ Hn]. apply Hn, protectedSpans_spec. exists i.
    split_and!; [by apply (keepFiles_spec _ _ _ B)| |done]. intros Hid%Hd. destruct (Hdis i Hid). tauto. }
  constructor; cbn [e_bprio e_pieces e_info e_selected e_primed e_prefetched e_reading e_files set_prios].
  - by destruct bp.
  - apply (b_read _ _ _ B).
  - apply (b_sel _ _ _ B).
  - apply (b_file _ _ _ B).
  - apply (b_pre _ _ _ B).
  - apply (b_todo _ _ _ B).
  - congruence.
  - apply (b_range _ _ _ B).
  - intros inf' q E Hq. rewrite Hinf in E. injection E as <-. rewrite Hl in Hq. case_decide as Hc; [by destruct Hq|].
    destruct (b_cover _ _ _ B inf q Hinf Hq) as (i & Hi & Hiq).
    destruct Hi as [Hi|[Hi|Hi]]; [by exists i; auto|by exists i; auto|].
    destruct (decide (q ∈ piecesOf (protectedSpans inf demoted e))) as [Hpr|Hpr].
    + apply protectedSpans_spec in Hpr as (k & Hk & _ & Hkq). exists k. split; [|done].
      apply (keepFiles_spec _ _ _ B) in Hk. tauto.
    + destruct Hc. split; [|done]. apply piecesOf_bind. exists i. split; [by apply Hd|done].
  - intros inf' i f q E Hi Hf Hq. rewrite Hinf in E. injection E as <-.
    rewrite (Hkeep q i) by (try (by right); by eapply boundary_in_spans). by eapply (b_now _ _ _ B).
  - intros inf' i f q E Hi Hn Hf Hq. rewrite Hinf in E. injection E as <-. pose proof (b_pre _ _ _ B i Hi) as Hsel.
    destruct (proj2 (file_at_range inf i) (b_range _ _ _ B inf i Hinf Hsel)) as [g Hg].
    rewrite (Hkeep q i) by (try (by left); by eapply prefetch_in_spans). by eapply (b_next _ _ _ B).
Qed.

(** What ensureDownloading decides under the lock. *)
Lemma demoteLocked_spec idx e demote already e2 : demoteLocked idx e = (demote, already, e2) ->
  already = bool_decide (idx ∈ e_selected e) /\
  (forall i, i ∈ demote <-> i <> idx /\ reads e i = 0 /\ (i ∈ e_selected e \/ i ∈ e_primed e)) /\
  e2 = set_marks (e_selected e2) (e_primed e2) (e_prefetched e2) e /\
  (forall i, i ∈ e_selected e2 <-> i = idx \/ i ∈ e_selected e /\ i ∉ demote) /\
  (forall i, i ∈ e_primed e2 <-> i ∈ e_primed e /\ i ∉ demote /\ (already = true \/ i <> idx)) /\
  (forall i, i ∈ e_prefetched e2 <-> i ∈ e_prefetched e /\ i ∉ demote).
Proof.
  unfold demoteLocked. set (d1 := filter (fun i => i <> idx /\ reads e i = 0) (elements (e_selected e))).
  set (d2 := filter (fun i => i ∉ e_selected e ∖ list_to_set d1 /\ i <> idx /\ reads e i = 0)
               (elements (e_primed e ∖ list_to_set d1))).
  assert (forall i, i ∈ d1 <-> (i <> idx /\ reads e i = 0) /\ i ∈ e_selected e) as H1.
  { intros i. unfold d1. by rewrite list_elem_of_filter, elem_of_elements. }
  assert (forall i, i ∈ d2 <-> (i ∉ e_selected e ∖ list_to_set d1 /\ i <> idx /\ reads e i = 0) /\
    i ∈ e_primed e /\ i ∉ d1) as H2.
  { intros i. unfold d2. rewrite list_elem_of_filter, elem_of_elements.
    by rewrite (elem_of_difference (e_primed e)), elem_of_list_to_set. }
  intros [= <- <- <-].
  assert (forall i, i ∈ d1 ++ d2 <-> i <> idx /\ reads e i = 0 /\ (i ∈ e_selected e \/ i ∈ e_primed e)) as Hd.
  { intros i. rewrite elem_of_app, H2, elem_of_difference, elem_of_list_to_set. specialize (H1 i).
    destruct (decide (i ∈ e_selected e)); tauto. }
  split; [done|]. split; [done|].
  case_bool_decide as Hidx; cbn [e_selected e_primed e_prefetched set_marks]; (split; [done|]);
    split_and!; intros i; rewrite ?elem_of_union, ?elem_of_difference, ?elem_of_list_to_set, ?elem_of_singleton, ?elem_of_app.
  all: specialize (H1 i); specialize (H2 i); rewrite elem_of_difference, elem_of_list_to_set in H2.
  all: destruct (decide (i = idx)) as [Hi|Hi]; [subst i|]; try tauto.
  all: intuition congruence.
Qed.

(** * Every operation keeps the invariant *)

Lemma release_set_files f demoted e : set_files f (releaseBoundary demoted e) = releaseBoundary demoted (set_files f e).
Proof.
  unfold releaseBoundary. destruct demoted; [reflexivity|]. change (e_info (set_files f e)) with (e_info e).
  destruct (e_info e); reflexivity.
Qed.

Lemma release_keeps demoted e :
  e_files (releaseBoundary demoted e) = e_files e /\ e_info (releaseBoundary demoted e) = e_info e /\
  e_selected (releaseBoundary demoted e) = e_selected e.
Proof. unfold releaseBoundary. destruct demoted; [done|]. destruct (e_info e) eqn:H; [|done]. cbn. by rewrite H. Qed.

Lemma clearFiles_spec inf l m i :
  prioOf (clearFiles inf l m) i = if decide (i ∈ l /\ i < nfiles inf) then PNone else prioOf m i.
Proof.
  unfold clearFiles. revert m. induction l as [|x l IH]; intros m; cbn [foldl].
  { rewrite decide_False; [done|]. intros [?%not_elem_of_nil _]. done. }
  rewrite IH. destruct (decide (i ∈ l /\ i < nfiles inf)) as [[H1 H2]|Hn].
  { rewrite decide_True; [done|]. split; [by right|done]. }
  destruct (Z.ltb_spec x (nfiles inf)) as [Hx|Hx].
  - destruct (decide (i = x)) as [->|Hne].
    + unfold prioOf. rewrite lookup_insert_eq, decide_True; [done|]. split; [by left|done].
    + unfold prioOf. rewrite lookup_insert_ne by done. rewrite decide_False; [done|]. rewrite elem_of_cons. tauto.
  - rewrite decide_False; [done|]. rewrite elem_of_cons. intros [[->|H] H2]; [lia|tauto].
Qed.

Lemma prioOf_insert m i p j : prioOf (<[i := p]> m) j = if decide (j = i) then p else prioOf m j.
Proof. unfold prioOf. case_decide as H; [subst; by rewrite lookup_insert_eq|by rewrite lookup_insert_ne]. Qed.

Lemma reads_insert i n e j : reads (set_reading (<[i := n]> (e_reading e)) e) j = if decide (j = i) then n else reads e j.
Proof. unfold reads. cbn. case_decide as H; [subst; by rewrite lookup_insert_eq|by rewrite lookup_insert_ne]. Qed.

Lemma ensureDownloading_inv inf idx e :
  binv ∅ ∅ e -> e_info e = Some inf -> 0 <= idx < nfiles inf ->
  let e' := ensureDownloading idx (set_reading (<[idx := reads e idx + 1]> (e_reading e)) e) in
  binv {[idx]} ∅ e' /\ e_info e' = Some inf /\ idx ∈ e_selected e'.
Proof.
  intros B Hinf Hidx. set (e1 := set_reading _ e). cbv zeta. unfold ensureDownloading. cbn [e_info e1 set_reading]. rewrite Hinf.
  rewrite (proj2 (Z.ltb_ge _ _)), (proj2 (Z.leb_gt _ _)) by lia. cbn [orb].
  destruct (demoteLocked idx e1) as [[demote already] e2] eqn:Hdl.
  apply demoteLocked_spec in Hdl as (Hal & Hd & He2 & Hsel & Hpri & Hpre).
  change (e_selected e1) with (e_selected e) in *. change (e_primed e1) with (e_primed e) in *.
  change (e_prefetched e1) with (e_prefetched e) in *.
  assert (forall i, reads e1 i = if decide (i = idx) then reads e idx + 1 else reads e i) as Hr by apply reads_insert.
  assert (forall i, i ∈ demote -> i <> idx /\ i ∉ e_selected e) as Hdem.
  { intros i Hi. apply Hd in Hi as (Hne & Hz & _). split; [done|]. rewrite (b_sel _ _ _ B). rewrite Hr, decide_False in Hz by done. lia. }
  set (cl := clearFiles inf demote (e_files e2)).
  set (fin := if already then cl else <[idx := PNormal]> cl).
  assert ((if already then releaseBoundary demote (set_files cl e2)
    else set_files (<[idx:=PNormal]> (e_files (releaseBoundary demote (set_files cl e2)))) (releaseBoundary demote (set_files cl e2)))
    = releaseBoundary demote (set_files fin e2)) as ->.
  { unfold fin. destruct already; [done|]. by rewrite release_set_files, (proj1 (release_keeps _ _)). }
  assert (binv {[idx]} (list_to_set demote) (set_files fin e2)) as B2.
  { rewrite He2. constructor; cbn [e_bprio e_pieces e_info e_selected e_primed e_prefetched e_files set_files set_marks].
    - apply (b_sync _ _ _ B).
    - intros i. change (0 <= reads e1 i). rewrite Hr. destruct (decide (i = idx)); [|apply (b_read _ _ _ B)].
      apply Z.add_nonneg_nonneg; [apply (b_read _ _ _ B)|done].
    - intros i. change (i ∈ e_selected e2 <-> 0 < reads e1 i). rewrite Hsel, Hr, (b_sel _ _ _ B).
      pose proof (b_read _ _ _ B idx) as Hpos. destruct (decide (i = idx)) as [Hi|Hi]; [split; [intros _; clear -Hpos; lia|by left]|]. split; [by intros [?|[? _]]|]. intros H. right. split; [done|].
      intros Hi2%Hdem. destruct Hi2 as [_ Hi2]. by apply Hi2, (b_sel _ _ _ B).
    - intros i. rewrite Hsel.
      assert (prioOf cl i = if decide (i ∈ demote /\ i < nfiles inf) then PNone else prioOf (e_files e) i) as Hcl.
      { unfold cl. rewrite clearFiles_spec. by rewrite He2. }
      assert (prioOf cl i <> PNone <-> i ∈ e_selected e) as Hcl2.
      { rewrite Hcl. destruct (decide (i ∈ demote /\ i < nfiles inf)) as [Hc|Hc]; [|apply (b_file _ _ _ B)]. split; [done|]. intros H. by destruct Hc as [[_ ?]%Hdem _]. }
      assert (i ∈ e_selected e -> i ∉ demote) as Hnd by (intros H Hi%Hdem; tauto).
      unfold fin. destruct already; [|rewrite prioOf_insert; destruct (decide (i = idx)) as [Hi|Hi]].
      + rewrite Hcl2. symmetry in Hal. apply bool_decide_eq_true in Hal. split; [tauto|]. intros [->|[? _]]; done.
      + split; [by left|done].
      + rewrite Hcl2. tauto.
    - intros i [Hi _]%Hpre. apply Hsel. apply (b_pre _ _ _ B) in Hi. right. split; [done|]. intros H%Hdem. tauto.
    - intros i [->|[Hi Hni]]%Hsel; [left; by apply elem_of_singleton|]. destruct (decide (i = idx)) as [->|Hne];
        [left; by apply elem_of_singleton|]. right. apply Hpri. destruct (b_todo _ _ _ B i Hi) as [?%not_elem_of_empty|?]; [done|auto].
    - cbn. congruence.
    - intros inf' i E [->|[Hi _]]%Hsel; cbn in E; [congruence|]. by apply (b_range _ _ _ B).
    - intros inf' p E Hp. destruct (b_cover _ _ _ B inf' p E Hp) as (i & Hi & Hip). exists i. split; [|done].
      destruct (decide (i ∈ demote)) as [H|H]; [right; right; by apply elem_of_list_to_set|].
      destruct Hi as [Hi|[Hi|?%not_elem_of_empty]]; [left; apply Hsel; auto| |done].
      destruct (decide (i = idx)) as [->|Hne]; [left; apply Hsel; auto|right; left; apply Hpri; auto].
    - intros inf' i f p E [Hi _]%Hpri. by apply (b_now _ _ _ B).
    - intros inf' i f p E [Hi _]%Hpre. by apply (b_next _ _ _ B). }
  destruct (release_keeps demote (set_files fin e2)) as (_ & Hi & Hs). rewrite Hi, Hs. split; [|split].
  - eapply binv_release; [exact B2|intros d; by rewrite elem_of_list_to_set|]. cbn. intros d Hd2%elem_of_list_to_set.
    rewrite Hsel, Hpri. pose proof (Hdem d Hd2). tauto.
  - rewrite He2. exact Hinf.
  - cbn. apply Hsel. by left.
Qed.

Lemma primeBoundary_inv S D idx inf e :
  binv S D e -> e_info e = Some inf -> 0 <= idx ->
  let e' := primeBoundary idx e in
  binv (S ∖ {[idx]}) D e' /\ e_info e' = Some inf /\ e_selected e' = e_selected e.
Proof.
  intros B Hinf Hidx. cbv zeta. unfold primeBoundary. rewrite Hinf, (proj2 (Z.ltb_ge _ _)) by done.
  case_bool_decide as Hp.
  { split; [|done]. destruct B. constructor; try done. intros i Hi. destruct (decide (i = idx)) as [->|]; [by right|].
    destruct (b_todo0 i Hi); [left|by right]. by apply elem_of_difference; rewrite elem_of_singleton. }
  assert (forall j, j ∈ e_selected e -> j ∈ S ∖ {[idx]} \/ j ∈ {[idx]} ∪ e_primed e) as Htodo.
  { intros j Hj. rewrite elem_of_difference, elem_of_union, elem_of_singleton. destruct (decide (j = idx)); [auto|].
    destruct (b_todo _ _ _ B j Hj); auto. }
  assert (forall spans,
    (forall q, q ∈ piecesOf spans -> q ∈ piecesOf (spansOf inf idx)) ->
    (forall f q, file_at inf idx = Some f ->
       q ∈ piecesOf (boundarySpans (fi_begin f) (fi_end f) (in_pieceLength inf)) -> q ∈ piecesOf spans) ->
    binv (S ∖ {[idx]}) D (set_prios (raiseBoundary spans PNow (e_bprio e, e_pieces e))
      (set_marks (e_selected e) ({[idx]} ∪ e_primed e) (e_prefetched e) e))) as Hraise.
  { intros spans H1 H2. eapply (binv_raise S _ D _ _ _ spans PNow idx inf e B Hinf eq_refl); try done.
    - right. apply elem_of_union. left. by apply elem_of_singleton.
    - apply union_subseteq_r.
    - apply union_subseteq_r.
    - apply (b_pre _ _ _ B). }
  destruct (file_at inf idx) as [f|] eqn:Hf.
  - split; [|done]. apply Hraise; [intros q; by apply boundary_in_spans|by intros f' q [= <-]].
  - split; [|done]. apply (Hraise []); [intros q H; by apply not_elem_of_nil in H|done].
Qed.

Lemma prefetchNext_inv S D idx inf e :
  binv S D e -> e_info e = Some inf -> idx ∈ e_selected e -> binv S D (prefetchNext idx e).
Proof.
  intros B Hinf Hsel. unfold prefetchNext. pose proof (b_range _ _ _ B inf idx Hinf Hsel) as Hr.
  rewrite Hinf, (proj2 (Z.ltb_ge _ _)) by lia. case_bool_decide as Hp; [done|].
  destruct (proj2 (file_at_range inf idx) Hr) as [g Hg].
  assert (forall spans,
    (forall q, q ∈ piecesOf spans -> q ∈ piecesOf (spansOf inf idx)) ->
    (forall f q, 0 <= nextVideoIdx inf idx -> file_at inf (nextVideoIdx inf idx) = Some f ->
       q ∈ piecesOf (prefetchSpans (fi_begin f) (fi_end f)) -> q ∈ piecesOf spans) ->
    binv S D (set_prios (raiseBoundary spans PNormal (e_bprio e, e_pieces e))
      (set_marks (e_selected e) (e_primed e) ({[idx]} ∪ e_prefetched e) e))) as Hraise.
  { intros spans H1 H2. eapply (binv_raise S _ D _ _ _ spans PNormal idx inf e B Hinf eq_refl); try done.
    - by left.
    - apply union_subseteq_r.
    - apply union_subseteq_r.
    - apply (b_todo _ _ _ B). }
  cbv zeta. destruct (Z.ltb_spec (nextVideoIdx inf idx) 0) as [Hn|Hn].
  { apply (Hraise []); [intros q H; by apply not_elem_of_nil in H|lia]. }
  destruct (file_at inf (nextVideoIdx inf idx)) as [f|] eqn:Hf.
  - apply Hraise; [intros q; by apply (prefetch_in_spans inf idx g f)|by intros f' q _ [= <-]].
  - apply (Hraise []); [intros q H; by apply not_elem_of_nil in H|done].
Qed.

(** The marks of warmMoov concern nothing else. *)
Lemma binv_warm S D w e : binv S D e -> binv S D (set_warm w e).
Proof. intros B. by destruct B; constructor. Qed.

Lemma warmMoov_set idx e : exists w, snd (warmMoov idx e) = set_warm w e.
Proof.
  unfold warmMoov. assert (e = set_warm (e_tailWarmed e) e) as He by (by destruct e).
  destruct (e_info e) as [inf|]; [|by eexists]. destruct (idx <? 0); [by eexists|].
  case_bool_decide; [by eexists|]. destruct (file_at inf idx); by eexists.
Qed.

Lemma NewReader_inv idx e e' : NewReader idx e = Some e' -> binv ∅ ∅ e -> binv ∅ ∅ e'.
Proof.
  unfold NewReader. destruct (e_info e) as [inf|] eqn:Hinf; [|done].
  destruct ((idx <? 0) || (nfiles inf <=? idx)) eqn:Hr; [done|]. intros [= <-] B. bool_to_prop.
  destruct (ensureDownloading_inv inf idx e B Hinf ltac:(lia)) as (B1 & I1 & S1). cbv zeta in *.
  set (e1 := ensureDownloading _ _) in *.
  destruct (primeBoundary_inv {[idx]} ∅ idx inf e1 B1 I1 ltac:(lia)) as (B2 & I2 & S2). cbv zeta in *.
  set (e2 := primeBoundary idx e1) in *. destruct (warmMoov_set idx e2) as [w ->].
  assert ({[idx]} ∖ {[idx]} =@{gset Z} ∅) as Hz by (apply set_eq; intros x; rewrite elem_of_difference, elem_of_empty; tauto).
  rewrite Hz in B2. apply (prefetchNext_inv _ _ _ inf); [by apply binv_warm|done|]. cbn. by rewrite S2.
Qed.

Lemma abandon_inv idx e : binv ∅ ∅ e -> binv ∅ ∅ (abandonTailWarm idx e).
Proof.
  intros B. unfold abandonTailWarm, tailWarmWantedLocked. apply (binv_warm _ _ (e_tailWarmed e ∖ {[idx]})) in B.
  set (e1 := set_warm _ e) in *. cbv zeta. destruct (_ || _) eqn:Hw; [done|].
  apply orb_false_iff in Hw as [_ Hw%bool_decide_eq_false].
  destruct (e_info e1) as [inf|]; [|done]. destruct (_ && _); [|done]. destruct B; constructor; try done.
  intros i. cbn. rewrite prioOf_insert. destruct (decide (i = idx)) as [->|]; [|apply b_file0]. by split.
Qed.

Lemma guess_inv e : binv ∅ ∅ e -> binv ∅ ∅ (applyBoundaryPriorities e).
Proof.
  intros B. unfold applyBoundaryPriorities. cbv zeta. destruct (Z.ltb_spec (GuessFileIdx e) 0) as [|Hg]; [done|].
  destruct (e_info e) as [inf|] eqn:Hinf; [|by unfold primeBoundary; rewrite Hinf].
  destruct (primeBoundary_inv ∅ ∅ _ inf e B Hinf Hg) as (B1 & _ & _).
  assert (∅ ∖ {[GuessFileIdx e]} =@{gset Z} ∅) as Hz by (apply set_eq; intros x; rewrite elem_of_difference, elem_of_empty; tauto).
  by rewrite Hz in B1.
Qed.

(** The marks after the last reader of a file has left. *)
Lemma last_close_inv inf idx e :
  binv ∅ ∅ e -> e_info e = Some inf -> reads e idx = 1 ->
  binv ∅ {[idx]} (set_files (<[idx := PNone]> (e_files e))
    (set_marks (e_selected e ∖ {[idx]}) (e_primed e ∖ {[idx]}) (e_prefetched e ∖ {[idx]})
      (set_reading (<[idx := 0]> (e_reading e)) e))).
Proof.
  intros B Hinf Hone.
  assert (forall i, reads (set_reading (<[idx := 0]> (e_reading e)) e) i = if decide (i = idx) then 0 else reads e i) as Hr
    by apply reads_insert.
  constructor; cbn [e_bprio e_pieces e_info e_selected e_primed e_prefetched e_files set_files set_marks set_reading].
  - apply (b_sync _ _ _ B).
  - intros i. change (0 <= reads (set_reading (<[idx := 0]> (e_reading e)) e) i). rewrite Hr.
    destruct (decide (i = idx)); [done|apply (b_read _ _ _ B)].
  - intros i. change (i ∈ e_selected e ∖ {[idx]} <-> 0 < reads (set_reading (<[idx := 0]> (e_reading e)) e) i). rewrite Hr.
    rewrite elem_of_difference, elem_of_singleton, (b_sel _ _ _ B). destruct (decide (i = idx)); [|tauto].
    split; [tauto|done].
  - intros i. rewrite prioOf_insert, elem_of_difference, elem_of_singleton. destruct (decide (i = idx)); [|rewrite (b_file _ _ _ B); tauto].
    split; [done|tauto].
  - intros i. rewrite !elem_of_difference. intros [Hi Hne]. split; [by apply (b_pre _ _ _ B)|done].
  - intros i. rewrite !elem_of_difference. intros [Hi Hne]. destruct (b_todo _ _ _ B i Hi); auto.
  - congruence.
  - intros inf' i E [Hi _]%elem_of_difference. by apply (b_range _ _ _ B).
  - intros inf' p E Hp. destruct (b_cover _ _ _ B inf' p E Hp) as (i & Hi & Hip). exists i. split; [|done].
    rewrite !elem_of_difference, elem_of_singleton. destruct (decide (i = idx)); [auto|].
    destruct Hi as [?|[?|?%not_elem_of_empty]]; [auto|auto|done].
  - intros inf' i f p E [Hi _]%elem_of_difference. by apply (b_now _ _ _ B).
  - intros inf' i f p E [Hi _]%elem_of_difference. by apply (b_next _ _ _ B).
Qed.

Lemma inner_close_inv idx e :
  binv ∅ ∅ e -> 1 < reads e idx -> binv ∅ ∅ (set_reading (<[idx := reads e idx - 1]> (e_reading e)) e).
Proof.
  intros B Hr. set (e1 := set_reading _ e).
  assert (forall i, reads e1 i = if decide (i = idx) then reads e idx - 1 else reads e i) as Hr1 by apply reads_insert.
  destruct B; constructor; try done; intros i; rewrite Hr1.
  - destruct (decide (i = idx)); [clear -Hr; lia|apply b_read0].
  - cbn. rewrite b_sel0. destruct (decide (i = idx)) as [->|]; [clear -Hr; lia|done].
Qed.

Lemma close_inv idx e : 0 < reads e idx -> binv ∅ ∅ e -> binv ∅ ∅ (Close idx e).
Proof.
  intros Hr B. pose proof (proj2 (b_sel _ _ _ B idx) Hr) as Hsel.
  destruct (e_info e) as [inf|] eqn:Hinf.
  2:{ destruct (b_none _ _ _ B Hinf) as (_ & Hz & _). rewrite Hz in Hsel. by apply not_elem_of_empty in Hsel. }
  pose proof (b_range _ _ _ B inf idx Hinf Hsel) as Hrange.
  unfold Close, close1. rewrite (proj2 (Z.ltb_lt _ _)) by done. rewrite reads_insert, decide_True by done.
  destruct (Z.eqb_spec (reads e idx - 1) 0) as [Hz|Hz]; [|apply inner_close_inv; [done|lia]].
  rewrite Hz. unfold close2.
  match goal with |- context [reads ?x idx =? 0] => assert (reads x idx = 0) as -> end.
  { unfold reads. cbn. by rewrite lookup_insert_eq. }
  rewrite bool_decide_false by (cbn; rewrite elem_of_difference, elem_of_singleton; tauto).
  cbn [Z.eqb negb andb e_info set_marks set_reading]. rewrite Hinf.
  rewrite (proj2 (Z.leb_le _ _)), (proj2 (Z.ltb_lt _ _)) by lia. cbn [andb].
  apply (binv_release _ {[idx]}); [exact (last_close_inv inf idx e B Hinf ltac:(lia))| |].
  - intros d. by rewrite list_elem_of_singleton, elem_of_singleton.
  - intros d ->%elem_of_singleton. cbn. rewrite !elem_of_difference, elem_of_singleton. tauto.
Qed.

Lemma boundary_step_inv e e' : binv ∅ ∅ e -> step e e' -> binv ∅ ∅ e'.
Proof.
  intros B S. destruct S as [e inf Hnone|e|e idx e' H|e idx H|e idx H].
  - destruct (b_none _ _ _ B Hnone) as (Hb & Hs & Hp). destruct B. constructor; cbn in *; try done.
    + intros inf' i _. rewrite Hs. by intros ?%not_elem_of_empty.
    + intros inf' p _. rewrite Hb, lookup_empty. by intros [].
    + intros inf' i f p _. rewrite Hp. by intros ?%not_elem_of_empty.
    + intros inf' i f p _ Hi%b_pre0. rewrite Hs in Hi. by apply not_elem_of_empty in Hi.
  - by apply guess_inv.
  - by eapply NewReader_inv.
  - by apply close_inv.
  - by apply abandon_inv.
Qed.

Lemma newEngine_inv : binv ∅ ∅ newEngine.
Proof.
  constructor; cbn; try done; intros i; unfold reads, prioOf; cbn; rewrite ?lookup_empty, ?elem_of_empty; done.
Qed.

(** Between operations, the file of every open reader is downloading and its
    header and trailer are at top priority; the only files downloading are those
    being read; and a piece has a priority of its own only for the sake of a file
    that is being read or primed, so that with none of those all are released. *)
Lemma boundary_pieces e inf :
  rtc step newEngine e -> e_info e = Some inf ->
  (forall i, 0 < reads e i -> exists f, file_at inf i = Some f /\ prioOf (e_files e) i <> PNone /\
     forall p, p ∈ piecesOf (boundarySpans (fi_begin f) (fi_end f) (in_pieceLength inf)) -> prioOf (e_pieces e) p = PNow) /\
  (forall i, prioOf (e_files e) i <> PNone -> 0 < reads e i) /\
  (forall p, prioOf (e_pieces e) p <> PNone ->
     exists i, (0 < reads e i \/ i ∈ e_primed e) /\ p ∈ piecesOf (spansOf inf i)).
Proof.
  intros R Hinf. assert (binv ∅ ∅ e) as B by (eapply (rtc_invariant step (binv ∅ ∅)); [exact boundary_step_inv|exact R|apply newEngine_inv]).
  split; [|split].
  - intros i Hi. apply (b_sel _ _ _ B) in Hi. pose proof (b_range _ _ _ B inf i Hinf Hi) as Hr.
    apply file_at_range in Hr as [f Hf]. exists f. split; [done|]. split; [by apply (b_file _ _ _ B)|]. intros p Hp.
    destruct (b_todo _ _ _ B i Hi) as [?%not_elem_of_empty|Hpr]; [done|].
    change (prioOf (snd (e_bprio e, e_pieces e)) p = PNow). rewrite (b_sync _ _ _ B p). unfold prioOf. cbn.
    by rewrite (b_now _ _ _ B inf i f p Hinf Hpr Hf Hp).
  - intros i Hi. by apply (b_sel _ _ _ B), (b_file _ _ _ B).
  - intros p Hp. change (prioOf (snd (e_bprio e, e_pieces e)) p <> PNone) in Hp. rewrite (b_sync _ _ _ B p) in Hp.
    unfold prioOf in Hp. cbn in Hp. destruct (e_bprio e !! p) as [q|] eqn:Hq; [|done].
    destruct (b_cover _ _ _ B inf p Hinf ltac:(by eexists)) as (i & Hi & Hip). exists i. split; [|done].
    destruct Hi as [?%(b_sel _ _ _ B)|[?|?%not_elem_of_empty]]; [by left|by right|done].
Qed.

Lemma piecesForBytes_spec n pieceLen : 0 < n -> 0 < pieceLen ->
  1 <= piecesForBytes n pieceLen /\ n <= piecesForBytes n pieceLen * pieceLen < n + pieceLen.
Proof.
  intros Hn Hp. unfold piecesForBytes. rewrite !(proj2 (Z.leb_gt _ _)) by done. cbn [orb].
  assert (1 <= (n + pieceLen - 1) / pieceLen) as H1 by (apply Z.div_le_lower_bound; lia).
  rewrite (proj2 (Z.ltb_ge _ _)) by done.
  pose proof (Z.div_mod (n + pieceLen - 1) pieceLen ltac:(lia)). pose proof (Z.mod_pos_bound (n + pieceLen - 1) pieceLen Hp). nia.
Qed.

Lemma primeBoundaryRange_spec begin_ end_ pieceLen headBytes tailBytes :
  begin_ <= end_ -> 0 < pieceLen -> 0 < headBytes -> 0 < tailBytes ->
  let '(headEnd, tailBegin) := primeBoundaryRange begin_ end_ pieceLen headBytes tailBytes in
  begin_ <= headEnd <= end_ /\ begin_ <= tailBegin <= end_ /\
  (headEnd = end_ \/ headBytes <= (headEnd - begin_) * pieceLen < headBytes + pieceLen) /\
  (tailBegin = begin_ \/ tailBytes <= (end_ - tailBegin) * pieceLen < tailBytes + pieceLen).
Proof.
  intros Hbe Hpl Hh Ht. unfold primeBoundaryRange. destruct (Z.leb_spec end_ begin_); [lia|].
  pose proof (piecesForBytes_spec headBytes pieceLen Hh Hpl). pose proof (piecesForBytes_spec tailBytes pieceLen Ht Hpl).
  cbv zeta. destruct (Z.ltb_spec end_ (begin_ + piecesForBytes headBytes pieceLen));
    destruct (Z.ltb_spec (end_ - piecesForBytes tailBytes pieceLen) begin_); split_and!; try lia; right; lia.
Qed.

(** Priming covers the first and last window of a file within its pieces;
    raising never lowers a piece and touches no other; releasing demoted files
    resets exactly the pieces raised for them that no kept file shares, each
    once and in ascending order. *)
Lemma release_exact begin_ end_ pieceLen headBytes tailBytes spans p inf demoted e :
  begin_ <= end_ -> 0 < pieceLen -> 0 < headBytes -> 0 < tailBytes ->
  e_info e = Some inf -> synced (e_bprio e, e_pieces e) ->
  (let '(headEnd, tailBegin) := primeBoundaryRange begin_ end_ pieceLen headBytes tailBytes in
   begin_ <= headEnd <= end_ /\ begin_ <= tailBegin <= end_ /\
   (headEnd = end_ \/ headBytes <= (headEnd - begin_) * pieceLen < headBytes + pieceLen) /\
   (tailBegin = begin_ \/ tailBytes <= (end_ - tailBegin) * pieceLen < tailBytes + pieceLen)) /\
  (forall i, let old := prioOf (e_pieces e) i in
     prioOf (snd (raiseBoundary spans p (e_bprio e, e_pieces e))) i =
     if decide (i ∈ piecesOf spans) then (if rank p <=? rank old then old else p) else old) /\
  (forall i, prioOf (e_pieces (releaseBoundary demoted e)) i <> prioOf (e_pieces e) i ->
     prioOf (e_pieces (releaseBoundary demoted e)) i = PNone /\
     (exists d, d ∈ demoted /\ i ∈ piecesOf (spansOf inf d)) /\
     forall k, k ∈ e_selected e \/ k ∈ e_primed e \/ 0 < reads e k -> k ∉ demoted -> i ∉ piecesOf (spansOf inf k)) /\
  (forall i d, d ∈ demoted -> i ∈ piecesOf (spansOf inf d) ->
     (forall k, k ∈ keepFiles e -> k ∉ demoted -> i ∉ piecesOf (spansOf inf k)) ->
     prioOf (e_pieces (releaseBoundary demoted e)) i = PNone) /\
  NoDup (piecesToRelease (demoted ≫= spansOf inf) (protectedSpans inf demoted e)) /\
  StronglySorted Z.le (piecesToRelease (demoted ≫= spansOf inf) (protectedSpans inf demoted e)).
Proof.
  intros Hbe Hpl Hh Ht Hinf Hs.
  destruct (releaseBoundary_spec inf demoted e Hinf Hs) as (bp & Hrel & Hsb & Hl).
  assert (forall i, prioOf (e_pieces (releaseBoundary demoted e)) i = prioOf (fst bp) i) as Hpieces.
  { intros i. rewrite Hrel. apply Hsb. }
  assert (forall i, prioOf (e_pieces e) i = prioOf (e_bprio e) i) as Hold by exact Hs.
  split; [by apply primeBoundaryRange_spec|]. split; [|split; [|split; [|by destruct (piecesToRelease_spec (demoted ≫= spansOf inf)
    (protectedSpans inf demoted e)) as (? & ? & _)]]].
  - intros i old. destruct (raiseBoundary_spec spans p _ Hs) as [Hs' Hl']. rewrite Hs'. unfold old, prioOf at 1.
    rewrite Hl', Hold. destruct (decide (i ∈ piecesOf spans)); [|done]. unfold prioOf. cbn.
    destruct (e_bprio e !! i); [done|]. by destruct p.
  - intros i Hne. rewrite Hpieces, Hold in Hne. rewrite Hpieces. unfold prioOf in *. rewrite Hl in *.
    destruct (decide _) as [[Hd Hp]|]; [|done]. split; [done|]. split; [by apply piecesOf_bind|].
    intros k Hk Hkd Hik. apply Hp, protectedSpans_spec. exists k. split; [|done]. by apply keepFiles_elem.
  - intros i d Hd Hi Hfree. rewrite Hpieces. unfold prioOf. rewrite Hl, decide_True; [done|]. split.
    + apply piecesOf_bind. by exists d.
    + intros (k & Hk & Hkd & Hik)%protectedSpans_spec. by apply (Hfree k).
Qed.


(** * A reader that reopens the file before the release *)

(** Close re-checks under the lock and releases after it: a reader that opens the
    file in between is left without the pieces it has just raised, and its mark
    keeps them from being raised again. *)
Definition wit_info : info :=
  MkInfo (Z.shiftl 16 20) [MkFile 0 10 true (Z.shiftl 150 20); MkFile 9 20 true (Z.shiftl 160 20)].

Definition wit_e0 : engine := MkEngine (Some wit_info) ∅ ∅ ∅ ∅ ∅ ∅ ∅ ∅.

Definition reopen_race : option engine :=
  match NewReader 0 wit_e0 with
  | None => None
  | Some e => releaseBoundary [0] <$> NewReader 0 (snd (close2 0 (snd (close1 0 e))))
  end.

Lemma released_after_reopen : exists e, reopen_race = Some e /\
  reads e 0 = 1 /\ 0 ∈ e_primed e /\ prioOf (e_files e) 0 = PNormal /\ prioOf (e_pieces e) 0 = PNone.
Proof.
  destruct reopen_race as [e|] eqn:E; [|by vm_compute in E]. exists e. split; [done|].
  assert (Some e = reopen_race) as E' by done. clear E. vm_compute in E'. injection E' as ->.
  split; [done|]. split; [by apply (bool_decide_unpack _)|]. done.
Qed.

(** * Witnesses: two files that share a piece, the second one opened *)

Definition wit_e1 : engine := from_option id wit_e0 (NewReader 0 wit_e0).
Definition wit_e2 : engine := from_option id wit_e0 (NewReader 1 wit_e1).

Lemma wit_reach : rtc step newEngine wit_e2.
Proof.
  eapply rtc_l; [exact (st_info newEngine wit_info eq_refl)|].
  eapply rtc_l; [exact (st_read wit_e0 0 wit_e1 ltac:(vm_compute; reflexivity))|].
  eapply rtc_l; [exact (st_read wit_e1 1 wit_e2 ltac:(vm_compute; reflexivity))|]. reflexivity.
Qed.

Lemma wit_synced : synced (e_bprio wit_e2, e_pieces wit_e2).
Proof.
  exact (b_sync _ _ _ (rtc_invariant step (binv ∅ ∅) boundary_step_inv newEngine wit_e2 wit_reach newEngine_inv)).
Qed.

