(* ===== verification/Nntp.v ===== *)
(** The NNTP client (internal/nzb/nntp.go) over net/textproto: responses, the
    dot-stuffed article body, and the command boundary the connection is left at.

    The server is the environment: from a command it computes the bytes it sends,
    or the sending fails. What it has sent and nobody has read yet is [c_in];
    where that ends, reads fail with the error of a broken connection. *)

From S2P Require Import Prelude GoStrings Yenc.

(** * Errors *)

(** What a writer or the connection can fail with under the decoder. *)
Inductive ioErr (E : Type) := WOverflow | WDst (e : E) | WConn.
Arguments WOverflow {E}.
Arguments WDst {E} e.
Arguments WConn {E}.

(** The errors of the client: a broken connection, a response with another code
    than expected, one that cannot be parsed, an unsafe argument, a decode that
    failed, the caller's writer, a failed dial, an unknown file. *)
Inductive nerr (E : Type) :=
| NConn | NResp (code : Z) | NProto | NCode (code : Z) | NInvalid | NYenc (e : yencErr) | NOverflow | NDst (e : E) | NDial
| NNotFound.
Arguments NConn {E}.
Arguments NResp {E} code.
Arguments NProto {E}.
Arguments NCode {E} code.
Arguments NInvalid {E}.
Arguments NYenc {E} e.
Arguments NOverflow {E}.
Arguments NDst {E} e.
Arguments NDial {E}.
Arguments NNotFound {E}.

Definition decErr_nerr {E} (e : decErr (ioErr E)) : nerr E :=
  match e with
  | DYenc e => NYenc e
  | DDst WOverflow | DRead WOverflow => NOverflow
  | DDst (WDst e) | DRead (WDst e) => NDst e
  | DDst WConn | DRead WConn => NConn
  end.

(** * net/textproto *)

(** ReadLine: up to a newline, or what is left when the stream ends. *)
Fixpoint line_loop (cur s : bytes) : option (bytes * bytes) :=
  match s with
  | [] => match cur with [] => None | _ => Some (rev cur, []) end
  | 10 :: s => Some (dropCR (rev cur), s)
  | c :: s => line_loop (c :: cur) s
  end.

Definition readLine (s : bytes) : option (bytes * bytes) := line_loop [] s.

Inductive lineErr := LProto | LCode (code : Z).

(** parseCodeLine: the code, whether the response continues, the error. *)
Definition parseCodeLine (line : bytes) (expect : Z) : Z * bool * option lineErr :=
  match line with
  | a :: b :: c :: d :: _ =>
      if negb (d =? 32) && negb (d =? 45) then (0, false, Some LProto)
      else
        let continued := d =? 45 in
        match Atoi [a; b; c] with
        | Err _ => (0, continued, Some LProto)
        | Ok code =>
            if code <? 100 then (code, continued, Some LProto)
            else if (1 <=? expect) && (expect <? 10) && negb (code / 100 =? expect) ||
                    (10 <=? expect) && (expect <? 100) && negb (code / 10 =? expect) ||
                    (100 <=? expect) && (expect <? 1000) && negb (code =? expect)
            then (code, continued, Some (LCode code))
            else (code, continued, None)
        end
  | _ => (0, false, Some LProto)
  end.

(** The continuation lines of ReadResponse; a line is at least one byte of [s],
    so its length bounds the turns. *)
Fixpoint more_loop (fuel : nat) (code : Z) (s : bytes) : option bytes :=
  match fuel with
  | O => None
  | S fuel =>
      match readLine s with
      | None => None
      | Some (line, s) =>
          let '(code2, continued, err) := parseCodeLine line 0 in
          let again := match err with Some _ => true | None => if code2 =? code then continued else true end in
          if again then more_loop fuel code s else Some s
      end
  end.

Definition readResponse {E} (expect : Z) (s : bytes) : result (nerr E) Z * bytes :=
  match readLine s with
  | None => (Err NConn, [])
  | Some (line, s) =>
      let '(code, continued, err) := parseCodeLine line expect in
      let r := match err with
               | None => Ok code
               | Some LProto => Err NProto
               | Some (LCode c) => Err (NResp c)
               end in
      if continued then match more_loop (S (length s)) code s with
                        | None => (Err NConn, [])
                        | Some s => (match r, err with
                                     | Err NProto, Some LProto => (Err (NResp code), s)
                                     | _, _ => (r, s)
                                     end)
                        end
      else (r, s)
  end.

(** DotReader, read to its end: the text, and what follows the final dot;
    [None] when the stream ends first. *)
Inductive dotState := DBeginLine | DDot | DDotCR | DCR | DData.

Definition emit (p : bytes) (r : bytes * option bytes) : bytes * option bytes := (p ++ fst r, snd r).

Fixpoint dotRead (st : dotState) (s : bytes) : bytes * option bytes :=
  match s with
  | [] => ([], None)
  | c :: s =>
      (* a byte met in state data *)
      let data := if c =? 13 then dotRead DCR s
                  else if c =? 10 then emit [c] (dotRead DBeginLine s)
                  else emit [c] (dotRead DData s) in
      match st with
      | DBeginLine =>
          if c =? 46 then dotRead DDot s
          else if c =? 13 then dotRead DCR s
          else emit [c] (dotRead DData s)
      | DDot =>
          if c =? 13 then dotRead DDotCR s
          else if c =? 10 then ([], Some s)
          else emit [c] (dotRead DData s)
      | DDotCR => if c =? 10 then ([], Some s) else emit [13] data
      | DCR => if c =? 10 then emit [c] (dotRead DBeginLine s) else emit [13] data
      | DData => data
      end
  end.

(** * The client *)

Definition containsCRLF (s : bytes) : bool := existsb (fun c => (c =? 13) || (c =? 10)) s.

Section Client.
Context {Srv W E : Type}.
Context (serve : bytes -> Srv -> option bytes * Srv).
Context (write : bytes -> W -> (nat * option (ioErr E)) * W).

Record conn := MkConn { c_in : bytes; c_srv : Srv }.

(** PrintfLine: the command reaches the server, which answers in its time. *)
Definition send (cmd : bytes) (c : conn) : result (nerr E) unit * conn :=
  let '(resp, srv) := serve cmd (c_srv c) in
  match resp with
  | None => (Err NConn, MkConn (c_in c) srv)
  | Some resp => (Ok tt, MkConn (c_in c ++ resp) srv)
  end.

Definition response (expect : Z) (c : conn) : result (nerr E) Z * conn :=
  let '(r, rest) := readResponse expect (c_in c) in (r, MkConn rest (c_srv c)).

Definition authinfo (user pass : bytes) (c : conn) : option (nerr E) * conn :=
  if containsCRLF user || containsCRLF pass then (Some NInvalid, c)
  else
    match send (bs "AUTHINFO USER " ++ user) c with
    | (Err e, c) => (Some e, c)
    | (Ok _, c) =>
        match response 0 c with
        | (Err e, c) => (Some e, c)
        | (Ok code, c) =>
            if code =? 281 then (None, c)
            else if negb (code =? 381) then (Some (NCode code), c)
            else
              match send (bs "AUTHINFO PASS " ++ pass) c with
              | (Err e, c) => (Some e, c)
              | (Ok _, c) =>
                  match response 281 c with
                  | (Err e, c) => (Some e, c)
                  | (Ok _, c) => (None, c)
                  end
              end
        end
    end.

(** DialContext once connected: the greeting, then the credentials. *)
Definition DialContext (user pass : bytes) (c : conn) : result (nerr E) conn :=
  match response 0 c with
  | (Err e, _) => Err e
  | (Ok code, c) =>
      if negb (code =? 200) && negb (code =? 201) then Err (NCode code)
      else match user with
           | [] => Ok c
           | _ => match authinfo user pass c with
                  | (Some e, _) => Err e
                  | (None, c) => Ok c
                  end
           end
  end.

(** messageID with its angle brackets. *)
Definition bracketed (messageID : bytes) : bytes :=
  match messageID with
  | 60 :: _ => messageID
  | _ => 60 :: messageID ++ [62]
  end.

(** Client.Body to a writer: the error, the writer and the connection after it.
    The article is drained whatever the decoder made of it. *)
Definition Body (messageID : bytes) (w : W) (c : conn) : option (nerr E) * W * conn :=
  if containsCRLF messageID then (Some NInvalid, w, c)
  else
    match send (bs "BODY " ++ bracketed messageID) c with
    | (Err e, c) => (Some e, w, c)
    | (Ok _, c) =>
        match response 222 c with
        | (Err e, c) => (Some e, w, c)
        | (Ok _, c) =>
            let '(text, rest) := dotRead DBeginLine (c_in c) in
            let r := decodeYenc write (fun _ => Ok w) text (match rest with Some _ => None | None => Some WConn end) in
            (decErr_nerr <$> d_err r, from_option bw_dst w (d_dst r), MkConn (default [] rest) (c_srv c))
        end
    end.

End Client.
Arguments conn : clear implicits.
Arguments MkConn {Srv}.
Arguments c_in {Srv}.
Arguments c_srv {Srv}.
