(* ===== verification/NzbSession.v ===== *)
(** NZB jobs (internal/nzb/nzb.go, session.go): the files of a job, the cap on
    what is written, and the sequential assembly of a file over one connection
    that is replaced once when it turns out to be dead.

    XML decoding and the network are the environment: [dial n] is the connection
    the n-th dial gets, its greeting unread, or [None]. *)

From S2P Require Import Prelude GoStrings Yenc Nntp.

(** * The files of a job *)

Record Segment := MkSegment { sg_MessageID : bytes; sg_Bytes : Z; sg_Number : Z }.
Record File := MkFile { fl_Subject : bytes; fl_Name : bytes; fl_Segments : list Segment; fl_Size : Z }.

(** nzbSegment and nzbFile, as the XML decoder returns them. *)
Record nzbSegment := MkXSeg { xs_MessageID : bytes; xs_Bytes : Z; xs_Number : Z }.
Record nzbFile := MkXFile { xf_Subject : bytes; xf_Segments : list nzbSegment }.

(** quotedNameRE: the first quoted run that holds a dot. *)
Fixpoint quotedName (s : bytes) : option bytes :=
  match s with
  | [] => None
  | c :: s' =>
      if c =? 34 then
        match Cut s' 34 with
        | None => None
        | Some (name, _) => if ContainsByte name 46 then Some name else quotedName s'
        end
      else quotedName s'
  end.

Definition by_number (a b : Segment) : Prop := sg_Number a <= sg_Number b.

#[export] Instance by_number_dec a b : Decision (by_number a b) := Z_le_dec _ _.

(** sort.Slice leaves the order of equal numbers open; the sort here is one of
    the orders it may give. *)
Definition parseFile (f : nzbFile) : File :=
  let segs := (fun s => MkSegment (TrimSpace (xs_MessageID s)) (xs_Bytes s) (xs_Number s)) <$> xf_Segments f in
  MkFile (xf_Subject f)
    (match quotedName (xf_Subject f) with Some name => name | None => TrimSpace (xf_Subject f) end)
    (merge_sort by_number segs) (int64 (sumZ xs_Bytes (xf_Segments f))).

(** * The cap *)

Definition nzbDefaultMaxBytes : Z := Z.shiftl 50 30.

Definition sizeCap (f : File) : Z := if fl_Size f <=? 0 then nzbDefaultMaxBytes else fl_Size f.

Section Session.
Context {Srv W E : Type}.
Context (serve : bytes -> Srv -> option bytes * Srv).
Context (dstWrite : bytes -> W -> (nat * option E) * W).
(** Whether an error of the caller's writer is a net.Error. *)
Context (isNet : E -> bool).
Context (user pass : bytes) (dial : nat -> option (conn Srv)).

Record limitedWriter := MkLimited { lw_w : W; lw_limit : Z; lw_written : Z }.

Definition pass_on (p : bytes) (over : option (ioErr E)) (lw : limitedWriter) : (nat * option (ioErr E)) * limitedWriter :=
  let '((n, err), w) := dstWrite p (lw_w lw) in
  ((n, match err with Some e => Some (WDst e) | None => over end),
   MkLimited w (lw_limit lw) (lw_written lw + Z.of_nat n)).

Definition lwWrite (p : bytes) (lw : limitedWriter) : (nat * option (ioErr E)) * limitedWriter :=
  if 0 <? lw_limit lw then
    if lw_limit lw <=? lw_written lw then ((0%nat, Some WOverflow), lw)
    else
      let remain := lw_limit lw - lw_written lw in
      if remain <? Z.of_nat (length p) then pass_on (take (Z.to_nat remain) p) (Some WOverflow) lw
      else pass_on p None lw
  else pass_on p None lw.

(** * Assembling *)

(** Session: the files, the persistent connection, and the dials made so far. *)
Record session := MkSession { ss_files : list File; ss_client : option (conn Srv); ss_dials : nat }.

Definition findFile (name : bytes) (fs : list File) : option File :=
  head (filter (fun f => fl_Name f = name) fs).

Definition isConnErr (e : nerr E) : bool :=
  match e with
  | NConn => true
  | NDst e => isNet e
  | _ => false
  end.

Definition Dial (n : nat) : result (nerr E) (conn Srv) :=
  match dial n with
  | None => Err NDial
  | Some c => DialContext serve user pass c
  end.

(** The loop of AssembleFile: the error, the connection kept, the dials made, the
    writer. *)
Fixpoint assemble_loop (segs : list Segment) (c : conn Srv) (dials : nat) (w : limitedWriter) :
    option (nerr E) * option (conn Srv) * nat * limitedWriter :=
  match segs with
  | [] => (None, Some c, dials, w)
  | seg :: segs =>
      match Body serve lwWrite (sg_MessageID seg) w c with
      | (None, w1, c) => assemble_loop segs c dials w1
      | (Some e, w1, c) =>
          if negb (isConnErr e) || negb (lw_written w1 =? lw_written w) then (Some e, Some c, dials, w1)
          else
            match Dial dials with
            | Err e => (Some e, None, S dials, w1)
            | Ok c =>
                match Body serve lwWrite (sg_MessageID seg) w1 c with
                | (None, w2, c) => assemble_loop segs c (S dials) w2
                | (Some e, w2, c) => (Some e, Some c, S dials, w2)
                end
            end
      end
  end.

Definition AssembleFile (name : bytes) (dst : W) (s : session) : option (nerr E) * session * W :=
  match findFile name (ss_files s) with
  | None => (Some NNotFound, s, dst)
  | Some f =>
      let w := MkLimited dst (sizeCap f) 0 in
      let '(dialled, dials) := match ss_client s with
                               | Some c => (Ok c, ss_dials s)
                               | None => (Dial (ss_dials s), S (ss_dials s))
                               end in
      match dialled with
      | Err e => (Some e, MkSession (ss_files s) None dials, dst)
      | Ok c =>
          let '(err, c, dials, w) := assemble_loop (fl_Segments f) c dials w in
          (err, MkSession (ss_files s) c dials, lw_w w)
      end
  end.

End Session.
Arguments MkLimited {W}.
Arguments lw_w {W}.
Arguments lw_limit {W}.
Arguments lw_written {W}.
Arguments MkSession {Srv}.
Arguments ss_files {Srv}.
Arguments ss_client {Srv}.
Arguments ss_dials {Srv}.

(** * The decoder keeps what its writer keeps *)

Section Keeps.
Context {W E : Type} (write : bytes -> W -> (nat * option E) * W) (out : W -> bytes).
Hypothesis write_ok : forall p w,
  ((write p w).1.1 <= length p)%nat /\ out (write p w).2 = out w ++ take (write p w).1.1 p /\
  ((write p w).1.2 = None -> (write p w).1.1 = length p).
Context (okw : W -> Prop).
Hypothesis okw_write : forall p w, okw w -> okw (write p w).2.

Lemma flush_keeps b : okw (bw_dst b) -> okw (bw_dst (flush write b).2).
Proof. intros Hk. by apply (flush_room write out write_ok okw (fun _ => False)). Qed.

Lemma bwrite_keeps p b : okw (bw_dst b) -> okw (bw_dst (bwrite write p b).2).
Proof. intros Hk. by apply (bwrite_room write out write_ok okw (fun _ => False)). Qed.

Definition okd (dst : option (bufWriter W (decErr E))) : Prop := forall b, dst = Some b -> okw (bw_dst b).

Lemma decode_loop_keeps w lines scanErr hdr inBody written sum dst :
  okw w -> okd dst -> okd (d_dst (decode_loop write (fun _ => Ok w) lines scanErr hdr inBody written sum dst)).
Proof.
  intros Hw. revert hdr inBody written sum dst. induction lines as [|raw lines IH]; intros hdr inBody written sum dst Hd.
  { cbn. unfold decode_eof. destruct scanErr; [done|]. cbn. intros b. destruct dst as [b0|]; cbn; [|done].
    intros [= <-]. apply flush_keeps. by apply Hd. }
  assert (exists b, bind (fun _ => Ok w) hdr dst = Ok b /\ okw (bw_dst b)) as (b & Hb & Hk).
  { destruct dst as [b|]; [exists b; split; [done|by apply Hd]|]. by eexists. }
  cbn [decode_loop]. repeat (destruct (HasPrefix raw _); [try by apply IH|]).
  - unfold decode_end. destruct (negb inBody); [done|]. rewrite Hb. pose proof (flush_keeps b Hk) as Hf.
    destruct (flush write b) as [[e|] b']; by intros ? [= <-].
  - destruct (negb inBody); [by apply IH|]. rewrite Hb. destruct (decodeLine raw) as [o|]; [|by intros ? [= <-]].
    pose proof (bwrite_keeps o b Hk) as Hf. destruct (bwrite write o b) as [[e|] b']; [by intros ? [= <-]|].
    apply IH. by intros ? [= <-].
Qed.

Lemma decodeYenc_keeps w text rerr :
  okw w -> okw (from_option bw_dst w (d_dst (decodeYenc write (fun _ => Ok w) text rerr))).
Proof.
  intros Hw. unfold decodeYenc. destruct (scanLines _ _) as [lines tooLong].
  pose proof (decode_loop_keeps w lines (if tooLong then Some (DYenc errTooLong) else DRead <$> rerr)
    noHeader false 0 0 None Hw ltac:(done)) as H.
  by destruct (d_dst _) as [b|]; [apply H|].
Qed.

End Keeps.

(** * The cap *)

Section Cap.
Context {W E : Type} (dstWrite : bytes -> W -> (nat * option E) * W) (out : W -> bytes).
Hypothesis dst_contract : forall p w,
  ((dstWrite p w).1.1 <= length p)%nat /\ out (dstWrite p w).2 = out w ++ take (dstWrite p w).1.1 p /\
  ((dstWrite p w).1.2 = None -> (dstWrite p w).1.1 = length p).

Definition lw_out (lw : limitedWriter) : bytes := out (lw_w lw).

Lemma lwWrite_contract p lw :
  ((lwWrite dstWrite p lw).1.1 <= length p)%nat /\
  lw_out (lwWrite dstWrite p lw).2 = lw_out lw ++ take (lwWrite dstWrite p lw).1.1 p /\
  ((lwWrite dstWrite p lw).1.2 = None -> (lwWrite dstWrite p lw).1.1 = length p).
Proof.
  assert (forall q over, q `prefix_of` p -> (over = None -> q = p) ->
    ((pass_on dstWrite q over lw).1.1 <= length p)%nat /\
    lw_out (pass_on dstWrite q over lw).2 = lw_out lw ++ take (pass_on dstWrite q over lw).1.1 p /\
    ((pass_on dstWrite q over lw).1.2 = None -> (pass_on dstWrite q over lw).1.1 = length p)) as H.
  { intros q over Hq Hover. destruct (dst_contract q (lw_w lw)) as (H1 & H2 & H3). unfold pass_on, lw_out.
    destruct (dstWrite q (lw_w lw)) as [[n err] w]. cbn in *. pose proof (prefix_length _ _ Hq).
    split; [lia|]. split.
    - rewrite H2. f_equal. destruct Hq as [r ->]. by rewrite take_app_le.
    - destruct err; [done|]. intros ->. by rewrite H3, Hover. }
  unfold lwWrite. destruct (0 <? lw_limit lw); [|by apply H].
  destruct (lw_limit lw <=? lw_written lw); [cbn; rewrite app_nil_r; split_and!; [lia|done|done]|].
  destruct (_ <? Z.of_nat (length p)); [|by apply H]. apply H; [apply prefix_take|done].
Qed.

(** [lw] came from [lw0] by writes that stayed within the limit. *)
Definition grown (lw0 lw : limitedWriter) : Prop :=
  lw_limit lw = lw_limit lw0 /\ exists d, lw_out lw = lw_out lw0 ++ d /\
    lw_written lw = lw_written lw0 + Z.of_nat (length d) /\
    (0 < lw_limit lw0 -> lw_written lw0 <= lw_limit lw0 -> lw_written lw <= lw_limit lw0).

Lemma grown_refl lw : grown lw lw.
Proof. split; [done|]. exists []. rewrite app_nil_r. split; [done|]. cbn. split; [lia|done]. Qed.

Lemma grown_trans a b c : grown a b -> grown b c -> grown a c.
Proof.
  intros (L1 & d1 & O1 & W1 & B1) (L2 & d2 & O2 & W2 & B2). split; [congruence|]. exists (d1 ++ d2).
  rewrite O2, O1, app_assoc, length_app. split; [done|]. split; [lia|]. intros. rewrite L1 in *. auto.
Qed.

Lemma lwWrite_grown p lw0 lw : grown lw0 lw -> grown lw0 (lwWrite dstWrite p lw).2.
Proof.
  intros H. eapply grown_trans; [exact H|]. clear H lw0.
  assert (forall q over, (0 < lw_limit lw -> Z.of_nat (length q) <= lw_limit lw - lw_written lw) ->
    grown lw (pass_on dstWrite q over lw).2) as H.
  { intros q over Hlen. destruct (dst_contract q (lw_w lw)) as (H1 & H2 & H3). unfold pass_on, grown, lw_out.
    destruct (dstWrite q (lw_w lw)) as [[n err] w]. cbn in *. split; [done|]. exists (take n q).
    rewrite length_take_le by done. split; [done|]. split; [done|]. intros. specialize (Hlen ltac:(done)). lia. }
  unfold lwWrite. destruct (Z.ltb_spec 0 (lw_limit lw)); [|apply H; lia].
  destruct (Z.leb_spec (lw_limit lw) (lw_written lw)); [apply grown_refl|].
  destruct (Z.ltb_spec (lw_limit lw - lw_written lw) (Z.of_nat (length p))); apply H; intros _.
  - rewrite length_take. lia.
  - lia.
Qed.

End Cap.

(** * Assembly is sound whatever the servers send *)

Section Assembly.
Context {Srv W E : Type} (serve : bytes -> Srv -> option bytes * Srv).
Context (dstWrite : bytes -> W -> (nat * option E) * W) (out : W -> bytes) (isNet : E -> bool).
Context (user pass : bytes) (dial : nat -> option (conn Srv)).
Hypothesis dst_contract : forall p w,
  ((dstWrite p w).1.1 <= length p)%nat /\ out (dstWrite p w).2 = out w ++ take (dstWrite p w).1.1 p /\
  ((dstWrite p w).1.2 = None -> (dstWrite p w).1.1 = length p).

(** [data] is what an article carries whose trailer agrees with its length and
    its checksum. *)
Definition verified (data : bytes) : Prop :=
  exists text trailer part, payload (scanLines yencMaxLine text).1 false = Some data /\
    trailer ∈ (scanLines yencMaxLine text).1 /\ HasPrefix trailer yendTag = true /\
    verifyYencTrailer trailer (Z.of_nat (length data)) (crc32_update 0 data) part = None.

Lemma Body_sound id w c err w1 c1 :
  Body serve (lwWrite dstWrite) id w c = (err, w1, c1) ->
  grown out w w1 /\ (err = None -> exists data, verified data /\ lw_out out w1 = lw_out out w ++ data).
Proof.
  unfold Body. destruct (containsCRLF id); [intros [= <- <- <-]; split; [apply grown_refl|done]|].
  destruct (send serve _ c) as [[[]|e] c2]; [|intros [= <- <- <-]; split; [apply grown_refl|done]].
  destruct (response 222 c2) as [[code|e] c3]; [|intros [= <- <- <-]; split; [apply grown_refl|done]].
  destruct (dotRead DBeginLine (c_in c3)) as [text rest].
  set (rerr := match rest with Some _ => None | None => Some WConn end).
  set (r := decodeYenc (lwWrite dstWrite) (fun _ => Ok w) text rerr). intros [= <- <- <-]. split.
  - apply (decodeYenc_keeps (lwWrite dstWrite) (lw_out out) (lwWrite_contract dstWrite out dst_contract)
      (grown out w)); [intros p lw; by apply lwWrite_grown|apply grown_refl].
  - intros Hr. assert (d_err r = None) as Hn by (by destruct (d_err r)). unfold r, decodeYenc in *.
    destruct (scanLines yencMaxLine text) as [lines tooLong] eqn:Hs.
    destruct (decode_loop_sound (lwWrite dstWrite) (lw_out out) (fun _ => Ok w) (lwWrite_contract dstWrite out dst_contract)
      lines (if tooLong then Some (DYenc errTooLong) else DRead <$> rerr) noHeader false None [] eq_refl Hn)
      as (b & h & w0 & data & t & H1 & H2 & [= <-] & H4 & H5 & H6 & H7 & H8).
    exists data. split.
    + exists text, t, (h_HasPart (d_hdr (decode_loop (lwWrite dstWrite) (fun _ => Ok w) lines
        (if tooLong then Some (DYenc errTooLong) else DRead <$> rerr) noHeader false 0 0 None))).
      rewrite Hs. done.
    + change (Z.of_nat (length (@nil Z))) with 0 in H2. change (crc32_update 0 []) with 0 in H2. rewrite H2. exact H4.
Qed.

Lemma grown_same w w1 : grown out w w1 -> lw_written w1 = lw_written w -> lw_out out w1 = lw_out out w.
Proof. intros (_ & d & -> & Hw & _) E1. destruct d; [by rewrite app_nil_r|]. cbn in Hw. lia. Qed.

Lemma assemble_loop_sound segs c n w err c1 n1 w1 :
  assemble_loop serve dstWrite isNet user pass dial segs c n w = (err, c1, n1, w1) ->
  grown out w w1 /\ (n <= n1 <= n + length segs)%nat /\
  (err = None -> exists datas, length datas = length segs /\ Forall verified datas /\
     lw_out out w1 = lw_out out w ++ concat datas).
Proof.
  revert c n w. induction segs as [|seg segs IH]; intros c n w; cbn [assemble_loop].
  { intros [= <- <- <- <-]. split; [apply grown_refl|]. split; [cbn; lia|]. intros _. exists [].
    split; [done|]. split; [constructor|]. by rewrite app_nil_r. }
  assert (forall n' w2 c2, lw_out out w2 = lw_out out w -> grown out w w2 -> (n <= n' <= S n)%nat ->
    forall err2 w3 c3, Body serve (lwWrite dstWrite) (sg_MessageID seg) w2 c2 = (err2, w3, c3) -> err2 = None ->
    assemble_loop serve dstWrite isNet user pass dial segs c3 n' w3 = (err, c1, n1, w1) ->
    grown out w w1 /\ (n <= n1 <= n + S (length segs))%nat /\
    (err = None -> exists datas, length datas = S (length segs) /\ Forall verified datas /\
       lw_out out w1 = lw_out out w ++ concat datas)) as Hnext.
  { intros n' w2 c2 Ho Hg Hn' err2 w3 c3 Hb Herr Hloop. destruct (Body_sound _ _ _ _ _ _ Hb) as [Hg3 Hok].
    destruct (Hok Herr) as (data & Hv & Hd). destruct (IH _ _ _ Hloop) as (Hg1 & Hn & Hall).
    split; [by eapply grown_trans; [exact Hg|]; eapply grown_trans|]. split; [lia|]. intros He.
    destruct (Hall He) as (datas & Hlen & Hf & Hout). exists (data :: datas). split; [cbn; lia|].
    split; [by constructor|]. cbn. by rewrite Hout, Hd, Ho, app_assoc. }
  destruct (Body serve (lwWrite dstWrite) (sg_MessageID seg) w c) as [[[e|] w2] c2] eqn:Hb.
  2:{ intros Hl. eapply (Hnext n w c eq_refl (grown_refl out w)); [lia|exact Hb|done|exact Hl]. }
  destruct (Body_sound _ _ _ _ _ _ Hb) as [Hg2 _]. cbn [length].
  destruct (negb (isConnErr isNet e) || negb (lw_written w2 =? lw_written w)) eqn:Hre.
  { intros [= <- <- <- <-]. split; [done|]. split; [lia|done]. }
  apply orb_false_iff in Hre as [_ Hsame%negb_false_iff]. apply Z.eqb_eq in Hsame.
  pose proof (grown_same _ _ Hg2 Hsame) as Ho2.
  destruct (Dial serve user pass dial n) as [c3|e3]; [|intros [= <- <- <- <-]; split; [done|]; split; [lia|done]].
  destruct (Body serve (lwWrite dstWrite) (sg_MessageID seg) w2 c3) as [[[e4|] w4] c4] eqn:Hb4.
  - intros [= <- <- <- <-]. destruct (Body_sound _ _ _ _ _ _ Hb4) as [Hg4 _].
    split; [by eapply grown_trans|]. split; [lia|done].
  - intros Hl. eapply (Hnext (S n) w2 c3 Ho2 Hg2); [lia|exact Hb4|done|exact Hl].
Qed.

End Assembly.


(** * Assembly succeeds with servers that answer *)

Lemma line_loop_line l cur s : 10 ∉ l -> line_loop cur (l ++ 10 :: s) = Some (dropCR (rev cur ++ l), s).
Proof.
  revert cur. induction l as [|c l IH]; intros cur Hl; [by rewrite app_nil_r|].
  apply not_elem_of_cons in Hl as [Hc Hl]. cbn [app].
  assert (line_loop cur (c :: l ++ 10 :: s) = line_loop (c :: cur) (l ++ 10 :: s)) as ->.
  { cbn. by repeat (destruct c as [|c|c]; try done; try destruct c as [c|c|]; try done). }
  rewrite IH by done. cbn. by rewrite <- app_assoc.
Qed.

(** The status line of a server that sends the body. *)
Lemma readResponse_222 {E} st s : 10 ∉ st -> @readResponse E 222 (bs "222 " ++ st ++ 13 :: 10 :: s) = (Ok 222, s).
Proof.
  intros Hst. unfold readResponse, readLine.
  replace (bs "222 " ++ st ++ 13 :: 10 :: s) with (((bs "222 " ++ st) ++ [13]) ++ 10 :: s) by (by rewrite <- !app_assoc).
  rewrite line_loop_line.
  2:{ rewrite !elem_of_app, list_elem_of_singleton. intros [[H|H]|H]; [|done|done]. revert H. by apply (bool_decide_unpack _). }
  cbn [rev app]. rewrite dropCR_snoc. reflexivity.
Qed.

Definition dotStuff (lines : list bytes) : bytes :=
  concat ((fun l => (if HasPrefix l [46] then 46 :: l else l) ++ [13; 10]) <$> lines).

Lemma dotRead_data l s : 10 ∉ l -> last l <> Some 13 ->
  dotRead DData (l ++ 13 :: 10 :: s) = emit (l ++ [10]) (dotRead DBeginLine s) /\
  (l <> [] -> dotRead DCR (l ++ 13 :: 10 :: s) = emit (13 :: l ++ [10]) (dotRead DBeginLine s)).
Proof.
  induction l as [|c l IH]; intros Hn Hl; [split; [reflexivity|done]|].
  apply not_elem_of_cons in Hn as [Hc Hn].
  assert (dotRead DData (c :: l ++ 13 :: 10 :: s) = emit (c :: l ++ [10]) (dotRead DBeginLine s)) as Hd.
  { cbn [dotRead]. destruct (Z.eqb_spec c 13) as [->|H13].
    - destruct l as [|d l]; [by destruct Hl|]. destruct (IH Hn Hl) as [_ H]. by apply H.
    - rewrite (proj2 (Z.eqb_neq c 10)) by done. destruct (IH Hn) as [H _].
      + by destruct l.
      + rewrite H. unfold emit. done. }
  split; [exact Hd|]. intros _. cbn [app dotRead] in *. rewrite (proj2 (Z.eqb_neq c 10)) in * by done.
  rewrite Hd. unfold emit. done.
Qed.

Lemma dotRead_line l s : 10 ∉ l -> last l <> Some 13 ->
  dotRead DBeginLine ((if HasPrefix l [46] then 46 :: l else l) ++ [13; 10] ++ s) = emit (l ++ [10]) (dotRead DBeginLine s).
Proof.
  intros Hn Hl. destruct l as [|c l]; [reflexivity|].
  pose proof (proj1 (dotRead_data (c :: l) s Hn Hl)) as Hd.
  apply not_elem_of_cons in Hn as [Hc Hn]. cbn [HasPrefix]. destruct (Z.eqb_spec 46 c) as [<-|H46]; cbn [andb].
  - rewrite <- Hd. reflexivity.
  - rewrite <- Hd. cbn [app dotRead]. rewrite (proj2 (Z.eqb_neq c 46)) by done.
    rewrite (proj2 (Z.eqb_neq c 10)) by done. by destruct (c =? 13).
Qed.

(** A stuffed text is read back line by line, up to the final dot. *)
Lemma dotRead_stuff maxToken lines rest : Forall (scannable maxToken) lines ->
  dotRead DBeginLine (dotStuff lines ++ [46; 13; 10] ++ rest) = (joinLines false lines, Some rest).
Proof.
  unfold dotStuff, joinLines. induction 1 as [|l lines (Hn & Hcr & _) _ IH]; [reflexivity|].
  cbn [fmap list_fmap concat]. rewrite <- !app_assoc. rewrite dotRead_line by done. rewrite IH. unfold emit. cbn [fst snd]. by rewrite <- ?app_assoc.
Qed.

Record article := MkArticle { ar_total : Z; ar_name : bytes; ar_part : option partRange; ar_lines : list (list (Z * bool)) }.

Definition dataOf (a : article) : bytes := concat (map (map fst) (ar_lines a)).

Definition answer (st : bytes) (a : article) : bytes :=
  bs "222 " ++ st ++ 13 :: 10 :: dotStuff (encodeArticle (ar_total a) (ar_name a) (ar_part a) (ar_lines a)) ++ [46; 13; 10].

Section Honest.
Context {Srv W E : Type} (serve : bytes -> Srv -> option bytes * Srv).
Context (dstWrite : bytes -> W -> (nat * option E) * W) (out : W -> bytes) (isNet : E -> bool).
Context (user pass : bytes) (dial : nat -> option (conn Srv)) (articles : bytes -> option article) (fresh : Srv -> Prop).
Hypothesis dst_contract : forall p w,
  ((dstWrite p w).1.1 <= length p)%nat /\ out (dstWrite p w).2 = out w ++ take (dstWrite p w).1.1 p /\
  ((dstWrite p w).1.2 = None -> (dstWrite p w).1.1 = length p).
Hypothesis dst_never : forall p w, (dstWrite p w).1.2 = None.
(** A connection answers with the article, or is dead; a new one answers. *)
Hypothesis serve_answers : forall id a srv, articles id = Some a ->
  (exists st, 10 ∉ st /\ fst (serve (bs "BODY " ++ bracketed id) srv) = Some (answer st a)) \/
  (~ fresh srv /\ default [] (fst (serve (bs "BODY " ++ bracketed id) srv)) = []).
Hypothesis dial_fresh : forall n, exists c, Dial serve user pass dial n = @Ok (nerr E) _ c /\ c_in c = [] /\ fresh (c_srv c).

Definition available (seg : Segment) (a : article) : Prop :=
  articles (sg_MessageID seg) = Some a /\ containsCRLF (sg_MessageID seg) = false /\
  encodable (ar_total a) (ar_name a) (ar_part a) (ar_lines a).

(** With room for the data, a body is delivered whole, or nothing happened and
    the connection is dead. *)
Lemma Body_answers seg a w c :
  available seg a -> c_in c = [] -> 0 < lw_limit w ->
  lw_written w + Z.of_nat (length (dataOf a)) <= lw_limit w ->
  let '(err, w1, c1) := Body serve (lwWrite dstWrite) (sg_MessageID seg) w c in
  (err = None /\ grown out w w1 /\ lw_out out w1 = lw_out out w ++ dataOf a /\ c_in c1 = []) \/
  (err = Some NConn /\ w1 = w /\ ~ fresh (c_srv c)).
Proof.
  intros (Ha & Hid & Hen) Hin Hlim Hroom.
  destruct (Body serve (lwWrite dstWrite) (sg_MessageID seg) w c) as [[err w1] c1] eqn:Hb.
  pose proof (proj1 (Body_sound serve dstWrite out dst_contract _ _ _ _ _ _ Hb)) as Hs. revert Hb.
  unfold Body. rewrite Hid. unfold send.
  destruct (serve_answers (sg_MessageID seg) a (c_srv c) Ha) as [(st & Hst & Hr)|[Hdead Hr]].
  2:{ destruct (serve _ (c_srv c)) as [[resp|] srv]; cbn in Hr; [|intros [= <- <- <-]; by right]. subst resp.
      rewrite Hin. cbn. intros [= <- <- <-]. by right. }
  destruct (serve _ (c_srv c)) as [resp srv]. cbn [fst] in Hr. subst resp. rewrite Hin. unfold response, answer. cbn [c_in c_srv]. rewrite app_nil_l.
  rewrite readResponse_222 by done.
  pose proof (encodeArticle_scannable _ _ _ _ Hen) as Hsc.
  pose proof (dotRead_stuff yencMaxLine _ [] Hsc) as Hdot. rewrite app_nil_r in Hdot. cbn [c_in]. rewrite Hdot.
  destruct (decode_article (lwWrite dstWrite) (lw_out out) (fun _ => Ok w) (grown out w)
    (fun d => Z.of_nat (length d) <= Z.of_nat (length (lw_out out w)) + (lw_limit w - lw_written w)) w
    (ar_total a) (ar_name a) (ar_part a) (ar_lines a) (lwWrite_contract dstWrite out dst_contract))
    as (E1 & _ & _ & b & E4 & E5); try done.
  - intros p lw. by apply lwWrite_grown.
  - intros x y. rewrite length_app. lia.
  - intros p lw Hp (Hl & d & Hd & Hw & _). rewrite Hd, !length_app. intros Hlen.
    assert (0 < length p)%nat as Hpos by (destruct p; [done|cbn; lia]).
    unfold lwWrite. rewrite Hl. rewrite (proj2 (Z.ltb_lt _ _)) by done.
    rewrite (proj2 (Z.leb_gt _ _)) by lia. rewrite (proj2 (Z.ltb_ge _ _)) by lia.
    unfold pass_on. pose proof (dst_never p (lw_w lw)). destruct (dstWrite p (lw_w lw)) as [[n e] w']. cbn in *. by subst.
  - apply grown_refl.
  - rewrite length_app. unfold dataOf in Hroom. lia.
  - unfold decodeYenc. rewrite scanLines_joinLines by done. cbn [c_srv fst snd].
    change (DRead <$> None) with (@None (decErr (ioErr E))). rewrite E1, E4. cbn.
    intros [= <- <- <-]. left. split; [done|]. split; [|by rewrite E5].
    exact Hs.
Qed.

Lemma assemble_loop_complete segs ars c n w :
  Forall2 available segs ars -> c_in c = [] -> 0 < lw_limit w ->
  lw_written w + Z.of_nat (length (concat (dataOf <$> ars))) <= lw_limit w ->
  exists c1 n1 w1, assemble_loop serve dstWrite isNet user pass dial segs c n w = (None, Some c1, n1, w1) /\
    c_in c1 = [] /\ lw_out out w1 = lw_out out w ++ concat (dataOf <$> ars).
Proof.
  intros Hf. revert c n w. induction Hf as [|seg a segs ars Ha _ IH]; intros c n w Hin Hlim Hroom.
  { exists c, n, w. cbn. by rewrite app_nil_r. }
  cbn [fmap list_fmap concat] in *. rewrite length_app in Hroom.
  assert (forall w1, grown out w w1 -> lw_out out w1 = lw_out out w ++ dataOf a ->
    lw_limit w1 = lw_limit w /\ lw_written w1 = lw_written w + Z.of_nat (length (dataOf a))) as Hgr.
  { intros w1 (Hl & d & Hd & Hw & _) Ho. split; [done|]. rewrite Hd in Ho. apply app_inv_head in Ho. by subst. }
  assert (forall n' c1 w1, grown out w w1 -> lw_out out w1 = lw_out out w ++ dataOf a -> c_in c1 = [] ->
    exists c2 n2 w2, assemble_loop serve dstWrite isNet user pass dial segs c1 n' w1 = (None, Some c2, n2, w2) /\
      c_in c2 = [] /\ lw_out out w2 = lw_out out w ++ dataOf a ++ concat (dataOf <$> ars)) as Hnext.
  { intros n' c1 w1 Hg Ho Hc. destruct (Hgr w1 Hg Ho) as [Hl Hw].
    destruct (IH c1 n' w1 Hc ltac:(lia) ltac:(lia)) as (c2 & n2 & w2 & H1 & H2 & H3).
    exists c2, n2, w2. split; [done|]. split; [done|]. by rewrite H3, Ho, app_assoc. }
  cbn [assemble_loop]. pose proof (Body_answers seg a w c Ha Hin Hlim ltac:(lia)) as Hb.
  destruct (Body serve (lwWrite dstWrite) (sg_MessageID seg) w c) as [[err w1] c1].
  destruct Hb as [(-> & Hg & Ho & Hc)|(-> & -> & _)]; [by apply Hnext|].
  cbn [isConnErr negb orb]. rewrite Z.eqb_refl. cbn [negb].
  destruct (dial_fresh n) as (c2 & -> & Hin2 & Hfresh).
  pose proof (Body_answers seg a w c2 Ha Hin2 Hlim ltac:(lia)) as Hb2.
  destruct (Body serve (lwWrite dstWrite) (sg_MessageID seg) w c2) as [[err2 w2] c3].
  destruct Hb2 as [(-> & Hg & Ho & Hc)|(_ & _ & Hnf)]; [by apply Hnext|done].
Qed.

End Honest.

#[export] Instance by_number_trans : Transitive by_number.
Proof. intros a b c. unfold by_number. lia. Qed.

#[export] Instance by_number_total : Total by_number.
Proof. intros a b. unfold by_number. lia. Qed.

Lemma parseFile_spec x :
  StronglySorted by_number (fl_Segments (parseFile x)) /\
  fl_Segments (parseFile x) ≡ₚ ((fun s => MkSegment (TrimSpace (xs_MessageID s)) (xs_Bytes s) (xs_Number s)) <$> xf_Segments x) /\
  fl_Size (parseFile x) = int64 (sumZ sg_Bytes (fl_Segments (parseFile x))).
Proof.
  cbn. split; [apply StronglySorted_merge_sort; apply _|]. split; [apply merge_sort_Permutation|]. f_equal.
  etrans; [|symmetry; apply (sumZ_Permutation sg_Bytes), merge_sort_Permutation].
  induction (xf_Segments x) as [|s l IH]; [done|]. rewrite fmap_cons, !sumZ_cons. by rewrite IH.
Qed.

(** C33: The segments of a parsed file are the declared ones in ascending order;
    and when every connection answers or is dead and every new one answers,
    AssembleFile succeeds within the cap: the destination gets the data of all
    articles in that order, even over a persistent connection that has died, and
    the connection is left at a command boundary. *)
Theorem assembleFile_complete {Srv W E} serve (dstWrite : bytes -> W -> (nat * option E) * W) (out : W -> bytes) isNet
    user pass (dial : nat -> option (conn Srv)) articles (fresh : Srv -> Prop) name xml f ars dst s :
  (forall p w, ((dstWrite p w).1.1 <= length p)%nat /\ out (dstWrite p w).2 = out w ++ take (dstWrite p w).1.1 p /\
     ((dstWrite p w).1.2 = None -> (dstWrite p w).1.1 = length p)) ->
  (forall p w, (dstWrite p w).1.2 = None) ->
  (forall id a srv, articles id = Some a ->
     (exists st, 10 ∉ st /\ fst (serve (bs "BODY " ++ bracketed id) srv) = Some (answer st a)) \/
     (~ fresh srv /\ default [] (fst (serve (bs "BODY " ++ bracketed id) srv)) = [])) ->
  (forall n, exists c, Dial serve user pass dial n = @Ok (nerr E) _ c /\ c_in c = [] /\ fresh (c_srv c)) ->
  ss_files s = parseFile <$> xml -> (forall c, ss_client s = Some c -> c_in c = []) ->
  findFile name (ss_files s) = Some f -> Forall2 (available articles) (fl_Segments f) ars ->
  Z.of_nat (length (concat (dataOf <$> ars))) <= sizeCap f ->
  StronglySorted by_number (fl_Segments f) /\
  (exists x, x ∈ xml /\ fl_Size f = int64 (sumZ sg_Bytes (fl_Segments f)) /\
     fl_Segments f ≡ₚ ((fun s => MkSegment (TrimSpace (xs_MessageID s)) (xs_Bytes s) (xs_Number s)) <$> xf_Segments x)) /\
  exists c n dst', AssembleFile serve dstWrite isNet user pass dial name dst s = (None, MkSession (ss_files s) (Some c) n, dst') /\
    c_in c = [] /\ out dst' = out dst ++ concat (dataOf <$> ars).
Proof.
  intros H1 H2 H3 H4 Hxml Hclient Hf Hav Hcap.
  assert (exists x, f = parseFile x /\ x ∈ xml) as (x & -> & Hx).
  { unfold findFile in Hf. apply head_Some_elem_of, list_elem_of_filter in Hf as [_ Hin]. rewrite Hxml in Hin.
    by apply list_elem_of_fmap in Hin. }
  destruct (parseFile_spec x) as (Hs & Hp & Hz). split; [done|]. split; [by exists x|].
  unfold AssembleFile. rewrite Hf.
  assert (0 < sizeCap (parseFile x)) as Hpos.
  { unfold sizeCap, nzbDefaultMaxBytes. destruct (Z.leb_spec (fl_Size (parseFile x)) 0); [|done]. by rewrite Z.shiftl_mul_pow2. }
  assert (exists c n, match ss_client s with Some c => (Ok c, ss_dials s)
    | None => (Dial serve user pass dial (ss_dials s), S (ss_dials s)) end = (@Ok (nerr E) _ c, n) /\ c_in c = []) as (c & n & -> & Hin).
  { destruct (ss_client s) as [c|]; [exists c, (ss_dials s); split; [done|by apply Hclient]|].
    destruct (H4 (ss_dials s)) as (c & -> & ? & _). by eexists _, _. }
  destruct (assemble_loop_complete serve dstWrite out isNet user pass dial articles fresh H1 H2 H3 H4 _ ars c n
    (MkLimited dst (sizeCap (parseFile x)) 0) Hav Hin) as (c1 & n1 & w1 & -> & Hc & Ho); [done|cbn; lia|].
  by exists c1, n1, (lw_w w1).
Qed.

(** * Witnesses: two segments declared out of order, over a dead connection *)

Definition wit_article : article := MkArticle 20 (bs "my file.bin") (Some (MkRange 1 5)) Yenc.wit_lines.
Definition wit_serve (cmd : bytes) (alive : bool) : option bytes * bool :=
  if alive then (Some (answer (bs "0 article follows") wit_article), true) else (None, false).
Definition wit_dial (n : nat) : option (conn bool) := Some (MkConn (bs "200 ready" ++ [13; 10]) true).
Definition wit_xml : list nzbFile :=
  [MkXFile (34 :: bs "my file.bin" ++ 34 :: bs " yEnc (1/2)") [MkXSeg (bs " b@x ") 5 2; MkXSeg (bs "a@x") 5 1]].
Definition wit_session : session := MkSession (parseFile <$> wit_xml) (Some (MkConn [] false)) 0.
Definition wit_articles (id : bytes) : option article := Some wit_article.
Definition wit_run := AssembleFile wit_serve Yenc.wit_sink (fun _ : unit => false) [] [] wit_dial (bs "my file.bin") [] wit_session.

Lemma assembleFile_complete_witness :
  (exists c n dst', wit_run = (None, MkSession (ss_files wit_session) (Some c) n, dst') /\ c_in c = [] /\
    dst' = dataOf wit_article ++ dataOf wit_article) /\ ss_dials (snd (fst wit_run)) = 1%nat.
Proof.
  split; [|vm_compute; reflexivity].
  assert (available wit_articles (MkSegment (bs "a@x") 5 1) wit_article) as A1 by exact (conj eq_refl (conj eq_refl Yenc.wit_encodable)).
  assert (available wit_articles (MkSegment (bs "b@x") 5 2) wit_article) as A2 by exact (conj eq_refl (conj eq_refl Yenc.wit_encodable)).
  destruct (assembleFile_complete wit_serve Yenc.wit_sink id (fun _ : unit => false) [] [] wit_dial wit_articles
    (fun alive => alive = true) (bs "my file.bin") wit_xml (parseFile (MkXFile (34 :: bs "my file.bin" ++ 34 :: bs " yEnc (1/2)")
      [MkXSeg (bs " b@x ") 5 2; MkXSeg (bs "a@x") 5 1])) [wit_article; wit_article] [] wit_session
    Yenc.wit_sink_ok ltac:(done)) as (_ & _ & c & n & d & H1 & H2 & H3).
  - intros i a [|] [= <-]; [left; exists (bs "0 article follows"); split; [by apply (bool_decide_unpack _)|reflexivity]|].
    right. split; [discriminate|reflexivity].
  - intros n. exists (MkConn [] true). split; [vm_compute; reflexivity|]. split; reflexivity.
  - reflexivity.
  - by intros c [= <-].
  - vm_compute. reflexivity.
  - exact (List.Forall2_cons _ _ A1 (List.Forall2_cons _ _ A2 (List.Forall2_nil _))).
  - vm_compute. discriminate.
  - exists c, n, d. split; [exact H1|]. split; [exact H2|exact H3].
Defined.

