(* ===== verification/HttpRange.v ===== *)
(** Range requests: parseRange and the tail of handleStream (internal/api/api.go),
    and the FTP/HTTP proxy handler (internal/api/ftp.go) over the opener.

    A reader is the bytes it still has to give; a response is its status, the two
    headers a range decides, and the body sent. *)

From S2P Require Import Prelude GoStrings FtpOpen.

(** * Parsing *)

Inductive rangeResult := RAbsent | RUnsat | ROk (start end_ : Z).

Definition bytesEq : bytes := bs "bytes=".

(** The first range of the header, past "bytes=". *)
Definition firstRange (h : bytes) : bytes :=
  let spec := TrimPrefix h bytesEq in
  match IndexByte spec 44 with
  | Some i => take i spec
  | None => spec
  end.

Definition parseRange (h : bytes) (length : Z) : rangeResult :=
  if match h with [] => true | _ => negb (HasPrefix h bytesEq) end then RAbsent
  else
    let spec := firstRange h in
    match IndexByte spec 45 with
    | None => RAbsent
    | Some dash =>
        let startS := take dash spec in
        let endS := drop (S dash) spec in
        match startS with
        | [] =>
            match ParseInt endS 64 with
            | Err _ => RAbsent
            | Ok n =>
                if n <=? 0 then RUnsat
                else
                  let n := if length <? n then length else n in
                  if n =? 0 then RUnsat else ROk (length - n) (length - 1)
            end
        | _ =>
            match ParseInt startS 64 with
            | Err _ => RAbsent
            | Ok s =>
                if s <? 0 then RAbsent
                else if length <=? s then RUnsat
                else
                  let clamp e := if length <=? e then length - 1 else e in
                  match endS with
                  | [] => ROk s (clamp (length - 1))
                  | _ => match ParseInt endS 64 with
                         | Err _ => RAbsent
                         | Ok e => if e <? s then RUnsat else ROk s (clamp e)
                         end
                  end
            end
        end
    end.

(** The offset to open at, and whether there is one. *)
Definition ftpExtractRangeStart (h : bytes) : Z * bool :=
  if negb (HasPrefix h bytesEq) then (0, false)
  else
    let spec := firstRange h in
    match IndexByte spec 45 with
    | None | Some O => (0, false)
    | Some dash =>
        match ParseInt (take dash spec) 64 with
        | Err _ => (0, false)
        | Ok s =>
            if s <? 0 then (0, false)
            else match drop (S dash) spec with
                 | [] => (s, true)
                 | e => match ParseInt e 64 with Err _ => (0, false) | Ok _ => (s, true) end
                 end
        end
    end.

(** * Responses *)

Record httpResp := MkResp {
  rp_status : Z;
  rp_length : option Z;        (* Content-Length *)
  rp_range : option bytes;     (* Content-Range *)
  rp_body : bytes
}.

Definition rangeUnsat (length : Z) : bytes := bs "bytes */" ++ Itoa length.
Definition rangeText (start end_ length : Z) : bytes :=
  bs "bytes " ++ Itoa start ++ [45] ++ Itoa end_ ++ [47] ++ Itoa length.

(** io.LimitReader. *)
Definition limit (n : Z) (rc : bytes) : bytes := take (Z.to_nat n) rc.

(** The end of handleStream for a file that holds [data]; [seekErr] is whether
    the reader fails to seek (the text of the error is left out; http.Error
    removes the Content-Length alone). *)
Definition serveFile (head : bool) (h data : bytes) (seekErr : bool) : httpResp :=
  let len := Z.of_nat (length data) in
  match parseRange h len with
  | RUnsat => MkResp 416 None (Some (rangeUnsat len)) []
  | ROk start end_ =>
      if negb head && seekErr then MkResp 500 None (Some (rangeText start end_ len)) []
      else
        let rc := drop (Z.to_nat start) data in
        MkResp 206 (Some (end_ - start + 1)) (Some (rangeText start end_ len))
          (if head then [] else limit (end_ - start + 1) rc)
  | RAbsent => MkResp 200 (Some len) None (if head then [] else data)
  end.

(** handleFTP once the payload is decoded, for an http or https URL. *)
Definition serveRemote (head : bool) (h : bytes) (get : Z -> option response) : httpResp :=
  let '(start, hasRange) := ftpExtractRangeStart h in
  match openAt get start true with
  | Err ErrRangeNotSatisfiable => MkResp 416 None None []
  | Err _ => MkResp 502 None None []
  | Ok (rc, size, pos) =>
      let hasRange := if pos =? start then hasRange else false in
      let full := MkResp 200 (if 0 <=? size then Some size else None) None (if head then [] else rc) in
      if hasRange && (0 <=? size) then
        match parseRange h size with
        | RUnsat => MkResp 416 None (Some (rangeUnsat size)) []
        | ROk rStart rEnd =>
            let copyLen := rEnd - rStart + 1 in
            MkResp 206 (Some copyLen) (Some (rangeText rStart rEnd size)) (if head then [] else limit copyLen rc)
        | RAbsent => full
        end
      else full
  end.

(** * What a header means *)

(** A range as a client writes it, and what it selects of a resource. *)
Inductive rangeSpec := RSuffix (n : Z) | RFrom (a : Z) | RFromTo (a b : Z).

Definition spec_ok (r : rangeSpec) : Prop :=
  match r with
  | RSuffix n => 0 <= n < 2 ^ 63
  | RFrom a => 0 <= a < 2 ^ 63
  | RFromTo a b => 0 <= a < 2 ^ 63 /\ 0 <= b < 2 ^ 63
  end.

Definition printSpec (r : rangeSpec) : bytes :=
  match r with
  | RSuffix n => 45 :: Itoa n
  | RFrom a => Itoa a ++ [45]
  | RFromTo a b => Itoa a ++ 45 :: Itoa b
  end.

Definition select (r : rangeSpec) (len : Z) : option (Z * Z) :=
  match r with
  | RSuffix n => if (n =? 0) || (len =? 0) then None else Some (Z.max 0 (len - n), len - 1)
  | RFrom a => if a <? len then Some (a, len - 1) else None
  | RFromTo a b => if (a <? len) && (a <=? b) then Some (a, Z.min b (len - 1)) else None
  end.

Definition range_of (r : rangeSpec) (len : Z) : rangeResult :=
  match select r len with
  | Some (a, b) => ROk a b
  | None => RUnsat
  end.

Lemma Itoa_ne n : 0 <= n -> exists c t, Itoa n = c :: t.
Proof.
  intros Hn. unfold Itoa. rewrite (proj2 (Z.ltb_ge n 0)) by lia. unfold FormatUint. apply format_cons. lia.
Qed.

Lemma Itoa_no n c : 0 <= n -> ~ is_digit10 c -> c ∉ Itoa n.
Proof. intros Hn Hc Hin. by apply Hc, (proj1 (Forall_forall _ _) (Itoa_digits n Hn)). Qed.

Lemma printSpec_no_comma r : spec_ok r -> 44 ∉ printSpec r.
Proof.
  assert (~ is_digit10 44) as H by (unfold is_digit10; lia).
  destruct r as [n|a|a b]; cbn [spec_ok printSpec]; intros Hr.
  - apply not_elem_of_cons. split; [done|]. apply Itoa_no; [lia|done].
  - rewrite elem_of_app. intros [Hin|Hin]; [by apply Itoa_no in Hin; [|lia|]|]. by apply list_elem_of_singleton in Hin.
  - rewrite elem_of_app. intros [Hin|Hin]; [by apply Itoa_no in Hin; [|lia|]|].
    apply elem_of_cons in Hin as [?|Hin]; [done|]. apply Itoa_no in Hin; [done|lia|done].
Qed.

Lemma firstRange_print r rest : spec_ok r -> rest = [] \/ (exists t, rest = 44 :: t) ->
  firstRange (bytesEq ++ printSpec r ++ rest) = printSpec r.
Proof.
  intros Hr Hrest. unfold firstRange, TrimPrefix. rewrite HasPrefix_app, drop_app_length.
  pose proof (printSpec_no_comma r Hr) as Hc. destruct Hrest as [->|(t & ->)].
  - rewrite app_nil_r. by rewrite (proj2 (IndexByte_None _ _)).
  - rewrite IndexByte_app by done. by rewrite take_app_length.
Qed.

(** A well-formed header is read as what it selects, whatever other ranges
    follow. *)
Lemma parseRange_print r rest len : spec_ok r -> rest = [] \/ (exists t, rest = 44 :: t) -> 0 <= len ->
  parseRange (bytesEq ++ printSpec r ++ rest) len = range_of r len.
Proof.
  intros Hr Hrest Hlen. unfold parseRange. rewrite firstRange_print by done. cbv zeta.
  assert ((match bytesEq ++ printSpec r ++ rest with [] => true | _ => negb (HasPrefix (bytesEq ++ printSpec r ++ rest) bytesEq) end) = false) as ->.
  { rewrite HasPrefix_app. done. }
  assert (~ is_digit10 45) as Hd by (unfold is_digit10; lia).
  unfold range_of. destruct r as [n|a|a b]; cbn [spec_ok printSpec select] in *.
  - cbn [IndexByte Z.eqb Pos.eqb take drop]. rewrite ?drop_0, ParseInt_Itoa by done.
    destruct (Z.leb_spec n 0), (Z.eqb_spec n 0); try lia; [done|]. cbn [orb].
    destruct (Z.ltb_spec len n).
    + destruct (Z.eqb_spec len 0); [done|]. f_equal; lia.
    + destruct (Z.eqb_spec n 0); [lia|]. destruct (Z.eqb_spec len 0); [lia|]. f_equal; lia.
  - rewrite IndexByte_app by (by apply Itoa_no; [lia|]). rewrite take_app_length.
    replace (drop (S (length (Itoa a))) (Itoa a ++ [45])) with (@nil Z) by (rewrite drop_ge; [done|rewrite length_app; cbn; lia]).
    destruct (Itoa_ne a) as (c & t & E); [lia|]. rewrite E at 1. rewrite ParseInt_Itoa by done.
    rewrite (proj2 (Z.ltb_ge a 0)) by lia. destruct (Z.leb_spec len a), (Z.ltb_spec a len); try lia; [done|].
    rewrite (proj2 (Z.leb_gt len (len - 1))) by lia. done.
  - rewrite IndexByte_app by (by apply Itoa_no; [lia|]). rewrite take_app_length.
    replace (drop (S (length (Itoa a))) (Itoa a ++ 45 :: Itoa b)) with (Itoa b)
      by (rewrite <- Nat.add_1_r, <- drop_drop, drop_app_length; done).
    destruct Hr as [Ha Hb]. destruct (Itoa_ne a) as (c & t & E); [lia|]. rewrite E at 1. rewrite ParseInt_Itoa by done.
    rewrite (proj2 (Z.ltb_ge a 0)) by lia. destruct (Z.leb_spec len a), (Z.ltb_spec a len); try lia; [done|]. cbn [andb].
    destruct (Itoa_ne b) as (d & u & E2); [lia|]. rewrite E2 at 1. rewrite ParseInt_Itoa by done.
    destruct (Z.ltb_spec b a), (Z.leb_spec a b); try lia; [done|]. destruct (Z.leb_spec len b); f_equal; lia.
Qed.

(** A range that is served lies in the resource. *)
Lemma parseRange_bounds h len a b : 0 <= len -> parseRange h len = ROk a b -> 0 <= a <= b /\ b < len.
Proof.
  unfold parseRange. intros Hlen H. repeat (go_case_in H; try discriminate H); injection H as <- <-; bool_to_prop; lia.
Qed.

(** The offset the proxy opens at is the start of the range it answers with. *)
Lemma ftpExtract_agrees h s : ftpExtractRangeStart h = (s, true) ->
  0 <= s /\ forall len, parseRange h len = RUnsat \/ exists e, parseRange h len = ROk s e.
Proof.
  unfold ftpExtractRangeStart, parseRange. destruct (HasPrefix h bytesEq) eqn:Hp; [|done]. cbn [negb].
  assert ((match h with [] => true | _ => false end) = false) as -> by (by destruct h).
  destruct (IndexByte (firstRange h) 45) as [[|dash]|] eqn:Ei; try done. cbv zeta.
  assert (exists c t, take (S dash) (firstRange h) = c :: t) as (c & t & Et).
  { destruct (firstRange h) as [|c t]; [done|]. by exists c, (take dash t). }
  destruct (ParseInt (take (S dash) (firstRange h)) 64) as [s0|] eqn:Es; [|done].
  destruct (Z.ltb_spec s0 0); [done|].
  destruct (drop (S (S dash)) (firstRange h)) as [|d u] eqn:Ed.
  - intros [= <-]. split; [done|]. intros len. rewrite Et.
    destruct (len <=? s0); eauto.
  - destruct (ParseInt (d :: u) 64) as [e|] eqn:Ee; [|done]. intros [= <-]. split; [done|]. intros len.
    rewrite Et. destruct (len <=? s0); [by left|].
    destruct (e <? s0); eauto.
Qed.

(** * The responses *)

(** What a client may conclude from a response about a resource that holds
    [data]: the headers describe the body, and the body is the resource or the
    part the headers name. *)
Definition honest (head : bool) (h data : bytes) (r : httpResp) : Prop :=
  let len := Z.of_nat (length data) in
  (rp_status r = 200 /\ rp_range r = None /\ (rp_length r = None \/ rp_length r = Some len) /\
     rp_body r = if head then [] else data) \/
  (rp_status r = 206 /\ exists a b, parseRange h len = ROk a b /\ 0 <= a <= b /\ b < len /\
     rp_range r = Some (rangeText a b len) /\ rp_length r = Some (b - a + 1) /\
     (if head then rp_body r = []
      else rp_body r = take (Z.to_nat (b - a + 1)) (drop (Z.to_nat a) data) /\ Z.of_nat (length (rp_body r)) = b - a + 1)) \/
  (rp_status r = 416 /\ rp_length r = None /\ rp_body r = [] /\
     (rp_range r = None \/ rp_range r = Some (rangeUnsat len) /\ parseRange h len = RUnsat)).

Lemma rangeBody_length (data : bytes) a b : 0 <= a <= b -> b < Z.of_nat (length data) ->
  Z.of_nat (length (take (Z.to_nat (b - a + 1)) (drop (Z.to_nat a) data))) = b - a + 1.
Proof. intros Ha Hb. rewrite length_take, length_drop. lia. Qed.

(** A file is answered as its range asks: a well-formed header, whatever
    further ranges it lists, gets exactly the bytes it selects with the matching
    206 headers, or 416 when it selects none; and whatever the header, on a
    reader that can seek the status, the headers and the body agree with each
    other and with the file, a HEAD request differing only in the body. *)
Lemma serveFile_exact head h data seekErr :
  (head = true \/ seekErr = false -> honest head h data (serveFile head h data seekErr)) /\
  rp_status (serveFile true h data seekErr) = rp_status (serveFile false h data false) /\
  rp_length (serveFile true h data seekErr) = rp_length (serveFile false h data false) /\
  rp_range (serveFile true h data seekErr) = rp_range (serveFile false h data false) /\
  forall r rest, spec_ok r -> rest = [] \/ (exists t, rest = 44 :: t) -> h = bytesEq ++ printSpec r ++ rest ->
    let len := Z.of_nat (length data) in
    serveFile false h data false =
    match select r len with
    | None => MkResp 416 None (Some (rangeUnsat len)) []
    | Some (a, b) => MkResp 206 (Some (b - a + 1)) (Some (rangeText a b len))
                       (take (Z.to_nat (b - a + 1)) (drop (Z.to_nat a) data))
    end.
Proof.
  split; [|split; [|split; [|split]]].
  - intros Hs. unfold serveFile, honest. destruct (parseRange h (Z.of_nat (length data))) as [| |a b] eqn:Er.
    + left. cbn. split; [done|]. split; [done|]. split; [by right|done].
    + right. right. cbn. split; [done|]. split; [done|]. split; [done|]. by right.
    + assert (negb head && seekErr = false) as -> by (by destruct Hs as [->| ->]; rewrite ?andb_false_r).
      destruct (parseRange_bounds h (Z.of_nat (length data)) a b ltac:(lia) Er) as [H1 H2]. right. left. cbn. split; [done|]. exists a, b.
      split; [done|]. split; [done|]. split; [done|]. split; [done|]. split; [done|]. destruct head; [done|].
      split; [done|]. by apply rangeBody_length.
  - unfold serveFile. by destruct (parseRange _ _).
  - unfold serveFile. by destruct (parseRange _ _).
  - unfold serveFile. by destruct (parseRange _ _).
  - intros r rest Hr Hrest ->. cbv zeta. unfold serveFile. rewrite parseRange_print by (done || lia).
    unfold range_of. by destruct (select r _) as [[a b]|].
Qed.

Lemma openHTTP_whole data resp rc size : serves data 0 resp -> openHTTP 0 resp = Ok (rc, size) -> rc = data.
Proof.
  intros Hs H. unfold openHTTP in H. destruct (r_status resp =? 416) eqn:E; [done|].
  destruct Hs as [(Hst & Hb & _)|[(_ & Ho & _)|Hst]]; [|lia|by rewrite Hst in E].
  rewrite Hst in H. cbn in H. by injection H as <- _.
Qed.

(** Proxying a resource of a web server, whatever form the server's answers
    take: the answer is a refusal without a body, or its headers and its body
    agree with each other and with the resource, for every header a client can
    send; so a reader opened at an offset is never sent as if it began elsewhere. *)
Lemma serveRemote_honest head h (data : bytes) get :
  (forall o resp, get o = Some resp -> serves data o resp) -> Z.of_nat (length data) < 2 ^ 63 ->
  let r := serveRemote head h get in
  (rp_status r = 502 /\ rp_length r = None /\ rp_range r = None /\ rp_body r = []) \/ honest head h data r.
Proof.
  intros Hserve Hn. unfold serveRemote. destruct (ftpExtractRangeStart h) as [start hasRange] eqn:Ex.
  assert (0 <= start) as Hs0.
  { destruct hasRange; [by apply ftpExtract_agrees in Ex as [? _]|]. unfold ftpExtractRangeStart in Ex.
    repeat (go_case_in Ex; try (injection Ex as <-; lia); try discriminate Ex). }
  destruct (openAt get start true) as [[[rc size] pos]|e] eqn:Eo.
  2:{ destruct e; try (by left). right. right. right. cbn. split; [done|]. split; [done|]. split; [done|]. by left. }
  destruct (opened_at_position data get start true rc size pos Hserve Hs0 Hn Eo) as (Hpos & Hsz & Hrc & Hreq & _).
  specialize (Hreq eq_refl).
  assert (pos = 0 -> rc = data) as Hwhole.
  { intros ->. unfold openAt in Eo. destruct (get start) as [resp|] eqn:Eg; [|done].
    destruct (openHTTP start resp) as [[rc0 size0]|] eqn:Eh; [|done].
    destruct (_ && (size0 <? 0)).
    - destruct (get 0) as [resp1|] eqn:Eg1; [|done]. destruct (openHTTP 0 resp1) as [[rc1 size1]|] eqn:Eh1; [|done].
      injection Eo as <- <-. by apply (openHTTP_whole data resp1 _ size1); [apply Hserve|].
    - injection Eo as <- <- ->. by apply (openHTTP_whole data resp _ size0); [apply Hserve|]. }
  assert (rc = data -> honest head h data (MkResp 200 (if 0 <=? size then Some size else None) None (if head then [] else rc))) as Hfull.
  { intros ->. left. cbn. split; [done|]. split; [done|]. split; [|done]. destruct (Z.leb_spec 0 size); [|by left].
    destruct Hsz as [->| ->]; [lia|by right]. }
  right. destruct (Z.eqb_spec pos start) as [->|Hne].
  2:{ cbn [andb]. apply Hfull, Hwhole. destruct Hpos; [done|lia]. }
  destruct hasRange; cbn [andb].
  2:{ apply Hfull, Hwhole. unfold ftpExtractRangeStart in Ex.
      repeat (go_case_in Ex; try (by injection Ex as <-); try discriminate Ex). }
  destruct (Z.leb_spec 0 size) as [Hpos0|Hneg].
  2:{ apply Hfull, Hwhole. lia. }
  destruct Hsz as [->| ->]; [lia|]. destruct (ftpExtract_agrees h start Ex) as [_ Hagree].
  destruct (Hagree (Z.of_nat (length data))) as [Hu|[b Hok]].
  { rewrite Hu. right. right. cbn. split; [done|]. split; [done|]. split; [done|]. by right. }
  rewrite Hok. destruct (parseRange_bounds h (Z.of_nat (length data)) start b ltac:(lia) Hok) as [H1 H2].
  destruct Hrc as [->|[_ Hle]]; [|lia]. right. left. cbn. split; [done|]. exists start, b.
  split; [done|]. split; [done|]. split; [done|]. split; [done|]. split; [done|]. destruct head; [done|].
  split; [done|]. by apply rangeBody_length.
Qed.


(** The code's own grammar is wider than the header's: a signed number passes. *)
Lemma parseRange_signed : parseRange (bs "bytes=--5") 100 = RUnsat /\ parseRange (bs "bytes=+5-+9") 100 = ROk 5 9.
Proof. split; vm_compute; reflexivity. Qed.

(** * Witnesses *)

