(* ===== verification/Encoding.v ===== *)
(** Go's base64 and the query component encoding of net/url, as proxy links use
    them: the encoders, the decoders, and their round trips.

    The decoders ignore newlines and the unused bits of a last group, as Go's
    do.  The limit net/url sets on the number of parameters is left out. *)

From S2P Require Import Prelude GoStrings NetIP.

(** * encoding/base64 *)

(** The symbols of the URL alphabet; the standard one has + and / for the last
    two. *)
Definition sym (v : Z) : Z :=
  if v <? 26 then 65 + v else if v <? 52 then 97 + (v - 26) else if v <? 62 then 48 + (v - 52)
  else if v =? 62 then 45 else 95.

Definition idx (url : bool) (c : Z) : option Z :=
  if (65 <=? c) && (c <=? 90) then Some (c - 65)
  else if (97 <=? c) && (c <=? 122) then Some (c - 97 + 26)
  else if (48 <=? c) && (c <=? 57) then Some (c - 48 + 52)
  else if c =? (if url then 45 else 43) then Some 62
  else if c =? (if url then 95 else 47) then Some 63
  else None.

(** RawURLEncoding.EncodeToString. *)
Fixpoint b64enc (s : bytes) : bytes :=
  match s with
  | [] => []
  | [x] => [sym (x / 4); sym (x mod 4 * 16)]
  | [x; y] => [sym (x / 4); sym (x mod 4 * 16 + y / 16); sym (y mod 16 * 4)]
  | x :: y :: z :: s =>
      sym (x / 4) :: sym (x mod 4 * 16 + y / 16) :: sym (y mod 16 * 4 + z / 64) :: sym (z mod 64) :: b64enc s
  end.

(** One byte of a group, from two neighbouring values. *)
Definition oct0 (a b : Z) : Z := a * 4 + b / 16.
Definition oct1 (b c : Z) : Z := b mod 16 * 16 + c / 4.
Definition oct2 (c d : Z) : Z := c mod 4 * 64 + d.

(** A decoder after newlines are skipped: the raw URL one, or the padded
    standard one. *)
Fixpoint b64dec (url : bool) (s : bytes) : option bytes :=
  match s with
  | [] => Some []
  | [_] => None
  | [a; b] =>
      match idx url a, idx url b with
      | Some x, Some y => if url then Some [oct0 x y] else None
      | _, _ => None
      end
  | [a; b; c] =>
      match idx url a, idx url b, idx url c with
      | Some x, Some y, Some z => if url then Some [oct0 x y; oct1 y z] else None
      | _, _, _ => None
      end
  | a :: b :: c :: d :: s =>
      match idx url a, idx url b with
      | Some x, Some y =>
          match idx url c, idx url d with
          | Some z, Some w => (fun t => oct0 x y :: oct1 y z :: oct2 z w :: t) <$> b64dec url s
          | Some z, None =>
              if negb url && (d =? 61) && match s with [] => true | _ => false end then Some [oct0 x y; oct1 y z] else None
          | None, _ =>
              if negb url && (c =? 61) && (d =? 61) && match s with [] => true | _ => false end then Some [oct0 x y] else None
          end
      | _, _ => None
      end
  end.

Definition skipNewlines (s : bytes) : bytes := filter (fun c => c <> 10 /\ c <> 13) s.

Definition RawURLDecode (s : bytes) : option bytes := b64dec true (skipNewlines s).
Definition StdDecode (s : bytes) : option bytes := b64dec false (skipNewlines s).

(** * Query components *)

Definition unreserved (c : Z) : bool :=
  ((65 <=? c) && (c <=? 90)) || ((97 <=? c) && (c <=? 122)) || ((48 <=? c) && (c <=? 57)) ||
  (c =? 45) || (c =? 95) || (c =? 46) || (c =? 126).

Definition upperHex (d : Z) : Z := if d <? 10 then 48 + d else 65 + (d - 10).

Fixpoint QueryEscape (s : bytes) : bytes :=
  match s with
  | [] => []
  | c :: s =>
      (if unreserved c then [c] else if c =? 32 then [43] else [37; upperHex (c / 16); upperHex (c mod 16)]) ++ QueryEscape s
  end.

Fixpoint QueryUnescape (s : bytes) : option bytes :=
  match s with
  | [] => Some []
  | c :: s =>
      if c =? 37 then
        match s with
        | a :: b :: s =>
            match digit a, digit b with
            | Some x, Some y => cons (x * 16 + y) <$> QueryUnescape s
            | _, _ => None
            end
        | _ => None
        end
      else cons (if c =? 43 then 32 else c) <$> QueryUnescape s
  end.

(** One setting of a query; [None] when it is skipped. *)
Definition parseSetting (p : bytes) : option (bytes * bytes) :=
  if ContainsByte p 59 then None
  else match p with
       | [] => None
       | _ =>
           let '(key, value) := match Cut p 61 with Some kv => kv | None => (p, []) end in
           match QueryUnescape key, QueryUnescape value with
           | Some key, Some value => Some (key, value)
           | _, _ => None
           end
       end.

(** URL.Query: the settings in order. *)
Definition ParseQuery (query : bytes) : list (bytes * bytes) := omap parseSetting (Split query 38).

Definition valuesOf (q : list (bytes * bytes)) (k : bytes) : list bytes := snd <$> filter (fun kv => fst kv = k) q.

(** Values.Get. *)
Definition getValue (q : list (bytes * bytes)) (k : bytes) : bytes := default [] (head (valuesOf q k)).

(** utf8.ValidString. *)
Definition cont (lo hi c : Z) : bool := (lo <=? c) && (c <=? hi).

Fixpoint ValidString (s : bytes) : bool :=
  match s with
  | [] => true
  | c :: s =>
      if cont 0 127 c then ValidString s
      else match s with
           | [] => false
           | d :: s =>
               if cont 194 223 c then cont 128 191 d && ValidString s
               else match s with
                    | [] => false
                    | e :: s =>
                        if cont 224 239 c then
                          cont (if c =? 224 then 160 else 128) (if c =? 237 then 159 else 191) d && cont 128 191 e && ValidString s
                        else match s with
                             | [] => false
                             | f :: s =>
                                 cont 240 244 c && cont (if c =? 240 then 144 else 128) (if c =? 244 then 143 else 191) d &&
                                 cont 128 191 e && cont 128 191 f && ValidString s
                             end
                    end
           end
  end.

(** * Round trips *)

Lemma idx_sym v : 0 <= v < 64 -> idx true (sym v) = Some v.
Proof.
  intros Hv. pose proof (below_check (fun v => match idx true (sym v) with Some w => w =? v | None => false end) 6
    ltac:(vm_compute; reflexivity) v ltac:(change (2 ^ Z.of_nat 6) with 64; lia)) as H. cbv beta in H.
  destruct (idx true (sym v)); [|done]. by apply Z.eqb_eq in H as ->.
Qed.

Lemma sym_plain v : 0 <= v < 64 -> unreserved (sym v) = true /\ 0 <= sym v < 128.
Proof.
  intros Hv. pose proof (below_check (fun v => unreserved (sym v) && (0 <=? sym v) && (sym v <? 128)) 6
    ltac:(vm_compute; reflexivity) v ltac:(change (2 ^ Z.of_nat 6) with 64; lia)) as H. cbv beta in H.
  rewrite !andb_true_iff, Z.leb_le, Z.ltb_lt in H. tauto.
Qed.

(** Induction three bytes at a time. *)
Lemma triples_ind (P : bytes -> Prop) :
  P [] -> (forall x, P [x]) -> (forall x y, P [x; y]) -> (forall x y z s, P s -> P (x :: y :: z :: s)) -> forall s, P s.
Proof.
  intros H0 H1 H2 H3. assert (forall n s, (length s <= n)%nat -> P s) as H; [|by intros s; apply (H (length s))].
  induction n as [|n IH]; intros [|x [|y [|z s]]] Hl; try done; cbn in Hl; try lia. apply H3, IH. lia.
Qed.

Lemma b64enc_plain s : Forall is_byte s -> Forall (fun c => unreserved c = true /\ 0 <= c < 128) (b64enc s).
Proof.
  induction s as [|x|x y|x y z s IH] using triples_ind; intros Hs; cbn [b64enc]; [constructor|..].
  - apply Forall_cons in Hs as [Hx _]. unfold is_byte in *.
    repeat (apply Forall_cons; split; [apply sym_plain; Z.div_mod_to_equations; lia|]). constructor.
  - apply Forall_cons in Hs as [Hx [Hy _]%Forall_cons]. unfold is_byte in *.
    repeat (apply Forall_cons; split; [apply sym_plain; Z.div_mod_to_equations; lia|]). constructor.
  - apply Forall_cons in Hs as [Hx [Hy [Hz Hs]%Forall_cons]%Forall_cons]. unfold is_byte in *.
    repeat (apply Forall_cons; split; [apply sym_plain; Z.div_mod_to_equations; lia|]). by apply IH.
Qed.

Lemma b64dec_enc s : Forall is_byte s -> b64dec true (b64enc s) = Some s.
Proof.
  induction s as [|x|x y|x y z s IH] using triples_ind; intros Hs; [done|..].
  - apply Forall_cons in Hs as [Hx _]. unfold is_byte in *. cbn [b64enc b64dec].
    rewrite !idx_sym by (Z.div_mod_to_equations; lia). f_equal. f_equal. unfold oct0. Z.div_mod_to_equations. lia.
  - apply Forall_cons in Hs as [Hx [Hy _]%Forall_cons]. unfold is_byte in *. cbn [b64enc b64dec].
    rewrite !idx_sym by (Z.div_mod_to_equations; lia). unfold oct0, oct1. f_equal. f_equal; [|f_equal]; Z.div_mod_to_equations; lia.
  - apply Forall_cons in Hs as [Hx [Hy [Hz Hs]%Forall_cons]%Forall_cons]. unfold is_byte in *. cbn [b64enc b64dec].
    rewrite !idx_sym by (Z.div_mod_to_equations; lia). rewrite IH by done. cbn [fmap option_fmap option_map].
    unfold oct0, oct1, oct2. f_equal. f_equal; [|f_equal; [|f_equal]]; Z.div_mod_to_equations; lia.
Qed.

Lemma skipNewlines_plain s : Forall (fun c => unreserved c = true /\ 0 <= c < 128) s -> skipNewlines s = s.
Proof.
  intros Hs. unfold skipNewlines. induction Hs as [|c s [Hu _] _ IH]; [done|].
  rewrite filter_cons_True by (split; intros ->; done). by rewrite IH.
Qed.

Lemma RawURLDecode_enc s : Forall is_byte s -> RawURLDecode (b64enc s) = Some s.
Proof. intros Hs. unfold RawURLDecode. rewrite skipNewlines_plain by by apply b64enc_plain. by apply b64dec_enc. Qed.

Lemma b64enc_inj s t : Forall is_byte s -> Forall is_byte t -> b64enc s = b64enc t -> s = t.
Proof. intros Hs Ht E. apply (f_equal RawURLDecode) in E. rewrite !RawURLDecode_enc in E by done. by simplify_eq. Qed.

(** No padding between chunks of whole groups. *)
Lemma b64enc_app a b n : length a = (3 * n)%nat -> b64enc (a ++ b) = b64enc a ++ b64enc b.
Proof.
  revert a. induction n as [|n IH]; intros a Ha; [by destruct a|].
  destruct a as [|x [|y [|z a]]]; cbn in Ha; try lia. cbn [app b64enc]. rewrite IH by lia. done.
Qed.

Lemma b64enc_bytes s : Forall is_byte s -> Forall is_byte (b64enc s).
Proof. intros Hs. eapply Forall_impl; [by apply b64enc_plain|]. intros ? [_ ?]. unfold is_byte. lia. Qed.

Lemma b64enc_head s c r : Forall is_byte s -> b64enc s = c :: r -> unreserved c = true.
Proof. intros Hs E. pose proof (b64enc_plain s Hs) as H. rewrite E in H. by apply Forall_cons in H as [[? _] _]. Qed.

Lemma upperHex_digit d : 0 <= d < 16 -> digit (upperHex d) = Some d /\ (48 <= upperHex d <= 57 \/ 65 <= upperHex d <= 70).
Proof.
  intros Hd. unfold upperHex, digit. destruct (Z.ltb_spec d 10).
  - rewrite (proj2 (Z.leb_le _ _)), (proj2 (Z.leb_le _ _)) by lia. cbn [andb]. split; [f_equal|]; lia.
  - rewrite (proj2 (Z.leb_le 48 _)), (proj2 (Z.leb_gt _ 57)), (proj2 (Z.leb_gt 97 _)) by lia.
    rewrite (proj2 (Z.leb_le 65 _)), (proj2 (Z.leb_le _ 70)) by lia. cbn [andb]. split; [f_equal|]; lia.
Qed.

Lemma unreserved_plain c : unreserved c = true -> c <> 37 /\ c <> 43.
Proof. intros H. split; intros ->; done. Qed.

Lemma QueryUnescape_app s t : Forall is_byte s ->
  QueryUnescape (QueryEscape s ++ t) = app s <$> QueryUnescape t.
Proof.
  induction s as [|c s IH]; intros Hs; [cbn; by destruct (QueryUnescape t)|].
  apply Forall_cons in Hs as [Hc Hs]. unfold is_byte in Hc. cbn [QueryEscape]. rewrite <- app_assoc.
  destruct (unreserved c) eqn:Hu; [|destruct (Z.eqb_spec c 32) as [->|Hn]].
  - apply unreserved_plain in Hu as [H1 H2]. cbn [app QueryUnescape].
    rewrite (proj2 (Z.eqb_neq _ _) H1), (proj2 (Z.eqb_neq _ _) H2), IH by done. by destruct (QueryUnescape t).
  - cbn [app QueryUnescape]. change (43 =? 37) with false. cbn match. rewrite IH by done. by destruct (QueryUnescape t).
  - cbn [app QueryUnescape]. change (37 =? 37) with true. cbn match.
    rewrite (proj1 (upperHex_digit (c / 16) ltac:(Z.div_mod_to_equations; lia))).
    rewrite (proj1 (upperHex_digit (c mod 16) ltac:(Z.div_mod_to_equations; lia))). rewrite IH by done.
    replace (c / 16 * 16 + c mod 16) with c by (Z.div_mod_to_equations; lia). by destruct (QueryUnescape t).
Qed.

Lemma QueryUnescape_Escape s : Forall is_byte s -> QueryUnescape (QueryEscape s) = Some s.
Proof. intros Hs. pose proof (QueryUnescape_app s [] Hs) as H. rewrite app_nil_r in H. rewrite H. cbn. by rewrite app_nil_r. Qed.

(** The bytes of an escaped component: never a separator. *)
Definition sep (c : Z) : bool := (c =? 38) || (c =? 61) || (c =? 59) || (c =? 63) || (c =? 35).

Lemma unreserved_not_sep c : unreserved c = true -> sep c = false.
Proof. unfold sep. rewrite !orb_false_iff. intros H. repeat split; apply Z.eqb_neq; intros ->; done. Qed.

Lemma QueryEscape_sep s : Forall is_byte s -> Forall (fun c => sep c = false) (QueryEscape s).
Proof.
  induction s as [|c s IH]; intros Hs; [constructor|]. apply Forall_cons in Hs as [Hc Hs]. unfold is_byte in Hc.
  cbn [QueryEscape]. apply Forall_app. split; [|by apply IH].
  assert (forall d, 0 <= d < 16 -> sep (upperHex d) = false) as Hh.
  { intros d Hd. destruct (upperHex_digit d Hd) as [_ Hr]. unfold sep. rewrite !orb_false_iff, !Z.eqb_neq. lia. }
  destruct (unreserved c) eqn:Hu; [|destruct (c =? 32)].
  - apply Forall_cons; split; [by apply unreserved_not_sep|constructor].
  - apply Forall_cons; split; [done|constructor].
  - apply Forall_cons; split; [done|]. apply Forall_cons; split; [apply Hh; Z.div_mod_to_equations; lia|].
    apply Forall_cons; split; [apply Hh; Z.div_mod_to_equations; lia|constructor].
Qed.

Lemma QueryEscape_plain s : Forall (fun c => unreserved c = true) s -> QueryEscape s = s.
Proof. induction 1 as [|c s Hc _ IH]; [done|]. cbn [QueryEscape]. by rewrite Hc, IH. Qed.

Lemma nosep_notin s c : Forall (fun c => sep c = false) s -> sep c = true -> c ∉ s.
Proof. rewrite Forall_forall. intros H Hc Hin. by rewrite (H c Hin) in Hc. Qed.

Lemma ContainsByte_false s c : c ∉ s -> ContainsByte s c = false.
Proof.
  unfold ContainsByte. induction s as [|d s IH]; intros H; [done|]. apply not_elem_of_cons in H as [Hc Hs].
  cbn. rewrite IH by done. by rewrite (proj2 (Z.eqb_neq _ _)) by done.
Qed.

(** One rendered setting. *)
Definition setting (kv : bytes * bytes) : bytes := QueryEscape kv.1 ++ 61 :: QueryEscape kv.2.

Lemma parseSetting_setting k v : Forall is_byte k -> Forall is_byte v -> parseSetting (setting (k, v)) = Some (k, v).
Proof.
  intros Hk Hv. unfold parseSetting, setting. cbn [fst snd].
  pose proof (QueryEscape_sep k Hk) as Sk. pose proof (QueryEscape_sep v Hv) as Sv.
  rewrite ContainsByte_false.
  2:{ rewrite elem_of_app, elem_of_cons. intros [?|[?|?]]; [|done|]; [by eapply (nosep_notin _ 59) in Sk|by eapply (nosep_notin _ 59) in Sv]. }
  rewrite Cut_app by by apply nosep_notin. rewrite !QueryUnescape_Escape by done.
  by destruct (QueryEscape k ++ 61 :: QueryEscape v) eqn:E; [destruct (QueryEscape k)|].
Qed.

Lemma setting_nosep kv : Forall is_byte kv.1 -> Forall is_byte kv.2 -> 38 ∉ setting kv.
Proof.
  destruct kv as [k v]. cbn [fst snd]. intros Hk Hv. unfold setting. cbn [fst snd]. rewrite elem_of_app, elem_of_cons.
  intros [?|[?|?]]; [|done|]; [by eapply (nosep_notin _ 38 (QueryEscape_sep k Hk))|by eapply (nosep_notin _ 38 (QueryEscape_sep v Hv))].
Qed.

(** A rendered query: the settings, each after the first behind an &. *)
Definition rendered (kvs : list (bytes * bytes)) : bytes := join [38] (setting <$> kvs).

Lemma ParseQuery_join ps kvs : ps <> [] -> Forall2 (fun p kv => 38 ∉ p /\ parseSetting p = Some kv) ps kvs ->
  ParseQuery (join [38] ps) = kvs.
Proof.
  intros Hne H. unfold ParseQuery. rewrite Split_join.
  - clear Hne. induction H as [|p kv ps kvs [_ Hp] _ IH]; [done|]. cbn [omap list_omap]. by rewrite Hp, IH.
  - done.
  - clear Hne. induction H as [|p kv ps kvs [Hp _] _ IH]; [constructor|]. by constructor.
Qed.

Lemma settings_parse kvs : Forall (fun kv => Forall is_byte kv.1 /\ Forall is_byte kv.2) kvs ->
  Forall2 (fun p kv => 38 ∉ p /\ parseSetting p = Some kv) (setting <$> kvs) kvs.
Proof.
  induction 1 as [|[k v] kvs [Hk Hv] _ IH]; [constructor|]. cbn [fst snd] in *. constructor; [|exact IH].
  split; [by apply setting_nosep|by apply parseSetting_setting].
Qed.

Lemma ParseQuery_rendered kvs : Forall (fun kv => Forall is_byte kv.1 /\ Forall is_byte kv.2) kvs ->
  ParseQuery (rendered kvs) = kvs.
Proof.
  intros H. destruct (decide (kvs = [])) as [->|Hne]; [done|]. apply ParseQuery_join; [by destruct kvs|by apply settings_parse].
Qed.

Lemma ascii_valid s : Forall (fun c => 0 <= c < 128) s -> ValidString s = true.
Proof. induction 1 as [|c s Hc _ IH]; [done|]. cbn [ValidString]. unfold cont at 1. by rewrite (proj2 (Z.leb_le 0 c)), (proj2 (Z.leb_le c 127)) by lia. Qed.

(** No valid string holds the byte 255. *)
Lemma valid_bytes n s : (length s <= n)%nat -> ValidString s = true -> Forall (fun c => 0 <= c < 255) s.
Proof.
  assert (forall lo hi c, cont lo hi c = true -> lo <= c <= hi) as Hc by (intros lo hi c H; unfold cont in H; bool_to_prop; lia).
  revert s. induction n as [|n IH]; intros [|c s] Hl; [constructor|cbn in Hl; lia|constructor|]. cbn [length ValidString] in *.
  destruct (cont 0 127 c) eqn:E0; [intros H; apply Hc in E0; constructor; [lia|by apply IH; [lia|]]|].
  destruct s as [|d s]; [done|]. cbn [length] in Hl. destruct (cont 194 223 c) eqn:E1.
  { intros [Hd H]%andb_true_iff. apply Hc in E1, Hd. repeat (constructor; [lia|]). apply IH; [lia|done]. }
  destruct s as [|e s]; [done|]. cbn [length] in Hl. destruct (cont 224 239 c) eqn:E2.
  { rewrite !andb_true_iff. intros [[Hd He] H]. apply Hc in E2, He. apply Hc in Hd.
    assert (128 <= d <= 191) by (destruct (c =? 224), (c =? 237); lia). repeat (constructor; [lia|]). apply IH; [lia|done]. }
  destruct s as [|f s]; [done|]. cbn [length] in Hl. rewrite !andb_true_iff. intros [[[[H1 Hd] He] Hf] H].
  apply Hc in H1, He, Hf. apply Hc in Hd. assert (128 <= d <= 191) by (destruct (c =? 240), (c =? 244); lia).
  repeat (constructor; [lia|]). apply IH; [lia|done].
Qed.

Lemma b64enc_valid s : Forall is_byte s -> ValidString (b64enc s) = true.
Proof. intros Hs. apply ascii_valid. eapply Forall_impl; [by apply b64enc_plain|]. by intros c [_ ?]. Qed.

Lemma b64enc_query s : Forall is_byte s -> QueryEscape (b64enc s) = b64enc s.
Proof. intros Hs. apply QueryEscape_plain. eapply Forall_impl; [by apply b64enc_plain|]. by intros c [? _]. Qed.

(** * The decoders yield bytes *)

Lemma QueryUnescape_bytes n s t : (length s <= n)%nat -> Forall is_byte s -> QueryUnescape s = Some t -> Forall is_byte t.
Proof.
  revert s t. induction n as [|n IH]; intros s t Hl Hs H.
  { destruct s; [|cbn in Hl; lia]. by injection H as <-. }
  destruct s as [|c s]; [by injection H as <-|]. apply Forall_cons in Hs as [Hc Hs]. cbn in Hl. cbn [QueryUnescape] in H.
  destruct (c =? 37).
  - destruct s as [|a [|b s]]; [done..|]. apply Forall_cons in Hs as [_ [_ Hs]%Forall_cons].
    destruct (digit a) as [x|] eqn:Ex; [|done]. destruct (digit b) as [y|] eqn:Ey; [|done].
    apply digit_range in Ex, Ey. destruct (QueryUnescape s) as [u|] eqn:Eu; [|done]. injection H as <-.
    apply Forall_cons. split; [unfold is_byte; lia|]. apply (IH s); [cbn in Hl; lia|done|done].
  - destruct (QueryUnescape s) as [u|] eqn:Eu; [|done]. injection H as <-.
    apply Forall_cons. split; [destruct (c =? 43); [unfold is_byte; lia|done]|]. apply (IH s); [lia|done|done].
Qed.

Lemma split_from_bytes cur s c : Forall is_byte cur -> Forall is_byte s -> Forall (Forall is_byte) (split_from cur s c).
Proof.
  intros Hc Hs. revert cur Hc. induction Hs as [|d s Hd _ IH]; intros cur Hc; cbn [split_from].
  - constructor; [by apply Forall_rev|constructor].
  - destruct (d =? c); [constructor; [by apply Forall_rev|by apply IH; constructor]|by apply IH; constructor].
Qed.

Lemma ParseQuery_bytes s : Forall is_byte s ->
  Forall (fun kv => Forall is_byte kv.1 /\ Forall is_byte kv.2) (ParseQuery s).
Proof.
  intros Hs. unfold ParseQuery. apply Forall_forall. intros [k v] (p & Hp & H)%list_elem_of_omap. cbn.
  apply (proj1 (Forall_forall _ _) (split_from_bytes [] s 38 ltac:(constructor) Hs)) in Hp.
  unfold parseSetting in H. destruct (ContainsByte p 59); [done|]. destruct p as [|c p']; [done|].
  set (p := c :: p') in *. clearbody p.
  assert (forall a b, match Cut p 61 with Some kv => kv | None => (p, []) end = (a, b) -> Forall is_byte a /\ Forall is_byte b) as Hcut.
  { intros a b. destruct (Cut p 61) as [[x y]|] eqn:Ec; intros [= <- <-]; [|done].
    apply Cut_spec in Ec as [-> _]. apply Forall_app in Hp as [? Hp]. by apply Forall_cons in Hp as [_ ?]. }
  destruct (match Cut p 61 with Some kv => kv | None => (p, []) end) as [a b]. destruct (Hcut a b eq_refl) as [Ha Hb].
  destruct (QueryUnescape a) as [ka|] eqn:Ea; [|done]. destruct (QueryUnescape b) as [vb|] eqn:Eb; [|done]. injection H as <- <-.
  split; [by apply (QueryUnescape_bytes (length a) a)|by apply (QueryUnescape_bytes (length b) b)].
Qed.

(** An ASCII byte ends whatever stands before it. *)
Lemma ValidString_prefix n a c b : (length a <= n)%nat -> c < 128 -> ValidString (a ++ c :: b) = true -> ValidString a = true.
Proof.
  intros Hl Hc. revert a Hl. induction n as [|n IH]; intros a Hl H; [by destruct a; cbn in Hl; [|lia]|].
  assert (forall lo hi, 128 <= lo -> cont lo hi c = false) as Hno.
  { intros lo hi Hlo. unfold cont. by rewrite (proj2 (Z.leb_gt lo c)) by lia. }
  assert (forall x, 128 <= (if x =? 224 then 160 else 128)) as L1 by (intros x; destruct (x =? 224); lia).
  assert (forall x, 128 <= (if x =? 240 then 144 else 128)) as L2 by (intros x; destruct (x =? 240); lia).
  destruct a as [|x a]; [done|]. cbn [app ValidString] in H |- *. cbn in Hl. destruct (cont 0 127 x); [by apply IH; [lia|]|].
  destruct a as [|d a]; cbn [app] in H; cbn in Hl.
  { destruct b as [|e [|f b]]; rewrite !Hno in H by (done || lia || apply L1); rewrite ?andb_false_r in H; cbn [andb] in H; by repeat case_match. }
  destruct (cont 194 223 x).
  { apply andb_true_iff in H as [-> H]. cbn [andb]. apply IH; [lia|done]. }
  destruct a as [|e a]; cbn [app] in H; cbn in Hl.
  { destruct b as [|f b]; rewrite !Hno in H by lia; rewrite ?andb_false_r in H; cbn [andb] in H; by repeat case_match. }
  destruct (cont 224 239 x).
  { rewrite !andb_true_iff in H |- *. destruct H as [[H1 H2] H]. split; [done|]. apply IH; [lia|done]. }
  destruct a as [|f a]; cbn [app] in H; cbn in Hl.
  { rewrite !Hno in H by lia. by rewrite ?andb_false_r in H. }
  rewrite !andb_true_iff in H |- *. destruct H as [H1 H]. split; [done|]. apply IH; [lia|done].
Qed.
