(* ===== verification/NetURL.v ===== *)
(** Go's net/url: Parse, ResolveReference and String, as the playlist rewriter
    resolves references with them.

    Error values are dropped: [None] is any of Parse's errors. *)

From S2P Require Import Prelude GoStrings NetIP Encoding.

Inductive mode := MPath | MHost | MZone | MUser | MFragment.

#[export] Instance mode_eq_dec : EqDecision mode.
Proof. solve_decision. Defined.

Definition alnum (c : Z) : bool :=
  ((97 <=? c) && (c <=? 122)) || ((65 <=? c) && (c <=? 90)) || ((48 <=? c) && (c <=? 57)).

Definition oneOf (s : bytes) (c : Z) : bool := existsb (Z.eqb c) s.

(** The subdelimiters and brackets a host may hold, with a double quote at the
    end. *)
Definition hostMarks : bytes := bs "!$&'()*+,;=:[]<>" ++ [34].

Definition shouldEscape (c : Z) (m : mode) : bool :=
  if alnum c then false
  else if (bool_decide (m = MHost) || bool_decide (m = MZone)) && oneOf hostMarks c then false
  else if oneOf (bs "-_.~") c then false
  else if oneOf (bs "$&+,/:;=?@") c && negb (bool_decide (m = MHost) || bool_decide (m = MZone)) then
    match m with
    | MPath => c =? 63
    | MUser => oneOf (bs "@/?:") c
    | _ => false
    end
  else if bool_decide (m = MFragment) && oneOf (bs "!()*") c then false
  else true.

Definition escape1 (m : mode) (c : Z) : bytes :=
  if shouldEscape c m then [37; upperHex (c / 16); upperHex (c mod 16)] else [c].

Definition escape (s : bytes) (m : mode) : bytes := concat (escape1 m <$> s).

Fixpoint unescape (s : bytes) (m : mode) : option bytes :=
  match s with
  | [] => Some []
  | c :: s =>
      if c =? 37 then
        match s with
        | a :: b :: s =>
            match digit a, digit b with
            | Some x, Some y =>
                let v := x * 16 + y in
                if bool_decide (m = MHost) && (x <? 8) && negb (v =? 37) then None
                else if bool_decide (m = MZone) && negb (v =? 37) && negb (v =? 32) && shouldEscape v MHost then None
                else cons v <$> unescape s m
            | _, _ => None
            end
        | _ => None
        end
      else if (bool_decide (m = MHost) || bool_decide (m = MZone)) && (c <? 128) && shouldEscape c m then None
      else cons c <$> unescape s m
  end.

Record URL := MkURL {
  u_Scheme : bytes;
  u_Opaque : bytes;
  u_User : option (bytes * option bytes);
  u_Host : bytes;
  u_Path : bytes;
  u_RawPath : bytes;
  u_OmitHost : bool;
  u_ForceQuery : bool;
  u_RawQuery : bytes;
  u_Fragment : bytes;
  u_RawFragment : bytes
}.

(** getScheme: the scheme and the rest; [first] while at the first byte. *)
Fixpoint scheme_from (acc : bytes) (s : bytes) : option (option (bytes * bytes)) :=
  match s with
  | [] => Some None
  | c :: s =>
      if ((97 <=? c) && (c <=? 122)) || ((65 <=? c) && (c <=? 90)) then scheme_from (c :: acc) s
      else if ((48 <=? c) && (c <=? 57)) || oneOf (bs "+-.") c then
        match acc with [] => Some None | _ => scheme_from (c :: acc) s end
      else if c =? 58 then match acc with [] => None | _ => Some (Some (rev acc, s)) end
      else Some None
  end.

Definition getScheme (s : bytes) : option (bytes * bytes) :=
  match scheme_from [] s with
  | None => None
  | Some None => Some ([], s)
  | Some (Some r) => Some r
  end.

Definition validOptionalPort (port : bytes) : bool :=
  match port with
  | [] => true
  | c :: port => (c =? 58) && forallb (fun b => (48 <=? b) && (b <=? 57)) port
  end.

(** URL.Hostname, from the host of a parsed URL. *)
Definition Hostname (host : bytes) : bytes :=
  let h := match lastIndex host 58 with
           | Some colon => if validOptionalPort (drop colon host) then take colon host else host
           | None => host
           end in
  if HasPrefix h (bs "[") && HasSuffix h (bs "]") then take (length h - 2) (drop 1 h) else h.

(** strings.Index of "%25". *)
Fixpoint indexZone (s : bytes) : option nat :=
  if HasPrefix s (bs "%25") then Some 0%nat else match s with [] => None | _ :: s => S <$> indexZone s end.

(** The host between brackets: an IPv6 address, perhaps with a zone. *)
Definition literalHost (hostname : bytes) : option bytes :=
  match
    match indexZone hostname with
    | Some zone =>
        match unescape (take zone hostname) MHost, unescape (drop zone hostname) MZone with
        | Some h, Some z => Some (h ++ z)
        | _, _ => None
        end
    | None => unescape hostname MHost
    end
  with
  | None => None
  | Some h => match ParseAddr h with
              | Some (ip, _) => if (length ip =? 4)%nat then None else Some h
              | None => None
              end
  end.

Definition parseHost (host : bytes) : option bytes :=
  match lastIndex host 91 with
  | Some (S _) => None
  | Some O =>
      match lastIndex host 93 with
      | None => None
      | Some i =>
          if negb (validOptionalPort (drop (S i) host)) then None
          else match unescape (drop (S i) host) MHost, literalHost (drop 1 (take i host)) with
               | Some port, Some h => Some (91 :: h ++ 93 :: port)
               | _, _ => None
               end
      end
  | None =>
      match IndexByte host 58 with
      | Some i => if validOptionalPort (drop i host) then unescape host MHost else None
      | None => unescape host MHost
      end
  end.

Definition validUserinfo (s : bytes) : bool := forallb (fun c => alnum c || oneOf (bs "-._:~!$&'()*+,;=%@") c) s.

Definition parseUser (userinfo : bytes) : option (bytes * option bytes) :=
  match Cut userinfo 58 with
  | None => (fun u => (u, None)) <$> unescape userinfo MUser
  | Some (name, pw) =>
      match unescape name MUser, unescape pw MUser with
      | Some n, Some p => Some (n, Some p)
      | _, _ => None
      end
  end.

Definition parseAuthority (authority : bytes) : option (option (bytes * option bytes) * bytes) :=
  match lastIndex authority 64 with
  | None => (fun h => (None, h)) <$> parseHost authority
  | Some i =>
      match parseHost (drop (S i) authority) with
      | None => None
      | Some h => if validUserinfo (take i authority) then (fun u => (Some u, h)) <$> parseUser (take i authority) else None
      end
  end.

(** setPath: Path and RawPath. *)
Definition splitPath (p : bytes) : option (bytes * bytes) :=
  match unescape p MPath with
  | None => None
  | Some path => Some (path, if bool_decide (escape path MPath = p) then [] else p)
  end.

Definition validEncoded (s : bytes) (m : mode) : bool :=
  forallb (fun c => oneOf (bs "!$&'()*+,;=:@[]%") c || negb (shouldEscape c m)) s.

Definition encoded (raw path : bytes) (m : mode) : option bytes :=
  match raw with
  | [] => None
  | _ => if validEncoded raw m && bool_decide (unescape raw m = Some path) then Some raw else None
  end.

Definition EscapedPath (u : URL) : bytes :=
  match encoded (u_RawPath u) (u_Path u) MPath with
  | Some p => p
  | None => if bool_decide (u_Path u = bs "*") then bs "*" else escape (u_Path u) MPath
  end.

Definition EscapedFragment (u : URL) : bytes :=
  match encoded (u_RawFragment u) (u_Fragment u) MFragment with
  | Some p => p
  | None => escape (u_Fragment u) MFragment
  end.

Definition cut1 (s : bytes) (c : Z) : bytes * bytes := match Cut s c with Some p => p | None => (s, []) end.

(** parse, without the fragment. *)
Definition parseRest (u : bytes) : option URL :=
  if existsb (fun b => (b <? 32) || (b =? 127)) u then None
  else if bool_decide (u = bs "*") then Some (MkURL [] [] None [] (bs "*") [] false false [] [] [])
  else
    match getScheme u with
    | None => None
    | Some (scheme, rest) =>
        let scheme := ToLower scheme in
        let '(force, (rest, query)) :=
          if HasSuffix rest [63] && bool_decide (count_occ Z.eq_dec rest 63 = 1%nat) then (true, (take (length rest - 1) rest, []))
          else (false, cut1 rest 63) in
        if negb (HasPrefix rest [47]) && negb (bool_decide (scheme = [])) then
          Some (MkURL scheme rest None [] [] [] false force query [] [])
        else if negb (HasPrefix rest [47]) && ContainsByte (fst (cut1 rest 47)) 58 then None
        else
          let auth :=
            if (negb (bool_decide (scheme = [])) || negb (HasPrefix rest (bs "///"))) && HasPrefix rest (bs "//") then
              let a := drop 2 rest in
              let '(a, path) := match IndexByte a 47 with Some i => (take i a, drop i a) | None => (a, []) end in
              (fun uh => (uh, path, false)) <$> parseAuthority a
            else Some ((None, []), rest, negb (bool_decide (scheme = [])) && HasPrefix rest [47]) in
          match auth with
          | None => None
          | Some ((user, host), path, omit) =>
              match splitPath path with
              | None => None
              | Some (p, raw) => Some (MkURL scheme [] user host p raw omit force query [] [])
              end
          end
    end.

Definition Parse (rawURL : bytes) : option URL :=
  let '(u, frag) := cut1 rawURL 35 in
  match parseRest u with
  | None => None
  | Some url =>
      match frag with
      | [] => Some url
      | _ =>
          match unescape frag MFragment with
          | None => None
          | Some f =>
              Some (MkURL (u_Scheme url) (u_Opaque url) (u_User url) (u_Host url) (u_Path url) (u_RawPath url) (u_OmitHost url)
                (u_ForceQuery url) (u_RawQuery url) f (if bool_decide (escape f MFragment = frag) then [] else frag))
          end
      end
  end.

Definition userString (u : bytes * option bytes) : bytes :=
  escape u.1 MUser ++ match u.2 with Some p => 58 :: escape p MUser | None => [] end.

(** URL.String. *)
Definition URLString (u : URL) : bytes :=
  let hasUser := match u_User u with Some _ => true | None => false end in
  (match u_Scheme u with [] => [] | s => s ++ [58] end) ++
  match u_Opaque u with
  | [] =>
      let authority :=
        if negb (bool_decide (u_Scheme u = [])) || negb (bool_decide (u_Host u = [])) || hasUser then
          if u_OmitHost u && bool_decide (u_Host u = []) && negb hasUser then []
          else (if negb (bool_decide (u_Host u = [])) || negb (bool_decide (u_Path u = [])) || hasUser then bs "//" else []) ++
               match u_User u with Some ui => userString ui ++ [64] | None => [] end ++ escape (u_Host u) MHost
        else [] in
      let path := EscapedPath u in
      let authority := authority ++ (if negb (bool_decide (path = [])) && negb (HasPrefix path [47]) && negb (bool_decide (u_Host u = [])) then [47] else []) in
      authority ++
      (if bool_decide (u_Scheme u = []) && bool_decide (authority = []) && ContainsByte (fst (cut1 path 47)) 58 then bs "./" else []) ++ path
  | o => o
  end ++
  (if u_ForceQuery u || negb (bool_decide (u_RawQuery u = [])) then 63 :: u_RawQuery u else []) ++
  match u_Fragment u with [] => [] | _ => 35 :: EscapedFragment u end.

(** resolvePath: [dst] is what has been written, in reverse, behind the leading
    slash; [first] until something was. *)
Fixpoint dropElem (dst : bytes) : option bytes :=
  match dst with
  | [] => None
  | c :: dst => if c =? 47 then Some dst else dropElem dst
  end.

Fixpoint resolve_elems (elems : list bytes) (dst : bytes) (first : bool) : bytes :=
  match elems with
  | [] => dst
  | elem :: elems =>
      if bool_decide (elem = bs ".") then resolve_elems elems dst false
      else if bool_decide (elem = bs "..") then
        match dropElem dst with
        | None => resolve_elems elems [] true
        | Some dst => resolve_elems elems dst false
        end
      else resolve_elems elems (rev elem ++ (if first then dst else 47 :: dst)) false
  end.

Definition resolvePath (base ref : bytes) : bytes :=
  let full :=
    match ref with
    | [] => base
    | c :: _ => if c =? 47 then ref
                else match lastIndex base 47 with Some i => take (S i) base ++ ref | None => ref end
    end in
  match full with
  | [] => []
  | _ =>
      let elems := Split full 47 in
      let dst := rev (resolve_elems elems [] true) in
      let r := 47 :: dst ++ (if bool_decide (last elems = Some (bs ".")) || bool_decide (last elems = Some (bs "..")) then [47] else []) in
      match r with
      | _ :: 47 :: _ => drop 1 r
      | _ => r
      end
  end.

Definition setPath (u : URL) (p : bytes) : URL :=
  match splitPath p with
  | None => u
  | Some (path, raw) =>
      MkURL (u_Scheme u) (u_Opaque u) (u_User u) (u_Host u) path raw (u_OmitHost u) (u_ForceQuery u) (u_RawQuery u) (u_Fragment u) (u_RawFragment u)
  end.

Definition ResolveReference (u ref : URL) : URL :=
  let scheme := match u_Scheme ref with [] => u_Scheme u | s => s end in
  let with_ opaque user host path raw query frag rawFrag :=
    MkURL scheme opaque user host path raw (u_OmitHost ref) (u_ForceQuery ref) query frag rawFrag in
  if negb (bool_decide (u_Scheme ref = [])) || negb (bool_decide (u_Host ref = [])) || match u_User ref with Some _ => true | None => false end then
    setPath (with_ (u_Opaque ref) (u_User ref) (u_Host ref) (u_Path ref) (u_RawPath ref) (u_RawQuery ref) (u_Fragment ref) (u_RawFragment ref))
      (resolvePath (EscapedPath ref) [])
  else if negb (bool_decide (u_Opaque ref = [])) then
    with_ (u_Opaque ref) None [] [] (u_RawPath ref) (u_RawQuery ref) (u_Fragment ref) (u_RawFragment ref)
  else
    let inherit := bool_decide (u_Path ref = []) && negb (u_ForceQuery ref) && bool_decide (u_RawQuery ref = []) in
    let query := if inherit then u_RawQuery u else u_RawQuery ref in
    let '(frag, rawFrag) :=
      if inherit && bool_decide (u_Fragment ref = []) then (u_Fragment u, u_RawFragment u) else (u_Fragment ref, u_RawFragment ref) in
    if bool_decide (u_Path ref = []) && negb (bool_decide (u_Opaque u = [])) then
      with_ (u_Opaque u) None [] [] (u_RawPath ref) query frag rawFrag
    else
      setPath (with_ [] (u_User u) (u_Host u) (u_Path ref) (u_RawPath ref) query frag rawFrag)
        (resolvePath (EscapedPath u) (EscapedPath ref)).

(** * A reference resolves as browsers do *)

Example resolve_examples :
  let res (ref : string) := match Parse (bs "https://cdn.example/live/sub/index.m3u8?x=1"), Parse (bs ref) with
                 | Some b, Some r => URLString (ResolveReference b r)
                 | _, _ => []
                 end in
  res "seg-1.ts"%string = bs "https://cdn.example/live/sub/seg-1.ts" /\
  res "../up/seg.ts?a=b"%string = bs "https://cdn.example/live/up/seg.ts?a=b" /\
  res "/abs/./seg.ts"%string = bs "https://cdn.example/abs/seg.ts" /\
  res "//h:8080/x"%string = bs "https://h:8080/x" /\
  res "https://h/a%20b.ts"%string = bs "https://h/a%20b.ts" /\
  res "https://u:p@h/a/../b#frag"%string = bs "https://u:p@h/b#frag" /\
  res "https://h/a|b.ts"%string = bs "https://h/a%7Cb.ts".
Proof. vm_compute. repeat split. Qed.

(** * Escaping *)

Lemma escape_id s m : Forall (fun c => shouldEscape c m = false) s -> escape s m = s.
Proof.
  unfold escape. induction 1 as [|c s Hc _ IH]; [done|]. cbn [fmap list_fmap concat]. unfold escape1 at 1. rewrite Hc.
  cbn [app]. by f_equal.
Qed.

Lemma escape_length s m : (length s <= length (escape s m))%nat /\
  (existsb (fun c => shouldEscape c m) s = true -> (length s < length (escape s m))%nat).
Proof.
  unfold escape. induction s as [|c s [IH1 IH2]]; [done|]. cbn [fmap list_fmap concat existsb]. rewrite length_app.
  unfold escape1 at 1 3. destruct (shouldEscape c m); cbn [length orb]; split; intros; try specialize (IH2 ltac:(done)); lia.
Qed.

Lemma unescape_noop s m : 37 ∉ s -> m <> MHost -> m <> MZone -> unescape s m = Some s.
Proof.
  intros Hp H1 H2. induction s as [|c s IH]; [done|]. rewrite not_elem_of_cons in Hp. destruct Hp as [Hc Hs]. cbn [unescape].
  rewrite (proj2 (Z.eqb_neq c 37)) by congruence. rewrite !bool_decide_eq_false_2 by done. cbn [orb andb]. by rewrite IH.
Qed.

(** An unescaped host is the host that was written. *)
Lemma unescape_host s h : 37 ∉ s -> Forall (fun c => c < 128) s -> unescape s MHost = Some h ->
  h = s /\ Forall (fun c => shouldEscape c MHost = false) s.
Proof.
  intros Hp Hs. revert h. induction Hs as [|c s Hc _ IH]; intros h; cbn [unescape]; [by intros [= <-]|].
  rewrite not_elem_of_cons in Hp. destruct Hp as [Hc' Hp]. rewrite (proj2 (Z.eqb_neq c 37)) by congruence.
  rewrite bool_decide_eq_true_2 by done. rewrite (proj2 (Z.ltb_lt c 128)) by done. cbn [orb andb].
  destruct (shouldEscape c MHost) eqn:E; [done|]. destruct (unescape s MHost) as [t|]; [|done]. intros [= <-].
  destruct (IH Hp t eq_refl) as [-> ?]. split; [done|by constructor].
Qed.

Lemma escape_path_percent c : shouldEscape 37 MPath = true /\ (shouldEscape c MPath = false -> c <> 37).
Proof. split; [reflexivity|]. intros H ->. discriminate H. Qed.

Lemma unescape_escape s : Forall is_byte s -> unescape (escape s MPath) MPath = Some s.
Proof.
  unfold escape. induction 1 as [|c s Hc _ IH]; [done|]. cbn [fmap list_fmap concat]. unfold escape1 at 1.
  unfold is_byte in Hc. destruct (shouldEscape c MPath) eqn:E; cbn [app unescape].
  - rewrite Z.eqb_refl. destruct (upperHex_digit (c / 16)) as [-> _]; [split; [apply Z.div_pos; lia|apply Z.div_lt_upper_bound; lia]|].
    destruct (upperHex_digit (c mod 16)) as [-> _]; [apply Z.mod_pos_bound; lia|].
    rewrite IH. cbn. do 2 f_equal. pose proof (Z.div_mod c 16). lia.
  - destruct (escape_path_percent c) as [_ Hn]. rewrite (proj2 (Z.eqb_neq c 37)) by auto. cbn [orb andb]. by rewrite IH.
Qed.

(** * Paths without dot segments *)

Lemma split_from_ne cur s c : split_from cur s c <> [].
Proof. revert cur. induction s as [|d s IH]; intros cur; [done|]. cbn [split_from]. by destruct (d =? c). Qed.

Lemma split_concat cur s c : concat (cons c <$> split_from cur s c) = c :: rev cur ++ s.
Proof.
  revert cur. induction s as [|d s IH]; intros cur; cbn [split_from]; [cbn; by rewrite app_nil_r|].
  destruct (Z.eqb_spec d c) as [->|Hd]; cbn [fmap list_fmap concat]; rewrite IH; cbn [rev]; [cbn; by rewrite ?app_comm_cons|].
  by rewrite <- app_assoc.
Qed.

Definition dotted (e : bytes) : Prop := e = bs "." \/ e = bs "..".

Lemma resolve_elems_clean elems dst : Forall (fun e => ~ dotted e) elems ->
  resolve_elems elems dst false = rev (concat (cons 47 <$> elems)) ++ dst.
Proof.
  intros H. revert dst. induction H as [|e elems He _ IH]; intros dst; [done|]. cbn [resolve_elems].
  unfold dotted in He. rewrite !bool_decide_eq_false_2 by tauto. rewrite IH. cbn [fmap list_fmap concat app rev].
  by rewrite rev_app_distr, <- !app_assoc.
Qed.

Lemma resolvePath_clean p : HasPrefix p (bs "/") = true -> Contains p (bs "/.") = false -> resolvePath p [] = p.
Proof.
  change (bs "/") with [47]. intros Hp Hd. destruct p as [|c p]; [done|]. cbn [HasPrefix] in Hp. rewrite andb_true_r in Hp. apply Z.eqb_eq in Hp as <-.
  assert (Forall (fun e => ~ dotted e) (Split p 47)) as Hc.
  { apply Forall_forall. intros e He Hdot. apply not_true_iff_false in Hd. apply Hd. apply Contains_spec.
    apply list_elem_of_split in He as (l1 & l2 & E). pose proof (split_concat [] p 47) as Hs. unfold Split in E. rewrite E in Hs.
    rewrite fmap_app, concat_app in Hs. cbn [fmap list_fmap concat rev app] in Hs.
    exists (concat (cons 47 <$> l1)). destruct Hdot as [-> | ->]; cbn [app] in Hs.
    - exists (concat (cons 47 <$> l2)). symmetry. exact Hs.
    - exists (46 :: concat (cons 47 <$> l2)). symmetry. exact Hs. }
  unfold resolvePath. cbv beta iota zeta.
  assert (Split (47 :: p) 47 = [] :: Split p 47) as -> by reflexivity.
  assert (resolve_elems ([] :: Split p 47) [] true = rev (47 :: p)) as ->.
  { cbn [resolve_elems]. rewrite !bool_decide_eq_false_2 by done. cbn [rev app].
    rewrite resolve_elems_clean by done. unfold Split. rewrite split_concat, app_nil_r. reflexivity. }
  rewrite rev_involutive. assert (exists e, last ([] :: Split p 47) = Some e /\ e ∈ Split p 47) as (e & -> & He).
  { unfold Split. destruct (split_from [] p 47) as [|a l] eqn:E; [by apply split_from_ne in E|].
    destruct (last_is_Some (a :: l)) as [_ [e He]]; [done|]. exists e. split; [by rewrite last_cons_cons|by apply last_Some_elem_of]. }
  pose proof (proj1 (Forall_forall _ _) Hc e He) as Hn. unfold dotted in Hn.
  rewrite !bool_decide_eq_false_2 by (intros [= ->]; tauto). cbn [orb]. by rewrite app_nil_r.
Qed.

(** * Absolute URLs of the plain form *)

Definition httpScheme (sch : bytes) : Prop := sch = bs "http" \/ sch = bs "https".

(** No byte the parser would decode or refuse. *)
Definition plainByte (c : Z) : Prop := 32 < c < 127 /\ c <> 37 /\ c <> 35 /\ c <> 64 /\ c <> 92.

Record plainURL (sch host p q : bytes) : Prop := {
  pl_scheme : httpScheme sch;
  pl_host : host <> [] /\ 47 ∉ host /\ 63 ∉ host;
  pl_path : HasPrefix p [47] = true /\ 63 ∉ p;
  pl_query : q = [] \/ exists q', q = 63 :: q';
  pl_bytes : Forall plainByte host /\ Forall plainByte p /\ Forall plainByte q
}.

Lemma plain_notin s c : Forall plainByte s -> ~ plainByte c -> c ∉ s.
Proof. intros Hs Hc Hin. by apply (proj1 (Forall_forall _ _) Hs) in Hin. Qed.

Lemma not_plain c : c = 37 \/ c = 35 \/ c = 64 \/ c = 92 -> ~ plainByte c.
Proof. unfold plainByte. lia. Qed.

Lemma cut1_none s c : c ∉ s -> cut1 s c = (s, []).
Proof. intros H. unfold cut1, Cut. by rewrite (proj2 (IndexByte_None s c)). Qed.

Lemma cut1_app a b c : c ∉ a -> cut1 (a ++ c :: b) c = (a, b).
Proof. intros H. unfold cut1. by rewrite Cut_app. Qed.

(** Whether the query of a parsed URL is forced, and its text. *)
Definition queryOf (q : bytes) : bool * bytes := if bool_decide (q = [63]) then (true, []) else (false, drop 1 q).

Lemma cut_query rest q : 63 ∉ rest -> q = [] \/ (exists q', q = 63 :: q') ->
  (if HasSuffix (rest ++ q) [63] && bool_decide (count_occ Z.eq_dec (rest ++ q) 63 = 1%nat)
   then (true, (take (length (rest ++ q) - 1) (rest ++ q), [])) else (false, cut1 (rest ++ q) 63)) =
  (fst (queryOf q), (rest, snd (queryOf q))).
Proof.
  intros Hr Hq. assert (count_occ Z.eq_dec rest 63 = 0%nat) as H0 by (apply count_occ_not_In; by rewrite <- list_elem_of_In).
  destruct Hq as [->|[q' ->]].
  - rewrite app_nil_r, H0, andb_false_r, cut1_none by done. reflexivity.
  - rewrite count_occ_app, H0. cbn [Nat.add count_occ]. destruct (Z.eq_dec 63 63); [|done].
    unfold queryOf. destruct (decide (q' = [])) as [->|Hq].
    + rewrite !bool_decide_eq_true_2 by done. unfold HasSuffix. rewrite rev_app_distr. cbn [rev app HasPrefix Z.eqb Pos.eqb andb].
      rewrite length_app, Nat.add_sub, take_app_length. reflexivity.
    + rewrite cut1_app by done. rewrite (bool_decide_eq_false_2 (63 :: q' = [63])) by (intros [= ->]; done). cbn [fst snd drop].
      assert (HasSuffix (rest ++ 63 :: q') [63] && bool_decide (S (count_occ Z.eq_dec q' 63) = 1%nat) = false) as ->; [|done].
      apply andb_false_iff. destruct (decide (63 ∈ q')) as [Hin|Hin].
      * right. apply bool_decide_eq_false. rewrite list_elem_of_In, (count_occ_In Z.eq_dec) in Hin. lia.
      * left. apply not_true_iff_false. unfold HasSuffix. intros [t E]%HasPrefix_spec. apply Hin.
        rewrite rev_app_distr in E. cbn [rev] in E. rewrite <- app_assoc in E.
        destruct (rev q') as [|x l] eqn:Ex; [apply (f_equal (@rev Z)) in Ex; rewrite rev_involutive in Ex; by subst|].
        cbn [app] in E. injection E as -> _. rewrite list_elem_of_In, in_rev, Ex. by left.
Qed.

Definition plainParsed (sch host p q : bytes) : URL :=
  MkURL sch [] None host p (if bool_decide (escape p MPath = p) then [] else p) false (fst (queryOf q)) (snd (queryOf q)) [] [].

Lemma parseHost_id host h : Forall plainByte host -> parseHost host = Some h ->
  h = host /\ Forall (fun c => shouldEscape c MHost = false) host.
Proof.
  intros Hb. assert (forall s t, Forall plainByte s -> unescape s MHost = Some t -> t = s /\ Forall (fun c => shouldEscape c MHost = false) s) as Hu.
  { intros s t Hs. apply unescape_host; [apply (plain_notin s); [done|apply not_plain; tauto]|].
    eapply Forall_impl; [exact Hs|]. unfold plainByte. intros; lia. }
  unfold parseHost. destruct (lastIndex host 91) as [[|?]|] eqn:Ei; [|done|].
  - destruct (lastIndex host 93) as [i|] eqn:Ej; [|done]. destruct (negb _); [done|].
    destruct (unescape (drop (S i) host) MHost) as [port|] eqn:Ep; [|done].
    destruct (literalHost (drop 1 (take i host))) as [l|] eqn:El; [|done]. intros [= <-].
    apply Hu in Ep as [-> Hp]; [|by apply Forall_drop].
    assert (l = drop 1 (take i host) /\ Forall (fun c => shouldEscape c MHost = false) (drop 1 (take i host))) as [-> Hl].
    { unfold literalHost in El. set (s := drop 1 (take i host)) in *.
      assert (Forall plainByte s) as Hs by (by apply Forall_drop, Forall_take).
      destruct (indexZone s) as [z|] eqn:Ez.
      - exfalso. apply (plain_notin s 37 Hs (not_plain 37 ltac:(tauto))). clear -Ez. revert z Ez. induction s as [|c s IH]; intros z Ez; [done|].
        cbn [indexZone] in Ez. destruct (HasPrefix (c :: s) (bs "%25")) eqn:E.
        + apply HasPrefix_spec in E as [t E]. injection E as -> _. by left.
        + destruct (indexZone s); [|done]. right. by eapply IH.
      - destruct (unescape s MHost) as [h'|] eqn:Eu; [|done]. apply Hu in Eu as [-> ?]; [|done].
        destruct (ParseAddr s) as [[ip ?]|]; [|done]. destruct (_ =? _)%nat; [done|]. by injection El as <-. }
    destruct (lastIndex_Some _ _ _ Ei) as [Hh _]. destruct (lastIndex_Some _ _ _ Ej) as [Hi _]. cbn [take app drop] in Hh.
    destruct i as [|i]; [rewrite Hi in Hh; cbn in Hh; discriminate|].
    assert (host = 91 :: drop 1 (take (S i) host) ++ 93 :: drop (S (S i)) host) as Hd.
    { rewrite Hi at 1. rewrite Hh. reflexivity. }
    rewrite Hd at 2. rewrite <- Hd. split; [done|]. rewrite Hd. apply Forall_cons. split; [reflexivity|].
    apply Forall_app. split; [done|]. apply Forall_cons. by split.
  - assert (forall x, (if x : bool then unescape host MHost else None) = Some h -> unescape host MHost = Some h) as Hx by (by intros []).
    destruct (IndexByte host 58); [intros H%Hx|intros H]; by apply Hu.
Qed.

Definition plainText (sch host p q : bytes) : bytes := sch ++ bs "://" ++ host ++ p ++ q.

Lemma getScheme_http sch x : httpScheme sch -> getScheme (sch ++ bs "://" ++ x) = Some (sch, bs "//" ++ x).
Proof. intros [-> | ->]; reflexivity. Qed.

Lemma scheme_plain sch : httpScheme sch -> Forall plainByte (sch ++ bs "://") /\ 63 ∉ sch ++ bs "://" /\ sch <> [] /\ ToLower sch = sch.
Proof. intros [-> | ->]; (split; [unfold plainByte; by_decide|by_decide]). Qed.

Lemma IndexByte_path host p : 47 ∉ host -> HasPrefix p [47] = true -> IndexByte (host ++ p) 47 = Some (length host).
Proof. intros Hh Hp. apply HasPrefix_spec in Hp as [t ->]. cbn [app]. by apply IndexByte_app. Qed.

Lemma Parse_plain sch host p q : plainURL sch host p q ->
  Parse (plainText sch host p q) = (fun h => plainParsed sch h p q) <$> parseHost host.
Proof.
  intros [Hs (Hh0 & Hh1 & Hh2) (Hp0 & Hp1) Hq (Bh & Bp & Bq)]. destruct (scheme_plain sch Hs) as (Bs & Hs1 & Hs2 & Hs3).
  assert (Forall plainByte (plainText sch host p q)) as Bu.
  { unfold plainText. rewrite app_assoc, !(Forall_app plainByte). by rewrite Forall_app in Bs. }
  unfold Parse. rewrite cut1_none by (apply (plain_notin _ _ Bu), not_plain; tauto).
  assert (parseRest (plainText sch host p q) = (fun h => plainParsed sch h p q) <$> parseHost host) as ->.
  2:{ by destruct (parseHost host). }
  unfold parseRest.
  assert (existsb (fun b => (b <? 32) || (b =? 127)) (plainText sch host p q) = false) as ->.
  { apply not_true_iff_false. intros (b & Hb & E)%existsb_exists. apply list_elem_of_In in Hb.
    apply (proj1 (Forall_forall _ _) Bu) in Hb. unfold plainByte in Hb. bool_to_prop. lia. }
  rewrite bool_decide_eq_false_2.
  2:{ unfold plainText. destruct Hs as [-> | ->]; discriminate. }
  unfold plainText. rewrite getScheme_http by done. cbv beta iota zeta. rewrite Hs3.
  assert (bs "//" ++ host ++ p ++ q = (bs "//" ++ host ++ p) ++ q) as -> by (by rewrite <- !app_assoc).
  rewrite cut_query; [|rewrite !elem_of_app; intros [?|[?|?]]; [by apply (bool_decide_unpack (63 ∉ bs "//"))|done..]|done].
  cbn [fst snd]. assert (HasPrefix (bs "//" ++ host ++ p) [47] = true) as -> by reflexivity.
  assert (HasPrefix (bs "//" ++ host ++ p) (bs "//") = true) as -> by apply HasPrefix_app.
  rewrite (bool_decide_eq_false_2 (sch = [])) by done. cbn [negb andb orb].
  assert (drop 2 (bs "//" ++ host ++ p) = host ++ p) as -> by reflexivity.
  rewrite IndexByte_path by done. rewrite take_app_length, drop_app_length.
  unfold parseAuthority. rewrite lastIndex_None by (apply (plain_notin _ _ Bh), not_plain; tauto).
  destruct (parseHost host) as [h|]; [|done]. cbn [fmap option_fmap option_map].
  unfold splitPath. rewrite unescape_noop by (done || apply (plain_notin _ _ Bp), not_plain; tauto). reflexivity.
Qed.

(** Escaping makes no dot segment. *)
Lemma escape_dot s : Forall is_byte s -> Contains (escape s MPath) (bs "/.") = true -> Contains s (bs "/.") = true.
Proof.
  change (bs "/.") with [47; 46]. unfold escape. induction 1 as [|c s Hb _ IH]; [done|]. cbn [fmap list_fmap concat].
  assert (forall a t, a <> 47 -> Contains (a :: t) [47; 46] = Contains t [47; 46]) as Hskip.
  { intros a t Ha. cbn [Contains HasPrefix]. by rewrite (proj2 (Z.eqb_neq 47 a)) by done. }
  unfold escape1 at 1. destruct (shouldEscape c MPath) eqn:E; cbn [app].
  - assert (forall d, 0 <= d -> upperHex d <> 47) as Hx by (intros d; unfold upperHex; case_match; bool_to_prop; lia).
    unfold is_byte in Hb. assert (0 <= c / 16 /\ 0 <= c mod 16) as [H1 H2] by (split; [apply Z.div_pos|apply Z.mod_pos_bound]; lia).
    rewrite (Hskip 37), !Hskip by (done || by apply Hx). intros H. cbn [Contains]. by rewrite (IH H), orb_true_r.
  - cbn [Contains]. rewrite !orb_true_iff. intros [H|H]; [left|right; by apply IH].
    cbn [HasPrefix] in *. apply andb_true_iff in H as [H1 H2]. rewrite H1. cbn [andb].
    destruct s as [|d s]; [done|]. cbn [fmap list_fmap concat] in H2. unfold escape1 in H2 at 1.
    destruct (shouldEscape d MPath); cbn [app] in H2; [discriminate H2|done].
Qed.

Lemma EscapedPath_split u p e : u_Path u = p -> u_RawPath u = (if bool_decide (escape p MPath = e) then [] else e) ->
  unescape e MPath = Some p -> p <> bs "*" -> EscapedPath u = if validEncoded e MPath then e else escape p MPath.
Proof.
  intros Hp Hr Hu Hs. unfold EscapedPath, encoded. rewrite Hp, Hr. case_bool_decide as E.
  - rewrite bool_decide_eq_false_2 by done. rewrite <- E at 2. by destruct (validEncoded e MPath).
  - destruct e as [|x e]; [injection Hu as <-; by destruct E|]. rewrite (bool_decide_eq_true_2 _ Hu), andb_true_r.
    destruct (validEncoded (x :: e) MPath); [done|]. by rewrite bool_decide_eq_false_2 by done.
Qed.

(** What String makes of it: the path is escaped unless it could stand. *)
Lemma URLString_plain sch host p q : plainURL sch host p q -> Forall (fun c => shouldEscape c MHost = false) host ->
  Contains p (bs "/.") = false -> forall base,
  URLString (ResolveReference base (plainParsed sch host p q)) =
  plainText sch host (if validEncoded p MPath then p else escape p MPath) q.
Proof.
  intros [Hs (Hh0 & Hh1 & Hh2) (Hp0 & Hp1) Hq (Bh & Bp & Bq)] Hh Hd base. destruct (scheme_plain sch Hs) as (Bs & Hs1 & Hs2 & Hs3).
  assert (unescape p MPath = Some p) as Hu by (apply unescape_noop; [apply (plain_notin _ _ Bp), not_plain; tauto|done..]).
  set (e := if validEncoded p MPath then p else escape p MPath).
  assert (p <> bs "*") as Hstar by (intros ->; discriminate Hp0).
  assert (Forall is_byte p) as Hbyte by (eapply Forall_impl; [exact Bp|]; unfold plainByte, is_byte; intros; lia).
  assert (EscapedPath (plainParsed sch host p q) = e) as He by (by apply (EscapedPath_split _ p p)).
  assert (unescape e MPath = Some p) as Hue by (unfold e; destruct (validEncoded p MPath); [done|by apply unescape_escape]).
  assert (HasPrefix e [47] = true) as Hpre.
  { unfold e. destruct (validEncoded p MPath); [done|]. apply HasPrefix_spec in Hp0 as [t ->]. reflexivity. }
  assert (resolvePath e [] = e) as Hres.
  { apply resolvePath_clean; [exact Hpre|]. unfold e. destruct (validEncoded p MPath); [done|].
    apply not_true_iff_false. intros H%escape_dot; [by rewrite Hd in H|done]. }
  unfold ResolveReference. rewrite He, Hres. cbn [plainParsed u_Scheme]. rewrite (bool_decide_eq_false_2 (sch = [])) by done. cbn [negb orb].
  unfold setPath, splitPath. rewrite Hue. cbn [plainParsed u_Scheme u_Opaque u_User u_Host u_OmitHost u_ForceQuery u_RawQuery u_Fragment u_RawFragment].
  match goal with |- URLString ?u = _ => assert (EscapedPath u = e) as He2 end.
  { rewrite (EscapedPath_split _ p e) by done. unfold e. by destruct (validEncoded p MPath) eqn:E; [rewrite E|destruct (validEncoded (escape p MPath) MPath)]. }
  unfold URLString. rewrite He2. cbn [u_Scheme u_Opaque u_User u_Host u_Path u_OmitHost u_ForceQuery u_RawQuery u_Fragment u_RawFragment].
  destruct sch as [|s0 sch0] eqn:Esch; [done|]. rewrite <- Esch in *. rewrite (bool_decide_eq_false_2 (sch = [])), (bool_decide_eq_false_2 (host = [])) by congruence.
  cbn [negb orb andb]. rewrite Hpre. cbn [negb andb app]. rewrite andb_false_r. rewrite escape_id by done.
  unfold plainText. fold e. change (bs "://") with ([58] ++ bs "//"). rewrite !app_nil_r, <- !app_assoc. do 5 f_equal.
  unfold queryOf. destruct Hq as [->|[q' ->]]; [reflexivity|]. destruct (decide (q' = [])) as [->|Hq]; [reflexivity|].
  rewrite bool_decide_eq_false_2 by (intros [= ->]; done). cbn [fst snd drop orb]. by rewrite bool_decide_eq_false_2.
Qed.

(** * Every part of a URL is made of bytes *)

Ltac all_bytes :=
  repeat match goal with
    | H : Forall is_byte _ /\ _ |- _ => destruct H
    | |- Forall is_byte _ => assumption
    | |- Forall is_byte (_ ++ _) => apply Forall_app; split
    | |- Forall is_byte (_ :: _) => apply Forall_cons; split; [unfold is_byte; lia|]
    | |- Forall is_byte [] => constructor
    | |- Forall is_byte (take _ _) => apply Forall_take
    | |- Forall is_byte (drop _ _) => apply Forall_drop
    | |- Forall is_byte (if _ then _ else _) => case_match
    | |- Forall is_byte (match _ with _ => _ end) => case_match
    end; try assumption; try done.

Lemma unescape_bytes n s m t : (length s <= n)%nat -> Forall is_byte s -> unescape s m = Some t -> Forall is_byte t.
Proof.
  revert s t. induction n as [|n IH]; intros s t Hn Hs.
  { destruct s; [|cbn in Hn; lia]. cbn. intros [= <-]. constructor. }
  destruct s as [|c s]; [cbn; intros [= <-]; constructor|]. apply Forall_cons in Hs as [Hc Hs]. cbn [length] in Hn. cbn [unescape].
  destruct (c =? 37).
  - destruct s as [|a [|b s]]; [done|done|]. apply Forall_cons in Hs as [_ [_ Hs]%Forall_cons]. cbn [length] in Hn.
    destruct (digit a) as [x|] eqn:Ea; [|done]. destruct (digit b) as [y|] eqn:Eb; [|done].
    apply digit_range in Ea. apply digit_range in Eb. destruct (_ && _); [done|]. destruct (_ && _); [done|].
    destruct (unescape s m) as [u|] eqn:Eu; [|done]. intros [= <-]. apply Forall_cons. split; [unfold is_byte; lia|].
    eapply (IH s); [lia|done..].
  - destruct (_ && _); [done|]. destruct (unescape s m) as [u|] eqn:Eu; [|done]. intros [= <-]. apply Forall_cons. split; [done|].
    eapply (IH s); [lia|done..].
Qed.

Lemma escape_bytes s m : Forall is_byte s -> Forall is_byte (escape s m).
Proof.
  unfold escape. induction 1 as [|c s Hc _ IH]; [constructor|]. cbn [fmap list_fmap concat]. apply Forall_app. split; [|done].
  unfold escape1. unfold is_byte in Hc. destruct (shouldEscape c m); [|by constructor].
  assert (forall d, 0 <= d < 16 -> is_byte (upperHex d)) as Hd.
  { intros d ?. destruct (upperHex_digit d) as [_ ?]; [done|]. unfold is_byte. lia. }
  repeat (apply Forall_cons; split); [unfold is_byte; lia|apply Hd..|constructor].
  - split; [apply Z.div_pos; lia|apply Z.div_lt_upper_bound; lia].
  - apply Z.mod_pos_bound. lia.
Qed.

Definition urlBytes (u : URL) : Prop :=
  Forall is_byte (u_Scheme u) /\ Forall is_byte (u_Opaque u) /\
  match u_User u with Some (n, p) => Forall is_byte n /\ match p with Some p => Forall is_byte p | None => True end | None => True end /\
  Forall is_byte (u_Host u) /\ Forall is_byte (u_Path u) /\ Forall is_byte (u_RawPath u) /\ Forall is_byte (u_RawQuery u) /\
  Forall is_byte (u_Fragment u) /\ Forall is_byte (u_RawFragment u).

Lemma unescape_bytes' s m t : Forall is_byte s -> unescape s m = Some t -> Forall is_byte t.
Proof. by apply (unescape_bytes (length s)). Qed.

Lemma parseHost_bytes s h : Forall is_byte s -> parseHost s = Some h -> Forall is_byte h.
Proof.
  intros Hs. unfold parseHost, literalHost. intros H.
  repeat (case_match; simplify_eq/=); all_bytes;
  repeat match goal with H : unescape _ _ = Some ?t |- Forall is_byte ?t => eapply unescape_bytes'; [|exact H] end; all_bytes.
Qed.

Lemma cut1_bytes s c : Forall is_byte s -> Forall is_byte (fst (cut1 s c)) /\ Forall is_byte (snd (cut1 s c)).
Proof. intros Hs. unfold cut1, Cut. destruct (IndexByte s c); cbn; split; all_bytes. Qed.

Lemma parseAuthority_bytes s u h : Forall is_byte s -> parseAuthority s = Some (u, h) -> Forall is_byte h /\
  match u with Some (n, p) => Forall is_byte n /\ match p with Some p => Forall is_byte p | None => True end | None => True end.
Proof.
  intros Hs. unfold parseAuthority, parseUser, Cut. intros H.
  repeat (case_match; simplify_eq/=); split_and?; all_bytes;
  repeat match goal with
    | H : fmap _ _ = Some _ |- _ => apply fmap_Some in H as (? & ? & ?); simplify_eq/=
    | H : parseHost _ = Some ?t |- Forall is_byte ?t => eapply parseHost_bytes; [|exact H]
    | H : unescape _ _ = Some ?t |- Forall is_byte ?t => eapply unescape_bytes'; [|exact H] end; split_and?; all_bytes.
Qed.

Lemma scheme_bytes acc s a b : Forall is_byte acc -> Forall is_byte s -> scheme_from acc s = Some (Some (a, b)) ->
  Forall is_byte a /\ Forall is_byte b.
Proof.
  intros Ha Hs. revert acc Ha. induction Hs as [|c s Hc Hs IH]; intros acc Ha; cbn [scheme_from]; [done|].
  assert (Forall is_byte (c :: acc)) as Hca by (by constructor).
  destruct (_ || _); [by apply IH|]. destruct (_ || _); [destruct acc; [done|by apply IH]|].
  destruct (c =? 58); [|done]. destruct acc as [|x acc]; [done|]. intros [= <- <-]. split; [|done].
  apply Forall_rev in Ha. exact Ha.
Qed.

Lemma lower_bytes s : Forall is_byte s -> Forall is_byte (ToLower s).
Proof.
  intros H. unfold ToLower. apply Forall_fmap. eapply Forall_impl; [exact H|]. intros c Hc. unfold is_byte, toLower1 in *. cbn.
  case_match; bool_to_prop; lia.
Qed.

Lemma splitPath_bytes p a b : Forall is_byte p -> splitPath p = Some (a, b) -> Forall is_byte a /\ Forall is_byte b.
Proof.
  intros Hp. unfold splitPath. destruct (unescape p MPath) as [x|] eqn:E; [|done]. intros [= <- <-].
  split; [by eapply unescape_bytes'|all_bytes].
Qed.

Lemma parseRest_bytes s u : Forall is_byte s -> parseRest s = Some u -> urlBytes u.
Proof.
  intros Hs. unfold parseRest. destruct (existsb _ s); [done|]. case_bool_decide.
  { intros [= <-]. assert (Forall is_byte (bs "*")) by by_decide.
    unfold urlBytes. cbn [u_Scheme u_Opaque u_User u_Host u_Path u_RawPath u_RawQuery u_Fragment u_RawFragment]. split_and!; all_bytes. }
  destruct (getScheme s) as [[sch rest]|] eqn:Eg; [|done].
  assert (Forall is_byte sch /\ Forall is_byte rest) as [Hsch Hrest].
  { unfold getScheme in Eg. destruct (scheme_from [] s) as [[[a b]|]|] eqn:E; simplify_eq/=; [|split; all_bytes].
    by eapply (scheme_bytes []); [constructor|exact Hs|]. }
  apply lower_bytes in Hsch. set (sc := ToLower sch) in *. cbv zeta.
  set (fq := if _ : bool then (true, (take (length rest - 1) rest, [])) else (false, cut1 rest 63)).
  assert (Forall is_byte (fst (snd fq)) /\ Forall is_byte (snd (snd fq))) as [H1 H2].
  { unfold fq. destruct (_ && _); cbn [fst snd]; [split; all_bytes|by apply cut1_bytes]. }
  destruct fq as [force [r q]]. cbn [fst snd] in H1, H2.
  destruct (_ && _); [intros [= <-]; unfold urlBytes; cbn; split_and!; all_bytes|].
  destruct (_ && _); [done|]. set (auth := if _ : bool then _ else _).
  assert (forall us h p o, auth = Some (us, h, p, o) -> Forall is_byte p /\ Forall is_byte h /\
    match us with Some (n, p) => Forall is_byte n /\ match p with Some p => Forall is_byte p | None => True end | None => True end) as Ha.
  { intros us h p o. unfold auth. destruct (_ && _); [|intros [= <- <- <- <-]; split_and!; all_bytes].
    destruct (match IndexByte (drop 2 r) 47 with Some i => _ | None => _ end) as [a path] eqn:E.
    assert (Forall is_byte a /\ Forall is_byte path) as [Ha Hp].
    { destruct (IndexByte (drop 2 r) 47); simplify_eq; split; all_bytes. }
    destruct (parseAuthority a) as [[us' h']|] eqn:Ea; [|done]. intros [= <- <- <- <-].
    apply parseAuthority_bytes in Ea as [? ?]; done. }
  destruct auth as [[[[us h] p] o]|]; [|done]. destruct (Ha us h p o eq_refl) as (Hp & Hh & Hu).
  destruct (splitPath p) as [[a b]|] eqn:E; [|done]. apply splitPath_bytes in E as [? ?]; [|done].
  intros [= <-]. unfold urlBytes. cbn. split_and!; try done; all_bytes.
Qed.

Lemma Parse_bytes s u : Forall is_byte s -> Parse s = Some u -> urlBytes u.
Proof.
  intros Hs. unfold Parse. pose proof (cut1_bytes s 35 Hs) as [H1 H2]. destruct (cut1 s 35) as [r frag]. cbn [fst snd] in *.
  destruct (parseRest r) as [v|] eqn:E; [|done]. apply parseRest_bytes in E; [|done].
  destruct frag as [|x frag]; [by intros [= <-]|]. destruct (unescape (x :: frag) MFragment) as [f|] eqn:Ef; [|done].
  apply unescape_bytes' in Ef; [|done]. intros [= <-]. destruct E as (? & ? & ? & ? & ? & ? & ? & ? & ?).
  unfold urlBytes. cbn. split_and!; try done; all_bytes.
Qed.

Lemma encoded_bytes raw p m x : Forall is_byte raw -> encoded raw p m = Some x -> Forall is_byte x.
Proof. intros Hr. unfold encoded. destruct raw; [done|]. destruct (_ && _); [|done]. by intros [= <-]. Qed.

Lemma EscapedPath_bytes u : urlBytes u -> Forall is_byte (EscapedPath u).
Proof.
  intros (? & ? & ? & ? & ? & ? & ? & ? & ?). unfold EscapedPath. destruct (encoded _ _ _) eqn:E; [by eapply encoded_bytes; [|exact E]|].
  case_bool_decide; [by_decide|by apply escape_bytes].
Qed.

Lemma EscapedFragment_bytes u : urlBytes u -> Forall is_byte (EscapedFragment u).
Proof.
  intros (? & ? & ? & ? & ? & ? & ? & ? & ?). unfold EscapedFragment. destruct (encoded _ _ _) eqn:E; [by eapply encoded_bytes; [|exact E]|].
  by apply escape_bytes.
Qed.

Lemma URLString_bytes u : urlBytes u -> Forall is_byte (URLString u).
Proof.
  intros Hu. pose proof (EscapedPath_bytes u Hu) as Hp. pose proof (EscapedFragment_bytes u Hu) as Hf.
  destruct Hu as (Hs & Ho & Hus & Hh & _ & _ & Hq & _).
  assert (forall s, s = bs "//" \/ s = bs "./" -> Forall is_byte s) as Hlit by (intros s [-> | ->]; by_decide).
  unfold URLString, userString. cbv zeta. apply (escape_bytes _ MHost) in Hh.
  destruct (u_User u) as [[n [p|]]|]; cbn [fst snd]; [destruct Hus as [Hn Hpw]..|];
    try apply (escape_bytes _ MUser) in Hn; try apply (escape_bytes _ MUser) in Hpw; all_bytes; auto;
    repeat match goal with E : _ = ?x |- Forall is_byte ?x => rewrite <- E end; done || auto.
Qed.

Lemma resolvePath_bytes b r : Forall is_byte b -> Forall is_byte r -> Forall is_byte (resolvePath b r).
Proof.
  intros Hb Hr.
  assert (forall dst d, Forall is_byte dst -> dropElem dst = Some d -> Forall is_byte d) as Hdrop.
  { induction 1 as [|c dst ? ? IH]; cbn; [done|]. destruct (c =? 47); [by intros [= <-]|done]. }
  assert (forall elems dst first, Forall (Forall is_byte) elems -> Forall is_byte dst -> Forall is_byte (resolve_elems elems dst first)) as He.
  { intros elems dst first Hel. revert dst first. induction Hel as [|e elems He _ IH]; intros dst first Hd; cbn [resolve_elems]; [done|].
    case_bool_decide; [by apply IH|]. case_bool_decide.
    - destruct (dropElem dst) eqn:E; apply IH; [by eapply Hdrop|constructor].
    - apply IH. apply Forall_app. split; [by apply Forall_rev|]. all_bytes. }
  unfold resolvePath. cbv zeta. match goal with |- context [Split ?f 47] => set (full := f) end.
  assert (Forall is_byte full) as Hf by (unfold full; destruct r; all_bytes). clearbody full.
  assert (Forall is_byte (rev (resolve_elems (Split full 47) [] true))) as Hd.
  { apply Forall_rev, He; [|constructor]. by apply split_from_bytes. }
  set (dst := rev _) in *. clearbody dst. set (sl := if _ : bool then [47] else []).
  assert (Forall is_byte (dst ++ sl)) as Hds by (unfold sl; all_bytes).
  destruct full as [|x full]; [constructor|].
  assert (Forall is_byte (47 :: dst ++ sl)) as H47 by (constructor; [unfold is_byte; lia|done]).
  destruct (dst ++ sl) as [|y l]; [done|]. repeat case_match; done.
Qed.

Lemma ResolveReference_bytes u r : urlBytes u -> urlBytes r -> urlBytes (ResolveReference u r).
Proof.
  intros Hu Hr. assert (forall v p, urlBytes v -> Forall is_byte p -> urlBytes (setPath v p)) as Hset.
  { intros v p (? & ? & ? & ? & ? & ? & ? & ? & ?) Hp. unfold setPath. destruct (splitPath p) as [[a b]|] eqn:E; [|by unfold urlBytes].
    apply splitPath_bytes in E as [? ?]; [|done]. by unfold urlBytes. }
  pose proof (EscapedPath_bytes u Hu) as Hp. pose proof (EscapedPath_bytes r Hr) as Hq.
  pose proof (resolvePath_bytes _ _ Hq (Forall_nil_2 _)) as Hpq. pose proof (resolvePath_bytes _ _ Hp Hq) as Hpp.
  destruct Hu as (? & ? & ? & ? & ? & ? & ? & ? & ?), Hr as (? & ? & ? & ? & ? & ? & ? & ? & ?).
  unfold ResolveReference. cbv zeta.
  assert (Forall is_byte (match u_Scheme r with [] => u_Scheme u | s => s end)) as Hsch by (destruct (u_Scheme r); done).
  destruct (_ || _); [apply Hset; [|done]; by unfold urlBytes|].
  destruct (negb _); [by unfold urlBytes; cbn; split_and!; all_bytes|].
  destruct (if _ : bool then (u_Fragment u, u_RawFragment u) else _) as [f rf] eqn:E.
  assert (Forall is_byte f /\ Forall is_byte rf) as [? ?] by (destruct (_ && _); by simplify_eq).
  destruct (bool_decide (u_Path r = []) && negb (bool_decide (u_Opaque u = [])));
    [unfold urlBytes; cbn; split_and!; all_bytes|]. apply Hset; [|done]. unfold urlBytes; cbn; split_and!; all_bytes.
Qed.
