(* ===== verification/ProxyAuth.v ===== *)
(** Who may use the stream proxy (internal/streamproxy/auth.go, and the client
    address, destination and link generation of streamproxy.go).

    A request is what the checks look at.  AES-GCM and encoding/json come in
    through [Primitives], with the laws of [PrimitivesOk]: a ciphertext opens to
    a plaintext exactly when it is the sealing of it, and a token of valid UTF-8
    survives JSON. *)

From S2P Require Import Prelude GoStrings NetIP Netguard Encoding.

Record Request := MkReq {
  rq_Path : bytes;
  rq_RawQuery : bytes;
  rq_RemoteAddr : bytes;
  rq_ForwardedFor : list bytes   (* Header.Values("X-Forwarded-For") *)
}.

(** r.URL.Query(). *)
Definition Query (r : Request) : list (bytes * bytes) := ParseQuery (rq_RawQuery r).

(** * The client's address *)

Definition IPv6loopback : bytes := replicate 15 0 ++ [1].

Definition IsLoopback (ip : bytes) : bool :=
  match To4 ip with
  | Some ip4 => match ip4 with b :: _ => b =? 127 | [] => false end
  | None => Equal ip IPv6loopback
  end.

Definition peerIP (r : Request) : bytes :=
  ParseIP (match SplitHostPort (rq_RemoteAddr r) with Some (host, _) => host | None => rq_RemoteAddr r end).

Definition isTrustedProxy (nets : list IPNet) (ip : bytes) : bool :=
  match ip with
  | [] => false
  | _ => IsLoopback ip || existsb (fun n => netContains n ip) nets
  end.

(** The hops of the header values, from the left. *)
Definition hops (vals : list bytes) : list bytes := Split (join [44] vals) 44.

(** The walk over the hops from the right. *)
Fixpoint clientIP_loop (nets : list IPNet) (peer : bytes) (hs : list bytes) (leftmost : bytes) : bytes :=
  match hs with
  | [] => match leftmost with [] => peer | _ => leftmost end
  | h :: hs =>
      let ip := ParseIP (TrimSpace h) in
      match ip with
      | [] => peer
      | _ => if negb (isTrustedProxy nets ip) then ip else clientIP_loop nets peer hs ip
      end
  end.

Definition clientIP (nets : list IPNet) (r : Request) : bytes :=
  let peer := peerIP r in
  if negb (isTrustedProxy nets peer) then peer
  else match rq_ForwardedFor r with
       | [] => peer
       | _ => clientIP_loop nets peer (rev (hops (rq_ForwardedFor r))) []
       end.

(** * Destinations *)

Definition decodeDest (raw : bytes) : bytes :=
  if HasPrefix raw (bs "http://") || HasPrefix raw (bs "https://") then raw
  else match raw with
       | [] => []
       | _ =>
           match RawURLDecode raw with
           | Some b => b
           | None =>
               match StdDecode ((fun c => if c =? 32 then 43 else c) <$> raw) with
               | Some b => b
               | None => raw
               end
           end
       end.

(** tryBase64Decode; [None] when neither alphabet reads it. *)
Definition tryBase64Decode (s : bytes) : option bytes :=
  match RawURLDecode s with
  | Some b => Some b
  | None => StdDecode s
  end.

(** * Tokens *)

Definition tokenDestPrefixParam : bytes := bs "d_prefix".

Record token := MkToken {
  t_Endpoint : bytes;
  t_Params : gmap bytes bytes;
  t_Exp : Z;
  t_IP : bytes
}.

(** What the code takes from crypto/cipher and encoding/json. *)
Class Primitives := MkPrimitives {
  NonceSize : nat;
  Seal : bytes -> bytes -> bytes -> bytes;          (* key, nonce, plaintext *)
  Open : bytes -> bytes -> bytes -> option bytes;   (* key, nonce, ciphertext *)
  Marshal : token -> bytes;
  Unmarshal : bytes -> option token
}.

(** A token JSON can carry unchanged. *)
Definition token_ok (t : token) : Prop :=
  ValidString (t_Endpoint t) = true /\ ValidString (t_IP t) = true /\ in_int64 (t_Exp t) /\
  map_Forall (fun k v => ValidString k = true /\ ValidString v = true) (t_Params t).

Class PrimitivesOk (P : Primitives) : Prop := {
  NonceSize_pos : NonceSize <> 0%nat;
  Open_Seal key nonce ct plain : length nonce = NonceSize -> Open key nonce ct = Some plain <-> ct = Seal key nonce plain;
  Seal_bytes key nonce plain : Forall is_byte plain -> Forall is_byte (Seal key nonce plain);
  Marshal_bytes t : Forall is_byte (Marshal t);
  Unmarshal_Marshal t : token_ok t -> Unmarshal (Marshal t) = Some t;
  Unmarshal_ok plain t : Unmarshal plain = Some t -> token_ok t
}.

Inductive tokenErr := TNoSecret | TEncoding | TTooShort | TDecrypt | TPayload | TExpired | TIPMismatch.

(** The configuration the checks read; trustedProxyNets is a global of the
    package, set from it. *)
Record Config := MkCfg {
  c_Password : bytes;
  c_Secret : bytes;
  c_IPACL : list IPNet;
  c_TrustedProxies : list IPNet
}.

(** New drops a secret that is no AES key. *)
Definition New (c : Config) : Config :=
  if existsb (Nat.eqb (length (c_Secret c))) [16; 24; 32]%nat then c
  else MkCfg (c_Password c) [] (c_IPACL c) (c_TrustedProxies c).

Inductive authErr := errUnauthorized | errForbidden.

Section Tokens.
Context `{P : Primitives}.

(** signToken; [nonce] is what the random source gave, [None] when it failed. *)
Definition signToken (c : Config) (nonce : option bytes) (t : token) : option bytes :=
  match c_Secret c with
  | [] => None
  | _ => (fun nonce => b64enc (nonce ++ Seal (c_Secret c) nonce (Marshal t))) <$> nonce
  end.

Definition verifyToken (c : Config) (now : Z) (s client : bytes) : result tokenErr token :=
  match c_Secret c with
  | [] => Err TNoSecret
  | _ =>
      match RawURLDecode s with
      | None => Err TEncoding
      | Some ct =>
          let ns := NonceSize in
          if (length ct <? ns)%nat then Err TTooShort
          else match Open (c_Secret c) (take ns ct) (drop ns ct) with
               | None => Err TDecrypt
               | Some plain =>
                   match Unmarshal plain with
                   | None => Err TPayload
                   | Some t =>
                       if t_Exp t <? now then Err TExpired
                       else match t_IP t with
                            | [] => Ok t
                            | _ =>
                                let cs := match client with [] => [] | _ => IPString client end in
                                if bool_decide (cs = t_IP t) then Ok t else Err TIPMismatch
                            end
                   end
               end
      end
  end.

(** One sealed parameter against the query. *)
Definition paramOk (q : list (bytes * bytes)) (kv : bytes * bytes) : bool :=
  let '(k, v) := kv in
  if bool_decide (k = tokenDestPrefixParam) then HasPrefix (decodeDest (getValue q (bs "d"))) v
  else match valuesOf q k with
       | [] => bool_decide (v = [])
       | [w] => bool_decide (w = v)
       | _ => false
       end.

(** authorize; [None] is Go's nil.  Every failing parameter has the same
    answer, so the order of the map does not matter. *)
Definition authorize (c : Config) (now : Z) (r : Request) : option authErr :=
  let q := Query r in
  if match c_IPACL c with [] => false | acl => negb (existsb (fun n => netContains n (clientIP (c_TrustedProxies c) r)) acl) end
  then Some errForbidden
  else
    let tok := getValue q (bs "token") in
    if match tok with [] => false | _ => match c_Secret c with [] => false | _ => true end end then
      match verifyToken c now tok (clientIP (c_TrustedProxies c) r) with
      | Err _ => Some errUnauthorized
      | Ok t =>
          if match t_Endpoint t with [] => false | ep => negb (bool_decide (ep = rq_Path r)) end then Some errUnauthorized
          else if forallb (paramOk q) (map_to_list (t_Params t)) then None else Some errUnauthorized
      end
    else match c_Password c with
         | [] => None
         | pw => if bool_decide (getValue q (bs "api_password") = pw) then None else Some errUnauthorized
         end.

(** * Generating links *)

Definition validEndpoint (ep : bytes) : bool :=
  if bool_decide (ep = bs "/proxy/stream") || bool_decide (ep = bs "/proxy/ip") then true
  else if HasPrefix ep (bs "/proxy/hls/") || HasPrefix ep (bs "/proxy/mpd/") || HasPrefix ep (bs "/proxy/stream/")
       then forallb (fun c => negb ((c =? 63) || (c =? 35) || (c =? 92) || (c =? 32))) ep
       else false.

Definition maxTokenExpirySeconds : Z := 365 * 24 * 3600.

Inductive genErr := GUnauthorized (e : authErr) | GNoSecret | GBadJSON | GEndpoint | GExpiry | GDest | GBadIP | GSign.

(** The decoded body of /generate_url. *)
Record genRequest := MkGen {
  g_Endpoint : bytes;
  g_Params : gmap bytes bytes;
  g_Expiry : Z;
  g_IP : bytes
}.

(** url.Parse of a URL: its scheme and host. *)
Context (urlParse : bytes -> option (bytes * bytes)).

Definition validateGenerateRequest (endpoint : bytes) (params : gmap bytes bytes) (expirySeconds : Z) : option genErr :=
  if negb (validEndpoint endpoint) then Some GEndpoint
  else if (expirySeconds <? 1) || (maxTokenExpirySeconds <? expirySeconds) then Some GExpiry
  else match params !! bs "d" with
       | None => None
       | Some d =>
           match urlParse (decodeDest d) with
           | None => Some GDest
           | Some (scheme, host) =>
               if (negb (bool_decide (scheme = bs "http")) && negb (bool_decide (scheme = bs "https"))) || bool_decide (host = [])
               then Some GDest else None
           end
       end.

(** HandleGenerateURL at [nowNs] nanoseconds: the url and expires_at of the
    answer. *)
Definition HandleGenerateURL (c : Config) (nowNs : Z) (r : Request) (body : option genRequest) (nonce : option bytes)
    : result genErr (bytes * Z) :=
  match authorize c (nowNs / 1000000000) r with
  | Some e => Err (GUnauthorized e)
  | None =>
      match c_Secret c with
      | [] => Err GNoSecret
      | _ =>
          match body with
          | None => Err GBadJSON
          | Some req =>
              match validateGenerateRequest (g_Endpoint req) (g_Params req) (g_Expiry req) with
              | Some e => Err e
              | None =>
                  let ip := match g_IP req with [] => [] | _ => ParseIP (TrimSpace (g_IP req)) end in
                  if match g_IP req with [] => false | _ => match ip with [] => true | _ => false end end then Err GBadIP
                  else
                    let ipBind := match g_IP req with [] => [] | _ => IPString ip end in
                    let exp := (nowNs + g_Expiry req * 1000000000) / 1000000000 in
                    match signToken c nonce (MkToken (g_Endpoint req) (g_Params req) exp ipBind) with
                    | None => Err GSign
                    | Some signed => Ok (g_Endpoint req ++ bs "?token=" ++ signed, exp)
                    end
              end
          end
      end
  end.

End Tokens.

(** * The client's address, whatever a client forges *)

Definition hopIP (h : bytes) : bytes := ParseIP (TrimSpace h).

Lemma clientIP_loop_trusted nets peer hs rest lm :
  Forall (fun h => isTrustedProxy nets (hopIP h) = true) hs ->
  clientIP_loop nets peer (hs ++ rest) lm = clientIP_loop nets peer rest (match last hs with Some h => hopIP h | None => lm end).
Proof.
  revert lm. induction hs as [|h hs IH]; intros lm Hh; [done|]. apply Forall_cons in Hh as [H Hh].
  cbn [app clientIP_loop]. fold (hopIP h). destruct (hopIP h) as [|c ip] eqn:E; [done|]. rewrite <- E in *. clear c ip E.
  rewrite H. cbn [negb]. rewrite IH by done. destruct hs as [|g hs]; [done|].
  rewrite last_cons_cons. by destruct (last (g :: hs)) eqn:E; [|apply last_None in E].
Qed.

Lemma clientIP_loop_stop nets peer h rest lm :
  isTrustedProxy nets (hopIP h) = false ->
  clientIP_loop nets peer (h :: rest) lm = match hopIP h with [] => peer | ip => ip end.
Proof. intros H. cbn [clientIP_loop]. fold (hopIP h). rewrite H. by destruct (hopIP h). Qed.

Lemma split_from_cons cur a b sep : split_from cur (a ++ sep :: b) sep = split_from cur a sep ++ Split b sep.
Proof.
  revert cur. induction a as [|c a IH]; intros cur; cbn [app split_from].
  - by rewrite Z.eqb_refl.
  - destruct (c =? sep); cbn [app]; by rewrite IH.
Qed.

Lemma join_snoc sep l v : l <> [] -> join sep (l ++ [v]) = join sep l ++ sep ++ v.
Proof.
  destruct l as [|x l]; [done|]. intros _. cbn [app join]. rewrite fmap_app, concat_app. cbn. by rewrite app_nil_r, <- app_assoc.
Qed.

Lemma hops_snoc vals v : vals <> [] -> hops (vals ++ [v]) = hops vals ++ Split v 44.
Proof. intros H. unfold hops. rewrite join_snoc by done. apply split_from_cons. Qed.

(** A chain of addresses as a proxy appends them. *)
Definition chain (ips : list bytes) : bytes := join [44; 32] (IPString <$> ips).

Lemma trim_space s : Forall (fun c => plain c = true) s -> TrimSpace (32 :: s) = s.
Proof.
  intros H. unfold TrimSpace. cbn [trimLeft isSpace]. change (isSpace 32) with true. cbn match.
  exact (proj1 (trim_plain s H)).
Qed.

Lemma chain_hops ip ips : Forall is_addr (ip :: ips) ->
  Split (chain (ip :: ips)) 44 = IPString ip :: ((fun ip => 32 :: IPString ip) <$> ips).
Proof.
  intros Ha. assert (chain (ip :: ips) = join [44] (IPString ip :: ((fun ip => 32 :: IPString ip) <$> ips))) as ->.
  { unfold chain, join. cbn [fmap list_fmap]. by rewrite <- !list_fmap_compose. }
  assert (forall x, is_addr x -> 44 ∉ IPString x) as Hn.
  { intros x Hx Hin. apply IPString_plain in Hx as [Hp _]. by apply (proj1 (Forall_forall _ _) Hp) in Hin. }
  apply Forall_cons in Ha as [Hi Ha]. apply Split_join; [done|]. apply Forall_cons. split; [by apply Hn|].
  apply Forall_fmap. eapply Forall_impl; [exact Ha|]. intros x Hx [?|?]%elem_of_cons; [done|by apply (Hn x)].
Qed.

Lemma hopIP_String ip : is_addr ip ->
  hopIP (IPString ip) = As16 (canon ip) /\ hopIP (32 :: IPString ip) = As16 (canon ip).
Proof.
  intros Ha. unfold hopIP. pose proof (proj1 (IPString_plain ip Ha)) as Hp.
  rewrite trim_space, (proj1 (trim_plain _ Hp)) by done. by rewrite ParseIP_String.
Qed.

(** C17: clientIP returns the peer's own address unless the peer is a trusted
    proxy; then it is the right-most hop that is no trusted proxy, whatever
    stands to its left, the left-most hop when every one is trusted, and the
    peer when the hop cannot be parsed.  A chain that a trusted proxy appends to
    forged headers is thus read back exactly. *)
Theorem clientIP_exact nets r :
  let peer := peerIP r in let vals := rq_ForwardedFor r in
  let trusted h := isTrustedProxy nets (hopIP h) = true in
  (isTrustedProxy nets peer = false -> clientIP nets r = peer) /\
  (isTrustedProxy nets peer = true ->
    (vals = [] -> clientIP nets r = peer) /\
    (forall forged h proxies, vals <> [] -> hops vals = forged ++ h :: proxies -> Forall trusted proxies -> ~ trusted h ->
       clientIP nets r = match hopIP h with [] => peer | ip => ip end) /\
    (forall h hs, vals <> [] -> hops vals = h :: hs -> Forall trusted (h :: hs) -> clientIP nets r = hopIP h) /\
    (forall forged ip proxies, vals = forged ++ [chain (ip :: proxies)] -> Forall is_addr (ip :: proxies) ->
       Forall (fun p => isTrustedProxy nets (As16 (canon p)) = true) proxies ->
       isTrustedProxy nets (As16 (canon ip)) = false -> clientIP nets r = As16 (canon ip))).
Proof.
  intros peer vals trusted. unfold clientIP. fold peer vals. split; [by intros ->|]. intros ->. cbn [negb].
  assert (forall forged h proxies, vals <> [] -> hops vals = forged ++ h :: proxies -> Forall trusted proxies -> ~ trusted h ->
    match vals with [] => peer | _ :: _ => clientIP_loop nets peer (rev (hops vals)) [] end =
    match hopIP h with [] => peer | ip => ip end) as Hstop.
  { intros forged h proxies Hne E Hp Hh. rewrite match_cons, E by done. rewrite rev_app_distr. cbn [rev].
    rewrite <- !app_assoc. rewrite clientIP_loop_trusted by by apply Forall_rev. cbn [app].
    apply clientIP_loop_stop. by apply not_true_iff_false. }
  split; [by intros ->|]. split; [exact Hstop|]. split.
  - intros h hs Hne E Hh. rewrite match_cons, E by done. cbn [rev]. rewrite <- (app_nil_r (rev hs ++ [h])).
    rewrite clientIP_loop_trusted by (apply Forall_app; apply Forall_cons in Hh as [? ?]; split; [by apply Forall_rev|by constructor]).
    rewrite last_snoc. cbn. apply Forall_cons in Hh as [Hh _]. unfold trusted in Hh. by destruct (hopIP h).
  - intros forged ip proxies E Ha Hp Hi. assert (As16 (canon ip) <> []) as Hne.
    { apply Forall_cons in Ha as [Ha _]. pose proof (As16_addr _ (proj1 (canon_addr ip Ha))) as [Hl _]. intros E0. by rewrite E0 in Hl. }
    assert (exists left, hops vals = left ++ IPString ip :: ((fun ip => 32 :: IPString ip) <$> proxies)) as [left Hl].
    { rewrite E. destruct (decide (forged = [])) as [->|Hf].
      - exists []. unfold hops. cbn [app join fmap list_fmap concat]. rewrite app_nil_r. by apply chain_hops.
      - exists (hops forged). rewrite hops_snoc by done. by rewrite chain_hops. }
    apply Forall_cons in Ha as [Hai Hap]. destruct (hopIP_String ip Hai) as [Hip _].
    rewrite (Hstop left (IPString ip) ((fun ip => 32 :: IPString ip) <$> proxies)); [rewrite Hip; by destruct (As16 (canon ip))|by rewrite E; destruct forged|done| |].
    + apply Forall_fmap. apply Forall_forall. intros p Hin. unfold trusted. cbn.
      rewrite (proj2 (hopIP_String p (proj1 (Forall_forall _ _) Hap p Hin))). by apply (proj1 (Forall_forall _ _) Hp).
    + unfold trusted. by rewrite Hip, Hi.
Qed.

(** * What a token authorises *)

Section Scope.
Context `{POk : PrimitivesOk}.

Definition ipOk (t : token) (client : bytes) : Prop := t_IP t = [] \/ client <> [] /\ IPString client = t_IP t.

(** What the sealed parameters demand of a query. *)
Definition paramsOk (q : list (bytes * bytes)) (params : gmap bytes bytes) : Prop :=
  forall k v, params !! k = Some v ->
    if decide (k = tokenDestPrefixParam) then exists rest, decodeDest (getValue q (bs "d")) = v ++ rest
    else valuesOf q k = [v] \/ valuesOf q k = [] /\ v = [].

Definition inScope (now : Z) (client : bytes) (r : Request) (t : token) : Prop :=
  now <= t_Exp t /\ ipOk t client /\ (t_Endpoint t = [] \/ t_Endpoint t = rq_Path r) /\ paramsOk (Query r) (t_Params t).

Lemma paramOk_spec q k v : paramOk q (k, v) = true <->
  if decide (k = tokenDestPrefixParam) then exists rest, decodeDest (getValue q (bs "d")) = v ++ rest
  else valuesOf q k = [v] \/ valuesOf q k = [] /\ v = [].
Proof.
  unfold paramOk. destruct (decide (k = tokenDestPrefixParam)) as [E|E].
  - rewrite bool_decide_eq_true_2 by done. apply HasPrefix_spec.
  - rewrite bool_decide_eq_false_2 by done. destruct (valuesOf q k) as [|w [|w' l]]; [| |naive_solver].
    + rewrite bool_decide_eq_true. naive_solver.
    + rewrite bool_decide_eq_true. naive_solver.
Qed.

Lemma paramsOk_spec q m : forallb (paramOk q) (map_to_list m) = true <-> paramsOk q m.
Proof.
  rewrite forallb_forall. unfold paramsOk. split.
  - intros H k v Hkv. apply paramOk_spec, H, list_elem_of_In, elem_of_map_to_list, Hkv.
  - intros H [k v] Hin. apply list_elem_of_In, elem_of_map_to_list in Hin. by apply paramOk_spec, H.
Qed.

Lemma verifyToken_spec c now s client t :
  verifyToken c now s client = Ok t <->
  c_Secret c <> [] /\ now <= t_Exp t /\ ipOk t client /\
  exists nonce plain, RawURLDecode s = Some (nonce ++ Seal (c_Secret c) nonce plain) /\ length nonce = NonceSize /\
    Unmarshal plain = Some t.
Proof.
  unfold verifyToken, ipOk. destruct (c_Secret c) as [|b key] eqn:Ek; [split; [done|by intros [? _]]|]. rewrite <- Ek.
  assert (c_Secret c <> []) as Hk by (by rewrite Ek). clear b key Ek.
  destruct (RawURLDecode s) as [ct|]; [|split; [done|intros (_ & _ & _ & n & p & [=] & _)]].
  destruct (Nat.ltb_spec (length ct) NonceSize) as [Hlt|Hge].
  { split; [done|]. intros (_ & _ & _ & n & p & [= ->] & Hn & _). rewrite length_app in Hlt. lia. }
  assert (length (take NonceSize ct) = NonceSize) as Hl by (rewrite length_take; lia).
  destruct (Open (c_Secret c) (take NonceSize ct) (drop NonceSize ct)) as [plain|] eqn:Ho.
  - apply Open_Seal in Ho; [|done].
    assert (forall n p, ct = n ++ Seal (c_Secret c) n p -> length n = NonceSize -> p = plain) as Hinj.
    { intros n p E Hn. rewrite E, <- Hn, take_app_length, drop_app_length in Ho.
      pose proof (proj2 (Open_Seal (c_Secret c) n _ p Hn) eq_refl) as H1.
      pose proof (proj2 (Open_Seal (c_Secret c) n _ plain Hn) Ho) as H2. congruence. }
    destruct (Unmarshal plain) as [u|] eqn:Eu.
    2:{ split; [done|]. intros (_ & _ & _ & n & p & [= E] & Hn & Hu). apply Hinj in E; [|done]. congruence. }
    assert (forall n p, ct = n ++ Seal (c_Secret c) n p -> length n = NonceSize -> Unmarshal p = Some t -> u = t) as Hu.
    { intros n p E Hn Hu. apply Hinj in E; [|done]. congruence. }
    assert (u = t -> exists nonce p, Some ct = Some (nonce ++ Seal (c_Secret c) nonce p) /\ length nonce = NonceSize /\ Unmarshal p = Some t) as Hex.
    { intros ->. exists (take NonceSize ct), plain. rewrite <- Ho, take_drop. done. }
    destruct (Z.ltb_spec (t_Exp u) now) as [He|He].
    { split; [done|]. intros (_ & Hexp & _ & n & p & [= E] & Hn & Hup). rewrite (Hu n p E Hn Hup) in He. lia. }
    destruct (t_IP u) as [|x ip] eqn:Eip.
    { split; [intros [= <-]; split; [done|]; auto|]. intros (_ & _ & _ & n & p & [= E] & Hn & Hup). by rewrite (Hu n p E Hn Hup). }
    rewrite <- Eip. assert (t_IP u <> []) as Hne by (by rewrite Eip). clear x ip Eip. case_bool_decide as Hcs.
    + split.
      * intros [= <-]. split; [done|]. split; [done|]. split; [|auto]. right. by destruct client.
      * intros (_ & _ & _ & n & p & [= E] & Hn & Hup). by rewrite (Hu n p E Hn Hup).
    + split; [done|]. intros (_ & _ & Hip & n & p & [= E] & Hn & Hup). rewrite (Hu n p E Hn Hup) in *.
      destruct Hip as [?|[Hc Hip]]; [done|]. destruct Hcs. by destruct client.
  - split; [done|]. intros (_ & _ & _ & n & p & [= ->] & Hn & _). rewrite <- Hn, take_app_length, drop_app_length in Ho.
    by rewrite (proj2 (Open_Seal (c_Secret c) n _ p Hn) eq_refl) in Ho.
Qed.

Lemma verifyToken_signed c now nonce t tok client u :
  signToken c (Some nonce) t = Some tok -> token_ok t -> Forall is_byte nonce -> length nonce = NonceSize ->
  verifyToken c now tok client = Ok u <-> u = t /\ now <= t_Exp t /\ ipOk t client.
Proof.
  unfold signToken. intros Hs Ht Hb Hn. rewrite verifyToken_spec.
  assert (c_Secret c <> [] /\ tok = b64enc (nonce ++ Seal (c_Secret c) nonce (Marshal t))) as [Hk ->].
  { destruct (c_Secret c) eqn:E; [done|]. split; [done|]. by injection Hs. }
  rewrite RawURLDecode_enc by (apply Forall_app; split; [done|apply Seal_bytes, Marshal_bytes]).
  pose proof (Unmarshal_Marshal t Ht) as Hm. split.
  - intros (_ & He & Hip & n & p & [= E] & Hl & Hu). assert (n = nonce) as ->.
    { apply (f_equal (take NonceSize)) in E. rewrite <- Hn in E at 1. rewrite <- Hl in E. by rewrite !take_app_length in E. }
    apply app_inv_head in E. symmetry in E. apply (Open_Seal _ _ _ _ Hn) in E.
    rewrite (proj2 (Open_Seal _ _ _ _ Hn) eq_refl) in E. assert (u = t) as -> by congruence. done.
  - intros (-> & He & Hip). split; [done|]. split; [done|]. split; [done|]. eauto 6.
Qed.

Definition admitted (c : Config) (r : Request) : Prop :=
  c_IPACL c = [] \/ exists n, n ∈ c_IPACL c /\ netContains n (clientIP (c_TrustedProxies c) r) = true.

Definition acl_refuses (c : Config) (r : Request) : bool :=
  match c_IPACL c with [] => false | acl => negb (existsb (fun n => netContains n (clientIP (c_TrustedProxies c) r)) acl) end.

Lemma acl_admits c r : acl_refuses c r = false <-> admitted c r.
Proof.
  unfold acl_refuses, admitted. destruct (c_IPACL c) as [|n acl]; [split; [by left|done]|].
  rewrite negb_false_iff, existsb_exists. split.
  - intros (m & Hm & Hc). right. exists m. by rewrite list_elem_of_In.
  - intros [?|(m & Hm & Hc)]; [done|]. exists m. by rewrite <- list_elem_of_In.
Qed.

Lemma acl_refuses_spec c r : acl_refuses c r = true <-> ~ admitted c r.
Proof. rewrite <- acl_admits. by destruct (acl_refuses c r). Qed.

Definition tokenParam (r : Request) : bytes := getValue (Query r) (bs "token").
Definition passwordParam (r : Request) : bytes := getValue (Query r) (bs "api_password").

(** The endpoint check as the code writes it. *)
Lemma endpoint_spec (t : token) (path : bytes) :
  match t_Endpoint t with [] => false | ep => negb (bool_decide (ep = path)) end = false <->
  t_Endpoint t = [] \/ t_Endpoint t = path.
Proof.
  destruct (t_Endpoint t) as [|x ep]; [naive_solver|]. rewrite negb_false_iff, bool_decide_eq_true. naive_solver.
Qed.

Lemma authorize_forbidden c now r : authorize c now r = Some errForbidden <-> acl_refuses c r = true.
Proof.
  unfold authorize. fold (acl_refuses c r). destruct (acl_refuses c r); [done|]. split; [|done].
  destruct (match getValue _ _ with [] => _ | _ => _ end).
  - destruct (verifyToken _ _ _ _); [|done]. by repeat case_match.
  - by repeat case_match.
Qed.

(** With a token and a secret, the token decides. *)
Lemma authorize_token c now r : acl_refuses c r = false -> tokenParam r <> [] -> c_Secret c <> [] ->
  authorize c now r = None <->
  exists t, verifyToken c now (tokenParam r) (clientIP (c_TrustedProxies c) r) = Ok t /\
    (t_Endpoint t = [] \/ t_Endpoint t = rq_Path r) /\ paramsOk (Query r) (t_Params t).
Proof.
  intros Ha Ht Hs. unfold authorize. fold (acl_refuses c r). rewrite Ha. fold (tokenParam r).
  rewrite (match_cons (c_Secret c)), (match_cons (tokenParam r)) by done.
  destruct (verifyToken _ _ _ _) as [t|]; [|split; [done|by intros (? & [=] & _)]].
  destruct (match t_Endpoint t with [] => _ | _ => _ end) eqn:He.
  - split; [done|]. intros (u & [= <-] & H & _). apply endpoint_spec in H. congruence.
  - apply endpoint_spec in He. destruct (forallb _ _) eqn:Hp.
    + apply paramsOk_spec in Hp. split; [eauto|done].
    + split; [done|]. intros (u & [= <-] & _ & H). apply paramsOk_spec in H. congruence.
Qed.

Lemma authorize_password c now r : acl_refuses c r = false -> tokenParam r = [] \/ c_Secret c = [] ->
  authorize c now r = None <-> c_Password c = [] \/ passwordParam r = c_Password c.
Proof.
  intros Ha Ht. unfold authorize. fold (acl_refuses c r). rewrite Ha. fold (tokenParam r) (passwordParam r).
  assert (match tokenParam r with [] => false | _ => match c_Secret c with [] => false | _ => true end end = false) as ->.
  { destruct Ht as [-> | ->]; [done|]. by destruct (tokenParam r). }
  destruct (c_Password c) as [|x pw]; [naive_solver|]. case_bool_decide; naive_solver.
Qed.

(** A signed token authorises what is in its scope. *)
Lemma authorize_signed c now r nonce t :
  signToken c (Some nonce) t = Some (tokenParam r) -> token_ok t -> Forall is_byte nonce -> length nonce = NonceSize ->
  authorize c now r = None <-> admitted c r /\ inScope now (clientIP (c_TrustedProxies c) r) r t.
Proof.
  intros Hs Ht Hb Hn. pose proof NonceSize_pos as Hns.
  assert (c_Secret c <> []) as Hk by (intros E; unfold signToken in Hs; by rewrite E in Hs).
  assert (tokenParam r <> []) as Hne.
  { unfold signToken in Hs. destruct (c_Secret c); [done|]. injection Hs as <-. destruct nonce as [|a [|b [|d nonce]]]; cbn in *; [congruence|..];
      [destruct (Seal _ _ _) as [|? [|? ?]]|destruct (Seal _ _ _)|]; done. }
  destruct (acl_refuses c r) eqn:Ha.
  - rewrite (proj2 (authorize_forbidden c now r) Ha). split; [done|]. intros [H _]. by apply acl_refuses_spec in Ha.
  - rewrite authorize_token by done. apply acl_admits in Ha.
    unfold inScope. split.
    + intros (u & Hv & Hep & Hp). apply (verifyToken_signed _ _ _ _ _ _ _ Hs Ht Hb Hn) in Hv as (-> & He & Hip). done.
    + intros (_ & He & Hip & Hep & Hp). exists t. split; [|done]. by apply (verifyToken_signed _ _ _ _ _ _ _ Hs Ht Hb Hn).
Qed.

Lemma clientIP_addr nets r : clientIP nets r <> [] -> is_addr (clientIP nets r).
Proof.
  assert (forall s, ParseIP s <> [] -> is_addr (ParseIP s)) as HP.
  { intros s H. apply ParseIP_addr in H as [? ?]. split; [by right|done]. }
  unfold clientIP. destruct (negb _); [apply HP|].
  assert (forall hs lm, (lm <> [] -> is_addr lm) -> clientIP_loop nets (peerIP r) hs lm <> [] -> is_addr (clientIP_loop nets (peerIP r) hs lm)) as HL.
  { induction hs as [|h hs IH]; intros lm Hlm; cbn [clientIP_loop].
    - destruct lm; [apply HP|exact Hlm].
    - pose proof (HP (TrimSpace h)) as Hh. destruct (ParseIP (TrimSpace h)) as [|x ip]; [apply HP|].
      destruct (negb _); [exact Hh|by apply IH]. }
  destruct (rq_ForwardedFor r); [apply HP|by apply HL].
Qed.

Lemma IPString_valid ip : is_addr ip -> ValidString (IPString ip) = true.
Proof.
  intros Ha. apply ascii_valid, Forall_forall. intros c Hc. apply IPString_chars in Hc as [H|[-> | ->]]; [|lia..|done].
  unfold hexc in H. rewrite orb_true_iff, !andb_true_iff, !Z.leb_le in H. lia.
Qed.

Lemma signToken_valid c nonce t tok :
  signToken c (Some nonce) t = Some tok -> Forall is_byte nonce -> exists s, tok = b64enc s /\ Forall is_byte s.
Proof.
  unfold signToken. destruct (c_Secret c) as [|x key]; [done|]. intros [= <-] Hb. eexists. split; [done|].
  apply Forall_app. split; [done|]. apply Seal_bytes, Marshal_bytes.
Qed.

(** A body JSON can carry. *)
Definition gen_ok (req : genRequest) : Prop :=
  ValidString (g_Endpoint req) = true /\
  map_Forall (fun k v => ValidString k = true /\ ValidString v = true) (g_Params req).

(** authorize refuses exactly the clients outside the ACL with
    errForbidden; it admits a request with a token, on a server with a secret,
    exactly when the token was sealed under that secret, has not expired, and
    its client, endpoint and parameters fit the request; any other request when
    its password fits, if one is set.  A token that signToken made is one of
    those. *)
Lemma authorize_exact c now r :
  let client := clientIP (c_TrustedProxies c) r in
  (authorize c now r = Some errForbidden <-> ~ admitted c r) /\
  (tokenParam r <> [] -> c_Secret c <> [] ->
   authorize c now r = None <-> admitted c r /\
     exists nonce plain t, RawURLDecode (tokenParam r) = Some (nonce ++ Seal (c_Secret c) nonce plain) /\
       length nonce = NonceSize /\ Unmarshal plain = Some t /\ inScope now client r t) /\
  (tokenParam r = [] \/ c_Secret c = [] ->
   authorize c now r = None <-> admitted c r /\ (c_Password c = [] \/ passwordParam r = c_Password c)) /\
  (forall nonce t, signToken c (Some nonce) t = Some (tokenParam r) -> token_ok t ->
     Forall is_byte nonce -> length nonce = NonceSize ->
     authorize c now r = None <-> admitted c r /\ inScope now client r t).
Proof.
  intros client. split; [rewrite authorize_forbidden; apply acl_refuses_spec|].
  assert (~ admitted c r -> authorize c now r <> None) as Hno.
  { intros H. apply acl_refuses_spec in H. by rewrite (proj2 (authorize_forbidden c now r) H). }
  split; [|split; [|intros; by eapply authorize_signed]].
  - intros Ht Hs. destruct (acl_refuses c r) eqn:Ha.
    { apply acl_refuses_spec in Ha. split; [intros H; by apply Hno in H|by intros [? _]]. }
    rewrite authorize_token by done. apply acl_admits in Ha. unfold inScope. split.
    + intros (t & (_ & He & Hip & n & p & Hd & Hl & Hu)%verifyToken_spec & Hep & Hp). split; [done|]. by exists n, p, t.
    + intros (_ & n & p & t & Hd & Hl & Hu & He & Hip & Hep & Hp). exists t. split; [|done].
      apply verifyToken_spec. split; [done|]. split; [done|]. split; [done|]. by exists n, p.
  - intros Ht. destruct (acl_refuses c r) eqn:Ha.
    { apply acl_refuses_spec in Ha. split; [intros H; by apply Hno in H|by intros [? _]]. }
    rewrite authorize_password by done. apply acl_admits in Ha. naive_solver.
Qed.

(** A link from /generate_url is handed out only to an authorised request
    and opens exactly what was asked: its endpoint, with its parameters, from
    its address, until its expiry of at most a year; for no other request. *)
Lemma generated_scope urlParse c nowNs r req nonce url exp :
  HandleGenerateURL urlParse c nowNs r (Some req) (Some nonce) = Ok (url, exp) ->
  gen_ok req -> 0 <= nowNs < 2 ^ 63 -> Forall is_byte nonce -> length nonce = NonceSize ->
  authorize c (nowNs / 1000000000) r = None /\
  exp = nowNs / 1000000000 + g_Expiry req /\ 1 <= g_Expiry req <= maxTokenExpirySeconds /\
  exists tok, url = g_Endpoint req ++ bs "?token=" ++ tok /\ ParseQuery (bs "token=" ++ tok) = [(bs "token", tok)] /\
    forall now r', tokenParam r' = tok ->
      authorize c now r' = None <->
      admitted c r' /\ now <= exp /\ rq_Path r' = g_Endpoint req /\ paramsOk (Query r') (g_Params req) /\
      (g_IP req = [] \/ let ip := clientIP (c_TrustedProxies c) r' in
         ip <> [] /\ addrOf ip = addrOf (ParseIP (TrimSpace (g_IP req)))).
Proof.
  unfold HandleGenerateURL. intros H [Hgep Hgp] Hnow Hb Hn. destruct (authorize c _ r) eqn:Hau; [done|]. split; [done|].
  rewrite (match_cons (c_Secret c)) in H by (intros E; by rewrite E in H).
  destruct (validateGenerateRequest _ _ _ _) eqn:Hv; [done|].
  unfold validateGenerateRequest in Hv. destruct (negb (validEndpoint _)) eqn:Hve; [done|].
  destruct (_ || _) eqn:Hex in Hv; [done|]. apply orb_false_iff in Hex as [He1 He2]. apply Z.ltb_ge in He1, He2. clear Hv.
  assert (g_Endpoint req <> []) as Hne by (intros E; by rewrite E in Hve).
  set (ipb := match g_IP req with [] => [] | _ => IPString _ end) in H.
  destruct (match g_IP req with [] => false | _ => _ end) eqn:Hip; [done|].
  destruct (signToken _ _ _) as [tok|] eqn:Hs; [|done]. injection H as <- <-.
  rewrite Z.div_add in * by lia. split; [done|]. split; [done|].
  assert (g_IP req <> [] -> ParseIP (TrimSpace (g_IP req)) <> [] /\ ipb = IPString (ParseIP (TrimSpace (g_IP req)))) as Hipb.
  { intros Hi. unfold ipb in *. destruct (g_IP req); [done|]. split; [|done]. intros E. by rewrite E in Hip. }
  assert (forall x, ParseIP x <> [] -> is_addr (ParseIP x)) as Haddr.
  { intros x Hx. apply ParseIP_addr in Hx as [? ?]. split; [by right|done]. }
  assert (token_ok (MkToken (g_Endpoint req) (g_Params req) (nowNs / 1000000000 + g_Expiry req) ipb)) as Hok.
  { split; [done|]. cbn. split; [|split; [|done]].
    - destruct (decide (g_IP req = [])) as [E|E]; [by unfold ipb; rewrite E|]. destruct (Hipb E) as [Hp ->]. by apply IPString_valid, Haddr.
    - unfold in_int64, maxTokenExpirySeconds in *. assert (0 <= nowNs / 1000000000 <= 10 ^ 10) by (split; [apply Z.div_pos|apply Z.div_le_upper_bound]; lia). cbn [t_Exp]. lia. }
  exists tok. split; [done|]. destruct (signToken_valid _ _ _ _ Hs Hb) as (s & Etok & Hsb). split.
  - assert (bs "token=" ++ tok = rendered [(bs "token", tok)]) as ->.
    { unfold rendered, setting. cbn [fmap list_fmap join concat fst snd]. rewrite app_nil_r. by rewrite Etok, b64enc_query. }
    apply ParseQuery_rendered. constructor; [|constructor]. cbn. split; [by apply (bool_decide_unpack _)|].
    rewrite Etok. eapply Forall_impl; [by apply b64enc_plain|]. intros ? [_ ?]. unfold is_byte. lia.
  - intros now r' Htok. rewrite (authorize_signed c now r' nonce _ ltac:(rewrite Htok; exact Hs) Hok Hb Hn).
    unfold inScope, ipOk. cbn [t_Exp t_IP t_Endpoint t_Params].
    assert (g_Endpoint req = [] \/ g_Endpoint req = rq_Path r' <-> rq_Path r' = g_Endpoint req) as -> by naive_solver.
    destruct (decide (g_IP req = [])) as [E|E].
    + assert (ipb = []) as -> by (unfold ipb; by rewrite E). naive_solver.
    + destruct (Hipb E) as [Hp ->]. assert (IPString (ParseIP (TrimSpace (g_IP req))) <> []) as Hn0.
      { intros E0. pose proof (ParseAddr_canon _ (Haddr _ Hp)) as Hx. by rewrite E0 in Hx. }
      assert (forall x, x = clientIP (c_TrustedProxies c) r' -> x <> [] /\ IPString x = IPString (ParseIP (TrimSpace (g_IP req))) <->
        x <> [] /\ addrOf x = addrOf (ParseIP (TrimSpace (g_IP req)))) as Hx.
      { intros x ->. split; intros [Hx1 Hx2]; (split; [done|]); apply (IPString_addrOf _ _ (clientIP_addr _ _ Hx1) (Haddr _ Hp)); done. }
      rewrite (Hx _ eq_refl). naive_solver.
Qed.

(** C7: authorize refuses exactly the clients outside the ACL with errForbidden;
    it admits a request with a token, on a server with a secret, exactly when
    the token was sealed under that secret, has not expired, and its client,
    endpoint and parameters fit the request; any other request when its password
    fits, if one is set.  A link from /generate_url is handed out only to an
    authorised request and opens exactly what was asked: its endpoint, with its
    parameters, from its address, until its expiry of at most a year. *)
Theorem tokens_scoped :
  (forall c now r,
   let client := clientIP (c_TrustedProxies c) r in
  (authorize c now r = Some errForbidden <-> ~ admitted c r) /\
  (tokenParam r <> [] -> c_Secret c <> [] ->
   authorize c now r = None <-> admitted c r /\
     exists nonce plain t, RawURLDecode (tokenParam r) = Some (nonce ++ Seal (c_Secret c) nonce plain) /\
       length nonce = NonceSize /\ Unmarshal plain = Some t /\ inScope now client r t) /\
  (tokenParam r = [] \/ c_Secret c = [] ->
   authorize c now r = None <-> admitted c r /\ (c_Password c = [] \/ passwordParam r = c_Password c)) /\
  (forall nonce t, signToken c (Some nonce) t = Some (tokenParam r) -> token_ok t ->
     Forall is_byte nonce -> length nonce = NonceSize ->
     authorize c now r = None <-> admitted c r /\ inScope now client r t)) /\
  (forall urlParse c nowNs r req nonce url exp,
   HandleGenerateURL urlParse c nowNs r (Some req) (Some nonce) = Ok (url, exp) ->
  gen_ok req -> 0 <= nowNs < 2 ^ 63 -> Forall is_byte nonce -> length nonce = NonceSize ->
  authorize c (nowNs / 1000000000) r = None /\
  exp = nowNs / 1000000000 + g_Expiry req /\ 1 <= g_Expiry req <= maxTokenExpirySeconds /\
  exists tok, url = g_Endpoint req ++ bs "?token=" ++ tok /\ ParseQuery (bs "token=" ++ tok) = [(bs "token", tok)] /\
    forall now r', tokenParam r' = tok ->
      authorize c now r' = None <->
      admitted c r' /\ now <= exp /\ rq_Path r' = g_Endpoint req /\ paramsOk (Query r') (g_Params req) /\
      (g_IP req = [] \/ let ip := clientIP (c_TrustedProxies c) r' in
         ip <> [] /\ addrOf ip = addrOf (ParseIP (TrimSpace (g_IP req))))).
Proof. split; [exact authorize_exact|]. exact generated_scope. Qed.

End Scope.

(** * Witnesses *)

(** A concrete instance: a token as its fields behind separators no valid
    string holds, the expiry in binary, sealed by nothing. *)
Fixpoint pos_bits (p : positive) : bytes :=
  match p with
  | xH => []
  | xO p => 0 :: pos_bits p
  | xI p => 1 :: pos_bits p
  end.

Fixpoint bits_pos (b : bytes) : positive :=
  match b with
  | [] => xH
  | c :: b => if c =? 0 then xO (bits_pos b) else xI (bits_pos b)
  end.

Lemma bits_pos_bits p : bits_pos (pos_bits p) = p.
Proof. induction p as [p IH|p IH|]; cbn; by rewrite ?IH. Qed.

Lemma pos_bits_bytes p : Forall (fun c => 0 <= c < 255) (pos_bits p).
Proof. induction p; cbn; [apply Forall_cons; split; [lia|done]..|constructor]. Qed.

Definition expBits (n : Z) : bytes := match n with Z0 => [] | Zpos p => 0 :: pos_bits p | Zneg p => 1 :: pos_bits p end.
Definition bitsExp (b : bytes) : Z := match b with [] => 0 | c :: b => if c =? 0 then Zpos (bits_pos b) else Zneg (bits_pos b) end.

Lemma bitsExp_bits n : bitsExp (expBits n) = n.
Proof. destruct n; cbn; by rewrite ?bits_pos_bits. Qed.

Definition pairFields (kv : bytes * bytes) : list bytes := [kv.1; kv.2].
Fixpoint fieldPairs (l : list bytes) : list (bytes * bytes) := match l with k :: v :: l => (k, v) :: fieldPairs l | _ => [] end.

Definition tokenFields (t : token) : list bytes :=
  t_Endpoint t :: t_IP t :: expBits (t_Exp t) :: concat (pairFields <$> map_to_list (t_Params t)).
Definition ofFields (l : list bytes) : option token :=
  match l with
  | ep :: ip :: exp :: l => Some (MkToken ep (list_to_map (fieldPairs l)) (bitsExp exp) ip)
  | _ => None
  end.

Lemma fieldPairs_concat l : fieldPairs (concat (pairFields <$> l)) = l.
Proof. induction l as [|[k v] l IH]; [done|]. cbn. by rewrite <- IH at 2. Qed.

Lemma ofFields_token t : ofFields (tokenFields t) = Some t.
Proof. destruct t as [e p x ip]. unfold tokenFields, ofFields. cbn [t_Endpoint t_Params t_Exp t_IP]. by rewrite fieldPairs_concat, list_to_map_to_list, bitsExp_bits. Qed.

#[export] Instance token_ok_dec t : Decision (token_ok t).
Proof. unfold token_ok, in_int64. apply _. Defined.

Definition plainPrimitives : Primitives := {|
  NonceSize := 12;
  Seal key nonce plain := plain;
  Open key nonce ct := Some ct;
  Marshal t := uint8 <$> join [255] (tokenFields t);
  Unmarshal b := match ofFields (Split b 255) with
                 | Some t => if decide (token_ok t) then Some t else None
                 | None => None
                 end
|}.

Lemma tokenFields_ok t : token_ok t -> Forall (Forall (fun c => 0 <= c < 255)) (tokenFields t).
Proof.
  intros (He & Hi & _ & Hp). assert (forall s, ValidString s = true -> Forall (fun c => 0 <= c < 255) s) as Hv by (intros s; by apply (valid_bytes (length s))).
  unfold tokenFields. repeat (constructor; [by apply Hv|]). constructor.
  - destruct (t_Exp t); cbn [expBits]; [constructor|constructor; [lia|apply pos_bits_bytes]..].
  - apply Forall_concat, Forall_fmap, Forall_forall. intros [k v] Hkv%elem_of_map_to_list. apply Hp in Hkv as [? ?].
    cbn. repeat constructor; by apply Hv.
Qed.

Lemma plainPrimitives_ok : PrimitivesOk plainPrimitives.
Proof.
  split; cbn [plainPrimitives NonceSize Seal Open Marshal Unmarshal].
  - done.
  - intros key nonce ct plain _. naive_solver.
  - done.
  - intros t. apply Forall_fmap, Forall_true. intros c. apply uint8_range.
  - intros t Ht. pose proof (tokenFields_ok t Ht) as Hf.
    assert (uint8 <$> join [255] (tokenFields t) = join [255] (tokenFields t)) as ->.
    { rewrite <- (list_fmap_id (join [255] (tokenFields t))) at 2. apply Forall_fmap_ext_1.
      assert (Forall (fun c => 0 <= c < 256) (join [255] (tokenFields t))) as Hb.
      { destruct Hf as [|x l Hx Hl]; [constructor|]. unfold join. apply Forall_app. split; [eapply Forall_impl; [exact Hx|]; intros; cbn in *; lia|].
        apply Forall_concat, Forall_fmap. eapply Forall_impl; [exact Hl|]. intros y Hy. apply Forall_app. split; [constructor; [lia|constructor]|].
        eapply Forall_impl; [exact Hy|]. intros; cbn in *; lia. }
      eapply Forall_impl; [exact Hb|]. intros c Hc. by apply uint8_id. }
    rewrite Split_join; [|done|].
    + rewrite ofFields_token. by rewrite decide_True.
    + eapply Forall_impl; [exact Hf|]. intros s Hs Hin. apply (proj1 (Forall_forall _ _) Hs) in Hin. lia.
  - intros b t. destruct (ofFields _) as [u|]; [|done]. destruct (decide (token_ok u)); [|done]. by intros [= <-].
Qed.

Definition wit_nonce : bytes := replicate 12 7.
Definition wit_cfg : Config :=
  MkCfg (bs "pw") (replicate 16 1) (omap ParseCIDR [bs "203.0.113.0/24"]) [].
Definition wit_token : token :=
  MkToken (bs "/proxy/stream") {[ bs "d" := b64enc (bs "http://a/b") ]} 100 (bs "203.0.113.9").
Definition wit_signed : bytes := b64enc (wit_nonce ++ join [255] (tokenFields wit_token)).
Definition wit_req : Request :=
  MkReq (bs "/proxy/stream") (bs "d=aHR0cDovL2EvYg&token=" ++ wit_signed) (bs "203.0.113.9:5000") [bs "10.0.0.1"].

Example wit_req_ok : authorize (P := plainPrimitives) wit_cfg 100 wit_req = None.
Proof. vm_compute. reflexivity. Qed.
Example wit_req_expired : authorize (P := plainPrimitives) wit_cfg 101 wit_req = Some errUnauthorized.
Proof. vm_compute. reflexivity. Qed.

(** A request relayed by a local proxy, which appended the client to what the
    client forged. *)
Definition wit_relayed : Request :=
  MkReq (bs "/proxy/stream") [] (bs "127.0.0.1:4711") [bs "8.8.8.8, 127.0.0.1"; chain [[203; 0; 113; 9]; [127; 0; 0; 1]]].

Lemma clientIP_exact_witness : clientIP [] wit_relayed = As16 [203; 0; 113; 9].
Proof.
  pose proof (clientIP_exact [] wit_relayed) as H. cbn zeta in H.
  destruct H as [_ H]. destruct (H ltac:(vm_compute; reflexivity)) as (_ & _ & _ & Hc).
  apply (Hc [bs "8.8.8.8, 127.0.0.1"] [203; 0; 113; 9] [[127; 0; 0; 1]]); [done| | |vm_compute; reflexivity].
  - apply Forall_cons. split; [by apply is_addr_check|]. apply Forall_cons. split; [by apply is_addr_check|constructor].
  - apply Forall_cons. split; [vm_compute; reflexivity|constructor].
Defined.

Definition wit_gen : genRequest := MkGen (bs "/proxy/stream") {[ bs "d" := bs "http://a/b" ]} 60 (bs "203.0.113.9").
Definition wit_parse (u : bytes) : option (bytes * bytes) := Some (bs "http", bs "a").

Lemma tokens_scoped_witness :
  (authorize (P := plainPrimitives) wit_cfg 100 wit_req = None /\
  authorize (P := plainPrimitives) wit_cfg 101 wit_req <> None) /\
  match HandleGenerateURL (P := plainPrimitives) wit_parse wit_cfg 50000000000 wit_req (Some wit_gen) (Some wit_nonce) with
  | Ok (url, exp) => exp = 110
  | Err _ => False
  end.
Proof.
  pose proof (tokens_scoped (POk := plainPrimitives_ok)) as [Hauth Hgen]. split.
  { assert (Forall is_byte wit_nonce) as Hb by (apply Forall_replicate; unfold is_byte; lia).
    assert (token_ok wit_token) as Hok by by_decide.
    pose proof (fun now => Hauth wit_cfg now wit_req) as H. cbn zeta in H.
    pose proof (fun now => proj2 (proj2 (proj2 (H now))) wit_nonce wit_token ltac:(vm_compute; reflexivity)
      Hok Hb eq_refl) as Hs.
    split.
    - apply Hs. split.
      + right. exists (MkNet [203; 0; 113; 0] [255; 255; 255; 0]). split; [|vm_compute; reflexivity].
        vm_compute. left.
      + split; [vm_compute; discriminate|]. split; [right; split; vm_compute; [discriminate|reflexivity]|].
        split; [right; vm_compute; reflexivity|]. apply paramsOk_spec. vm_compute. reflexivity.
    - intros E. apply Hs in E as [_ [He _]]. vm_compute in He. by destruct He. }
  assert (match HandleGenerateURL (P := plainPrimitives) wit_parse wit_cfg 50000000000 wit_req (Some wit_gen) (Some wit_nonce) with
          | Ok _ => true | Err _ => false end = true) as Hd by (vm_compute; reflexivity).
  destruct (HandleGenerateURL _ _ _ _ _ _) as [[url exp]|e] eqn:E; [|discriminate].
  apply Hgen in E as (_ & E & _).
  - rewrite E. reflexivity.
  - unfold gen_ok. by_decide.
  - lia.
  - apply Forall_replicate. unfold is_byte. lia.
  - reflexivity.
Defined.
