(* ===== verification/ProxyURL.v ===== *)
(** The links the stream proxy writes into what it rewrites
    (internal/streamproxy/streamproxy.go, dash.go): the options of a request, the
    proxy URL of one destination, the DASH template URL, and the credential each
    carries.

    A map's iteration order is an argument: [keys] for the query of a request,
    [reqOrder] and [respOrder] for its header overrides. *)

From S2P Require Import Prelude GoStrings NetIP Netguard Encoding ProxyAuth.

(** * Options *)

(** strings.CutPrefix. *)
Definition CutPrefix (s pre : bytes) : option bytes := if HasPrefix s pre then Some (drop (length pre) s) else None.

Record Options := MkOpts {
  o_Dest : bytes;
  o_ReqHeaders : header;
  o_RespHeaders : header;
  o_APIPassword : bytes;
  o_Proxy : bytes;
  o_subTokenExp : Z;
  o_subTokenIP : bytes
}.

(** One query parameter in the loop that collects the header overrides. *)
Definition addOverride (q : list (bytes * bytes)) (hs : header * header) (k : bytes) : header * header :=
  match CutPrefix k (bs "h_") with
  | Some after => (foldl (fun m v => hadd m after v) hs.1 (valuesOf q k), hs.2)
  | None =>
      match CutPrefix k (bs "r_") with
      | Some after => (hs.1, foldl (fun m v => hadd m after v) hs.2 (valuesOf q k))
      | None => hs
      end
  end.

Definition overrides (q : list (bytes * bytes)) (keys : list bytes) : header * header :=
  foldl (addOverride q) (∅, ∅) keys.

Definition proxySchemes : list bytes := [bs "socks5"; bs "socks5h"; bs "http"; bs "https"].

(** The proxy parameter: "" unless its scheme is one of the accepted. *)
Definition proxyParam (urlParse : bytes -> option (bytes * bytes)) (raw : bytes) : bytes :=
  match raw with
  | [] => []
  | _ => match urlParse raw with
         | Some (scheme, _) => if bool_decide (scheme ∈ proxySchemes) then raw else []
         | None => []
         end
  end.

(** * Proxy URLs *)

(** The header overrides as parameters, escaped. *)
Definition headerParams (pre : bytes) (order : list bytes) (m : header) : bytes :=
  concat ((fun k => concat ((fun v => 38 :: pre ++ QueryEscape k ++ 61 :: QueryEscape v) <$> hvalues m k)) <$> order).

Record proxyURLBuilder := MkPB {
  pb_opts : option Options;
  pb_headers : bytes;
  pb_cred : bytes;
  pb_tokens : bool;
  pb_tail : bytes
}.

(** The destination in chunks of 30 bytes. *)
Fixpoint encodeChunks (fuel : nat) (dest : bytes) : bytes :=
  match fuel, dest with
  | S fuel, _ :: _ => b64enc (take 30 dest) ++ encodeChunks fuel (drop 30 dest)
  | _, _ => []
  end.

(** strings.ReplaceAll for a nonempty [old]; [skip] bytes of a match are still
    to drop. *)
Fixpoint replace_from (skip : nat) (s old new : bytes) : bytes :=
  match s with
  | [] => []
  | c :: s' =>
      match skip with
      | S skip => replace_from skip s' old new
      | O => if HasPrefix s old then new ++ replace_from (length old - 1) s' old new
             else c :: replace_from 0 s' old new
      end
  end.

Definition ReplaceAll (s old new : bytes) : bytes := replace_from 0 s old new.

Definition dashQueryEscape (s : bytes) : bytes :=
  ReplaceAll (ReplaceAll (ReplaceAll (QueryEscape s) (bs "%24") (bs "$")) (bs "%28") (bs "(")) (bs "%29") (bs ")").

(** What follows the first occurrence of [sep], as strings.Cut finds it. *)
Fixpoint cutAfter (s sep : bytes) : option bytes :=
  if HasPrefix s sep then Some (drop (length sep) s)
  else match s with [] => None | _ :: s => cutAfter s sep end.

Definition dashTemplateTokenParams (abs : bytes) : gmap bytes bytes :=
  let prefix := match IndexByte abs 36 with Some i => take i abs | None => abs end in
  match cutAfter prefix (bs "://") with
  | Some rest => if ContainsByte rest 47 then {[ tokenDestPrefixParam := prefix ]} else ∅
  | None => ∅
  end.

Section Links.
Context `{P : Primitives} (urlParse : bytes -> option (bytes * bytes)).

(** parseOptions; it never fails. *)
Definition parseOptions (c : Config) (now : Z) (r : Request) (keys : list bytes) : Options :=
  let q := Query r in
  let dest := decodeDest (getValue q (bs "d")) in
  let proxy := proxyParam urlParse (getValue q (bs "proxy")) in
  let '(req, resp) := overrides q keys in
  let pw := getValue q (bs "api_password") in
  let '(exp, ip) :=
    if match pw with [] => negb (bool_decide (c_Password c = [])) && negb (bool_decide (c_Secret c = [])) | _ => false end then
      match getValue q (bs "token") with
      | [] => (0, [])
      | tok => match verifyToken c now tok (clientIP (c_TrustedProxies c) r) with
               | Ok t => (t_Exp t, t_IP t)
               | Err _ => (0, [])
               end
      end
    else (0, []) in
  MkOpts dest req resp pw proxy exp ip.

(** subToken; "" when none is minted. *)
Definition subToken (c : Config) (nonce : option bytes) (opts : option Options) (endpoint : bytes) (params : gmap bytes bytes) : bytes :=
  match opts with
  | None => []
  | Some o =>
      if (o_subTokenExp o =? 0) || bool_decide (c_Secret c = []) then []
      else match signToken c nonce (MkToken endpoint params (o_subTokenExp o) (o_subTokenIP o)) with
           | Some tok => tok
           | None => []
           end
  end.

Definition newProxyURLBuilder (c : Config) (opts : option Options) (reqOrder respOrder : list bytes) : proxyURLBuilder :=
  match opts with
  | None => MkPB None [] [] false []
  | Some o =>
      let headers := headerParams (bs "h_") reqOrder (o_ReqHeaders o) ++ headerParams (bs "r_") respOrder (o_RespHeaders o) in
      let tail := match o_Proxy o with [] => [] | p => bs "&proxy=" ++ QueryEscape p end in
      match o_APIPassword o with
      | [] => MkPB opts headers [] (negb (o_subTokenExp o =? 0) && negb (bool_decide (c_Secret c = []))) tail
      | pw => MkPB opts headers (bs "&api_password=" ++ QueryEscape pw) false tail
      end
  end.

Definition build (c : Config) (pb : proxyURLBuilder) (nonce : option bytes) (extBase endpoint dest : bytes) : bytes :=
  let tok :=
    if pb_tokens pb then
      match subToken c nonce (pb_opts pb) endpoint {[ bs "d" := b64enc dest ]} with
      | [] => []
      | t => bs "&token=" ++ QueryEscape t
      end
    else [] in
  extBase ++ endpoint ++ bs "?d=" ++ encodeChunks (length dest) dest ++ pb_headers pb ++ pb_cred pb ++ tok ++ pb_tail pb.

Definition buildProxyURL (c : Config) (opts : option Options) (reqOrder respOrder : list bytes) (nonce : option bytes)
    (extBase endpoint dest : bytes) : bytes :=
  build c (newProxyURLBuilder c opts reqOrder respOrder) nonce extBase endpoint dest.

Definition dashBuildTemplateURL (c : Config) (ext abs : bytes) (opts : option Options) (reqOrder respOrder : list bytes)
    (nonce : option bytes) : bytes :=
  ext ++ bs "/proxy/stream?d=" ++ dashQueryEscape abs ++
  match opts with
  | None => []
  | Some o =>
      headerParams (bs "h_") reqOrder (o_ReqHeaders o) ++ headerParams (bs "r_") respOrder (o_RespHeaders o) ++
      match o_APIPassword o with
      | [] => match subToken c nonce opts (bs "/proxy/stream") (dashTemplateTokenParams abs) with
              | [] => []
              | tok => bs "&token=" ++ QueryEscape tok
              end
      | pw => bs "&api_password=" ++ QueryEscape pw
      end ++
      match o_Proxy o with [] => [] | p => bs "&proxy=" ++ QueryEscape p end
  end.

End Links.

(** * Rendering *)

Lemma encodeChunks_b64 fuel dest : (length dest <= fuel)%nat -> encodeChunks fuel dest = b64enc dest.
Proof.
  revert dest. induction fuel as [|fuel IH]; intros dest Hl; [by destruct dest; cbn in Hl; [|lia]|].
  assert (encodeChunks (S fuel) dest = b64enc (take 30 dest) ++ encodeChunks fuel (drop 30 dest)) as ->.
  { destruct dest; [|done]. cbn. by destruct fuel. }
  destruct (decide (length dest <= 30)%nat) as [Hs|Hs].
  - rewrite take_ge, drop_ge by lia. destruct fuel; cbn; by rewrite app_nil_r.
  - rewrite IH by (rewrite length_drop; lia). rewrite <- (b64enc_app _ _ 10) by (rewrite length_take; lia). by rewrite take_drop.
Qed.

(** The parameters behind the first. *)
Definition amp (kvs : list (bytes * bytes)) : bytes := concat ((fun kv => 38 :: setting kv) <$> kvs).

Lemma amp_app a b : amp (a ++ b) = amp a ++ amp b.
Proof. unfold amp. by rewrite fmap_app, concat_app. Qed.

Lemma rendered_cons kv kvs : rendered (kv :: kvs) = setting kv ++ amp kvs.
Proof. unfold rendered, amp. cbn [fmap list_fmap join]. f_equal. f_equal. by rewrite <- list_fmap_compose. Qed.

Definition headerPairs (pre : bytes) (order : list bytes) (m : header) : list (bytes * bytes) :=
  concat ((fun k => (fun v => (pre ++ k, v)) <$> hvalues m k) <$> order).

Lemma QueryEscape_app a b : QueryEscape (a ++ b) = QueryEscape a ++ QueryEscape b.
Proof. induction a as [|c a IH]; [done|]. cbn [app QueryEscape]. by rewrite IH, app_assoc. Qed.

Lemma headerParams_amp pre order m : Forall (fun c => unreserved c = true) pre ->
  headerParams pre order m = amp (headerPairs pre order m).
Proof.
  intros Hp. unfold headerParams, headerPairs. induction order as [|k order IH]; [done|].
  cbn [fmap list_fmap concat]. rewrite amp_app, <- IH. f_equal. unfold amp. f_equal. rewrite <- list_fmap_compose.
  apply list_fmap_ext. intros _ v _. unfold compose, setting. cbn [fst snd].
  rewrite QueryEscape_app, (QueryEscape_plain pre) by done. by rewrite <- app_assoc.
Qed.

(** One optional parameter. *)
Definition opt (k v : bytes) : list (bytes * bytes) := match v with [] => [] | _ => [(k, v)] end.

Lemma opt_amp k v : Forall (fun c => unreserved c = true) k ->
  match v with [] => [] | v => (38 :: k ++ [61]) ++ QueryEscape v end = amp (opt k v).
Proof.
  intros Hk. destruct v as [|c v]; [done|]. unfold amp, opt, setting. cbn [fmap list_fmap concat fst snd].
  rewrite (QueryEscape_plain k) by done. cbn [app]. by rewrite app_nil_r, <- app_assoc.
Qed.

(** * Lookups *)

Lemma valuesOf_app a b k : valuesOf (a ++ b) k = valuesOf a k ++ valuesOf b k.
Proof. unfold valuesOf. by rewrite filter_app, fmap_app. Qed.

Lemma valuesOf_cons k' v q k : valuesOf ((k', v) :: q) k = if decide (k' = k) then v :: valuesOf q k else valuesOf q k.
Proof. unfold valuesOf. rewrite filter_cons. cbn [fst]. by destruct (decide (k' = k)). Qed.

Lemma valuesOf_opt k' v k : valuesOf (opt k' v) k = if decide (k' = k) then match v with [] => [] | _ => [v] end else [].
Proof. unfold opt. destruct v; [by destruct (decide _)|]. rewrite valuesOf_cons. by destruct (decide _). Qed.

Lemma getValue_head q k v l : valuesOf q k = v :: l -> getValue q k = v.
Proof. unfold getValue. by intros ->. Qed.

Lemma getValue_nil q k : valuesOf q k = [] -> getValue q k = [].
Proof. unfold getValue. by intros ->. Qed.

(** A concatenation with one part that is not empty. *)
Lemma concat_single {A B} `{EqDecision A} (f : A -> list B) keys k0 :
  NoDup keys -> (forall k, k <> k0 -> f k = []) -> concat (f <$> keys) = if decide (k0 ∈ keys) then f k0 else [].
Proof.
  intros Hn Hf. induction Hn as [|k keys Hk Hn IH]; [done|]. cbn [fmap list_fmap concat]. rewrite IH.
  destruct (decide (k = k0)) as [->|Hne].
  - rewrite (decide_False (P := k0 ∈ keys)), decide_True by (done || by left). apply app_nil_r.
  - rewrite (Hf k Hne). cbn [app]. destruct (decide (k0 ∈ keys)); [rewrite decide_True by by right|rewrite decide_False]; [done..|].
    by intros [?|?]%elem_of_cons.
Qed.

Lemma valuesOf_headerPairs pre order m k : NoDup order ->
  valuesOf (headerPairs pre order m) k =
  match CutPrefix k pre with
  | Some K => if decide (K ∈ order) then hvalues m K else []
  | None => []
  end.
Proof.
  intros Hn. assert (valuesOf (headerPairs pre order m) k =
    concat ((fun K => if decide (pre ++ K = k) then hvalues m K else []) <$> order)) as ->.
  { clear Hn. unfold headerPairs. induction order as [|K order IH]; [done|]. cbn [fmap list_fmap concat].
    rewrite valuesOf_app, IH. f_equal. clear IH. induction (hvalues m K) as [|v l IH]; cbn [fmap list_fmap]; [by destruct (decide _)|].
    rewrite valuesOf_cons, IH. by destruct (decide _). }
  unfold CutPrefix. destruct (HasPrefix k pre) eqn:Hp.
  - apply HasPrefix_spec in Hp as [K ->]. rewrite drop_app_length.
    rewrite (concat_single _ _ K); [by rewrite (decide_True (P := pre ++ K = pre ++ K)) by done|done|].
    intros K' Hne. rewrite decide_False; [done|]. by intros ->%app_inv_head.
  - clear Hn. induction order as [|K order IH]; [done|]. cbn [fmap list_fmap concat]. rewrite IH.
    rewrite decide_False; [done|]. intros <-. by rewrite HasPrefix_app in Hp.
Qed.

(** * Header overrides *)

Lemma hvalues_insert m k l K : hvalues (<[k:=l]> m) K = if decide (k = K) then l else hvalues m K.
Proof.
  unfold hvalues. destruct (decide (k = K)) as [<-|Hne]; [by rewrite lookup_insert_eq|by rewrite lookup_insert_ne].
Qed.

Lemma hvalues_hadd m k v K : hvalues (hadd m k v) K = hvalues m K ++ (if decide (CanonicalHeaderKey k = K) then [v] else []).
Proof.
  unfold hadd. rewrite hvalues_insert. destruct (decide _) as [<-|]; [done|by rewrite app_nil_r].
Qed.

Lemma hvalues_hadds m k vs K :
  hvalues (foldl (fun m v => hadd m k v) m vs) K = hvalues m K ++ (if decide (CanonicalHeaderKey k = K) then vs else []).
Proof.
  revert m. induction vs as [|v vs IH]; intros m; cbn [foldl]; [destruct (decide _); by rewrite app_nil_r|].
  rewrite IH, hvalues_hadd. rewrite <- app_assoc. by destruct (decide _).
Qed.

(** What one key of the query adds to a header of a given prefix. *)
Definition contributes (q : list (bytes * bytes)) (pre K k : bytes) : list bytes :=
  match CutPrefix k pre with
  | Some a => if decide (CanonicalHeaderKey a = K) then valuesOf q k else []
  | None => []
  end.

Lemma cut_disjoint k a : CutPrefix k (bs "h_") = Some a -> CutPrefix k (bs "r_") = None.
Proof.
  unfold CutPrefix. destruct (HasPrefix k (bs "h_")) eqn:E; [|done]. intros _. apply HasPrefix_spec in E as [t ->]. done.
Qed.

Lemma overrides_hget q keys K :
  hvalues (overrides q keys).1 K = concat (contributes q (bs "h_") K <$> keys) /\
  hvalues (overrides q keys).2 K = concat (contributes q (bs "r_") K <$> keys).
Proof.
  unfold overrides. assert (forall hs,
    hvalues (foldl (addOverride q) hs keys).1 K = hvalues hs.1 K ++ concat (contributes q (bs "h_") K <$> keys) /\
    hvalues (foldl (addOverride q) hs keys).2 K = hvalues hs.2 K ++ concat (contributes q (bs "r_") K <$> keys)) as H.
  2:{ destruct (H (∅, ∅)) as [-> ->]. cbn [fst snd]. assert (hvalues ∅ K = []) as -> by (unfold hvalues; by rewrite lookup_empty). done. }
  induction keys as [|k keys IH]; intros hs; cbn [foldl fmap list_fmap concat]; [by rewrite !app_nil_r|].
  destruct (IH (addOverride q hs k)) as [-> ->]. clear IH. rewrite !app_assoc. unfold addOverride.
  pose proof (cut_disjoint k) as Hd. assert (forall pre, contributes q pre K k = match CutPrefix k pre with
    | Some a => if decide (CanonicalHeaderKey a = K) then valuesOf q k else [] | None => [] end) as Hc by done.
  rewrite !Hc. destruct (CutPrefix k (bs "h_")) as [a|]; [rewrite (Hd a eq_refl)|destruct (CutPrefix k (bs "r_")) as [a|]];
    cbn [fst snd]; by rewrite ?hvalues_hadds, ?app_nil_r.
Qed.

(** The headers parseOptions builds: canonical keys, no empty lists. *)
Definition header_ok (m : header) : Prop :=
  forall K l, m !! K = Some l -> l <> [] /\ CanonicalHeaderKey K = K /\ Forall is_byte K /\ Forall (Forall is_byte) l.

Definition query_ok (q : list (bytes * bytes)) : Prop := Forall (fun kv => Forall is_byte kv.1 /\ Forall is_byte kv.2) q.

Lemma hadds_ok m k vs : header_ok m -> Forall is_byte k -> Forall (Forall is_byte) vs ->
  header_ok (foldl (fun m v => hadd m k v) m vs).
Proof.
  intros Hm Hk Hv. revert m Hm. induction Hv as [|v vs Hv _ IH]; intros m Hm; [done|]. cbn [foldl]. apply IH.
  intros K l. unfold hadd. rewrite lookup_insert_Some. intros [[<- <-]|[_ H]]; [|by apply Hm].
  split; [by destruct (hvalues m _)|]. split; [apply canonical_idem|]. split; [by apply canonical_bytes|].
  apply Forall_app. split; [|by constructor]. unfold hvalues. destruct (m !! _) eqn:E; [|constructor]. by apply Hm in E as (_ & _ & _ & ?).
Qed.

Lemma valuesOf_bytes q k : query_ok q -> Forall (Forall is_byte) (valuesOf q k).
Proof.
  intros H. unfold valuesOf. apply Forall_fmap. apply Forall_forall. intros [k' v] [_ Hin]%list_elem_of_filter.
  by apply (proj1 (Forall_forall _ _) H) in Hin as [_ ?].
Qed.

Lemma valuesOf_key_bytes q k : query_ok q -> valuesOf q k <> [] -> Forall is_byte k.
Proof.
  intros H. unfold valuesOf. intros Hne. destruct (filter _ q) as [|[k' v] l] eqn:E; [done|].
  assert ((k', v) ∈ filter (fun kv => fst kv = k) q) as [<- Hin]%list_elem_of_filter by (rewrite E; left).
  by apply (proj1 (Forall_forall _ _) H) in Hin as [? _].
Qed.

Lemma overrides_ok q keys : query_ok q -> header_ok (overrides q keys).1 /\ header_ok (overrides q keys).2.
Proof.
  intros Hq. unfold overrides. assert (forall hs, header_ok hs.1 -> header_ok hs.2 ->
    header_ok (foldl (addOverride q) hs keys).1 /\ header_ok (foldl (addOverride q) hs keys).2) as H; [|by apply H].
  induction keys as [|k keys IH]; intros [h1 h2] H1 H2; [done|]. cbn [foldl].
  assert (forall m a pre, CutPrefix k pre = Some a -> header_ok m -> header_ok (foldl (fun m v => hadd m a v) m (valuesOf q k))) as Hadd.
  { intros m a pre Hcut Hm. destruct (decide (valuesOf q k = [])) as [E|Hne]; [by rewrite E|]. apply hadds_ok; [done| |by apply valuesOf_bytes].
    unfold CutPrefix in Hcut. destruct (HasPrefix k pre); [|done]. injection Hcut as <-. apply Forall_drop. by eapply valuesOf_key_bytes. }
  apply IH; unfold addOverride; destruct (CutPrefix k (bs "h_")) eqn:Eh; cbn [fst snd]; try (by eapply Hadd); try done;
    destruct (CutPrefix k (bs "r_")) eqn:Er; cbn [fst snd]; by try eapply Hadd.
Qed.

Lemma header_ext m1 m2 : header_ok m1 -> header_ok m2 -> (forall K, hvalues m1 K = hvalues m2 K) -> m1 = m2.
Proof.
  intros H1 H2 H. apply map_eq. intros K. specialize (H K). unfold hvalues in H.
  destruct (m1 !! K) as [l1|] eqn:E1, (m2 !! K) as [l2|] eqn:E2; [by f_equal|..|done].
  - by apply H1 in E1 as [? _].
  - by apply H2 in E2 as [? _].
Qed.

(** * DASH escaping *)

(** One escaped byte, with the bytes of [keep] left as they are. *)
Definition block (keep : list Z) (c : Z) : bytes :=
  if bool_decide (c ∈ keep) || unreserved c then [c] else if c =? 32 then [43] else [37; upperHex (c / 16); upperHex (c mod 16)].

Definition escKeep (keep : list Z) (s : bytes) : bytes := concat (block keep <$> s).

Lemma QueryEscape_keep s : QueryEscape s = escKeep [] s.
Proof. unfold escKeep. induction s as [|c s IH]; [done|]. cbn [QueryEscape fmap list_fmap concat]. by rewrite IH. Qed.

Definition placeholder (c : Z) : bool := (c =? 36) || (c =? 40) || (c =? 41).

(** ReplaceAll of one escape sequence keeps one more byte. *)
Lemma replace_block keep k s :
  Forall is_byte s -> placeholder k = true -> k ∉ keep -> Forall (fun c => placeholder c = true) keep ->
  ReplaceAll (escKeep keep s) (block [] k) [k] = escKeep (k :: keep) s.
Proof.
  intros Hs Hk Hnk Hkeep. assert (exists h l, block [] k = [37; h; l] /\ h <> 37 /\ l <> 37 /\
    forall c, is_byte c -> upperHex (c / 16) = h -> upperHex (c mod 16) = l -> c = k) as (h & l & E & Hh & Hl & Hinj).
  { unfold placeholder in Hk. rewrite !orb_true_iff, !Z.eqb_eq in Hk.
    assert (forall k0, (k0 = 36 \/ k0 = 40 \/ k0 = 41) -> forall c, is_byte c -> upperHex (c / 16) = upperHex (k0 / 16) ->
      upperHex (c mod 16) = upperHex (k0 mod 16) -> c = k0) as H.
    { intros k0 H0 c Hc E1 E2. unfold is_byte in Hc. apply (f_equal digit) in E1, E2.
      rewrite !(fun d H => proj1 (upperHex_digit d H)) in E1, E2 by (destruct H0 as [->|[->| ->]]; Z.div_mod_to_equations; lia).
      injection E1 as E1. injection E2 as E2. rewrite (Z.div_mod c 16), (Z.div_mod k0 16) by lia. lia. }
    exists (upperHex (k / 16)), (upperHex (k mod 16)). destruct Hk as [[-> | ->]| ->]; (split; [reflexivity|]); (split; [done|]); (split; [done|]); apply H; auto. }
  unfold ReplaceAll. rewrite E. induction Hs as [|c s Hc Hs IH]; [done|]. unfold escKeep in *. cbn [fmap list_fmap concat].
  assert (forall d rest, d <> 37 -> replace_from 0 (d :: rest) [37; h; l] [k] = d :: replace_from 0 rest [37; h; l] [k]) as Hstep.
  { intros d rest Hd. cbn [replace_from HasPrefix]. rewrite (proj2 (Z.eqb_neq 37 d)) by done. done. }
  rewrite <- IH. unfold block at 1 3. rewrite (bool_decide_ext (c ∈ k :: keep) (c = k \/ c ∈ keep)) by apply elem_of_cons.
  unfold is_byte in Hc. assert (forall d, placeholder d = true -> unreserved d = false /\ d <> 32 /\ d <> 37) as Hph.
  { intros d Hd. unfold placeholder in Hd. rewrite !orb_true_iff, !Z.eqb_eq in Hd. by destruct Hd as [[-> | ->]| ->]. }
  destruct (decide (c ∈ keep)) as [Hin|Hin].
  - rewrite !bool_decide_eq_true_2 by auto. cbn [orb app]. apply Hstep.
    apply (proj1 (Forall_forall _ _) Hkeep) in Hin. by apply Hph in Hin as (_ & _ & ?).
  - rewrite (bool_decide_eq_false_2 (c ∈ keep)) by done. cbn [orb]. destruct (unreserved c) eqn:Hu.
    + rewrite orb_true_r. cbn [app]. apply Hstep. by intros ->.
    + rewrite orb_false_r. destruct (Z.eqb_spec c 32) as [->|H32].
      * rewrite bool_decide_eq_false_2 by (intros [<-|?]; [by apply Hph in Hk as (_ & ? & _)|done]). cbn [app]. by apply Hstep.
      * destruct (decide (c = k)) as [->|Hck].
        -- rewrite bool_decide_eq_true_2 by auto. assert ([37; upperHex (k / 16); upperHex (k mod 16)] = [37; h; l]) as ->.
           { rewrite <- E. unfold block. rewrite bool_decide_eq_false_2 by set_solver. cbn [orb]. rewrite Hu. by rewrite (proj2 (Z.eqb_neq _ _) H32). }
           cbn [app replace_from HasPrefix length Nat.sub]. rewrite !Z.eqb_refl. done.
        -- rewrite bool_decide_eq_false_2 by (by intros [?|?]). cbn [app].
           assert (upperHex (c / 16) <> 37 /\ upperHex (c mod 16) <> 37) as [Hd1 Hd2].
           { pose proof (proj2 (upperHex_digit (c / 16) ltac:(Z.div_mod_to_equations; lia))).
             pose proof (proj2 (upperHex_digit (c mod 16) ltac:(Z.div_mod_to_equations; lia))). lia. }
           rewrite <- (Hstep _ _ Hd2), <- (Hstep _ _ Hd1). cbn [replace_from HasPrefix]. rewrite Z.eqb_refl. cbn [andb].
           destruct (h =? upperHex (c / 16)) eqn:E1, (l =? upperHex (c mod 16)) eqn:E2; cbn [andb]; try done.
           apply Z.eqb_eq in E1, E2. by destruct Hck; apply Hinj.
Qed.

Lemma dashQueryEscape_keep s : Forall is_byte s -> dashQueryEscape s = escKeep [41; 40; 36] s.
Proof.
  intros Hs. unfold dashQueryEscape. rewrite QueryEscape_keep.
  rewrite (replace_block [] 36), (replace_block [36] 40), (replace_block [40; 36] 41); try done; try set_solver; by repeat constructor.
Qed.

(** The query still carries the template itself, its placeholders in the open. *)
Lemma dashQueryEscape_spec s : Forall is_byte s ->
  QueryUnescape (dashQueryEscape s) = Some s /\ 38 ∉ dashQueryEscape s /\ 59 ∉ dashQueryEscape s.
Proof.
  intros Hs. rewrite dashQueryEscape_keep by done. unfold escKeep. induction Hs as [|c s Hc Hs (IH & I1 & I2)].
  { split; [done|]. split; apply not_elem_of_nil. }
  cbn [fmap list_fmap concat]. rewrite !not_elem_of_app. unfold is_byte in Hc.
  assert (c ∈ [41; 40; 36] \/ unreserved c = true -> c <> 37 /\ c <> 43 /\ c <> 38 /\ c <> 59) as Hk.
  { intros [H|H]; [set_solver|]. repeat split; intros ->; done. }
  unfold block at 1 3 5. destruct (bool_decide (c ∈ [41; 40; 36]) || unreserved c) eqn:E.
  - rewrite orb_true_iff, bool_decide_eq_true in E. destruct (Hk E) as (H1 & H2 & H3 & H4). cbn [app QueryUnescape].
    rewrite (proj2 (Z.eqb_neq _ _) H1), (proj2 (Z.eqb_neq _ _) H2), IH. split; [done|]. rewrite !not_elem_of_cons. repeat split; try done; try apply not_elem_of_nil; by intros <-.
  - destruct (Z.eqb_spec c 32) as [->|].
    + cbn [app QueryUnescape]. change (43 =? 37) with false. cbn match. rewrite IH. split; [done|]. rewrite !not_elem_of_cons. repeat split; try done; apply not_elem_of_nil.
    + destruct (upperHex_digit (c / 16) ltac:(Z.div_mod_to_equations; lia)) as [D1 R1].
      destruct (upperHex_digit (c mod 16) ltac:(Z.div_mod_to_equations; lia)) as [D2 R2].
      cbn [app QueryUnescape]. change (37 =? 37) with true. cbn match. rewrite D1, D2, IH.
      replace (c / 16 * 16 + c mod 16) with c by (Z.div_mod_to_equations; lia). split; [done|].
      rewrite !not_elem_of_cons. repeat split; try done; try apply not_elem_of_nil; lia.
Qed.

(** * The parameters of a link *)

Lemma decodeDest_b64 dest : Forall is_byte dest -> decodeDest (b64enc dest) = dest.
Proof.
  intros Hd. unfold decodeDest. pose proof (b64enc_plain dest Hd) as Hp.
  assert (forall pre t, 58 ∈ pre -> b64enc dest <> pre ++ t) as Hn.
  { intros pre t Hin E. rewrite E in Hp. apply Forall_app in Hp as [Hp _].
    by apply (proj1 (Forall_forall _ _) Hp) in Hin as [? _]. }
  destruct (HasPrefix (b64enc dest) (bs "http://")) eqn:E1.
  { apply HasPrefix_spec in E1 as [t E]. apply Hn in E; [done|by apply (bool_decide_unpack _)]. }
  destruct (HasPrefix (b64enc dest) (bs "https://")) eqn:E2.
  { apply HasPrefix_spec in E2 as [t E]. apply Hn in E; [done|by apply (bool_decide_unpack _)]. }
  cbn [orb]. rewrite RawURLDecode_enc by done. destruct (b64enc dest) eqn:E; [|done].
  by apply (f_equal RawURLDecode) in E; rewrite RawURLDecode_enc in E by done; injection E.
Qed.

Definition linkParams (o : Options) (tok d : bytes) (ro so : list bytes) : list (bytes * bytes) :=
  (bs "d", d) :: headerPairs (bs "h_") ro (o_ReqHeaders o) ++ headerPairs (bs "r_") so (o_RespHeaders o) ++
  opt (bs "api_password") (o_APIPassword o) ++ opt (bs "token") tok ++ opt (bs "proxy") (o_Proxy o).

Definition only (v : bytes) : list bytes := match v with [] => [] | _ => [v] end.

Lemma getValue_only q k v : valuesOf q k = only v -> getValue q k = v.
Proof. unfold getValue. intros ->. by destruct v. Qed.

(** The header overrides come back, in whatever order the keys are visited. *)
Lemma overrides_back (pre : bytes) (m : header) (order keys : list bytes) q :
  header_ok m -> (forall K, K ∈ order <-> is_Some (m !! K)) -> NoDup keys -> (forall k, k ∈ keys <-> valuesOf q k <> []) ->
  (forall a, valuesOf q (pre ++ a) = if decide (a ∈ order) then hvalues m a else []) ->
  forall K, concat (contributes q pre K <$> keys) = hvalues m K.
Proof.
  intros Hm Ho Hn Hk Hq K. rewrite (concat_single _ _ (pre ++ K)) by first [done|
    intros k Hne; unfold contributes, CutPrefix; destruct (HasPrefix k pre) eqn:E; [|done];
    apply HasPrefix_spec in E as [a ->]; rewrite drop_app_length; destruct (decide (CanonicalHeaderKey a = K)) as [Ec|]; [|done];
    rewrite Hq; destruct (decide (a ∈ order)) as [Hin|]; [|done]; apply Ho in Hin as [l Hl];
    apply Hm in Hl as (_ & Hc & _); destruct Hne; congruence].
  unfold contributes, CutPrefix. rewrite HasPrefix_app, drop_app_length, Hq.
  assert (hvalues m K <> [] -> K ∈ order /\ CanonicalHeaderKey K = K) as Hin.
  { unfold hvalues. destruct (m !! K) as [l|] eqn:E; [|done]. intros _. split; [apply Ho; eauto|]. by apply Hm in E as (_ & ? & _). }
  destruct (decide (pre ++ K ∈ keys)) as [Hi|Hi].
  - destruct (decide (hvalues m K = [])) as [E|E].
    + rewrite E. by destruct (decide (CanonicalHeaderKey K = K)), (decide (K ∈ order)).
    + destruct (Hin E) as [H1 H2]. by rewrite !decide_True by done.
  - symmetry. destruct (decide (hvalues m K = [])) as [E|E]; [done|]. destruct (Hin E) as [H1 H2].
    destruct Hi. apply Hk. rewrite Hq, decide_True by done. done.
Qed.

Section LinkParams.
Context (o : Options) (tok d : bytes) (ro so : list bytes) (Hro : NoDup ro) (Hso : NoDup so).
Let L := linkParams o tok d ro so.

Lemma linkParams_plain k : CutPrefix k (bs "h_") = None -> CutPrefix k (bs "r_") = None ->
  valuesOf L k = (if decide (bs "d" = k) then [d] else []) ++
    (if decide (bs "api_password" = k) then only (o_APIPassword o) else []) ++
    (if decide (bs "token" = k) then only tok else []) ++
    (if decide (bs "proxy" = k) then only (o_Proxy o) else []).
Proof.
  intros H1 H2. unfold L, linkParams. rewrite valuesOf_cons, !valuesOf_app, !valuesOf_headerPairs, H1, H2, !valuesOf_opt by done.
  cbn [app]. by destruct (decide (bs "d" = k)).
Qed.

Lemma linkParams_d : valuesOf L (bs "d") = [d].
Proof. by rewrite linkParams_plain. Qed.

Lemma linkParams_password : valuesOf L (bs "api_password") = only (o_APIPassword o).
Proof. rewrite linkParams_plain by done. cbn. by rewrite app_nil_r. Qed.

Lemma linkParams_token : valuesOf L (bs "token") = only tok.
Proof. rewrite linkParams_plain by done. cbn. by rewrite app_nil_r. Qed.

Lemma linkParams_proxy : valuesOf L (bs "proxy") = only (o_Proxy o).
Proof. rewrite linkParams_plain by done. done. Qed.

Lemma linkParams_h a : valuesOf L (bs "h_" ++ a) = if decide (a ∈ ro) then hvalues (o_ReqHeaders o) a else [].
Proof.
  unfold L, linkParams. rewrite valuesOf_cons, !valuesOf_app, !valuesOf_headerPairs, !valuesOf_opt by done.
  rewrite decide_False by done. unfold CutPrefix. rewrite HasPrefix_app, drop_app_length. cbn. by rewrite app_nil_r.
Qed.

Lemma linkParams_r a : valuesOf L (bs "r_" ++ a) = if decide (a ∈ so) then hvalues (o_RespHeaders o) a else [].
Proof.
  unfold L, linkParams. rewrite valuesOf_cons, !valuesOf_app, !valuesOf_headerPairs, !valuesOf_opt by done.
  rewrite decide_False by done. unfold CutPrefix at 2. rewrite HasPrefix_app, drop_app_length. cbn. by rewrite app_nil_r.
Qed.

End LinkParams.

(** * Links carry on the request they are written for *)

Section Carry.
Context `{POk : PrimitivesOk} (urlParse : bytes -> option (bytes * bytes)).

Lemma subToken_bytes c nonce o ep params : Forall is_byte nonce ->
  exists s, Forall is_byte s /\ subToken c (Some nonce) (Some o) ep params = b64enc s.
Proof.
  intros Hb. unfold subToken. destruct (_ || _); [by exists []|].
  destruct (signToken _ _ _) as [tok|] eqn:E; [|by exists []]. destruct (signToken_valid _ _ _ _ E Hb) as (s & -> & Hs). by exists s.
Qed.

(** The token a builder puts into the link. *)
Definition linkToken (c : Config) (nonce : bytes) (o : Options) (endpoint dest : bytes) : bytes :=
  match o_APIPassword o with
  | [] => subToken c (Some nonce) (Some o) endpoint {[ bs "d" := b64enc dest ]}
  | _ => []
  end.

Lemma linkToken_bytes c nonce o ep dest : Forall is_byte nonce ->
  exists s, Forall is_byte s /\ linkToken c nonce o ep dest = b64enc s.
Proof. intros Hb. unfold linkToken. destruct (o_APIPassword o); [by apply subToken_bytes|by exists []]. Qed.

Lemma build_rendered c nonce o ro so extBase ep dest : Forall is_byte nonce -> Forall is_byte dest ->
  buildProxyURL c (Some o) ro so (Some nonce) extBase ep dest =
  extBase ++ ep ++ 63 :: rendered (linkParams o (linkToken c nonce o ep dest) (b64enc dest) ro so).
Proof.
  intros Hb Hd. unfold buildProxyURL, build, newProxyURLBuilder. rewrite encodeChunks_b64 by done.
  unfold linkParams. rewrite rendered_cons, !amp_app, <- !headerParams_amp by by_decide.
  rewrite <- (opt_amp (bs "api_password")), <- (opt_amp (bs "token")), <- (opt_amp (bs "proxy")) by by_decide.
  assert (setting (bs "d", b64enc dest) = bs "d=" ++ b64enc dest) as -> by (unfold setting; cbn [fst snd]; by rewrite b64enc_query).
  assert (forall A B, A = B -> extBase ++ ep ++ bs "?d=" ++ b64enc dest ++ A = extBase ++ ep ++ 63 :: (bs "d=" ++ b64enc dest) ++ B) as Hf.
  { intros A B ->. reflexivity. }
  apply Hf. clear Hf. unfold linkToken.
  destruct (o_APIPassword o) as [|x pw]; cbn [pb_headers pb_cred pb_tokens pb_opts pb_tail]; rewrite <- !app_assoc; [|by destruct (o_Proxy o)].
  destruct (negb (o_subTokenExp o =? 0) && negb (bool_decide (c_Secret c = []))) eqn:E;
    [destruct (subToken _ _ _ _ _), (o_Proxy o); reflexivity|].
  assert (subToken c (Some nonce) (Some o) ep {[ bs "d" := b64enc dest ]} = []) as ->; [|by destruct (o_Proxy o)].
  unfold subToken. apply andb_false_iff in E as [E|E]; apply negb_false_iff in E; rewrite E; [done|by rewrite orb_true_r].
Qed.

Lemma proxyParam_idem raw : proxyParam urlParse (proxyParam urlParse raw) = proxyParam urlParse raw.
Proof.
  unfold proxyParam at 2 3. destruct raw as [|x raw]; [done|]. destruct (urlParse (x :: raw)) as [[scheme host]|] eqn:E; [|done].
  destruct (bool_decide _) eqn:Eb; [|done]. unfold proxyParam. by rewrite E, Eb.
Qed.

Lemma proxyParam_bytes raw : Forall is_byte raw -> Forall is_byte (proxyParam urlParse raw).
Proof. unfold proxyParam. destruct raw; [done|]. intros. repeat case_match; try done; constructor. Qed.

Lemma getValue_bytes q k : query_ok q -> Forall is_byte (getValue q k).
Proof.
  intros H. pose proof (valuesOf_bytes q k H) as Hv. unfold getValue. destruct (valuesOf q k); [constructor|].
  by apply Forall_cons in Hv as [? _].
Qed.

Definition withDest (o : Options) (dest : bytes) : Options :=
  MkOpts dest (o_ReqHeaders o) (o_RespHeaders o) (o_APIPassword o) (o_Proxy o) (o_subTokenExp o) (o_subTokenIP o).

(** The credential parseOptions remembers. *)
Definition subGrant (c : Config) (now : Z) (r : Request) : Z * bytes :=
  if match passwordParam r with [] => negb (bool_decide (c_Password c = [])) && negb (bool_decide (c_Secret c = [])) | _ => false end then
    match tokenParam r with
    | [] => (0, [])
    | tok => match verifyToken c now tok (clientIP (c_TrustedProxies c) r) with
             | Ok t => (t_Exp t, t_IP t)
             | Err _ => (0, [])
             end
    end
  else (0, []).

Lemma parseOptions_eq c now r keys :
  parseOptions urlParse c now r keys =
  MkOpts (decodeDest (getValue (Query r) (bs "d"))) (overrides (Query r) keys).1 (overrides (Query r) keys).2
    (passwordParam r) (proxyParam urlParse (getValue (Query r) (bs "proxy"))) (subGrant c now r).1 (subGrant c now r).2.
Proof.
  unfold parseOptions. fold (passwordParam r) (tokenParam r). destruct (overrides _ _) as [h1 h2].
  assert (forall x, x = subGrant c now r -> (let '(exp, ip) := x in
    MkOpts (decodeDest (getValue (Query r) (bs "d"))) h1 h2 (passwordParam r) (proxyParam urlParse (getValue (Query r) (bs "proxy"))) exp ip) =
    MkOpts (decodeDest (getValue (Query r) (bs "d"))) h1 h2 (passwordParam r) (proxyParam urlParse (getValue (Query r) (bs "proxy")))
      (subGrant c now r).1 (subGrant c now r).2) as H; [by intros [e i] <-|]. by apply H.
Qed.

Lemma subGrant_none c now r : passwordParam r <> [] \/ tokenParam r = [] \/ c_Password c = [] \/ c_Secret c = [] ->
  subGrant c now r = (0, []).
Proof.
  unfold subGrant. intros H. destruct (passwordParam r); [|done].
  destruct (decide (c_Password c = [])) as [->|Hp]; [done|]. destruct (decide (c_Secret c = [])) as [->|Hs]; [by rewrite andb_false_r|].
  destruct H as [?|[->|[?|?]]]; [done| |done..]. by destruct (_ && _).
Qed.

Lemma subGrant_token c now r t : passwordParam r = [] -> tokenParam r <> [] -> c_Password c <> [] ->
  verifyToken c now (tokenParam r) (clientIP (c_TrustedProxies c) r) = Ok t -> subGrant c now r = (t_Exp t, t_IP t).
Proof.
  intros Hp Ht Hpw Hv. unfold subGrant. rewrite Hp. assert (c_Secret c <> []) as Hs by (by apply verifyToken_spec in Hv as [? _]).
  rewrite !bool_decide_eq_false_2 by done. cbn [negb andb]. destruct (tokenParam r) as [|x tok] eqn:E; [done|]. by rewrite Hv.
Qed.

Lemma subGrant_cases c now r : subGrant c now r = (0, []) \/
  exists t, passwordParam r = [] /\ c_Password c <> [] /\ tokenParam r <> [] /\
    verifyToken c now (tokenParam r) (clientIP (c_TrustedProxies c) r) = Ok t /\ subGrant c now r = (t_Exp t, t_IP t).
Proof.
  destruct (decide (passwordParam r = [])) as [Hp|]; [|left; apply subGrant_none; auto].
  destruct (decide (tokenParam r = [])) as [|Ht]; [left; apply subGrant_none; auto|].
  destruct (decide (c_Password c = [])) as [|Hpw]; [left; apply subGrant_none; auto|].
  destruct (verifyToken c now (tokenParam r) (clientIP (c_TrustedProxies c) r)) as [t|e] eqn:Hv.
  - right. exists t. split_and!; try done. by apply subGrant_token.
  - left. unfold subGrant. rewrite Hp. destruct (_ && _); [|done]. destruct (tokenParam r) eqn:E; [done|]. by rewrite Hv.
Qed.

(** The request that follows a link, from the same client. *)
Definition follow (endpoint query remote : bytes) (xff : list bytes) : Request := MkReq endpoint query remote xff.

Section OneLink.
Context (c : Config) (now : Z) (r : Request) (keys ro so : list bytes) (nonce extBase endpoint dest : bytes).
Let o := parseOptions urlParse c now r keys.
Context (Hauth : authorize c now r = None) (Hnow : 0 < now) (Hexcl : passwordParam r = [] \/ tokenParam r = []).
Context (Hraw : Forall is_byte (rq_RawQuery r)) (Hdest : Forall is_byte dest) (Hep : ValidString endpoint = true).
Context (Hnb : Forall is_byte nonce) (Hnl : length nonce = NonceSize).
Context (Hro : NoDup ro) (Hrok : forall K, K ∈ ro <-> is_Some (o_ReqHeaders o !! K)).
Context (Hso : NoDup so) (Hsok : forall K, K ∈ so <-> is_Some (o_RespHeaders o !! K)).

Let L := linkParams o (linkToken c nonce o endpoint dest) (b64enc dest) ro so.

Lemma link_query_ok : query_ok (Query r).
Proof. by apply ParseQuery_bytes. Qed.

Lemma link_headers_ok : header_ok (o_ReqHeaders o) /\ header_ok (o_RespHeaders o).
Proof. unfold o. rewrite parseOptions_eq. apply overrides_ok, link_query_ok. Qed.

Lemma headerPairs_ok pre order m : Forall is_byte pre -> header_ok m -> (forall K, K ∈ order -> is_Some (m !! K)) ->
  query_ok (headerPairs pre order m).
Proof.
  intros Hp Hm Ho. unfold headerPairs, query_ok. apply Forall_concat, Forall_fmap, Forall_forall. intros K Hin. cbn.
  destruct (Ho K Hin) as [l Hl]. apply Forall_fmap, Forall_forall. intros v Hv. cbn. unfold hvalues in Hv. rewrite Hl in Hv.
  apply Hm in Hl as (_ & _ & HK & Hvs). split; [apply Forall_app; done|]. by apply (proj1 (Forall_forall _ _) Hvs).
Qed.

Lemma params_ok tok d : Forall is_byte tok -> Forall is_byte d -> query_ok (linkParams o tok d ro so).
Proof.
  intros Ht Hd. destruct link_headers_ok as [H1 H2].
  assert (forall k v, Forall is_byte k -> Forall is_byte v -> query_ok (opt k v)) as Hopt.
  { intros k v Hk Hv. unfold opt. destruct v; [constructor|]. apply Forall_cons. split; [done|constructor]. }
  unfold linkParams, query_ok. apply Forall_cons. split; [split; cbn; [by_decide|done]|].
  repeat (apply Forall_app; split); [apply headerPairs_ok; [by_decide|done|by intros ? ?%Hrok]|apply headerPairs_ok; [by_decide|done|by intros ? ?%Hsok]|apply Hopt; [by_decide|]..].
  - unfold o. rewrite parseOptions_eq. apply getValue_bytes, link_query_ok.
  - done.
  - unfold o. rewrite parseOptions_eq. apply proxyParam_bytes, getValue_bytes, link_query_ok.
Qed.

Lemma link_params_ok : query_ok L.
Proof.
  destruct (linkToken_bytes c nonce o endpoint dest Hnb) as (s & Hs & Et). unfold L. rewrite Et. by apply params_ok; apply b64enc_bytes.
Qed.

Lemma link_query remote xff : Query (follow endpoint (rendered L) remote xff) = L.
Proof. unfold Query, follow. cbn [rq_RawQuery]. apply ParseQuery_rendered, link_params_ok. Qed.

Lemma link_options remote xff now' keys' :
  let sub := follow endpoint (rendered L) remote xff in
  NoDup keys' -> (forall k, k ∈ keys' <-> valuesOf (Query sub) k <> []) ->
  subGrant c now' sub = subGrant c now r -> parseOptions urlParse c now' sub keys' = withDest o dest.
Proof.
  intros sub Hn Hk Hg. rewrite parseOptions_eq. unfold sub in *. rewrite link_query in *. fold sub in Hg |- *.
  assert (passwordParam sub = o_APIPassword o) as ->.
  { unfold passwordParam, sub. rewrite link_query. by apply getValue_only, linkParams_password. }
  assert (getValue L (bs "d") = b64enc dest) as -> by exact (getValue_head _ _ _ [] (linkParams_d _ _ _ _ _ Hro Hso)).
  assert (getValue L (bs "proxy") = o_Proxy o) as -> by exact (getValue_only _ _ _ (linkParams_proxy _ _ _ _ _ Hro Hso)).
  rewrite decodeDest_b64, Hg by done. fold o. destruct link_headers_ok as [H1 H2].
  destruct (overrides_ok L keys' link_params_ok) as [H3 H4].
  assert ((overrides L keys').1 = o_ReqHeaders o) as ->.
  { apply header_ext; [done..|]. intros K. rewrite (proj1 (overrides_hget _ _ _)).
    apply (overrides_back _ _ ro); try done. intros a. by apply linkParams_h. }
  assert ((overrides L keys').2 = o_RespHeaders o) as ->.
  { apply header_ext; [done..|]. intros K. rewrite (proj2 (overrides_hget _ _ _)).
    apply (overrides_back _ _ so); try done. intros a. by apply linkParams_r. }
  unfold withDest, o. rewrite parseOptions_eq. cbn [o_Proxy o_ReqHeaders o_RespHeaders o_APIPassword o_subTokenExp o_subTokenIP].
  by rewrite proxyParam_idem.
Qed.

Lemma link_grant remote xff now' :
  let sub := follow endpoint (rendered L) remote xff in
  clientIP (c_TrustedProxies c) sub = clientIP (c_TrustedProxies c) r ->
  o_subTokenExp o = 0 \/ now' <= o_subTokenExp o ->
  authorize c now' sub = None /\ subGrant c now' sub = subGrant c now r.
Proof.
  intros sub Hc Hexp.
  assert (acl_refuses c r = false) as Hacl.
  { destruct (acl_refuses c r) eqn:E; [|done]. apply (authorize_forbidden c now) in E. congruence. }
  assert (acl_refuses c sub = false) as Hacl' by (unfold acl_refuses in *; by rewrite Hc).
  assert (passwordParam sub = passwordParam r) as Hpw.
  { unfold passwordParam at 1. unfold sub. rewrite link_query.
    assert (getValue L (bs "api_password") = o_APIPassword o) as -> by exact (getValue_only _ _ _ (linkParams_password _ _ _ _ _ Hro Hso)).
    unfold o. by rewrite parseOptions_eq. }
  assert (tokenParam sub = linkToken c nonce o endpoint dest) as Htok.
  { unfold tokenParam, sub. rewrite link_query. exact (getValue_only _ _ _ (linkParams_token _ _ _ _ _ Hro Hso)). }
  assert (o_APIPassword o = passwordParam r /\ o_subTokenExp o = (subGrant c now r).1 /\ o_subTokenIP o = (subGrant c now r).2) as (Eap & Eexp & Eip).
  { unfold o. by rewrite parseOptions_eq. }
  destruct (subGrant_cases c now r) as [E|(t & Hp & Hpc & Ht & Hv & E)]; rewrite E in *; cbn [fst snd] in *.
  - assert (tokenParam sub = []) as Hts.
    { rewrite Htok. unfold linkToken, subToken. rewrite Eexp. by destruct (o_APIPassword o). }
    split; [|by apply subGrant_none; auto]. apply authorize_password; [done|by left|]. rewrite Hpw.
    destruct (decide (tokenParam r = [] \/ c_Secret c = [])) as [Hno|Hyes]; [by apply (authorize_password c now r)|].
    left. destruct (decide (c_Password c = [])) as [|Hpc]; [done|]. exfalso.
    destruct Hexcl as [Hp|]; [|by destruct Hyes; left].
    apply authorize_token in Hauth as (t & Hv & _); [|done|by intros ?; destruct Hyes; left|by intros ?; destruct Hyes; right].
    rewrite (subGrant_token c now r t) in E; [|done|by intros ?; destruct Hyes; left|done|done].
    apply verifyToken_spec in Hv as (_ & He & _). injection E as E _. lia.
  - pose proof Hv as (Hs & He & Hip & n & p & _ & _ & Hu)%verifyToken_spec. apply Unmarshal_ok in Hu as (_ & Hv1 & Hv2 & _).
    set (t' := MkToken endpoint {[ bs "d" := b64enc dest ]} (t_Exp t) (t_IP t)).
    assert (signToken c (Some nonce) t' = Some (tokenParam sub)) as Hsign.
    { rewrite Htok. unfold linkToken, subToken. rewrite Eap, Hp, Eexp, Eip. rewrite (proj2 (Z.eqb_neq _ 0)) by lia.
      rewrite bool_decide_eq_false_2 by done. cbn [orb]. fold t'. unfold signToken. by destruct (c_Secret c). }
    assert (token_ok t') as Hok.
    { split; [done|]. split; [done|]. split; [done|]. apply map_Forall_singleton. split; [done|]. by apply b64enc_valid. }
    assert (now' <= t_Exp t) as Hle by (destruct Hexp; lia).
    split.
    + apply (authorize_signed c now' sub nonce t' Hsign Hok Hnb Hnl). split; [by apply acl_admits|].
      split; [done|]. split; [unfold ipOk; rewrite Hc; exact Hip|]. split; [by right|].
      intros k v Hkv. cbn [t' t_Params] in Hkv. apply lookup_singleton_Some in Hkv as [<- <-].
      rewrite decide_False by done. left. unfold sub. rewrite link_query. by apply linkParams_d.
    + apply (subGrant_token c now' sub t'); [by rewrite Hpw| |done|].
      * intros E0. rewrite E0 in Hsign.
        apply (verifyToken_signed c now' nonce t' [] (clientIP (c_TrustedProxies c) sub) t') in Hsign; try done.
        pose proof (proj2 Hsign) as Hv0. rewrite Hc in Hv0. specialize (Hv0 (conj eq_refl (conj Hle Hip))).
        apply verifyToken_spec in Hv0 as (_ & _ & _ & n0 & p0 & Hd & Hl0 & _). cbn in Hd. injection Hd as Hd. symmetry in Hd.
        apply app_nil in Hd as [-> _]. by apply NonceSize_pos.
      * apply (verifyToken_signed c now' nonce t' _ _ t' Hsign Hok Hnb Hnl). by rewrite Hc.
Qed.

(** The literal part of a template, before its first placeholder. *)
Definition literal (abs : bytes) : bytes := match IndexByte abs 36 with Some i => take i abs | None => abs end.

(** The literal part fixes scheme and host. *)
Definition pinned (abs : bytes) : Prop := exists rest, cutAfter (literal abs) (bs "://") = Some rest /\ 47 ∈ rest.

Definition templateToken (abs : bytes) : bytes :=
  match o_APIPassword o with
  | [] => subToken c (Some nonce) (Some o) (bs "/proxy/stream") (dashTemplateTokenParams abs)
  | _ => []
  end.

Lemma template_rendered abs :
  dashBuildTemplateURL c extBase abs (Some o) ro so (Some nonce) =
  extBase ++ bs "/proxy/stream" ++ 63 :: join [38] ((bs "d=" ++ dashQueryEscape abs) :: (setting <$> tl (linkParams o (templateToken abs) abs ro so))).
Proof.
  unfold dashBuildTemplateURL, linkParams. cbn [tl join].
  assert (forall kvs, concat ((fun y => [38] ++ y) <$> (setting <$> kvs)) = amp kvs) as ->.
  { intros kvs. unfold amp. by rewrite <- list_fmap_compose. }
  rewrite !amp_app, <- !headerParams_amp by by_decide.
  rewrite <- (opt_amp (bs "api_password")), <- (opt_amp (bs "token")), <- (opt_amp (bs "proxy")) by by_decide.
  assert (forall A B, A = B -> extBase ++ bs "/proxy/stream?d=" ++ dashQueryEscape abs ++ A =
    extBase ++ bs "/proxy/stream" ++ 63 :: (bs "d=" ++ dashQueryEscape abs) ++ B) as Hf by (intros A B ->; reflexivity).
  apply Hf. unfold templateToken. destruct (o_APIPassword o); [destruct (subToken _ _ _ _ _)|]; by destruct (o_Proxy o).
Qed.

Lemma template_query abs : Forall is_byte abs ->
  ParseQuery (join [38] ((bs "d=" ++ dashQueryEscape abs) :: (setting <$> tl (linkParams o (templateToken abs) abs ro so)))) =
  linkParams o (templateToken abs) abs ro so.
Proof.
  intros Ha. assert (query_ok (linkParams o (templateToken abs) abs ro so)) as Hok.
  { apply params_ok; [|done]. unfold templateToken. destruct (o_APIPassword o); [|constructor].
    destruct (subToken_bytes c nonce o (bs "/proxy/stream") (dashTemplateTokenParams abs) Hnb) as (s & Hs & ->). by apply b64enc_bytes. }
  apply ParseQuery_join; [done|]. unfold linkParams in *. cbn [tl]. apply Forall_cons in Hok as [_ Hok].
  constructor; [|by apply settings_parse]. destruct (dashQueryEscape_spec abs Ha) as (Hu & H38 & H59).
  split; [by intros [?|[?|?]%elem_of_cons]%elem_of_cons|]. unfold parseSetting. rewrite ContainsByte_false by (by intros [?|[?|?]%elem_of_cons]%elem_of_cons).
  change (bs "d=" ++ dashQueryEscape abs) with ([100] ++ 61 :: dashQueryEscape abs). rewrite Cut_app by (by intros ?%list_elem_of_singleton).
  by rewrite Hu.
Qed.
End OneLink.

(** A link the proxy writes for an authorised request carries it on.  Read
    back by the server it names the destination, whichever way it was encoded,
    and the same header overrides, upstream proxy and credential; and the
    client that was authorised is authorised for it, until the expiry of the
    token it came with. *)
Lemma links_carry_on c now r keys ro so nonce extBase endpoint dest :
  let o := parseOptions urlParse c now r keys in
  authorize c now r = None -> 0 < now -> passwordParam r = [] \/ tokenParam r = [] ->
  Forall is_byte (rq_RawQuery r) -> Forall is_byte dest -> ValidString endpoint = true ->
  Forall is_byte nonce -> length nonce = NonceSize ->
  NoDup ro -> (forall K, K ∈ ro <-> is_Some (o_ReqHeaders o !! K)) ->
  NoDup so -> (forall K, K ∈ so <-> is_Some (o_RespHeaders o !! K)) ->
  exists query,
    buildProxyURL c (Some o) ro so (Some nonce) extBase endpoint dest = extBase ++ endpoint ++ 63 :: query /\
    forall remote xff now' keys',
      let sub := follow endpoint query remote xff in
      clientIP (c_TrustedProxies c) sub = clientIP (c_TrustedProxies c) r ->
      o_subTokenExp o = 0 \/ now' <= o_subTokenExp o ->
      NoDup keys' -> (forall k, k ∈ keys' <-> valuesOf (Query sub) k <> []) ->
      authorize c now' sub = None /\ parseOptions urlParse c now' sub keys' = withDest o dest.
Proof.
  intros o Hauth Hnow Hexcl Hraw Hdest Hep Hnb Hnl Hro Hrok Hso Hsok. eexists. split; [by apply build_rendered|].
  intros remote xff now' keys' sub Hc Hexp Hn Hk.
  destruct (link_grant c now r keys ro so nonce endpoint dest Hauth Hnow Hexcl Hraw Hdest Hep Hnb Hnl Hro Hrok Hso Hsok remote xff now' Hc Hexp) as [Ha Hg].
  split; [done|]. by apply link_options.
Qed.

(** A DASH template link leaves its placeholders in the open, so the server
    reads the template itself or what the player made of it; and its token opens
    the stream endpoint alone, to the client and until the expiry of the token it
    came with, for destinations that begin with the literal part, when that part
    reaches into the path. *)
Lemma template_confined c now r keys ro so nonce extBase abs :
  let o := parseOptions urlParse c now r keys in
  authorize c now r = None -> 0 < now -> passwordParam r = [] -> c_Password c <> [] ->
  Forall is_byte (rq_RawQuery r) -> Forall is_byte abs -> ValidString abs = true ->
  Forall is_byte nonce -> length nonce = NonceSize ->
  NoDup ro -> (forall K, K ∈ ro <-> is_Some (o_ReqHeaders o !! K)) ->
  NoDup so -> (forall K, K ∈ so <-> is_Some (o_RespHeaders o !! K)) ->
  exists query,
    dashBuildTemplateURL c extBase abs (Some o) ro so (Some nonce) = extBase ++ bs "/proxy/stream" ++ 63 :: query /\
    getValue (ParseQuery query) (bs "d") = abs /\
    forall now' r', tokenParam r' = getValue (ParseQuery query) (bs "token") ->
      authorize c now' r' = None <->
      admitted c r' /\ now' <= o_subTokenExp o /\
      (o_subTokenIP o = [] \/ clientIP (c_TrustedProxies c) r' <> [] /\ IPString (clientIP (c_TrustedProxies c) r') = o_subTokenIP o) /\
      rq_Path r' = bs "/proxy/stream" /\
      (pinned abs -> exists rest, decodeDest (getValue (Query r') (bs "d")) = literal abs ++ rest).
Proof.
  intros o Hauth Hnow Hp Hpw Hraw Habs Hv Hnb Hnl Hro Hrok Hso Hsok.
  pose proof (template_rendered c now r keys ro so nonce extBase abs) as Er. fold o in Er.
  pose proof (template_query c now r keys ro so nonce Hraw Hnb Hrok Hsok abs Habs) as Eq. fold o in Eq.
  eexists. split; [exact Er|]. rewrite Eq.
  rewrite (getValue_head _ _ _ [] (linkParams_d o _ abs ro so Hro Hso)).
  rewrite (getValue_only _ _ _ (linkParams_token o _ abs ro so Hro Hso)). split; [done|]. intros now' r' Htok.
  (* the token the request came with *)
  assert (exists t, token_ok t /\ now <= t_Exp t /\ c_Secret c <> [] /\ o_subTokenExp o = t_Exp t /\ o_subTokenIP o = t_IP t) as (t & Ht & He & Hs & Eexp & Eip).
  { destruct (acl_refuses c r) eqn:Hacl; [apply (authorize_forbidden c now) in Hacl; congruence|].
    destruct (decide (tokenParam r = [] \/ c_Secret c = [])) as [Hno|Hyes].
    { apply (authorize_password c now r Hacl Hno) in Hauth as [|E]; [done|]. by rewrite Hp in E. }
    apply authorize_token in Hauth as (t & Hvt & _); [|done|by intros ?; destruct Hyes; left|by intros ?; destruct Hyes; right].
    pose proof Hvt as (Hs & He & _ & n & p & _ & _ & Hu)%verifyToken_spec. exists t. split; [by eapply Unmarshal_ok|]. split; [done|]. split; [done|].
    unfold o. rewrite parseOptions_eq. cbn [o_subTokenExp o_subTokenIP].
    rewrite (subGrant_token c now r t Hp); [done|by intros ?; destruct Hyes; left|done|done]. }
  set (t' := MkToken (bs "/proxy/stream") (dashTemplateTokenParams abs) (t_Exp t) (t_IP t)).
  assert (signToken c (Some nonce) t' = Some (tokenParam r')) as Hsign.
  { rewrite Htok. unfold templateToken, subToken. assert (o_APIPassword o = []) as Eap by (unfold o; by rewrite parseOptions_eq).
    fold o. rewrite Eap, Eexp, Eip. rewrite (proj2 (Z.eqb_neq _ 0)) by lia. rewrite bool_decide_eq_false_2 by done. cbn [orb]. fold t'.
    unfold signToken. by destruct (c_Secret c). }
  assert (dashTemplateTokenParams abs = ∅ /\ ~ pinned abs \/
    dashTemplateTokenParams abs = {[ tokenDestPrefixParam := literal abs ]} /\ pinned abs) as Hparams.
  { unfold dashTemplateTokenParams, pinned. fold (literal abs). destruct (cutAfter (literal abs) (bs "://")) as [rest|]; [|left; split; [done|by intros (? & ? & _)]].
    destruct (ContainsByte rest 47) eqn:E.
    - right. split; [done|]. exists rest. split; [done|]. apply existsb_exists in E as (x & Hx & <-%Z.eqb_eq). by apply list_elem_of_In.
    - left. split; [done|]. intros (x & [= <-] & Hx). apply not_true_iff_false in E. apply E, existsb_exists.
      exists 47. split; [by apply list_elem_of_In|done]. }
  assert (token_ok t') as Hok.
  { destruct Ht as (_ & Hip & Hx & _). split; [done|]. split; [done|]. split; [done|]. cbn [t' t_Params].
    destruct Hparams as [[-> _]|[-> _]]; [apply map_Forall_empty|]. apply map_Forall_singleton. split; [done|].
    unfold literal. destruct (IndexByte abs 36) as [i|] eqn:Ei; [|done]. apply IndexByte_spec in Ei as [Hi _].
    apply (ValidString_prefix (length (take i abs)) _ 36 (drop (S i) abs)); [done|lia|]. by rewrite take_drop_middle. }
  rewrite (authorize_signed c now' r' nonce t' Hsign Hok Hnb Hnl). unfold inScope, ipOk. cbn [t' t_Exp t_IP t_Endpoint t_Params].
  rewrite Eexp, Eip. assert (paramsOk (Query r') (dashTemplateTokenParams abs) <->
    (pinned abs -> exists rest, decodeDest (getValue (Query r') (bs "d")) = literal abs ++ rest)) as ->.
  { destruct Hparams as [[-> Hno]|[-> Hpin]].
    - split; [done|]. intros _ k v Hkv. by rewrite lookup_empty in Hkv.
    - split.
      + intros H _. specialize (H tokenDestPrefixParam (literal abs)). rewrite decide_True in H by done. apply H. by rewrite lookup_singleton_eq.
      + intros H k v [<- <-]%lookup_singleton_Some. rewrite decide_True by done. by apply H. }
  naive_solver.
Qed.

End Carry.

(** * Witnesses *)

(** An enumeration of the keys of a query. *)
Definition keysOf (q : list (bytes * bytes)) : list bytes := remove_dups (fst <$> q).

Lemma keysOf_spec q k : k ∈ keysOf q <-> valuesOf q k <> [].
Proof.
  unfold keysOf. rewrite elem_of_remove_dups. induction q as [|[k' v] q IH]; cbn [fmap list_fmap fst].
  - split; [by intros ?%elem_of_nil|done].
  - rewrite elem_of_cons, valuesOf_cons, IH. destruct (decide (k' = k)); naive_solver.
Qed.

Definition wit_req_headers : Request :=
  MkReq (bs "/proxy/stream") (bs "d=aHR0cDovL2EvYg&h_user-agent=tv&token=" ++ wit_signed) (bs "203.0.113.9:5000") [].

Notation wit_opts :=
  (parseOptions (P := plainPrimitives) wit_parse wit_cfg 50 wit_req_headers (keysOf (Query wit_req_headers))).

Example wit_opts_headers : o_ReqHeaders wit_opts = {[ bs "User-Agent" := [bs "tv"] ]} /\ o_RespHeaders wit_opts = ∅ /\ o_subTokenExp wit_opts = 100.
Proof. vm_compute. done. Qed.

Lemma wit_order : (forall K, K ∈ [bs "User-Agent"] <-> is_Some (o_ReqHeaders wit_opts !! K)) /\
  (forall K, K ∈ [] <-> is_Some (o_RespHeaders wit_opts !! K)).
Proof.
  destruct wit_opts_headers as (-> & -> & _). split; intros K.
  - rewrite lookup_singleton_is_Some, list_elem_of_singleton. naive_solver.
  - rewrite lookup_empty. split; [by intros ?%elem_of_nil|by intros [? ?]].
Qed.

Lemma wit_raw : Forall is_byte (rq_RawQuery wit_req_headers) /\ Forall is_byte wit_nonce /\
  authorize (P := plainPrimitives) wit_cfg 50 wit_req_headers = None.
Proof.
  split; [|split; [apply Forall_replicate; unfold is_byte; lia|vm_compute; reflexivity]].
  apply Forall_forall. intros c Hc. assert (forallb (fun c => (0 <=? c) && (c <? 256)) (rq_RawQuery wit_req_headers) = true) as H by (vm_compute; reflexivity).
  rewrite forallb_forall in H. apply list_elem_of_In in Hc. apply H in Hc. unfold is_byte. bool_to_prop. lia.
Qed.

