(* ===== verification/ProxyServe.v ===== *)
(** Serving a proxied stream (internal/streamproxy/streamproxy.go, embed.go):
    which destinations and upstream proxies are refused, which headers pass in
    either direction, and the handler of /proxy/stream from the request to its
    answer.

    A handler is a function of the request and of what the world answers; it
    returns its effects in order.  The upstream, the resolver, the extractors,
    the decryptor and the outcome of a wait for the memory budget are parameters;
    the segment cache is SegCache's. *)

From S2P Require Import Prelude GoStrings NetIP Netguard SegCache Encoding NetURL ProxyAuth ProxyURL.

(** * Header policy *)

Definition allowedUpstreamHeaders : list bytes :=
  [bs "Content-Type"; bs "Content-Length"; bs "Content-Range"; bs "Accept-Ranges"; bs "Last-Modified"; bs "ETag"].

Definition copyAllowedHeaders (w hdr : header) : header :=
  foldl (fun w k => match hget hdr k with [] => w | v => hset w k v end) w allowedUpstreamHeaders.

Definition setProxySecurityHeaders (w : header) : header :=
  hset (hset w (bs "X-Content-Type-Options") (bs "nosniff")) (bs "Content-Security-Policy") (bs "sandbox").

Definition blockedResp : list bytes :=
  [bs "set-cookie"; bs "set-cookie2"; bs "refresh"; bs "location"; bs "content-security-policy";
   bs "content-security-policy-report-only"; bs "x-content-type-options"].

Definition BlockedRespHeader (name : bytes) : bool :=
  let k := ToLower (TrimSpace name) in
  if bool_decide (k ∈ blockedResp) then true else HasPrefix k (bs "access-control-").

Definition blockedReq : list bytes :=
  [bs "host"; bs "connection"; bs "keep-alive"; bs "proxy-authorization"; bs "proxy-authenticate"; bs "proxy-connection";
   bs "te"; bs "trailer"; bs "transfer-encoding"; bs "upgrade"; bs "content-length"; bs "forwarded"; bs "x-real-ip"].

Definition BlockedReqHeader (name : bytes) : bool :=
  let k := ToLower (TrimSpace name) in
  if bool_decide (k ∈ blockedReq) then true else HasPrefix k (bs "x-rivulet-") || HasPrefix k (bs "x-forwarded-").

(** The map's keys in the order [order]. *)
Definition applyRespHeaders (order : list bytes) (w rh : header) : header :=
  foldl (fun w k => if BlockedRespHeader k then w else foldl (fun w v => hset w k v) w (hvalues rh k)) w order.

(** The request headers that go upstream. *)
Definition upstreamHeaders (rh : header) : header := filter (fun kv => BlockedReqHeader kv.1 = false) rh.

(** * Decryption parameters *)

Fixpoint hexDecode (s : bytes) : option bytes :=
  match s with
  | [] => Some []
  | a :: b :: s =>
      match digit a, digit b with
      | Some x, Some y => cons (x * 16 + y) <$> hexDecode s
      | _, _ => None
      end
  | _ => None
  end.

Definition decodeKeyParam (s : bytes) : bytes :=
  match s with
  | [] => []
  | _ =>
      match hexDecode (TrimSpace s) with
      | Some b => b
      | None => match RawURLDecode s with
                | Some b => b
                | None => match StdDecode s with Some b => b | None => [] end
                end
      end
  end.

Record DecryptParams := MkDecrypt { d_Method : bytes; d_Key : bytes; d_KeyID : bytes; d_IV : bytes }.

Definition parseDecryptParams (r : Request) : DecryptParams :=
  let q := Query r in
  MkDecrypt (getValue q (bs "method")) (decodeKeyParam (getValue q (bs "key"))) (decodeKeyParam (getValue q (bs "key_id")))
    (decodeKeyParam (getValue q (bs "iv"))).

(** * Destinations *)

(** What the guards read of the configuration. *)
Record serveConfig := MkServe {
  s_auth : Config;
  s_BlockPrivate : bool;
  s_UpstreamProxy : bytes
}.

Definition proxyBlockPrivate (c : serveConfig) : bool :=
  s_BlockPrivate c || negb (bool_decide (c_Password (s_auth c) = [])) || negb (bool_decide (c_IPACL (s_auth c) = [])).

Inductive destErr := DParse | DScheme | DResolve | DMetadata | DPrivate.
Inductive proxyErr := PParse | PNoHost | PResolve | PNoIP | PRefused (e : guardErr).

Section Guards.
Context (urlParse : bytes -> option (bytes * bytes)).   (* scheme and host *)
Context (lookupHost : bytes -> option (list bytes)).
Context (lookupIP : Z -> bytes -> option (list bytes)).   (* the allowlist's resolver *)

(** The addresses of a host; [None] when it does not resolve. *)
Definition hostIPs (host : bytes) : option (list bytes) :=
  match ParseIP host with
  | [] => match lookupHost host with
          | Some addrs => Some (filter (fun ip : bytes => ip <> []) (ParseIP <$> addrs))
          | None => None
          end
  | ip => Some [ip]
  end.

Fixpoint destIPs (protected : bool) (now : Z) (ips : list bytes) (al : option Allow) : option destErr * option Allow :=
  match ips with
  | [] => (None, al)
  | ip :: ips =>
      if IsCloudMetadata ip then (Some DMetadata, al)
      else if protected && IsPrivate ip then
        let '(ok, al) := allowContains lookupIP now ip al in
        if negb ok then (Some DPrivate, al) else destIPs protected now ips al
      else destIPs protected now ips al
  end.

Definition ValidateDest (c : serveConfig) (now : Z) (rawurl : bytes) (al : option Allow) : option destErr * option Allow :=
  match urlParse rawurl with
  | None => (Some DParse, al)
  | Some (scheme, h) =>
      if negb (bool_decide (scheme = bs "http")) && negb (bool_decide (scheme = bs "https")) then (Some DScheme, al)
      else match hostIPs (Hostname h) with
           | None => (Some DResolve, al)
           | Some ips => destIPs (proxyBlockPrivate c) now ips al
           end
  end.

Fixpoint proxyIPs (blockPrivate : bool) (now : Z) (ips : list bytes) (al : option Allow) : option proxyErr * option Allow :=
  match ips with
  | [] => (None, al)
  | ip :: ips =>
      let '(e, al) := ValidateIPAllow lookupIP now ip blockPrivate al in
      match e with
      | Some e => (Some (PRefused e), al)
      | None => proxyIPs blockPrivate now ips al
      end
  end.

Definition validateProxyHost (c : serveConfig) (now : Z) (rawurl : bytes) (al : option Allow) : option proxyErr * option Allow :=
  match urlParse rawurl with
  | None => (Some PParse, al)
  | Some (_, h) =>
      match Hostname h with
      | [] => (Some PNoHost, al)
      | host =>
          match hostIPs host with
          | None => (Some PResolve, al)
          | Some [] => (Some PNoIP, al)
          | Some ips => proxyIPs (proxyBlockPrivate c) now ips al
          end
      end
  end.

Definition rejectBlockedProxyHost (c : serveConfig) (now : Z) (proxyURL : bytes) (al : option Allow) : bool * option Allow :=
  match proxyURL with
  | [] => (false, al)
  | _ => let '(e, al) := validateProxyHost c now proxyURL al in (bool_decide (e <> None), al)
  end.

End Guards.

(** * The handler *)

(** An upstream response: its length is -1 when unknown; the body ends in an
    error when [up_fail]. *)
Record upstream := MkUp {
  up_status : Z;
  up_header : header;
  up_length : Z;
  up_body : bytes;
  up_fail : bool
}.

Inductive effect :=
| Fetch (method url : bytes) (hdr : header) (proxy : bytes)
| Reserve (n : Z)
| Free (n : Z)
| Store (key : bytes) (val : bytes).

Inductive answer :=
| AError (status : Z)
| ARedirect (url : bytes)
| AData (status : Z) (hdr : header) (body : bytes).

(** What an extractor makes of an embed page. *)
Record embedResult := MkEmbed { em_URL : bytes; em_Endpoint : bytes; em_Headers : list (bytes * bytes) }.
Inductive extraction := NoMatch | Cached (res : embedResult) | Ran (res : option embedResult).

(** The request as the handler reads it. *)
Record streamRequest := MkStream {
  sr_req : Request;
  sr_Method : bytes;
  sr_Range : bytes;
  sr_keys : list bytes;       (* the order in which the query is visited *)
  sr_respOrder : list bytes   (* and the response overrides *)
}.

Section Handler.
Context `{P : Primitives}.
Context (urlParse : bytes -> option (bytes * bytes)) (lookupHost : bytes -> option (list bytes)).
Context (lookupIP : Z -> bytes -> option (list bytes)) (sha256hex : bytes -> bytes).
Context (extract : bytes -> bytes -> extraction).   (* destination, upstream proxy *)
Context (redirect : Options -> embedResult -> bytes).   (* buildProxyURL for the result *)
Context (fetch : bytes -> bytes -> header -> bytes -> option upstream).
Context (acquire tryAcquire : Z -> bool).
Context (decrypt : DecryptParams -> bytes -> option bytes).

(** resolveEmbed: an answer, or the options to go on with. *)
Definition resolveEmbed (c : serveConfig) (now : Z) (opts : Options) (endpoint : bytes) (al : option Allow)
    : (answer + Options) * option Allow :=
  let use res al :=
    let req := foldl (fun m kv => match hget m kv.1 with [] => hset m kv.1 kv.2 | _ => m end) (o_ReqHeaders opts) (em_Headers res) in
    let opts := MkOpts (o_Dest opts) req (o_RespHeaders opts) (o_APIPassword opts) (o_Proxy opts) (o_subTokenExp opts) (o_subTokenIP opts) in
    if negb (bool_decide (em_Endpoint res = endpoint)) then (inl (ARedirect (redirect opts res)), al)
    else (inr (withDest opts (em_URL res)), al) in
  match extract (o_Dest opts) (o_Proxy opts) with
  | NoMatch => (inr opts, al)
  | Cached res => use res al
  | Ran None => (inl (AError 502), al)
  | Ran (Some res) =>
      match ValidateDest urlParse lookupHost lookupIP c now (em_URL res) al with
      | (Some _, al) => (inl (AError 403), al)
      | (None, al) => use res al
      end
  end.

(** The decrypting path, after the fetch. *)
Definition serveDecrypted (sr : streamRequest) (opts : Options) (params : DecryptParams) (resp : upstream) : list effect * answer :=
  if maxSegmentBytes <? up_length resp then ([], AError 502)
  else
    let held := segmentReservation (up_length resp) in
    if negb (acquire held) then ([], AError 503)
    else
      match readSegment (up_body resp) (up_fail resp) (up_length resp) with
      | Err _ => ([Reserve held; Free held], AError 502)
      | Ok raw =>
          let extra := held - Z.of_nat (length raw) in
          let '(early, held') := if 0 <? extra then ([Free extra], held - extra) else ([], held) in
          match decrypt params raw with
          | None => (Reserve held :: early ++ [Free held'], AError 502)
          | Some plain =>
              let w := match hget (up_header resp) (bs "Content-Type") with [] => ∅ | ct => hset ∅ (bs "Content-Type") ct end in
              let w := setProxySecurityHeaders (applyRespHeaders (sr_respOrder sr) w (o_RespHeaders opts)) in
              let w := hset w (bs "Content-Length") (Itoa (Z.of_nat (length plain))) in
              (Reserve held :: early ++ [Free held'],
               AData 200 w (if bool_decide (sr_Method sr = bs "HEAD") then [] else plain))
          end
      end.

Definition respond (sr : streamRequest) (opts : Options) (hdr : header) (status : Z) (body : bytes) : answer :=
  AData status (setProxySecurityHeaders (applyRespHeaders (sr_respOrder sr) (copyAllowedHeaders ∅ hdr) (o_RespHeaders opts))) body.

(** cacheLookup: the cached body, headers and status. *)
Definition cacheLookup (key : bytes) (now : Z) (cache : segCache) : option (bytes * header * Z) * segCache :=
  match getFull key now cache with
  | (None, cache) => (None, cache)
  | (Some e, cache) =>
      (Some (ce_val e, match ce_hdr e with
                       | Some h => h
                       | None => hset ∅ (bs "Content-Length") (Itoa (Z.of_nat (length (ce_val e))))
                       end, ce_status e), cache)
  end.

(** The path that passes bytes through, buffering what the cache will keep. *)
Definition servePlain (sr : streamRequest) (opts : Options) (now : Z) (upHdr : header) (effProxy : bytes) (cache : option segCache)
    : list effect * answer * option segCache :=
  let upHdr := match sr_Range sr with [] => upHdr | rng => hset upHdr (bs "Range") rng end in
  let key := cacheKey sha256hex (o_Dest opts) upHdr in
  let useCache := bool_decide (sr_Method sr = bs "GET") && bool_decide (sr_Range sr = []) in
  let '(hit, cache) :=
    match cache with
    | Some ca => if useCache then let '(hit, ca) := cacheLookup key now ca in (hit, Some ca) else (None, cache)
    | None => (None, None)
    end in
  match hit with
  | Some (data, hdr, status) => ([], respond sr opts hdr status data, cache)
  | None =>
      let f := Fetch (sr_Method sr) (o_Dest opts) upHdr effProxy in
      match fetch (sr_Method sr) (o_Dest opts) upHdr effProxy with
      | None => ([f], AError 502, cache)
      | Some resp =>
          let stream := ([f], respond sr opts (up_header resp) (up_status resp)
                           (if bool_decide (sr_Method sr = bs "HEAD") then [] else up_body resp), cache) in
          match cache with
          | Some ca =>
              if useCache && cacheableResponse (up_status resp) (up_length resp) && (up_length resp <=? sc_maxBytes ca) then
                let n := up_length resp in
                if tryAcquire n then
                  match readSegment (up_body resp) (up_fail resp) n with
                  | Err _ => ([f; Reserve n; Free n], AError 502, cache)
                  | Ok data =>
                      ([f; Reserve n; Store key data; Free n], respond sr opts (up_header resp) (up_status resp) data,
                       Some (putFull key data (Some (up_header resp)) (up_status resp) now ca))
                  end
                else stream
              else stream
          | None => stream
          end
      end
  end.

(** What every handler of the proxy does first: authorization, the options, the
    two guards and embed pages. *)
Definition gate (c : serveConfig) (now : Z) (sr : streamRequest) (endpoint : bytes) (al : option Allow)
    : (answer + Options) * option Allow :=
  match authorize (s_auth c) now (sr_req sr) with
  | Some errForbidden => (inl (AError 403), al)
  | Some errUnauthorized => (inl (AError 401), al)
  | None =>
      let opts := parseOptions urlParse (s_auth c) now (sr_req sr) (sr_keys sr) in
      if bool_decide (o_Dest opts = []) then (inl (AError 400), al)
      else
        match ValidateDest urlParse lookupHost lookupIP c now (o_Dest opts) al with
        | (Some _, al) => (inl (AError 403), al)
        | (None, al) =>
            match rejectBlockedProxyHost urlParse lookupHost lookupIP c now (o_Proxy opts) al with
            | (true, al) => (inl (AError 403), al)
            | (false, al) => resolveEmbed c now opts endpoint al
            end
        end
  end.

Definition effProxy (c : serveConfig) (opts : Options) : bytes :=
  match o_Proxy opts with [] => s_UpstreamProxy c | p => p end.

Definition serveStream (c : serveConfig) (now : Z) (sr : streamRequest) (al : option Allow) (cache : option segCache)
    : list effect * answer * option Allow * option segCache :=
  match gate c now sr (bs "/proxy/stream") al with
  | (inl a, al) => ([], a, al, cache)
  | (inr opts, al) =>
      let params := parseDecryptParams (sr_req sr) in
      let upHdr := upstreamHeaders (o_ReqHeaders opts) in
      let proxy := effProxy c opts in
      if negb (bool_decide (d_Method params = [])) && negb (bool_decide (d_Key params = [])) then
        let f := Fetch (bs "GET") (o_Dest opts) upHdr proxy in
        match fetch (bs "GET") (o_Dest opts) upHdr proxy with
        | None => ([f], AError 502, al, cache)
        | Some resp => let '(fx, a) := serveDecrypted sr opts params resp in (f :: fx, a, al, cache)
        end
      else
        let '(fx, a, cache) := servePlain sr opts now upHdr proxy cache in (fx, a, al, cache)
  end.

End Handler.

(** * Guards *)

Definition privateSpan (a : addr) : Prop :=
  match a with A4 z => within privateV4 z | A6 z => within privateV6 z end.

Lemma hostAddrs_twice lookup now a :
  hostAddrs lookup now (snd (hostAddrs lookup now a)) = hostAddrs lookup now a.
Proof.
  assert (forall n h ips, hostAddrs lookup now (MkAllow n h (Some ips) now) = (ips, MkAllow n h (Some ips) now)) as Hfresh.
  { intros n h ips. unfold hostAddrs. cbn. by rewrite Z.sub_diag. }
  unfold hostAddrs at 2 3. destruct (al_hostIPs a) as [ips|] eqn:E; [destruct (_ <? _) eqn:Et|]; cbn [snd]; [|apply Hfresh..].
  unfold hostAddrs. by rewrite E, Et.
Qed.

(** Asking for one address does not change the answer for another. *)
Lemma allowContains_stable lookup now x y al :
  fst (allowContains lookup now x (snd (allowContains lookup now y al))) = fst (allowContains lookup now x al).
Proof.
  destruct al as [a|]; [|done].
  assert (snd (allowContains lookup now y (Some a)) = Some a \/ snd (allowContains lookup now y (Some a)) = Some (snd (hostAddrs lookup now a))) as [-> | ->]; [|done|].
  { unfold allowContains. destruct y; [by left|]. destruct (IsCloudMetadata _); [by left|]. destruct (existsb _ (al_nets a)); [by left|].
    destruct (al_hosts a); [by left|]. right. by destruct (hostAddrs lookup now a). }
  pose proof (hostAddrs_twice lookup now a) as H2. pose proof (hostAddrs_same lookup now a) as Hs. unfold sameEntries in Hs. cbn in Hs.
  injection Hs as Hn Hh. unfold allowContains. rewrite Hn, Hh, H2. destruct (hostAddrs lookup now a). cbn [snd]. by repeat case_match.
Qed.

Section GuardSpecs.
Context (urlParse : bytes -> option (bytes * bytes)) (lookupHost : bytes -> option (list bytes)).
Context (lookupIP : Z -> bytes -> option (list bytes)).

Lemma hostIPs_addr host ips : hostIPs lookupHost host = Some ips -> Forall is_addr ips.
Proof.
  assert (forall s, ParseIP s <> [] -> is_addr (ParseIP s)) as HP.
  { intros s H. apply ParseIP_addr in H as [? ?]. split; [by right|done]. }
  unfold hostIPs. pose proof (HP host) as Hh. destruct (ParseIP host) as [|x ip].
  - destruct (lookupHost host) as [addrs|]; [|done]. intros [= <-]. apply Forall_forall.
    intros ip [Hne (s & -> & _)%list_elem_of_fmap]%list_elem_of_filter. by apply HP.
  - intros [= <-]. constructor; [by apply Hh|constructor].
Qed.

Definition allowedNow (now : Z) (al : option Allow) (ip : bytes) : Prop := fst (allowContains lookupIP now ip al) = true.

Lemma destIPs_spec protected now ips al : Forall is_addr ips ->
  fst (destIPs lookupIP protected now ips al) = None <->
  forall ip, ip ∈ ips -> ~ metadata (addrOf ip) /\
    (protected = true -> privateSpan (addrOf ip) -> allowedNow now al ip).
Proof.
  intros Ha. revert al. induction Ha as [|ip ips Hip _ IH]; intros al; cbn [destIPs].
  { split; [|done]. intros _ ip Hin. by apply elem_of_nil in Hin. }
  pose proof (isCloudMetadata_spec ip Hip) as Hm. pose proof (isPrivate_spec ip Hip) as Hp. fold (privateSpan (addrOf ip)) in Hp.
  assert (forall b al', b = true <-> (protected = true -> privateSpan (addrOf ip) -> allowedNow now al ip) ->
    (forall x, allowedNow now al' x <-> allowedNow now al x) -> IsCloudMetadata ip = false ->
    fst (if b then destIPs lookupIP protected now ips al' else (Some DPrivate, al')) = None <->
    forall x, x ∈ ip :: ips -> ~ metadata (addrOf x) /\ (protected = true -> privateSpan (addrOf x) -> allowedNow now al x)) as Hstep.
  { intros b al' Hb Hal Hmeta. destruct b.
    - rewrite IH. split.
      + intros H x [->|Hx]%elem_of_cons.
        * split; [|by apply Hb]. intros H2%Hm. congruence.
        * destruct (H x Hx) as [H1 H2]. split; [done|]. intros ? ?. by apply Hal, H2.
      + intros H x Hx. destruct (H x (list_elem_of_further _ _ _ Hx)) as [H1 H2]. split; [done|]. intros ? ?. by apply Hal, H2.
    - split; [done|]. intros H. destruct (H ip (list_elem_of_here _ _)) as [_ H2]. by apply Hb in H2. }
  destruct (IsCloudMetadata ip) eqn:Emeta.
  { split; [done|]. intros H. destruct (H ip (list_elem_of_here _ _)) as [Hn _]. by destruct Hn; apply Hm. }
  destruct (protected && IsPrivate ip) eqn:Epp.
  - apply andb_true_iff in Epp as [-> Epriv]. apply Hp in Epriv.
    pose proof (fun x => allowContains_stable lookupIP now x ip al) as Hst. destruct (allowContains lookupIP now ip al) as [ok al'] eqn:Ea.
    cbn [snd] in Hst. assert (forall x, allowedNow now al' x <-> allowedNow now al x) as Hal by (intros x; unfold allowedNow; by rewrite Hst).
    assert (ok = true <-> (true = true -> privateSpan (addrOf ip) -> allowedNow now al ip)) as Hb.
    { unfold allowedNow. rewrite Ea. cbn [fst]. naive_solver. }
    destruct ok; [exact (Hstep true al' Hb Hal eq_refl)|exact (Hstep false al' Hb Hal eq_refl)].
  - apply (Hstep true al); [|done|done]. split; [|done]. intros _ Hpr Hs. apply Hp in Hs. by rewrite Hpr, Hs in Epp.
Qed.

(** An http(s) URL none of whose addresses is a metadata address or, on a
    protected proxy, a private one that is not listed. *)
Definition destAllowed (c : serveConfig) (now : Z) (al : option Allow) (rawurl : bytes) : Prop :=
  exists scheme h ips, urlParse rawurl = Some (scheme, h) /\ (scheme = bs "http" \/ scheme = bs "https") /\
    hostIPs lookupHost (Hostname h) = Some ips /\
    forall ip, ip ∈ ips -> ~ metadata (addrOf ip) /\
      (proxyBlockPrivate c = true -> privateSpan (addrOf ip) -> allowedNow now al ip).

(** A URL whose host has addresses, each of which the address guard lets through. *)
Definition proxyAllowed (c : serveConfig) (now : Z) (al : option Allow) (rawurl : bytes) : Prop :=
  exists scheme h ips, urlParse rawurl = Some (scheme, h) /\ Hostname h <> [] /\ hostIPs lookupHost (Hostname h) = Some ips /\ ips <> [] /\
    forall ip, ip ∈ ips -> proxyBlockPrivate c = true /\ allowedNow now al ip \/
      ~ metadata (addrOf ip) /\ (proxyBlockPrivate c = true -> ~ internal (addrOf ip)).

Lemma validateDest_spec c now rawurl al :
  fst (ValidateDest urlParse lookupHost lookupIP c now rawurl al) = None <-> destAllowed c now al rawurl.
Proof.
  unfold destAllowed.
  unfold ValidateDest. destruct (urlParse rawurl) as [[scheme h]|]; [|split; [done|by intros (? & ? & ? & ? & _)]].
  destruct (negb _ && negb _) eqn:Es.
  { split; [done|]. intros (s & h' & ips & [= <- <-] & [-> | ->] & _); done. }
  assert (scheme = bs "http" \/ scheme = bs "https") as Hs.
  { apply andb_false_iff in Es as [E|E]; apply negb_false_iff, bool_decide_eq_true in E; auto. }
  destruct (hostIPs lookupHost (Hostname h)) as [ips|] eqn:Eh.
  - rewrite destIPs_spec by (by eapply hostIPs_addr). split.
    + intros H. by exists scheme, h, ips.
    + intros (s & h' & ips' & [= <- <-] & _ & E & H). assert (ips' = ips) as -> by congruence. exact H.
  - split; [done|]. intros (s & h' & ips' & [= <- <-] & _ & E & H). congruence.
Qed.

Lemma proxyIPs_spec b now ips al : Forall is_addr ips ->
  fst (proxyIPs lookupIP b now ips al) = None <->
  forall ip, ip ∈ ips -> b = true /\ allowedNow now al ip \/ ~ metadata (addrOf ip) /\ (b = true -> ~ internal (addrOf ip)).
Proof.
  intros Ha. revert al. induction Ha as [|ip ips Hip _ IH]; intros al; cbn [proxyIPs].
  { split; [|done]. intros _ ip Hin. by apply elem_of_nil in Hin. }
  destruct (validateIP_spec ip b Hip) as (_ & Hv & _). unfold ValidateIPAllow.
  set (st := if b then allowContains lookupIP now ip al else (false, al)).
  assert (forall x, allowedNow now st.2 x <-> allowedNow now al x) as Hst.
  { intros x. unfold st, allowedNow. destruct b; [by rewrite allowContains_stable|done]. }
  assert (st.1 = true <-> b = true /\ allowedNow now al ip) as Hok.
  { unfold st, allowedNow. destruct b; [naive_solver|]. cbn. naive_solver. }
  destruct st as [ok al']. cbn [fst snd] in *.
  assert ((if ok then None else ValidateIP ip b) = None <->
    b = true /\ allowedNow now al ip \/ ~ metadata (addrOf ip) /\ (b = true -> ~ internal (addrOf ip))) as He.
  { destruct ok; [split; [intros _; left; by apply Hok|done]|]. rewrite Hv. split; [by right|]. intros [H|H]; [by apply Hok in H|done]. }
  destruct (if ok then None else ValidateIP ip b) as [e|].
  - split; [done|]. intros H. by pose proof (proj2 He (H ip (list_elem_of_here _ _))).
  - rewrite IH. setoid_rewrite Hst. split.
    + intros H x [->|Hx]%elem_of_cons; [by apply He|by apply H].
    + intros H x Hx. by apply H, list_elem_of_further.
Qed.

Lemma validateProxyHost_spec c now rawurl al :
  fst (validateProxyHost urlParse lookupHost lookupIP c now rawurl al) = None <-> proxyAllowed c now al rawurl.
Proof.
  unfold proxyAllowed.
  unfold validateProxyHost. destruct (urlParse rawurl) as [[scheme h]|]; [|split; [done|by intros (? & ? & ? & ? & _)]].
  destruct (Hostname h) as [|x host] eqn:Eh; [split; [done|intros (? & h' & ? & [= <- <-] & ? & _); congruence]|]. rewrite <- Eh.
  assert (Hostname h <> []) as Hne by (by rewrite Eh). clear x host Eh.
  destruct (hostIPs lookupHost (Hostname h)) as [ips|] eqn:Ei.
  - pose proof (hostIPs_addr _ _ Ei) as Ha. destruct ips as [|ip ips].
    { split; [done|]. intros (? & ? & ips & [= <- <-] & _ & E & Hn & _). congruence. }
    rewrite proxyIPs_spec by done. split.
    + intros H. by exists scheme, h, (ip :: ips).
    + intros (? & ? & ips' & [= <- <-] & _ & E & _ & H). assert (ips' = ip :: ips) as -> by congruence. exact H.
  - split; [done|]. intros (? & ? & ips & [= <- <-] & _ & E & _). congruence.
Qed.

(** The guards only refresh the allowlist. *)
Definition sameNow (now : Z) (al al' : option Allow) : Prop := forall x, allowedNow now al' x <-> allowedNow now al x.

Lemma destIPs_state protected now ips al : sameNow now al (snd (destIPs lookupIP protected now ips al)).
Proof.
  revert al. induction ips as [|ip ips IH]; intros al; cbn [destIPs]; [done|]. destruct (IsCloudMetadata ip); [done|].
  destruct (protected && IsPrivate ip); [|apply IH]. pose proof (fun x => allowContains_stable lookupIP now x ip al) as Hst.
  destruct (allowContains lookupIP now ip al) as [ok al']. cbn [snd] in Hst.
  assert (sameNow now al al') as H by (intros x; unfold allowedNow; by rewrite Hst).
  destruct ok; cbn [negb snd]; [|done]. intros x. by rewrite (IH al' x), (H x).
Qed.

Lemma validateDest_state c now rawurl al : sameNow now al (snd (ValidateDest urlParse lookupHost lookupIP c now rawurl al)).
Proof.
  unfold ValidateDest. destruct (urlParse rawurl) as [[s h]|]; [|done]. destruct (_ && _); [done|].
  destruct (hostIPs _ _); [apply destIPs_state|done].
Qed.

Lemma proxyIPs_state b now ips al : sameNow now al (snd (proxyIPs lookupIP b now ips al)).
Proof.
  revert al. induction ips as [|ip ips IH]; intros al; cbn [proxyIPs]; [done|]. unfold ValidateIPAllow.
  set (st := if b then allowContains lookupIP now ip al else (false, al)).
  assert (sameNow now al st.2) as H.
  { intros x. unfold st, allowedNow. destruct b; [by rewrite allowContains_stable|done]. }
  destruct st as [ok al']. cbn [snd] in H. destruct (if ok then None else _); [done|]. intros x. by rewrite (IH al' x), (H x).
Qed.

Lemma rejectBlockedProxyHost_spec c now proxyURL al :
  let r := rejectBlockedProxyHost urlParse lookupHost lookupIP c now proxyURL al in
  (r.1 = false <-> proxyURL = [] \/ proxyAllowed c now al proxyURL) /\ sameNow now al r.2.
Proof.
  unfold rejectBlockedProxyHost. destruct proxyURL as [|x p]; [split; [split; [by left|done]|done]|].
  pose proof (validateProxyHost_spec c now (x :: p) al) as Hs.
  assert (sameNow now al (snd (validateProxyHost urlParse lookupHost lookupIP c now (x :: p) al))) as Hst.
  { unfold validateProxyHost. destruct (urlParse _) as [[s h]|]; [|done]. destruct (Hostname h); [done|].
    destruct (hostIPs _ _) as [[|ip ips]|]; [done|apply proxyIPs_state|done]. }
  destruct (validateProxyHost _ _ _ _ _ _ _) as [e al']. cbn [fst snd] in *. split; [|done].
  rewrite bool_decide_eq_false. rewrite <- Hs. split; [intros H; right; by destruct e; [destruct H|]|intros [H|H]; [done|intros Hn; by apply Hn]].
Qed.

Lemma destAllowed_same c now al al' rawurl : sameNow now al al' -> destAllowed c now al' rawurl <-> destAllowed c now al rawurl.
Proof. intros H. unfold destAllowed. by setoid_rewrite (H _). Qed.

Lemma proxyAllowed_same c now al al' rawurl : sameNow now al al' -> proxyAllowed c now al' rawurl <-> proxyAllowed c now al rawurl.
Proof. intros H. unfold proxyAllowed. by setoid_rewrite (H _). Qed.
End GuardSpecs.

(** * Header policy *)

Lemma hset_lookup w k v K : hset w k v !! K = if decide (CanonicalHeaderKey k = K) then Some [v] else w !! K.
Proof. unfold hset. destruct (decide _) as [<-|]; [apply lookup_insert_eq|by apply lookup_insert_ne]. Qed.

Lemma tokenByte_nospace c : tokenByte c = true -> isSpace c = false.
Proof.
  intros H. destruct (isSpace c) eqn:E; [|done]. unfold isSpace in E. apply orb_true_iff in E. rewrite andb_true_iff, !Z.leb_le, Z.eqb_eq in E.
  assert (c = 9 \/ c = 10 \/ c = 11 \/ c = 12 \/ c = 13 \/ c = 32) as Hc by lia.
  by destruct Hc as [-> | [-> | [-> | [-> | [-> | ->]]]]].
Qed.

Lemma TrimSpace_nospace s : Forall (fun c => isSpace c = false) s -> TrimSpace s = s.
Proof.
  assert (forall s, Forall (fun c => isSpace c = false) s -> trimLeft s = s) as H.
  { intros s0 H. destruct H as [|c s0 Hc _]; [done|]. cbn. by rewrite Hc. }
  intros Hs. unfold TrimSpace. rewrite (H s) by done. rewrite (H (rev s)) by (by apply Forall_rev). by rewrite rev_involutive.
Qed.

Lemma canonical_lower s : ToLower (TrimSpace (CanonicalHeaderKey s)) = ToLower (TrimSpace s).
Proof.
  unfold CanonicalHeaderKey. destruct (forallb tokenByte s) eqn:E; [|done].
  assert (forall s, forallb tokenByte s = true -> Forall (fun c => isSpace c = false) s) as Hns.
  { intros s0 H. rewrite forallb_forall in H. apply Forall_forall. intros c Hc. by apply tokenByte_nospace, H, list_elem_of_In. }
  rewrite !TrimSpace_nospace by (apply Hns; try done; by apply canonical_from_token). clear E Hns.
  unfold ToLower. generalize true. induction s as [|c s IH]; intros up; [done|]. cbn [canonical_from fmap list_fmap]. rewrite IH. f_equal.
  unfold toLower1. destruct up.
  - destruct ((97 <=? c) && (c <=? 122)) eqn:E; [|done]. bool_to_prop.
    rewrite (proj2 (Z.leb_le 65 (c - 32))), (proj2 (Z.leb_le (c - 32) 90)) by lia. cbn [andb].
    rewrite (proj2 (Z.leb_gt c 90)), andb_false_r by lia. lia.
  - destruct ((65 <=? c) && (c <=? 90)) eqn:E; [|by rewrite E]. bool_to_prop.
    by rewrite (proj2 (Z.leb_gt (c + 32) 90)), andb_false_r by lia.
Qed.

Lemma blocked_canonical k : BlockedRespHeader (CanonicalHeaderKey k) = BlockedRespHeader k.
Proof. unfold BlockedRespHeader. by rewrite canonical_lower. Qed.

Lemma blockedReq_canonical k : BlockedReqHeader (CanonicalHeaderKey k) = BlockedReqHeader k.
Proof. unfold BlockedReqHeader. by rewrite canonical_lower. Qed.

(** No header in the way of the sandbox. *)
Definition clean_header (w : header) : Prop := forall K, is_Some (w !! K) -> BlockedRespHeader K = false.

Lemma hset_clean w k v : clean_header w -> BlockedRespHeader k = false -> clean_header (hset w k v).
Proof.
  intros Hw Hk K. rewrite hset_lookup. destruct (decide _) as [<-|]; [|apply Hw]. intros _. by rewrite blocked_canonical.
Qed.

Lemma copyAllowed_clean w hdr : clean_header w -> clean_header (copyAllowedHeaders w hdr).
Proof.
  unfold copyAllowedHeaders. assert (Forall (fun k => BlockedRespHeader k = false) allowedUpstreamHeaders) as Ha by (repeat constructor).
  revert w. induction Ha as [|k ks Hk _ IH]; intros w Hw; [done|]. cbn [foldl]. apply IH. destruct (hget hdr k); [done|by apply hset_clean].
Qed.

Lemma applyResp_clean order w rh : clean_header w -> clean_header (applyRespHeaders order w rh).
Proof.
  unfold applyRespHeaders. revert w. induction order as [|k order IH]; intros w Hw; [done|]. cbn [foldl]. apply IH.
  destruct (BlockedRespHeader k) eqn:Hk; [done|]. generalize (hvalues rh k) as vs. intros vs. revert w Hw.
  induction vs as [|v vs IHv]; intros w Hw; [done|]. cbn [foldl]. by apply IHv, hset_clean.
Qed.

(** What the browser is told about proxied content. *)
Definition secured (w : header) : Prop :=
  w !! bs "X-Content-Type-Options" = Some [bs "nosniff"] /\ w !! bs "Content-Security-Policy" = Some [bs "sandbox"] /\
  forall K, is_Some (w !! K) -> K = bs "X-Content-Type-Options" \/ K = bs "Content-Security-Policy" \/ BlockedRespHeader K = false.

Lemma set_secured w : clean_header w -> secured (setProxySecurityHeaders w).
Proof.
  intros Hw. unfold setProxySecurityHeaders. split; [|split].
  - by rewrite !hset_lookup.
  - by rewrite hset_lookup.
  - intros K. rewrite !hset_lookup. destruct (decide _) as [<-|]; [by right; left|]. destruct (decide _) as [<-|]; [by left|].
    intros H. right. right. by apply Hw.
Qed.

Lemma length_secured w n : secured w -> secured (hset w (bs "Content-Length") n).
Proof.
  intros (H1 & H2 & H3). split; [by rewrite hset_lookup|]. split; [by rewrite hset_lookup|].
  intros K. rewrite hset_lookup. destruct (decide _) as [<-|]; [by right; right|apply H3].
Qed.

Lemma upstream_clean rh k : is_Some (upstreamHeaders rh !! k) -> BlockedReqHeader k = false.
Proof. unfold upstreamHeaders. intros [vs H]. by apply map_lookup_filter_Some in H as [_ ?]. Qed.

(** * The memory budget *)

(** The bytes of the budget a handler holds after some of its effects. *)
Definition held_step (b : Z) (e : effect) : Z :=
  match e with Reserve n => b + n | Free n => b - n | _ => b end.
Definition held (fx : list effect) : Z := foldl held_step 0 fx.

Definition held_ok (fx : list effect) : Prop :=
  held fx = 0 /\ forall n, 0 <= held (take n fx) <= maxSegmentBytes.

Definition is_fetch (e : effect) : bool := match e with Fetch _ _ _ _ => true | _ => false end.

Lemma held_ok_cons e fx : is_fetch e = true -> held_ok fx -> held_ok (e :: fx).
Proof.
  intros He [H0 H]. destruct e; try done. split; [done|]. intros [|n]; [cbn; unfold maxSegmentBytes; lia|]. exact (H n).
Qed.

Lemma held_add b fx : foldl held_step b fx = b + held fx.
Proof.
  unfold held. revert b. induction fx as [|e fx IH]; intros b; cbn [foldl]; [lia|].
  rewrite IH, (IH (held_step 0 e)). destruct e; cbn; lia.
Qed.

(** Effects that take nothing more from the budget. *)
Definition frees (e : effect) : Prop := match e with Free k => 0 <= k | Reserve _ => False | _ => True end.

Lemma held_frees fx n : Forall frees fx -> held fx <= held (take n fx) <= 0.
Proof.
  intros Hfx. revert n. induction Hfx as [|e fx He Hfx IH]; intros n; [by destruct n|].
  assert (held_step 0 e <= 0) as H0 by (destruct e; cbn in *; lia).
  assert (held (e :: fx) = held_step 0 e + held fx) as -> by exact (held_add (held_step 0 e) fx).
  destruct n as [|n]; [specialize (IH 0%nat); cbn in *; lia|].
  assert (held (take (S n) (e :: fx)) = held_step 0 e + held (take n fx)) as -> by exact (held_add (held_step 0 e) (take n fx)).
  specialize (IH n). lia.
Qed.

Lemma held_ok_reserve n fx : 0 <= n <= maxSegmentBytes -> Forall frees fx -> n + held fx = 0 -> held_ok (Reserve n :: fx).
Proof.
  intros Hn Hfx H0. split; [unfold held; cbn [foldl]; rewrite held_add; exact H0|].
  intros [|m]; [cbn; lia|]. cbn [take]. unfold held. cbn [foldl]. rewrite held_add. cbn [held_step].
  pose proof (held_frees fx m Hfx). lia.
Qed.

Lemma readSegment_fits body fail len raw :
  len <= maxSegmentBytes -> readSegment body fail len = Ok raw -> Z.of_nat (length raw) <= segmentReservation len.
Proof.
  intros Hl. unfold readSegment, segmentReservation. rewrite (proj2 (Z.ltb_ge maxSegmentBytes len)) by lia.
  destruct (Z.leb_spec 0 len) as [H0|H0].
  - rewrite (proj2 (Z.ltb_ge len 0)) by lia. destruct (_ <? _); [done|]. intros [= <-]. rewrite length_take. lia.
  - rewrite (proj2 (Z.ltb_lt len 0)) by lia. destruct (_ && _); [done|]. destruct (Z.ltb_spec maxSegmentBytes (Z.of_nat (length (take (Z.to_nat (maxSegmentBytes + 1)) body)))); [done|].
    by intros [= <-].
Qed.

(** * The handler *)

Section HandlerSpecs.
Context `{P : Primitives}.
Context (urlParse : bytes -> option (bytes * bytes)) (lookupHost : bytes -> option (list bytes)).
Context (lookupIP : Z -> bytes -> option (list bytes)) (sha256hex : bytes -> bytes).
Context (extract : bytes -> bytes -> extraction) (redirect : Options -> embedResult -> bytes).
Context (fetch : bytes -> bytes -> header -> bytes -> option upstream).
Context (acquire tryAcquire : Z -> bool) (decrypt : DecryptParams -> bytes -> option bytes).

(** What any answer of the handler must be. *)
Definition answer_ok (fx : list effect) (a : answer) : Prop :=
  held_ok fx /\ forall s h b, a = AData s h b -> secured h.

Lemma held_ok_nil : held_ok [].
Proof. split; [done|]. intros n. rewrite take_nil. cbn. unfold maxSegmentBytes. lia. Qed.

Lemma respond_secured sr opts hdr status body s h b : respond sr opts hdr status body = AData s h b -> secured h.
Proof.
  unfold respond. intros [= _ <- _]. apply set_secured, applyResp_clean, copyAllowed_clean. intros K [? H]. by rewrite lookup_empty in H.
Qed.

Lemma serveDecrypted_ok sr opts params resp :
  let '(fx, a) := serveDecrypted acquire decrypt sr opts params resp in
  answer_ok fx a /\ Forall (fun e => is_fetch e = false) fx.
Proof.
  unfold serveDecrypted. destruct (Z.ltb_spec maxSegmentBytes (up_length resp)) as [|Hlen]; [split; [split; [apply held_ok_nil|done]|constructor]|].
  destruct (acquire _); cbn [negb]; [|split; [split; [apply held_ok_nil|done]|constructor]].
  assert (0 <= segmentReservation (up_length resp) <= maxSegmentBytes) as Hseg.
  { unfold segmentReservation. destruct (Z.ltb_spec (up_length resp) 0); unfold maxSegmentBytes in *; lia. }
  pose proof (readSegment_fits (up_body resp) (up_fail resp) (up_length resp)) as Hfit.
  destruct (readSegment _ _ _) as [raw|].
  2:{ split; [|by repeat constructor]. split; [|done]. apply held_ok_reserve; [done|repeat constructor; cbn; lia|cbn; lia]. }
  specialize (Hfit raw Hlen eq_refl). set (held0 := segmentReservation (up_length resp)) in *.
  destruct (if 0 <? held0 - Z.of_nat (length raw) then _ else _) as [early held'] eqn:Eh.
  assert (Forall frees (early ++ [Free held']) /\ held0 + held (early ++ [Free held']) = 0 /\ Forall (fun e => is_fetch e = false) early) as (Hf & Hz & Hn).
  { destruct (Z.ltb_spec 0 (held0 - Z.of_nat (length raw))); injection Eh as <- <-; (split; [repeat constructor; cbn; lia|]); (split; [cbn; lia|repeat constructor]). }
  assert (Forall (fun e => is_fetch e = false) (Reserve held0 :: early ++ [Free held'])) as Hnf.
  { constructor; [done|]. apply Forall_app. split; [done|]. by constructor. }
  destruct (decrypt params raw) as [plain|]; (split; [|exact Hnf]); (split; [by apply held_ok_reserve|]); [|done].
  intros s h b [= _ <- _]. apply length_secured, set_secured, applyResp_clean.
  assert (clean_header ∅) as H0 by (intros K [? H]; by rewrite lookup_empty in H).
  destruct (hget _ _); [done|by apply hset_clean].
Qed.

Lemma servePlain_ok sr opts now upHdr effProxy cache :
  let '(fx, a, _) := servePlain sha256hex fetch tryAcquire sr opts now upHdr effProxy cache in
  answer_ok fx a /\ forall m u h p, Fetch m u h p ∈ fx ->
    u = o_Dest opts /\ p = effProxy /\ forall k, is_Some (h !! k) -> is_Some (upHdr !! k) \/ k = bs "Range".
Proof.
  unfold servePlain. set (upHdr' := match sr_Range sr with [] => upHdr | _ => _ end).
  assert (forall k, is_Some (upHdr' !! k) -> is_Some (upHdr !! k) \/ k = bs "Range") as Hup.
  { intros k. unfold upHdr'. destruct (sr_Range sr); [by left|]. rewrite hset_lookup. destruct (decide _) as [<-|]; [by right|by left]. }
  destruct (match cache with Some ca => _ | None => _ end) as [hit cache'].
  assert (forall e, is_fetch e = true -> held_ok [e]) as H1 by (intros e He; apply (held_ok_cons e []); [done|apply held_ok_nil]).
  set (f := Fetch (sr_Method sr) (o_Dest opts) upHdr' effProxy).
  assert (forall fx, Forall (fun e => is_fetch e = false) fx -> forall m u h p, Fetch m u h p ∈ f :: fx ->
    u = o_Dest opts /\ p = effProxy /\ forall k, is_Some (h !! k) -> is_Some (upHdr !! k) \/ k = bs "Range") as Hf.
  { intros fx Hfx m u h p [E|Hin]%elem_of_cons; [injection E as -> -> -> ->; done|]. by apply (proj1 (Forall_forall _ _) Hfx) in Hin. }
  assert (forall (resp : upstream) (cc : option segCache) b, answer_ok [f] (respond sr opts (up_header resp) (up_status resp) b)) as Hstream.
  { intros resp cc b. split; [by apply H1|]. intros s h x. apply respond_secured. }
  destruct hit as [[[data hdr] status]|].
  { split; [split; [apply held_ok_nil|intros ? ? ?; apply respond_secured]|]. intros ? ? ? ? Hin. by apply elem_of_nil in Hin. }
  destruct (fetch _ _ _ _) as [resp|]; [|split; [split; [by apply H1|done]|by apply Hf]].
  destruct cache' as [ca|]; [|split; [by apply Hstream|by apply Hf]].
  destruct (_ && _) eqn:Ec; [|split; [by apply Hstream|by apply Hf]].
  destruct (tryAcquire _); [|split; [by apply Hstream|by apply Hf]].
  assert (0 <= up_length resp <= maxSegmentBytes) as Hlen.
  { apply andb_true_iff in Ec as [[_ Ec]%andb_true_iff _]. unfold cacheableResponse in Ec. bool_to_prop. lia. }
  destruct (readSegment _ _ _) as [data|].
  - split; [|apply Hf; by repeat constructor]. split; [|intros ? ? ?; apply respond_secured].
    apply held_ok_cons; [done|]. apply held_ok_reserve; [done|repeat constructor; cbn; lia|cbn; lia].
  - split; [|apply Hf; by repeat constructor]. split; [|done].
    apply held_ok_cons; [done|]. apply held_ok_reserve; [done|repeat constructor; cbn; lia|cbn; lia].
Qed.

(** Where resolveEmbed leaves the destination. *)
Definition resolvedFrom (c : serveConfig) (now : Z) (al : option Allow) (o : Options) (dest : bytes) : Prop :=
  extract (o_Dest o) (o_Proxy o) = NoMatch /\ dest = o_Dest o \/
  exists res, dest = em_URL res /\
    (extract (o_Dest o) (o_Proxy o) = Cached res \/
     extract (o_Dest o) (o_Proxy o) = Ran (Some res) /\ destAllowed urlParse lookupHost lookupIP c now al dest).

Lemma resolveEmbed_spec c now o endpoint al :
  let '(r, _) := resolveEmbed urlParse lookupHost lookupIP extract redirect c now o endpoint al in
  match r with
  | inl a => forall s h b, a <> AData s h b
  | inr o' => o_Proxy o' = o_Proxy o /\ resolvedFrom c now al o (o_Dest o')
  end.
Proof.
  unfold resolveEmbed, resolvedFrom. destruct (extract (o_Dest o) (o_Proxy o)) as [|res|[res|]].
  - split; [done|]. by left.
  - destruct (negb _); [done|]. split; [done|]. right. exists res. split; [done|]. by left.
  - pose proof (validateDest_spec urlParse lookupHost lookupIP c now (em_URL res) al) as Hs.
    destruct (ValidateDest _ _ _ _ _ _ _) as [[e|] al']; [done|]. destruct (negb _); [done|]. split; [done|].
    right. exists res. split; [done|]. right. split; [done|]. by apply Hs.
  - done.
Qed.

(** What the gate has checked when it lets a request through. *)
Definition admittedTo (c : serveConfig) (now : Z) (al : option Allow) (r : Request) (o : Options) (dest proxy : bytes) : Prop :=
  authorize (s_auth c) now r = None /\
  destAllowed urlParse lookupHost lookupIP c now al (o_Dest o) /\ resolvedFrom c now al o dest /\
  (o_Proxy o = [] /\ proxy = s_UpstreamProxy c \/
   o_Proxy o <> [] /\ proxy = o_Proxy o /\ proxyAllowed urlParse lookupHost lookupIP c now al proxy).

Lemma gate_spec c now sr endpoint al :
  let o := parseOptions urlParse (s_auth c) now (sr_req sr) (sr_keys sr) in
  match fst (gate urlParse lookupHost lookupIP extract redirect c now sr endpoint al) with
  | inl a => forall s h b, a <> AData s h b
  | inr o' => admittedTo c now al (sr_req sr) o (o_Dest o') (effProxy c o')
  end.
Proof.
  intros o. unfold gate. fold o. destruct (authorize (s_auth c) now (sr_req sr)) as [[]|] eqn:Hauth; [done..|].
  case_bool_decide; [done|].
  pose proof (validateDest_spec urlParse lookupHost lookupIP c now (o_Dest o) al) as Hd.
  pose proof (validateDest_state urlParse lookupHost lookupIP c now (o_Dest o) al) as Hst.
  destruct (ValidateDest _ _ _ _ _ _ _) as [[e|] al1]; [done|].
  cbn [fst snd] in Hd, Hst. apply proj1 in Hd. specialize (Hd eq_refl).
  pose proof (rejectBlockedProxyHost_spec urlParse lookupHost lookupIP c now (o_Proxy o) al1) as [Hp Hst2].
  destruct (rejectBlockedProxyHost _ _ _ _ _ _ _) as [b al2]. cbn [fst snd] in Hp, Hst2.
  destruct b; [done|]. apply proj1 in Hp. specialize (Hp eq_refl).
  rewrite (proxyAllowed_same _ _ _ c now al al1) in Hp by done.
  assert (sameNow lookupIP now al al2) as Hst3 by (intros x; by rewrite (Hst2 x), (Hst x)).
  pose proof (resolveEmbed_spec c now o endpoint al2) as He.
  destruct (resolveEmbed _ _ _ _ _ _ _ _ _ _) as [[a|o'] al3]; [done|].
  cbn [fst]. destruct He as [Ep Hres]. unfold effProxy. rewrite Ep. split; [done|]. split; [done|]. split.
  - destruct Hres as [?|(res & E & [?|[? Hda]])]; [by left|right; exists res; split; [done|by left]|right; exists res; split; [done|right]].
    split; [done|]. by apply (destAllowed_same _ _ _ c now al al2).
  - destruct (o_Proxy o) as [|x p] eqn:E; [by left|]. right. split; [done|]. split; [done|]. by destruct Hp.
Qed.

(** A fetch the handler may make for options [o]. *)
Definition fetch_ok (c : serveConfig) (now : Z) (al : option Allow) (r : Request) (o : Options) (e : effect) : Prop :=
  match e with
  | Fetch _ url h p => admittedTo c now al r o url p /\ (forall k, is_Some (h !! k) -> BlockedReqHeader k = false)
  | _ => True
  end.

(** Whatever the upstream, the extractors and the client do, /proxy/stream
    fetches only for an authorised request, only from a destination and through
    an upstream proxy that the guards allow, and with no request header on the
    blocklist; proxied content always carries the sandbox and nosniff headers and
    no other header that could weaken them; and the handler never holds more of
    the memory budget than one segment, and gives back all of it. *)
Lemma serveStream_guarded c now sr al cache :
  let o := parseOptions urlParse (s_auth c) now (sr_req sr) (sr_keys sr) in
  let '(fx, a, _, _) := serveStream urlParse lookupHost lookupIP sha256hex extract redirect fetch acquire tryAcquire decrypt c now sr al cache in
  Forall (fetch_ok c now al (sr_req sr) o) fx /\
  (forall s h b, a = AData s h b -> secured h) /\
  held fx = 0 /\ (forall n, 0 <= held (take n fx) <= maxSegmentBytes).
Proof.
  intros o. unfold serveStream.
  assert (forall fx a, answer_ok fx a -> Forall (fetch_ok c now al (sr_req sr) o) fx ->
    Forall (fetch_ok c now al (sr_req sr) o) fx /\ (forall s h b, a = AData s h b -> secured h) /\
    held fx = 0 /\ (forall n, 0 <= held (take n fx) <= maxSegmentBytes)) as Hall by (intros fx a [[H0 H1] H2] Hf; done).
  pose proof (gate_spec c now sr (bs "/proxy/stream") al) as Hg. fold o in Hg.
  destruct (gate _ _ _ _ _ _ _ _ _ _) as [[a|o'] al']; cbn [fst] in Hg.
  { apply Hall; [split; [apply held_ok_nil|intros s h b E; by apply Hg in E]|constructor]. }
  destruct (negb _ && negb _).
  - destruct (fetch _ _ _ _) as [resp|].
    2:{ apply Hall; [split; [apply (held_ok_cons _ []); [done|apply held_ok_nil]|done]|]. constructor; [|constructor].
        split; [done|apply upstream_clean]. }
    pose proof (serveDecrypted_ok sr o' (parseDecryptParams (sr_req sr)) resp) as Hs.
    destruct (serveDecrypted _ _ _ _ _ _) as [fx a]. destruct Hs as [[Hh Ha] Hn]. apply Hall.
    + split; [by apply held_ok_cons|done].
    + constructor; [split; [done|apply upstream_clean]|]. eapply Forall_impl; [exact Hn|]. intros e He. by destruct e.
  - pose proof (servePlain_ok sr o' now (upstreamHeaders (o_ReqHeaders o')) (effProxy c o') cache) as Hs.
    destruct (servePlain _ _ _ _ _ _ _ _ _) as [[fx a] cache']. destruct Hs as [Ha Hf]. apply Hall; [done|].
    apply Forall_forall. intros e Hin. destruct e as [m u h p| | |]; try done. destruct (Hf _ _ _ _ Hin) as (-> & -> & Hh).
    split; [done|]. intros k [Hk| ->]%Hh; [by eapply upstream_clean|done].
Qed.
End HandlerSpecs.

(** * A request served *)

Definition wit_serve : serveConfig := MkServe wit_cfg true [].
Definition wit_lookup (host : bytes) : option (list bytes) :=
  if bool_decide (host = bs "a") then Some [bs "93.184.216.34"] else if bool_decide (host = bs "lan") then Some [bs "10.0.0.1"] else None.
Definition wit_up : upstream :=
  MkUp 200 {[ bs "Set-Cookie" := [bs "x=1"]; bs "Content-Type" := [bs "video/mp2t"] ]} 3 [1; 2; 3] false.
Definition wit_stream (q : bytes) : streamRequest :=
  let r := MkReq (bs "/proxy/stream") (bs "api_password=pw&" ++ q) (bs "203.0.113.9:5000") [] in
  MkStream r (bs "GET") [] (keysOf (Query r)) [bs "X-A"; bs "Location"].

Definition wit_run (parse : bytes -> option (bytes * bytes)) (q : bytes) : list effect * answer :=
  let '(fx, a, _, _) := serveStream (P := plainPrimitives) parse wit_lookup (fun _ _ => None) (fun s => s) (fun _ _ => NoMatch) (fun _ _ => [])
    (fun _ _ _ _ => Some wit_up) (fun _ => true) (fun _ => true) (fun _ _ => None) wit_serve 50 (wit_stream q) None (Some (newSegCache 60 8)) in
  (fx, a).

(** Neither the upstream's cookie nor the client's redirect gets through, and
    the forged address stays behind. *)
Example wit_served : exists key,
  wit_run wit_parse (bs "d=http://a/b&h_x-forwarded-for=1.2.3.4&h_a=b&r_x-a=1&r_location=http://evil/") =
  ([Fetch (bs "GET") (bs "http://a/b") {[ bs "A" := [bs "b"] ]} []; Reserve 3; Store key [1; 2; 3]; Free 3],
   AData 200 {[ bs "Content-Type" := [bs "video/mp2t"]; bs "X-A" := [bs "1"];
                bs "X-Content-Type-Options" := [bs "nosniff"]; bs "Content-Security-Policy" := [bs "sandbox"] ]} [1; 2; 3]).
Proof. eexists. vm_compute. reflexivity. Qed.

Example wit_refused : wit_run (fun _ => Some (bs "http", bs "lan:8080")) (bs "d=http://lan:8080/b") = ([], AError 403).
Proof. vm_compute. reflexivity. Qed.
