(* ===== verification/HlsRewrite.v ===== *)
(** HLS playlists through the stream proxy (internal/streamproxy/hls.go, with
    externalBase of streamproxy.go): the base of the links, the resolution of a
    reference and its short cut, the rewriting of every line, the segments to
    prefetch, and the handler.

    The random nonce of the link on line [i] is [nonce i]. *)

From S2P Require Import Prelude GoStrings NetIP Netguard SegCache Encoding NetURL ProxyAuth ProxyURL ProxyServe.

(** * The base of the links *)

Definition firstForwardedValue (v : bytes) : bytes :=
  TrimSpace (match Cut v 44 with Some (first, _) => first | None => v end).

Definition validForwardedPort (port : bytes) : bool :=
  match port with
  | [] => true
  | _ => match Atoi port with
         | Ok n => (1 <=? n) && (n <=? 65535) && (length port <=? 5)%nat
         | Err _ => false
         end && forallb (fun c => (48 <=? c) && (c <=? 57)) port
  end.

Definition validForwardedHost (s : bytes) : bool :=
  if bool_decide (s = []) || (255 <? length s)%nat then false
  else if HasPrefix s [91] then
    match IndexByte s 93 with
    | None => false
    | Some e =>
        if bool_decide (ParseIP (drop 1 (take e s)) = []) then false
        else match drop (S e) s with
             | [] => true
             | c :: port => (c =? 58) && negb (bool_decide (port = [])) && validForwardedPort port
             end
    end
  else
    let '(host, port, ok) :=
      match lastIndex s 58 with
      | Some i => (take i s, drop (S i) s, negb (bool_decide (drop (S i) s = [])))
      | None => (s, [], true)
      end in
    ok && negb (bool_decide (host = [])) && forallb (fun c => alnum c || oneOf (bs ".-_") c) host && validForwardedPort port.

(** What the base is taken from, next to the request: whether the connection is
    TLS, the Host, and the first value of the two forwarded headers. *)
Record baseInfo := MkBase { b_TLS : bool; b_Host : bytes; b_Proto : bytes; b_FwdHost : bytes }.

Definition ExternalBase (nets : list IPNet) (r : Request) (b : baseInfo) : bytes :=
  let scheme := if b_TLS b then bs "https" else bs "http" in
  if isTrustedProxy nets (peerIP r) then
    let p := ToLower (firstForwardedValue (b_Proto b)) in
    let scheme := if bool_decide (p ∈ [bs "http"; bs "https"]) then p else scheme in
    let fh := firstForwardedValue (b_FwdHost b) in
    scheme ++ bs "://" ++ (if validForwardedHost fh then fh else b_Host b)
  else scheme ++ bs "://" ++ b_Host b.

(** strings.TrimRight with the cutset "/". *)
Fixpoint trimLeftSlash (s : bytes) : bytes :=
  match s with
  | c :: s' => if c =? 47 then trimLeftSlash s' else s
  | [] => []
  end.

Definition externalBase (publicURL : bytes) (nets : list IPNet) (r : Request) (b : baseInfo) : bytes :=
  match publicURL with
  | [] => ExternalBase nets r b
  | _ => rev (trimLeftSlash (rev publicURL))
  end.

(** * Segment endpoints *)

Definition hlsSegmentExts : list bytes :=
  bs <$> ["3gp"; "3gpp"; "aac"; "ac3"; "avi"; "ec3"; "fmp4"; "m2ts"; "m4a"; "m4s"; "m4v"; "mkv"; "mov"; "mp3"; "mp4";
          "mpeg"; "mpegts"; "ogg"; "ts"; "vob"; "wav"; "vtt"; "webvtt"]%string.

Definition segmentPath (e : bytes) : bytes := bs "/proxy/stream/segment." ++ e.

Definition hlsSegmentEndpoints (e : bytes) : option bytes :=
  if bool_decide (e ∈ hlsSegmentExts) then Some (segmentPath e) else None.

(** The part of [s] before the first byte of [cs]. *)
Fixpoint untilAny (cs s : bytes) : bytes :=
  match s with
  | [] => []
  | c :: s => if oneOf cs c then [] else c :: untilAny cs s
  end.

(** The last element of the path, for a URL or a path. *)
Definition pathBase (abs : bytes) : bytes :=
  let p := untilAny (bs "?#") abs in
  let p := match cutAfter p (bs "://") with
           | Some rest => match IndexByte rest 47 with Some j => drop j rest | None => [] end
           | None => p
           end in
  match lastIndex p 47 with Some i => drop (S i) p | None => p end.

Definition hlsSegmentEndpoint (abs def : bytes) : bytes :=
  let base := pathBase abs in
  match
    match lastIndex base 46 with
    | Some i =>
        let e := drop (S i) base in
        match hlsSegmentEndpoints e with
        | Some ep => Some ep
        | None => hlsSegmentEndpoints (ToLower e)
        end
    | None => None
    end
  with
  | Some ep => ep
  | None => match hlsSegmentEndpoints def with Some ep => ep | None => segmentPath def end
  end.

(** * Resolving references *)

Definition hlsNonHTTPScheme (u : URL) : bool :=
  negb (bool_decide (u_Scheme u = [])) && negb (bool_decide (u_Scheme u = bs "http")) && negb (bool_decide (u_Scheme u = bs "https")).

Definition refused (c : Z) : bool := oneOf (bs "%#@\") c || (c <=? 32) || (127 <=? c).

Definition hlsPlainAbsolute (ref : bytes) : bool :=
  match
    if HasPrefix ref (bs "https://") then Some (drop 8 ref)
    else if HasPrefix ref (bs "http://") then Some (drop 7 ref)
    else None
  with
  | None => false
  | Some rest =>
      match IndexByte rest 47 with
      | None | Some O => false
      | Some slash =>
          if existsb refused rest then false
          else
            let pathEnd := match IndexByte rest 63 with Some i => i | None => length rest end in
            if (pathEnd <? slash)%nat then false
            else
              let p := drop slash (take pathEnd rest) in
              negb (Contains p (bs "/.")) && negb (Contains p (bs "//"))
      end
  end.

(** The full resolution, and hlsResolve with its short cut. *)
Definition slowResolve (baseURL : option URL) (ref : bytes) : bytes * bool :=
  match Parse ref with
  | None => (ref, false)
  | Some rv =>
      if hlsNonHTTPScheme rv then (ref, true)
      else match baseURL with
           | Some base => (URLString (ResolveReference base rv), false)
           | None => (ref, false)
           end
  end.

Definition hlsResolve (baseURL : option URL) (ref : bytes) : bytes * bool :=
  if hlsPlainAbsolute ref then (ref, false) else slowResolve baseURL ref.

Definition isM3U8 (s : bytes) : bool := Contains s (bs ".m3u8") || Contains s (bs ".M3U8").

Definition manifestPath : bytes := bs "/proxy/hls/manifest.m3u8".

(** * The URI attribute of a tag *)

Definition uriOpen : bytes := bs "URI=" ++ [34].

(** The value, when the attribute begins here. *)
Definition attrHere (s : bytes) : option (bytes * bytes) :=
  if HasPrefix s uriOpen then
    match IndexByte (drop 5 s) 34 with
    | Some i => Some (take i (drop 5 s), drop i (drop 5 s))
    | None => None
    end
  else None.

Fixpoint attr_from (s : bytes) : option (bytes * bytes * bytes) :=
  match s with
  | [] => None
  | c :: s =>
      match (if oneOf (bs ":,") c then attrHere s else None) with
      | Some (v, r) => Some (c :: uriOpen, v, r)
      | None => match attr_from s with Some (a, v, r) => Some (c :: a, v, r) | None => None end
      end
  end.

(** hlsURIAttrRe: what precedes the value, the value, what follows. *)
Definition uriAttr (s : bytes) : option (bytes * bytes * bytes) :=
  match attrHere s with
  | Some (v, r) => Some (uriOpen, v, r)
  | None => attr_from s
  end.

(** * Rewriting *)

Section Rewrite.
Context `{P : Primitives}.
Context (c : Config) (pb : proxyURLBuilder) (ext : bytes) (nonce : nat -> option bytes) (baseURL : option URL).

Definition hlsRewriteURIAttrFunc (i : nat) (line : bytes) (endpointFor : bytes -> bytes) : bytes :=
  match uriAttr line with
  | None => line
  | Some (pre, ref, post) =>
      if bool_decide (ref = []) then line
      else match hlsResolve baseURL ref with
           | (_, true) => line
           | (abs, false) => pre ++ build c pb (nonce i) ext (endpointFor abs) abs ++ post
           end
  end.

Definition hlsRewriteURIAttr (i : nat) (line fixedEndpoint : bytes) : bytes :=
  hlsRewriteURIAttrFunc i line (fun abs =>
    if negb (bool_decide (fixedEndpoint = [])) then fixedEndpoint
    else if isM3U8 abs then manifestPath
    else bs "/proxy/stream").

(** The tag of a line: what precedes its first colon. *)
Definition tagOf (line : bytes) : bytes := match Cut line 58 with Some (tag, _) => tag | None => line end.

(** One line; [nextIsVariant] before and after it. *)
Definition rewriteLine (segDefault : bytes) (i : nat) (nextIsVariant : bool) (line0 : bytes) : bytes * bool :=
  let line := TrimSpace line0 in
  if bool_decide (line = []) then ([], nextIsVariant)
  else if negb (HasPrefix line (bs "#")) then
    match hlsResolve baseURL line with
    | (_, true) => (line, false)
    | (abs, false) =>
        let ep := hlsSegmentEndpoint abs segDefault in
        let ep := if nextIsVariant || isM3U8 abs then manifestPath else ep in
        (build c pb (nonce i) ext ep abs, false)
    end
  else
    let tag := tagOf line in
    if bool_decide (tag = bs "#EXT-X-STREAM-INF") then (line, true)
    else if bool_decide (tag ∈ [bs "#EXT-X-KEY"; bs "#EXT-X-SESSION-KEY"]) then
      (hlsRewriteURIAttr i line (bs "/proxy/stream"), nextIsVariant)
    else if bool_decide (tag = bs "#EXT-X-MAP") then
      (hlsRewriteURIAttrFunc i line (fun abs => hlsSegmentEndpoint abs (bs "mp4")), nextIsVariant)
    else if bool_decide (tag ∈ [bs "#EXT-X-PART"; bs "#EXT-X-PRELOAD-HINT"]) then
      (hlsRewriteURIAttrFunc i line (fun abs => hlsSegmentEndpoint abs segDefault), nextIsVariant)
    else if bool_decide (tag = bs "#EXT-X-RENDITION-REPORT") then
      (hlsRewriteURIAttr i line manifestPath, nextIsVariant)
    else if bool_decide (tag ∈ [bs "#EXT-X-MEDIA"; bs "#EXT-X-I-FRAME-STREAM-INF"]) then
      (hlsRewriteURIAttr i line manifestPath, nextIsVariant)
    else (line, nextIsVariant).

Fixpoint rewriteLines (segDefault : bytes) (i : nat) (nextIsVariant : bool) (lines : list bytes) : list bytes :=
  match lines with
  | [] => []
  | line :: lines =>
      let '(out, next) := rewriteLine segDefault i nextIsVariant line in
      out :: rewriteLines segDefault (S i) next lines
  end.

End Rewrite.

Definition segDefaultOf (playlist : bytes) : bytes := if Contains playlist (bs "#EXT-X-MAP") then bs "mp4" else bs "ts".

Definition hlsRewrite `{P : Primitives} (c : Config) (ext : bytes) (opts : Options) (reqOrder respOrder : list bytes)
    (nonce : nat -> option bytes) (playlist : bytes) : bytes :=
  join [10] (rewriteLines c (newProxyURLBuilder c (Some opts) reqOrder respOrder) ext nonce (Parse (o_Dest opts))
               (segDefaultOf playlist) 0 false (Split playlist 10)).

(** * Segments to prefetch *)

Fixpoint segmentURLs (baseURL : option URL) (max : Z) (urls : list bytes) (lines : list bytes) : list bytes :=
  match lines with
  | [] => urls
  | line :: lines =>
      let line := TrimSpace line in
      if bool_decide (line = []) || HasPrefix line (bs "#") then segmentURLs baseURL max urls lines
      else if isM3U8 line then segmentURLs baseURL max urls lines
      else match hlsResolve baseURL line with
           | (_, true) => segmentURLs baseURL max urls lines
           | (abs, false) =>
               let urls := urls ++ [abs] in
               if max <=? Z.of_nat (length urls) then urls else segmentURLs baseURL max urls lines
           end
  end.

Definition hlsSegmentURLs (base playlist : bytes) (max : Z) : list bytes :=
  if max <=? 0 then [] else segmentURLs (Parse base) max [] (Split playlist 10).

(** * The handler *)

Definition maxManifestBytes : Z := 16 * 1024 * 1024.

(** io.ReadAll of the limited body: [None] on a read error before the limit. *)
Definition readManifest (resp : upstream) : option bytes :=
  let lim := Z.to_nat (maxManifestBytes + 1) in
  if up_fail resp && (Z.of_nat (length (up_body resp)) <=? maxManifestBytes) then None
  else Some (take lim (up_body resp)).

(** What the handler reads of the configuration and of the request, next to
    what the other handlers read. *)
Record hlsRequest := MkHls {
  hr_stream : streamRequest;
  hr_base : baseInfo;
  hr_reqOrder : list bytes;      (* the order in which the request overrides are visited *)
  hr_nonce : nat -> option bytes
}.

Section Handler.
Context `{P : Primitives}.
Context (urlParse : bytes -> option (bytes * bytes)) (lookupHost : bytes -> option (list bytes)).
Context (lookupIP : Z -> bytes -> option (list bytes)).
Context (extract : bytes -> bytes -> extraction) (redirect : Options -> embedResult -> bytes).
Context (fetch : bytes -> bytes -> header -> bytes -> option upstream).

(** hlsServe: its fetches, its answer, the URLs handed to the prefetcher, and
    the allowlist. *)
Definition hlsServe (c : serveConfig) (publicURL : bytes) (prebuffer now : Z) (hr : hlsRequest) (al : option Allow)
    : list effect * answer * list bytes * option Allow :=
  let sr := hr_stream hr in
  match gate urlParse lookupHost lookupIP extract redirect c now sr manifestPath al with
  | (inl a, al) => ([], a, [], al)
  | (inr opts, al) =>
      let f := Fetch (bs "GET") (o_Dest opts) (o_ReqHeaders opts) (effProxy c opts) in
      match fetch (bs "GET") (o_Dest opts) (o_ReqHeaders opts) (effProxy c opts) with
      | None => ([f], AError 502, [], al)
      | Some resp =>
          if (up_status resp <? 200) || (299 <? up_status resp) then ([f], AError 502, [], al)
          else
            match readManifest resp with
            | None => ([f], AError 502, [], al)
            | Some playlist =>
                if maxManifestBytes <? Z.of_nat (length playlist) then ([f], AError 502, [], al)
                else
                  let warm := if 0 <? prebuffer then hlsSegmentURLs (o_Dest opts) playlist prebuffer else [] in
                  let ext := externalBase publicURL (c_TrustedProxies (s_auth c)) (sr_req sr) (hr_base hr) in
                  let rewritten := hlsRewrite (s_auth c) ext opts (hr_reqOrder hr) (sr_respOrder sr) (hr_nonce hr) playlist in
                  let w := setProxySecurityHeaders (hset ∅ (bs "Content-Type") (bs "application/vnd.apple.mpegurl")) in
                  ([f], AData 200 w rewritten, warm, al)
            end
      end
  end.

End Handler.

Example resolve_short :
  hlsPlainAbsolute (bs "https://cdn.example/a/seg-1.ts?token=R8v") = true /\
  hlsPlainAbsolute (bs "https://cdn.example/a/./b.ts") = false /\
  hlsPlainAbsolute (bs "https://cdn.example?x/") = false /\
  hlsSegmentEndpoint (bs "https://h.mp4/x/seg.TS?y=.mp4") (bs "mp4") = bs "/proxy/stream/segment.ts" /\
  hlsSegmentEndpoint (bs "https://h.mp4") (bs "ts") = bs "/proxy/stream/segment.ts".
Proof. by_decide. Qed.

(** * The short cut *)

Lemma refused_plain c : refused c = false <-> plainByte c.
Proof.
  unfold refused, plainByte, oneOf. assert (bs "%#@\" = [37; 35; 64; 92]) as -> by reflexivity. cbn [existsb].
  rewrite !orb_false_iff, !Z.eqb_neq, !Z.leb_gt. lia.
Qed.

Lemma IndexByte_cut s c i : IndexByte s c = Some i -> s = take i s ++ drop i s /\ c ∉ take i s /\ HasPrefix (drop i s) [c] = true /\ (i < length s)%nat.
Proof.
  intros [Hi Hn]%IndexByte_spec. split; [by rewrite take_drop|]. split; [done|]. split; [|by eapply lookup_lt_Some].
  rewrite (drop_S _ _ _ Hi). apply HasPrefix_spec. by eexists.
Qed.

Lemma plain_rest sch rest slash : httpScheme sch -> IndexByte rest 47 = Some (S slash) -> existsb refused rest = false ->
  let pathEnd := match IndexByte rest 63 with Some i => i | None => length rest end in
  (S slash <= pathEnd)%nat ->
  exists host q, sch ++ bs "://" ++ rest = plainText sch host (drop (S slash) (take pathEnd rest)) q /\
    plainURL sch host (drop (S slash) (take pathEnd rest)) q.
Proof.
  intros Hs Hi Hr pathEnd Hle.
  assert (Forall plainByte rest) as Hb.
  { apply Forall_forall. intros c Hc. apply refused_plain, not_true_iff_false. intros E. apply not_true_iff_false in Hr. apply Hr.
    apply existsb_exists. exists c. split; [by apply list_elem_of_In|done]. }
  assert (63 ∉ take pathEnd rest /\ (drop pathEnd rest = [] \/ exists q', drop pathEnd rest = 63 :: q')) as [Hq Hd].
  { unfold pathEnd. destruct (IndexByte rest 63) as [i|] eqn:E.
    - apply IndexByte_cut in E as (_ & Hn & [t Ht]%HasPrefix_spec & _). split; [done|right; by exists t].
    - apply IndexByte_None in E. rewrite firstn_all, drop_all. split; [done|by left]. }
  apply IndexByte_cut in Hi as (_ & Hn & Hp & Hlt). set (pe := take pathEnd rest) in *.
  assert (take (S slash) pe = take (S slash) rest) as Et by (unfold pe; rewrite take_take; f_equal; lia).
  exists (take (S slash) rest), (drop pathEnd rest). split.
  - unfold plainText. do 2 f_equal. rewrite app_assoc. rewrite <- Et, take_drop. unfold pe. by rewrite take_drop.
  - split; [done|..].
    + split; [|split; [done|]].
      * intros E. apply (f_equal length) in E. rewrite length_take in E. cbn [length] in E. lia.
      * rewrite <- Et. intros H. apply Hq. rewrite <- (take_drop (S slash)). by apply elem_of_app; left.
    + split; [|intros H; apply Hq; rewrite <- (take_drop (S slash)); by apply elem_of_app; right].
      assert (S slash < length pe)%nat as Hl.
      { unfold pe. rewrite length_take. revert Hle. unfold pathEnd. destruct (IndexByte rest 63) as [i|] eqn:E; intros Hle; [|lia].
        apply IndexByte_cut in E as (_ & _ & Hq' & Hi'). destruct (decide (i = S slash)) as [->|]; [|lia].
        apply HasPrefix_spec in Hp as [t Ht]. apply HasPrefix_spec in Hq' as [t' Ht']. rewrite Ht in Ht'. discriminate. }
      apply HasPrefix_spec in Hp as [t Ht]. destruct (drop (S slash) pe) as [|x l] eqn:E.
      { apply (f_equal length) in E. rewrite length_drop in E. cbn in E. lia. }
      assert (drop (S slash) rest = (x :: l) ++ drop pathEnd rest) as E2.
      { rewrite <- E, <- (take_drop pathEnd rest) at 1. fold pe. rewrite drop_app_le by lia. done. }
      rewrite Ht in E2. injection E2 as <- _. reflexivity.
    + exact Hd.
    + split_and!; [by apply Forall_take|by apply Forall_drop, Forall_take|by apply Forall_drop].
Qed.

(** What follows the authority and precedes the query. *)
Definition pathPart (ref : bytes) : bytes :=
  match cutAfter ref (bs "://") with
  | Some rest => match IndexByte rest 47 with Some j => untilAny (bs "?") (drop j rest) | None => [] end
  | None => []
  end.

Lemma untilAny_cut p q : 63 ∉ p -> q = [] \/ (exists q', q = 63 :: q') -> untilAny (bs "?") (p ++ q) = p.
Proof.
  intros Hp Hq. induction p as [|c p IH]; cbn [app].
  - destruct Hq as [->|[q' ->]]; reflexivity.
  - rewrite not_elem_of_cons in Hp. cbn [untilAny]. change (oneOf (bs "?") c) with ((c =? 63) || false).
    rewrite (proj2 (Z.eqb_neq c 63)) by (intros ->; tauto). cbn [orb]. by rewrite IH by tauto.
Qed.

Lemma pathPart_plain sch host p q : plainURL sch host p q -> pathPart (plainText sch host p q) = p.
Proof.
  intros [Hs (_ & Hh & _) [Hp Hp1] Hq _]. unfold pathPart, plainText.
  assert (cutAfter (sch ++ bs "://" ++ host ++ p ++ q) (bs "://") = Some (host ++ p ++ q)) as -> by (destruct Hs as [-> | ->]; reflexivity).
  rewrite app_assoc. apply HasPrefix_spec in Hp as [t ->]. rewrite <- app_assoc. cbn [app]. rewrite IndexByte_app by done.
  rewrite drop_app_length. by apply (untilAny_cut (47 :: t)).
Qed.

Lemma hlsPlain_form ref : hlsPlainAbsolute ref = true ->
  exists sch host p q, ref = plainText sch host p q /\ plainURL sch host p q /\ Contains p (bs "/.") = false.
Proof.
  assert (forall sch rest, httpScheme sch ->
    match IndexByte rest 47 with
    | None | Some O => false
    | Some slash =>
        if existsb refused rest then false
        else
          let pathEnd := match IndexByte rest 63 with Some i => i | None => length rest end in
          if (pathEnd <? slash)%nat then false
          else let p := drop slash (take pathEnd rest) in negb (Contains p (bs "/.")) && negb (Contains p (bs "//"))
    end = true ->
    exists sch' host p q, sch ++ bs "://" ++ rest = plainText sch' host p q /\ plainURL sch' host p q /\ Contains p (bs "/.") = false) as Hform.
  { intros sch rest Hs. destruct (IndexByte rest 47) as [[|slash]|] eqn:Ei; [done| |done].
    destruct (existsb refused rest) eqn:Er; [done|]. cbv zeta. destruct (Nat.ltb_spec (match IndexByte rest 63 with Some i => i | None => length rest end) (S slash)) as [|Hle]; [done|].
    intros [H1 _]%andb_true_iff. apply negb_true_iff in H1.
    destruct (plain_rest sch rest slash Hs Ei Er Hle) as (host & q & E & Hpl).
    exists sch, host. do 2 eexists. by rewrite E. }
  unfold hlsPlainAbsolute. destruct (HasPrefix ref (bs "https://")) eqn:E1; [|destruct (HasPrefix ref (bs "http://")) eqn:E2; [|done]].
  - apply HasPrefix_spec in E1 as [rest ->]. apply (Hform (bs "https") rest). by right.
  - apply HasPrefix_spec in E2 as [rest ->]. apply (Hform (bs "http") rest). by left.
Qed.

(** The bytes a path may hold that String escapes although Parse leaves them. *)
Definition oddBytes : bytes := 34 :: bs "<>^`{|}".

Lemma odd_spec c : plainByte c -> c <> 63 -> (oneOf (bs "!$&'()*+,;=:@[]%") c || negb (shouldEscape c MPath)) = negb (oneOf oddBytes c).
Proof.
  intros [Hc (H1 & H2 & H3 & H4)] Hq.
  pose proof (below_check (fun c => (c <=? 32) || (c =? 127) || (c =? 37) || (c =? 35) || (c =? 64) || (c =? 92) || (c =? 63) ||
    Bool.eqb (oneOf (bs "!$&'()*+,;=:@[]%") c || negb (shouldEscape c MPath)) (negb (oneOf oddBytes c))) 7 ltac:(vm_compute; reflexivity) c
    ltac:(change (2 ^ Z.of_nat 7) with 128; lia)) as H. cbv beta in H.
  rewrite (proj2 (Z.leb_gt c 32)), !(proj2 (Z.eqb_neq c _)) in H by lia. by apply eqb_prop in H.
Qed.

Lemma validEncoded_odd p : Forall plainByte p -> 63 ∉ p -> validEncoded p MPath = negb (existsb (oneOf oddBytes) p).
Proof.
  intros Hp Hq. unfold validEncoded. induction Hp as [|c p Hc _ IH]; [done|]. rewrite not_elem_of_cons in Hq. cbn [forallb existsb].
  rewrite odd_spec, IH, negb_orb by (tauto || intros ->; tauto). done.
Qed.

(** The full resolution of a reference of the plain form. *)
Lemma slow_plain baseURL sch host p q : plainURL sch host p q -> Contains p (bs "/.") = false ->
  slowResolve baseURL (plainText sch host p q) =
  match baseURL, Parse (plainText sch host p q) with
  | Some _, Some _ => (plainText sch host (if existsb (oneOf oddBytes) p then escape p MPath else p) q, false)
  | _, _ => (plainText sch host p q, false)
  end.
Proof.
  intros Hpl Hd. unfold slowResolve. rewrite (Parse_plain _ _ _ _ Hpl). destruct (parseHost host) as [h|] eqn:Eh; cbn [fmap option_fmap option_map]; [|by destruct baseURL].
  pose proof Hpl as [Hs _ [_ Hq] _ (Bh & Bp & _)]. destruct (parseHost_id host h Bh Eh) as [-> Hh].
  assert (hlsNonHTTPScheme (plainParsed sch host p q) = false) as -> by (destruct Hs as [-> | ->]; reflexivity).
  destruct baseURL as [base|]; [|done]. rewrite URLString_plain by done. rewrite (validEncoded_odd _ Bp Hq). by destruct (existsb _ p).
Qed.

(** C35: The short cut of hlsResolve changes nothing, except for an absolute URL
    whose path holds a double quote or one of less, greater, caret, backquote,
    bar or a brace, and which parses: that one is passed on as it is written,
    where the full parse would percent-escape the path. *)
Theorem hlsResolve_exact baseURL ref :
  hlsResolve baseURL ref = slowResolve baseURL ref <->
  ~ (hlsPlainAbsolute ref = true /\ is_Some baseURL /\ is_Some (Parse ref) /\ existsb (oneOf oddBytes) (pathPart ref) = true).
Proof.
  unfold hlsResolve. destruct (hlsPlainAbsolute ref) eqn:E; [|split; [by intros _ (? & _)|done]].
  destruct (hlsPlain_form ref E) as (sch & host & p & q & -> & Hpl & Hd). rewrite (slow_plain _ _ _ _ _ Hpl Hd), (pathPart_plain _ _ _ _ Hpl).
  destruct baseURL as [base|]; [|split; [intros _ (_ & [? [=]] & _)|done]].
  destruct (Parse (plainText sch host p q)) as [u|]; [|split; [intros _ (_ & _ & [? [=]] & _)|done]].
  destruct (existsb (oneOf oddBytes) p) eqn:Eo; [|split; [by intros _ (_ & _ & _ & ?)|done]].
  split; [|intros H; destruct H; split_and!; [done|by eexists|by eexists|done]].
  intros [= H] _. apply (f_equal (@length Z)) in H. unfold plainText in H. rewrite !length_app in H.
  assert (existsb (fun c => shouldEscape c MPath) p = true) as He.
  { apply existsb_exists in Eo as (c & Hc & Ho). apply existsb_exists. exists c. split; [done|].
    destruct Hpl as [_ _ [_ Hq] _ (_ & Bp & _)]. apply list_elem_of_In in Hc.
    pose proof (odd_spec c (proj1 (Forall_forall _ _) Bp c Hc) ltac:(intros ->; done)) as H2. rewrite Ho in H2.
    apply orb_false_iff in H2 as [_ H2]. by apply negb_false_iff in H2. }
  apply (proj2 (escape_length p MPath)) in He. lia.
Qed.

(** * The URI attribute *)

Lemma HasPrefix_long a x pre : (length pre <= length a)%nat -> HasPrefix (a ++ x) pre = HasPrefix a pre.
Proof.
  revert a. induction pre as [|c pre IH]; intros a Hl; [done|]. destruct a as [|d a]; [cbn [length] in Hl; lia|].
  cbn [app HasPrefix length] in *. by rewrite IH by lia.
Qed.

Lemma attrHere_spec s v r : attrHere s = Some (v, r) -> s = uriOpen ++ v ++ r /\ 34 ∉ v /\ exists t, r = 34 :: t.
Proof.
  unfold attrHere. destruct (HasPrefix s uriOpen) eqn:E; [|done]. apply HasPrefix_spec in E as [t ->].
  change (drop 5 (uriOpen ++ t)) with t. destruct (IndexByte t 34) as [i|] eqn:Ei; [|done]. intros [= <- <-].
  apply IndexByte_cut in Ei as (_ & Hn & [u Hu]%HasPrefix_spec & _). rewrite take_drop. split_and!; [done|done|by exists u].
Qed.

Lemma attrHere_app v r : 34 ∉ v -> attrHere (uriOpen ++ v ++ 34 :: r) = Some (v, 34 :: r).
Proof.
  intros Hv. unfold attrHere. rewrite HasPrefix_app. change (drop 5 (uriOpen ++ v ++ 34 :: r)) with (v ++ 34 :: r).
  rewrite IndexByte_app by done. by rewrite take_app_length, drop_app_length.
Qed.

Lemma attrHere_None s a v r : s = a ++ v ++ 34 :: r -> (5 <= length a)%nat -> attrHere s = None -> HasPrefix a uriOpen = false.
Proof.
  intros -> Hl. unfold attrHere. rewrite HasPrefix_long by done. destruct (HasPrefix a uriOpen); [|done].
  destruct (IndexByte _ 34) eqn:E; [done|]. apply IndexByte_None in E. intros _. destruct E.
  rewrite drop_app_le by done. rewrite !elem_of_app. right. right. by left.
Qed.

Lemma attr_from_spec s a v r : attr_from s = Some (a, v, r) ->
  s = a ++ v ++ r /\ 34 ∉ v /\ (6 <= length a)%nat /\ (exists t, r = 34 :: t) /\
  forall v', 34 ∉ v' -> attr_from (a ++ v' ++ r) = Some (a, v', r).
Proof.
  revert a. induction s as [|c s IH]; intros a; cbn [attr_from]; [done|].
  destruct (if oneOf (bs ":,") c then attrHere s else None) as [[v0 r0]|] eqn:E.
  - intros [= <- <- <-]. destruct (oneOf (bs ":,") c) eqn:Ec; [|done]. apply attrHere_spec in E as (-> & Hv & t & ->).
    split_and!; [done|done|cbn; lia|by exists t|]. intros v' Hv'. cbn [app attr_from]. rewrite Ec.
    change (85 :: 82 :: 73 :: 61 :: 34 :: v' ++ 34 :: t) with (uriOpen ++ v' ++ 34 :: t). by rewrite attrHere_app.
  - destruct (attr_from s) as [[[a0 v0] r0]|]; [|done]. intros [= <- <- <-].
    destruct (IH a0 eq_refl) as (Hs & Hv & Hl & (t & ->) & Hback). cbn [app length]. split_and!; [by rewrite Hs|done|lia|by exists t|].
    intros v' Hv'. cbn [attr_from]. rewrite Hback by done.
    assert ((if oneOf (bs ":,") c then attrHere (a0 ++ v' ++ 34 :: t) else None) = None) as ->; [|done].
    destruct (oneOf (bs ":,") c); [|done]. apply (attrHere_None _ a0 v0 t) in E; [|done|lia].
    unfold attrHere. by rewrite HasPrefix_long, E by (cbn; lia).
Qed.

(** The attribute found is quoted, and a value without quotes put in its place
    is found there again. *)
Lemma uriAttr_spec s a v r : uriAttr s = Some (a, v, r) ->
  s = a ++ v ++ r /\ 34 ∉ v /\ forall v', 34 ∉ v' -> uriAttr (a ++ v' ++ r) = Some (a, v', r).
Proof.
  unfold uriAttr at 1. destruct (attrHere s) as [[v0 r0]|] eqn:E.
  - intros [= <- <- <-]. apply attrHere_spec in E as (-> & Hv & t & ->). split_and!; [done|done|]. intros v' Hv'.
    unfold uriAttr. by rewrite attrHere_app.
  - intros H. destruct (attr_from_spec _ _ _ _ H) as (Hs & Hv & Hl & (t & ->) & Hback). split_and!; [done|done|]. intros v' Hv'.
    unfold uriAttr. assert (attrHere (a ++ v' ++ 34 :: t) = None) as ->; [|by apply Hback].
    apply (attrHere_None _ a v t) in E; [|done|lia]. unfold attrHere. by rewrite HasPrefix_long, E by (cbn; lia).
Qed.

(** * Variants *)

(** The flag after a line. *)
Definition nextVariant (b : bool) (line0 : bytes) : bool :=
  let line := TrimSpace line0 in
  if bool_decide (line = []) then b
  else if negb (HasPrefix line (bs "#")) then false
  else if bool_decide (tagOf line = bs "#EXT-X-STREAM-INF") then true
  else b.

(** A line that leaves the flag alone. *)
Definition quiet (line : bytes) : Prop := TrimSpace line = [] \/ HasPrefix (TrimSpace line) (bs "#") = true.

(** Line [i] comes right after a stream-inf tag, but for comments, other tags
    and blank lines. *)
Definition variantAt (lines : list bytes) (i : nat) : Prop :=
  exists j l, (j < i)%nat /\ lines !! j = Some l /\ tagOf (TrimSpace l) = bs "#EXT-X-STREAM-INF" /\
    forall k m, (j < k < i)%nat -> lines !! k = Some m -> quiet m.

Lemma tag_hash l : tagOf l = bs "#EXT-X-STREAM-INF" -> l <> [] /\ HasPrefix l (bs "#") = true.
Proof.
  unfold tagOf. destruct (Cut l 58) as [[a b]|] eqn:E; [apply Cut_spec in E as [-> _]|]; intros ->; split; done.
Qed.

Lemma variant_flag lines i : (i <= length lines)%nat -> foldl nextVariant false (take i lines) = true <-> variantAt lines i.
Proof.
  induction i as [|i IH]; intros Hi.
  { cbn. split; [done|]. intros (j & l & ? & _). lia. }
  destruct (lookup_lt_is_Some_2 lines i) as [x Hx]; [lia|]. rewrite (take_S_r _ _ x) by done. rewrite foldl_app. cbn [foldl].
  specialize (IH ltac:(lia)). unfold nextVariant at 1. cbv zeta.
  assert (quiet x -> tagOf (TrimSpace x) <> bs "#EXT-X-STREAM-INF" -> variantAt lines i <-> variantAt lines (S i)) as Hstep.
  { intros Hq Ht. split; intros (j & l & Hj & Hl & Htag & Hk).
    - exists j, l. split_and!; [lia|done..|]. intros k m Hk' Hm. destruct (decide (k = i)) as [->|]; [by simplify_eq|apply (Hk k); [lia|done]].
    - destruct (decide (j = i)) as [->|]; [by simplify_eq|]. exists j, l. split_and!; [lia|done..|]. intros k m Hk' Hm. apply (Hk k); [lia|done]. }
  case_bool_decide as E0.
  { rewrite IH. apply Hstep; [by left|]. rewrite E0. discriminate. }
  destruct (HasPrefix (TrimSpace x) (bs "#")) eqn:Eh; cbn [negb].
  - case_bool_decide as Et; [|by rewrite IH; apply Hstep; [right|]]. split; [intros _|done].
    exists i, x. split_and!; [lia|done..|]. intros. lia.
  - split; [done|]. intros (j & l & Hj & Hl & Htag & Hk). destruct (tag_hash _ Htag) as [_ Hh].
    destruct (decide (j = i)) as [->|]; [simplify_eq; by rewrite Eh in Hh|]. assert (quiet x) as [?|Hq] by (apply (Hk i); [lia|done]); [done|by rewrite Eh in Hq].
Qed.

(** * Line by line *)

Lemma QueryEscape_above s : Forall is_byte s -> Forall (fun c => 36 < c) (QueryEscape s).
Proof.
  induction 1 as [|c s Hc _ IH]; [constructor|]. cbn [QueryEscape]. apply Forall_app. split; [|done]. unfold is_byte in Hc.
  assert (forall d, 0 <= d < 16 -> 36 < upperHex d) as Hx by (intros d Hd; destruct (upperHex_digit d Hd); lia).
  destruct (unreserved c) eqn:E; [|destruct (c =? 32)]; repeat apply Forall_cons_2; try constructor; try lia.
  - unfold unreserved in E. bool_to_prop. lia.
  - apply Hx. Z.div_mod_to_equations; lia.
  - apply Hx. Z.div_mod_to_equations; lia.
Qed.

Lemma rendered_above kvs : query_ok kvs -> Forall (fun c => 36 < c) (rendered kvs).
Proof.
  intros H. unfold rendered. assert (Forall (Forall (fun c => 36 < c)) (setting <$> kvs)) as Hs.
  { apply Forall_fmap. eapply Forall_impl; [exact H|]. intros [k v] [Hk Hv]. cbn in *. unfold setting. cbn [fst snd].
    apply Forall_app. split; [by apply QueryEscape_above|]. apply Forall_cons. split; [lia|by apply QueryEscape_above]. }
  destruct Hs as [|s l Hs Hl]; [constructor|]. unfold join. apply Forall_app. split; [done|].
  apply Forall_concat, Forall_fmap. eapply Forall_impl; [exact Hl|]. intros x Hx. by constructor; [lia|].
Qed.

Definition keyTags : list bytes := [bs "#EXT-X-KEY"; bs "#EXT-X-SESSION-KEY"].
Definition partTags : list bytes := [bs "#EXT-X-PART"; bs "#EXT-X-PRELOAD-HINT"].
Definition playlistTags : list bytes := [bs "#EXT-X-RENDITION-REPORT"; bs "#EXT-X-MEDIA"; bs "#EXT-X-I-FRAME-STREAM-INF"].
Definition mapTag : bytes := bs "#EXT-X-MAP".

(** The reference a trimmed line holds, between what precedes and follows it. *)
Definition reference (l : bytes) : option (bytes * bytes * bytes) :=
  if bool_decide (l = []) then None
  else if negb (HasPrefix l (bs "#")) then Some ([], l, [])
  else if bool_decide (tagOf l ∈ keyTags ++ mapTag :: partTags ++ playlistTags) then
    match uriAttr l with
    | Some (pre, ref, post) => if bool_decide (ref = []) then None else Some (pre, ref, post)
    | None => None
    end
  else None.

(** The endpoint for the reference of a line. *)
Definition endpointFor (variant : bool) (segDefault l abs : bytes) : bytes :=
  if negb (HasPrefix l (bs "#")) then
    if variant || isM3U8 abs then manifestPath else hlsSegmentEndpoint abs segDefault
  else if bool_decide (tagOf l ∈ keyTags) then bs "/proxy/stream"
  else if bool_decide (tagOf l = mapTag) then hlsSegmentEndpoint abs (bs "mp4")
  else if bool_decide (tagOf l ∈ partTags) then hlsSegmentEndpoint abs segDefault
  else manifestPath.

(** Decides the comparisons of closed strings. *)
Ltac closed_tests :=
  repeat match goal with
    | |- context [bool_decide (bs ?s = ?u)] => let b := eval vm_compute in (bool_decide (bs s = u)) in change (bool_decide (bs s = u)) with b
    | |- context [bool_decide (bs ?s ∈ ?u)] => let b := eval vm_compute in (bool_decide (bs s ∈ u)) in change (bool_decide (bs s ∈ u)) with b
    end; cbv beta iota.

Lemma rewriteLine_shape `{P : Primitives} c pb ext nonce base sd i b line :
  let l := TrimSpace line in
  rewriteLine c pb ext nonce base sd i b line =
  (match reference l with
   | None => l
   | Some (pre, ref, post) =>
       match hlsResolve base ref with
       | (_, true) => l
       | (abs, false) => pre ++ build c pb (nonce i) ext (endpointFor b sd l abs) abs ++ post
       end
   end, nextVariant b line).
Proof.
  intros l. unfold rewriteLine, reference, endpointFor, nextVariant. cbv zeta. fold l.
  case_bool_decide as E0; [by rewrite E0|].
  destruct (HasPrefix l (bs "#")) eqn:Eh; cbn [negb].
  2:{ destruct (hlsResolve base l) as [abs []]; [done|]. cbn [app]. by rewrite app_nil_r. }
  assert (forall i f, hlsRewriteURIAttrFunc c pb ext nonce base i l f =
    match (match uriAttr l with Some (pre, ref, post) => if bool_decide (ref = []) then None else Some (pre, ref, post) | None => None end) with
    | None => l
    | Some (pre, ref, post) => match hlsResolve base ref with (_, true) => l | (abs, false) => pre ++ build c pb (nonce i) ext (f abs) abs ++ post end
    end) as Hf.
  { intros j f. unfold hlsRewriteURIAttrFunc. destruct (uriAttr l) as [[[pre ref] post]|]; [|done]. by case_bool_decide. }
  unfold hlsRewriteURIAttr. rewrite !Hf. clear Hf. change (bool_decide (manifestPath = [])) with false.
  change (bool_decide (bs "/proxy/stream" = [])) with false. cbn [negb].
  destruct (decide (tagOf l ∈ keyTags ++ mapTag :: partTags ++ playlistTags)) as [Hin|Hout].
  - rewrite (bool_decide_eq_true_2 _ Hin). unfold keyTags, partTags, playlistTags, mapTag in *. cbn [app] in Hin.
    repeat apply elem_of_cons in Hin as [Hin|Hin]; [rewrite Hin; closed_tests; done..|by apply elem_of_nil in Hin].
  - rewrite (bool_decide_eq_false_2 _ Hout). case_bool_decide; [done|].
    rewrite !bool_decide_eq_false_2; [done|..]; intros H'; apply Hout; unfold keyTags, partTags, playlistTags, mapTag; try rewrite H'; set_solver.
Qed.

Lemma rewriteLines_lookup `{P : Primitives} c pb ext nonce base sd i b lines k :
  rewriteLines c pb ext nonce base sd i b lines !! k =
  (fun line => fst (rewriteLine c pb ext nonce base sd (i + k) (foldl nextVariant b (take k lines)) line)) <$> lines !! k.
Proof.
  revert i b k. induction lines as [|line lines IH]; intros i b k; cbn [rewriteLines]; [done|].
  destruct (rewriteLine c pb ext nonce base sd i b line) as [out next] eqn:E.
  assert (next = nextVariant b line) as -> by (rewrite rewriteLine_shape in E; by injection E).
  destruct k as [|k]; cbn [lookup list_lookup take foldl fmap option_fmap option_map]; [by rewrite Nat.add_0_r, E|]. change (list_lookup k ?l) with (l !! k).
  rewrite IH. by rewrite Nat.add_succ_r.
Qed.

Lemma rewriteLines_length `{P : Primitives} c pb ext nonce base sd i b lines :
  length (rewriteLines c pb ext nonce base sd i b lines) = length lines.
Proof.
  revert i b. induction lines as [|line lines IH]; intros i b; cbn [rewriteLines]; [done|].
  destruct (rewriteLine _ _ _ _ _ _ _ _ _). cbn [length]. by rewrite IH.
Qed.

(** The URL a line adds to the segments. *)
Definition segmentOf (base : option URL) (line : bytes) : option bytes :=
  let l := TrimSpace line in
  if bool_decide (l = []) || HasPrefix l (bs "#") || isM3U8 l then None
  else match hlsResolve base l with (_, true) => None | (abs, false) => Some abs end.

Lemma segmentURLs_spec base max urls lines : Z.of_nat (length urls) < max ->
  segmentURLs base max urls lines = take (Z.to_nat max) (urls ++ omap (segmentOf base) lines).
Proof.
  revert urls. induction lines as [|line lines IH]; intros urls Hm; cbn [segmentURLs omap list_omap].
  { rewrite app_nil_r. by rewrite take_ge by lia. }
  unfold segmentOf at 1. cbv zeta. destruct (bool_decide (TrimSpace line = []) || HasPrefix (TrimSpace line) (bs "#")); cbn [orb]; [by apply IH|].
  destruct (isM3U8 (TrimSpace line)); [by apply IH|]. destruct (hlsResolve base (TrimSpace line)) as [abs []]; [by apply IH|].
  rewrite length_app. cbn [length]. destruct (Z.leb_spec max (Z.of_nat (length urls + 1))) as [Hle|Hlt].
  - assert (urls ++ abs :: omap (segmentOf base) lines = (urls ++ [abs]) ++ omap (segmentOf base) lines) as -> by (by rewrite <- app_assoc).
    rewrite take_app_le by (rewrite length_app; cbn [length]; lia).
    by rewrite take_ge by (rewrite length_app; cbn [length]; lia).
  - rewrite IH by (rewrite length_app; cbn [length]; lia). by rewrite <- app_assoc.
Qed.

Lemma hlsSegmentURLs_spec base playlist max :
  hlsSegmentURLs base playlist max = take (Z.to_nat max) (omap (segmentOf (Parse base)) (Split playlist 10)).
Proof.
  unfold hlsSegmentURLs. destruct (Z.leb_spec max 0); [by rewrite Z2Nat.nonpos by done|].
  rewrite segmentURLs_spec by (cbn; lia). done.
Qed.

Lemma hlsResolve_bytes base ref : (forall u, base = Some u -> urlBytes u) -> Forall is_byte ref -> Forall is_byte (fst (hlsResolve base ref)).
Proof.
  intros Hb Hr. unfold hlsResolve, slowResolve. destruct (hlsPlainAbsolute ref); [done|].
  destruct (Parse ref) as [u|] eqn:E; [|done]. destruct (hlsNonHTTPScheme u); [done|]. destruct base as [b|]; [|done]. cbn [fst].
  apply URLString_bytes, ResolveReference_bytes; [by apply Hb|by eapply Parse_bytes].
Qed.

(** ** Endpoints *)

Definition accepted (ep : bytes) : Prop :=
  ep = manifestPath \/ ep = bs "/proxy/stream" \/ exists e, e ∈ hlsSegmentExts /\ ep = segmentPath e.

Lemma hlsSegmentEndpoint_accepted abs def : def ∈ hlsSegmentExts -> accepted (hlsSegmentEndpoint abs def).
Proof.
  intros Hd. right. right. unfold hlsSegmentEndpoint, hlsSegmentEndpoints. cbv zeta. rewrite (bool_decide_eq_true_2 _ Hd).
  destruct (lastIndex (pathBase abs) 46); [|by exists def].
  case_bool_decide; [by eexists|]. case_bool_decide; by eexists.
Qed.

Lemma endpointFor_accepted b playlist l abs : accepted (endpointFor b (segDefaultOf playlist) l abs).
Proof.
  assert (segDefaultOf playlist ∈ hlsSegmentExts) as Hs by (unfold segDefaultOf; case_match; by_decide).
  unfold endpointFor. destruct (negb _).
  - destruct (_ || _); [by left|by apply hlsSegmentEndpoint_accepted].
  - case_bool_decide; [by right; left|]. case_bool_decide; [apply hlsSegmentEndpoint_accepted; by_decide|].
    case_bool_decide; [by apply hlsSegmentEndpoint_accepted|by left].
Qed.

Lemma accepted_plain ep : accepted ep -> ValidString ep = true /\ Forall (fun c => 36 < c) ep.
Proof.
  assert (Forall (fun e => ValidString (segmentPath e) = true /\ Forall (fun c => 36 < c) (segmentPath e)) hlsSegmentExts) as He by by_decide.
  intros [->|[->|(e & Hin & ->)]]; [by_decide..|]. by apply (proj1 (Forall_forall _ _) He).
Qed.

(** * A rewritten playlist *)

Section Playlist.
Context `{POk : PrimitivesOk} (urlParse : bytes -> option (bytes * bytes)).

(** A link to [dest] at endpoint [ep]: the client of request [r] may follow it
    until its token expires, and the server reads the destination and all the
    other options back. *)
Definition carries (c : Config) (now : Z) (r : Request) (o : Options) (ext link ep dest : bytes) : Prop :=
  exists query, link = ext ++ ep ++ 63 :: query /\
    forall remote xff now' keys',
      let sub := follow ep query remote xff in
      clientIP (c_TrustedProxies c) sub = clientIP (c_TrustedProxies c) r ->
      o_subTokenExp o = 0 \/ now' <= o_subTokenExp o ->
      NoDup keys' -> (forall k, k ∈ keys' <-> valuesOf (Query sub) k <> []) ->
      authorize c now' sub = None /\ parseOptions urlParse c now' sub keys' = withDest o dest.

Context (c : Config) (now : Z) (r : Request) (keys ro so : list bytes) (nonce : nat -> bytes) (ext dest playlist : bytes).
Let o := parseOptions urlParse c now r keys.
Context (Hauth : authorize c now r = None) (Hnow : 0 < now) (Hexcl : passwordParam r = [] \/ tokenParam r = []).
Context (Hraw : Forall is_byte (rq_RawQuery r)).
Context (Hnonce : forall i, Forall is_byte (nonce i) /\ length (nonce i) = NonceSize).
Context (Hro : NoDup ro) (Hrok : forall K, K ∈ ro <-> is_Some (o_ReqHeaders o !! K)).
Context (Hso : NoDup so) (Hsok : forall K, K ∈ so <-> is_Some (o_RespHeaders o !! K)).
Context (Hdest : Forall is_byte dest) (Hplaylist : Forall is_byte playlist) (Hext : 10 ∉ ext /\ 34 ∉ ext /\ HasPrefix ext (bs "#") = false).

Definition link (i : nat) (ep abs : bytes) : bytes :=
  build c (newProxyURLBuilder c (Some (withDest o dest)) ro so) (Some (nonce i)) ext ep abs.

Lemma link_eq i ep abs : link i ep abs = buildProxyURL c (Some o) ro so (Some (nonce i)) ext ep abs.
Proof. unfold link, buildProxyURL, newProxyURLBuilder. cbn [withDest o_ReqHeaders o_RespHeaders o_APIPassword o_Proxy o_subTokenExp]. by destruct (o_APIPassword o). Qed.

Lemma link_carries i ep abs : accepted ep -> Forall is_byte abs -> carries c now r o ext (link i ep abs) ep abs.
Proof.
  intros Hep Ha. destruct (accepted_plain ep Hep) as [Hv _]. destruct (Hnonce i) as [H1 H2]. unfold carries. rewrite link_eq.
  exact (links_carry_on urlParse c now r keys ro so (nonce i) ext ep abs Hauth Hnow Hexcl Hraw Ha Hv H1 H2 Hro Hrok Hso Hsok).
Qed.

Lemma link_clean i ep abs x : accepted ep -> Forall is_byte abs -> x = 10 \/ x = 34 -> x ∉ link i ep abs.
Proof.
  intros Hep Ha Hx. destruct (accepted_plain ep Hep) as [Hv Hpl]. destruct (Hnonce i) as [H1 H2]. rewrite link_eq, build_rendered by done.
  rewrite !elem_of_app, elem_of_cons. intros [H|[H|[H|H]]].
  - destruct Hext as (H10 & H34 & _). by destruct Hx as [-> | ->].
  - apply (proj1 (Forall_forall _ _) Hpl) in H. lia.
  - lia.
  - refine (_ (proj1 (Forall_forall _ _) (rendered_above _ _) _ H)); [lia|].
    by apply (link_params_ok urlParse c now r keys ro so (nonce i) ep abs).
Qed.

(** What becomes of line [i]. *)
Definition rewrittenTo (lines : list bytes) (i : nat) (line line' : bytes) : Prop :=
  let l := TrimSpace line in
  match reference l with
  | None => line' = l
  | Some (pre, ref, post) =>
      l = pre ++ ref ++ post /\
      match hlsResolve (Parse dest) ref with
      | (_, true) => line' = l
      | (abs, false) =>
          exists variant ep lk, (variant = true <-> variantAt lines i) /\
            ep = endpointFor variant (segDefaultOf playlist) l abs /\ accepted ep /\
            line' = pre ++ lk ++ post /\ reference line' = Some (pre, lk, post) /\ carries c now r o ext lk ep abs
      end
  end.

Lemma line_bytes line : line ∈ Split playlist 10 -> Forall is_byte (TrimSpace line) /\ 10 ∉ TrimSpace line.
Proof.
  intros Hin. split.
  - apply TrimSpace_Forall. by apply (proj1 (Forall_forall _ _) (split_from_bytes [] playlist 10 (Forall_nil_2 _) Hplaylist)).
  - apply Forall_ne, TrimSpace_Forall, Forall_ne. by apply (proj1 (Forall_forall _ _) (split_from_notin [] playlist 10 (not_elem_of_nil _))).
Qed.

Lemma reference_spec l pre ref post : reference l = Some (pre, ref, post) -> l = pre ++ ref ++ post /\ ref <> [] /\
  (HasPrefix l (bs "#") = false /\ pre = [] /\ post = [] \/
   HasPrefix l (bs "#") = true /\ tagOf l ∈ keyTags ++ mapTag :: partTags ++ playlistTags /\ uriAttr l = Some (pre, ref, post)).
Proof.
  unfold reference. case_bool_decide; [done|]. destruct (HasPrefix l (bs "#")) eqn:E; cbn [negb].
  - case_bool_decide; [|done]. destruct (uriAttr l) as [[[a v] p]|] eqn:Eu; [|done]. case_bool_decide; [done|].
    intros [= <- <- <-]. split; [by apply uriAttr_spec in Eu as [? _]|]. split; [done|]. right. done.
  - intros [= <- <- <-]. split; [by rewrite app_nil_r|]. split; [done|]. by left.
Qed.

(** A line keeps its tag when the value of its attribute changes. *)
Lemma tag_keeps pre ref post v : tagOf (pre ++ ref ++ post) ∈ keyTags ++ mapTag :: partTags ++ playlistTags -> 34 ∈ pre ->
  tagOf (pre ++ v ++ post) = tagOf (pre ++ ref ++ post) /\ HasPrefix (pre ++ v ++ post) (bs "#") = true /\ pre <> [].
Proof.
  intros Hin Hq. assert (Forall (fun t => 34 ∉ t /\ 58 ∉ t /\ HasPrefix t (bs "#") = true) (keyTags ++ mapTag :: partTags ++ playlistTags)) as Ht by by_decide.
  pose proof (proj1 (Forall_forall _ _) Ht _ Hin) as (H1 & H2 & H3). clear Hin Ht.
  unfold tagOf in *. destruct (Cut (pre ++ ref ++ post) 58) as [[t b]|] eqn:E.
  2:{ destruct H1. by apply elem_of_app; left. }
  apply Cut_spec in E as [E _]. assert (exists p, pre = t ++ 58 :: p) as [p ->].
  { apply app_eq_inv in E as [(k & Hk & Hk2)|(k & -> & Hk)].
    - destruct k as [|x k]; [rewrite app_nil_r in Hk; by subst|]. injection Hk2 as -> _. by exists k.
    - destruct H1. apply elem_of_app. by left. }
  rewrite <- app_assoc. cbn [app]. rewrite Cut_app by done. split; [done|]. split; [|by destruct t].
  apply HasPrefix_spec in H3 as [t' ->]. rewrite <- app_assoc. apply HasPrefix_app.
Qed.

Lemma uriAttr_quote l pre ref post : uriAttr l = Some (pre, ref, post) -> 34 ∈ pre.
Proof.
  unfold uriAttr. destruct (attrHere l) as [[v r0]|]; [intros [= <- <- <-]; by apply (bool_decide_unpack _)|].
  revert pre. induction l as [|x l IH]; intros pre; cbn [attr_from]; [done|].
  destruct (if oneOf (bs ":,") x then attrHere l else None) as [[v r0]|]; [intros [= <- <- <-]; right; by apply (bool_decide_unpack _)|].
  destruct (attr_from l) as [[[a v] r0]|]; [|done]. intros [= <- <- <-]. right. by eapply IH.
Qed.

Lemma reference_back i l pre ref post ep abs : reference l = Some (pre, ref, post) -> accepted ep -> Forall is_byte abs ->
  reference (pre ++ link i ep abs ++ post) = Some (pre, link i ep abs, post).
Proof.
  intros Hr Hep Ha. destruct (reference_spec _ _ _ _ Hr) as (El & Hne & Hcase).
  assert (34 ∉ link i ep abs) as H34 by (apply link_clean; tauto).
  assert (link i ep abs <> [] /\ HasPrefix (link i ep abs) (bs "#") = false) as [Hn Hh].
  { destruct (link_carries i ep abs Hep Ha) as (query & -> & _). destruct Hext as (_ & _ & Hx).
    assert (ext ++ ep ++ 63 :: query <> []) by (by destruct ext, ep). split; [done|].
    destruct ext as [|x e]; [|exact Hx]. destruct Hep as [->|[->|(e & _ & ->)]]; reflexivity. }
  destruct Hcase as [(_ & -> & ->)|(_ & Htag & Hu)].
  - rewrite app_nil_r. cbn [app]. unfold reference. rewrite bool_decide_eq_false_2 by done. by rewrite Hh.
  - subst l. destruct (tag_keeps pre ref post (link i ep abs) Htag (uriAttr_quote _ _ _ _ Hu)) as (Ht & Hp & Hne').
    unfold reference. rewrite bool_decide_eq_false_2 by (by destruct pre). rewrite Hp. cbn [negb]. rewrite Ht, (bool_decide_eq_true_2 _ Htag).
    destruct (uriAttr_spec _ _ _ _ Hu) as (_ & _ & Hb). rewrite Hb by done. by rewrite bool_decide_eq_false_2.
Qed.

Let lines := Split playlist 10.
Let out := rewriteLines c (newProxyURLBuilder c (Some (withDest o dest)) ro so) ext (fun i => Some (nonce i)) (Parse dest)
             (segDefaultOf playlist) 0 false lines.

Lemma base_bytes u : Parse dest = Some u -> urlBytes u.
Proof. by apply Parse_bytes. Qed.

Lemma out_line i line : lines !! i = Some line -> exists line', out !! i = Some line' /\ rewrittenTo lines i line line' /\ 10 ∉ line'.
Proof.
  intros Hl. unfold out. rewrite rewriteLines_lookup, Hl. cbn [fmap option_fmap option_map Nat.add]. rewrite rewriteLine_shape. cbv zeta. cbn [fst].
  destruct (line_bytes line) as [Hb H10]; [by eapply list_elem_of_lookup_2|]. eexists. split; [reflexivity|].
  unfold rewrittenTo. cbv zeta. destruct (reference (TrimSpace line)) as [[[pre ref] post]|] eqn:Er; [|done].
  destruct (reference_spec _ _ _ _ Er) as (El & _ & _). rewrite El in Hb, H10. apply Forall_app in Hb as [_ [Hb _]%Forall_app].
  pose proof (hlsResolve_bytes (Parse dest) ref base_bytes Hb) as Ha. destruct (hlsResolve (Parse dest) ref) as [abs []]; cbn [fst] in Ha.
  { split; [done|]. by rewrite El. }
  set (b := foldl nextVariant false (take i lines)). set (ep := endpointFor b (segDefaultOf playlist) (TrimSpace line) abs).
  assert (accepted ep) as Hep by apply endpointFor_accepted. fold (link i ep abs). split.
  - split; [done|]. exists b, ep, (link i ep abs). split_and!; [|done|done|done|by eapply reference_back|by apply link_carries].
    apply variant_flag. apply lookup_lt_Some in Hl. lia.
  - rewrite !elem_of_app in *. intros [?|[?|?]]; [tauto| |tauto]. by apply (link_clean i ep abs 10); tauto.
Qed.

Lemma out_split : Split (join [10] out) 10 = out.
Proof.
  assert (length out = length lines) as Hlen by apply rewriteLines_length. apply Split_join.
  - intros E. rewrite E in Hlen. cbn in Hlen. destruct lines eqn:El; [by apply split_from_ne in El|done].
  - apply Forall_forall. intros l' [i Hi]%list_elem_of_lookup. destruct (lookup_lt_is_Some_2 lines i) as [l Hl].
    { apply lookup_lt_Some in Hi. lia. }
    destruct (out_line i l Hl) as (l2 & Hl2 & _ & ?). by simplify_eq.
Qed.

End Playlist.

(** * The handlers *)

Lemma readManifest_spec resp playlist : readManifest resp = Some playlist -> Z.of_nat (length playlist) <= maxManifestBytes ->
  up_fail resp = false /\ playlist = up_body resp.
Proof.
  unfold readManifest. destruct (up_fail resp && _) eqn:E; [done|]. intros [= <-]. rewrite length_take. intros Hl.
  assert (Z.of_nat (length (up_body resp)) <= maxManifestBytes) as Hb by (unfold maxManifestBytes in *; lia).
  split; [destruct (up_fail resp); [|done]; cbn [andb] in E; apply Z.leb_gt in E; lia|]. apply take_ge. unfold maxManifestBytes in *. lia.
Qed.

Section Serve.
Context `{P : Primitives}.
Context (urlParse : bytes -> option (bytes * bytes)) (lookupHost : bytes -> option (list bytes)).
Context (lookupIP : Z -> bytes -> option (list bytes)) (sha256hex : bytes -> bytes).
Context (extract : bytes -> bytes -> extraction) (redirect : Options -> embedResult -> bytes).
Context (fetch : bytes -> bytes -> header -> bytes -> option upstream).
Context (acquire tryAcquire : Z -> bool) (decrypt : DecryptParams -> bytes -> option bytes).

(** The outcome of hlsServe: refused before any fetch, or one fetch the gate
    admits, and then a failure or the upstream's manifest rewritten. *)
Definition hls_ok (c : serveConfig) (publicURL : bytes) (prebuffer now : Z) (hr : hlsRequest) (al : option Allow)
    (fx : list effect) (a : answer) (warm : list bytes) : Prop :=
  let sr := hr_stream hr in
  let o := parseOptions urlParse (s_auth c) now (sr_req sr) (sr_keys sr) in
  fx = [] /\ warm = [] /\ (forall s h b, a <> AData s h b) \/
  exists o' p, fx = [Fetch (bs "GET") (o_Dest o') (o_ReqHeaders o') p] /\
    admittedTo urlParse lookupHost lookupIP extract c now al (sr_req sr) o (o_Dest o') p /\
    (a = AError 502 /\ warm = [] \/
     exists resp h, a = AData 200 h (hlsRewrite (s_auth c) (externalBase publicURL (c_TrustedProxies (s_auth c)) (sr_req sr) (hr_base hr)) o'
                                       (hr_reqOrder hr) (sr_respOrder sr) (hr_nonce hr) (up_body resp)) /\
       secured h /\ fetch (bs "GET") (o_Dest o') (o_ReqHeaders o') p = Some resp /\
       200 <= up_status resp <= 299 /\ up_fail resp = false /\ Z.of_nat (length (up_body resp)) <= maxManifestBytes /\
       warm = hlsSegmentURLs (o_Dest o') (up_body resp) prebuffer).

Lemma hlsServe_ok c publicURL prebuffer now hr al :
  let '(fx, a, warm, _) := hlsServe urlParse lookupHost lookupIP extract redirect fetch c publicURL prebuffer now hr al in
  hls_ok c publicURL prebuffer now hr al fx a warm.
Proof.
  unfold hlsServe, hls_ok. cbv zeta. pose proof (gate_spec urlParse lookupHost lookupIP extract redirect c now (hr_stream hr) manifestPath al) as Hg.
  cbv zeta in Hg. destruct (gate _ _ _ _ _ _ _ _ _ _) as [[a|o'] al']; cbn [fst] in Hg; [by left|].
  destruct (fetch (bs "GET") (o_Dest o') (o_ReqHeaders o') (effProxy c o')) as [resp|] eqn:Ef;
    [|right; do 2 eexists; split; [done|]; split; [exact Hg|by left]].
  destruct (_ || _) eqn:Es; [right; do 2 eexists; split; [done|]; split; [exact Hg|by left]|].
  destruct (readManifest resp) as [playlist|] eqn:Er; [|right; do 2 eexists; split; [done|]; split; [exact Hg|by left]].
  destruct (Z.ltb_spec maxManifestBytes (Z.of_nat (length playlist))) as [|Hl]; [right; do 2 eexists; split; [done|]; split; [exact Hg|by left]|].
  right. do 2 eexists. split; [done|]. split; [exact Hg|]. right. apply readManifest_spec in Er as [Hf ->]; [|done].
  exists resp. eexists. split; [reflexivity|]. apply orb_false_iff in Es as [E1 E2]. apply Z.ltb_ge in E1, E2.
  split_and!; try done.
  - apply set_secured. apply hset_clean; [by intros K [? [=]]|by apply (bool_decide_unpack _)].
  - destruct (Z.ltb_spec 0 prebuffer); [done|]. unfold hlsSegmentURLs. by rewrite (proj2 (Z.leb_le prebuffer 0)).
Qed.

End Serve.

(** * A playlist rewritten *)

Definition unlines (l : list string) : bytes := join [10] (bs <$> l).

Definition plainOpts (dest : bytes) : Options := MkOpts dest ∅ ∅ (bs "pw") [] 0 [].

Definition wit_attr (pre val post : string) : bytes := bs pre ++ 34 :: bs val ++ 34 :: bs post.

Example rewrite_example :
  hlsRewrite (P := plainPrimitives) wit_cfg (bs "http://h:1") (plainOpts (bs "http://a/l/i.m3u8")) [] [] (fun _ => None)
    (join [10] [bs "#EXTM3U"; bs "#EXT-X-STREAM-INF:BANDWIDTH=1"; []; bs "low/x" ++ [13]; bs "../s.TS?k=1"; bs "skd://k"; bs "https://b/a|c.m4s";
                wit_attr "#EXT-X-MEDIA:TYPE=AUDIO,URI=" "au" ",NAME=x"; wit_attr "#EXT-X-KEY:URI=" "data:x" ""]) =
  join [10] [bs "#EXTM3U"; bs "#EXT-X-STREAM-INF:BANDWIDTH=1"; [];
             bs "http://h:1/proxy/hls/manifest.m3u8?d=" ++ b64enc (bs "http://a/l/low/x") ++ bs "&api_password=pw";
             bs "http://h:1/proxy/stream/segment.ts?d=" ++ b64enc (bs "http://a/s.TS?k=1") ++ bs "&api_password=pw";
             bs "skd://k";
             bs "http://h:1/proxy/stream/segment.m4s?d=" ++ b64enc (bs "https://b/a|c.m4s") ++ bs "&api_password=pw";
             bs "#EXT-X-MEDIA:TYPE=AUDIO,URI=" ++ 34 :: bs "http://h:1/proxy/hls/manifest.m3u8?d=" ++ b64enc (bs "http://a/l/au") ++
               bs "&api_password=pw" ++ 34 :: bs ",NAME=x";
             wit_attr "#EXT-X-KEY:URI=" "data:x" ""].
Proof. by_decide. Qed.

Example prefetch_example :
  hlsSegmentURLs (bs "http://a/l/i.m3u8") (unlines ["#EXTM3U"; "1.ts"; "skd://k"; "v.m3u8"; " 2.ts "; "3.ts"]) 2 = [bs "http://a/l/1.ts"; bs "http://a/l/2.ts"].
Proof. by_decide. Qed.

Example base_example :
  let r peer := MkReq (bs "/") [] (bs peer) [] in
  let b := MkBase false (bs "h:1") (bs "HTTPS, http") (bs "tv.example:8443") in
  ExternalBase [] (r "127.0.0.1:9") b = bs "https://tv.example:8443" /\ ExternalBase [] (r "192.168.1.2:9") b = bs "http://h:1" /\
  externalBase (bs "https://x//") [] (r "192.168.1.2:9") b = bs "https://x" /\
  validForwardedHost (bs "[::1]:80") = true /\ validForwardedHost (bs "a:0") = false /\ validForwardedHost (bs "a b") = false.
Proof. cbv zeta. by_decide. Qed.

Definition wit_playlist : bytes := unlines ["#EXTM3U"; "#EXT-X-STREAM-INF:BANDWIDTH=1"; "low"; "1.ts"].

