(* ===== verification/Mp4.v ===== *)
(** Fragmented MP4 as the decryptor of the stream proxy reads it
    (internal/streamproxy/drm.go): boxes, and the payloads of tenc, tfhd, trun and
    senc.

    Error values are dropped: [EErr] is any error.  [EPanic] is a panic: every
    index and slice expression is checked against the length of the slice (Go
    checks the upper bound of a slice expression against its capacity, so a model
    that does not panic means code that does not). *)

From S2P Require Import Prelude GoStrings.

Inductive derr := EErr | EPanic.

Abbreviation res := (result derr).

#[local] Open Scope go_scope.

Definition len (p : bytes) : Z := Z.of_nat (length p).

(** p[a:b]. *)
Definition slice (p : bytes) (a b : Z) : res bytes :=
  if (0 <=? a) && (a <=? b) && (b <=? len p) then Ok (take (Z.to_nat (b - a)) (drop (Z.to_nat a) p)) else Err EPanic.

(** p[i]. *)
Definition at_ (p : bytes) (i : Z) : res Z :=
  if i <? 0 then Err EPanic else match p !! Z.to_nat i with Some c => Ok c | None => Err EPanic end.

(** encoding/binary's big-endian integers. *)
Definition be (s : bytes) : Z := foldl (fun acc c => acc * 256 + c) 0 s.
Definition u16 (p : bytes) (off : Z) : res Z := try! s := slice p off (off + 2) in Ok (be s).
Definition u32 (p : bytes) (off : Z) : res Z := try! s := slice p off (off + 4) in Ok (be s).
Definition u64 (p : bytes) (off : Z) : res Z := try! s := slice p off (off + 8) in Ok (be s).

Definition int32 (z : Z) : Z := wrapS 32 z.

(** flags&bit != 0. *)
Definition flag (flags bit : Z) : bool := negb (Z.land flags bit =? 0).

(** uint32(p[1])<<16 | uint32(p[2])<<8 | uint32(p[3]). *)
Definition flags24 (p : bytes) : res Z :=
  try! a := at_ p 1 in try! b := at_ p 2 in try! c := at_ p 3 in
  Ok (Z.lor (Z.lor (Z.shiftl a 16) (Z.shiftl b 8)) c).

(** An early error return. *)
Definition check (fails : bool) : res unit := if fails then Err EErr else Ok tt.

(** * Boxes *)

Record drmBox := MkBox {
  b_Type : bytes;
  b_Start : Z;
  b_HdrSize : Z;
  b_Size : Z;
  b_Payload : bytes
}.

Definition drmContainerTypes : list bytes :=
  bs <$> ["moof"; "traf"; "moov"; "trak"; "mdia"; "minf"; "stbl"; "edts"; "dinf"; "udta"; "schi"]%string.

(** The header at [pos]: its type, the size of the box and of the header. *)
Definition boxHeader (b : bytes) (pos : Z) : res (bytes * Z * Z) :=
  try! size32 := u32 b pos in
  try! boxType := slice b (pos + 4) (pos + 8) in
  try! (boxSize, hdrSize) :=
    (if size32 =? 0 then Ok (len b - pos, 8)
     else if size32 =? 1 then
       try! _ := check (len b <? pos + 8 + 8) in
       try! large := u64 b (pos + 8) in
       try! _ := check (len b - pos <? large) in
       Ok (large, 16)
     else
       try! _ := check (size32 <? 8) in
       try! _ := check (len b <? pos + size32) in
       Ok (size32, 8)) in
  try! hdrSize :=
    (if bool_decide (boxType = bs "uuid") then
       try! _ := check (len b <? pos + hdrSize + 16) in Ok (hdrSize + 16)
     else Ok hdrSize) in
  try! _ := check (boxSize <? hdrSize) in
  Ok (boxType, boxSize, hdrSize).

(** The loop over the boxes of [b] from [pos]; [child] parses the payload of a
    container at its offset. *)
Fixpoint boxes_loop (child : bytes -> Z -> res (list drmBox)) (fuel : nat) (b : bytes) (startOffset pos : Z) : res (list drmBox) :=
  match fuel with
  | O => Err EPanic
  | S fuel =>
      if len b <=? pos then Ok []
      else if len b - pos <? 8 then Ok []
      else
        try! (boxType, boxSize, hdrSize) := boxHeader b pos in
        let endPos := Z.min (pos + boxSize) (len b) in
        try! payload := slice b (pos + hdrSize) endPos in
        let box := MkBox boxType (startOffset + pos) hdrSize boxSize payload in
        try! children := (if bool_decide (boxType ∈ drmContainerTypes) then child payload (startOffset + (pos + hdrSize)) else Ok []) in
        if boxSize =? 0 then Ok (box :: children)
        else try! rest := boxes_loop child fuel b startOffset (pos + boxSize) in Ok (box :: children ++ rest)
  end.

(** [depth] is what is left of the depths 0 to 32. *)
Fixpoint drmParseBoxesAt (depth : nat) (b : bytes) (startOffset : Z) : res (list drmBox) :=
  match depth with
  | O => Err EErr
  | S depth => boxes_loop (drmParseBoxesAt depth) (S (length b)) b startOffset 0
  end.

Definition maxBoxDepth : nat := 32.

Definition drmParseBoxes (b : bytes) : res (list drmBox) := drmParseBoxesAt (S maxBoxDepth) b 0.

(** * Track encryption *)

Record drmTenc := MkTenc {
  te_found : bool;
  te_hasPattern : bool;
  te_crypt : Z;
  te_skip : Z;
  te_perSampleIVSize : Z;
  te_constIV : bytes
}.

Definition noTenc : drmTenc := MkTenc false false 0 0 0 [].

Definition ivFallback (t : drmTenc) (iv : bytes) : bytes :=
  if te_found t && (0 <? len (te_constIV t)) then te_constIV t else iv.

Definition ivSizeHint (t : drmTenc) : Z := if te_found t then te_perSampleIVSize t else -1.

Definition drmDefaultCryptBlocks : Z := 1.
Definition drmDefaultSkipBlocks : Z := 9.

Definition pattern (t : drmTenc) (hasSubsamples : bool) : Z * Z :=
  if te_found t && te_hasPattern t then (te_crypt t, te_skip t)
  else if hasSubsamples then (drmDefaultCryptBlocks, drmDefaultSkipBlocks)
  else (0, 0).

Definition drmParseTenc (p : bytes) : res drmTenc :=
  try! _ := check (len p <? 24) in
  try! version := at_ p 0 in
  try! pat := at_ p 5 in
  try! isProtected := at_ p 6 in
  try! perSample := at_ p 7 in
  let hasPattern := 1 <=? version in
  let crypt := if hasPattern then Z.shiftr pat 4 else 0 in
  let skip := if hasPattern then Z.land pat 15 else 0 in
  try! constIV :=
    (if (isProtected =? 1) && (perSample =? 0) then
       try! _ := check (len p <? 25) in
       try! n := at_ p 24 in
       try! _ := check (negb (n =? 8) && negb (n =? 16) || (len p <? 25 + n)) in
       slice p 25 (25 + n)
     else Ok []) in
  Ok (MkTenc true hasPattern crypt skip perSample constIV).

(** The first tenc among [children] that parses. *)
Fixpoint firstTenc (children : list drmBox) : res (option drmTenc) :=
  match children with
  | [] => Ok None
  | c :: children =>
      if bool_decide (b_Type c = bs "tenc") then
        match drmParseTenc (b_Payload c) with
        | Ok t => Ok (Some t)
        | Err EErr => firstTenc children
        | Err EPanic => Err EPanic
        end
      else firstTenc children
  end.

(** One index of the scan of a stsd payload for a sinf. *)
Definition sinfAt (pl : bytes) (i : Z) : res (option drmTenc) :=
  try! tag := slice pl i (i + 4) in
  if negb (bool_decide (tag = bs "sinf")) then Ok None
  else
    let start := i - 4 in
    try! size := u32 pl start in
    if (size <? 16) || (len pl <? start + size) then Ok None
    else
      try! frma := slice pl (start + 12) (start + 16) in
      if negb (bool_decide (frma = bs "frma")) then Ok None
      else
        try! body := slice pl (start + 8) (start + size) in
        match drmParseBoxes body with
        | Err EErr => Ok None
        | Err EPanic => Err EPanic
        | Ok children => firstTenc children
        end.

Fixpoint sinf_loop (fuel : nat) (pl : bytes) (i : Z) : res (option drmTenc) :=
  match fuel with
  | O => Err EPanic
  | S fuel =>
      if len pl <? i + 4 then Ok None
      else try! t := sinfAt pl i in
           match t with
           | Some t => Ok (Some t)
           | None => sinf_loop fuel pl (i + 1)
           end
  end.

Fixpoint drmFindTenc (boxes : list drmBox) : res drmTenc :=
  match boxes with
  | [] => Ok noTenc
  | b :: boxes =>
      if negb (bool_decide (b_Type b = bs "stsd")) then drmFindTenc boxes
      else try! t := sinf_loop (S (length (b_Payload b))) (b_Payload b) 4 in
           match t with
           | Some t => Ok t
           | None => drmFindTenc boxes
           end
  end.

(** * Fragment headers *)

Record drmTfhd := MkTfhd {
  tf_baseDataOffset : option Z;
  tf_defaultBaseIsMoof : bool;
  tf_defaultSampleDuration : option Z;
  tf_defaultSampleSize : option Z;
  tf_defaultSampleFlagsPresent : bool
}.

(** A field of [w] bytes that is there when [present]: its value, and the offset
    behind it. *)
Definition field (present : bool) (w : Z) (p : bytes) (off : Z) : res (option Z * Z) :=
  if present then
    try! _ := check (len p <? off + w) in
    try! s := slice p off (off + w) in
    Ok (Some (be s), off + w)
  else Ok (None, off).

Definition drmParseTfhd (p : bytes) : res drmTfhd :=
  try! _ := check (len p <? 8) in
  try! flags := flags24 p in
  try! (base, off) := field (flag flags 0x1) 8 p 8 in
  try! (_, off) := field (flag flags 0x2) 4 p off in
  try! (duration, off) := field (flag flags 0x8) 4 p off in
  try! (size, off) := field (flag flags 0x10) 4 p off in
  try! (sampleFlags, _) := field (flag flags 0x20) 4 p off in
  Ok (MkTfhd base (flag flags 0x20000) duration size (bool_decide (is_Some sampleFlags))).

Record drmTrunSample := MkSample { ts_Duration : Z; ts_Size : Z; ts_Flags : Z; ts_CTSOffset : Z }.

Definition orZero (v : option Z) : Z := match v with Some v => v | None => 0 end.

Fixpoint trun_loop (n : nat) (flags : Z) (p : bytes) (off : Z) : res (list drmTrunSample) :=
  match n with
  | O => Ok []
  | S n =>
      try! (duration, off) := field (flag flags 0x100) 4 p off in
      try! (size, off) := field (flag flags 0x200) 4 p off in
      try! (sampleFlags, off) := field (flag flags 0x400) 4 p off in
      try! (cts, off) := field (flag flags 0x800) 4 p off in
      let s := MkSample (orZero duration) (orZero size) (orZero sampleFlags) (int32 (orZero cts)) in
      try! rest := trun_loop n flags p off in
      Ok (s :: rest)
  end.

(** The samples and the data offset. *)
Definition drmParseTrun (p : bytes) : res (list drmTrunSample * Z) :=
  try! _ := check (len p <? 8) in
  try! flags := flags24 p in
  try! sampleCount := u32 p 4 in
  try! (dataOffset, off) := field (flag flags 0x1) 4 p 8 in
  try! (_, off) := field (flag flags 0x4) 4 p off in
  let fieldBytes bit := if flag flags bit then 4 else 0 in
  let perSampleBytes := fieldBytes 0x100 + fieldBytes 0x200 + fieldBytes 0x400 + fieldBytes 0x800 in
  try! _ := check (if 0 <? perSampleBytes then uint32 ((len p - off) / perSampleBytes) <? sampleCount
                   else uint32 (len p) <? sampleCount) in
  try! samples := trun_loop (Z.to_nat sampleCount) flags p off in
  Ok (samples, int32 (orZero dataOffset)).

(** * Sample encryption *)

Record drmSubsample := MkSub { s_Clear : Z; s_Encrypted : Z }.
Record drmSencEntry := MkEntry { e_IV : bytes; e_Subsamples : list drmSubsample }.

(** The bound on the count before anything is read. *)
Definition sencBound (p : bytes) (count ivSize : Z) (hasSubs : bool) : bool :=
  let minPerSample := ivSize + (if hasSubs then 2 else 0) in
  (0 <? minPerSample) && (len p / minPerSample <? count).

Fixpoint subs_loop (n : nat) (p : bytes) (off : Z) : res (list drmSubsample * Z) :=
  match n with
  | O => Ok ([], off)
  | S n =>
      try! _ := check (len p <? off + 6) in
      try! clear := u16 p off in
      try! enc := u32 p (off + 2) in
      try! (rest, off) := subs_loop n p (off + 6) in
      Ok (MkSub clear enc :: rest, off)
  end.

Fixpoint senc_loop (n : nat) (ivSize : Z) (hasSubs : bool) (p : bytes) (off : Z) : res (list drmSencEntry * Z) :=
  match n with
  | O => Ok ([], off)
  | S n =>
      try! _ := check (len p <? off + ivSize) in
      try! iv := slice p off (off + ivSize) in
      let off := off + ivSize in
      try! (subs, off) :=
        (if hasSubs then
           try! _ := check (len p <? off + 2) in
           try! subCount := u16 p off in
           let off := off + 2 in
           try! _ := check ((len p - off) / 6 <? subCount) in
           subs_loop (Z.to_nat subCount) p off
         else Ok ([], off)) in
      try! (rest, off) := senc_loop n ivSize hasSubs p off in
      Ok (MkEntry iv subs :: rest, off)
  end.

Definition drmParseSencWithIVSize (p : bytes) (count ivSize : Z) (hasSubs : bool) : res (list drmSencEntry * Z) :=
  try! _ := check (sencBound p count ivSize hasSubs) in
  senc_loop (Z.to_nat count) ivSize hasSubs p 0.

Fixpoint consumed_loop (n : nat) (ivSize : Z) (hasSubs : bool) (p : bytes) (off : Z) : res Z :=
  match n with
  | O => Ok off
  | S n =>
      try! _ := check (len p <? off + ivSize) in
      let off := off + ivSize in
      try! off :=
        (if hasSubs then
           try! _ := check (len p <? off + 2) in
           try! subCount := u16 p off in
           let off := off + 2 in
           try! _ := check ((len p - off) / 6 <? subCount) in
           Ok (off + subCount * 6)
         else Ok off) in
      consumed_loop n ivSize hasSubs p off
  end.

Definition drmParseSencConsumed (p : bytes) (count ivSize : Z) (hasSubs : bool) : res Z :=
  try! _ := check (sencBound p count ivSize hasSubs) in
  consumed_loop (Z.to_nat count) ivSize hasSubs p 0.

(** Whether an IV size makes the parse end at the end of the payload. *)
Definition fits (payload : bytes) (sampleCount : Z) (hasSubs : bool) (ivSize : Z) : res bool :=
  match drmParseSencConsumed payload sampleCount ivSize hasSubs with
  | Ok consumed => Ok (consumed =? len payload)
  | Err EErr => Ok false
  | Err EPanic => Err EPanic
  end.

Fixpoint matches (payload : bytes) (sampleCount : Z) (hasSubs : bool) (candidates : list Z) : res (list Z) :=
  match candidates with
  | [] => Ok []
  | c :: candidates =>
      try! ok := fits payload sampleCount hasSubs c in
      try! rest := matches payload sampleCount hasSubs candidates in
      Ok (if ok then c :: rest else rest)
  end.

(** The IV size, or [None] for an empty table. *)
Definition chooseIVSize (payload : bytes) (sampleCount : Z) (hasSubs : bool) (ivSizeHint : Z) : res (option Z) :=
  try! hinted :=
    (if (ivSizeHint =? 0) && hasSubs || (ivSizeHint =? 8) || (ivSizeHint =? 16) then fits payload sampleCount hasSubs ivSizeHint
     else Ok false) in
  if hinted then Ok (Some ivSizeHint)
  else
    try! ms := matches payload sampleCount hasSubs (if hasSubs then [0; 8; 16] else [8; 16]) in
    match ms with
    | [] => Err EErr
    | [c] => Ok (Some c)
    | _ => if 0 <? sampleCount then Err EErr else Ok None
    end.

(** The IV of an entry as it is used. *)
Definition padIV (fallbackIV iv : bytes) : bytes :=
  if len iv =? 8 then iv ++ replicate 8 0
  else if (len iv =? 0) && (0 <? len fallbackIV) then fallbackIV
  else iv.

Definition drmParseSenc (p fallbackIV : bytes) (ivSizeHint : Z) : res (list drmSencEntry) :=
  try! _ := check (len p <? 8) in
  try! flags := flags24 p in
  try! sampleCount := u32 p 4 in
  let hasSubs := flag flags 0x2 in
  try! _ := check (uint32 (len p - 8) <? sampleCount) in
  try! payload := slice p 8 (len p) in
  try! ivSize := chooseIVSize payload sampleCount hasSubs ivSizeHint in
  match ivSize with
  | None => Ok []
  | Some ivSize =>
      try! (entries, _) := drmParseSencWithIVSize payload sampleCount ivSize hasSubs in
      Ok ((fun e => MkEntry (padIV fallbackIV (e_IV e)) (e_Subsamples e)) <$> entries)
  end.

(** * Runs without panic *)

(** [r] does not panic, and [P] holds of the value it returns, if any. *)
Definition sat {A} (r : res A) (P : A -> Prop) : Prop :=
  match r with
  | Ok a => P a
  | Err EErr => True
  | Err EPanic => False
  end.

Lemma sat_bind {A B} (r : res A) (f : A -> res B) P Q : sat r P -> (forall a, P a -> sat (f a) Q) -> sat (result_bind r f) Q.
Proof. destruct r as [a|[]]; cbn; auto. Qed.

Lemma sat_mono {A} (r : res A) (P Q : A -> Prop) : sat r P -> (forall a, P a -> Q a) -> sat r Q.
Proof. destruct r as [a|[]]; cbn; auto. Qed.

Lemma sat_ok {A} (a : A) (P : A -> Prop) : P a -> sat (Ok a) P.
Proof. done. Qed.

Lemma sat_check b : sat (check b) (fun _ => b = false).
Proof. by destruct b. Qed.

Lemma len_nonneg p : 0 <= len p.
Proof. unfold len. lia. Qed.

Lemma len_app p q : len (p ++ q) = len p + len q.
Proof. unfold len. rewrite length_app. lia. Qed.

Lemma slice_ok p a b : 0 <= a <= b -> b <= len p ->
  exists s, slice p a b = Ok s /\ s = take (Z.to_nat (b - a)) (drop (Z.to_nat a) p) /\ len s = b - a.
Proof.
  intros Ha Hb. unfold slice. rewrite (proj2 (Z.leb_le 0 a)), (proj2 (Z.leb_le a b)), (proj2 (Z.leb_le b (len p))) by lia.
  eexists. split; [done|]. split; [done|]. unfold len in *. rewrite length_take, length_drop. lia.
Qed.

Lemma sat_slice p a b : 0 <= a <= b -> b <= len p ->
  sat (slice p a b) (fun s => s = take (Z.to_nat (b - a)) (drop (Z.to_nat a) p) /\ len s = b - a).
Proof. intros Ha Hb. destruct (slice_ok p a b Ha Hb) as (s & -> & ? & ?). done. Qed.

Lemma sat_at p i : 0 <= i < len p -> sat (at_ p i) (fun c => p !! Z.to_nat i = Some c).
Proof.
  intros Hi. unfold at_. rewrite (proj2 (Z.ltb_ge i 0)) by lia. unfold len in Hi.
  destruct (lookup_lt_is_Some_2 p (Z.to_nat i)) as [c Hc]; [lia|]. by rewrite Hc.
Qed.

Lemma be_bound s : Forall is_byte s -> 0 <= be s < 256 ^ len s.
Proof.
  unfold be. assert (forall acc, 0 <= acc -> Forall is_byte s -> acc * 256 ^ len s <= foldl (fun a c => a * 256 + c) acc s < (acc + 1) * 256 ^ len s) as H.
  { induction s as [|c s IH]; intros acc Ha Hs; [change (256 ^ len []) with 1; cbn; lia|].
    apply Forall_cons in Hs as [Hc Hs]. unfold is_byte in Hc. cbn [foldl].
    assert (256 ^ len (c :: s) = 256 * 256 ^ len s) as ->.
    { unfold len. cbn [length]. rewrite Nat2Z.inj_succ, Z.pow_succ_r by lia. done. }
    specialize (IH (acc * 256 + c) ltac:(lia) Hs). assert (0 < 256 ^ len s) by (apply Z.pow_pos_nonneg; [lia|apply len_nonneg]). nia. }
  intros Hs. specialize (H 0 ltac:(lia) Hs). lia.
Qed.

Lemma slice_bytes p a b s : Forall is_byte p -> slice p a b = Ok s -> Forall is_byte s.
Proof. intros Hp. unfold slice. destruct (_ && _); [|done]. intros [= <-]. by apply Forall_take, Forall_drop. Qed.

Lemma word_ok p off w : Forall is_byte p -> 0 <= off -> 0 <= w -> off + w <= len p ->
  exists v, (try! s := slice p off (off + w) in Ok (be s)) = Ok v /\ 0 <= v < 256 ^ w.
Proof.
  intros Hp Ho Hw Hl. destruct (slice_ok p off (off + w)) as (s & E & _ & El); [lia..|]. exists (be s). rewrite E. split; [done|].
  replace w with (len s) by lia. apply be_bound. by eapply slice_bytes.
Qed.

Lemma sat_word p off w : Forall is_byte p -> 0 <= off -> 0 <= w -> off + w <= len p ->
  sat (try! s := slice p off (off + w) in Ok (be s)) (fun v => 0 <= v < 256 ^ w).
Proof. intros Hp Ho Hw Hl. by destruct (word_ok p off w Hp Ho Hw Hl) as (v & -> & Hv). Qed.

Lemma sat_u16 p off : Forall is_byte p -> 0 <= off -> off + 2 <= len p -> sat (u16 p off) (fun v => 0 <= v < 65536).
Proof. intros. by apply sat_word. Qed.

Lemma sat_u32 p off : Forall is_byte p -> 0 <= off -> off + 4 <= len p -> sat (u32 p off) (fun v => 0 <= v < 2 ^ 32).
Proof. intros. by apply (sat_word p off 4). Qed.

Lemma sat_u64 p off : Forall is_byte p -> 0 <= off -> off + 8 <= len p -> sat (u64 p off) (fun v => 0 <= v < 2 ^ 64).
Proof. intros. by apply (sat_word p off 8). Qed.

Lemma sat_flags p : 4 <= len p -> sat (flags24 p) (fun _ => True).
Proof.
  intros Hl. unfold flags24. eapply sat_bind; [apply sat_at; lia|]. intros a _. eapply sat_bind; [apply sat_at; lia|]. intros b _.
  eapply sat_bind; [apply sat_at; lia|]. done.
Qed.

Lemma sat_field present w p off : Forall is_byte p -> 0 <= w -> 0 <= off -> off <= len p ->
  sat (field present w p off) (fun vo => off <= snd vo <= off + w /\ snd vo <= len p /\ match fst vo with Some v => 0 <= v < 256 ^ w | None => True end).
Proof.
  intros Hp Hw Ho Hl. unfold field. destruct present; [|cbn; lia]. eapply sat_bind; [apply sat_check|]. intros _ E%Z.ltb_ge.
  eapply (sat_bind _ _ (fun s => Forall is_byte s /\ len s = w)).
  - destruct (slice_ok p off (off + w)) as (s & Es & _ & El); [lia..|]. rewrite Es. cbn. split; [by eapply slice_bytes|lia].
  - intros s [Hs El]. cbn. split; [lia|]. split; [lia|]. rewrite <- El. by apply be_bound.
Qed.

(** One step of a run: the next call, by its specification. *)
Ltac sat_step :=
  lazymatch goal with
  | |- sat (result_bind (check _) _) _ => eapply sat_bind; [apply sat_check|cbn beta; intros _ ?]
  | |- sat (result_bind (flags24 _) _) _ => eapply sat_bind; [apply sat_flags|cbn beta; intros ? _]
  | |- sat (result_bind (field _ _ _ _) _) _ => eapply sat_bind; [apply sat_field|cbn beta; intros [? ?] (? & ? & ?); cbn [fst snd] in *]
  | |- sat (result_bind (at_ _ _) _) _ => eapply sat_bind; [apply sat_at|cbn beta; intros ? ?]
  | |- sat (result_bind (slice _ _ _) _) _ => eapply sat_bind; [apply sat_slice|cbn beta; intros ? [? ?]]
  | |- sat (result_bind (u16 _ _) _) _ => eapply sat_bind; [apply sat_u16|cbn beta; intros ? ?]
  | |- sat (result_bind (u32 _ _) _) _ => eapply sat_bind; [apply sat_u32|cbn beta; intros ? ?]
  | |- sat (result_bind (u64 _ _) _) _ => eapply sat_bind; [apply sat_u64|cbn beta; intros ? ?]
  | |- sat (Ok _) _ => apply sat_ok; cbn [fst snd]
  end; bool_to_prop; try (done || lia).

(** ** Boxes *)

Lemma boxHeader_sat b pos : Forall is_byte b -> 0 <= pos -> pos + 8 <= len b ->
  sat (boxHeader b pos) (fun '(_, size, hdr) => 8 <= hdr <= size /\ pos + size <= len b).
Proof.
  intros Hb Hp Hl. unfold boxHeader. sat_step. sat_step.
  eapply (sat_bind _ _ (fun sh => (8 <= snd sh <= 16) /\ pos + fst sh <= len b)).
  - destruct (a =? 0); [cbn; lia|]. destruct (a =? 1).
    + repeat sat_step.
    + repeat sat_step.
  - intros [size hdr] [Hh Hs]. cbn [fst snd] in *.
    eapply (sat_bind _ _ (fun h => 8 <= h)).
    + destruct (bool_decide _); [|cbn; lia]. repeat sat_step.
    + intros h Hh'. repeat sat_step.
Qed.

(** A box lies in the buffer, its header in the box, and its payload is the
    rest of it. *)
Definition box_in (b : bytes) (startOffset : Z) (x : drmBox) : Prop :=
  let start := b_Start x - startOffset in
  0 <= start /\ 8 <= b_HdrSize x <= b_Size x /\ start + b_Size x <= len b /\
  b_Payload x = take (Z.to_nat (b_Size x - b_HdrSize x)) (drop (Z.to_nat (start + b_HdrSize x)) b).

Lemma box_in_payload b so pos hdr size payload x : 0 <= pos -> 8 <= hdr <= size -> pos + size <= len b ->
  payload = take (Z.to_nat (size - hdr)) (drop (Z.to_nat (pos + hdr)) b) ->
  box_in payload (so + (pos + hdr)) x -> box_in b so x.
Proof.
  intros Hp Hh Hl -> (H1 & H2 & H3 & H4). set (st := b_Start x - (so + (pos + hdr))) in *.
  assert (b_Start x - so = st + (pos + hdr)) as E by (unfold st; lia).
  assert (len (take (Z.to_nat (size - hdr)) (drop (Z.to_nat (pos + hdr)) b)) = size - hdr) as El.
  { unfold len in *. rewrite length_take, length_drop. lia. }
  rewrite El in H3. unfold box_in. rewrite E. split; [lia|]. split; [done|]. split; [lia|]. rewrite H4.
  rewrite skipn_firstn_comm, take_take, drop_drop. f_equal; [lia|]. f_equal. lia.
Qed.

Lemma boxes_loop_sat child fuel b so pos : Forall is_byte b ->
  (forall payload off, (len payload <= len b - 8) -> Forall is_byte payload -> sat (child payload off) (Forall (box_in payload off))) ->
  0 <= pos <= len b -> len b - pos < Z.of_nat fuel -> sat (boxes_loop child fuel b so pos) (Forall (box_in b so)).
Proof.
  intros Hb Hc. revert pos. induction fuel as [|fuel IH]; intros pos Hp Hf; cbn [boxes_loop].
  { lia. }
  destruct (Z.leb_spec (len b) pos) as [|Hlt]; [constructor|]. destruct (Z.ltb_spec (len b - pos) 8) as [|H8]; [constructor|].
  eapply sat_bind; [apply boxHeader_sat; [done|lia|lia]|]. intros [[ty size] hdr] [Hh Hs]. rewrite Z.min_l by lia.
  sat_step. assert (Forall is_byte a) as Ha by (subst a; by apply Forall_take, Forall_drop).
  assert (len a = size - hdr) as El by lia. replace (pos + size - (pos + hdr)) with (size - hdr) in * by lia.
  eapply (sat_bind _ _ (Forall (box_in b so))).
  - destruct (bool_decide _); [|constructor]. eapply sat_mono; [apply Hc; [lia|done]|]. intros children Hch.
    eapply Forall_impl; [exact Hch|]. intros x Hx. apply (box_in_payload b so pos hdr size a); done || lia.
  - intros children Hch. rewrite (proj2 (Z.eqb_neq size 0)) by lia.
    eapply sat_bind; [apply IH; lia|]. intros rest Hrest. apply sat_ok. apply Forall_cons. split; [|by apply Forall_app].
    unfold box_in. cbn [b_Start b_HdrSize b_Size b_Payload]. replace (so + pos - so) with pos by lia. split; [lia|]. split; [lia|]. by split.
Qed.

Lemma drmParseBoxesAt_sat d b so : Forall is_byte b -> sat (drmParseBoxesAt d b so) (Forall (box_in b so)).
Proof.
  revert b so. induction d as [|d IH]; intros b so Hb; [done|]. cbn [drmParseBoxesAt].
  apply boxes_loop_sat; [done|by intros; apply IH|unfold len; lia|unfold len; lia].
Qed.

Lemma drmParseBoxes_sat b : Forall is_byte b -> sat (drmParseBoxes b) (Forall (box_in b 0)).
Proof. apply drmParseBoxesAt_sat. Qed.

Lemma drmParseBoxesAt_bytes b so boxes : Forall is_byte b -> Forall (box_in b so) boxes -> Forall (fun x => Forall is_byte (b_Payload x)) boxes.
Proof. intros Hb Hf. eapply Forall_impl; [exact Hf|]. intros x (_ & _ & _ & ->). by apply Forall_take, Forall_drop. Qed.

Lemma drmParseBoxes_bytes b : Forall is_byte b -> sat (drmParseBoxes b) (Forall (fun x => Forall is_byte (b_Payload x))).
Proof. intros Hb. eapply sat_mono; [by apply drmParseBoxes_sat|]. intros boxes. by apply drmParseBoxesAt_bytes. Qed.

(** ** Track encryption *)

Definition tenc_ok (t : drmTenc) : Prop :=
  0 <= te_crypt t < 16 /\ 0 <= te_skip t < 16 /\ Forall is_byte (te_constIV t) /\ (te_constIV t = [] \/ len (te_constIV t) = 8 \/ len (te_constIV t) = 16).

Lemma noTenc_ok : tenc_ok noTenc.
Proof. unfold tenc_ok. cbn. split; [lia|]. split; [lia|]. split; [constructor|by left]. Qed.

Lemma lookup_byte p i c : Forall is_byte p -> p !! i = Some c -> 0 <= c < 256.
Proof. intros Hp Hc. by apply (Forall_lookup_1 is_byte p i c). Qed.

Lemma drmParseTenc_sat p : Forall is_byte p -> sat (drmParseTenc p) tenc_ok.
Proof.
  intros Hp. unfold drmParseTenc. sat_step. do 4 (sat_step). rename a0 into pat.
  assert (0 <= pat < 256) as Hpat by (eapply lookup_byte; [|eassumption]; done).
  assert (0 <= Z.shiftr pat 4 < 16 /\ 0 <= Z.land pat 15 < 16) as [Hc Hs].
  { change 15 with (Z.ones 4). rewrite Z.shiftr_div_pow2, Z.land_ones by lia. change (2 ^ 4) with 16.
    split; [|apply Z.mod_pos_bound; lia]. split; [apply Z.div_pos; lia|apply Z.div_lt_upper_bound; lia]. }
  cbv zeta.
  eapply (sat_bind _ _ (fun iv => Forall is_byte iv /\ (iv = [] \/ len iv = 8 \/ len iv = 16))).
  - destruct (_ && _); [|apply sat_ok; split; [constructor|by left]].
    sat_step. sat_step. rename a0 into n. eapply sat_bind; [apply sat_check|cbn beta; intros _ Hn].
    assert (n = 8 \/ n = 16) as Hn'.
    { apply orb_false_iff in Hn as [Hn _]. apply andb_false_iff in Hn as [Hn|Hn]; apply negb_false_iff, Z.eqb_eq in Hn; auto. }
    apply orb_false_iff in Hn as [_ Hn%Z.ltb_ge]. eapply sat_mono; [apply sat_slice; lia|]. intros s [-> Hl].
    split; [by apply Forall_take, Forall_drop|]. right. rewrite Hl. lia.
  - intros iv [Hiv Hiv']. apply sat_ok. unfold tenc_ok. cbn. split; [destruct (1 <=? a); lia|]. split; [destruct (1 <=? a); lia|by split].
Qed.

Lemma firstTenc_sat boxes : Forall (fun x => Forall is_byte (b_Payload x)) boxes ->
  sat (firstTenc boxes) (fun t => match t with Some t => tenc_ok t | None => True end).
Proof.
  induction 1 as [|b boxes Hb _ IH]; cbn [firstTenc]; [done|]. destruct (bool_decide _); [|done].
  pose proof (drmParseTenc_sat _ Hb) as H. by destruct (drmParseTenc (b_Payload b)) as [t|[]].
Qed.

Lemma sinfAt_sat pl i : Forall is_byte pl -> 4 <= i -> i + 4 <= len pl ->
  sat (sinfAt pl i) (fun t => match t with Some t => tenc_ok t | None => True end).
Proof.
  intros Hp Hi Hl. unfold sinfAt. sat_step. destruct (negb _); [done|]. cbv zeta. sat_step.
  destruct (_ || _) eqn:E; [done|]. bool_to_prop. sat_step. destruct (negb _); [done|].
  sat_step. assert (Forall is_byte a2) as Ha by (subst a2; by apply Forall_take, Forall_drop).
  pose proof (drmParseBoxes_bytes _ Ha) as Hb. destruct (drmParseBoxes a2) as [boxes|[]]; [|done..]. by apply firstTenc_sat.
Qed.

Lemma sinf_loop_sat pl fuel i : Forall is_byte pl -> 4 <= i -> (0 < fuel)%nat -> len pl - i < Z.of_nat fuel ->
  sat (sinf_loop fuel pl i) (fun t => match t with Some t => tenc_ok t | None => True end).
Proof.
  intros Hp. revert i. induction fuel as [|fuel IH]; intros i Hi H0 Hf; [lia|]. cbn [sinf_loop].
  destruct (Z.ltb_spec (len pl) (i + 4)); [done|]. eapply sat_bind; [by apply sinfAt_sat|]. intros [t|] Ht; [done|].
  apply IH; lia.
Qed.

Lemma drmFindTenc_sat boxes : Forall (fun x => Forall is_byte (b_Payload x)) boxes -> sat (drmFindTenc boxes) tenc_ok.
Proof.
  induction 1 as [|b boxes Hb _ IH]; cbn [drmFindTenc]; [apply noTenc_ok|]. destruct (negb _); [done|].
  eapply sat_bind; [apply sinf_loop_sat; [done|lia..|unfold len; lia]|]. by intros [t|] Ht.
Qed.

(** ** Fragment headers *)

Definition tfhd_ok (t : drmTfhd) : Prop :=
  match tf_baseDataOffset t with Some b => 0 <= b < 2 ^ 64 | None => True end /\
  match tf_defaultSampleSize t with Some n => 0 <= n < 2 ^ 32 | None => True end.

Lemma drmParseTfhd_sat p : Forall is_byte p -> sat (drmParseTfhd p) tfhd_ok.
Proof. intros Hp. unfold drmParseTfhd. repeat sat_step. Qed.

Definition sample_ok (s : drmTrunSample) : Prop := 0 <= ts_Size s < 2 ^ 32.

Lemma orZero_bound v n : 0 < n -> match v with Some v => 0 <= v < n | None => True end -> 0 <= orZero v < n.
Proof. destruct v; cbn; lia. Qed.

Lemma trun_loop_sat n flags p off : Forall is_byte p -> 0 <= off <= len p ->
  sat (trun_loop n flags p off) (fun ss => length ss = n /\ Forall sample_ok ss).
Proof.
  intros Hp. revert off. induction n as [|n IH]; intros off Ho; cbn [trun_loop]; [by split|].
  do 4 sat_step. eapply sat_bind; [apply IH; lia|]. intros rest [El Hs]. apply sat_ok. split; [cbn [length]; lia|].
  constructor; [|done]. by apply orZero_bound.
Qed.

Lemma drmParseTrun_sat p : Forall is_byte p ->
  sat (drmParseTrun p) (fun r => Forall sample_ok (fst r) /\ - 2 ^ 31 <= snd r < 2 ^ 31).
Proof.
  intros Hp. unfold drmParseTrun. do 5 sat_step. cbv zeta. eapply sat_bind; [apply sat_check|]. intros _ _.
  eapply sat_bind; [apply trun_loop_sat; [done|lia]|]. intros ss [_ Hs]. apply sat_ok. split; [done|]. cbn [snd]. by apply (wrapS_range 32).
Qed.

(** ** Sample encryption *)

Definition sub_ok (s : drmSubsample) : Prop := 0 <= s_Clear s < 2 ^ 16 /\ 0 <= s_Encrypted s < 2 ^ 32.
Definition entry_ok (e : drmSencEntry) : Prop := Forall is_byte (e_IV e) /\ Forall sub_ok (e_Subsamples e).

Lemma subs_loop_ok n p off : Forall is_byte p -> 0 <= off -> off + 6 * Z.of_nat n <= len p ->
  exists subs, subs_loop n p off = Ok (subs, off + 6 * Z.of_nat n) /\ Forall sub_ok subs.
Proof.
  intros Hp. revert off. induction n as [|n IH]; intros off Ho Hl; cbn [subs_loop].
  { exists []. rewrite Z.mul_0_r, Z.add_0_r. done. }
  rewrite (proj2 (Z.ltb_ge (len p) (off + 6))) by lia. cbn [check result_bind]. unfold u16, u32.
  destruct (word_ok p off 2 Hp) as (c & -> & Hc); [lia..|]. destruct (word_ok p (off + 2) 4 Hp) as (e & -> & He); [lia..|].
  destruct (IH (off + 6)) as (rest & -> & Hr); [lia..|]. cbn [result_bind]. replace (off + 6 + 6 * Z.of_nat n) with (off + 6 * Z.of_nat (S n)) by lia. eexists. split; [done|].
  by constructor.
Qed.

(** Both passes over a senc table return the same offset, or fail together;
    neither panics. *)
Lemma senc_loops n ivSize hasSubs p off : Forall is_byte p -> 0 <= ivSize -> 0 <= off ->
  sat (senc_loop n ivSize hasSubs p off) (fun r => length (fst r) = n /\ Forall entry_ok (fst r)) /\
  consumed_loop n ivSize hasSubs p off = (try! r := senc_loop n ivSize hasSubs p off in Ok (snd r)).
Proof.
  intros Hp Hi. revert off. induction n as [|n IH]; intros off Ho; cbn [senc_loop consumed_loop]; [done|].
  destruct (Z.ltb_spec (len p) (off + ivSize)) as [|Hl]; [done|]. cbn [check result_bind].
  destruct (slice_ok p off (off + ivSize)) as (iv & E & _ & El); [lia..|]. rewrite E. cbn [result_bind]. cbv zeta.
  assert (Forall is_byte iv) as Hiv by (by eapply slice_bytes).
  destruct hasSubs.
  2: { cbn [result_bind]. destruct (IH (off + ivSize)) as [IH1 ->]; [lia|]. cbn [result_bind].
       destruct (senc_loop n ivSize false p (off + ivSize)) as [[rest o]|[]]; cbn in *; [|done..]. split; [|done].
       destruct IH1 as [<- Hr]. split; [done|]. constructor; [by split|done]. }
  destruct (Z.ltb_spec (len p) (off + ivSize + 2)) as [|Hl2]; [done|]. cbn [check result_bind]. unfold u16.
  destruct (word_ok p (off + ivSize) 2 Hp) as (k & -> & Hk); [lia..|]. cbn [result_bind].
  destruct (Z.ltb_spec ((len p - (off + ivSize + 2)) / 6) k) as [|Hk']; [done|]. cbn [check result_bind].
  assert (6 * k <= len p - (off + ivSize + 2)) by (pose proof (Z.mul_div_le (len p - (off + ivSize + 2)) 6 ltac:(lia)); lia).
  destruct (subs_loop_ok (Z.to_nat k) p (off + ivSize + 2) Hp) as (subs & -> & Hs); [lia..|]. cbn [result_bind].
  rewrite Z2Nat.id by lia. replace (off + ivSize + 2 + k * 6) with (off + ivSize + 2 + 6 * k) by lia.
  destruct (IH (off + ivSize + 2 + 6 * k)) as [IH1 ->]; [lia|].
  destruct (senc_loop n ivSize true p _) as [[rest o]|[]]; cbn in *; [|done..]. split; [|done].
  destruct IH1 as [<- Hr]. split; [done|]. constructor; [by split|done].
Qed.

Lemma drmParseSenc_passes p count ivSize hasSubs : Forall is_byte p -> 0 <= ivSize ->
  sat (drmParseSencWithIVSize p count ivSize hasSubs) (fun r => Forall entry_ok (fst r)) /\
  drmParseSencConsumed p count ivSize hasSubs = (try! r := drmParseSencWithIVSize p count ivSize hasSubs in Ok (snd r)).
Proof.
  intros Hp Hi. unfold drmParseSencWithIVSize, drmParseSencConsumed. destruct (sencBound _ _ _ _); [done|]. cbn [check result_bind].
  destruct (senc_loops (Z.to_nat count) ivSize hasSubs p 0 Hp Hi) as [H ->]; [lia|]. split; [|done].
  eapply sat_mono; [exact H|]. by intros r [_ ?].
Qed.

Lemma fits_sat payload count hasSubs c : Forall is_byte payload -> 0 <= c ->
  sat (fits payload count hasSubs c) (fun ok => ok = true -> exists entries, drmParseSencWithIVSize payload count c hasSubs = Ok (entries, len payload)).
Proof.
  intros Hp Hc. unfold fits. destruct (drmParseSenc_passes payload count c hasSubs Hp Hc) as [H ->].
  destruct (drmParseSencWithIVSize payload count c hasSubs) as [[entries o]|[]]; cbn in *; [|done..].
  intros ->%Z.eqb_eq. by exists entries.
Qed.

(** The sizes found are candidates that fit. *)
Lemma matches_sat payload count hasSubs candidates : Forall is_byte payload -> Forall (fun c => 0 <= c) candidates ->
  sat (matches payload count hasSubs candidates)
    (Forall (fun c => c ∈ candidates /\ exists entries, drmParseSencWithIVSize payload count c hasSubs = Ok (entries, len payload))).
Proof.
  intros Hp. induction 1 as [|c cs Hc _ IH]; cbn [matches]; [constructor|].
  eapply sat_bind; [by apply fits_sat|]. intros ok Hok. eapply sat_bind; [exact IH|]. intros rest Hr. cbn beta in *. apply sat_ok.
  assert (Forall (fun c0 => c0 ∈ c :: cs /\ exists entries, drmParseSencWithIVSize payload count c0 hasSubs = Ok (entries, len payload)) rest) as Hr'.
  { eapply Forall_impl; [exact Hr|]. intros x [Hx ?]. split; [set_solver|done]. }
  destruct ok; [|done]. constructor; [|done]. split; [set_solver|by apply Hok].
Qed.

Lemma chooseIVSize_sat payload count hasSubs hint : Forall is_byte payload ->
  sat (chooseIVSize payload count hasSubs hint) (fun c => match c with
    | Some c => (c = 0 /\ hasSubs = true \/ c = 8 \/ c = 16) /\ exists entries, drmParseSencWithIVSize payload count c hasSubs = Ok (entries, len payload)
    | None => count <= 0
    end).
Proof.
  intros Hp. unfold chooseIVSize.
  eapply (sat_bind _ _ (fun hinted => hinted = true -> (hint = 0 /\ hasSubs = true \/ hint = 8 \/ hint = 16) /\
    exists entries, drmParseSencWithIVSize payload count hint hasSubs = Ok (entries, len payload))).
  - destruct (_ || _) eqn:E; [|done]. assert (hint = 0 /\ hasSubs = true \/ hint = 8 \/ hint = 16) as Hh by (rewrite !orb_true_iff, andb_true_iff, !Z.eqb_eq in E; tauto).
    eapply sat_mono; [apply fits_sat; [done|lia]|]. auto.
  - intros [] Hh; [by apply Hh|]. eapply sat_bind; [apply matches_sat; [done|destruct hasSubs; repeat constructor; lia]|].
    intros [|c [|c2 cs]] Hms; cbn beta in *; [done| |].
    + apply Forall_cons in Hms as [[Hc Hfit] _]. split; [|done]. destruct hasSubs; set_solver.
    + destruct (Z.ltb_spec 0 count); [done|]. cbn. lia.
Qed.

Lemma padIV_bytes fb iv : Forall is_byte fb -> Forall is_byte iv -> Forall is_byte (padIV fb iv).
Proof.
  intros Hf Hi. unfold padIV. destruct (_ =? 8); [|by destruct (_ && _)]. apply Forall_app. split; [done|]. by repeat constructor.
Qed.

Lemma drmParseSenc_sat p fb hint : Forall is_byte p -> Forall is_byte fb -> sat (drmParseSenc p fb hint) (Forall entry_ok).
Proof.
  intros Hp Hf. unfold drmParseSenc. do 3 sat_step. cbv zeta. sat_step. sat_step.
  assert (Forall is_byte a1) as Ha by (subst a1; by apply Forall_take, Forall_drop).
  eapply sat_bind; [by apply chooseIVSize_sat|]. intros [c|] Hc; cbn beta in *; [|constructor].
  destruct Hc as [Hc _]. eapply sat_bind; [apply (drmParseSenc_passes a1 a0 c); [done|lia]|].
  intros [entries o] He. apply sat_ok, Forall_fmap. eapply Forall_impl; [exact He|]. intros e [? ?]. split; [by apply padIV_bytes|done].
Qed.

(** * Properties *)

(** A readable value: within the widths of its fields. *)
Definition returned {A} (r : res A) (P : A -> Prop) : Prop := (exists a, r = Ok a /\ P a) \/ r = Err EErr.

Lemma sat_returned {A} (r : res A) P : sat r P -> returned r P.
Proof. destruct r as [a|[]]; cbn; [left; eauto|by right|done]. Qed.

(** C25: The box parser ends on any bytes, with a list of boxes or an error: no index
    or slice is out of range and no loop outlives its fuel, however boxes are nested,
    truncated or mis-sized.  Every box it returns lies in the buffer, its header in
    the box, and its payload is the rest of the box. *)
Theorem box_parser_terminates b : Forall is_byte b ->
  returned (drmParseBoxes b) (Forall (box_in b 0)) /\ returned (try! boxes := drmParseBoxes b in drmFindTenc boxes) tenc_ok.
Proof.
  intros Hb. split; apply sat_returned; [by apply drmParseBoxes_sat|].
  eapply sat_bind; [by apply drmParseBoxes_bytes|]. intros boxes. apply drmFindTenc_sat.
Qed.

(** C32: The readers of tenc, tfhd, trun and senc return an error or values of their
    types, on any payload: patterns of four-bit counts and an IV of 8 or 16 bytes,
    64- and 32-bit offsets and sizes, subsample counts of 16 and 32 bits.  The IV size
    a senc reader settles on is one of 0, 8 and 16 and reads its table to the last
    byte; none is settled on only for an empty table.  The pass that only counts
    agrees with the one that allocates, errors included. *)
Theorem header_readers_typed p fallbackIV hint : Forall is_byte p -> Forall is_byte fallbackIV ->
  returned (drmParseTenc p) tenc_ok /\
  returned (drmParseTfhd p) tfhd_ok /\
  returned (drmParseTrun p) (fun r => Forall sample_ok (fst r) /\ - 2 ^ 31 <= snd r < 2 ^ 31) /\
  returned (drmParseSenc p fallbackIV hint) (Forall entry_ok) /\
  forall count hasSubs,
    returned (chooseIVSize p count hasSubs hint) (fun c => match c with
      | Some c => (c = 0 /\ hasSubs = true \/ c = 8 \/ c = 16) /\ exists es, drmParseSencWithIVSize p count c hasSubs = Ok (es, len p)
      | None => count <= 0
      end) /\
    forall ivSize, 0 <= ivSize ->
      drmParseSencConsumed p count ivSize hasSubs = (try! r := drmParseSencWithIVSize p count ivSize hasSubs in Ok (snd r)).
Proof.
  intros Hp Hf. split; [by apply sat_returned, drmParseTenc_sat|]. split; [by apply sat_returned, drmParseTfhd_sat|].
  split; [by apply sat_returned, drmParseTrun_sat|]. split; [by apply sat_returned, drmParseSenc_sat|].
  intros count hasSubs. split; [by apply sat_returned, chooseIVSize_sat|]. intros ivSize Hi. by apply drmParseSenc_passes.
Qed.

(** A box that claims more than there is, and a truncated container. *)
Definition wit_boxes : bytes := [0; 0; 0; 20; 109; 111; 111; 102; 0; 0; 0; 0; 116; 114; 97; 102; 9; 9; 9; 9; 0; 0; 0; 99; 1; 2; 3; 4].

Lemma wit_boxes_bytes : Forall is_byte wit_boxes.
Proof. unfold is_byte. repeat constructor; discriminate. Qed.

Lemma box_parser_terminates_witness :
  drmParseBoxes wit_boxes = Err EErr /\ returned (drmParseBoxes wit_boxes) (Forall (box_in wit_boxes 0)).
Proof. split; [reflexivity|]. apply (box_parser_terminates wit_boxes wit_boxes_bytes). Defined.

(** A senc payload of one sample with an 8-byte IV. *)
Definition wit_senc : bytes := [0; 0; 0; 0; 0; 0; 0; 1; 1; 2; 3; 4; 5; 6; 7; 8].

Lemma wit_senc_bytes : Forall is_byte wit_senc.
Proof. unfold is_byte. repeat constructor; discriminate. Qed.

Lemma header_readers_typed_witness :
  drmParseSenc wit_senc [] (-1) = Ok [MkEntry [1; 2; 3; 4; 5; 6; 7; 8; 0; 0; 0; 0; 0; 0; 0; 0] []] /\
  returned (drmParseSenc wit_senc [] (-1)) (Forall entry_ok).
Proof.
  split; [reflexivity|]. apply (header_readers_typed wit_senc [] (-1) wit_senc_bytes). constructor.
Defined.
