(* ===== verification/Mp4Print.v ===== *)
(** Writers of fragmented MP4: what the readers of [Mp4] accept, and that they read
    back what was written.

    A packager's output is a [forest] of boxes; [print] writes one, [boxesOf] is the
    list of boxes the code's parser is to return.  Fragment headers and sample
    encryption tables have a writer each. *)

From S2P Require Import Prelude GoStrings Mp4.

#[local] Open Scope go_scope.

(** * Integers *)

(** [w] bytes, the most significant first. *)
Fixpoint beN (w : nat) (v : Z) : bytes :=
  match w with
  | O => []
  | S w => v / 256 ^ Z.of_nat w mod 256 :: beN w v
  end.

Lemma length_beN w v : length (beN w v) = w.
Proof. induction w; cbn [beN length]; congruence. Qed.

Lemma len_beN w v : len (beN w v) = Z.of_nat w.
Proof. unfold len. by rewrite length_beN. Qed.

Lemma beN_bytes w v : Forall is_byte (beN w v).
Proof. induction w; cbn [beN]; constructor; [|done]. unfold is_byte. apply Z.mod_pos_bound. lia. Qed.

Lemma pow_S w : 256 ^ Z.of_nat (S w) = 256 * 256 ^ Z.of_nat w.
Proof. rewrite Nat2Z.inj_succ, Z.pow_succ_r by lia. done. Qed.

Lemma be_acc s acc : foldl (fun a c => a * 256 + c) acc s = acc * 256 ^ len s + be s.
Proof.
  unfold be. revert acc. induction s as [|c s IH]; intros acc; [change (256 ^ len []) with 1; cbn; lia|].
  cbn [foldl]. rewrite IH, (IH (0 * 256 + c)). unfold len. cbn [length]. rewrite pow_S. ring.
Qed.

Lemma be_beN w v : be (beN w v) = v mod 256 ^ Z.of_nat w.
Proof.
  induction w as [|w IH]; [by rewrite Z.mod_1_r|].
  cbn [beN]. unfold be. cbn [foldl]. rewrite be_acc, IH, len_beN, pow_S.
  rewrite (Z.mul_comm 256), Z.rem_mul_r by (try apply Z.pow_nonzero; lia). lia.
Qed.

Lemma be_beN_id w v : 0 <= v < 256 ^ Z.of_nat w -> be (beN w v) = v.
Proof. intros Hv. rewrite be_beN. by apply Z.mod_small. Qed.

(** ** Reading behind a prefix *)

Lemma slice_mid pre s post a b : a = len pre -> b = len pre + len s -> slice (pre ++ s ++ post) a b = Ok s.
Proof.
  intros -> ->. destruct (slice_ok (pre ++ s ++ post) (len pre) (len pre + len s)) as (t & -> & -> & _).
  - pose proof (len_nonneg pre). pose proof (len_nonneg s). lia.
  - rewrite !len_app. pose proof (len_nonneg post). lia.
  - f_equal. replace (len pre + len s - len pre) with (len s) by lia. unfold len. rewrite !Nat2Z.id.
    by rewrite drop_app_length, take_app_length.
Qed.

Lemma word_mid (w : nat) pre v post a b : 0 <= v < 256 ^ Z.of_nat w -> a = len pre -> b = len pre + Z.of_nat w ->
  (try! s := slice (pre ++ beN w v ++ post) a b in Ok (be s)) = Ok v.
Proof. intros Hv -> ->. rewrite slice_mid by (rewrite ?len_beN; lia). cbn. by rewrite be_beN_id. Qed.

Lemma u16_mid pre v post a : 0 <= v < 2 ^ 16 -> a = len pre -> u16 (pre ++ beN 2 v ++ post) a = Ok v.
Proof. intros Hv ->. by apply (word_mid 2). Qed.

Lemma u32_mid pre v post a : 0 <= v < 2 ^ 32 -> a = len pre -> u32 (pre ++ beN 4 v ++ post) a = Ok v.
Proof. intros Hv ->. by apply (word_mid 4). Qed.

Lemma u64_mid pre v post a : 0 <= v < 2 ^ 64 -> a = len pre -> u64 (pre ++ beN 8 v ++ post) a = Ok v.
Proof. intros Hv ->. by apply (word_mid 8). Qed.

(** * Boxes *)

(** A forest: a leaf with its payload, or a container with its children.  A box has
    a 32-bit size or ([large]) a 64-bit one; a uuid leaf has a usertype.  The end of
    the buffer may hold fewer bytes than a box header has. *)
Inductive forest :=
  | FEnd (junk : bytes)
  | FLeaf (large : bool) (ty usertype payload : bytes) (rest : forest)
  | FNode (large : bool) (ty : bytes) (kids rest : forest).

Definition headerSize (large : bool) (usertype : bytes) : Z := (if large then 16 else 8) + len usertype.

Definition header (large : bool) (ty usertype : bytes) (n : Z) : bytes :=
  let size := headerSize large usertype + n in
  (if large then beN 4 1 ++ ty ++ beN 8 size else beN 4 size ++ ty) ++ usertype.

Fixpoint print (f : forest) : bytes :=
  match f with
  | FEnd junk => junk
  | FLeaf large ty ut payload rest => header large ty ut (len payload) ++ payload ++ print rest
  | FNode large ty kids rest => header large ty [] (len (print kids)) ++ print kids ++ print rest
  end.

(** The boxes of a forest printed at [so], a container before its children. *)
Fixpoint boxesOf (so : Z) (f : forest) : list drmBox :=
  match f with
  | FEnd _ => []
  | FLeaf large ty ut payload rest =>
      let hdr := headerSize large ut in
      MkBox ty so hdr (hdr + len payload) payload :: boxesOf (so + hdr + len payload) rest
  | FNode large ty kids rest =>
      let hdr := headerSize large [] in
      let n := len (print kids) in
      MkBox ty so hdr (hdr + n) (print kids) :: boxesOf (so + hdr) kids ++ boxesOf (so + hdr + n) rest
  end.

(** How deep the containers are nested. *)
Fixpoint nesting (f : forest) : nat :=
  match f with
  | FEnd _ => 0
  | FLeaf _ _ _ _ rest => nesting rest
  | FNode _ _ kids rest => S (nesting kids) `max` nesting rest
  end.

Definition size_ok (large : bool) (size : Z) : Prop := if large then size < 2 ^ 64 else size < 2 ^ 32.

Fixpoint wf (f : forest) : Prop :=
  match f with
  | FEnd junk => len junk < 8
  | FLeaf large ty ut payload rest =>
      len ty = 4 /\ ty ∉ drmContainerTypes /\ (if bool_decide (ty = bs "uuid") then len ut = 16 else ut = []) /\
      size_ok large (headerSize large ut + len payload) /\ wf rest
  | FNode large ty kids rest =>
      ty ∈ drmContainerTypes /\ size_ok large (headerSize large [] + len (print kids)) /\ wf kids /\ wf rest
  end.

Lemma container_type ty : ty ∈ drmContainerTypes -> len ty = 4 /\ ty <> bs "uuid".
Proof. intros H. repeat (apply elem_of_cons in H as [->|H]; [split; [reflexivity|discriminate]|]). by apply elem_of_nil in H. Qed.

Lemma len_header large ty ut n : len ty = 4 -> len (header large ty ut n) = headerSize large ut.
Proof. intros Ht. unfold header, headerSize. destruct large; rewrite !len_app, !len_beN, Ht; lia. Qed.

(** The size field and the type, and what comes behind them. *)
Lemma header_fields pre sz ty rest : 0 <= sz < 2 ^ 32 -> len ty = 4 ->
  u32 (pre ++ beN 4 sz ++ ty ++ rest) (len pre) = Ok sz /\
  slice (pre ++ beN 4 sz ++ ty ++ rest) (len pre + 4) (len pre + 8) = Ok ty.
Proof.
  intros Hs Ht. split; [by apply u32_mid|].
  rewrite (app_assoc pre). apply slice_mid; rewrite len_app, len_beN; lia.
Qed.

Lemma header_large pre ty size rest : len ty = 4 -> 0 <= size < 2 ^ 64 ->
  u64 (pre ++ beN 4 1 ++ ty ++ beN 8 size ++ rest) (len pre + 8) = Ok size.
Proof.
  intros Ht Hs. rewrite (app_assoc (beN 4 1)), (app_assoc pre). apply u64_mid; [done|].
  rewrite !len_app, len_beN. lia.
Qed.

Lemma header_long large ty ut n : len ty = 4 -> (8 <= length (header large ty ut n))%nat.
Proof.
  intros Ht. pose proof (len_header large ty ut n Ht) as H. pose proof (len_nonneg ut). unfold headerSize in H.
  unfold len in *. destruct large; lia.
Qed.

Lemma boxHeader_print pre large ty ut n post : len ty = 4 -> 0 <= n <= len post ->
  (if bool_decide (ty = bs "uuid") then len ut = 16 else ut = []) -> size_ok large (headerSize large ut + n) ->
  boxHeader (pre ++ header large ty ut n ++ post) (len pre) = Ok (ty, headerSize large ut + n, headerSize large ut).
Proof.
  intros Ht Hn Hut Hs. pose proof (len_nonneg pre) as Hp. pose proof (len_nonneg ut) as Hu.
  set (b := pre ++ header large ty ut n ++ post). set (size := headerSize large ut + n) in *.
  assert (len b = len pre + headerSize large ut + len post) as El.
  { unfold b. rewrite !len_app, len_header by done. lia. }
  assert (headerSize large ut = (if large then 16 else 8) + len ut) as Eh by done.
  assert (exists sz, (sz = if large then 1 else size) /\ u32 b (len pre) = Ok sz /\ slice b (len pre + 4) (len pre + 8) = Ok ty) as (sz & Esz & E1 & E2).
  { unfold b, header. fold size. destruct large; eexists; (split; [reflexivity|]); rewrite <- !app_assoc; apply header_fields; cbn in Hs; lia || done. }
  unfold boxHeader. rewrite E1, E2. cbn [result_bind]. subst sz.
  assert ((if bool_decide (ty = bs "uuid")
           then try! _ := check (len b <? len pre + (if large then 16 else 8) + 16) in Ok ((if large then 16 else 8) + 16)
           else Ok (if large then 16 else 8)) = (Ok (headerSize large ut) : res Z)) as E3.
  { rewrite Eh. destruct (bool_decide _); [|subst ut; f_equal; change (len []) with 0; lia].
    rewrite (proj2 (Z.ltb_ge (len b) (len pre + (if large then 16 else 8) + 16))) by lia. cbn [check result_bind]. f_equal. lia. }
  destruct large.
  - cbn [Z.eqb Pos.eqb]. rewrite (proj2 (Z.ltb_ge (len b) _)) by lia. cbn [check result_bind].
    assert (u64 b (len pre + 8) = Ok size) as ->.
    { unfold b, header. fold size. rewrite <- !app_assoc. apply header_large; [done|cbn in Hs; lia]. }
    cbn [result_bind]. rewrite (proj2 (Z.ltb_ge (len b - len pre) size)) by lia. cbn [check result_bind].
    rewrite E3. cbn [result_bind]. by rewrite (proj2 (Z.ltb_ge size _)) by lia.
  - rewrite (proj2 (Z.eqb_neq size 0)), (proj2 (Z.eqb_neq size 1)), (proj2 (Z.ltb_ge size 8)) by lia. cbn [check result_bind].
    rewrite (proj2 (Z.ltb_ge (len b) (len pre + size))) by lia. cbn [check result_bind].
    rewrite E3. cbn [result_bind]. by rewrite (proj2 (Z.ltb_ge size _)) by lia.
Qed.

(** One turn of the loop over printed boxes. *)
Lemma boxes_loop_print child fuel pre large ty ut payload post so : len ty = 4 ->
  (if bool_decide (ty = bs "uuid") then len ut = 16 else ut = []) -> size_ok large (headerSize large ut + len payload) ->
  let b := pre ++ header large ty ut (len payload) ++ payload ++ post in
  let hdr := headerSize large ut in
  boxes_loop child (S fuel) b so (len pre) =
    try! children := (if bool_decide (ty ∈ drmContainerTypes) then child payload (so + (len pre + hdr)) else Ok []) in
    try! rest := boxes_loop child fuel b so (len pre + (hdr + len payload)) in
    Ok (MkBox ty (so + len pre) hdr (hdr + len payload) payload :: children ++ rest).
Proof.
  intros Ht Hut Hs b hdr. pose proof (len_nonneg pre) as Hp. pose proof (len_nonneg ut) as Hu.
  pose proof (len_nonneg payload) as Hpl. pose proof (len_nonneg post) as Hpo.
  assert (len b = len pre + hdr + len payload + len post) as El.
  { unfold b. rewrite !len_app, len_header by done. unfold hdr. lia. }
  assert (8 <= hdr) as H8 by (unfold hdr, headerSize; destruct large; lia).
  cbn [boxes_loop]. rewrite (proj2 (Z.leb_gt (len b) (len pre))), (proj2 (Z.ltb_ge (len b - len pre) 8)) by lia.
  unfold b at 1. rewrite boxHeader_print; [|done|rewrite len_app; lia|done|done]. fold hdr. cbn [result_bind].
  rewrite Z.min_l by lia.
  assert (slice b (len pre + hdr) (len pre + (hdr + len payload)) = Ok payload) as ->.
  { unfold b. rewrite app_assoc. apply slice_mid; rewrite len_app, len_header by done; unfold hdr; lia. }
  cbn [result_bind]. rewrite (proj2 (Z.eqb_neq (hdr + len payload) 0)) by lia. done.
Qed.

Lemma boxes_loop_end child fuel b so pos : len b - pos < 8 -> boxes_loop child (S fuel) b so pos = Ok [].
Proof. intros H. cbn [boxes_loop]. destruct (len b <=? pos); [done|]. by rewrite (proj2 (Z.ltb_lt _ _)). Qed.

Lemma boxes_print f d pre so fuel : wf f -> (nesting f <= d)%nat -> (length (print f) < fuel)%nat ->
  boxes_loop (drmParseBoxesAt d) fuel (pre ++ print f) so (len pre) = Ok (boxesOf (so + len pre) f).
Proof.
  revert d pre so fuel. induction f as [junk|large ty ut payload rest IH|large ty kids IHk rest IH]; intros d pre so fuel Hwf Hd Hf;
    destruct fuel as [|fuel]; [lia| |lia| |lia|]; cbn [print boxesOf nesting wf] in *.
  - apply boxes_loop_end. rewrite len_app. lia.
  - destruct Hwf as (Ht & Hc & Hut & Hs & Hrest). rewrite boxes_loop_print by done. rewrite bool_decide_eq_false_2 by done.
    cbn [result_bind]. rewrite !app_assoc.
    replace (len pre + (headerSize large ut + len payload)) with (len ((pre ++ header large ty ut (len payload)) ++ payload))
      by (rewrite !len_app, len_header by done; lia).
    rewrite IH; [|done|done|].
    + cbn [result_bind app]. rewrite !len_app, len_header by done. by rewrite !Z.add_assoc.
    + rewrite !length_app in Hf. pose proof (header_long large ty ut (len payload) Ht). lia.
  - destruct Hwf as (Hc & Hs & Hkids & Hrest). destruct (container_type ty Hc) as [Ht Hu].
    rewrite boxes_loop_print; [|done|by rewrite bool_decide_eq_false_2|done]. rewrite bool_decide_eq_true_2 by done.
    destruct d as [|d]; [lia|].
    pose proof (header_long large ty [] (len (print kids)) Ht).
    rewrite !length_app in Hf.
    assert (drmParseBoxesAt (S d) (print kids) (so + (len pre + headerSize large [])) = Ok (boxesOf (so + (len pre + headerSize large [])) kids)) as ->.
    { rewrite <- (Z.add_0_r (so + (len pre + headerSize large []))) at 2.
      by apply (IHk d [] (so + (len pre + headerSize large [])) (S (length (print kids)))); [|lia|lia]. }
    cbn [result_bind].
    replace (len pre + (headerSize large [] + len (print kids))) with (len ((pre ++ header large ty [] (len (print kids))) ++ print kids))
      by (rewrite !len_app, len_header by done; lia).
    rewrite !app_assoc. rewrite IH; [|done|lia|lia]. cbn [result_bind]. rewrite !len_app, len_header by done.
    by rewrite !Z.add_assoc.
Qed.

Lemma drmParseBoxes_print f : wf f -> (nesting f <= maxBoxDepth)%nat -> drmParseBoxes (print f) = Ok (boxesOf 0 f).
Proof. intros Hwf Hn. unfold drmParseBoxes. cbn [drmParseBoxesAt]. by apply (boxes_print f maxBoxDepth [] 0); [| |lia]. Qed.

(** One container too many is refused. *)
Lemma boxes_deep f d pre so fuel : wf f -> (d < nesting f)%nat -> (length (print f) < fuel)%nat ->
  boxes_loop (drmParseBoxesAt d) fuel (pre ++ print f) so (len pre) = Err EErr.
Proof.
  revert d pre so fuel. induction f as [junk|large ty ut payload rest IH|large ty kids IHk rest IH]; intros d pre so fuel Hwf Hd Hf;
    destruct fuel as [|fuel]; [lia| |lia| |lia|]; cbn [print nesting wf] in *.
  - lia.
  - destruct Hwf as (Ht & Hc & Hut & Hs & Hrest). rewrite boxes_loop_print by done. rewrite bool_decide_eq_false_2 by done.
    cbn [result_bind]. rewrite !app_assoc.
    replace (len pre + (headerSize large ut + len payload)) with (len ((pre ++ header large ty ut (len payload)) ++ payload))
      by (rewrite !len_app, len_header by done; lia).
    rewrite IH; [done|done|done|].
    rewrite !length_app in Hf. pose proof (header_long large ty ut (len payload) Ht). lia.
  - destruct Hwf as (Hc & Hs & Hkids & Hrest). destruct (container_type ty Hc) as [Ht Hu].
    rewrite boxes_loop_print; [|done|by rewrite bool_decide_eq_false_2|done]. rewrite bool_decide_eq_true_2 by done.
    pose proof (header_long large ty [] (len (print kids)) Ht). rewrite !length_app in Hf.
    destruct d as [|d]; [done|]. destruct (Nat.lt_ge_cases d (nesting kids)) as [Hk|Hk].
    { pose proof (IHk d [] (so + (len pre + headerSize large [])) (S (length (print kids))) Hkids Hk ltac:(lia)) as E.
      change (len []) with 0 in E. cbn [app] in E. cbn [drmParseBoxesAt]. by rewrite E. }
    pose proof (boxes_print kids d [] (so + (len pre + headerSize large [])) (S (length (print kids))) Hkids Hk ltac:(lia)) as E.
    change (len []) with 0 in E. cbn [app] in E.
    assert (drmParseBoxesAt (S d) (print kids) (so + (len pre + headerSize large [])) = Ok (boxesOf (so + (len pre + headerSize large []) + 0) kids)) as -> by exact E.
    cbn [result_bind].
    replace (len pre + (headerSize large [] + len (print kids))) with (len ((pre ++ header large ty [] (len (print kids))) ++ print kids))
      by (rewrite !len_app, len_header by done; lia).
    rewrite !app_assoc. rewrite IH; [done|done|lia|lia].
Qed.

Lemma drmParseBoxes_deep f : wf f -> (maxBoxDepth < nesting f)%nat -> drmParseBoxes (print f) = Err EErr.
Proof. intros Hwf Hn. unfold drmParseBoxes. cbn [drmParseBoxesAt]. by apply (boxes_deep f maxBoxDepth [] 0); [| |lia]. Qed.

(** * Full box headers and optional fields *)

Lemma lor_shiftl a b n : 0 <= n -> 0 <= b < 2 ^ n -> Z.lor (Z.shiftl a n) b = a * 2 ^ n + b.
Proof.
  intros Hn Hb. assert (Z.land (Z.shiftl a n) b = 0) as E.
  { apply Z.bits_inj'. intros i Hi. rewrite Z.land_spec, Z.bits_0, Z.shiftl_spec by done. destruct (Z.lt_ge_cases i n).
    - by rewrite (Z.testbit_neg_r a) by lia.
    - rewrite <- (Z.mod_small b (2 ^ n)) by done. rewrite Z.mod_pow2_bits_high by lia. apply andb_false_r. }
  rewrite <- Z.lxor_lor, <- Z.add_nocarry_lxor by done. by rewrite Z.shiftl_mul_pow2.
Qed.

(** The version and the flags of a full box. *)
Definition fullHeader (version flags : Z) : bytes := version :: beN 3 flags.

Lemma flags24_print version flags rest : 0 <= flags < 2 ^ 24 -> flags24 (fullHeader version flags ++ rest) = Ok flags.
Proof.
  intros Hf. transitivity (Ok (E := derr) (be (beN 3 flags))); [|f_equal; by apply be_beN_id].
  unfold fullHeader. change (beN 3 flags) with [flags / 65536 mod 256; flags / 256 mod 256; flags / 1 mod 256].
  pose proof (Z.mod_pos_bound (flags / 1) 256 ltac:(lia)). pose proof (Z.mod_pos_bound (flags / 256) 256 ltac:(lia)).
  set (a := flags / 65536 mod 256). set (b := flags / 256 mod 256) in *. set (c := flags / 1 mod 256) in *.
  transitivity (Ok (E := derr) (Z.lor (Z.lor (Z.shiftl a 16) (Z.shiftl b 8)) c)); [reflexivity|]. f_equal.
  rewrite <- Z.lor_assoc, (lor_shiftl b c 8), lor_shiftl by lia. unfold be. cbn [foldl]. lia.
Qed.

(** A field that may be left out. *)
Definition opt (w : nat) (v : option Z) : bytes := match v with Some v => beN w v | None => [] end.
Definition opt_ok (w : nat) (v : option Z) : Prop := match v with Some v => 0 <= v < 256 ^ Z.of_nat w | None => True end.
Definition isSome (v : option Z) : bool := bool_decide (is_Some v).

(** [bit] when [b]. *)
Definition onBit (b : bool) (bit : Z) : Z := if b then bit else 0.

(** [q] is what is left of [p] at [off]. *)
Definition reads (p : bytes) (off : Z) (q : bytes) : Prop := exists pre, p = pre ++ q /\ off = len pre.

Lemma reads_start q : reads q 0 q.
Proof. by exists []. Qed.

Lemma reads_app p off s q off' : reads p off (s ++ q) -> off' = off + len s -> reads p off' q.
Proof. intros (pre & -> & ->) ->. exists (pre ++ s). by rewrite len_app, app_assoc. Qed.

Lemma reads_room p off q : reads p off q -> len p = off + len q.
Proof. intros (pre & -> & ->). apply len_app. Qed.

Lemma reads_slice p off s q b : reads p off (s ++ q) -> b = off + len s -> slice p off b = Ok s.
Proof. intros (pre & -> & ->) ->. by apply slice_mid. Qed.

Lemma reads_word (w : nat) p off v q b : reads p off (beN w v ++ q) -> 0 <= v < 256 ^ Z.of_nat w -> b = off + Z.of_nat w ->
  (try! s := slice p off b in Ok (be s)) = Ok v.
Proof. intros (pre & -> & ->) Hv ->. by apply word_mid. Qed.

Lemma reads_field (w : nat) p off v q wz : reads p off (opt w v ++ q) -> opt_ok w v -> wz = Z.of_nat w ->
  field (isSome v) wz p off = Ok (v, off + len (opt w v)) /\ reads p (off + len (opt w v)) q.
Proof.
  intros Hp Hv ->. split; [|by eapply reads_app]. unfold field. destruct v as [v|]; cbn [opt opt_ok] in *.
  - change (isSome (Some v)) with true. cbv iota. pose proof (reads_room _ _ _ Hp) as El. rewrite len_app, len_beN in El.
    rewrite (proj2 (Z.ltb_ge (len p) _)) by (pose proof (len_nonneg q); lia). cbn [check result_bind].
    rewrite (reads_slice p off (beN w v) q) by (rewrite ?len_beN; done). cbn [result_bind]. by rewrite be_beN_id, len_beN.
  - cbn. by rewrite Z.add_0_r.
Qed.

(** Runs the next [field] of the goal against what is left of the buffer. *)
Ltac read_field H :=
  lazymatch goal with
  | |- result_bind (field _ ?wz _ _) _ = _ => apply (reads_field _ _ _ _ _ wz) in H as [-> H]; [|done|done]
  end; cbn [result_bind].

(** * Track fragment header *)

Record tfhdBox := MkTfhdBox {
  w_version : Z;
  w_track : Z;
  w_base : option Z;
  w_description : option Z;
  w_duration : option Z;
  w_size : option Z;
  w_sampleFlags : option Z;
  w_empty : bool;
  w_baseIsMoof : bool
}.

Definition tfhdFlags (t : tfhdBox) : Z :=
  onBit (isSome (w_base t)) 0x1 + onBit (isSome (w_description t)) 0x2 + onBit (isSome (w_duration t)) 0x8 +
  onBit (isSome (w_size t)) 0x10 + onBit (isSome (w_sampleFlags t)) 0x20 + onBit (w_empty t) 0x10000 + onBit (w_baseIsMoof t) 0x20000.

Definition printTfhd (t : tfhdBox) : bytes :=
  fullHeader (w_version t) (tfhdFlags t) ++ beN 4 (w_track t) ++ opt 8 (w_base t) ++ opt 4 (w_description t) ++
  opt 4 (w_duration t) ++ opt 4 (w_size t) ++ opt 4 (w_sampleFlags t).

Definition tfhdBox_ok (t : tfhdBox) : Prop :=
  opt_ok 8 (w_base t) /\ opt_ok 4 (w_description t) /\ opt_ok 4 (w_duration t) /\ opt_ok 4 (w_size t) /\ opt_ok 4 (w_sampleFlags t).

Lemma tfhdFlags_spec t : 0 <= tfhdFlags t < 2 ^ 24 /\
  flag (tfhdFlags t) 0x1 = isSome (w_base t) /\ flag (tfhdFlags t) 0x2 = isSome (w_description t) /\
  flag (tfhdFlags t) 0x8 = isSome (w_duration t) /\ flag (tfhdFlags t) 0x10 = isSome (w_size t) /\
  flag (tfhdFlags t) 0x20 = isSome (w_sampleFlags t) /\ flag (tfhdFlags t) 0x20000 = w_baseIsMoof t.
Proof.
  unfold tfhdFlags. destruct (isSome (w_base t)), (isSome (w_description t)), (isSome (w_duration t)), (isSome (w_size t)),
    (isSome (w_sampleFlags t)), (w_empty t), (w_baseIsMoof t); vm_compute; repeat split; discriminate || reflexivity.
Qed.

Lemma drmParseTfhd_print t : tfhdBox_ok t ->
  drmParseTfhd (printTfhd t) =
    Ok (MkTfhd (w_base t) (w_baseIsMoof t) (w_duration t) (w_size t) (isSome (w_sampleFlags t))).
Proof.
  intros (Hb & Hd & Hu & Hs & Hf). destruct (tfhdFlags_spec t) as (Hr & F1 & F2 & F8 & F10 & F20 & Fm).
  pose proof (reads_start (printTfhd t)) as H. unfold printTfhd in H at 2.
  set (p := printTfhd t) in *. rewrite <- (app_nil_r (opt 4 (w_sampleFlags t))), app_assoc in H.
  apply (reads_app _ _ _ _ 8) in H; [|rewrite len_app, len_beN; unfold len, fullHeader; cbn [length]; by rewrite length_beN].
  assert (len p <? 8 = false) as E8 by (apply Z.ltb_ge; pose proof (reads_room _ _ _ H); pose proof (len_nonneg (opt 8 (w_base t) ++ opt 4 (w_description t) ++ opt 4 (w_duration t) ++ opt 4 (w_size t) ++ opt 4 (w_sampleFlags t) ++ [])); lia).
  unfold drmParseTfhd. rewrite E8. cbn [check result_bind].
  unfold p at 1, printTfhd. rewrite flags24_print by done. cbn [result_bind]. rewrite F1, F2, F8, F10, F20, Fm.
  do 5 read_field H. done.
Qed.

(** * Track run *)

Record trunBox := MkTrunBox {
  r_version : Z;
  r_dataOffset : option Z;
  r_firstFlags : option Z;
  r_hasDuration : bool;
  r_hasSize : bool;
  r_hasFlags : bool;
  r_hasCTS : bool;
  r_samples : list drmTrunSample
}.

Definition when (b : bool) (v : Z) : option Z := if b then Some v else None.

Lemma isSome_when b v : isSome (when b v) = b.
Proof. by destruct b. Qed.

Definition trunFlags (t : trunBox) : Z :=
  onBit (isSome (r_dataOffset t)) 0x1 + onBit (isSome (r_firstFlags t)) 0x4 + onBit (r_hasDuration t) 0x100 +
  onBit (r_hasSize t) 0x200 + onBit (r_hasFlags t) 0x400 + onBit (r_hasCTS t) 0x800.

Definition printSample (t : trunBox) (s : drmTrunSample) : bytes :=
  opt 4 (when (r_hasDuration t) (ts_Duration s)) ++ opt 4 (when (r_hasSize t) (ts_Size s)) ++
  opt 4 (when (r_hasFlags t) (ts_Flags s)) ++ opt 4 (when (r_hasCTS t) (wrapU 32 (ts_CTSOffset s))).

Definition printSamples (t : trunBox) (ss : list drmTrunSample) : bytes := concat (printSample t <$> ss).

Definition printTrun (t : trunBox) : bytes :=
  fullHeader (r_version t) (trunFlags t) ++ beN 4 (Z.of_nat (length (r_samples t))) ++ opt 4 (wrapU 32 <$> r_dataOffset t) ++
  opt 4 (r_firstFlags t) ++ printSamples t (r_samples t).

(** A field is in range, and zero where it is left out. *)
Definition whenOk (b : bool) (v : Z) : Prop := if b then 0 <= v < 2 ^ 32 else v = 0.

Definition trunSample_ok (t : trunBox) (s : drmTrunSample) : Prop :=
  whenOk (r_hasDuration t) (ts_Duration s) /\ whenOk (r_hasSize t) (ts_Size s) /\ whenOk (r_hasFlags t) (ts_Flags s) /\
  (if r_hasCTS t then - 2 ^ 31 <= ts_CTSOffset s < 2 ^ 31 else ts_CTSOffset s = 0).

Definition trunBox_ok (t : trunBox) : Prop :=
  opt_ok 4 (r_firstFlags t) /\ match r_dataOffset t with Some o => - 2 ^ 31 <= o < 2 ^ 31 | None => True end /\
  Forall (trunSample_ok t) (r_samples t) /\ Z.of_nat (length (r_samples t)) < 2 ^ 32 /\
  (r_hasDuration t || r_hasSize t || r_hasFlags t || r_hasCTS t = true \/ (length (r_samples t) <= 8)%nat).

Lemma trunFlags_spec t : 0 <= trunFlags t < 2 ^ 24 /\
  flag (trunFlags t) 0x1 = isSome (r_dataOffset t) /\ flag (trunFlags t) 0x4 = isSome (r_firstFlags t) /\
  flag (trunFlags t) 0x100 = r_hasDuration t /\ flag (trunFlags t) 0x200 = r_hasSize t /\
  flag (trunFlags t) 0x400 = r_hasFlags t /\ flag (trunFlags t) 0x800 = r_hasCTS t.
Proof.
  unfold trunFlags. destruct (isSome (r_dataOffset t)), (isSome (r_firstFlags t)), (r_hasDuration t), (r_hasSize t),
    (r_hasFlags t), (r_hasCTS t); vm_compute; repeat split; discriminate || reflexivity.
Qed.

Lemma int32_wrapU z : - 2 ^ 31 <= z < 2 ^ 31 -> int32 (wrapU 32 z) = z.
Proof.
  intros Hz. unfold int32, wrapS, wrapU. rewrite Zplus_mod_idemp_l. rewrite Z.mod_small; lia.
Qed.

Lemma wrapU_ok z : opt_ok 4 (Some (wrapU 32 z)).
Proof. apply Z.mod_pos_bound. lia. Qed.

Lemma when_ok b v : whenOk b v -> opt_ok 4 (when b v) /\ orZero (when b v) = v.
Proof. destruct b; cbn; [done|]. by intros ->. Qed.

Lemma trun_loop_print t n p off q : Forall (trunSample_ok t) n -> reads p off (printSamples t n ++ q) ->
  trun_loop (length n) (trunFlags t) p off = Ok n.
Proof.
  destruct (trunFlags_spec t) as (_ & _ & _ & F1 & F2 & F4 & F8).
  intros Hn. revert off. induction Hn as [|s n Hs _ IH]; intros off H; [done|].
  cbn [length trun_loop]. rewrite F1, F2, F4, F8. destruct Hs as (Hd & Hsz & Hf & Hc).
  apply when_ok in Hd as [Hd Ed]. apply when_ok in Hsz as [Hsz Esz]. apply when_ok in Hf as [Hf Ef].
  unfold printSamples in H. cbn [fmap list_fmap concat] in H. unfold printSample in H at 1. rewrite <- !app_assoc in H.
  rewrite <- (isSome_when (r_hasDuration t) (ts_Duration s)). read_field H.
  rewrite <- (isSome_when (r_hasSize t) (ts_Size s)). read_field H.
  rewrite <- (isSome_when (r_hasFlags t) (ts_Flags s)). read_field H.
  rewrite <- (isSome_when (r_hasCTS t) (wrapU 32 (ts_CTSOffset s))).
  assert (opt_ok 4 (when (r_hasCTS t) (wrapU 32 (ts_CTSOffset s)))) as Hc' by (destruct (r_hasCTS t); [apply wrapU_ok|done]).
  read_field H. rewrite IH by exact H. cbn [result_bind]. rewrite Ed, Esz, Ef.
  assert (int32 (orZero (when (r_hasCTS t) (wrapU 32 (ts_CTSOffset s)))) = ts_CTSOffset s) as ->.
  { destruct (r_hasCTS t); cbn [when orZero]; [by apply int32_wrapU|by rewrite Hc]. }
  by destruct s.
Qed.

Lemma len_printSamples t ss : len (printSamples t ss) =
  Z.of_nat (length ss) * (onBit (r_hasDuration t) 4 + onBit (r_hasSize t) 4 + onBit (r_hasFlags t) 4 + onBit (r_hasCTS t) 4).
Proof.
  unfold printSamples. induction ss as [|s ss IH]; [done|]. cbn [fmap list_fmap concat length]. rewrite len_app, IH. unfold printSample.
  rewrite !len_app. destruct (r_hasDuration t), (r_hasSize t), (r_hasFlags t), (r_hasCTS t); cbn [when opt onBit]; rewrite ?len_beN; change (len []) with 0; lia.
Qed.

Lemma len_fullHeader v f : len (fullHeader v f) = 4.
Proof. unfold fullHeader, len. cbn [length]. by rewrite length_beN. Qed.

(** The head of a box with a count: the flags, the count, and the rest from 8. *)
Lemma counted_head v f n q : 0 <= f < 2 ^ 24 -> 0 <= n < 2 ^ 32 ->
  let p := fullHeader v f ++ beN 4 n ++ q in
  (len p <? 8) = false /\ flags24 p = Ok f /\ u32 p 4 = Ok n /\ reads p 8 q.
Proof.
  intros Hf Hn p. assert (reads p 8 q) as H.
  { exists (fullHeader v f ++ beN 4 n). unfold p. by rewrite <- app_assoc, len_app, len_fullHeader, len_beN. }
  split; [apply Z.ltb_ge; pose proof (reads_room _ _ _ H); pose proof (len_nonneg q); lia|]. split; [by apply flags24_print|].
  split; [|done]. apply u32_mid; [done|by rewrite len_fullHeader].
Qed.

Lemma drmParseTrun_print t : trunBox_ok t ->
  drmParseTrun (printTrun t) = Ok (r_samples t, orZero (r_dataOffset t)).
Proof.
  intros (Hff & Ho & Hs & Hn & Hper). destruct (trunFlags_spec t) as (Hr & F1 & F4 & F100 & F200 & F400 & F800).
  destruct (counted_head (r_version t) (trunFlags t) (Z.of_nat (length (r_samples t)))
    (opt 4 (wrapU 32 <$> r_dataOffset t) ++ opt 4 (r_firstFlags t) ++ printSamples t (r_samples t))) as (E8 & Ef & Ec & H); [done|lia|].
  fold (printTrun t) in *. set (p := printTrun t) in *. unfold drmParseTrun. rewrite E8, Ef. cbn [check result_bind]. rewrite Ec. cbn [result_bind].
  assert (opt_ok 4 (wrapU 32 <$> r_dataOffset t)) as Ho' by (destruct (r_dataOffset t); [apply wrapU_ok|done]).
  assert (isSome (r_dataOffset t) = isSome (wrapU 32 <$> r_dataOffset t)) as Es by by destruct (r_dataOffset t).
  rewrite F1, F4, Es. read_field H. read_field H. rewrite F100, F200, F400, F800.
  pose proof (reads_room _ _ _ H) as El. rewrite len_printSamples in El.
  set (off := 8 + _ + _) in *. set (count := Z.of_nat (length (r_samples t))) in *.
  set (per := onBit (r_hasDuration t) 4 + onBit (r_hasSize t) 4 + onBit (r_hasFlags t) 4 + onBit (r_hasCTS t) 4) in *.
  assert ((if r_hasDuration t then 4 else 0) + (if r_hasSize t then 4 else 0) + (if r_hasFlags t then 4 else 0) + (if r_hasCTS t then 4 else 0) = per) as -> by done.
  cbv zeta.
  assert ((if 0 <? per then uint32 ((len p - off) / per) <? count else uint32 (len p) <? count) = false) as ->.
  { assert (0 <= off <= 16) as Hoff.
    { unfold off. destruct (r_dataOffset t), (r_firstFlags t); cbn [fmap option_fmap option_map opt]; rewrite ?len_beN; change (len []) with 0; lia. }
    destruct (Z.ltb_spec 0 per) as [Hp|Hp]; apply Z.ltb_ge.
    - rewrite El. replace (off + count * per - off) with (count * per) by lia. rewrite Z.div_mul by lia.
      unfold uint32, wrapU. rewrite Z.mod_small; lia.
    - assert (per = 0) as E0 by (unfold per in *; destruct (r_hasDuration t), (r_hasSize t), (r_hasFlags t), (r_hasCTS t); cbn [onBit] in *; lia).
      destruct Hper as [Hper|Hper]; [|rewrite El, E0; unfold uint32, wrapU, count; apply Z.ltb_ge in E8; rewrite Z.mod_small; lia].
      exfalso. unfold per in E0. destruct (r_hasDuration t), (r_hasSize t), (r_hasFlags t), (r_hasCTS t); cbn in E0, Hper; lia || done. }
  cbn [check result_bind]. unfold count. rewrite Nat2Z.id. rewrite (trun_loop_print t _ p off []); [|done|by rewrite app_nil_r].
  cbn [result_bind]. do 2 f_equal. destruct (r_dataOffset t); cbn [fmap option_fmap option_map orZero]; [by apply int32_wrapU|done].
Qed.

(** * Sample encryption *)

Definition printSub (s : drmSubsample) : bytes := beN 2 (s_Clear s) ++ beN 4 (s_Encrypted s).

Definition printEntry (hasSubs : bool) (e : drmSencEntry) : bytes :=
  e_IV e ++ (if hasSubs then beN 2 (Z.of_nat (length (e_Subsamples e))) ++ concat (printSub <$> e_Subsamples e) else []).

Definition printEntries (hasSubs : bool) (es : list drmSencEntry) : bytes := concat (printEntry hasSubs <$> es).

Definition printSenc (version : Z) (hasSubs : bool) (es : list drmSencEntry) : bytes :=
  fullHeader version (onBit hasSubs 2) ++ beN 4 (Z.of_nat (length es)) ++ printEntries hasSubs es.

(** An entry of a table with [ivSize] bytes for an IV. *)
Definition printable (ivSize : Z) (hasSubs : bool) (e : drmSencEntry) : Prop :=
  len (e_IV e) = ivSize /\ Forall sub_ok (e_Subsamples e) /\ Z.of_nat (length (e_Subsamples e)) < 2 ^ 16 /\
  (hasSubs = false -> e_Subsamples e = []).

Lemma subs_loop_print subs p off q : Forall sub_ok subs -> reads p off (concat (printSub <$> subs) ++ q) ->
  subs_loop (length subs) p off = Ok (subs, off + 6 * Z.of_nat (length subs)).
Proof.
  intros Hs. revert off. induction Hs as [|s subs [Hc He] _ IH]; intros off H; [cbn; do 2 f_equal; lia|].
  cbn [fmap list_fmap concat] in H. unfold printSub in H at 1. rewrite <- !app_assoc in H. cbn [length subs_loop].
  pose proof (reads_room _ _ _ H) as El. rewrite !len_app, !len_beN in El.
  rewrite (proj2 (Z.ltb_ge (len p) _)) by (pose proof (len_nonneg (concat (printSub <$> subs))); pose proof (len_nonneg q); lia).
  cbn [check result_bind]. unfold u16, u32. rewrite (reads_word 2 _ _ _ _ _ H) by done. cbn [result_bind].
  apply (reads_app _ _ _ _ (off + 2)) in H; [|by rewrite len_beN].
  rewrite (reads_word 4 _ _ _ _ _ H) by done. cbn [result_bind].
  apply (reads_app _ _ _ _ (off + 6)) in H; [|rewrite len_beN; lia].
  rewrite IH by done. cbn [result_bind]. destruct s. do 2 f_equal. lia.
Qed.

Lemma len_printSubs subs : len (concat (printSub <$> subs)) = 6 * Z.of_nat (length subs).
Proof.
  induction subs as [|s subs IH]; [done|]. cbn [fmap list_fmap concat length]. unfold printSub at 1. rewrite !len_app, !len_beN, IH. lia.
Qed.

Lemma senc_loop_print ivSize hasSubs es p off q : Forall (printable ivSize hasSubs) es -> reads p off (printEntries hasSubs es ++ q) ->
  senc_loop (length es) ivSize hasSubs p off = Ok (es, off + len (printEntries hasSubs es)).
Proof.
  intros Hes. revert off. induction Hes as [|e es (Hiv & Hs & Hn & Hno) _ IH]; intros off H.
  { change (len (printEntries hasSubs [])) with 0. by rewrite Z.add_0_r. }
  unfold printEntries in *. cbn [fmap list_fmap concat] in *. set (rest := concat (printEntry hasSubs <$> es)) in *.
  rewrite <- app_assoc in H. unfold printEntry in H at 1. rewrite <- app_assoc in H. cbn [length senc_loop].
  pose proof (reads_room _ _ _ H) as El. rewrite len_app, Hiv in El.
  match type of El with _ = off + (ivSize + len ?r) => pose proof (len_nonneg r) end.
  rewrite (proj2 (Z.ltb_ge (len p) _)) by lia. cbn [check result_bind]. rewrite (reads_slice _ _ _ _ _ H) by lia. cbn [result_bind]. cbv zeta.
  apply (reads_app _ _ _ _ (off + ivSize)) in H; [|lia].
  rewrite len_app. unfold printEntry at 1. rewrite len_app, Hiv. destruct hasSubs.
  - rewrite <- app_assoc in H. pose proof (reads_room _ _ _ H) as El2. rewrite !len_app, len_beN, len_printSubs in El2.
    pose proof (len_nonneg rest). pose proof (len_nonneg q).
    rewrite (proj2 (Z.ltb_ge (len p) _)) by lia. cbn [check result_bind]. unfold u16. rewrite (reads_word 2 _ _ _ _ _ H) by (done || lia). cbn [result_bind].
    apply (reads_app _ _ _ _ (off + ivSize + 2)) in H; [|by rewrite len_beN].
    rewrite (proj2 (Z.ltb_ge _ _)) by (apply Z.div_le_lower_bound; lia). cbn [check result_bind].
    rewrite Nat2Z.id, (subs_loop_print _ _ _ _ Hs H). cbn [result_bind].
    rewrite IH by (eapply reads_app; [exact H|by rewrite len_printSubs]). cbn [result_bind].
    rewrite len_app, len_beN, len_printSubs. destruct e. do 2 f_equal. lia.
  - cbn [app] in H. cbn [result_bind]. rewrite IH by exact H. cbn [result_bind]. change (len []) with 0.
    destruct e; cbn in *. rewrite (Hno eq_refl). do 2 f_equal. lia.
Qed.

Lemma len_printEntries ivSize hasSubs es : 0 <= ivSize -> Forall (printable ivSize hasSubs) es ->
  Z.of_nat (length es) * (ivSize + (if hasSubs then 2 else 0)) <= len (printEntries hasSubs es) /\
  (hasSubs = false -> len (printEntries hasSubs es) = Z.of_nat (length es) * ivSize).
Proof.
  intros Hi. induction 1 as [|e es (Hiv & _ & _ & _) _ [IH1 IH2]]; [by change (len (printEntries hasSubs [])) with 0; cbn; lia|].
  unfold printEntries in *. cbn [fmap list_fmap concat length]. rewrite len_app. unfold printEntry at 1 3. rewrite len_app, Hiv.
  destruct hasSubs; [rewrite len_app, len_beN, len_printSubs; split; [lia|done]|]. change (len []) with 0.
  split; [lia|]. intros _. rewrite IH2 by done. lia.
Qed.

Lemma drmParseSencWithIVSize_print ivSize hasSubs es : 0 <= ivSize -> Forall (printable ivSize hasSubs) es ->
  let payload := printEntries hasSubs es in
  drmParseSencWithIVSize payload (Z.of_nat (length es)) ivSize hasSubs = Ok (es, len payload).
Proof.
  intros Hi Hes payload. destruct (len_printEntries ivSize hasSubs es Hi Hes) as [Hl _]. unfold drmParseSencWithIVSize, sencBound. cbv zeta.
  fold payload in Hl. set (per := ivSize + _) in *. destruct (Z.ltb_spec 0 per) as [Hp|Hp]; cbn [andb].
  - rewrite (proj2 (Z.ltb_ge _ _)) by (apply Z.div_le_lower_bound; lia). cbn [check result_bind]. rewrite Nat2Z.id.
    pose proof (senc_loop_print ivSize hasSubs es payload 0 [] Hes) as E. rewrite app_nil_r in E. rewrite E by apply reads_start. done.
  - cbn [check result_bind]. rewrite Nat2Z.id.
    pose proof (senc_loop_print ivSize hasSubs es payload 0 [] Hes) as E. rewrite app_nil_r in E. rewrite E by apply reads_start. done.
Qed.

(** No candidate but [ivSize] consumes the table exactly. *)
Definition unambiguous (payload : bytes) (count : Z) (hasSubs : bool) (ivSize : Z) : Prop :=
  Forall (fun c => c = ivSize \/ fits payload count hasSubs c = Ok false) (if hasSubs then [0; 8; 16] else [8; 16]).

(** A table without subsamples is never ambiguous. *)
Lemma no_subs_unambiguous ivSize es : 0 < ivSize -> es <> [] -> Forall (printable ivSize false) es ->
  Forall is_byte (printEntries false es) -> unambiguous (printEntries false es) (Z.of_nat (length es)) false ivSize.
Proof.
  intros Hi Hne Hes Hb. destruct (len_printEntries ivSize false es ltac:(lia) Hes) as [_ El]. specialize (El eq_refl).
  set (payload := printEntries false es) in *. assert (0 < Z.of_nat (length es)) as Hn by (destruct es; [done|cbn; lia]).
  assert (forall c, 0 < c -> c = ivSize \/ fits payload (Z.of_nat (length es)) false c = Ok false) as H; [|constructor; [by apply H|]; constructor; [by apply H|constructor]].
  intros c Hc. destruct (Z.eq_dec c ivSize) as [|Hne']; [by left|right].
  pose proof (fits_sat payload (Z.of_nat (length es)) false c Hb ltac:(lia)) as Hs. destruct (fits _ _ _ _) as [[]|[]] eqn:E; [|done| |done].
  - destruct (Hs eq_refl) as [entries Ee]. exfalso. clear Hs. unfold drmParseSencWithIVSize in Ee. destruct (sencBound _ _ _ _); [done|]. cbn [check result_bind] in Ee.
    rewrite Nat2Z.id in Ee.
    assert (forall n off es' o, senc_loop n c false payload off = Ok (es', o) -> o = off + Z.of_nat n * c) as Hloop.
    { induction n as [|n IH]; intros off es' o; cbn [senc_loop]; [intros [= <- <-]; lia|].
      destruct (check _) as [[]|]; [|done]. cbn [result_bind]. destruct (slice _ _ _); [|done]. cbn [result_bind].
      destruct (senc_loop n c false payload (off + c)) as [[rest o']|] eqn:En; [|done]. cbn. intros [= <- <-]. apply IH in En. lia. }
    apply Hloop in Ee. nia.
  - unfold fits in E. destruct (drmParseSencConsumed _ _ _ _) as [|[]]; done.
Qed.

Lemma chooseIVSize_print ivSize hasSubs es hint : ivSize = 0 /\ hasSubs = true \/ ivSize = 8 \/ ivSize = 16 ->
  Forall (printable ivSize hasSubs) es -> Forall is_byte (printEntries hasSubs es) ->
  let payload := printEntries hasSubs es in
  hint = ivSize \/ unambiguous payload (Z.of_nat (length es)) hasSubs ivSize ->
  chooseIVSize payload (Z.of_nat (length es)) hasSubs hint = Ok (Some ivSize).
Proof.
  intros Hiv Hes Hb payload Hu.
  assert (fits payload (Z.of_nat (length es)) hasSubs ivSize = Ok true) as Hfit.
  { unfold fits. destruct (drmParseSenc_passes payload (Z.of_nat (length es)) ivSize hasSubs Hb) as [_ ->]; [lia|].
    unfold payload at 1. rewrite drmParseSencWithIVSize_print by (done || lia). cbn. by rewrite Z.eqb_refl. }
  unfold chooseIVSize. destruct (decide (hint = ivSize)) as [->|Hne].
  { assert ((ivSize =? 0) && hasSubs || (ivSize =? 8) || (ivSize =? 16) = true) as -> by (destruct Hiv as [[-> ->]|[->| ->]]; [done..|]; by destruct hasSubs).
    by rewrite Hfit. }
  destruct Hu as [|Hu]; [done|]. unfold unambiguous in Hu. rewrite Forall_forall in Hu.
  assert ((if (hint =? 0) && hasSubs || (hint =? 8) || (hint =? 16) then fits payload (Z.of_nat (length es)) hasSubs hint else Ok false) = Ok false) as ->.
  { destruct (_ || _) eqn:E; [|done]. rewrite !orb_true_iff, andb_true_iff, !Z.eqb_eq in E.
    destruct (Hu hint) as [|]; [|done..]. destruct hasSubs; rewrite !elem_of_cons; naive_solver. }
  cbn [result_bind].
  assert (forall cs, Forall (fun c => c = ivSize \/ fits payload (Z.of_nat (length es)) hasSubs c = Ok false) cs ->
    matches payload (Z.of_nat (length es)) hasSubs cs = Ok (filter (fun c => c = ivSize) cs)) as Hm.
  { induction 1 as [|c cs Hc _ IH]; [done|]. cbn [matches]. rewrite filter_cons. rewrite IH.
    destruct (decide (c = ivSize)) as [->|Hc']; [by rewrite Hfit|]. destruct Hc as [?| ->]; done. }
  rewrite Hm by (by rewrite Forall_forall). cbn [result_bind].
  destruct hasSubs; destruct Hiv as [[-> ?]|[->| ->]]; reflexivity || discriminate.
Qed.

Lemma drmParseSenc_print version ivSize hasSubs es fb hint : ivSize = 0 /\ hasSubs = true \/ ivSize = 8 \/ ivSize = 16 ->
  Forall (printable ivSize hasSubs) es -> Forall is_byte (printEntries hasSubs es) -> Z.of_nat (length es) < 2 ^ 32 -> len (printEntries hasSubs es) < 2 ^ 32 ->
  hint = ivSize \/ unambiguous (printEntries hasSubs es) (Z.of_nat (length es)) hasSubs ivSize ->
  drmParseSenc (printSenc version hasSubs es) fb hint = Ok ((fun e => MkEntry (padIV fb (e_IV e)) (e_Subsamples e)) <$> es).
Proof.
  intros Hiv Hes Hb Hn Hl Hu. unfold printSenc.
  destruct (counted_head version (onBit hasSubs 2) (Z.of_nat (length es)) (printEntries hasSubs es)) as (E8 & Ef & Ec & H); [by destruct hasSubs|lia|].
  set (p := fullHeader _ _ ++ _) in *. unfold drmParseSenc. rewrite E8, Ef. cbn [check result_bind]. rewrite Ec. cbn [result_bind]. cbv zeta.
  pose proof (reads_room _ _ _ H) as El. destruct (len_printEntries ivSize hasSubs es ltac:(lia) Hes) as [Hle _].
  assert (uint32 (len p - 8) <? Z.of_nat (length es) = false) as ->.
  { apply Z.ltb_ge. unfold uint32, wrapU. replace (len p - 8) with (len (printEntries hasSubs es)) by lia.
    rewrite Z.mod_small by (pose proof (len_nonneg (printEntries hasSubs es)); lia).
    assert (1 <= ivSize + (if hasSubs then 2 else 0)) by (destruct hasSubs; lia). nia. }
  cbn [check result_bind]. rewrite <- (app_nil_r (printEntries hasSubs es)) in H. rewrite (reads_slice _ _ _ _ _ H) by lia. cbn [result_bind].
  assert (flag (onBit hasSubs 2) 2 = hasSubs) as -> by by destruct hasSubs.
  rewrite (chooseIVSize_print ivSize) by done. cbn [result_bind]. rewrite drmParseSencWithIVSize_print by (done || lia). done.
Qed.

(** * Properties *)


(** A moof with a long size around a traf, a uuid box and three stray bytes. *)
Definition wit_forest : forest :=
  FNode true (bs "moof") (FNode false (bs "traf") (FLeaf false (bs "tfhd") [] [1; 2] (FEnd [])) (FEnd []))
    (FLeaf false (bs "uuid") (replicate 16 7) [9] (FEnd [1; 2; 3])).

Lemma wit_forest_wf : wf wit_forest.
Proof. unfold wit_forest. cbn [wf]. unfold size_ok. split_and!; by_decide || reflexivity. Qed.

