(* ===== verification/Cenc.v ===== *)
(** Sample decryption (internal/streamproxy/drm.go): AES-CTR with subsamples (cenc),
    AES-CBC with a block pattern (cbcs), and whole segments in AES-CBC.

    crypto/aes is a parameter: a block cipher with its laws ([AES], [AESLaws]).  The
    modes of crypto/cipher the code uses are written out: CTR with its 128-bit
    counter, and the chain of CBC decryption.

    A decryptor changes its buffer in place and can fail half way: it returns its
    result and the buffer as it leaves it. *)

From S2P Require Import Prelude GoStrings Mp4 Mp4Print.

#[local] Open Scope go_scope.

(** * The block cipher *)

Definition is_block (s : bytes) : Prop := length s = 16%nat /\ Forall is_byte s.

Class AES := {
  Block : Type;
  NewCipher : bytes -> option Block;
  Encrypt : Block -> bytes -> bytes;
  Decrypt : Block -> bytes -> bytes
}.

(** Keys have 16, 24 or 32 bytes; a block is a permutation of the blocks of 16 bytes
    with its inverse. *)
Class AESLaws `{AES} := {
  NewCipher_ok key : is_Some (NewCipher key) <-> length key ∈ [16; 24; 32]%nat;
  Encrypt_block b s : is_block s -> is_block (Encrypt b s);
  Decrypt_block b s : is_block s -> is_block (Decrypt b s);
  Decrypt_Encrypt b s : is_block s -> Decrypt b (Encrypt b s) = s
}.

(** A cipher for the concrete runs: the key added to the block. *)
#[local] Instance toyAES : AES := {
  Block := bytes;
  NewCipher key := if bool_decide (length key ∈ [16; 24; 32]%nat) then Some key else None;
  Encrypt key s := zip_with (fun a k => (a + k) mod 256) s (key ++ replicate 16 0);
  Decrypt key s := zip_with (fun a k => (a - k) mod 256) s (key ++ replicate 16 0)
}.

Lemma toy_block f (s k : bytes) : is_block s -> (16 <= length k)%nat -> (forall a b, is_byte (f a b)) -> is_block (zip_with f s k).
Proof.
  intros [Hl Hs] Hk Hf. split; [rewrite length_zip_with; lia|]. clear Hl Hk. revert k.
  induction Hs as [|a s _ _ IH]; intros [|c k]; cbn; constructor; [apply Hf|apply IH].
Qed.

#[local] Instance toyLaws : AESLaws.
Proof.
  assert (forall a b, is_byte ((a + b) mod 256)) as Hadd by (intros; apply Z.mod_pos_bound; lia).
  assert (forall a b, is_byte ((a - b) mod 256)) as Hsub by (intros; apply Z.mod_pos_bound; lia).
  split.
  - intros key. cbn. case_bool_decide as E; split; [done|by eexists|by intros []|done].
  - intros k s Hs. apply toy_block; [done|rewrite length_app, length_replicate; lia|done].
  - intros k s Hs. apply toy_block; [done|rewrite length_app, length_replicate; lia|done].
  - intros k s [Hl Hs]. unfold Decrypt, Encrypt, toyAES. assert (length s <= length (k ++ replicate 16 0%Z))%nat as Hk by (rewrite length_app, length_replicate; lia).
    revert Hk. generalize (k ++ replicate 16 0%Z). clear Hl k. induction Hs as [|a s Ha _ IH]; intros [|c ks] Hk; cbn [zip_with length] in *; [done..|lia|].
    rewrite IH by lia. f_equal. unfold is_byte in Ha. rewrite Zminus_mod_idemp_l. replace (a + c - c) with a by lia. by apply Z.mod_small.
Qed.

(** * The cache of blocks *)

Section Cache.
Context `{AES}.

Abbreviation blockCache := (gmap bytes Block).

Definition aesBlockMaxEntries : nat := 256.

(** The second critical section: another goroutine may have stored the key; a full
    cache is cleared. *)
Definition storeBlock (c : blockCache) (key : bytes) (b : Block) : blockCache * Block :=
  match c !! key with
  | Some existing => (c, existing)
  | None => (<[key := b]> (if (aesBlockMaxEntries <=? size c)%nat then ∅ else c), b)
  end.

(** A call finds the cache in [c1] under the lock, and when it has to derive the
    block, in [c2] when it takes the lock again.  It returns the cache it leaves. *)
Definition cachedAESBlock (c1 c2 : blockCache) (key : bytes) : blockCache * res Block :=
  match c1 !! key with
  | Some b => (c1, Ok b)
  | None =>
      match NewCipher key with
      | None => (c2, Err EErr)
      | Some b => let '(c, b) := storeBlock c2 key b in (c, Ok b)
      end
  end.

(** Every entry is its key's block, and there are at most [aesBlockMaxEntries]. *)
Definition cache_ok (c : blockCache) : Prop :=
  (forall key b, c !! key = Some b -> NewCipher key = Some b) /\ (size c <= aesBlockMaxEntries)%nat.

(** What a caller gets without the cache. *)
Definition newBlock (key : bytes) : res Block :=
  match NewCipher key with Some b => Ok b | None => Err EErr end.

Lemma storeBlock_ok c key b : cache_ok c -> NewCipher key = Some b ->
  cache_ok (fst (storeBlock c key b)) /\ snd (storeBlock c key b) = b.
Proof.
  intros [Hc Hn] Hb. unfold storeBlock. destruct (c !! key) as [e|] eqn:E; cbn [fst snd].
  { split; [done|]. apply Hc in E. congruence. }
  split; [|done]. split.
  - intros k b' Hk. destruct (decide (k = key)) as [->|Hne]; [rewrite lookup_insert_eq in Hk; congruence|].
    rewrite lookup_insert_ne in Hk by done. destruct (_ <=? _)%nat; [by rewrite lookup_empty in Hk|by apply Hc].
  - destruct (Nat.leb_spec aesBlockMaxEntries (size c)).
    + rewrite map_size_insert_None by apply lookup_empty. rewrite map_size_empty. unfold aesBlockMaxEntries. lia.
    + rewrite map_size_insert_None by done. lia.
Qed.

Lemma cachedAESBlock_ok c1 c2 key : cache_ok c1 -> cache_ok c2 ->
  cache_ok (fst (cachedAESBlock c1 c2 key)) /\ snd (cachedAESBlock c1 c2 key) = newBlock key.
Proof.
  intros H1 H2. unfold cachedAESBlock, newBlock. destruct (c1 !! key) as [b|] eqn:E.
  { split; [done|]. apply H1 in E. by rewrite E. }
  destruct (NewCipher key) as [b|] eqn:Eb; [|done]. destruct (storeBlock_ok c2 key b H2 Eb) as [Hc Hb].
  destruct (storeBlock c2 key b) as [c b']. cbn in *. by subst b'.
Qed.

End Cache.

(** * Counter mode *)

(** copy(dst, src). *)
Definition copyInto (dst src : bytes) : bytes := take (length dst) src ++ drop (length src) dst.

(** The big-endian counter in the [n] bytes that end at [i], plus one. *)
Fixpoint inc_loop (n i : nat) (cb : bytes) : bytes :=
  match n with
  | O => cb
  | S n =>
      let c := uint8 (cb !!! i + 1) in
      let cb := <[i := c]> cb in
      if c =? 0 then inc_loop n (i - 1) cb else cb
  end.

(** The code's counter: the low 8 bytes. *)
Definition incCounter (cb : bytes) : bytes := inc_loop 8 15 cb.

(** cipher.NewCTR's: all 16. *)
Definition incBlock (cb : bytes) : bytes := inc_loop 16 15 cb.

Definition ctrInit (iv : bytes) : bytes :=
  let ctr := replicate 16 0 in
  if 16 <=? len iv then copyInto ctr (take 16 iv)
  else if len iv =? 8 then copyInto (take 8 ctr) iv ++ drop 8 ctr
  else if 0 <? len iv then copyInto ctr iv
  else ctr.

Section CTR.
Context `{AES}.

(** Byte [s] of the keystream of a counter block [cb] stepped by [inc]. *)
Definition ksByte (inc : bytes -> bytes) (b : Block) (cb : bytes) (s : nat) : Z :=
  Encrypt b (Nat.iter (s / 16) inc cb) !!! (s mod 16)%nat.

(** [data] against the keystream from [s] on. *)
Definition xorFrom (ks : nat -> Z) (s : nat) (data : bytes) : bytes := imap (fun i d => Z.lxor d (ks (s + i)%nat)) data.

(** cipher.NewCTR(block, cb).XORKeyStream(data, data). *)
Definition XORKeyStream (b : Block) (cb data : bytes) : bytes := xorFrom (ksByte incBlock b cb) 0 data.

Record ctrState := MkCtr {
  k_off : Z;      (* dataOff *)
  k_pos : Z;      (* ksPos *)
  k_ctr : bytes;  (* ctrBlock *)
  k_ks : bytes;   (* ksBlock *)
  k_data : bytes
}.

(** data[off+i] ^= ks[pos+i] for i < n. *)
Definition xorSpan (data : bytes) (off n : Z) (ks : bytes) (pos : Z) : bytes :=
  let o := Z.to_nat off in
  let k := Z.to_nat n in
  take o data ++ zip_with Z.lxor (take k (drop o data)) (take k (drop (Z.to_nat pos) ks)) ++ drop (o + k) data.

Fixpoint enc_loop (b : Block) (fuel : nat) (enc : Z) (st : ctrState) : ctrState :=
  match fuel with
  | O => st
  | S fuel =>
      if enc <=? 0 then st
      else if len (k_data st) <=? k_off st then st
      else
        let avail := 16 - k_pos st in
        let take := if avail <? enc then avail else enc in
        let take := if len (k_data st) <? k_off st + take then len (k_data st) - k_off st else take in
        let data := xorSpan (k_data st) (k_off st) take (k_ks st) (k_pos st) in
        let ksPos := k_pos st + take in
        let st :=
          if ksPos =? 16 then
            let ctr := incCounter (k_ctr st) in MkCtr (k_off st + take) 0 ctr (Encrypt b ctr) data
          else MkCtr (k_off st + take) ksPos (k_ctr st) (k_ks st) data in
        enc_loop b fuel (enc - take) st
  end.

(** A turn takes at least a byte of the rest of the data. *)
Definition ctrSub (b : Block) (st : ctrState) (sub : drmSubsample) : ctrState :=
  let off := if 0 <? s_Clear sub then Z.min (k_off st + s_Clear sub) (len (k_data st)) else k_off st in
  enc_loop b (S (length (k_data st))) (s_Encrypted sub) (MkCtr off (k_pos st) (k_ctr st) (k_ks st) (k_data st)).

Definition drmDecryptCTRSubsamples (key iv data : bytes) (subs : list drmSubsample) : res unit * bytes :=
  if negb (len key =? 16) then (Err EErr, data)
  else
    let ctr := ctrInit iv in
    match newBlock key with
    | Err e => (Err e, data)
    | Ok b =>
        match subs with
        | [] => (Ok tt, XORKeyStream b ctr data)
        | _ => (Ok tt, k_data (foldl (ctrSub b) (MkCtr 0 0 ctr (Encrypt b ctr) data) subs))
        end
    end.

(** ** Reference: the encrypted bytes of the sample against one keystream *)

(** For every byte of a sample, whether it is encrypted; bytes behind the last
    subsample are not. *)
Definition subsMask (subs : list drmSubsample) : list bool :=
  concat ((fun s => replicate (Z.to_nat (s_Clear s)) false ++ replicate (Z.to_nat (s_Encrypted s)) true) <$> subs).

(** The bytes under the mask against the keystream, the others as they are; only
    the former use keystream. *)
Fixpoint maskXor (ks : nat -> Z) (mask : list bool) (data : bytes) (s : nat) : bytes :=
  match mask, data with
  | true :: mask, d :: data => Z.lxor d (ks s) :: maskXor ks mask data (S s)
  | false :: mask, d :: data => d :: maskXor ks mask data s
  | _, _ => data
  end.

Definition ctrReference (b : Block) (iv data : bytes) (subs : list drmSubsample) : bytes :=
  match subs with
  | [] => XORKeyStream b (ctrInit iv) data
  | _ => maskXor (ksByte incCounter b (ctrInit iv)) (subsMask subs) data 0
  end.

End CTR.

(** ** Lemmas *)

Lemma inc_loop_block n i cb : is_block cb -> is_block (inc_loop n i cb).
Proof.
  revert i cb. induction n as [|n IH]; intros i cb [Hl Hb]; cbn [inc_loop]; [done|].
  assert (is_block (<[i := uint8 (cb !!! i + 1)]> cb)) as Hb'.
  { split; [by rewrite length_insert|]. apply Forall_insert; [done|]. apply uint8_range. }
  destruct (_ =? 0); [by apply IH|done].
Qed.

Lemma iter_block (inc : bytes -> bytes) n cb : (forall cb, is_block cb -> is_block (inc cb)) -> is_block cb -> is_block (Nat.iter n inc cb).
Proof. intros Hi Hb. induction n; cbn; auto. Qed.

Lemma length_copyInto dst src : length (copyInto dst src) = length dst.
Proof. unfold copyInto. rewrite length_app, length_take, length_drop. lia. Qed.

Lemma copyInto_bytes dst src : Forall is_byte dst -> Forall is_byte src -> Forall is_byte (copyInto dst src).
Proof. intros Hd Hs. apply Forall_app. split; [by apply Forall_take|by apply Forall_drop]. Qed.

Lemma zeros_bytes n : Forall is_byte (replicate n 0).
Proof. apply Forall_replicate. unfold is_byte. lia. Qed.

Lemma ctrInit_block iv : Forall is_byte iv -> is_block (ctrInit iv).
Proof.
  intros Hi. unfold ctrInit. pose proof (zeros_bytes 16) as Hz. cbv zeta.
  destruct (16 <=? len iv); [split; [by rewrite length_copyInto|by apply copyInto_bytes, Forall_take]|].
  destruct (len iv =? 8).
  - split; [rewrite length_app, length_copyInto; reflexivity|]. apply Forall_app.
    split; [apply copyInto_bytes; [by apply Forall_take|done]|by apply Forall_drop].
  - destruct (0 <? len iv); [split; [by rewrite length_copyInto|by apply copyInto_bytes]|by split].
Qed.

(** An 8-byte IV leaves the low half zero. *)
Lemma ctrInit_low iv : len iv = 8 -> be (drop 8 (ctrInit iv)) = 0.
Proof.
  intros Hl. unfold ctrInit. rewrite Hl. cbn [Z.leb Z.compare Pos.compare Pos.compare_cont Z.eqb Pos.eqb]. cbv zeta.
  rewrite drop_app_ge by (rewrite length_copyInto; done). rewrite length_copyInto. reflexivity.
Qed.

Lemma length_xorFrom ks s data : length (xorFrom ks s data) = length data.
Proof. apply length_imap. Qed.

Lemma xorFrom_app ks s a c : xorFrom ks s (a ++ c) = xorFrom ks s a ++ xorFrom ks (s + length a) c.
Proof. unfold xorFrom. rewrite imap_app. f_equal. apply imap_ext. intros i x _. cbn. do 2 f_equal. lia. Qed.

Lemma xorFrom_cons ks s d data : xorFrom ks s (d :: data) = Z.lxor d (ks s) :: xorFrom ks (S s) data.
Proof. change (d :: data) with ([d] ++ data). rewrite xorFrom_app. cbn. by rewrite Nat.add_0_r, Nat.add_1_r. Qed.

Lemma maskXor_clear ks n mask data s : maskXor ks (replicate n false ++ mask) data s = take n data ++ maskXor ks mask (drop n data) s.
Proof. revert data. induction n as [|n IH]; intros [|d data]; cbn; [done..|by destruct mask as [|[]]|by rewrite IH]. Qed.

Lemma maskXor_nil ks mask s : maskXor ks mask [] s = [].
Proof. by destruct mask as [|[]]. Qed.

Lemma maskXor_encrypted ks n mask data s :
  maskXor ks (replicate n true ++ mask) data s =
    xorFrom ks s (take n data) ++ maskXor ks mask (drop n data) (s + n `min` length data).
Proof.
  revert data s. induction n as [|n IH]; intros [|d data] s; cbn [replicate app take drop maskXor Nat.min length].
  1,2: cbn; by rewrite Nat.add_0_r.
  - by rewrite maskXor_nil.
  - rewrite xorFrom_cons, IH. cbn. by rewrite Nat.add_succ_r.
Qed.

(** ** The counters as integers *)

Lemma beN_snoc n v : beN (S n) v = beN n (v / 256) ++ [v mod 256].
Proof.
  induction n as [|n IH]; [cbn [beN app]; by rewrite Z.div_1_r|].
  change (beN (S (S n)) v) with (v / 256 ^ Z.of_nat (S n) mod 256 :: beN (S n) v). rewrite IH. cbn [beN app]. f_equal.
  rewrite pow_S, Z.div_div by lia. done.
Qed.

Lemma inc_loop_beN n pre post v : (0 < n)%nat ->
  inc_loop n (length pre + n - 1) (pre ++ beN n v ++ post) = pre ++ beN n (v + 1) ++ post.
Proof.
  revert post v. induction n as [|n IH]; intros post v Hn; [lia|].
  rewrite !beN_snoc, <- !app_assoc. cbn [inc_loop]. replace (length pre + S n - 1)%nat with (length (pre ++ beN n (v / 256))) by (rewrite length_app, length_beN; lia).
  rewrite (app_assoc pre). cbn [app].
  assert (((pre ++ beN n (v / 256)) ++ v mod 256 :: post) !!! length (pre ++ beN n (v / 256)) = v mod 256) as ->.
  { apply list_lookup_total_correct. by apply list_lookup_middle. }
  rewrite (insert_app_r_alt _ _ (length _)) by lia. rewrite Nat.sub_diag. cbn [insert list_insert].
  assert (uint8 (v mod 256 + 1) = (v + 1) mod 256) as -> by (unfold uint8, wrapU; apply Zplus_mod_idemp_l).
  destruct (Z.eqb_spec ((v + 1) mod 256) 0) as [E0|E0].
  - assert ((v + 1) / 256 = v / 256 + 1) as -> by (Z.to_euclidean_division_equations; lia). rewrite E0.
    destruct n as [|n]; [by rewrite <- app_assoc|]. rewrite length_app, length_beN, <- !app_assoc. apply IH. lia.
  - assert ((v + 1) / 256 = v / 256) as -> by (Z.to_euclidean_division_equations; lia). by rewrite <- app_assoc.
Qed.

Lemma iter_one {A} (f : A -> A) x : Nat.iter 1 f x = f x.
Proof. reflexivity. Qed.

Lemma iter_inc n pre v i : (0 < n)%nat ->
  Nat.iter i (fun cb => inc_loop n (length pre + n - 1) cb) (pre ++ beN n v) = pre ++ beN n (v + Z.of_nat i).
Proof.
  intros Hn. induction i as [|i IH]; [by rewrite Z.add_0_r|]. rewrite Nat.iter_succ, IH.
  pose proof (inc_loop_beN n pre [] (v + Z.of_nat i) Hn) as E. rewrite !app_nil_r in E. rewrite E. do 2 f_equal. lia.
Qed.

(** Both counters: the code's wraps in its low 8 bytes, the library's in all 16. *)
Lemma iter_incCounter hi lo i : length hi = 8%nat -> Nat.iter i incCounter (hi ++ beN 8 lo) = hi ++ beN 8 (lo + Z.of_nat i).
Proof. intros Hh. rewrite <- (iter_inc 8) by lia. by rewrite Hh. Qed.

Lemma iter_incBlock v i : Nat.iter i incBlock (beN 16 v) = beN 16 (v + Z.of_nat i).
Proof. apply (iter_inc 16 []). lia. Qed.

Lemma incBlock_beN v : incBlock (beN 16 v) = beN 16 (v + 1).
Proof. replace (v + 1) with (v + Z.of_nat 1) by lia. rewrite <- iter_incBlock. by rewrite iter_one. Qed.

Lemma beN_mod n k v : beN n (k * 256 ^ Z.of_nat n + v) = beN n v.
Proof.
  revert k. induction n as [|n IH]; intros k; [done|]. cbn [beN]. rewrite pow_S, Z.mul_assoc. rewrite IH. f_equal.
  rewrite Z.div_add_l by (apply Z.pow_nonzero; lia). rewrite Z.add_comm. apply Z.mod_add. lia.
Qed.

Lemma beN_wrap n v : beN n (v mod 256 ^ Z.of_nat n) = beN n v.
Proof.
  rewrite <- (beN_mod n (v / 256 ^ Z.of_nat n)). f_equal. rewrite Z.mul_comm. symmetry. apply Z.div_mod, Z.pow_nonzero; lia.
Qed.

Lemma beN_app n m v : beN (n + m) v = beN n (v / 256 ^ Z.of_nat m) ++ beN m v.
Proof.
  induction n as [|n IH]; [done|]. cbn [Nat.add beN app]. rewrite IH. f_equal. f_equal.
  rewrite Z.div_div by (try apply Z.pow_pos_nonneg; try apply Z.pow_nonzero; lia). f_equal. rewrite <- Z.pow_add_r by lia. f_equal. lia.
Qed.

Lemma beN_pair n m h l : 0 <= l < 256 ^ Z.of_nat m -> beN (n + m) (h * 256 ^ Z.of_nat m + l) = beN n h ++ beN m l.
Proof. intros Hl. rewrite beN_app, beN_mod. by rewrite Z.div_add_l, Z.div_small, Z.add_0_r by lia. Qed.

Lemma beN_carry n m h : beN (n + m) (h * 256 ^ Z.of_nat m + (256 ^ Z.of_nat m - 1) + 1) = beN n (h + 1) ++ beN m 0.
Proof.
  rewrite <- beN_pair by (split; [lia|apply Z.pow_pos_nonneg; lia]). f_equal. lia.
Qed.

Lemma beN_be s : Forall is_byte s -> beN (length s) (be s) = s.
Proof.
  induction 1 as [|c s Hc Hs IH]; [done|]. cbn [length beN]. unfold be. cbn [foldl]. rewrite be_acc.
  pose proof (be_bound s Hs) as Hb. unfold len in *. unfold is_byte in Hc. f_equal.
  - rewrite Z.mul_0_l, Z.add_0_l, Z.div_add_l by (apply Z.pow_nonzero; lia). rewrite (Z.div_small (be s)) by done.
    rewrite Z.add_0_r. by apply Z.mod_small.
  - by rewrite beN_mod.
Qed.

Lemma be_app s t : be (s ++ t) = be s * 256 ^ len t + be t.
Proof. unfold be at 1. rewrite foldl_app. fold (be s). apply be_acc. Qed.

(** As long as the low half does not wrap, the counters agree. *)
Lemma counters_agree cb i : is_block cb -> be (drop 8 cb) + Z.of_nat i < 2 ^ 64 -> Nat.iter i incBlock cb = Nat.iter i incCounter cb.
Proof.
  intros [Hl Hb] Hi. set (hi := take 8 cb). set (lo := drop 8 cb) in *.
  assert (length hi = 8%nat) as Hhi by (unfold hi; rewrite length_take; lia).
  assert (length lo = 8%nat) as Hlo by (unfold lo; rewrite length_drop; lia).
  assert (Forall is_byte hi) as Bhi by by apply Forall_take. assert (Forall is_byte lo) as Blo by by apply Forall_drop.
  pose proof (be_bound lo Blo) as Hlb. unfold len in Hlb. rewrite Hlo in Hlb.
  assert (cb = hi ++ beN 8 (be lo)) as E1 by (rewrite <- Hlo, beN_be by done; symmetry; apply take_drop).
  assert (cb = beN 16 (be hi * 256 ^ 8 + be lo)) as E2.
  { rewrite <- (beN_be cb) at 1 by done. rewrite Hl. f_equal. rewrite <- (take_drop 8 cb) at 1. fold hi lo. rewrite be_app.
    unfold len. by rewrite Hlo. }
  rewrite E2 at 1. rewrite iter_incBlock. rewrite E1 at 1. rewrite iter_incCounter by done.
  rewrite (beN_app 8 8). change (Z.of_nat 8) with 8. rewrite <- Z.add_assoc. f_equal.
  - rewrite Z.div_add_l, Z.div_small, Z.add_0_r by (change (256 ^ 8) with (2 ^ 64) in *; lia). by rewrite <- Hhi, beN_be.
  - apply (beN_mod 8).
Qed.

Section CTR_Proofs.
Context `{AESLaws}.

(** The loop has used [s] bytes of keystream; the data behind [pre] is untouched. *)
Definition ctr_at (b : Block) (cb : bytes) (s : nat) (pre rest : bytes) (st : ctrState) : Prop :=
  k_data st = pre ++ rest /\ k_off st = len pre /\ k_pos st = Z.of_nat (s mod 16) /\
  k_ctr st = Nat.iter (s / 16) incCounter cb /\ k_ks st = Encrypt b (k_ctr st).

Lemma xorSpan_ks b cb s pre rest k : is_block cb -> (s mod 16 + k <= 16)%nat -> (k <= length rest)%nat ->
  xorSpan (pre ++ rest) (len pre) (Z.of_nat k) (Encrypt b (Nat.iter (s / 16) incCounter cb)) (Z.of_nat (s mod 16)) =
    (pre ++ xorFrom (ksByte incCounter b cb) s (take k rest)) ++ drop k rest.
Proof.
  intros Hcb Hk Hr. unfold xorSpan, len. rewrite !Nat2Z.id. rewrite take_app_length, drop_app_length.
  rewrite <- app_assoc. f_equal. rewrite drop_app_ge by lia. f_equal; [|f_equal; lia].
  set (ks := Encrypt b (Nat.iter (s / 16) incCounter cb)).
  assert (length ks = 16%nat) as El by (apply Encrypt_block, iter_block; [apply inc_loop_block|done]).
  apply list_eq. intros i. unfold xorFrom. rewrite lookup_zip_with, list_lookup_imap.
  destruct (Nat.lt_ge_cases i k) as [Hi|Hi].
  2: { rewrite !(lookup_take_ge rest) by done. done. }
  rewrite !lookup_take_lt by done. destruct (rest !! i) as [d|] eqn:Ed; [|done]. cbn [fmap option_fmap option_map mbind option_bind].
  rewrite lookup_drop. destruct (lookup_lt_is_Some_2 ks (s mod 16 + i)) as [c Ec]; [lia|]. rewrite Ec. cbn. f_equal. f_equal.
  unfold ksByte. assert ((s + i) / 16 = s / 16 /\ (s + i) mod 16 = s mod 16 + i)%nat as [-> ->].
  { pose proof (Nat.div_mod_eq s 16). split; symmetry; [apply Nat.div_unique with (s mod 16 + i)%nat|apply Nat.mod_unique with (s / 16)%nat]; lia. }
  fold ks. symmetry. by apply list_lookup_total_correct.
Qed.

Lemma enc_loop_spec b cb fuel enc st s pre rest : is_block cb -> ctr_at b cb s pre rest st -> (length rest < fuel)%nat ->
  let e := (Z.to_nat enc `min` length rest)%nat in
  ctr_at b cb (s + e) (pre ++ xorFrom (ksByte incCounter b cb) s (take e rest)) (drop e rest) (enc_loop b fuel enc st).
Proof.
  intros Hcb. revert enc st s pre rest. induction fuel as [|fuel IH]; intros enc st s pre rest Hat Hf e; [lia|].
  pose proof Hat as (Ed & Eo & Ep & Ec & Ek). cbn [enc_loop].
  destruct (Z.leb_spec enc 0) as [Henc|Henc].
  { assert (e = 0%nat) as -> by lia. cbn [take drop]. by rewrite Nat.add_0_r, app_nil_r. }
  assert (len (k_data st) - k_off st = Z.of_nat (length rest)) as El by (rewrite Ed, Eo, len_app; unfold len; lia).
  destruct (Z.leb_spec (len (k_data st)) (k_off st)) as [Hend|Hend].
  { assert (e = 0%nat) as -> by lia. cbn [take drop]. by rewrite Nat.add_0_r, app_nil_r. }
  cbv zeta. set (t := if len (k_data st) <? _ then _ else _).
  pose proof (Nat.mod_upper_bound s 16 ltac:(lia)) as Hm.
  assert (t = Z.of_nat (Z.to_nat enc `min` (16 - s mod 16) `min` length rest)%nat) as Et.
  { unfold t. rewrite Ep. destruct (Z.ltb_spec (16 - Z.of_nat (s mod 16)) enc);
      match goal with |- (if ?c then _ else _) = _ => destruct c eqn:Et end; bool_to_prop; lia. }
  set (k := (Z.to_nat enc `min` (16 - s mod 16) `min` length rest)%nat) in *.
  assert (1 <= k)%nat as Hk by lia.
  rewrite Ed, Eo, Ep, Ek, Ec, Et, xorSpan_ks by (done || lia).
  set (pre' := pre ++ xorFrom (ksByte incCounter b cb) s (take k rest)).
  match goal with |- ctr_at _ _ _ _ _ (enc_loop _ _ _ ?st') => assert (ctr_at b cb (s + k) pre' (drop k rest) st') as Hat' end.
  { assert (len pre + Z.of_nat k = len pre') as Epre.
    { unfold pre'. rewrite len_app. unfold len at 3. rewrite length_xorFrom, length_take. lia. }
    pose proof (Nat.div_mod_eq s 16) as Hs. destruct (Z.eqb_spec (Z.of_nat (s mod 16) + Z.of_nat k) 16) as [E16|E16].
    - assert ((s + k) / 16 = S (s / 16) /\ (s + k) mod 16 = 0)%nat as [Eq Er].
      { split; symmetry; [apply Nat.div_unique with 0%nat|apply Nat.mod_unique with (S (s / 16))]; lia. }
      split; [done|]. cbn [k_off k_pos k_ctr k_ks]. rewrite Eq, Er. done.
    - assert ((s + k) / 16 = s / 16 /\ (s + k) mod 16 = s mod 16 + k)%nat as [Eq Er].
      { split; symmetry; [apply Nat.div_unique with (s mod 16 + k)%nat|apply Nat.mod_unique with (s / 16)%nat]; lia. }
      split; [done|]. cbn [k_off k_pos k_ctr k_ks]. rewrite Eq, Er. split; [done|]. split; [lia|done]. }
  apply (IH (enc - Z.of_nat k)) in Hat'; [|rewrite length_drop; lia]. cbv zeta in Hat'. rewrite length_drop in Hat'.
  set (e' := (Z.to_nat (enc - Z.of_nat k) `min` (length rest - k))%nat) in *.
  assert (e = k + e')%nat as -> by lia.
  rewrite drop_drop in Hat'.
  assert (take (k + e') rest = take k rest ++ take e' (drop k rest)) as ->.
  { rewrite <- (take_drop k rest) at 1. rewrite take_app_ge by (rewrite length_take; lia).
    f_equal. f_equal. rewrite length_take. lia. }
  rewrite xorFrom_app, length_take, Nat.min_l, Nat.add_assoc, app_assoc by lia. exact Hat'.
Qed.

Lemma ctrSub_spec b cb st s pre rest sub : is_block cb -> 0 <= s_Clear sub -> ctr_at b cb s pre rest st ->
  exists s' pre', ctr_at b cb s' pre' (drop (Z.to_nat (s_Clear sub) + Z.to_nat (s_Encrypted sub)) rest) (ctrSub b st sub) /\
    forall mask, pre ++ maskXor (ksByte incCounter b cb) (subsMask [sub] ++ mask) rest s =
      pre' ++ maskXor (ksByte incCounter b cb) mask (drop (Z.to_nat (s_Clear sub) + Z.to_nat (s_Encrypted sub)) rest) s'.
Proof.
  intros Hcb Hc (Ed & Eo & Ep & Ec & Ek). set (c := Z.to_nat (s_Clear sub)). set (n := Z.to_nat (s_Encrypted sub)).
  assert (ctr_at b cb s (pre ++ take c rest) (drop c rest)
    (MkCtr (if 0 <? s_Clear sub then Z.min (k_off st + s_Clear sub) (len (k_data st)) else k_off st) (k_pos st) (k_ctr st) (k_ks st) (k_data st))) as Hat.
  { split; [cbn; by rewrite Ed, <- app_assoc, take_drop|]. split; [|done]. cbn [k_off].
    rewrite Ed, Eo, !len_app. unfold len. rewrite length_take. destruct (Z.ltb_spec 0 (s_Clear sub)); unfold c; lia. }
  apply (enc_loop_spec b cb (S (length (k_data st))) (s_Encrypted sub)) in Hat; [|done|rewrite Ed, length_app, length_drop; lia].
  cbv zeta in Hat. fold n in Hat. rewrite length_drop in Hat. set (e := (n `min` (length rest - c))%nat) in *.
  assert (forall (l : bytes), length l = (length rest - c)%nat -> take e l = take n l /\ drop e l = drop n l) as Hmin.
  { intros l Hl. destruct (Nat.le_ge_cases n (length l)); [by assert (e = n) as -> by lia|].
    rewrite !take_ge, !drop_ge by lia. done. }
  destruct (Hmin (drop c rest) (length_drop _ _)) as [Et Edr]. rewrite Et, Edr, drop_drop in Hat.
  do 2 eexists. split; [exact Hat|]. intros mask. unfold subsMask. cbn [fmap list_fmap concat]. fold c n.
  rewrite app_nil_r, <- !app_assoc. f_equal. rewrite maskXor_clear. f_equal. rewrite maskXor_encrypted, drop_drop. f_equal.
  f_equal. rewrite length_drop. done.
Qed.

Lemma ctrSubs_spec b cb subs st s pre rest : is_block cb -> Forall (fun x => 0 <= s_Clear x) subs -> ctr_at b cb s pre rest st ->
  k_data (foldl (ctrSub b) st subs) = pre ++ maskXor (ksByte incCounter b cb) (subsMask subs) rest s.
Proof.
  intros Hcb Hs. revert st s pre rest. induction Hs as [|sub subs Hc _ IH]; intros st s pre rest Hat; cbn [foldl].
  { destruct Hat as [-> _]. by destruct rest. }
  destruct (ctrSub_spec b cb st s pre rest sub Hcb Hc Hat) as (s' & pre' & Hat' & E).
  rewrite (IH _ _ _ _ Hat'). rewrite <- E. do 2 f_equal. unfold subsMask. cbn [fmap list_fmap concat]. by rewrite app_nil_r.
Qed.

(** The decryptor is the reference. *)
Lemma drmDecryptCTRSubsamples_eq key iv data subs b : Forall is_byte iv -> Forall sub_ok subs -> len key = 16 -> NewCipher key = Some b ->
  drmDecryptCTRSubsamples key iv data subs = (Ok tt, ctrReference b iv data subs).
Proof.
  intros Hi Hs Hk Hb. unfold drmDecryptCTRSubsamples, newBlock. rewrite Hk, Hb. cbn [negb Z.eqb Pos.eqb].
  destruct subs as [|sub subs]; [done|]. cbv iota. cbn [ctrReference].
  rewrite (ctrSubs_spec b (ctrInit iv) (sub :: subs) _ 0 [] data); [done|by apply ctrInit_block| |done].
  eapply Forall_impl; [exact Hs|]. intros x [[? _] _]. done.
Qed.

(** ** Involution *)

Lemma xorFrom_involutive ks s data : xorFrom ks s (xorFrom ks s data) = data.
Proof.
  revert s. induction data as [|d data IH]; intros s; [done|]. rewrite !xorFrom_cons, IH. f_equal.
  by rewrite Z.lxor_assoc, Z.lxor_nilpotent, Z.lxor_0_r.
Qed.

Lemma maskXor_involutive ks mask data s : maskXor ks mask (maskXor ks mask data s) s = data.
Proof.
  revert data s. induction mask as [|[] mask IH]; intros [|d data] s; cbn; [done..| |done|]; rewrite IH; [|done].
  f_equal. by rewrite Z.lxor_assoc, Z.lxor_nilpotent, Z.lxor_0_r.
Qed.

Lemma length_maskXor ks mask data s : length (maskXor ks mask data s) = length data.
Proof. revert data s. induction mask as [|[] mask IH]; intros [|d data] s; cbn; auto. Qed.

Lemma ctrReference_involutive b iv data subs : ctrReference b iv (ctrReference b iv data subs) subs = data.
Proof. destruct subs; [apply xorFrom_involutive|apply maskXor_involutive]. Qed.

Lemma length_ctrReference b iv data subs : length (ctrReference b iv data subs) = length data.
Proof. destruct subs; [apply length_xorFrom|apply length_maskXor]. Qed.

Lemma lxor_byte a c : is_byte a -> is_byte c -> is_byte (Z.lxor a c).
Proof.
  unfold is_byte. intros Ha Hc. assert (Z.lxor a c = Z.lxor a c mod 2 ^ 8) as ->; [|apply Z.mod_pos_bound; lia].
  apply Z.bits_inj'. intros i Hi. destruct (Z.lt_ge_cases i 8); [by rewrite Z.mod_pow2_bits_low|].
  rewrite Z.mod_pow2_bits_high by lia. rewrite Z.lxor_spec.
  rewrite <- (Z.mod_small a (2 ^ 8)), <- (Z.mod_small c (2 ^ 8)) by lia. by rewrite !Z.mod_pow2_bits_high by lia.
Qed.

Lemma ksByte_byte inc b cb s : (forall cb, is_block cb -> is_block (inc cb)) -> is_block cb -> is_byte (ksByte inc b cb s).
Proof.
  intros Hinc Hcb. unfold ksByte. destruct (Encrypt_block b (Nat.iter (s / 16) inc cb)) as [El Hb]; [by apply iter_block|].
  apply (Forall_lookup_total_1 is_byte); [done|]. rewrite El. apply Nat.mod_upper_bound. lia.
Qed.

Lemma xorFrom_bytes ks s data : (forall i, is_byte (ks i)) -> Forall is_byte data -> Forall is_byte (xorFrom ks s data).
Proof.
  intros Hk Hd. revert s. induction Hd as [|d data Hd _ IH]; intros s; [constructor|]. rewrite xorFrom_cons.
  constructor; [by apply lxor_byte|apply IH].
Qed.

Lemma maskXor_bytes ks mask data s : (forall i, is_byte (ks i)) -> Forall is_byte data -> Forall is_byte (maskXor ks mask data s).
Proof.
  intros Hk. revert data s. induction mask as [|[] mask IH]; intros data s Hd; destruct Hd as [|d data Hd Hds]; cbn [maskXor]; try by constructor.
  - constructor; [by apply lxor_byte|by apply IH].
  - constructor; [done|by apply IH].
Qed.

Lemma ctrReference_bytes b iv data subs : Forall is_byte iv -> Forall is_byte data -> Forall is_byte (ctrReference b iv data subs).
Proof.
  intros Hi Hd. pose proof (ctrInit_block iv Hi) as Hc.
  destruct subs; [apply xorFrom_bytes|apply maskXor_bytes]; try done; intros i; apply ksByte_byte; try done; intros; by apply inc_loop_block.
Qed.

(** The bytes outside the mask are untouched. *)
Lemma maskXor_clear_byte ks mask data s i : mask !! i <> Some true -> maskXor ks mask data s !! i = data !! i.
Proof.
  revert data s i. induction mask as [|[] mask IH]; intros [|d data] s [|i] Hi; cbn in *; try done; by apply IH.
Qed.

End CTR_Proofs.

(** * Cipher block chaining *)

Definition xorBytes (a b : bytes) : bytes := zip_with Z.lxor a b.

Section CBC.
Context `{AES}.

(** CryptBlocks of cipher.NewCBCDecrypter on [n] blocks: the plaintext, and the
    chaining value it keeps for the next call. *)
Fixpoint CryptBlocks (b : Block) (n : nat) (iv data : bytes) : bytes * bytes :=
  match n with
  | O => ([], iv)
  | S n =>
      let c := take 16 data in
      let '(rest, iv') := CryptBlocks b n c (drop 16 data) in
      (xorBytes (Decrypt b c) iv ++ rest, iv')
  end.

(** [run] written over [data] from [off] on. *)
Definition overwrite (data : bytes) (off : nat) (run : bytes) : bytes :=
  take off data ++ run ++ drop (off + length run) data.

Fixpoint pattern_loop (b : Block) (fuel crypt skip full blk : nat) (iv span : bytes) : bytes :=
  match fuel with
  | O => span
  | S fuel =>
      if (full <=? blk)%nat then span
      else
        let n := if (full <? blk + crypt)%nat then (full - blk)%nat else crypt in
        let '(run, iv) := CryptBlocks b n iv (take (n * 16) (drop (blk * 16) span)) in
        pattern_loop b fuel crypt skip full (blk + (crypt + skip)) iv (overwrite span (blk * 16) run)
  end.

Definition drmCBCSPattern (b : Block) (iv span : bytes) (crypt skip : nat) : bytes :=
  let full := (length span / 16)%nat in
  if (full =? 0)%nat then span
  else if (crypt =? 0)%nat then overwrite span 0 (fst (CryptBlocks b full iv (take (full * 16) span)))
  else pattern_loop b full crypt skip full 0 iv span.

Fixpoint cbcs_loop (b : Block) (iv : bytes) (crypt skip : nat) (subs : list drmSubsample) (off : Z) (data : bytes) : res unit * bytes :=
  match subs with
  | [] => (Ok tt, data)
  | sub :: subs =>
      let off := off + s_Clear sub in
      if len data <? off then (Err EErr, data)
      else if s_Encrypted sub =? 0 then cbcs_loop b iv crypt skip subs off data
      else
        let end_ := off + s_Encrypted sub in
        if len data <? end_ then (Err EErr, data)
        else
          let span := take (Z.to_nat (end_ - off)) (drop (Z.to_nat off) data) in
          cbcs_loop b iv crypt skip subs end_ (overwrite data (Z.to_nat off) (drmCBCSPattern b iv span crypt skip))
  end.

(** The IV as the chain uses it. *)
Definition cbcsIV (iv : bytes) : bytes :=
  if negb (len iv =? 16) then if len iv <? 16 then copyInto (replicate 16 0) iv else take 16 iv else iv.

Definition drmDecryptCBCSubsamples (key iv data : bytes) (subs : list drmSubsample) (cryptBlocks skipBlocks : Z) : res unit * bytes :=
  if negb (len key =? 16) then (Err EErr, data)
  else
    let iv := cbcsIV iv in
    if (cryptBlocks <? 0) || (skipBlocks <? 0) then (Err EErr, data)
    else
      match newBlock key with
      | Err e => (Err e, data)
      | Ok b =>
          match subs with
          | [] => (Ok tt, drmCBCSPattern b iv data (Z.to_nat cryptBlocks) (Z.to_nat skipBlocks))
          | _ => cbcs_loop b iv (Z.to_nat cryptBlocks) (Z.to_nat skipBlocks) subs 0 data
          end
      end.

(** ** Reference: one chain through the blocks the pattern selects *)

(** Whether block [i] of a range is encrypted. *)
Definition isCrypt (crypt skip i : nat) : bool := (crypt =? 0)%nat || (i mod (crypt + skip) <? crypt)%nat.

(** What becomes of a block, and the next chaining value. *)
Definition decStep (b : Block) (c iv : bytes) : bytes * bytes := (xorBytes (Decrypt b c) iv, c).
Definition encStep (b : Block) (p iv : bytes) : bytes * bytes := let c := Encrypt b (xorBytes p iv) in (c, c).

Fixpoint chain (step : bytes -> bytes -> bytes * bytes) (crypt skip i n : nat) (iv span : bytes) : bytes :=
  match n with
  | O => span
  | S n =>
      if isCrypt crypt skip i then
        let '(o, iv) := step (take 16 span) iv in o ++ chain step crypt skip (S i) n iv (drop 16 span)
      else take 16 span ++ chain step crypt skip (S i) n iv (drop 16 span)
  end.

Definition chainRange (step : bytes -> bytes -> bytes * bytes) (crypt skip : nat) (iv span : bytes) : bytes :=
  chain step crypt skip 0 (length span / 16) iv span.

(** Every encrypted range of a sample by itself, the clear ones as they are. *)
Fixpoint overRanges (f : bytes -> bytes) (subs : list drmSubsample) (data : bytes) : bytes :=
  match subs with
  | [] => data
  | sub :: subs =>
      let c := Z.to_nat (s_Clear sub) in
      let n := Z.to_nat (s_Encrypted sub) in
      take c data ++ f (take n (drop c data)) ++ overRanges f subs (drop (c + n) data)
  end.

Definition subsTotal (subs : list drmSubsample) : Z := sumZ (fun s => s_Clear s + s_Encrypted s) subs.

Definition cbcsReference (step : bytes -> bytes -> bytes * bytes) (iv data : bytes) (subs : list drmSubsample) (crypt skip : nat) : bytes :=
  let f := chainRange step crypt skip (cbcsIV iv) in
  match subs with [] => f data | _ => overRanges f subs data end.

End CBC.

(** ** Lemmas *)

Section CBC_Proofs.
Context `{AESLaws}.

Lemma CryptBlocks_run b n crypt skip i m iv span : (16 * n <= length span)%nat -> (forall j, (j < n)%nat -> isCrypt crypt skip (i + j) = true) ->
  chain (decStep b) crypt skip i (n + m) iv span =
    fst (CryptBlocks b n iv span) ++ chain (decStep b) crypt skip (i + n) m (snd (CryptBlocks b n iv span)) (drop (n * 16) span).
Proof.
  revert i iv span. induction n as [|n IH]; intros i iv span Hl Hj; [by rewrite Nat.add_0_r|].
  cbn [Nat.add chain CryptBlocks]. pose proof (Hj 0%nat ltac:(lia)) as E. rewrite Nat.add_0_r in E. rewrite E. cbn [decStep].
  rewrite IH; [|rewrite length_drop; lia|intros j Hjn; replace (S i + j)%nat with (i + S j)%nat by lia; apply Hj; lia].
  destruct (CryptBlocks b n (take 16 span) (drop 16 span)) as [rest iv']. cbn [fst snd]. rewrite drop_drop, <- app_assoc.
  do 3 f_equal; lia.
Qed.

Lemma CryptBlocks_take b n iv span : CryptBlocks b n iv (take (n * 16) span) = CryptBlocks b n iv span.
Proof.
  revert iv span. induction n as [|n IH]; intros iv span; [done|]. cbn [CryptBlocks].
  rewrite take_take. replace (16 `min` (S n * 16))%nat with 16%nat by lia.
  assert (drop 16 (take (S n * 16) span) = take (n * 16) (drop 16 span)) as ->; [|by rewrite IH].
  rewrite skipn_firstn_comm. f_equal. lia.
Qed.

Lemma chain_skip step crypt skip i k m iv span : (16 * k <= length span)%nat -> (forall j, (j < k)%nat -> isCrypt crypt skip (i + j) = false) ->
  chain step crypt skip i (k + m) iv span = take (k * 16) span ++ chain step crypt skip (i + k) m iv (drop (k * 16) span).
Proof.
  revert i iv span. induction k as [|k IH]; intros i iv span Hl Hj; [by rewrite Nat.add_0_r|].
  cbn [Nat.add chain]. pose proof (Hj 0%nat ltac:(lia)) as E. rewrite Nat.add_0_r in E. rewrite E.
  rewrite IH; [|rewrite length_drop; lia|intros j Hjn; replace (S i + j)%nat with (i + S j)%nat by lia; apply Hj; lia].
  rewrite drop_drop, app_assoc. f_equal; [|f_equal; lia].
  rewrite <- (take_drop 16 (take (S k * 16) span)), take_take, skipn_firstn_comm. do 2 f_equal; lia.
Qed.

Lemma CryptBlocks_length b n iv span : is_block iv -> Forall is_byte span -> (16 * n <= length span)%nat ->
  length (fst (CryptBlocks b n iv span)) = (n * 16)%nat /\ is_block (snd (CryptBlocks b n iv span)).
Proof.
  revert iv span. induction n as [|n IH]; intros iv span [Hi Bi] Hb Hl; [done|]. cbn [CryptBlocks].
  assert (is_block (take 16 span)) as Ht by (split; [rewrite length_take; lia|by apply Forall_take]).
  destruct (IH (take 16 span) (drop 16 span)) as [IH1 IH2]; [done|by apply Forall_drop|rewrite length_drop; lia|].
  destruct (CryptBlocks b n (take 16 span) (drop 16 span)) as [rest iv']. cbn [fst snd] in *. split; [|done].
  rewrite length_app, IH1. unfold xorBytes. rewrite length_zip_with. destruct (Decrypt_block b (take 16 span) Ht) as [-> _]. lia.
Qed.

Lemma isCrypt_period crypt skip blk j : (0 < crypt)%nat -> (blk mod (crypt + skip) = 0)%nat -> (j < crypt + skip)%nat ->
  isCrypt crypt skip (blk + j) = (j <? crypt)%nat.
Proof.
  intros Hc Hb Hj. unfold isCrypt. rewrite (proj2 (Nat.eqb_neq crypt 0)) by lia. cbn [orb].
  rewrite Nat.Div0.add_mod, Hb, Nat.add_0_l, Nat.Div0.mod_mod, Nat.mod_small by done. done.
Qed.

Lemma pattern_loop_done b fuel crypt skip full blk iv span : (full <= blk)%nat -> pattern_loop b fuel crypt skip full blk iv span = span.
Proof. intros Hf. destruct fuel; [done|]. cbn [pattern_loop]. by rewrite (proj2 (Nat.leb_le full blk)). Qed.

Lemma overwrite_mid pre rest off run : length pre = off -> overwrite (pre ++ rest) off run = pre ++ run ++ drop (length run) rest.
Proof. intros <-. unfold overwrite. rewrite take_app_length. do 2 f_equal. rewrite drop_app_ge by lia. f_equal. lia. Qed.

Lemma pattern_loop_spec b crypt skip fuel m blk iv pre rest : (0 < crypt)%nat -> length pre = (blk * 16)%nat -> (blk mod (crypt + skip) = 0)%nat ->
  is_block iv -> Forall is_byte rest -> (16 * m <= length rest)%nat -> (m <= fuel)%nat ->
  pattern_loop b fuel crypt skip (blk + m) blk iv (pre ++ rest) = pre ++ chain (decStep b) crypt skip blk m iv rest.
Proof.
  intros Hc. revert m blk iv pre rest. induction fuel as [|fuel IH]; intros m blk iv pre rest Hpre Hblk Hiv Hb Hl Hf.
  { by assert (m = 0%nat) as -> by lia. }
  destruct m as [|m]; [rewrite pattern_loop_done by lia; done|]. cbn [pattern_loop].
  rewrite (proj2 (Nat.leb_gt (blk + S m) blk)) by lia. cbv zeta.
  assert ((if (blk + S m <? blk + crypt)%nat then (blk + S m - blk)%nat else crypt) = (crypt `min` S m)%nat) as ->.
  { destruct (Nat.ltb_spec (blk + S m) (blk + crypt)); lia. }
  set (n := (crypt `min` S m)%nat). rewrite drop_app_ge by lia. rewrite Hpre, Nat.sub_diag, drop_0, CryptBlocks_take.
  assert (S m = n + (S m - n))%nat as Em by lia. set (m1 := (S m - n)%nat) in *.
  rewrite Em, (CryptBlocks_run b n crypt skip blk m1) by (lia || intros j Hj; rewrite isCrypt_period by (done || lia); apply Nat.ltb_lt; lia).
  destruct (CryptBlocks_length b n iv rest Hiv Hb) as [Er Hiv']; [lia|].
  destruct (CryptBlocks b n iv rest) as [run iv'] eqn:E. cbn [fst snd] in *. rewrite overwrite_mid, Er by done.
  set (rest1 := drop (n * 16) rest). assert (16 * m1 <= length rest1)%nat as Hl1 by (unfold rest1; rewrite length_drop; lia).
  destruct (decide (m1 = 0)%nat) as [->|Hm1]; [by rewrite pattern_loop_done by lia|].
  assert (n = crypt) as En by lia. rewrite !En in *. set (k := (skip `min` m1)%nat).
  assert (m1 = k + (m1 - k))%nat as Em1 by lia. set (m2 := (m1 - k)%nat) in *.
  rewrite Em1 at 2. rewrite (chain_skip _ crypt skip (blk + crypt) k) by
    (lia || intros j Hj; rewrite <- Nat.add_assoc, isCrypt_period by (done || lia); apply Nat.ltb_ge; lia).
  destruct (decide (m2 = 0)%nat) as [E2|Hm2].
  { rewrite E2. cbn [chain]. rewrite take_drop. by rewrite pattern_loop_done by lia. }
  assert (k = skip) as Ek by lia. rewrite Ek in *.
  replace (blk + (crypt + m1))%nat with (blk + (crypt + skip) + m2)%nat by lia.
  rewrite <- (take_drop (skip * 16) rest1) at 1. rewrite !app_assoc.
  rewrite (IH m2).
  - by rewrite <- !app_assoc, Nat.add_assoc.
  - rewrite !length_app, Hpre, Er, length_take. lia.
  - rewrite <- (Nat.mul_1_l (crypt + skip)) at 1. by rewrite Nat.Div0.mod_add.
  - done.
  - by apply Forall_drop, Forall_drop.
  - rewrite length_drop. lia.
  - lia.
Qed.

(** One range: the code's loop is the reference chain. *)
Lemma drmCBCSPattern_eq b iv span crypt skip : is_block iv -> Forall is_byte span ->
  drmCBCSPattern b iv span crypt skip = chainRange (decStep b) crypt skip iv span.
Proof.
  intros Hiv Hb. unfold drmCBCSPattern, chainRange. cbv zeta. set (full := (length span / 16)%nat).
  assert (16 * full <= length span)%nat as Hl by apply Nat.Div0.mul_div_le.
  destruct (Nat.eqb_spec full 0) as [->|Hf]; [done|]. destruct (Nat.eqb_spec crypt 0) as [->|Hc].
  - rewrite CryptBlocks_take. rewrite <- (Nat.add_0_r full) at 2. rewrite CryptBlocks_run by done.
    destruct (CryptBlocks_length b full iv span Hiv Hb Hl) as [E _]. cbn [chain].
    rewrite (overwrite_mid [] span) by done. by rewrite E.
  - apply (pattern_loop_spec b crypt skip full full 0 iv [] span); [lia|done| |done..]. apply Nat.Div0.mod_0_l.
Qed.

(** ** Lengths, bytes, and what the chain undoes *)

Definition step_ok (step : bytes -> bytes -> bytes * bytes) : Prop :=
  forall c iv, is_block c -> is_block iv -> is_block (fst (step c iv)) /\ is_block (snd (step c iv)).

Lemma xorBytes_block a c : is_block a -> is_block c -> is_block (xorBytes a c).
Proof.
  intros [La Ba] [Lc Bc]. unfold xorBytes. split; [rewrite length_zip_with; lia|]. clear La Lc. revert c Bc.
  induction Ba as [|x a Hx _ IH]; intros c Bc; [constructor|]. destruct Bc as [|y c Hy Bc]; [constructor|].
  constructor; [by apply lxor_byte|by apply IH].
Qed.

Lemma xorBytes_twice a c : is_block a -> is_block c -> xorBytes (xorBytes a c) c = a.
Proof.
  intros [La _] [Lc _]. unfold xorBytes. assert (length a <= length c)%nat as Hl by lia. clear La Lc.
  revert c Hl. induction a as [|x a IH]; intros [|y c] Hl; cbn [zip_with length] in *; [done..|lia|].
  rewrite IH by lia. by rewrite Z.lxor_assoc, Z.lxor_nilpotent, Z.lxor_0_r.
Qed.

Lemma decStep_ok b : step_ok (decStep b).
Proof. intros c iv Hc Hi. split; [|done]. apply xorBytes_block; [by apply Decrypt_block|done]. Qed.

Lemma encStep_ok b : step_ok (encStep b).
Proof. intros c iv Hc Hi. split; by apply Encrypt_block, xorBytes_block. Qed.

Lemma take16_block span : (16 <= length span)%nat -> Forall is_byte span -> is_block (take 16 span).
Proof. intros Hl Hb. split; [rewrite length_take; lia|by apply Forall_take]. Qed.

Lemma chain_ok step crypt skip i n iv span : step_ok step -> is_block iv -> Forall is_byte span -> (16 * n <= length span)%nat ->
  length (chain step crypt skip i n iv span) = length span /\ Forall is_byte (chain step crypt skip i n iv span).
Proof.
  intros Hs. revert i iv span. induction n as [|n IH]; intros i iv span Hi Hb Hl; [done|]. cbn [chain].
  pose proof (take16_block span ltac:(lia) Hb) as Ht.
  assert (Forall is_byte (drop 16 span)) as Hd by by apply Forall_drop.
  destruct (isCrypt crypt skip i).
  - destruct (Hs (take 16 span) iv Ht Hi) as [Ho Hi']. destruct (step (take 16 span) iv) as [o iv']. cbn [fst snd] in *.
    destruct (IH (S i) iv' (drop 16 span) Hi' Hd) as [E B]; [rewrite length_drop; lia|].
    split; [|apply Forall_app; by split; [apply Ho|]]. rewrite length_app, E, length_drop. destruct Ho as [-> _]. lia.
  - destruct (IH (S i) iv (drop 16 span) Hi Hd) as [E B]; [rewrite length_drop; lia|].
    split; [|apply Forall_app; by split; [apply Ht|]]. rewrite length_app, E, length_drop, length_take. lia.
Qed.

Lemma chain_undo b crypt skip i n iv span : is_block iv -> Forall is_byte span -> (16 * n <= length span)%nat ->
  chain (decStep b) crypt skip i n iv (chain (encStep b) crypt skip i n iv span) = span.
Proof.
  revert i iv span. induction n as [|n IH]; intros i iv span Hi Hb Hl; [done|]. cbn [chain].
  pose proof (take16_block span ltac:(lia) Hb) as Ht.
  assert (Forall is_byte (drop 16 span)) as Hd by by apply Forall_drop.
  assert (forall o r : bytes, is_block o -> take 16 (o ++ r) = o /\ drop 16 (o ++ r) = r) as Happ.
  { intros o r [<- _]. split; [apply take_app_length|apply drop_app_length]. }
  destruct (isCrypt crypt skip i) eqn:Ei; cbn [encStep decStep].
  - set (c := Encrypt b (xorBytes (take 16 span) iv)). assert (is_block c) as Hc by by apply Encrypt_block, xorBytes_block.
    destruct (Happ c (chain (encStep b) crypt skip (S i) n c (drop 16 span)) Hc) as [-> ->].
    rewrite IH by (try rewrite length_drop; done || lia). unfold c. rewrite Decrypt_Encrypt by by apply xorBytes_block.
    rewrite xorBytes_twice by done. apply take_drop.
  - destruct (Happ (take 16 span) (chain (encStep b) crypt skip (S i) n iv (drop 16 span)) Ht) as [-> ->].
    rewrite IH by (try rewrite length_drop; done || lia). apply take_drop.
Qed.

Lemma chainRange_ok step crypt skip iv span : step_ok step -> is_block iv -> Forall is_byte span ->
  length (chainRange step crypt skip iv span) = length span /\ Forall is_byte (chainRange step crypt skip iv span).
Proof. intros Hs Hi Hb. apply chain_ok; [done..|]. apply Nat.Div0.mul_div_le. Qed.

Lemma chainRange_undo b crypt skip iv span : is_block iv -> Forall is_byte span ->
  chainRange (decStep b) crypt skip iv (chainRange (encStep b) crypt skip iv span) = span.
Proof.
  intros Hi Hb. unfold chainRange at 1. destruct (chainRange_ok (encStep b) crypt skip iv span (encStep_ok b) Hi Hb) as [-> _].
  apply chain_undo; [done..|]. apply Nat.Div0.mul_div_le.
Qed.

(** ** Samples *)

Definition keeps (f : bytes -> bytes) : Prop := forall s, Forall is_byte s -> length (f s) = length s /\ Forall is_byte (f s).

Lemma overRanges_keeps f subs : keeps f -> keeps (overRanges f subs).
Proof.
  intros Hf. induction subs as [|sub subs IH]; intros data Hb; [done|]. cbn [overRanges]. cbv zeta.
  set (c := Z.to_nat (s_Clear sub)). set (n := Z.to_nat (s_Encrypted sub)).
  destruct (Hf (take n (drop c data))) as [E1 B1]; [by apply Forall_take, Forall_drop|].
  destruct (IH (drop (c + n) data)) as [E2 B2]; [by apply Forall_drop|].
  split; [rewrite !length_app, E1, E2, !length_take, !length_drop; lia|]. rewrite !Forall_app. by split; [apply Forall_take|].
Qed.

Lemma subsTotal_cons sub subs : subsTotal (sub :: subs) = s_Clear sub + s_Encrypted sub + subsTotal subs.
Proof. unfold subsTotal. by rewrite sumZ_cons. Qed.

Lemma subsTotal_nonneg subs : Forall sub_ok subs -> 0 <= subsTotal subs.
Proof.
  induction 1 as [|sub subs [[? ?] [? ?]] _ IH]; [done|]. rewrite subsTotal_cons. lia.
Qed.

Lemma overRanges_undo f g subs data : keeps f -> (forall s, Forall is_byte s -> g (f s) = s) ->
  Forall sub_ok subs -> subsTotal subs <= len data -> Forall is_byte data -> overRanges g subs (overRanges f subs data) = data.
Proof.
  intros Hf Hg Hs. revert data. induction Hs as [|sub subs [[Hc _] [He _]] Hs IH]; intros data Ht Hb; [done|].
  rewrite subsTotal_cons in Ht. pose proof (subsTotal_nonneg subs Hs) as Hn0. cbn [overRanges]. cbv zeta.
  set (c := Z.to_nat (s_Clear sub)). set (n := Z.to_nat (s_Encrypted sub)). unfold len in *.
  assert (Forall is_byte (take n (drop c data))) as Bt by by apply Forall_take, Forall_drop.
  destruct (Hf (take n (drop c data)) Bt) as [E1 _]. rewrite length_take, length_drop in E1.
  set (a := take c data). set (r := overRanges f subs (drop (c + n) data)). set (x := f (take n (drop c data))) in *.
  assert (length a = c) as Ea by (unfold a; rewrite length_take; lia).
  assert (length x = n) as Ex by lia.
  assert (take c (a ++ x ++ r) = a /\ drop c (a ++ x ++ r) = x ++ r) as [-> E2].
  { rewrite <- Ea. split; [apply take_app_length|apply drop_app_length]. }
  assert (take n (x ++ r) = x /\ drop n (x ++ r) = r) as [E3 E4].
  { rewrite <- Ex. split; [apply take_app_length|apply drop_app_length]. }
  rewrite <- (drop_drop (a ++ x ++ r)), E2, E3, E4. unfold x, r. rewrite Hg by done.
  rewrite IH by (try apply Forall_drop; try done; rewrite length_drop; lia). unfold a. rewrite <- drop_drop, take_drop. apply take_drop.
Qed.

Lemma cbcsIV_block iv : Forall is_byte iv -> is_block (cbcsIV iv).
Proof.
  intros Hi. unfold cbcsIV, len. destruct (Z.eqb_spec (Z.of_nat (length iv)) 16) as [E|E]; cbn [negb]; [split; [lia|done]|].
  destruct (Z.ltb_spec (Z.of_nat (length iv)) 16).
  - split; [by rewrite length_copyInto|apply copyInto_bytes; [apply zeros_bytes|done]].
  - split; [rewrite length_take; lia|by apply Forall_take].
Qed.

Lemma cbcs_loop_spec b iv crypt skip subs pre rest : is_block iv -> Forall is_byte pre -> Forall is_byte rest -> Forall sub_ok subs ->
  let r := cbcs_loop b iv crypt skip subs (len pre) (pre ++ rest) in
  length (snd r) = length (pre ++ rest) /\ Forall is_byte (snd r) /\
  if subsTotal subs <=? len rest then r = (Ok tt, pre ++ overRanges (chainRange (decStep b) crypt skip iv) subs rest)
  else fst r = Err EErr.
Proof.
  intros Hi Hp Hb Hs. revert pre rest Hp Hb. induction Hs as [|sub subs [[Hc _] [He _]] Hs IH]; intros pre rest Hp Hb; cbv zeta;
    assert (Forall is_byte (pre ++ rest)) as Hpr by by apply Forall_app.
  { cbn [cbcs_loop]. change (subsTotal []) with 0. by rewrite (proj2 (Z.leb_le 0 (len rest))) by apply len_nonneg. }
  pose proof (subsTotal_nonneg subs Hs) as Hn0. rewrite subsTotal_cons. cbn [cbcs_loop overRanges]. cbv zeta. rewrite len_app.
  set (c := Z.to_nat (s_Clear sub)). set (n := Z.to_nat (s_Encrypted sub)).
  destruct (Z.ltb_spec (len pre + len rest) (len pre + s_Clear sub)) as [Hl|Hl].
  { rewrite (proj2 (Z.leb_gt _ _)) by lia. done. }
  assert (pre ++ rest = (pre ++ take c rest) ++ drop c rest) as Epre by (by rewrite <- app_assoc, take_drop).
  assert (len pre + s_Clear sub = len (pre ++ take c rest)) as Eoff.
  { rewrite len_app. unfold len at 3. rewrite length_take. unfold len in Hl. unfold c. lia. }
  assert (len (drop c rest) = len rest - s_Clear sub) as Edr by (unfold len; rewrite length_drop; unfold len, c in *; lia).
  assert (Forall is_byte (drop c rest)) as Bd by by apply Forall_drop.
  assert (Forall is_byte (pre ++ take c rest)) as Bp by (apply Forall_app; split; [done|by apply Forall_take]).
  destruct (Z.eqb_spec (s_Encrypted sub) 0) as [E0|E0].
  - rewrite Epre, Eoff. destruct (IH (pre ++ take c rest) (drop c rest) Bp Bd) as (L & LB & R). split; [done|]. split; [done|]. rewrite Edr in R.
    assert (n = 0%nat) as -> by (unfold n; lia). rewrite take_0, Nat.add_0_r.
    change (chainRange (decStep b) crypt skip iv []) with (@nil Z). cbn [app].
    destruct (Z.leb_spec (subsTotal subs) (len rest - s_Clear sub)); destruct (Z.leb_spec (s_Clear sub + s_Encrypted sub + subsTotal subs) (len rest)); try lia; [|done].
    by rewrite R, <- app_assoc.
  - destruct (Z.ltb_spec (len pre + len rest) (len pre + s_Clear sub + s_Encrypted sub)) as [Hl2|Hl2].
    { rewrite (proj2 (Z.leb_gt _ _)) by lia. done. }
    replace (Z.to_nat (len pre + s_Clear sub + s_Encrypted sub - (len pre + s_Clear sub))) with n by (unfold n; lia).
    replace (Z.to_nat (len pre + s_Clear sub)) with (length (pre ++ take c rest)) by (rewrite Eoff; unfold len; lia).
    rewrite Epre, drop_app_length. set (span := take n (drop c rest)).
    assert (Forall is_byte span) as Bs by by apply Forall_take. rewrite drmCBCSPattern_eq by done.
    destruct (chainRange_ok (decStep b) crypt skip iv span (decStep_ok b) Hi Bs) as [El Bo].
    set (out := chainRange (decStep b) crypt skip iv span) in *. rewrite overwrite_mid by done. rewrite El.
    assert (length span = n) as En by (unfold span; rewrite length_take; unfold len, n, c in *; rewrite length_drop in *; lia).
    rewrite En, drop_drop. rewrite (app_assoc _ out).
    replace (len pre + s_Clear sub + s_Encrypted sub) with (len ((pre ++ take c rest) ++ out)) by (rewrite len_app, <- Eoff; unfold len at 2; lia).
    destruct (IH ((pre ++ take c rest) ++ out) (drop (c + n) rest)) as (L & LB & R); [by apply Forall_app|by apply Forall_drop|]. split; [|split; [done|]].
    + rewrite L, !length_app, El, En, length_take, !length_drop. unfold len in *. lia.
    + assert (len (drop (c + n) rest) = len rest - s_Clear sub - s_Encrypted sub) as Edr2 by (unfold len; rewrite length_drop; unfold len, c, n in *; lia).
      rewrite Edr2 in R.
      destruct (Z.leb_spec (subsTotal subs) (len rest - s_Clear sub - s_Encrypted sub)); destruct (Z.leb_spec (s_Clear sub + s_Encrypted sub + subsTotal subs) (len rest)); try lia; [|done].
      by rewrite R, <- !app_assoc.
Qed.

(** What the cbcs decryptor returns and leaves. *)
Lemma drmDecryptCBCSubsamples_spec key iv data subs crypt skip b : Forall is_byte iv -> Forall is_byte data -> Forall sub_ok subs ->
  len key = 16 -> NewCipher key = Some b -> 0 <= crypt -> 0 <= skip ->
  let r := drmDecryptCBCSubsamples key iv data subs crypt skip in
  length (snd r) = length data /\ Forall is_byte (snd r) /\
  if subsTotal subs <=? len data then r = (Ok tt, cbcsReference (decStep b) iv data subs (Z.to_nat crypt) (Z.to_nat skip))
  else fst r = Err EErr.
Proof.
  intros Hi Hd Hs Hk Hb Hc Hsk. pose proof (cbcsIV_block iv Hi) as HI. unfold drmDecryptCBCSubsamples, newBlock, cbcsReference. rewrite Hk, Hb.
  cbn [negb Z.eqb Pos.eqb]. cbv zeta. rewrite (proj2 (Z.ltb_ge crypt 0)), (proj2 (Z.ltb_ge skip 0)) by done. cbn [orb].
  destruct subs as [|sub subs].
  - change (subsTotal []) with 0. rewrite (proj2 (Z.leb_le 0 (len data))) by apply len_nonneg. rewrite drmCBCSPattern_eq by done.
    cbn [snd fst]. destruct (chainRange_ok (decStep b) (Z.to_nat crypt) (Z.to_nat skip) (cbcsIV iv) data (decStep_ok b) HI Hd) as [El Bo]. done.
  - by apply (cbcs_loop_spec b (cbcsIV iv) (Z.to_nat crypt) (Z.to_nat skip) (sub :: subs) [] data); [|constructor|..].
Qed.

Lemma cbcsReference_keeps step iv subs crypt skip : step_ok step -> Forall is_byte iv -> keeps (fun data => cbcsReference step iv data subs crypt skip).
Proof.
  intros Hs Hi. pose proof (cbcsIV_block iv Hi) as HI. intros data Hb. unfold cbcsReference. cbv zeta.
  destruct subs; [by apply chainRange_ok|]. apply overRanges_keeps; [|done]. intros s Hsb. by apply chainRange_ok.
Qed.

Lemma cbcsReference_undo b iv data subs crypt skip : Forall is_byte iv -> Forall is_byte data -> Forall sub_ok subs -> subsTotal subs <= len data ->
  cbcsReference (decStep b) iv (cbcsReference (encStep b) iv data subs crypt skip) subs crypt skip = data.
Proof.
  intros Hi Hb Hs Ht. pose proof (cbcsIV_block iv Hi) as HI. unfold cbcsReference. cbv zeta.
  destruct subs as [|sub subs]; [by apply chainRange_undo|].
  apply overRanges_undo; [intros s Hsb; by apply chainRange_ok; [apply encStep_ok|..]|intros s Hsb; by apply chainRange_undo|done..].
Qed.

End CBC_Proofs.

(** * Whole segments in AES-128-CBC *)

(** The padding check; [b[len-pad ..]] are all [pad]. *)
Definition drmStripPKCS7 (b : bytes) : res bytes :=
  match last b with
  | None => Err EErr
  | Some pad =>
      if (pad =? 0) || (16 <? pad) then Err EErr
      else if len b <? pad then Err EErr
      else
        let n := (length b - Z.to_nat pad)%nat in
        if forallb (fun c => c =? pad) (drop n b) then Ok (take n b) else Err EErr
  end.

(** The plaintext, and the segment as it is left. *)
Definition drmCBC `{AES} (key iv data : bytes) (inPlace : bool) : res bytes * bytes :=
  if negb (len key =? 16) then (Err EErr, data)
  else if negb (len iv =? 16) then (Err EErr, data)
  else if len data =? 0 then (Err EErr, data)
  else if negb (len data mod 16 =? 0) then (Err EErr, data)
  else
    match newBlock key with
    | Err e => (Err e, data)
    | Ok b =>
        let out := fst (CryptBlocks b (length data / 16) iv data) in
        (drmStripPKCS7 out, if inPlace then out else data)
    end.

Definition drmDecryptCBC `{AES} (key iv data : bytes) : res bytes := fst (drmCBC key iv data false).

(** The padding of a plaintext: one to sixteen bytes, to a multiple of 16. *)
Definition padded (p : bytes) : bytes :=
  let n := (16 - length p mod 16)%nat in p ++ replicate n (Z.of_nat n).

(** What the check accepts: exactly the buffers that end in such a padding. *)
Lemma forallb_Forall {A} (f : A -> bool) l : forallb f l = true <-> Forall (fun x => f x = true) l.
Proof. rewrite forallb_forall, Forall_forall. setoid_rewrite list_elem_of_In. done. Qed.

Lemma drmStripPKCS7_spec b p : Forall is_byte b ->
  drmStripPKCS7 b = Ok p <-> exists n, (1 <= n <= 16)%nat /\ b = p ++ replicate n (Z.of_nat n).
Proof.
  intros Hb. unfold drmStripPKCS7. split.
  - destruct (last b) as [pad|] eqn:El; [|done]. destruct (_ || _) eqn:E1; [done|]. destruct (Z.ltb_spec (len b) pad) as [|Hl]; [done|].
    cbv zeta. set (n := (length b - Z.to_nat pad)%nat). destruct (forallb _ _) eqn:Ef; [|done]. intros [= <-].
    apply orb_false_iff in E1 as [Ep%Z.eqb_neq Eq%Z.ltb_ge]. unfold len in Hl.
    assert (0 <= pad < 256) as Hp by (apply last_Some in El as [l ->]; apply Forall_app in Hb as [_ Hb]; by apply Forall_cons in Hb as [? _]).
    exists (Z.to_nat pad). split; [lia|]. rewrite <- (take_drop n b) at 1. f_equal. rewrite Z2Nat.id by lia.
    symmetry. apply replicate_as_Forall_2; [rewrite length_drop; unfold n; lia|].
    apply forallb_Forall in Ef. eapply Forall_impl; [exact Ef|]. intros c Hc. by apply Z.eqb_eq in Hc.
  - intros (n & Hn & E). assert (last b = Some (Z.of_nat n)) as ->.
    { rewrite E. destruct n as [|n]; [lia|]. rewrite replicate_S_end, app_assoc. apply last_snoc. }
    rewrite (proj2 (Z.eqb_neq (Z.of_nat n) 0)), (proj2 (Z.ltb_ge 16 (Z.of_nat n))) by lia. cbn [orb].
    assert (length b = length p + n)%nat as El by (rewrite E, length_app, length_replicate; lia).
    rewrite (proj2 (Z.ltb_ge (len b) (Z.of_nat n))) by (unfold len; lia). cbv zeta. rewrite Nat2Z.id.
    replace (length b - n)%nat with (length p) by lia. rewrite E. rewrite take_app_length, drop_app_length.
    by rewrite (proj2 (forallb_Forall _ _)) by (apply Forall_replicate, Z.eqb_refl).
Qed.

Lemma length_padded p : (length (padded p) mod 16 = 0)%nat /\ padded p <> [].
Proof.
  unfold padded. cbv zeta. pose proof (Nat.mod_upper_bound (length p) 16 ltac:(lia)) as Hm. split.
  - rewrite length_app, length_replicate. pose proof (Nat.div_mod_eq (length p) 16) as E.
    symmetry. apply Nat.mod_unique with (S (length p / 16)); lia.
  - intros [_ E]%app_eq_nil. destruct (16 - length p mod 16)%nat eqn:En; [lia|done].
Qed.

Section WholeCBC.
Context `{AESLaws}.

(** AES-128-CBC of a padded segment. *)
Definition encryptCBC (b : Block) (iv p : bytes) : bytes := chainRange (encStep b) 0 0 iv (padded p).

Lemma CryptBlocks_chain b iv data : (length data mod 16 = 0)%nat -> is_block iv -> Forall is_byte data ->
  fst (CryptBlocks b (length data / 16) iv data) = chainRange (decStep b) 0 0 iv data.
Proof.
  intros Hl Hi Hb. set (n := (length data / 16)%nat). assert (16 * n = length data)%nat as En.
  { pose proof (Nat.div_mod_eq (length data) 16). fold n in H1. lia. }
  unfold chainRange. fold n. rewrite <- (Nat.add_0_r n) at 2. rewrite CryptBlocks_run by (done || lia). cbn [chain].
  rewrite drop_ge by lia. by rewrite app_nil_r.
Qed.

Lemma drmCBC_spec key iv p b inPlace : len key = 16 -> is_block iv -> Forall is_byte p -> NewCipher key = Some b ->
  let c := encryptCBC b iv p in
  drmCBC key iv c inPlace = (Ok p, if inPlace then padded p else c).
Proof.
  intros Hk Hi Hp Hb c. destruct (length_padded p) as [Hm Hne].
  assert (Forall is_byte (padded p)) as Bp.
  { unfold padded. cbv zeta. apply Forall_app. split; [done|]. apply Forall_replicate. unfold is_byte. lia. }
  destruct (chainRange_ok (encStep b) 0 0 iv (padded p) (encStep_ok b) Hi Bp) as [El Bc]. fold (encryptCBC b iv p) in El, Bc. fold c in El, Bc.
  unfold drmCBC. rewrite Hk. cbn [negb Z.eqb Pos.eqb]. assert (len iv = 16) as -> by (unfold len; destruct Hi; lia). cbn [negb Z.eqb Pos.eqb].
  assert (len c =? 0 = false) as ->.
  { apply Z.eqb_neq. unfold len. rewrite El. destruct (padded p); [done|cbn; lia]. }
  assert (len c mod 16 =? 0 = true) as ->.
  { apply Z.eqb_eq. unfold len. rewrite El. change 16 with (Z.of_nat 16). rewrite <- Nat2Z.inj_mod, Hm. done. }
  cbn [negb]. unfold newBlock. rewrite Hb. rewrite CryptBlocks_chain by (rewrite ?El; done).
  unfold c, encryptCBC. rewrite chainRange_undo by done. cbv zeta. f_equal.
  apply drmStripPKCS7_spec; [done|]. exists (16 - length p mod 16)%nat.
  pose proof (Nat.mod_upper_bound (length p) 16 ltac:(lia)). split; [lia|done].
Qed.

End WholeCBC.

(** * Properties *)

Section Properties.
Context `{AESLaws}.

(** The counter modes on a whole sample and on one range that covers it. *)
Lemma xorFrom_ext ks ks' s data : (forall i, (s <= i < s + length data)%nat -> ks i = ks' i) -> xorFrom ks s data = xorFrom ks' s data.
Proof.
  revert s. induction data as [|d data IH]; intros s Hk; [done|]. rewrite !xorFrom_cons. cbn [length] in Hk.
  rewrite (Hk s) by lia. rewrite (IH (S s)) by (intros i Hi; apply Hk; lia). done.
Qed.

Lemma ctr_one_range b iv data : Forall is_byte iv -> Z.of_nat (length data) < 2 ^ 32 ->
  be (drop 8 (ctrInit iv)) + Z.of_nat (length data / 16) < 2 ^ 64 ->
  ctrReference b iv data [] = ctrReference b iv data [MkSub 0 (Z.of_nat (length data))].
Proof.
  intros Hi Hl Hw. cbn [ctrReference].
  change (subsMask [MkSub 0 (Z.of_nat (length data))]) with (replicate (Z.to_nat (Z.of_nat (length data))) true ++ []).
  rewrite Nat2Z.id, maskXor_encrypted, take_ge, drop_ge by lia. rewrite maskXor_nil, app_nil_r. apply xorFrom_ext. intros i Hii.
  unfold ksByte. rewrite counters_agree; [done|by apply ctrInit_block|].
  assert (i / 16 <= length data / 16)%nat by (apply Nat.Div0.div_le_mono; lia). lia.
Qed.

(** C21: The sample decryptors are their specifications.  CTR: the bytes of the
    encrypted ranges, and no others, against one keystream, the keystream advancing
    over them alone, whatever the ranges and however they straddle cipher blocks and
    the end of the sample.  cbcs: every range that lies in the sample one CBC chain
    from the IV through the blocks its pattern selects, the rest of the range, its
    last partial block and the clear ranges as they are; a range past the end is an
    error.  The padding check accepts exactly the PKCS#7 paddings.  The block cache
    never changes a result and holds at most 256 blocks, whatever other goroutines do
    to it between the two locks. *)
Theorem modes_exact key iv data subs b : Forall is_byte iv -> Forall is_byte data -> Forall sub_ok subs -> len key = 16 -> NewCipher key = Some b ->
  drmDecryptCTRSubsamples key iv data subs = (Ok tt, ctrReference b iv data subs) /\
  (forall i, subs <> [] -> subsMask subs !! i <> Some true -> ctrReference b iv data subs !! i = data !! i) /\
  (forall crypt skip, 0 <= crypt -> 0 <= skip ->
     let r := drmDecryptCBCSubsamples key iv data subs crypt skip in
     length (snd r) = length data /\
     if subsTotal subs <=? len data then r = (Ok tt, cbcsReference (decStep b) iv data subs (Z.to_nat crypt) (Z.to_nat skip))
     else fst r = Err EErr) /\
  (forall p, drmStripPKCS7 data = Ok p <-> exists n, (1 <= n <= 16)%nat /\ data = p ++ replicate n (Z.of_nat n)) /\
  (forall c1 c2, cache_ok c1 -> cache_ok c2 -> cache_ok (fst (cachedAESBlock c1 c2 key)) /\ snd (cachedAESBlock c1 c2 key) = Ok b).
Proof.
  intros Hi Hd Hs Hk Hb. split; [by apply drmDecryptCTRSubsamples_eq|]. split.
  { intros i Hne Hm. destruct subs as [|sub subs]; [done|]. by apply maskXor_clear_byte. }
  split; [intros crypt skip Hc Hsk; destruct (drmDecryptCBCSubsamples_spec key iv data subs crypt skip b) as (? & _ & ?); done|].
  split; [intros p; by apply drmStripPKCS7_spec|].
  intros c1 c2 H1 H2. destruct (cachedAESBlock_ok c1 c2 key H1 H2) as [? ->]. split; [done|]. unfold newBlock. by rewrite Hb.
Qed.

Lemma incBlock_carry hi : length hi = 8%nat -> Forall is_byte hi -> incBlock (hi ++ beN 8 (2 ^ 64 - 1)) = beN 8 (be hi + 1) ++ beN 8 0.
Proof.
  intros Hh Bh. rewrite <- (beN_carry 8 8). rewrite <- (beN_be hi Bh) at 1. rewrite Hh. change (2 ^ 64) with (256 ^ Z.of_nat 8).
  rewrite <- beN_pair by lia. change (8 + 8)%nat with 16%nat. apply incBlock_beN.
Qed.


End Properties.

(** * Concrete runs *)

Definition wit_key : bytes := replicate 16 3.
Definition wit_iv : bytes := [1; 2; 3; 4; 5; 6; 7; 8].

(** Thirty-six bytes in two ranges that do not end with a cipher block. *)
Definition wit_data : bytes := replicate 36 200.
Definition wit_subs : list drmSubsample := [MkSub 2 5; MkSub 1 20].

Lemma wit_bytes : Forall is_byte wit_iv /\ Forall is_byte wit_data /\ Forall sub_ok wit_subs.
Proof.
  unfold is_byte, sub_ok, wit_iv, wit_data, wit_subs. split; [repeat constructor; discriminate|].
  split; [apply Forall_replicate; lia|]. repeat constructor; discriminate.
Qed.

Lemma modes_exact_witness :
  drmDecryptCTRSubsamples wit_key wit_iv wit_data wit_subs = (Ok tt, ctrReference (H := toyAES) wit_key wit_iv wit_data wit_subs) /\
  ctrReference (H := toyAES) wit_key wit_iv wit_data wit_subs !! 7%nat = Some 200.
Proof.
  destruct (modes_exact (H := toyAES) wit_key wit_iv wit_data wit_subs wit_key (proj1 wit_bytes) (proj1 (proj2 wit_bytes)) (proj2 (proj2 wit_bytes))
    eq_refl eq_refl) as (T1 & T2 & _). split; [exact T1|]. rewrite (T2 7%nat); [reflexivity|discriminate|]. cbv. discriminate.
Defined.

