(* ===== verification/Drm.v ===== *)
(** Decryption of media segments (internal/streamproxy/drm.go): the walk over the
    boxes of a fragmented MP4 segment, its fragments, tracks and samples, and the
    dispatch on the method.

    The segment is one buffer.  The box list is read once; what the code keeps as
    subslices of the buffer (payloads) is read from the buffer as it is at that
    moment.  A failed call returns the buffer as it leaves it. *)

From S2P Require Import Prelude GoStrings NetURL ProxyAuth ProxyURL ProxyServe Mp4 Mp4Print Cenc.

#[local] Open Scope go_scope.

Section Drm.
Context `{AES}.

(** * One sample *)

Definition cbcsMethod : bytes := bs "CBCS".

Definition decryptSample (method key : bytes) (tenc : drmTenc) (e : drmSencEntry) (data : bytes) : res unit * bytes :=
  if bool_decide (method = cbcsMethod) then
    let '(crypt, skip) := pattern tenc (bool_decide (e_Subsamples e <> [])) in
    drmDecryptCBCSubsamples key (e_IV e) data (e_Subsamples e) crypt skip
  else drmDecryptCTRSubsamples key (e_IV e) data (e_Subsamples e).

(** The size of a sample: its own, or the track's default for zero. *)
Definition sampleSize (tfhd : drmTfhd) (s : drmTrunSample) : Z :=
  if ts_Size s =? 0 then orZero (tf_defaultSampleSize tfhd) else ts_Size s.

(** * One track fragment *)

(** The samples from [pos] on; [mdat] is the media data. *)
Fixpoint samples_loop (method key : bytes) (tenc : drmTenc) (tfhd : drmTfhd) (samples : list drmTrunSample)
    (entries : list drmSencEntry) (pos : Z) (mdat : bytes) : res unit * bytes :=
  match samples with
  | [] => (Ok tt, mdat)
  | s :: samples =>
      let size := sampleSize tfhd s in
      if size =? 0 then samples_loop method key tenc tfhd samples (tail entries) pos mdat
      else if len mdat <? int64 (pos + size) then (Err EErr, mdat)
      else
        match entries with
        | [] => (Err EPanic, mdat)
        | e :: entries =>
            if len (e_IV e) =? 0 then (Err EErr, mdat)
            else
              match slice mdat pos (int64 (pos + size)) with
              | Err err => (Err err, mdat)
              | Ok data =>
                  let '(r, data) := decryptSample method key tenc e data in
                  let mdat := overwrite mdat (Z.to_nat pos) data in
                  match r with
                  | Err err => (Err err, mdat)
                  | Ok _ => samples_loop method key tenc tfhd samples entries (int64 (pos + size)) mdat
                  end
              end
        end
  end.

(** What the boxes of a traf say; a repeated box replaces the earlier one. *)
Record trafInfo := MkTraf {
  t_tfhd : option drmTfhd;
  t_trun : option (list drmTrunSample * Z);
  t_senc : option (list drmSencEntry)
}.

Fixpoint readTraf (iv : bytes) (tenc : drmTenc) (boxes : list drmBox) (t : trafInfo) : res trafInfo :=
  match boxes with
  | [] => Ok t
  | b :: boxes =>
      try! t :=
        (if bool_decide (b_Type b = bs "tfhd") then
           try! h := drmParseTfhd (b_Payload b) in Ok (MkTraf (Some h) (t_trun t) (t_senc t))
         else if bool_decide (b_Type b = bs "trun") then
           try! r := drmParseTrun (b_Payload b) in Ok (MkTraf (t_tfhd t) (Some r) (t_senc t))
         else if bool_decide (b_Type b = bs "senc") then
           try! es := drmParseSenc (b_Payload b) (ivFallback tenc iv) (ivSizeHint tenc) in Ok (MkTraf (t_tfhd t) (t_trun t) (Some es))
         else Ok t) in
      readTraf iv tenc boxes t
  end.

(** The absolute offset the data offset of a run counts from. *)
Definition baseOffset (tfhd : drmTfhd) (moofStart : Z) : Z :=
  match tf_baseDataOffset tfhd with Some base => int64 base | None => moofStart end.

Definition drmDecryptTraf (method key iv : bytes) (tenc : drmTenc) (trafBoxes : list drmBox) (moofStart : Z)
    (mdat : bytes) (mdatBodyStart : Z) : res unit * bytes :=
  match readTraf iv tenc trafBoxes (MkTraf None None None) with
  | Err e => (Err e, mdat)
  | Ok (MkTraf (Some tfhd) (Some (samples, dataOffset)) senc) =>
      match senc with
      | None => (Err EErr, mdat)
      | Some entries =>
          let sampleStart := int64 (int64 (baseOffset tfhd moofStart + dataOffset) - mdatBodyStart) in
          if sampleStart <? 0 then (Err EErr, mdat)
          else if negb (length entries =? length samples)%nat then (Err EErr, mdat)
          else samples_loop method key tenc tfhd samples entries sampleStart mdat
      end
  | Ok _ => (Ok tt, mdat)
  end.

(** * One fragment *)

(** The body of a box, read from the buffer. *)
Definition body (out : bytes) (start : Z) (b : drmBox) : res bytes :=
  slice out (start + b_Start b + b_HdrSize b) (start + b_Start b + b_Size b).

(** [f] on the bytes of [out] from [a] to [b]. *)
Definition inRange (out : bytes) (a b : Z) (f : bytes -> res unit * bytes) : res unit * bytes :=
  match slice out a b with
  | Err e => (Err e, out)
  | Ok s => let '(r, s) := f s in (r, overwrite out (Z.to_nat a) s)
  end.

(** The trafs of a moof whose body starts at [base]. *)
Fixpoint trafs_loop (method key iv : bytes) (tenc : drmTenc) (base moofStart mdatStart mdatEnd : Z)
    (children : list drmBox) (out : bytes) : res unit * bytes :=
  match children with
  | [] => (Ok tt, out)
  | child :: children =>
      if negb (bool_decide (b_Type child = bs "traf")) then trafs_loop method key iv tenc base moofStart mdatStart mdatEnd children out
      else
        match (try! payload := body out base child in drmParseBoxes payload) with
        | Err e => (Err e, out)
        | Ok trafBoxes =>
            let '(r, out) := inRange out mdatStart mdatEnd
              (fun mdat => drmDecryptTraf method key iv tenc trafBoxes moofStart mdat mdatStart) in
            match r with
            | Err e => (Err e, out)
            | Ok _ => trafs_loop method key iv tenc base moofStart mdatStart mdatEnd children out
            end
        end
  end.

Definition drmDecryptMoof (method key iv : bytes) (tenc : drmTenc) (moof : drmBox) (mdatStart mdatEnd : Z) (out : bytes) : res unit * bytes :=
  match (try! payload := body out 0 moof in drmParseBoxes payload) with
  | Err e => (Err e, out)
  | Ok children => trafs_loop method key iv tenc (b_Start moof + b_HdrSize moof) (b_Start moof) mdatStart mdatEnd children out
  end.

(** * One segment *)

Definition mdatStart (m : drmBox) : Z := b_Start m + b_HdrSize m.
Definition mdatEnd (m : drmBox) : Z := b_Start m + b_Size m.

Definition nextMdat (boxes : list drmBox) : option drmBox :=
  snd <$> list_find (fun b => b_Type b = bs "mdat") boxes.

(** Every moof with the mdat that follows. *)
Fixpoint moofs_loop (method key iv : bytes) (tenc : drmTenc) (boxes : list drmBox) (out : bytes) : res unit * bytes :=
  match boxes with
  | [] => (Ok tt, out)
  | b :: boxes =>
      if negb (bool_decide (b_Type b = bs "moof")) then moofs_loop method key iv tenc boxes out
      else
        match nextMdat boxes with
        | None => (Err EErr, out)
        | Some m =>
            match slice out (mdatStart m) (mdatEnd m) with
            | Err e => (Err e, out)
            | Ok _ =>
                let '(r, out) := drmDecryptMoof method key iv tenc b (mdatStart m) (mdatEnd m) out in
                match r with
                | Err e => (Err e, out)
                | Ok _ => moofs_loop method key iv tenc boxes out
                end
            end
        end
  end.

(** The plaintext, and the buffer the work was done in. *)
Definition decryptBuffer (method key iv out : bytes) : res bytes * bytes :=
  match drmParseBoxes out with
  | Err e => (Err e, out)
  | Ok boxes =>
      match drmFindTenc boxes with
      | Err e => (Err e, out)
      | Ok tenc =>
          let '(r, out) := moofs_loop method key iv tenc boxes out in
          match r with Err e => (Err e, out) | Ok _ => (Ok out, out) end
      end
  end.

(** The plaintext, and the segment afterwards: the buffer, or a copy of it. *)
Definition drmDecryptCENC (method key iv segment : bytes) (inPlace : bool) : res bytes * bytes :=
  let '(r, out) := decryptBuffer method key iv segment in
  (r, if inPlace then out else segment).

Definition drmDecryptBuf (p : DecryptParams) (segment : bytes) (inPlace : bool) : res bytes * bytes :=
  let method := TrimSpace (ToUpper (d_Method p)) in
  if bool_decide (method = []) then (Ok segment, segment)
  else if bool_decide (method = bs "AES-128") then
    if negb (len (d_Key p) =? 16) then (Err EErr, segment)
    else if negb (len (d_IV p) =? 16) then (Err EErr, segment)
    else drmCBC (d_Key p) (d_IV p) segment inPlace
  else if bool_decide (method = bs "SAMPLE-AES") then (Err EErr, segment)
  else if bool_decide (method ∈ [bs "CENC"; bs "CBCS"]) then
    if negb (len (d_Key p) =? 16) then (Err EErr, segment)
    else drmDecryptCENC method (d_Key p) (d_IV p) segment inPlace
  else (Err EErr, segment).

Definition drmDecrypt (p : DecryptParams) (segment : bytes) : res bytes * bytes := drmDecryptBuf p segment false.
Definition drmDecryptInPlace (p : DecryptParams) (segment : bytes) : res bytes * bytes := drmDecryptBuf p segment true.

End Drm.

(** * What a decryptor may do to its buffer *)

Section Drm_Proofs.
Context `{AESLaws}.

(** It keeps the length and the bytes, and does not panic. *)
Definition tame (data : bytes) (r : res unit * bytes) : Prop :=
  length (snd r) = length data /\ Forall is_byte (snd r) /\ fst r <> Err EPanic.

Lemma key_block key : len key = 16 -> exists b, NewCipher key = Some b.
Proof.
  intros Hk. destruct (proj2 (NewCipher_ok key)) as [b Hb]; [|by exists b]. unfold len in Hk. assert (length key = 16%nat) as -> by lia. set_solver.
Qed.

Lemma pattern_ok t h : tenc_ok t -> 0 <= fst (pattern t h) /\ 0 <= snd (pattern t h).
Proof.
  intros (Hc & Hs & _). unfold pattern. destruct (_ && _); [cbn; lia|]. unfold drmDefaultCryptBlocks, drmDefaultSkipBlocks. destruct h; cbn; lia.
Qed.

Lemma decryptSample_tame method key tenc e data : tenc_ok tenc -> entry_ok e -> Forall is_byte data ->
  tame data (decryptSample method key tenc e data).
Proof.
  intros Ht [Hi Hs] Hd. unfold decryptSample. case_bool_decide.
  - destruct (pattern_ok tenc (bool_decide (e_Subsamples e <> [])) Ht) as [Hc Hk].
    destruct (pattern tenc _) as [crypt skip]. cbn [fst snd] in *.
    destruct (Z.eqb_spec (len key) 16) as [Hkey|Hkey].
    2: { unfold drmDecryptCBCSubsamples. rewrite (proj2 (Z.eqb_neq _ _) Hkey). done. }
    destruct (key_block key Hkey) as [b Hb].
    destruct (drmDecryptCBCSubsamples_spec key (e_IV e) data (e_Subsamples e) crypt skip b) as (Hl & Hb' & Hr); [done..|]. cbv zeta in *.
    split; [done|]. split; [done|]. destruct (_ <=? _); by rewrite Hr.
  - destruct (Z.eqb_spec (len key) 16) as [Hkey|Hkey].
    2: { unfold drmDecryptCTRSubsamples. rewrite (proj2 (Z.eqb_neq _ _) Hkey). done. }
    destruct (key_block key Hkey) as [b Hb]. rewrite (drmDecryptCTRSubsamples_eq key (e_IV e) data (e_Subsamples e) b) by done.
    split; [apply length_ctrReference|]. split; [by apply ctrReference_bytes|done].
Qed.

(** ** Writing a part of a buffer *)

Lemma overwrite_ok out off run : (off + length run <= length out)%nat -> Forall is_byte out -> Forall is_byte run ->
  length (overwrite out off run) = length out /\ Forall is_byte (overwrite out off run) /\
  forall i, (i < off \/ off + length run <= i)%nat -> overwrite out off run !! i = out !! i.
Proof.
  intros Hl Ho Hr. unfold overwrite. split; [rewrite !length_app, length_take, length_drop; lia|]. split.
  { rewrite !Forall_app. split; [by apply Forall_take|]. split; [done|by apply Forall_drop]. }
  intros i Hi. assert (length (take off out) = off) as E by (rewrite length_take; lia). destruct Hi as [Hi|Hi].
  - rewrite lookup_app_l by lia. by apply lookup_take_lt.
  - rewrite lookup_app_r by lia. rewrite lookup_app_r by lia. rewrite lookup_drop. f_equal. lia.
Qed.

(** ** Tracks *)

Lemma int64_small z : - 2 ^ 63 <= z < 2 ^ 63 -> int64 z = z.
Proof. apply int64_id. Qed.

Lemma sampleSize_bound tfhd s : tfhd_ok tfhd -> sample_ok s -> 0 <= sampleSize tfhd s < 2 ^ 32.
Proof.
  intros [_ Ht] Hs. unfold sampleSize. destruct (_ =? 0); [|done]. by apply orZero_bound.
Qed.

Lemma slice_backwards p a b : b < a -> slice p a b = Err EPanic.
Proof. intros Hb. unfold slice. rewrite (proj2 (Z.leb_gt a b)) by done. by rewrite andb_false_r. Qed.

Lemma int64_wrapped z : 2 ^ 63 <= z < 2 ^ 64 -> int64 z = z - 2 ^ 64.
Proof.
  intros Hz. unfold int64, wrapS. change (2 ^ (64 - 1)) with (2 ^ 63).
  assert ((z + 2 ^ 63) mod 2 ^ 64 = z + 2 ^ 63 - 2 ^ 64) as -> by (symmetry; apply Z.mod_unique with 1; lia). lia.
Qed.

Lemma samples_loop_ok method key tenc tfhd samples entries pos mdat : tenc_ok tenc -> tfhd_ok tfhd -> Forall sample_ok samples -> Forall entry_ok entries ->
  length entries = length samples -> Forall is_byte mdat -> len mdat < 2 ^ 62 -> 0 <= pos < 2 ^ 63 ->
  let r := samples_loop method key tenc tfhd samples entries pos mdat in
  length (snd r) = length mdat /\ Forall is_byte (snd r) /\ (pos < 2 ^ 63 - 2 ^ 32 -> fst r <> Err EPanic).
Proof.
  intros Ht Hf Hs. revert entries pos mdat. induction Hs as [|s samples Hs _ IH]; intros entries pos mdat He Hlen Hm Hml Hp; cbv zeta; [done|].
  cbn [samples_loop]. cbv zeta. pose proof (sampleSize_bound tfhd s Hf Hs) as Hz. set (size := sampleSize tfhd s) in *.
  destruct entries as [|e entries]; [done|]. apply Forall_cons in He as [He Hes]. cbn [tail length] in *.
  destruct (size =? 0); [apply IH; done || lia|]. destruct (len mdat <? int64 (pos + size)) eqn:Eb; [done|]. apply Z.ltb_ge in Eb.
  destruct (len (e_IV e) =? 0); [done|]. destruct (Z.lt_ge_cases (pos + size) (2 ^ 63)) as [Hno|Hover].
  2: { rewrite slice_backwards by (rewrite int64_wrapped by lia; lia). split; [done|]. split; [done|]. lia. }
  rewrite int64_small in * by lia. destruct (slice_ok mdat pos (pos + size)) as (data & E & _ & El); [lia..|]. rewrite E.
  assert (Forall is_byte data) as Hd by (by eapply slice_bytes).
  destruct (decryptSample_tame method key tenc e data Ht He Hd) as (L & B & N). destruct (decryptSample _ _ _ _ _) as [r data']. cbn [fst snd] in *.
  destruct (overwrite_ok mdat (Z.to_nat pos) data') as (L' & B' & _); [unfold len in *; lia|done..|].
  destruct r as [[]|err]; [|done]. assert (len (overwrite mdat (Z.to_nat pos) data') = len mdat) as E' by (unfold len; lia).
  destruct (IH entries (pos + size) (overwrite mdat (Z.to_nat pos) data')) as (L2 & B2 & N2); [done|lia|done|lia|lia|]. split; [lia|].
  split; [done|]. intros _. apply N2. lia.
Qed.

(** No base data offset so large that the sum with a data offset wraps. *)
Definition small_base (t : drmTfhd) : bool := match tf_baseDataOffset t with Some v => v <? 2 ^ 62 | None => true end.

Definition trafInfo_ok (t : trafInfo) : Prop :=
  match t_tfhd t with Some h => tfhd_ok h | None => True end /\
  match t_trun t with Some r => Forall sample_ok (fst r) /\ - 2 ^ 31 <= snd r < 2 ^ 31 | None => True end /\
  match t_senc t with Some es => Forall entry_ok es | None => True end.

(** The track header a fragment uses is one of its boxes. *)
Definition tfhd_from (boxes : list drmBox) (t : drmTfhd) : Prop :=
  exists b, b ∈ boxes /\ b_Type b = bs "tfhd" /\ drmParseTfhd (b_Payload b) = Ok t.

Lemma readTraf_sat iv tenc boxes t : Forall is_byte iv -> tenc_ok tenc -> Forall (fun x => Forall is_byte (b_Payload x)) boxes -> trafInfo_ok t ->
  sat (readTraf iv tenc boxes t) (fun t' => trafInfo_ok t' /\ forall h, t_tfhd t' = Some h -> t_tfhd t = Some h \/ tfhd_from boxes h).
Proof.
  intros Hiv Ht Hb. revert t. induction Hb as [|b boxes Hb _ IH]; intros t Hok; cbn [readTraf]; [split; [done|by left]|].
  assert (forall t1, trafInfo_ok t1 -> (forall h, t_tfhd t1 = Some h -> t_tfhd t = Some h \/ tfhd_from (b :: boxes) h) ->
    sat (readTraf iv tenc boxes t1) (fun t' => trafInfo_ok t' /\ forall h, t_tfhd t' = Some h -> t_tfhd t = Some h \/ tfhd_from (b :: boxes) h)) as Hgo.
  { intros t1 Hok1 H1. eapply sat_mono; [by apply IH|]. intros t' [Hok' Hh]. split; [done|]. intros h Eh. apply Hh in Eh as [Eh|(b' & Hin & ?)]; [by apply H1|].
    right. exists b'. split; [set_solver|done]. }
  destruct Hok as (O1 & O2 & O3).
  case_bool_decide as E1.
  { pose proof (drmParseTfhd_sat _ Hb) as Hs. destruct (drmParseTfhd (b_Payload b)) as [h|[]] eqn:Eh; cbn [result_bind]; [|done..].
    apply Hgo; [by split|]. cbn. intros h' [= <-]. right. exists b. split; [set_solver|done]. }
  case_bool_decide as E2.
  { pose proof (drmParseTrun_sat _ Hb) as Hs. destruct (drmParseTrun (b_Payload b)) as [r|[]]; cbn [result_bind]; [|done..].
    apply Hgo; [by split|]. cbn. by left. }
  case_bool_decide as E3.
  { pose proof (drmParseSenc_sat (b_Payload b) (ivFallback tenc iv) (ivSizeHint tenc) Hb) as Hs.
    assert (Forall is_byte (ivFallback tenc iv)) as Hf by (unfold ivFallback; destruct (_ && _); [apply Ht|done]). specialize (Hs Hf).
    destruct (drmParseSenc _ _ _) as [es|[]]; cbn [result_bind]; [|done..]. apply Hgo; [by split|]. cbn. by left. }
  cbn [result_bind]. apply Hgo; [by split|by left].
Qed.

Lemma drmDecryptTraf_tame method key iv tenc boxes moofStart mdat start : Forall is_byte iv -> tenc_ok tenc ->
  Forall (fun x => Forall is_byte (b_Payload x)) boxes -> Forall is_byte mdat -> len mdat < 2 ^ 62 -> 0 <= moofStart < 2 ^ 62 -> 0 <= start < 2 ^ 62 ->
  let r := drmDecryptTraf method key iv tenc boxes moofStart mdat start in
  length (snd r) = length mdat /\ Forall is_byte (snd r) /\ (fst r = Err EPanic -> exists t, tfhd_from boxes t /\ small_base t = false).
Proof.
  intros Hiv Ht Hb Hm Hl Hmo Hst. cbv zeta. unfold drmDecryptTraf.
  pose proof (readTraf_sat iv tenc boxes (MkTraf None None None) Hiv Ht Hb) as Hr. specialize (Hr ltac:(done)).
  destruct (readTraf _ _ _ _) as [[[tfhd|] [[samples off]|] senc]|[]]; cbn [sat] in Hr; try done.
  destruct Hr as [(Ho1 & [Ho2 Ho2'] & Ho3) Hfrom]. cbn [t_tfhd t_trun t_senc fst snd] in *. destruct senc as [entries|]; [|done]. cbv zeta.
  destruct (_ <? 0) eqn:E0; [done|]. apply Z.ltb_ge in E0. destruct (length entries =? length samples)%nat eqn:El; [|done]. apply Nat.eqb_eq in El. cbn [negb].
  pose proof (int64_range (int64 (baseOffset tfhd moofStart + off) - start)) as Hir. unfold in_int64 in Hir.
  destruct (samples_loop_ok method key tenc tfhd samples entries (int64 (int64 (baseOffset tfhd moofStart + off) - start)) mdat)
    as (L & B & N); [done..|lia|]. split; [done|]. split; [done|]. intros Hpanic.
  assert (tfhd_from boxes tfhd) as Hin by (by destruct (Hfrom tfhd eq_refl)).
  exists tfhd. split; [done|]. destruct (small_base tfhd) eqn:Hsmall; [exfalso|done]. revert Hpanic. apply N.
  assert (0 <= baseOffset tfhd moofStart < 2 ^ 62) as Hbase; [|rewrite !int64_small by (rewrite ?int64_small; lia); lia].
  unfold baseOffset. unfold small_base in Hsmall. destruct Ho1 as [Ho1 _]. destruct (tf_baseDataOffset tfhd) as [v|]; [|lia].
  apply Z.ltb_lt in Hsmall. rewrite int64_small; lia.
Qed.

(** ** Fragments *)

(** Two buffers that agree outside [a, b). *)
Definition sameOutside (a b : Z) (out out' : bytes) : Prop :=
  length out' = length out /\ forall i : nat, Z.of_nat i < a \/ b <= Z.of_nat i -> out' !! i = out !! i.

#[local] Instance sameOutside_preorder a b : PreOrder (sameOutside a b).
Proof.
  split; [by intros out|]. intros x y z [L1 E1] [L2 E2]. split; [congruence|]. intros i Hi. rewrite E2, E1 by done. done.
Qed.

Lemma inRange_ok out a b f : Forall is_byte out -> 0 <= a <= b -> b <= len out ->
  exists s, slice out a b = Ok s /\ Forall is_byte s /\ len s = b - a /\ fst (inRange out a b f) = fst (f s) /\
    (length (snd (f s)) = length s -> Forall is_byte (snd (f s)) ->
     Forall is_byte (snd (inRange out a b f)) /\ sameOutside a b out (snd (inRange out a b f))).
Proof.
  intros Ho Ha Hb. destruct (slice_ok out a b Ha Hb) as (s & E & _ & El). exists s. unfold inRange. rewrite E.
  destruct (f s) as [r s']. cbn [fst snd]. split; [done|]. split; [by eapply slice_bytes|]. split; [lia|]. split; [done|].
  intros Hl Hs. unfold len in *. destruct (overwrite_ok out (Z.to_nat a) s') as (L & B & R); [lia|done..|].
  split; [done|]. split; [done|]. intros i Hi. apply R. lia.
Qed.

(** A fragment of [out] whose track header has a base data offset from 2^62 on. *)
Definition bigBase (out : bytes) (base : Z) (children : list drmBox) : Prop :=
  exists child payload trafBoxes t, child ∈ children /\ body out base child = Ok payload /\ drmParseBoxes payload = Ok trafBoxes /\
    tfhd_from trafBoxes t /\ small_base t = false.

Lemma body_ok out start b payload : 0 <= start -> start + len payload <= len out -> box_in payload 0 b ->
  exists s, body out start b = Ok s.
Proof.
  intros Hs Hl (H1 & H2 & H3 & _). unfold body. destruct (slice_ok out (start + b_Start b + b_HdrSize b) (start + b_Start b + b_Size b)) as (s & E & _); [lia..|].
  by exists s.
Qed.

Lemma sameOutside_len a b out out' : sameOutside a b out out' -> len out' = len out.
Proof. intros [E _]. unfold len. by rewrite E. Qed.

Lemma trafs_loop_ok method key iv tenc base moofStart ms me payload children out : Forall is_byte iv -> tenc_ok tenc ->
  Forall is_byte out -> len out < 2 ^ 62 -> 0 <= moofStart < 2 ^ 62 -> 0 <= ms <= me -> me <= len out ->
  0 <= base -> base + len payload <= len out -> Forall (box_in payload 0) children ->
  let r := trafs_loop method key iv tenc base moofStart ms me children out in
  Forall is_byte (snd r) /\ sameOutside ms me out (snd r) /\
  (fst r = Err EPanic -> exists out', sameOutside ms me out out' /\ bigBase out' base children).
Proof.
  intros Hiv Ht Ho Hl Hmo Hms Hme Hb0 Hb Hc. revert out Ho Hl Hme Hb. induction Hc as [|child children Hc _ IH]; intros out Ho Hl Hme Hb; cbv zeta; [done|].
  assert (forall out', sameOutside ms me out out' -> bigBase out' base children -> bigBase out' base (child :: children)) as Hbig.
  { intros out' _ (c & p & tb & t & Hin & ?). exists c, p, tb, t. split; [set_solver|done]. }
  cbn [trafs_loop]. destruct (bool_decide _) eqn:Ety; cbn [negb].
  2: { destruct (IH out) as (B & S & P); [done..|]. split; [done|]. split; [done|]. intros E. destruct (P E) as (out' & ? & ?). exists out'. split; [done|by apply Hbig]. }
  destruct (body_ok out base child payload Hb0 Hb Hc) as [s Es]. rewrite Es. cbn [result_bind].
  assert (Forall is_byte s) as Hs by (by eapply slice_bytes).
  pose proof (drmParseBoxes_bytes s Hs) as Hpb. destruct (drmParseBoxes s) as [trafBoxes|[]] eqn:Ep; cbn [sat] in Hpb; [|done..].
  match goal with |- context [inRange out ms me ?f] => destruct (inRange_ok out ms me f Ho Hms Hme) as (mdat & Em & Bm & Lm & Ef & Hk) end.
  destruct (drmDecryptTraf_tame method key iv tenc trafBoxes moofStart mdat ms) as (L & B & P); [done..|lia|lia|lia|].
  destruct (Hk L B) as [B' S']. clear Hk. destruct (inRange _ _ _ _) as [r out1]. cbn [fst snd] in *. subst r.
  destruct (fst (drmDecryptTraf _ _ _ _ _ _ _ _)) as [[]|err] eqn:Er.
  - pose proof (sameOutside_len _ _ _ _ S') as El.
    destruct (IH out1) as (B2 & S2 & P2); [done|lia..|]. split; [done|]. split; [by etransitivity|].
    intros E. destruct (P2 E) as (out' & So & ?). exists out'. split; [by etransitivity|apply Hbig; [by etransitivity|done]].
  - split; [done|]. split; [done|]. cbn [fst]. intros [= ->]. exists out. split; [done|].
    destruct (P eq_refl) as (t & Hfrom & Hbig'). exists child, s, trafBoxes, t. split; [set_solver|done].
Qed.

(** The track headers of a fragment, as the walk over its trafs meets them: the
    list of children is read before the walk, a child when its turn comes. *)
Definition fragmentBigBase (before now : bytes) (moof : drmBox) : Prop :=
  exists payload children, body before 0 moof = Ok payload /\ drmParseBoxes payload = Ok children /\
    bigBase now (b_Start moof + b_HdrSize moof) children.

(** A box lies in a buffer of [n] bytes. *)
Definition within (n : Z) (b : drmBox) : Prop :=
  0 <= b_Start b /\ 8 <= b_HdrSize b <= b_Size b /\ b_Start b + b_Size b <= n.

Lemma box_in_within out b : box_in out 0 b -> within (len out) b.
Proof. intros (H1 & H2 & H3 & _). split; [lia|]. split; [done|lia]. Qed.

Lemma drmDecryptMoof_ok method key iv tenc moof ms me out : Forall is_byte iv -> tenc_ok tenc ->
  Forall is_byte out -> len out < 2 ^ 62 -> 0 <= ms <= me -> me <= len out -> within (len out) moof ->
  let r := drmDecryptMoof method key iv tenc moof ms me out in
  Forall is_byte (snd r) /\ sameOutside ms me out (snd r) /\
  (fst r = Err EPanic -> exists out', sameOutside ms me out out' /\ fragmentBigBase out out' moof).
Proof.
  intros Hiv Ht Ho Hl Hms Hme (H1 & H2 & H3). cbv zeta. unfold drmDecryptMoof, fragmentBigBase, body.
  destruct (slice_ok out (0 + b_Start moof + b_HdrSize moof) (0 + b_Start moof + b_Size moof)) as (s & E & _ & El); [lia..|]. rewrite E. cbn [result_bind].
  assert (Forall is_byte s) as Hs by (by eapply slice_bytes).
  pose proof (drmParseBoxes_sat s Hs) as Hpb. destruct (drmParseBoxes s) as [children|[]] eqn:Ep; cbn [sat] in Hpb; [|done..].
  destruct (trafs_loop_ok method key iv tenc (b_Start moof + b_HdrSize moof) (b_Start moof) ms me s children out) as (B & S & P); [(done || lia)..|].
  split; [done|]. split; [done|]. intros Hp. destruct (P Hp) as (out' & ? & ?). exists out'. split; [done|]. by exists s, children.
Qed.

(** ** Segments *)

(** Two buffers that agree on every byte that is in no mdat body of [boxes]. *)
Definition sameOutsideMdats (boxes : list drmBox) (out out' : bytes) : Prop :=
  length out' = length out /\
  forall i : nat, (forall m, m ∈ boxes -> b_Type m = bs "mdat" -> Z.of_nat i < mdatStart m \/ mdatEnd m <= Z.of_nat i) -> out' !! i = out !! i.

#[local] Instance sameOutsideMdats_preorder boxes : PreOrder (sameOutsideMdats boxes).
Proof.
  split; [by intros out|]. intros x y z [L1 E1] [L2 E2]. split; [congruence|]. intros i Hi. rewrite E2, E1 by done. done.
Qed.

Lemma sameOutside_mdat boxes m out out' : m ∈ boxes -> b_Type m = bs "mdat" -> sameOutside (mdatStart m) (mdatEnd m) out out' -> sameOutsideMdats boxes out out'.
Proof. intros Hm Ht [L E]. split; [done|]. intros i Hi. by apply E, Hi. Qed.

Lemma nextMdat_in boxes m : nextMdat boxes = Some m -> m ∈ boxes /\ b_Type m = bs "mdat".
Proof.
  unfold nextMdat. destruct (list_find _ boxes) as [[i b]|] eqn:E; [|done]. intros [= <-]. apply list_find_Some in E as (Hi & Ht & _).
  split; [by eapply list_elem_of_lookup_2|done].
Qed.

Lemma sameOutsideMdats_len boxes out out' : sameOutsideMdats boxes out out' -> len out' = len out.
Proof. intros [E _]. unfold len. by rewrite E. Qed.

Lemma moofs_loop_ok method key iv tenc all boxes out : Forall is_byte iv -> tenc_ok tenc ->
  Forall is_byte out -> len out < 2 ^ 62 -> Forall (within (len out)) boxes -> boxes ⊆ all ->
  let r := moofs_loop method key iv tenc boxes out in
  Forall is_byte (snd r) /\ sameOutsideMdats all out (snd r) /\
  (fst r = Err EPanic -> exists moof before now, moof ∈ all /\ sameOutsideMdats all out before /\ sameOutsideMdats all out now /\
    fragmentBigBase before now moof).
Proof.
  intros Hiv Ht Ho Hl Hb. revert out Ho Hl Hb. induction boxes as [|b boxes IH]; intros out Ho Hl Hb Hsub; cbv zeta; [done|].
  apply Forall_cons in Hb as [Hb Hbs]. assert (boxes ⊆ all) as Hsub' by set_solver. cbn [moofs_loop].
  destruct (bool_decide _); cbn [negb]; [|by apply IH]. destruct (nextMdat boxes) as [m|] eqn:Em; [|done].
  apply nextMdat_in in Em as [Hm Hty]. assert (within (len out) m) as Hw by by eapply Forall_forall. destruct Hw as (W1 & W2 & W3).
  destruct (slice_ok out (mdatStart m) (mdatEnd m)) as (s & -> & _); [unfold mdatStart, mdatEnd; lia|unfold mdatEnd; lia|].
  destruct (drmDecryptMoof_ok method key iv tenc b (mdatStart m) (mdatEnd m) out) as (B & S & P); [done..|unfold mdatStart, mdatEnd; lia|unfold mdatEnd; lia|done|].
  destruct (drmDecryptMoof _ _ _ _ _ _ _ _) as [r out1]. cbn [fst snd] in *.
  assert (m ∈ all) as Hma by set_solver. pose proof (sameOutside_mdat all m _ _ Hma Hty S) as S'.
  destruct r as [[]|err].
  - pose proof (sameOutsideMdats_len _ _ _ S') as El. destruct (IH out1) as (B2 & S2 & P2); [done|lia|by rewrite El|done|].
    split; [done|]. split; [by etransitivity|]. intros E. destruct (P2 E) as (mo & x & y & ? & ? & ? & ?).
    exists mo, x, y. split; [done|]. split; [by etransitivity|]. split; [by etransitivity|done].
  - split; [done|]. split; [done|]. intros [= ->]. destruct (P eq_refl) as (y & Sy & Hy). exists b, out, y.
    split; [set_solver|]. split; [done|]. split; [by apply (sameOutside_mdat all m)|done].
Qed.

(** The walk over a whole segment. *)
Lemma decryptBuffer_ok method key iv segment : Forall is_byte iv -> Forall is_byte segment -> len segment < 2 ^ 62 ->
  let r := decryptBuffer method key iv segment in
  Forall is_byte (snd r) /\ (forall p, fst r = Ok p -> p = snd r) /\
  match drmParseBoxes segment with
  | Ok boxes => sameOutsideMdats boxes segment (snd r) /\
      (fst r = Err EPanic -> exists moof before now, moof ∈ boxes /\ sameOutsideMdats boxes segment before /\
        sameOutsideMdats boxes segment now /\ fragmentBigBase before now moof)
  | Err _ => r = (Err EErr, segment)
  end.
Proof.
  intros Hiv Hs Hl. cbv zeta. unfold decryptBuffer. pose proof (drmParseBoxes_sat segment Hs) as Hb.
  pose proof (drmParseBoxes_bytes segment Hs) as Hbb. destruct (drmParseBoxes segment) as [boxes|[]]; cbn [sat] in Hb, Hbb; [|done..].
  pose proof (drmFindTenc_sat boxes Hbb) as Ht. destruct (drmFindTenc boxes) as [tenc|[]]; cbn [sat] in Ht; [|done..].
  assert (Forall (within (len segment)) boxes) as Hw by (eapply Forall_impl; [exact Hb|]; apply box_in_within).
  destruct (moofs_loop_ok method key iv tenc boxes boxes segment) as (B & S & P); [done..|].
  destruct (moofs_loop _ _ _ _ _ _) as [[[]|err] out]; cbn [fst snd] in *; (split; [done|]); (split; [by intros ? [=]|]); (split; [done|]); [done|].
  intros [= ->]. by apply P.
Qed.

End Drm_Proofs.

(** * Properties *)

Section Properties.
Context `{AESLaws}.

Lemma drmStripPKCS7_no_panic b : drmStripPKCS7 b <> Err EPanic.
Proof. unfold drmStripPKCS7. destruct (last b); [|done]. destruct (_ || _); [done|]. destruct (_ <? _); [done|]. cbv zeta. by destruct (forallb _ _). Qed.

Lemma drmCBC_ok key iv data inPlace : Forall is_byte iv -> Forall is_byte data ->
  fst (drmCBC key iv data inPlace) <> Err EPanic /\ length (snd (drmCBC key iv data inPlace)) = length data /\
  fst (drmCBC key iv data true) = fst (drmCBC key iv data false) /\ snd (drmCBC key iv data false) = data.
Proof.
  intros Hi Hd. unfold drmCBC. destruct (Z.eqb_spec (len key) 16) as [Hk|]; cbn [negb]; [|done].
  destruct (Z.eqb_spec (len iv) 16) as [Hl|]; cbn [negb]; [|done]. destruct (_ =? 0); [done|]. destruct (Z.eqb_spec (len data mod 16) 0) as [Hm|]; cbn [negb]; [|done].
  destruct (key_block key Hk) as [b Hb]. unfold newBlock. rewrite Hb. cbv zeta. cbn [fst snd]. split; [apply drmStripPKCS7_no_panic|].
  split; [|done]. destruct inPlace; [|done]. unfold len in *. assert (length data mod 16 = 0)%nat as Hm' by (apply Nat2Z.inj; by rewrite Nat2Z.inj_mod).
  assert (is_block iv) as HI by (split; [lia|done]). rewrite CryptBlocks_chain by done. by apply chainRange_ok; [apply decStep_ok|..].
Qed.

Definition isCENC (p : DecryptParams) : Prop := TrimSpace (ToUpper (d_Method p)) ∈ [bs "CENC"; bs "CBCS"].

(** C13: Decrypting any bytes with any key and IV changes nothing but media data.  In
    place and in a copy give the same result; the copy leaves the segment alone.  With
    cenc and cbcs every byte outside the mdat bodies of the segment's own box list is
    kept, in the result and in a buffer a failed call leaves half decrypted, and so is
    the length.  A panic is only possible when a track header of some fragment has a
    base data offset of 2^62 or more; with AES-128 it is not. *)
Theorem decryption_confined p segment inPlace : Forall is_byte segment -> Forall is_byte (d_IV p) -> len segment < 2 ^ 62 ->
  let r := drmDecryptBuf p segment inPlace in
  fst (drmDecryptBuf p segment true) = fst (drmDecryptBuf p segment false) /\ snd (drmDecryptBuf p segment false) = segment /\
  length (snd r) = length segment /\ (fst r = Err EPanic -> isCENC p) /\
  (isCENC p -> forall boxes, drmParseBoxes segment = Ok boxes ->
     sameOutsideMdats boxes segment (snd r) /\ (forall out, fst r = Ok out -> sameOutsideMdats boxes segment out) /\
     (fst r = Err EPanic -> exists moof before now, moof ∈ boxes /\ sameOutsideMdats boxes segment before /\
        sameOutsideMdats boxes segment now /\ fragmentBigBase before now moof)) /\
  (isCENC p -> drmParseBoxes segment = Err EErr -> fst r = Err EErr).
Proof.
  intros Hs Hi Hl. cbv zeta. unfold drmDecryptBuf, isCENC. set (m := TrimSpace (ToUpper (d_Method p))).
  case_bool_decide as E1; [rewrite E1; assert (~ [] ∈ [bs "CENC"; bs "CBCS"]) as Hno by by_decide; by split_and!|].
  case_bool_decide as E2.
  { rewrite E2. assert (~ bs "AES-128" ∈ [bs "CENC"; bs "CBCS"]) as Hno by by_decide.
    destruct (negb (len (d_Key p) =? 16)); [by split_and!|]. destruct (negb (len (d_IV p) =? 16)); [by split_and!|].
    destruct (drmCBC_ok (d_Key p) (d_IV p) segment inPlace Hi Hs) as (N & L & Es & Ed). by split_and!. }
  case_bool_decide as E3; [rewrite E3; assert (~ bs "SAMPLE-AES" ∈ [bs "CENC"; bs "CBCS"]) as Hno by by_decide; by split_and!|].
  case_bool_decide as E4; [|by split_and!].
  destruct (negb (len (d_Key p) =? 16)); [split_and!; try done; intros _ boxes _; split_and!; done|].
  unfold drmDecryptCENC. pose proof (decryptBuffer_ok m (d_Key p) (d_IV p) segment Hi Hs Hl) as (B & O & P).
  destruct (decryptBuffer m (d_Key p) (d_IV p) segment) as [r out]. cbn [fst snd] in *. split; [done|]. split; [done|].
  destruct (drmParseBoxes segment) as [boxes|e] eqn:Eb.
  - destruct P as [S P]. split; [destruct inPlace; [apply S|done]|]. split; [done|]. split; [|done]. intros _ ? [= <-].
    split; [by destruct inPlace|]. split; [|exact P]. intros x Hx. by rewrite (O x Hx).
  - injection P as -> ->. split; [by destruct inPlace|]. by split_and!.
Qed.

End Properties.

(** A segment whose track header has the base data offset 2^63: the offset of its
    sample wraps to a huge position, the end of the sample to a negative one, the
    check against the media data passes and the slice expression panics. *)
Definition wit_tfhd : tfhdBox := MkTfhdBox 0 1 (Some (2 ^ 63)) None None None None false false.
Definition wit_trun : trunBox := MkTrunBox 0 None None false true false false [MkSample 0 (2 ^ 32 - 1) 0 0].
Definition wit_leaf (ty : string) (payload : bytes) (rest : forest) : forest := FLeaf false (bs ty) [] payload rest.
Definition wit_forest : forest :=
  FNode false (bs "moof") (FNode false (bs "traf")
      (wit_leaf "tfhd" (printTfhd wit_tfhd) (wit_leaf "trun" (printTrun wit_trun)
        (wit_leaf "senc" (printSenc 0 false [MkEntry (replicate 8 5) []]) (FEnd [])))) (FEnd []))
    (wit_leaf "mdat" [1; 2; 3; 4] (FEnd [])).
Definition wit_panic : bytes := print wit_forest.
Definition wit_params : DecryptParams := MkDecrypt (bs "cenc") (replicate 16 3) [] [].

Lemma wit_panic_bytes : Forall is_byte wit_panic.
Proof. unfold is_byte. by_decide. Qed.

Lemma wit_panic_boxes : drmParseBoxes wit_panic = Ok (boxesOf 0 wit_forest).
Proof. reflexivity. Qed.

Lemma wit_panic_run : fst (drmDecryptBuf (H := toyAES) wit_params wit_panic true) = Err EPanic.
Proof. reflexivity. Qed.

Lemma decryption_confined_witness :
  fst (drmDecryptBuf (H := toyAES) wit_params wit_panic true) = Err EPanic /\
  exists moof before now, moof ∈ boxesOf 0 wit_forest /\ length before = length wit_panic /\ fragmentBigBase before now moof.
Proof.
  split; [exact wit_panic_run|]. assert (isCENC wit_params) as Hc by by_decide.
  pose proof (decryption_confined (H := toyAES) (H0 := toyLaws) wit_params wit_panic true wit_panic_bytes (Forall_nil_2 _) eq_refl) as (_ & _ & _ & _ & T & _).
  destruct (T Hc _ wit_panic_boxes) as (_ & _ & T'). destruct (T' wit_panic_run) as (moof & before & now & T1 & T2 & _ & T4).
  exists moof, before, now. exact (conj T1 (conj (proj1 T2) T4)).
Defined.
