(* ===== verification/Packager.v ===== *)
(** An encrypting packager, and that the decryptor undoes it.

    The packager writes what a fragmented-MP4 packager does: after any leading boxes,
    fragments of a moof and its mdat; in every moof a traf for each track run, with
    tfhd, senc and trun; in the mdat the samples, run after run, encrypted as cenc or
    cbcs says.  The data offsets are computed. *)

From S2P Require Import Prelude GoStrings SegCache NetURL ProxyAuth ProxyURL ProxyServe Mp4 Mp4Print Cenc Drm.

#[local] Open Scope go_scope.

Record sample := MkSmp { p_data : bytes; p_iv : bytes; p_subs : list drmSubsample }.
Record run := MkRun { u_track : Z; u_ivSize : Z; u_hasSubs : bool; u_samples : list sample }.

(** [g] behind the boxes of [f], whose end holds no junk. *)
Fixpoint graft (f g : forest) : forest :=
  match f with
  | FEnd _ => g
  | FLeaf large ty ut payload rest => FLeaf large ty ut payload (graft rest g)
  | FNode large ty kids rest => FNode large ty kids (graft rest g)
  end.

(** The buffer ends with its last box. *)
Fixpoint tight (f : forest) : Prop :=
  match f with
  | FEnd junk => junk = []
  | FLeaf _ _ _ _ rest => tight rest
  | FNode _ _ _ rest => tight rest
  end.

Definition runTfhd (u : run) : tfhdBox := MkTfhdBox 0 (u_track u) None None None None None false true.

Definition runSample (s : sample) : drmTrunSample := MkSample 0 (len (p_data s)) 0 0.

Definition runTrun (off : Z) (u : run) : trunBox := MkTrunBox 0 (Some off) None false true false false (runSample <$> u_samples u).

Definition entryOf (s : sample) : drmSencEntry := MkEntry (p_iv s) (p_subs s).

Definition leaf (ty : string) (payload : bytes) (rest : forest) : forest := FLeaf false (bs ty) [] payload rest.

Definition runKids (off : Z) (u : run) : forest :=
  leaf "tfhd" (printTfhd (runTfhd u)) (leaf "senc" (printSenc 0 (u_hasSubs u) (entryOf <$> u_samples u))
    (leaf "trun" (printTrun (runTrun off u)) (FEnd []))).

(** What a run takes in the mdat; [f] is what is stored of a sample. *)
Definition runData (f : sample -> bytes) (u : run) : bytes := concat (f <$> u_samples u).
Definition mediaData (f : sample -> bytes) (us : list run) : bytes := concat (runData f <$> us).

Fixpoint trafsForest (off : Z) (us : list run) : forest :=
  match us with
  | [] => FEnd []
  | u :: us => FNode false (bs "traf") (runKids off u) (trafsForest (off + len (runData p_data u)) us)
  end.

(** The size of the moof does not depend on the offsets in it. *)
Definition moofSize (us : list run) : Z := 8 + len (print (trafsForest 0 us)).

Definition fragment (f : sample -> bytes) (us : list run) (rest : forest) : forest :=
  FNode false (bs "moof") (trafsForest (moofSize us + 8) us) (leaf "mdat" (mediaData f us) rest).

Definition fragments (f : sample -> bytes) (frs : list (list run)) : forest := foldr (fragment f) (FEnd []) frs.

Definition segment (f : sample -> bytes) (lead : forest) (frs : list (list run)) : bytes := print (graft lead (fragments f frs)).

Section Packager.
Context `{AESLaws} (method key iv : bytes) (b : Block) (tenc : drmTenc).

(** The IV a sample is encrypted with: padded, or the constant one. *)
Definition ivOf (s : sample) : bytes := padIV (ivFallback tenc iv) (p_iv s).

Definition encryptSample (s : sample) : bytes :=
  if bool_decide (method = cbcsMethod) then
    let '(crypt, skip) := pattern tenc (bool_decide (p_subs s <> [])) in
    cbcsReference (encStep b) (ivOf s) (p_data s) (p_subs s) (Z.to_nat crypt) (Z.to_nat skip)
  else ctrReference b (ivOf s) (p_data s) (p_subs s).

(** What the packager needs of a sample. *)
Definition sampleOk (u : run) (s : sample) : Prop :=
  Forall is_byte (p_data s) /\ len (p_data s) < 2 ^ 32 /\ Forall is_byte (p_iv s) /\ ivOf s <> [] /\
  subsTotal (p_subs s) <= len (p_data s) /\ printable (u_ivSize u) (u_hasSubs u) (entryOf s).

(** The IV sizes a senc box can have, and that its reader can tell which it is. *)
Definition runOk (u : run) : Prop :=
  (u_ivSize u = 0 /\ u_hasSubs u = true \/ u_ivSize u = 8 \/ u_ivSize u = 16) /\ Forall (sampleOk u) (u_samples u) /\
  (ivSizeHint tenc = u_ivSize u \/
   unambiguous (printEntries (u_hasSubs u) (entryOf <$> u_samples u)) (Z.of_nat (length (u_samples u))) (u_hasSubs u) (u_ivSize u)).

(** Data offsets are 32-bit integers. *)
Definition fragmentOk (us : list run) : Prop := Forall runOk us /\ moofSize us + 8 + len (mediaData p_data us) < 2 ^ 31.

Definition key_ok : Prop := len key = 16 /\ NewCipher key = Some b /\ Forall is_byte iv /\ tenc_ok tenc.

(** * Samples *)

Lemma fallback_bytes : key_ok -> Forall is_byte (ivFallback tenc iv).
Proof. intros (_ & _ & Hi & Ht). unfold ivFallback. destruct (_ && _); [apply Ht|done]. Qed.

Lemma ivOf_bytes u s : key_ok -> sampleOk u s -> Forall is_byte (ivOf s).
Proof. intros Hk Hs. apply padIV_bytes; [by apply fallback_bytes|apply Hs]. Qed.

Lemma encryptSample_ok u s : key_ok -> sampleOk u s ->
  length (encryptSample s) = length (p_data s) /\
  decryptSample method key tenc (MkEntry (ivOf s) (p_subs s)) (encryptSample s) = (Ok tt, p_data s).
Proof.
  intros Hk Hs. pose proof (ivOf_bytes u s Hk Hs) as Hi. destruct Hk as (Hlk & Hb & _ & Ht). destruct Hs as (Hd & _ & _ & _ & Hsub & _ & Hso & _).
  unfold encryptSample, decryptSample. cbn [e_IV e_Subsamples]. case_bool_decide.
  - destruct (pattern_ok tenc (bool_decide (p_subs s <> [])) Ht) as [Hc Hsk]. destruct (pattern tenc _) as [crypt skip]. cbn [fst snd] in *.
    destruct (cbcsReference_keeps (encStep b) (ivOf s) (p_subs s) (Z.to_nat crypt) (Z.to_nat skip) (encStep_ok b) Hi (p_data s) Hd) as [L B].
    split; [done|].
    destruct (drmDecryptCBCSubsamples_spec key (ivOf s) (cbcsReference (encStep b) (ivOf s) (p_data s) (p_subs s) (Z.to_nat crypt) (Z.to_nat skip)) (p_subs s) crypt skip b)
      as (_ & _ & E); [done..|]. cbv zeta in E. unfold len in E, Hsub. rewrite L in E. rewrite (proj2 (Z.leb_le _ _) Hsub) in E. rewrite E.
    f_equal. by apply cbcsReference_undo.
  - split; [apply length_ctrReference|]. rewrite (drmDecryptCTRSubsamples_eq key (ivOf s) _ (p_subs s) b) by done.
    by rewrite ctrReference_involutive.
Qed.

Lemma len_zero (s : bytes) : len s = 0 -> s = [].
Proof. destruct s; [done|]. unfold len. cbn [length]. lia. Qed.

Lemma overwrite_same pre s s' post off : length s' = length s -> off = length pre -> overwrite (pre ++ s ++ post) off s' = pre ++ s' ++ post.
Proof. intros Hl ->. rewrite overwrite_mid by done. rewrite Hl. by rewrite drop_app_length. Qed.

Lemma samples_loop_run u ss tfhd pre post : key_ok -> Forall (sampleOk u) ss -> tf_defaultSampleSize tfhd = None ->
  len (pre ++ runData p_data (MkRun 0 0 false ss) ++ post) < 2 ^ 62 ->
  samples_loop method key tenc tfhd (runSample <$> ss) ((fun s => MkEntry (ivOf s) (p_subs s)) <$> ss) (len pre)
    (pre ++ concat (encryptSample <$> ss) ++ post) = (Ok tt, pre ++ concat (p_data <$> ss) ++ post).
Proof.
  intros Hk Hss Hdef. revert pre. induction Hss as [|s ss Hs Hss IH]; intros pre Hl; [done|].
  destruct (encryptSample_ok u s Hk Hs) as [Le Ed]. unfold runData in *. cbn [u_samples fmap list_fmap concat samples_loop tail] in *. cbv zeta.
  rewrite !len_app in Hl. pose proof (len_nonneg pre). pose proof (len_nonneg post). pose proof (len_nonneg (p_data s)) as Hn. pose proof (len_nonneg (concat (p_data <$> ss))).
  assert (sampleSize tfhd (runSample s) = len (p_data s)) as ->.
  { unfold sampleSize. cbn [runSample ts_Size]. rewrite Hdef. destruct (Z.eqb_spec (len (p_data s)) 0) as [->|]; done. }
  rewrite <- !app_assoc.
  destruct (Z.eqb_spec (len (p_data s)) 0) as [E0|E0].
  - pose proof (len_zero _ E0) as E1. rewrite E1 in Le. apply nil_length_inv in Le.
    rewrite Le, E1. cbn [app]. apply IH. rewrite !len_app. lia.
  - rewrite int64_small by lia.
    assert (len (pre ++ encryptSample s ++ concat (encryptSample <$> ss) ++ post) <? len pre + len (p_data s) = false) as ->.
    { apply Z.ltb_ge. rewrite !len_app. pose proof (len_nonneg (concat (encryptSample <$> ss))). assert (len (encryptSample s) = len (p_data s)) by (unfold len; lia). lia. }
    cbn [e_IV]. assert (len (ivOf s) =? 0 = false) as ->.
    { apply Z.eqb_neq. destruct Hs as (_ & _ & _ & Hi & _). by intros ?%len_zero. }
    rewrite slice_mid by (rewrite ?len_app; unfold len; lia). rewrite Ed.
    rewrite overwrite_same by (unfold len; lia).
    replace (len pre + len (p_data s)) with (len (pre ++ p_data s)) by apply len_app. rewrite (app_assoc pre (p_data s)).
    rewrite IH; [by rewrite <- !app_assoc|]. rewrite !len_app. lia.
Qed.

(** * Sizes *)

Lemma len_header0 ty n : len (header false (bs ty) [] n) = 4 + len (bs ty).
Proof. unfold header. rewrite !len_app, len_beN. change (len []) with 0. lia. Qed.

Lemma len_leaf ty payload rest : len (print (leaf ty payload rest)) = 4 + len (bs ty) + len payload + len (print rest).
Proof. cbn [leaf print]. rewrite !len_app, len_header0. lia. Qed.

Lemma len_printTrun off u : len (printTrun (runTrun off u)) = 12 + 4 * Z.of_nat (length (u_samples u)).
Proof.
  unfold printTrun, runTrun. cbn [r_version r_dataOffset r_firstFlags r_samples fmap option_fmap option_map opt].
  rewrite !len_app, len_fullHeader, !len_beN. change (len []) with 0.
  rewrite len_printSamples. cbn [r_hasDuration r_hasSize r_hasFlags r_hasCTS onBit]. rewrite length_fmap. lia.
Qed.

Lemma len_runKids off u : len (print (runKids off u)) = len (print (runKids 0 u)).
Proof. unfold runKids. rewrite !len_leaf, !len_printTrun. done. Qed.

Lemma len_trafs off us : len (print (trafsForest off us)) = len (print (trafsForest 0 us)).
Proof.
  enough (forall o1 o2, len (print (trafsForest o1 us)) = len (print (trafsForest o2 us))) by done.
  induction us as [|u us IH]; intros o1 o2; [done|]. cbn [trafsForest print]. rewrite !len_app, !len_header0.
  rewrite (len_runKids o1), (len_runKids o2). f_equal. f_equal. apply IH.
Qed.

(** The parts of a run are smaller than the moof they are in. *)
Lemma runKids_wf off u : len (print (runKids off u)) < 2 ^ 31 -> wf (runKids off u).
Proof.
  unfold runKids. rewrite !len_leaf. change (len (print (FEnd []))) with 0. intros Hl.
  pose proof (len_nonneg (printTfhd (runTfhd u))). pose proof (len_nonneg (printSenc 0 (u_hasSubs u) (entryOf <$> u_samples u))).
  pose proof (len_nonneg (printTrun (runTrun off u))).
  change (len (bs "tfhd")) with 4 in Hl. change (len (bs "senc")) with 4 in Hl. change (len (bs "trun")) with 4 in Hl.
  cbn [leaf wf]. change (headerSize false []) with 8. unfold size_ok.
  split; [done|]. split; [by_decide|]. split; [done|]. split; [lia|].
  split; [done|]. split; [by_decide|]. split; [done|]. split; [lia|].
  split; [done|]. split; [by_decide|]. split; [done|]. split; [lia|]. done.
Qed.

Lemma trafs_wf off us : len (print (trafsForest off us)) < 2 ^ 31 -> wf (trafsForest off us) /\ (nesting (trafsForest off us) <= 1)%nat.
Proof.
  revert off. induction us as [|u us IH]; intros off Hl; [split; [done|cbn; lia]|]. cbn [trafsForest print wf nesting] in *.
  rewrite !len_app, len_header0 in Hl. change (len (bs "traf")) with 4 in Hl.
  pose proof (len_nonneg (print (runKids off u))). pose proof (len_nonneg (print (trafsForest (off + len (runData p_data u)) us))).
  destruct (IH (off + len (runData p_data u))) as [W N]; [lia|].
  split; [|change (nesting (runKids off u)) with 0%nat; lia].
  split; [by_decide|]. change (headerSize false []) with 8. split; [unfold size_ok; lia|]. split; [apply runKids_wf; lia|done].
Qed.

(** * Runs *)

Definition runTfhdRead : drmTfhd := MkTfhd None true None None false.

Lemma runTfhd_read u : drmParseTfhd (printTfhd (runTfhd u)) = Ok runTfhdRead.
Proof. by rewrite drmParseTfhd_print. Qed.

Lemma runTrun_read off u : - 2 ^ 31 <= off < 2 ^ 31 -> Forall (sampleOk u) (u_samples u) -> Z.of_nat (length (u_samples u)) < 2 ^ 32 ->
  drmParseTrun (printTrun (runTrun off u)) = Ok (runSample <$> u_samples u, off).
Proof.
  intros Ho Hs Hn. rewrite drmParseTrun_print; [done|]. split; [done|]. split; [done|]. cbn [runTrun r_samples].
  rewrite length_fmap. split; [|split; [done|by left]]. apply Forall_fmap. eapply Forall_impl; [exact Hs|].
  intros s (_ & Hl & _). pose proof (len_nonneg (p_data s)). split; [done|]. split; [by cbn; lia|]. done.
Qed.

Lemma printEntries_bytes hasSubs es : Forall (fun e => Forall is_byte (e_IV e)) es -> Forall is_byte (printEntries hasSubs es).
Proof.
  induction 1 as [|e es He _ IH]; [constructor|]. unfold printEntries in *. cbn [fmap list_fmap concat].
  apply Forall_app. split; [|done]. unfold printEntry. apply Forall_app. split; [done|]. destruct hasSubs; [|constructor].
  apply Forall_app. split; [apply beN_bytes|]. apply Forall_concat, Forall_fmap, Forall_true. intros s. change (Forall is_byte (printSub s)).
  unfold printSub. apply Forall_app. split; apply beN_bytes.
Qed.

Lemma runSenc_read u : runOk u -> Z.of_nat (length (u_samples u)) < 2 ^ 32 -> len (printEntries (u_hasSubs u) (entryOf <$> u_samples u)) < 2 ^ 32 ->
  drmParseSenc (printSenc 0 (u_hasSubs u) (entryOf <$> u_samples u)) (ivFallback tenc iv) (ivSizeHint tenc) =
    Ok ((fun s => MkEntry (ivOf s) (p_subs s)) <$> u_samples u).
Proof.
  intros (Hiv & Hs & Hu) Hn Hl. rewrite (drmParseSenc_print 0 (u_ivSize u)); [|done| | |by rewrite length_fmap|done|by rewrite length_fmap].
  - f_equal. rewrite <- list_fmap_compose. done.
  - apply Forall_fmap. eapply Forall_impl; [exact Hs|]. intros s Hso. apply Hso.
  - apply printEntries_bytes, Forall_fmap. eapply Forall_impl; [exact Hs|]. intros s Hso. apply Hso.
Qed.

Lemma readTraf_run off so u : - 2 ^ 31 <= off < 2 ^ 31 -> runOk u -> len (print (runKids off u)) < 2 ^ 31 ->
  readTraf iv tenc (boxesOf so (runKids off u)) (MkTraf None None None) =
    Ok (MkTraf (Some runTfhdRead) (Some (runSample <$> u_samples u, off)) (Some ((fun s => MkEntry (ivOf s) (p_subs s)) <$> u_samples u))).
Proof.
  intros Ho Hu Hl. unfold runKids in *. rewrite !len_leaf, len_printTrun in Hl. change (len (print (FEnd []))) with 0 in Hl.
  change (len (bs "tfhd")) with 4 in Hl. change (len (bs "senc")) with 4 in Hl. change (len (bs "trun")) with 4 in Hl.
  pose proof (len_nonneg (printTfhd (runTfhd u))). pose proof (len_nonneg (printEntries (u_hasSubs u) (entryOf <$> u_samples u))) as Hn.
  assert (len (printSenc 0 (u_hasSubs u) (entryOf <$> u_samples u)) = 8 + len (printEntries (u_hasSubs u) (entryOf <$> u_samples u))) as El.
  { unfold printSenc. rewrite !len_app, len_fullHeader, len_beN. lia. }
  cbn [leaf boxesOf readTraf b_Type b_Payload t_tfhd t_trun t_senc].
  change (bool_decide (bs "tfhd" = bs "tfhd")) with true. cbv iota. rewrite runTfhd_read. cbn [result_bind].
  change (bool_decide (bs "senc" = bs "tfhd")) with false. change (bool_decide (bs "senc" = bs "trun")) with false.
  change (bool_decide (bs "senc" = bs "senc")) with true. cbv iota. rewrite runSenc_read by (done || lia). cbn [result_bind t_tfhd t_trun t_senc].
  change (bool_decide (bs "trun" = bs "tfhd")) with false. change (bool_decide (bs "trun" = bs "trun")) with true. cbv iota.
  destruct Hu as (_ & Hs & _). rewrite runTrun_read by (done || lia). done.
Qed.

Lemma len_runData u : key_ok -> runOk u -> len (runData encryptSample u) = len (runData p_data u).
Proof.
  intros Hk (_ & Hs & _). unfold runData. induction Hs as [|s ss Hs _ IH]; [done|]. cbn [fmap list_fmap concat]. rewrite !len_app, IH.
  destruct (encryptSample_ok u s Hk Hs) as [L _]. unfold len. by rewrite L.
Qed.

Lemma len_mediaData us : key_ok -> Forall runOk us -> len (mediaData encryptSample us) = len (mediaData p_data us).
Proof.
  intros Hk. induction 1 as [|u us Hu _ IH]; [done|]. unfold mediaData in *. cbn [fmap list_fmap concat]. rewrite !len_app, IH.
  by rewrite len_runData.
Qed.

(** One traf: its samples, at [pre] in the media data. *)
Lemma traf_run off so u moofStart start pre post : key_ok -> runOk u -> - 2 ^ 31 <= off < 2 ^ 31 -> len (print (runKids off u)) < 2 ^ 31 ->
  moofStart + off = start + len pre -> 0 <= moofStart < 2 ^ 62 -> 0 <= start < 2 ^ 62 -> len (pre ++ runData p_data u ++ post) < 2 ^ 62 ->
  drmDecryptTraf method key iv tenc (boxesOf so (runKids off u)) moofStart (pre ++ runData encryptSample u ++ post) start =
    (Ok tt, pre ++ runData p_data u ++ post).
Proof.
  intros Hk Hu Ho Hl Hoff Hm Hst Hlen. unfold drmDecryptTraf. rewrite readTraf_run by done. cbv zeta. unfold baseOffset. cbn [runTfhdRead tf_baseDataOffset].
  rewrite !len_app in Hlen. pose proof (len_nonneg pre). pose proof (len_nonneg post). pose proof (len_nonneg (runData p_data u)).
  rewrite Hoff. rewrite (int64_small (start + len pre)) by lia. replace (start + len pre - start) with (len pre) by lia. rewrite int64_small by lia.
  rewrite (proj2 (Z.ltb_ge (len pre) 0)) by done. rewrite !length_fmap, Nat.eqb_refl. cbn [negb].
  destruct Hu as (_ & Hs & _). apply (samples_loop_run u); [done..|]. unfold runData in *. cbn [u_samples]. rewrite !len_app. lia.
Qed.

Lemma trafs_loop_skip base moofStart ms me l r out : Forall (fun x => b_Type x <> bs "traf") l ->
  trafs_loop method key iv tenc base moofStart ms me (l ++ r) out = trafs_loop method key iv tenc base moofStart ms me r out.
Proof. induction 1 as [|x l Hx _ IH]; [done|]. cbn [app trafs_loop]. by rewrite bool_decide_eq_false_2. Qed.

Lemma runKids_types off so u : Forall (fun x => b_Type x ∈ [bs "tfhd"; bs "senc"; bs "trun"]) (boxesOf so (runKids off u)).
Proof. cbn [runKids leaf boxesOf]. repeat constructor; cbn [b_Type]; set_solver. Qed.

Lemma inRange_mid pre s post f r s' a b' : f s = (r, s') -> length s' = length s -> a = len pre -> b' = a + len s ->
  inRange (pre ++ s ++ post) a b' f = (r, pre ++ s' ++ post).
Proof.
  intros Hf Hl -> ->. unfold inRange. rewrite slice_mid by done. rewrite Hf. f_equal. apply overwrite_same; [done|].
  unfold len. apply Nat2Z.id.
Qed.

Lemma trafs_loop_run us off hd m1 x d p moofStart ms me : key_ok -> Forall runOk us ->
  - 2 ^ 31 <= off -> off + len (mediaData p_data us) < 2 ^ 31 -> len (print (trafsForest off us)) < 2 ^ 31 ->
  let m := m1 ++ print (trafsForest off us) in
  ms = len hd + len m + len x -> me = ms + len d + len (mediaData p_data us) ->
  moofStart + off = ms + len d -> 0 <= moofStart < 2 ^ 62 -> me + len p < 2 ^ 62 ->
  trafs_loop method key iv tenc (len hd) moofStart ms me (boxesOf (len m1) (trafsForest off us))
    (hd ++ m ++ x ++ (d ++ mediaData encryptSample us) ++ p) = (Ok tt, hd ++ m ++ x ++ (d ++ mediaData p_data us) ++ p).
Proof.
  intros Hk Hus. revert off m1 d. induction Hus as [|u us Hu Hus IH]; intros off m1 d Ho1 Ho2 Hl m Ems Eme Eoff Hm Hlen; [done|].
  unfold m in *. clear m. cbn [trafsForest boxesOf print] in *. cbv zeta in *. set (rest := trafsForest (off + len (runData p_data u)) us) in *.
  unfold mediaData in *. cbn [fmap list_fmap concat] in *. fold (mediaData encryptSample us) (mediaData p_data us) in *.
  set (kids := runKids off u) in *. set (h := header false (bs "traf") [] (len (print kids))) in *.
  assert (len h = 8) as Eh by apply len_header0.
  rewrite !len_app in *. pose proof (len_nonneg (runData p_data u)). pose proof (len_nonneg (mediaData p_data us)). pose proof (len_nonneg (print kids)).
  pose proof (len_nonneg (print rest)). pose proof (len_nonneg hd). pose proof (len_nonneg m1). pose proof (len_nonneg x). pose proof (len_nonneg d). pose proof (len_nonneg p).
  pose proof (len_runData u Hk Hu) as Eu. pose proof (len_mediaData us Hk Hus) as Eus.
  cbn [trafs_loop b_Type]. change (bool_decide (bs "traf" = bs "traf")) with true. cbn [negb].
  unfold body. cbn [b_Start b_HdrSize b_Size]. change (headerSize false []) with 8.
  assert (slice (hd ++ (m1 ++ h ++ print kids ++ print rest) ++ x ++ (d ++ runData encryptSample u ++ mediaData encryptSample us) ++ p)
    (len hd + len m1 + 8) (len hd + len m1 + (8 + len (print kids))) = Ok (print kids)) as ->.
  { rewrite <- !app_assoc. rewrite (app_assoc m1), (app_assoc hd). apply slice_mid; rewrite !len_app; lia. }
  assert (wf kids) as Wk by (apply runKids_wf; fold kids; lia).
  cbn [result_bind]. rewrite drmParseBoxes_print by (done || unfold maxBoxDepth; change (nesting kids) with 0%nat; lia).
  rewrite (app_assoc hd), (app_assoc (hd ++ _) x).
  rewrite (inRange_mid _ _ p _ (Ok tt) (d ++ runData p_data u ++ mediaData encryptSample us)).
  - cbv iota beta. rewrite trafs_loop_skip.
    2: { eapply Forall_impl; [apply runKids_types|]. intros y Hy E. cbn beta in Hy. rewrite E in Hy. revert Hy. by_decide. }
    specialize (IH (off + len (runData p_data u)) (m1 ++ h ++ print kids) (d ++ runData p_data u)). fold rest in IH. cbv zeta in IH. rewrite !len_app in IH.
    rewrite <- !app_assoc in *. replace (len m1 + 8 + len (print kids)) with (len m1 + (len h + len (print kids))) by lia. apply IH; lia.
  - apply traf_run; try done; fold kids; rewrite ?len_app; lia.
  - rewrite !length_app. unfold len in Eu. lia.
  - rewrite !len_app. lia.
  - rewrite !len_app. lia.
Qed.

(** * Fragments *)

Definition fragmentTypes : list bytes := [bs "moof"; bs "traf"; bs "tfhd"; bs "senc"; bs "trun"; bs "mdat"].

Lemma trafs_types off so us : Forall (fun x => b_Type x ∈ [bs "traf"; bs "tfhd"; bs "senc"; bs "trun"]) (boxesOf so (trafsForest off us)).
Proof.
  revert off so. induction us as [|u us IH]; intros off so; [constructor|]. cbn [trafsForest boxesOf]. cbv zeta.
  constructor; [cbn [b_Type]; set_solver|]. apply Forall_app. split; [|apply IH].
  eapply Forall_impl; [apply runKids_types|]. intros x Hx. cbn beta in *. set_solver.
Qed.

Lemma moofs_loop_skip l r out : Forall (fun x => b_Type x <> bs "moof") l ->
  moofs_loop method key iv tenc (l ++ r) out = moofs_loop method key iv tenc r out.
Proof. induction 1 as [|x l Hx _ IH]; [done|]. cbn [app moofs_loop]. by rewrite bool_decide_eq_false_2. Qed.

Lemma nextMdat_skip l m r : Forall (fun x => b_Type x <> bs "mdat") l -> b_Type m = bs "mdat" -> nextMdat (l ++ m :: r) = Some m.
Proof.
  intros Hl Hm. unfold nextMdat. rewrite (list_find_app_r _ l) by (apply list_find_None; exact Hl). cbn [list_find]. rewrite decide_True by done. done.
Qed.

(** A list of types without [ty]. *)
Lemma types_ne (tys : list bytes) ty l : Forall (fun x => b_Type x ∈ tys) l -> ty ∉ tys -> Forall (fun x => b_Type x <> ty) l.
Proof. intros Hl Hty. eapply Forall_impl; [exact Hl|]. intros x Hx <-. done. Qed.

Lemma moof_run us a p : key_ok -> fragmentOk us ->
  let m := print (trafsForest (moofSize us + 8) us) in
  let h := header false (bs "moof") [] (len m) in
  let x := header false (bs "mdat") [] (len (mediaData p_data us)) in
  let ms := len a + 8 + len m + 8 in
  ms + len (mediaData p_data us) + len p < 2 ^ 62 ->
  drmDecryptMoof method key iv tenc (MkBox (bs "moof") (len a) 8 (8 + len m) m) ms (ms + len (mediaData p_data us))
    (a ++ h ++ m ++ x ++ mediaData encryptSample us ++ p) = (Ok tt, a ++ h ++ m ++ x ++ mediaData p_data us ++ p).
Proof.
  intros Hk [Hus Hsz] m h x ms Hl. assert (len h = 8) as Eh by apply len_header0. assert (len x = 8) as Ex by apply len_header0.
  assert (moofSize us = 8 + len m) as Em by (unfold moofSize, m; by rewrite (len_trafs (_ + 8))).
  pose proof (len_nonneg m). pose proof (len_nonneg a). pose proof (len_nonneg p). pose proof (len_nonneg (mediaData p_data us)).
  unfold drmDecryptMoof, body. cbn [b_Start b_HdrSize b_Size].
  assert (slice (a ++ h ++ m ++ x ++ mediaData encryptSample us ++ p) (0 + len a + 8) (0 + len a + (8 + len m)) = Ok m) as ->.
  { rewrite (app_assoc a). apply slice_mid; rewrite !len_app; lia. }
  destruct (trafs_wf (moofSize us + 8) us) as [W N]; [fold m; lia|].
  cbn [result_bind]. unfold m at 1. rewrite drmParseBoxes_print by (done || unfold maxBoxDepth; lia).
  pose proof (trafs_loop_run us (moofSize us + 8) (a ++ h) [] x [] p (len a) ms (ms + len (mediaData p_data us)) Hk Hus) as E.
  cbv zeta in E. fold m in E. cbn [app] in E. change (len []) with 0 in E. rewrite !len_app, Eh, Ex, <- !app_assoc in E. apply E; unfold ms; lia.
Qed.

Lemma moofs_loop_fragments frs a : key_ok -> Forall fragmentOk frs -> len (a ++ print (fragments p_data frs)) < 2 ^ 62 ->
  moofs_loop method key iv tenc (boxesOf (len a) (fragments encryptSample frs)) (a ++ print (fragments encryptSample frs)) =
    (Ok tt, a ++ print (fragments p_data frs)).
Proof.
  intros Hk Hfr. revert a. induction Hfr as [|us frs Hus Hfr IH]; intros a Hl; [done|].
  cbn [fragments foldr] in *. fold (fragments encryptSample frs) in *. fold (fragments p_data frs) in *.
  unfold fragment in *. cbn [leaf print boxesOf] in *. cbv zeta in *. pose proof (len_mediaData us Hk (proj1 Hus)) as Eus. rewrite Eus.
  set (m := print (trafsForest (moofSize us + 8) us)) in *. set (h := header false (bs "moof") [] (len m)) in *.
  set (x := header false (bs "mdat") [] (len (mediaData p_data us))) in *. change (headerSize false []) with 8 in *.
  assert (len h = 8) as Eh by apply len_header0. assert (len x = 8) as Ex by apply len_header0.
  set (pe := print (fragments encryptSample frs)) in *. set (pp := print (fragments p_data frs)) in *.
  assert (len pe = len pp) as Epp.
  { unfold pe, pp. clear - Hk Hfr H0. induction Hfr as [|us frs Hus Hfr IH]; [done|]. cbn [fragments foldr]. fold (fragments encryptSample frs) (fragments p_data frs).
    unfold fragment. cbn [leaf print]. rewrite (len_mediaData us Hk (proj1 Hus)). rewrite !len_app, IH. by rewrite (len_mediaData us Hk (proj1 Hus)). }
  rewrite !len_app in Hl. cbn [moofs_loop b_Type]. change (bool_decide (bs "moof" = bs "moof")) with true. cbn [negb].
  rewrite nextMdat_skip; [|eapply types_ne; [apply trafs_types|by_decide]|done]. unfold mdatStart, mdatEnd. cbn [b_Start b_HdrSize b_Size].
  pose proof (len_nonneg pp). pose proof (len_nonneg a). pose proof (len_nonneg m). pose proof (len_nonneg (mediaData p_data us)).
  assert (slice (a ++ h ++ m ++ x ++ mediaData encryptSample us ++ pe) (len a + 8 + len m + 8) (len a + 8 + len m + (8 + len (mediaData p_data us))) = Ok (mediaData encryptSample us)) as ->.
  { rewrite (app_assoc m), (app_assoc h), (app_assoc a). apply slice_mid; rewrite !len_app; lia. }
  replace (len a + 8 + len m + (8 + len (mediaData p_data us))) with (len a + 8 + len m + 8 + len (mediaData p_data us)) by lia.
  pose proof (moof_run us a pe Hk Hus) as Er. cbv zeta in Er. fold m in Er. fold h x in Er. rewrite Er by lia. clear Er.
  rewrite moofs_loop_skip by (eapply types_ne; [apply trafs_types|by_decide]).
  cbn [moofs_loop b_Type]. change (bool_decide (bs "mdat" = bs "moof")) with false. cbn [negb].
  specialize (IH (a ++ h ++ m ++ x ++ mediaData p_data us)). rewrite !len_app in IH. rewrite <- !app_assoc in IH.
  replace (len a + 8 + len m + 8 + len (mediaData p_data us)) with (len a + (len h + (len m + (len x + len (mediaData p_data us))))) by lia.
  apply IH. fold pp. lia.
Qed.

(** * Segments *)

Lemma print_graft f g : tight f -> print (graft f g) = print f ++ print g.
Proof. induction f as [junk|large ty ut payload rest IH|large ty kids _ rest IH]; cbn [tight graft print]; [by intros ->|..]; intros Ht; rewrite IH by done; by rewrite <- !app_assoc. Qed.

Lemma boxesOf_graft so f g : wf f -> tight f -> boxesOf so (graft f g) = boxesOf so f ++ boxesOf (so + len (print f)) g.
Proof.
  revert so. induction f as [junk|large ty ut payload rest IH|large ty kids _ rest IH]; intros so; cbn [wf tight graft boxesOf print app].
  - intros _ ->. by rewrite Z.add_0_r.
  - intros (Ht & _ & _ & _ & Hw) Hti. rewrite IH by done. rewrite !len_app, len_header by done. do 3 f_equal. lia.
  - intros (Hc & _ & _ & Hw) Hti. rewrite IH by done. destruct (container_type ty Hc) as [Ht _].
    rewrite !len_app, len_header by done. rewrite <- app_assoc. do 4 f_equal. lia.
Qed.

Lemma wf_graft f g : wf f -> wf g -> wf (graft f g).
Proof.
  induction f as [junk|large ty ut payload rest IH|large ty kids _ rest IH]; cbn [wf graft]; [done|..].
  - intros (Ht & Hc & Hu & Hs & Hw) Hg. do 4 (split; [done|]). by apply IH.
  - intros (Hc & Hs & Hk & Hw) Hg. do 3 (split; [done|]). by apply IH.
Qed.

Lemma nesting_graft f g : nesting (graft f g) = (nesting f `max` nesting g)%nat.
Proof. induction f as [junk|large ty ut payload rest IH|large ty kids _ rest IH]; cbn [nesting graft]; [done|done|rewrite IH; lia]. Qed.

Lemma fragments_wf frs : key_ok -> Forall fragmentOk frs -> wf (fragments encryptSample frs) /\ (nesting (fragments encryptSample frs) <= 2)%nat.
Proof.
  intros Hk. induction 1 as [|us frs [Hus Hsz] _ [W N]]; [split; [done|cbn; lia]|]. cbn [fragments foldr]. fold (fragments encryptSample frs).
  unfold fragment. pose proof (len_nonneg (mediaData p_data us)). pose proof (len_nonneg (print (trafsForest (moofSize us + 8) us))).
  assert (moofSize us = 8 + len (print (trafsForest (moofSize us + 8) us))) as Em by (unfold moofSize at 1; by rewrite (len_trafs (_ + 8))).
  destruct (trafs_wf (moofSize us + 8) us) as [Wt Nt]; [lia|]. cbn [leaf wf nesting]. change (headerSize false []) with 8. unfold size_ok.
  rewrite (len_mediaData us Hk Hus). split; [|lia]. split; [by_decide|]. split; [lia|]. split; [done|].
  split; [done|]. split; [by_decide|]. split; [done|]. split; [lia|done].
Qed.

Lemma fragments_types so frs : Forall (fun x => b_Type x ∈ fragmentTypes) (boxesOf so (fragments encryptSample frs)).
Proof.
  revert so. induction frs as [|us frs IH]; intros so; [constructor|]. cbn [fragments foldr]. fold (fragments encryptSample frs).
  unfold fragment. cbn [leaf boxesOf]. cbv zeta. constructor; [cbn [b_Type]; set_solver|]. apply Forall_app. split.
  - eapply Forall_impl; [apply trafs_types|]. intros x Hx. cbn beta in *. set_solver.
  - constructor; [cbn [b_Type]; set_solver|apply IH].
Qed.

Lemma drmFindTenc_app l r : Forall (fun x => b_Type x <> bs "stsd") r -> drmFindTenc (l ++ r) = drmFindTenc l.
Proof.
  intros Hr. induction l as [|x l IH]; cbn [app drmFindTenc].
  - induction Hr as [|x r Hx _ IH]; [done|]. cbn [drmFindTenc]. by rewrite bool_decide_eq_false_2.
  - destruct (negb _); [done|]. destruct (sinf_loop _ _ _) as [[t|]|]; done.
Qed.

(** Leading boxes: no fragment among them; a track encryption box is [tenc]. *)
Definition leadOk (lead : forest) : Prop :=
  wf lead /\ tight lead /\ (nesting lead <= maxBoxDepth)%nat /\ Forall (fun x => b_Type x <> bs "moof") (boxesOf 0 lead) /\
  drmFindTenc (boxesOf 0 lead) = Ok tenc.

Lemma decryptBuffer_segment lead frs : key_ok -> leadOk lead -> Forall fragmentOk frs -> len (segment p_data lead frs) < 2 ^ 62 ->
  decryptBuffer method key iv (segment encryptSample lead frs) = (Ok (segment p_data lead frs), segment p_data lead frs).
Proof.
  intros Hk (Hw & Hti & Hn & Hmoof & Htenc) Hfr Hl. destruct (fragments_wf frs Hk Hfr) as [Wf Nf]. unfold decryptBuffer.
  unfold segment at 1. rewrite drmParseBoxes_print by first [by apply wf_graft|rewrite nesting_graft; unfold maxBoxDepth in *; lia].
  rewrite boxesOf_graft by done. rewrite drmFindTenc_app by (eapply types_ne; [apply fragments_types|by_decide]). rewrite Htenc.
  rewrite moofs_loop_skip by done. unfold segment in *. rewrite !print_graft in * by done. rewrite Z.add_0_l.
  by rewrite moofs_loop_fragments.
Qed.

End Packager.

(** * Properties *)

(** The proxy's segment decryptor. *)
Definition segmentDecryptor `{AES} (p : DecryptParams) (raw : bytes) : option bytes :=
  match fst (drmDecryptInPlace p raw) with Ok plain => Some plain | Err _ => None end.

Section Properties.
Context `{AESLaws}.

Lemma drmDecryptBuf_packaged p lead frs b tenc inPlace : isCENC p ->
  let m := TrimSpace (ToUpper (d_Method p)) in
  key_ok (d_Key p) (d_IV p) b tenc -> leadOk tenc lead -> Forall (fragmentOk (d_IV p) tenc) frs -> len (segment p_data lead frs) < 2 ^ 62 ->
  let encrypted := segment (encryptSample m (d_IV p) b tenc) lead frs in
  drmDecryptBuf p encrypted inPlace = (Ok (segment p_data lead frs), if inPlace then segment p_data lead frs else encrypted).
Proof.
  intros Hm m Hk Hl Hf Hlen encrypted. unfold isCENC in Hm. fold m in Hm. unfold drmDecryptBuf. cbv zeta. fold m.
  assert (bool_decide (m = []) = false /\ bool_decide (m = bs "AES-128") = false /\ bool_decide (m = bs "SAMPLE-AES") = false) as (-> & -> & ->).
  { apply elem_of_cons in Hm as [-> |Hm]; [done|]. by apply list_elem_of_singleton in Hm as ->. }
  rewrite bool_decide_eq_true_2 by done. destruct Hk as (Hkl & Hk). rewrite Hkl. cbn [negb Z.eqb Pos.eqb].
  unfold drmDecryptCENC, encrypted. rewrite (decryptBuffer_segment m (d_Key p) (d_IV p) b tenc lead frs) by done. done.
Qed.

Lemma drmDecryptBuf_AES128 p b plain inPlace : TrimSpace (ToUpper (d_Method p)) = bs "AES-128" ->
  len (d_Key p) = 16 -> NewCipher (d_Key p) = Some b -> is_block (d_IV p) -> Forall is_byte plain ->
  drmDecryptBuf p (encryptCBC b (d_IV p) plain) inPlace = (Ok plain, if inPlace then padded plain else encryptCBC b (d_IV p) plain).
Proof.
  intros Hm Hk Hb Hi Hp. unfold drmDecryptBuf. rewrite Hm. cbv zeta. change (bool_decide (bs "AES-128" = [])) with false.
  change (bool_decide (bs "AES-128" = bs "AES-128")) with true. cbv iota. rewrite Hk. assert (len (d_IV p) = 16) as -> by (unfold len; destruct Hi; lia).
  cbn [negb Z.eqb Pos.eqb]. by apply drmCBC_spec.
Qed.

Lemma serveDecrypted_plain acquire sr opts p resp plain : up_length resp = len (up_body resp) -> len (up_body resp) <= maxSegmentBytes ->
  acquire (up_length resp) = true -> sr_Method sr <> bs "HEAD" -> segmentDecryptor p (up_body resp) = Some plain ->
  exists w, snd (serveDecrypted acquire segmentDecryptor sr opts p resp) = AData 200 w plain.
Proof.
  intros Hl Hm Ha Hh Hd. pose proof (len_nonneg (up_body resp)) as H0'. unfold serveDecrypted. rewrite (proj2 (Z.ltb_ge maxSegmentBytes _)) by lia.
  unfold segmentReservation. rewrite (proj2 (Z.ltb_ge (up_length resp) 0)) by lia. rewrite Ha. cbn [negb].
  assert (readSegment (up_body resp) (up_fail resp) (up_length resp) = Ok (up_body resp)) as ->.
  { unfold readSegment. rewrite (proj2 (Z.ltb_ge maxSegmentBytes _)), (proj2 (Z.leb_le 0 _)) by lia. unfold len in *.
    rewrite (proj2 (Z.ltb_ge (Z.of_nat _) _)) by lia. f_equal. apply take_ge. lia. }
  destruct (if 0 <? _ then _ else _) as [early held']. rewrite Hd. rewrite bool_decide_eq_false_2 by done. by eexists.
Qed.


End Properties.

(** A fragment with two samples in subsamples behind a styp box. *)
Definition wit_run : run := MkRun 1 8 true
  [MkSmp (replicate 20 7) [1; 2; 3; 4; 5; 6; 7; 8] [MkSub 1 4; MkSub 2 3]; MkSmp [9; 9] [1; 2; 3; 4; 5; 6; 7; 9] []].
Definition wit_lead : forest := leaf "styp" [105; 115; 111; 54] (FEnd []).
Definition wit_params : DecryptParams := MkDecrypt (bs " cenc") (replicate 16 3) [] [].

Lemma wit_sampleOk : Forall (sampleOk [] noTenc wit_run) (u_samples wit_run).
Proof.
  unfold wit_run, sampleOk, ivOf, printable, sub_ok, is_byte. cbn [u_samples].
  repeat (apply Forall_cons; split); [| |constructor]; split_and!; by_decide || done.
Qed.

Lemma wit_fragmentOk : fragmentOk [] noTenc [wit_run].
Proof.
  split; [|reflexivity]. apply Forall_cons. split; [|constructor]. split; [by right; left|]. split; [apply wit_sampleOk|]. right.
  unfold unambiguous. cbn [u_hasSubs wit_run]. constructor; [by right|]. constructor; [by left|]. constructor; [by right|constructor].
Qed.

Lemma wit_leadOk : leadOk noTenc wit_lead.
Proof.
  unfold leadOk, wit_lead. cbn [leaf wf tight boxesOf]. unfold size_ok. split_and!; by_decide || done || reflexivity.
Qed.

Lemma wit_key_ok : key_ok (H := toyAES) (d_Key wit_params) (d_IV wit_params) (replicate 16 3) noTenc.
Proof. split; [reflexivity|]. split; [reflexivity|]. split; [constructor|apply noTenc_ok]. Qed.

